(* ===== verification/_CoqProject ===== *)
-Q . S2P
Prelude.v
GoHeap.v
GoStrings.v
GoJson.v
GoPath.v
Kube.v
GoSystem.v
GoFlag.v
GlobFacts.v
Api.v
Admission.v
Pinning.v
Archive.v
CriProxy.v
CriProxyMain.v
Policies.v
Retention.v
RetentionProofs.v
ConcurrentRetention.v
GarbageCollector.v
Creator.v
Triggers.v
TriggersProofs.v
ConcurrentCreator.v
ScheduledRound.v
Schedule.v
Lifecycle.v
PodRestore.v
Convergence.v
ApiCopies.v
Checksum.v
Forensic.v
ForensicProofs.v
Evidence.v
System.v
OperatorMain.v
