(* ===== verification/Prelude.v ===== *)
(** * Verification of the checkpoint-restore operator

    The operator keeps container checkpoints of a Kubernetes cluster: it takes
    them (on a schedule, on events, or as a forensic chain), rotates them on the
    nodes according to retention policies, and restores Pods from them through a
    proxy in front of the container runtime.  This library models its Go code
    under [src/api/v1], [src/internal] and [src/cmd] as executable
    definitions and proves the properties that make each part correct.

    ** Parts of the program and files of the development

    - [Prelude]: results ([Ok]/[Err] for Go's [(T, error)]), 32- and 64-bit
      integers with their wrap-around, the [cro] hint database, the tactic
      [to_prop] and shared list lemmas.
    - [GoHeap]: pointers, slices and structs in memory, for what depends on sharing.
    - [GoStrings], [GoJson], [GoPath]: what the code uses of Go's [strings],
      [strconv], [encoding/json] and [path/filepath] (including [Match]).
    - [Kube]: times, conditions, finalizers, quantities, Pods, API errors and
      [RetryOnConflict], as the vendored Kubernetes libraries define them.
    - [GoSystem], [GlobFacts]: a file system with unreadable and unwritable
      paths, the [os] calls, [filepath.Glob] and the contract of [sort.Slice]
      (a class with insertion sort as an instance).
    - [GoFlag]: [flag.Parse].
    - [Api]: the four custom resources ([src/api/v1/*_types.go]) and the
      validators of checkpoint paths; [Admission]: what their CRDs admit, from the
      validation markers in the same files.
    - [ApiCopies]: [src/api/v1/zz_generated.deepcopy.go].
    - [Pinning]: the [.keep] markers ([checkpoint_pinning.go] and the marker
      functions of [podrestore_controller.go]).
    - [Archive]: [internal/checkpointarchive/archive.go].
    - [CriProxy]: [internal/criproxy/proxy.go] and the listener set-up of
      [cmd/cri-proxy/main.go]; [CriProxyMain]: [main] of the proxy, from the flags
      to the exit code.
    - [Policies], [Retention], [RetentionProofs], [GarbageCollector]: the policy
      variables, the rotation of one scope, its proofs, and the event loop, the
      retried reads and the restarts of [checkpointrestoreoperator_controller.go];
      [ConcurrentRetention]: evaluations step by step, in concurrent goroutines.
    - [Creator]: [checkpoint_creator.go]: the retried kubelet request and the
      per-target lock table.
    - [Triggers], [TriggersProofs]: [pod_selector.go], [schedule_trigger.go],
      [annotation_trigger.go], [event_trigger.go], [resource_trigger.go].
    - [ConcurrentCreator]: concurrent calls of [createCheckpoint] over the shared
      lock table; [ScheduledRound]: the goroutines and the wait group of
      [runScheduledCheckpoints] on top of them.
    - [Schedule]: [checkpointschedule_controller.go]; [Lifecycle]: its trigger table
      and mutex together with the goroutines, tickers, stop channels and wait groups
      of the triggers.
    - [PodRestore]: [podrestore_controller.go]; [Convergence]: repeated passes of it
      with API faults, a changing Pod and a changing directory in between.
    - [Checksum], [Forensic], [ForensicProofs]: [checksum.go] and
      [forensicsnapshotchain_controller.go]; [Evidence]: a chain and the collector
      over one checkpoint directory.
    - [System]: the PodRestore controller, the policy reconciler, the collector and
      the pod informer ([PodWatcher]) over the checkpoint directory of one node.
    - [OperatorMain]: [cmd/main.go], [api/v1/groupversion_info.go] and every
      [SetupWithManager].

    ** How state and effects are modelled

    Package variables, reconcilers and the API server are records passed along;
    each handler is one definition from a world to a result and a world, composed
    as the Go functions call each other.  An API call may fail with any error, as
    a fault oracle indexed by the number of calls says; a conflict stands for a
    concurrent writer.  Go maps are [gmap]s; where Go leaves an iteration or
    goroutine order open, the order is a parameter.  Concurrency appears as
    explicit interleavings: of pins, unpins and collections ([Pinning]), of lock
    callers ([Creator]), of checkpoint calls and the goroutines of a scheduled round
    ([ConcurrentCreator.ck_step], [ScheduledRound.round_step]), of retention
    evaluations ([ConcurrentRetention.costep]), of collector goroutines
    ([GarbageCollector.sys_step]), of trigger goroutines with the controller ([Lifecycle.exec]), of the goroutines of
    the proxy ([CriProxyMain.pstep]) and of the parts of the operator
    ([System.sys_exec]).  Objects are values; [ApiCopies] shows where the code relies
    on copies for this to be right.
    Logging is left out, except for the "retention limit unreachable" reports.

    ** What the theorems show

    - Retention ([RetentionProofs]): a rotation of one scope refines an abstract
      one (remove the oldest unpinned archives until both limits hold); the limits
      hold afterwards or only pinned archives are left; the eviction is
      oldest-first and minimal; a pinned archive is never removed by any entry
      point; a more specific policy shields its archives from the wider levels;
      and what an API error does to the orphan check.
    - ConcurrentRetention: an evaluation taken step by step and left alone computes
      the sequential [applyPolicies]; with any interference it ends, removes only
      unpinned archives it has read in its scope and rotates no more than its own
      listing has over the limit; two at once can still leave fewer archives than the
      limit ([concurrent_overdeletion]).
    - Pinning: the marker document round-trips, a crash during a write leaves the
      old or the new marker, pin and unpin implement a reference count of owners,
      and an archive stays while somebody holds a pin, under any interleaving.
    - Archive, CriProxy: extraction stays inside its directory and its size limit,
      identities are read exactly and fail closed, the two readers agree, and only
      authorised restores reach the runtime.
    - PodRestore: the only Pod created is the validated restore Pod, which then
      passes the proxy; pins are taken before and released on deletion; Ready
      reflects the Pod; a steady state causes no write; and whatever faults came
      before, two passes without faults converge to the restore Pod and a Ready
      condition that tells its state ([Convergence]).
    - Forensic: every reconcile is a stutter or one step of an abstract machine;
      evidence is append-only and hash-linked, terminal phases are final,
      deletions follow a durable completion, and a chain terminates; with the
      case of an invalid selector, which does not.  [Evidence] bounds what the
      collector leaves of the recorded archives when nobody pins them.
    - ConcurrentCreator, ScheduledRound: in every interleaving the kubelet sees the
      calls for a target one after another, each call refines the sequential
      [createCheckpoint] on the answers it got, all calls return without deadlock
      and leave the table empty; a scheduled round refines the sequential
      [runScheduledCheckpoints] that the other theorems use, and returns.
    - Lifecycle: once [stopTriggers] has returned, the triggers of the key make no
      request any more; [Stop] returns under fair scheduling; the table refines the
      one of [Schedule]; only a bad ticker interval can panic.
    - CriProxyMain: whatever the interleaving, the runtime only sees requests the
      gate lets through, under the flags given, and every other call as it is; each
      accepted call is answered once, with the runtime's answer or a refusal; a graceful stop ends with code 0; the health server changes nothing.
    - ApiCopies: a deep copy of any API object is isolated from the original, and
      the snapshot comparison of the PodRestore status, made in memory that is
      updated in place, agrees with the value-level [saveStatus].
    - System: the status "pinned" is truthful and pins last until their owner is
      deleted, whatever else the operator, the kubelet and the users do.
    - OperatorMain: the process runs completely set up or not at all, its settings
      are the typed values of its flags, and a restore goes through from the
      operator's command line to the runtime exactly when the two commands agree on
      the directory.
    - GarbageCollector, Creator, Triggers, Schedule: debouncing, retries, restarts
      without loss of the collector lock, exclusive checkpoints per target, and
      the exact requests each trigger and each schedule makes.

    Several statements describe behaviour that differs from the documentation or
    from the apparent intent: [orphan_api_error], [cross_namespace_eviction],
    [concurrent_overdeletion],
    [pin_stat_race], [hash_failure_restarts_chain],
    [invalid_selector_never_terminates], [resource_ticker_panics],
    [resource_cooldown_ignores_namespace],
    [triggers_started_once], [tombstones_are_ignored],
    [standby_keeps_initial_policies] and [completed_chain_loses_evidence].

    ** Fuel and bounds

    [GoJson.parse_value] has the length of the text as fuel and [GoPath] and
    [GoSystem.Glob] the length of the pattern, each an upper bound on the depth of
    the recursion; [Creator.create_loop], [GarbageCollector.read_attempts],
    [Kube.OnConflict] and [Checksum.wait_helper] count down the attempts the code
    allows (3, the given number, 5 and 30).  [GoFlag.Parse] has one round per
    argument, which is enough ([parse_loop_fuel]).  [ForensicProofs.chain_terminates]
    holds for every limit the CRD admits, also where the 32-bit counter of attempts
    wraps around; the counter of a wait group is an unbounded integer.  Termination of the concurrent parts is
    proved by a measure of the operations left and by progress in every reachable
    state, without fuel.  JSON
    texts, paths and logs are byte strings; case folding and white space are those
    of ASCII.

    ** Not modelled

    Logging, gRPC and HTTP as protocols, controller-runtime and the informers (their
    answers and events are parameters), the vendored copies of large library types,
    and the third-party decoders of archives, which are parameters
    ([Archive.ArchiveEnv]).  In [System] a reconcile is one step; the steps inside a
    pin are in [Pinning].  In [ConcurrentRetention] the reading of one archive is one
    step, and a sort is one step with any order of the files.  In [Lifecycle] the requests of one poll take place one by
    one, with outcomes fixed when the poll starts.  A request whose answer is lost
    after the API server has applied it appears as a fault of the following call,
    which leaves the same world.  [NewCheckpointCreator] and the [checkpointer] methods
    only choose between a test double and the creator modelled here.
    Of a Pod only the fields the operator reads or sets are kept; the cache of the
    API client is taken to be up to date apart from injected conflicts. *)

From stdpp Require Export base tactics list strings gmap sorting.
From Stdlib Require Export Ascii ZArith Lia.

(** String concatenation computes on a constructor. *)
#[global] Arguments String.append !_ _ / : simpl nomatch.
#[global] Arguments String.eqb : simpl never.

(** ** Results of fallible Go code

    A Go function returning [(T, error)] becomes a [result E T]: [Ok v] stands
    for [(v, nil)] and [Err e] for a non-nil error.  Error values are
    structured (one constructor per error site), never formatted text. *)
Inductive result (E A : Type) : Type :=
| Ok (a : A)
| Err (e : E).
Arguments Ok {E A} a.
Arguments Err {E A} e.

#[export] Instance result_ret E : MRet (result E) := fun A a => Ok a.
#[export] Instance result_bind E : MBind (result E) := fun A B f m =>
  match m with Ok a => f a | Err e => Err e end.
#[export] Instance result_fmap E : FMap (result E) := fun A B f m =>
  match m with Ok a => Ok (f a) | Err e => Err e end.

Definition map_err {E F A} (f : E -> F) (r : result E A) : result F A :=
  match r with Ok a => Ok a | Err e => Err (f e) end.

Definition is_ok {E A} (r : result E A) : bool :=
  match r with Ok _ => true | Err _ => false end.

(** [err != nil] *)
Definition err_set {E} (err : option E) : bool :=
  match err with Some _ => true | None => false end.

#[export] Instance result_eq_dec {E A} `{EqDecision E, EqDecision A} :
  EqDecision (result E A).
Proof. solve_decision. Defined.

Declare Scope go_scope.
Delimit Scope go_scope with go.

(** [if err := c; err != nil { return err }; k] *)
Notation "'try!' x ':=' c 'in' k" :=
  (match c with Ok x => k | Err e => Err e end)
  (at level 10, x pattern, c at level 100, k at level 200,
   format "'[v' 'try!'  x  ':='  c  'in' '/' k ']'") : go_scope.
Open Scope go_scope.

(** ** Go integers

    Go's signed integers wrap around; [int] is 64 bits wide on every platform
    the operator is built for. *)
Definition wrap (w : Z) (z : Z) : Z :=
  ((z + 2 ^ (w - 1)) mod 2 ^ w - 2 ^ (w - 1))%Z.
Definition int32 (z : Z) : Z := wrap 32 z.
Definition int64 (z : Z) : Z := wrap 64 z.
Definition MaxInt32 : Z := 2147483647.
Definition MaxInt64 : Z := 9223372036854775807.

(** ** Tactics *)

(** Destruct the scrutinee of some [match] or [if] of the goal, keeping the
    equation, and discard impossible branches. *)
Ltac split_match :=
  match goal with
  | |- context [match ?x with _ => _ end] =>
      lazymatch x with
      | context [match _ with _ => _ end] => fail
      | _ => let E := fresh "Em" in destruct x eqn:E
      end
  end; simplify_eq/=.

(** The same on a hypothesis. *)
Ltac split_match_in H :=
  match type of H with
  | context [match ?x with _ => _ end] =>
      lazymatch x with
      | context [match _ with _ => _ end] => fail
      | _ => let E := fresh "Em" in destruct x eqn:E
      end
  end; simplify_eq/=.

Ltac split_matches := repeat split_match.
Ltac split_matches_in H := repeat (split_match_in H).

(** Turn boolean facts into propositions. *)
Ltac to_prop :=
  repeat match goal with
  | H : context [_ && _ = true] |- _ => rewrite andb_true_iff in H
  | H : context [_ && _ = false] |- _ => rewrite andb_false_iff in H
  | H : context [_ || _ = true] |- _ => rewrite orb_true_iff in H
  | H : context [_ || _ = false] |- _ => rewrite orb_false_iff in H
  | H : context [negb _ = true] |- _ => rewrite negb_true_iff in H
  | H : context [negb _ = false] |- _ => rewrite negb_false_iff in H
  | H : bool_decide _ = true |- _ => apply bool_decide_eq_true in H
  | H : bool_decide _ = false |- _ => apply bool_decide_eq_false in H
  | H : (_ <? _)%Z = true |- _ => apply Z.ltb_lt in H
  | H : (_ <? _)%Z = false |- _ => apply Z.ltb_ge in H
  | H : (_ <=? _)%Z = true |- _ => apply Z.leb_le in H
  | H : (_ <=? _)%Z = false |- _ => apply Z.leb_gt in H
  | H : (_ =? _)%Z = true |- _ => apply Z.eqb_eq in H
  | H : (_ =? _)%Z = false |- _ => apply Z.eqb_neq in H
  | H : (_ =? _)%string = true |- _ => apply String.eqb_eq in H
  | H : (_ =? _)%string = false |- _ => apply String.eqb_neq in H
  end.

(** Hint database of the development: facts about strings, lists and integers
    that close side conditions. *)
Create HintDb cro.
Create Rewrite HintDb cro.

(** ** Integer lemmas *)

Lemma wrap_id w z : (0 < w -> - 2 ^ (w - 1) <= z < 2 ^ (w - 1) -> wrap w z = z)%Z.
Proof.
  intros Hw Hz. unfold wrap.
  assert (2 ^ w = 2 * 2 ^ (w - 1))%Z as Hp.
  { rewrite <- Z.pow_succ_r by lia. f_equal; lia. }
  rewrite Z.mod_small; lia.
Qed.

Lemma wrap_range w z : (0 < w -> - 2 ^ (w - 1) <= wrap w z < 2 ^ (w - 1))%Z.
Proof.
  intros Hw. unfold wrap.
  assert (2 ^ w = 2 * 2 ^ (w - 1))%Z as Hp.
  { rewrite <- Z.pow_succ_r by lia. f_equal; lia. }
  pose proof (Z.pow_pos_nonneg 2 (w - 1)).
  pose proof (Z.mod_pos_bound (z + 2 ^ (w - 1)) (2 ^ w)). lia.
Qed.

Lemma int32_id z : (- 2147483648 <= z <= MaxInt32)%Z -> int32 z = z.
Proof. intros H. apply wrap_id; unfold MaxInt32 in *; lia. Qed.

Lemma int64_id z : (- 9223372036854775808 <= z <= MaxInt64)%Z -> int64 z = z.
Proof. intros H. apply wrap_id; unfold MaxInt64 in *; lia. Qed.

Lemma int32_range z : (- 2147483648 <= int32 z <= MaxInt32)%Z.
Proof. pose proof (wrap_range 32 z). unfold int32, MaxInt32. lia. Qed.

#[export] Hint Resolve int32_id int64_id int32_range : cro.

(** ** List lemmas *)

Lemma filter_negb_length {A} (f : A -> bool) (l : list A) :
  length (List.filter f l) + length (List.filter (fun x => negb (f x)) l) = length l.
Proof. induction l as [|a l IH]; simpl; [done|]. destruct (f a); simpl; lia. Qed.

Lemma list_filter_all {A} (f : A -> bool) (l : list A) :
  (forall x, In x l -> f x = true) -> List.filter f l = l.
Proof.
  induction l as [|a l IH]; simpl; intros H; [done|].
  rewrite H by auto. f_equal. auto.
Qed.

(** Sums over a list of which one element changes. *)
Lemma sum_list_update {A} (f : A -> nat) (l : list A) i x y :
  l !! i = Some x -> (sum_list_with f (<[i := y]> l) + f x = sum_list_with f l + f y)%nat.
Proof.
  revert i. induction l as [|z l IH]; intros [|i] H; try done; simpl.
  - injection H as ->. lia.
  - specialize (IH i H). lia.
Qed.

Lemma sum_list_ge {A} (f : A -> nat) (l : list A) i x :
  l !! i = Some x -> (f x <= sum_list_with f l)%nat.
Proof.
  revert i. induction l as [|z l IH]; intros [|i] H; try done; simpl.
  - injection H as ->. lia.
  - specialize (IH i H). lia.
Qed.

Lemma int32_add_l a b : (int32 (int32 a + b) = int32 (a + b))%Z.
Proof.
  unfold int32, wrap. f_equal.
  replace ((a + 2 ^ (32 - 1)) mod 2 ^ 32 - 2 ^ (32 - 1) + b + 2 ^ (32 - 1))%Z
    with ((a + 2 ^ (32 - 1)) mod 2 ^ 32 + b)%Z by lia.
  rewrite Zplus_mod_idemp_l. f_equal. lia.
Qed.
