(* ===== verification/GoHeap.v ===== *)
(** * Go memory: pointers, slices, structs

    The operations the generated deep copies are written with.  A heap is a list of
    cells, [new] and [make] append one, so two objects share memory exactly when
    the locations they reach meet.  [read] follows a value of a Go type through the
    heap: the tree it denotes and the locations visited.  A map is a reference to a
    table of entries, like a slice of pairs. *)

From S2P Require Import Prelude.
Open Scope string_scope.
Open Scope list_scope.

(** ** Types, values, heaps *)

Inductive scalar := SInt (z : Z) | SBool (b : bool) | SString (s : string).

Inductive gty :=
| TScalar
| TPtr (t : gty)
| TSlice (t : gty)
| TStruct (fields : list (string * gty)).

(** A slice is [nil] or an array with an offset and a length; the rest of the array
    is its spare capacity. *)
Inductive gval :=
| VScalar (s : scalar)
| VPtr (l : option nat)
| VSlice (s : option (nat * nat * nat))
| VStruct (fields : list (string * gval))
| VArray (elems : list gval).

Abbreviation heap := (list gval).
Definition M (A : Type) : Type := heap -> A * heap.

#[export] Instance M_ret : MRet M := fun A a h => (a, h).
#[export] Instance M_bind : MBind M := fun A B f m h => let '(a, h) := m h in f a h.

(** What [new] and [make] fill the memory with; the copies overwrite it. *)
Definition zero : gval := VStruct [].

Definition alloc (c : gval) : M nat := fun h => (length h, h ++ [c]).
Definition load (l : nat) : M gval := fun h => (default zero (h !! l), h).
Definition store (l : nat) (c : gval) : M unit := fun h => (tt, <[l := c]> h).

Definition array_at (h : heap) (l : nat) : list gval :=
  match h !! l with Some (VArray a) => a | _ => [] end.
Definition set_elem (l i : nat) (v : gval) : M unit :=
  fun h => (tt, <[l := VArray (<[i := v]> (array_at h l))]> h).
Definition elements (l off n : nat) : M (list gval) := fun h => (take n (drop off (array_at h l)), h).

Fixpoint field_of (vs : list (string * gval)) (n : string) : gval :=
  match vs with
  | [] => zero
  | (m, v) :: vs => if m =? n then v else field_of vs n
  end.
Definition field (v : gval) (n : string) : gval := match v with VStruct vs => field_of vs n | _ => zero end.

Fixpoint set_field_of (vs : list (string * gval)) (n : string) (x : gval) : list (string * gval) :=
  match vs with
  | [] => []
  | (m, v) :: vs => if m =? n then (m, x) :: vs else (m, v) :: set_field_of vs n x
  end.
Definition set_field (v : gval) (n : string) (x : gval) : gval :=
  match v with VStruct vs => VStruct (set_field_of vs n x) | _ => v end.

(** ** Statements of a deep copy

    A copier takes the value of [*in] to the one it leaves in [*out]. *)
Definition copier := gval -> M gval.

(** [*out = *in] *)
Definition assign : copier := fun v => mret v.

(** [if in == nil { return nil }; out := new(T); in.DeepCopyInto(out); return out];
    a pointer field is copied by the same steps. *)
Definition DeepCopy (f : copier) : copier := fun v =>
  match v with
  | VPtr (Some l) =>
      o ← alloc zero; c ← load l; c' ← f c; _ ← store o c'; mret (VPtr (Some o))
  | _ => mret v
  end.

(** [if in.F != nil { *out = new(T); **out = **in }] *)
Definition new_assign : copier := fun v =>
  match v with
  | VPtr (Some l) => o ← alloc zero; c ← load l; _ ← store o c; mret (VPtr (Some o))
  | _ => mret v
  end.

(** A pointer to a value whose [DeepCopy] returns a value: [x := in.DeepCopy()],
    then the address of [x]. *)
Definition value_copy (f : copier) : copier := fun v =>
  match v with
  | VPtr (Some l) => c ← load l; x ← f c; o ← alloc x; mret (VPtr (Some o))
  | _ => mret v
  end.

(** Allocate an array of the same length and [copy] the elements. *)
Definition make_copy : copier := fun v =>
  match v with
  | VSlice (Some (l, off, n)) =>
      o ← alloc (VArray (repeat zero n)); es ← elements l off n; _ ← store o (VArray es);
      mret (VSlice (Some (o, 0, n)))
  | _ => mret v
  end.

(** Allocate an array of the same length and [DeepCopyInto] each element. *)
Fixpoint copy_loop (f : copier) (o i : nat) (es : list gval) : M unit :=
  match es with
  | [] => mret tt
  | e :: es => v ← f e; _ ← set_elem o i v; copy_loop f o (S i) es
  end.
Definition make_into (f : copier) : copier := fun v =>
  match v with
  | VSlice (Some (l, off, n)) =>
      o ← alloc (VArray (repeat zero n)); es ← elements l off n; _ ← copy_loop f o 0 es;
      mret (VSlice (Some (o, 0, n)))
  | _ => mret v
  end.

(** A [DeepCopyInto]: [*out = *in], then one statement for each field named. *)
Fixpoint run_fields (ss : list (string * copier)) (in_ out : gval) : M gval :=
  match ss with
  | [] => mret out
  | (n, f) :: ss => x ← f (field in_ n); run_fields ss in_ (set_field out n x)
  end.
Definition copy_struct (ss : list (string * copier)) : copier := fun in_ => run_fields ss in_ in_.

(** ** Reading a value *)

Inductive tree :=
| AScalar (s : scalar)
| ANil
| APtr (a : tree)
| ASlice (l : list tree)
| AStruct (fields : list (string * tree)).

Definition collect (r : list (tree * list nat)) : list tree * list nat := (r.*1, concat (r.*2)).

Fixpoint read (h : heap) (t : gty) (v : gval) {struct t} : option (tree * list nat) :=
  match t, v with
  | TScalar, VScalar s => Some (AScalar s, [])
  | TPtr _, VPtr None => Some (ANil, [])
  | TPtr t, VPtr (Some l) =>
      c ← h !! l; r ← read h t c; Some (APtr r.1, l :: r.2)
  | TSlice _, VSlice None => Some (ANil, [])
  | TSlice t, VSlice (Some (l, off, n)) =>
      match h !! l with
      | Some (VArray a) =>
          if (off + n <=? length a)%nat then
            r ← mapM (read h t) (take n (drop off a)); Some (ASlice (collect r).1, l :: (collect r).2)
          else None
      | _ => None
      end
  | TStruct fs, VStruct vs =>
      r ← (fix fields fs vs :=
             match fs, vs with
             | [], [] => Some ([], [])
             | (n, t) :: fs, (m, v) :: vs =>
                 if n =? m then
                   r ← read h t v; rs ← fields fs vs; Some ((n, r.1) :: rs.1, r.2 ++ rs.2)
                 else None
             | _, _ => None
             end) fs vs;
      Some (AStruct r.1, r.2)
  | _, _ => None
  end.

Fixpoint read_fields (h : heap) (fs : list (string * gty)) (vs : list (string * gval))
  : option (list (string * tree) * list nat) :=
  match fs, vs with
  | [], [] => Some ([], [])
  | (n, t) :: fs, (m, v) :: vs =>
      if n =? m then
        r ← read h t v; rs ← read_fields h fs vs; Some ((n, r.1) :: rs.1, r.2 ++ rs.2)
      else None
  | _, _ => None
  end.

(** A type without references. *)
Fixpoint flat (t : gty) : bool :=
  match t with
  | TScalar => true
  | TStruct fs => forallb (fun f => flat f.2) fs
  | _ => false
  end.

Section gty_induction.
Context (P : gty -> Prop).
Context (HS : P TScalar) (HP : forall t, P t -> P (TPtr t)) (HL : forall t, P t -> P (TSlice t)).
Context (HR : forall fs, Forall (fun f => P f.2) fs -> P (TStruct fs)).

Fixpoint gty_nested_ind (t : gty) : P t :=
  match t with
  | TScalar => HS
  | TPtr t => HP t (gty_nested_ind t)
  | TSlice t => HL t (gty_nested_ind t)
  | TStruct fs => HR fs ((fix go fs : Forall (fun f => P f.2) fs :=
                            match fs with
                            | [] => List.Forall_nil _
                            | f :: fs => List.Forall_cons _ _ _ (gty_nested_ind f.2) (go fs)
                            end) fs)
  end.
End gty_induction.

(** ** Facts about reading *)

Lemma read_struct h fs vs :
  read h (TStruct fs) (VStruct vs) =
  (r ← read_fields h fs vs; Some (AStruct r.1, r.2)).
Proof.
  simpl. f_equal. revert vs. induction fs as [|[n t] fs IH]; intros [|[m v] vs]; simpl; try done.
  destruct (n =? m); [|done]. by destruct (read h t v) as [r|]; simpl; [rewrite <- IH|].
Qed.

Lemma read_fields_cons h n t fs m v vs r :
  read_fields h ((n, t) :: fs) ((m, v) :: vs) = Some r <->
  m = n /\ exists a rs, read h t v = Some a /\ read_fields h fs vs = Some rs /\
                        r = ((n, a.1) :: rs.1, a.2 ++ rs.2).
Proof.
  simpl. destruct (n =? m) eqn:E; to_prop; [subst|naive_solver].
  destruct (read h t v) as [a|]; simpl; [|naive_solver].
  destruct (read_fields h fs vs) as [rs|]; simpl; naive_solver.
Qed.

Lemma collect_cons r rs : collect (r :: rs) = (r.1 :: (collect rs).1, r.2 ++ (collect rs).2).
Proof. done. Qed.

Lemma mapM_agree {A B} (f g : A -> option B) (foot : B -> list nat) (ok : nat -> Prop) l r :
  (forall x y, f x = Some y -> (forall i, i ∈ foot y -> ok i) -> g x = Some y) ->
  mapM f l = Some r -> (forall i, i ∈ concat (map foot r) -> ok i) -> mapM g l = Some r.
Proof.
  intros Hfg. revert r. induction l as [|x l IH]; intros r; simpl; [done|].
  destruct (f x) as [y|] eqn:E; [|done]. simpl. destruct (mapM f l) as [r'|]; [|done]. simpl.
  intros [= <-] Hok. rewrite (Hfg _ _ E), (IH r'); [done..| |]; intros i Hi; apply Hok; simpl; set_solver.
Qed.

(** Only the locations visited matter. *)
Lemma read_agree h h' t v r :
  read h t v = Some r -> (forall l, l ∈ r.2 -> h' !! l = h !! l) -> read h' t v = Some r.
Proof.
  revert v r. induction t as [|t IH|t IH|fs IH] using gty_nested_ind; intros v r; destruct v as [s|o|o|vs|a]; try done.
  - destruct o as [l|]; [|done]. simpl. destruct (h !! l) as [c|] eqn:El; [|done]. simpl.
    destruct (read h t c) as [r'|] eqn:Er; [|done]. simpl. intros [= <-] Ha. simpl in Ha.
    rewrite Ha, El by set_solver. simpl. rewrite (IH _ _ Er); [done|]. intros. apply Ha. set_solver.
  - destruct o as [[[l off] n]|]; [|done]. simpl. destruct (h !! l) as [[| | | |a]|] eqn:El; try done.
    destruct (off + n <=? length a)%nat eqn:En; [|done].
    destruct (mapM (read h t) _) as [rs|] eqn:Er; [|done]. simpl. intros [= <-] Ha. simpl in Ha.
    rewrite Ha, El by set_solver. rewrite En.
    rewrite (mapM_agree (read h t) (read h' t) snd (fun l => h' !! l = h !! l) _ rs); [done|..].
    + intros x y Hx Hy. by apply (IH x y).
    + done.
    + intros i Hi. apply Ha. apply elem_of_cons. right. exact Hi.
  - rewrite !read_struct. destruct (read_fields h fs vs) as [rs|] eqn:Er; [|done]. simpl.
    intros [= <-] Ha. simpl in Ha. assert (read_fields h' fs vs = Some rs) as ->; [|done].
    clear -IH Er Ha. revert vs rs Er Ha. induction IH as [|[n t] fs Ht _ IHf]; intros [|[m v] vs] rs Er Ha; try done.
    apply read_fields_cons in Er as (-> & a & rs' & Hr & Hrs & ->). apply read_fields_cons. simpl in Ha.
    split; [done|]. exists a, rs'. split; [|split; [|done]].
    + apply Ht; [done|]. intros. apply Ha. set_solver.
    + apply IHf; [done|]. intros. apply Ha. set_solver.
Qed.

(** Every location visited is allocated. *)
Lemma read_bound h t v r l : read h t v = Some r -> l ∈ r.2 -> l < length h.
Proof.
  revert v r. induction t as [|t IH|t IH|fs IH] using gty_nested_ind; intros v r; destruct v as [s|o|o|vs|a]; try done.
  - intros [= <-] Hl. by apply elem_of_nil in Hl.
  - destruct o as [k|]; simpl; [|intros [= <-] Hl; by apply elem_of_nil in Hl].
    destruct (h !! k) as [c|] eqn:Ek; [|done]. simpl. destruct (read h t c) as [r'|] eqn:Er; [|done].
    intros [= <-] [->|Hl]%elem_of_cons; [by eapply lookup_lt_Some|by eapply IH].
  - destruct o as [[[k off] n]|]; simpl; [|intros [= <-] Hl; by apply elem_of_nil in Hl].
    destruct (h !! k) as [[| | | |a]|] eqn:Ek; try done. destruct (off + n <=? length a)%nat; [|done].
    destruct (mapM (read h t) _) as [rs|] eqn:Er; [|done]. simpl.
    intros [= <-] [->|Hl]%elem_of_cons; [by eapply lookup_lt_Some|]. simpl in Hl.
    revert rs Er Hl. induction (take n (drop off a)) as [|x xs IHx]; intros rs; simpl.
    + intros [= <-] Hl. by apply elem_of_nil in Hl.
    + destruct (read h t x) as [y|] eqn:Ey; [|done]. simpl. destruct (mapM (read h t) xs) as [ys|]; [|done].
      intros [= <-] [Hl|Hl]%elem_of_app; [by eapply IH|by eapply IHx].
  - rewrite read_struct. destruct (read_fields h fs vs) as [rs|] eqn:Er; [|done]. intros [= <-]. simpl.
    revert vs rs Er. induction IH as [|[n t] fs Ht _ IHf]; intros [|[m v] vs] rs Er Hl; try done.
    + simpl in Er. simplify_eq. by apply elem_of_nil in Hl.
    + apply read_fields_cons in Er as (-> & a & rs' & Hr & Hrs & ->).
      apply elem_of_app in Hl as [Hl|Hl]; [by eapply Ht|by eapply IHf].
Qed.

Lemma flat_read h t v r : flat t = true -> read h t v = Some r -> r.2 = [].
Proof.
  revert v r. induction t as [|t IH|t IH|fs IH] using gty_nested_ind; intros v r Hf; try done.
  - destruct v; [intros [= <-]|..]; done.
  - destruct v as [| | |vs|]; try done. rewrite read_struct. simpl in Hf.
    destruct (read_fields h fs vs) as [rs|] eqn:Er; [|done]. intros [= <-]. simpl.
    revert vs rs Er Hf. induction IH as [|[n t] fs Ht _ IHf]; intros [|[m v] vs] rs Er Hf; try done.
    + by simplify_eq/=.
    + apply read_fields_cons in Er as (-> & a & rs' & Hr & Hrs & ->). simpl in *. to_prop.
      destruct Hf as [Hf1 Hf2]. by rewrite (Ht _ _ Hf1 Hr), (IHf _ _ Hrs Hf2).
Qed.

(** Allocation and writes elsewhere keep what is read. *)
Lemma read_prefix h h' t v r : h `prefix_of` h' -> read h t v = Some r -> read h' t v = Some r.
Proof.
  intros [k ->] Hr. eapply read_agree; [done|]. intros l Hl. apply lookup_app_l. by eapply read_bound.
Qed.

(** ** Deep copies *)

(** Distinct locations, allocated between two heaps. *)
Definition fresh_between (h h' : heap) (ls : list nat) : Prop :=
  NoDup ls /\ forall l, l ∈ ls -> length h <= l < length h'.

(** What a copy promises: it keeps the old heap, denotes the same tree, and is
    itself a tree in new memory. *)
Definition copied (h : heap) (t : gty) (a : tree) (v' : gval) (h' : heap) : Prop :=
  h `prefix_of` h' /\ exists ls, read h' t v' = Some (a, ls) /\ fresh_between h h' ls.

Class DeepCopies (t : gty) (f : copier) : Prop :=
  deep_copies h v a ls : read h t v = Some (a, ls) -> copied h t a (f v h).1 (f v h).2.

Lemma fresh_nil h h' : fresh_between h h' [].
Proof. split; [constructor|]. intros l Hl. by apply elem_of_nil in Hl. Qed.

Lemma fresh_app h h1 h2 ls1 ls2 :
  length h <= length h1 -> length h1 <= length h2 ->
  fresh_between h h1 ls1 -> fresh_between h1 h2 ls2 -> fresh_between h h2 (ls1 ++ ls2).
Proof.
  intros H1 H2 [Hn1 Hf1] [Hn2 Hf2]. split.
  - apply NoDup_app. split_and!; [done| |done]. intros l Hl1 Hl2. specialize (Hf1 _ Hl1). specialize (Hf2 _ Hl2). lia.
  - intros l [Hl|Hl]%elem_of_app; [specialize (Hf1 _ Hl)|specialize (Hf2 _ Hl)]; lia.
Qed.

Lemma fresh_cons h h1 h2 ls :
  length h < length h1 -> length h1 <= length h2 ->
  fresh_between h1 h2 ls -> fresh_between h h2 (length h :: ls).
Proof.
  intros H1 H2 [Hn Hf]. split.
  - constructor; [|done]. intros Hl. specialize (Hf _ Hl). lia.
  - intros l [->|Hl]%elem_of_cons; [lia|]. specialize (Hf _ Hl). lia.
Qed.

Lemma copied_length h t a v h' : copied h t a v h' -> length h <= length h'.
Proof. intros [[k ->] _]. rewrite length_app. lia. Qed.

(** What was copied stays copied in a larger heap. *)
Lemma copied_prefix h t a v h' h'' : copied h t a v h' -> h' `prefix_of` h'' -> copied h t a v h''.
Proof.
  intros [Hp (ls & Hr & [Hn Hf])] Hp'. split; [by etrans|]. exists ls. split; [by eapply read_prefix|].
  split; [done|]. intros l Hl. apply prefix_length in Hp'. specialize (Hf _ Hl). lia.
Qed.

#[export] Instance flat_copies t : flat t = true -> DeepCopies t assign.
Proof.
  intros Hf h v a ls Hr. split; [done|]. exists ls. split; [done|].
  apply (flat_read h t v (a, ls) Hf) in Hr. simpl in Hr. subst. apply fresh_nil.
Qed.

(** The cell allocated first is overwritten last. *)
Lemma prefix_insert {A} (h h' : list A) c d : h ++ [c] `prefix_of` h' -> h `prefix_of` <[length h := d]> h'.
Proof.
  intros [k ->]. exists (d :: k). rewrite insert_app_l by (rewrite length_app; simpl; lia).
  rewrite insert_app_r_alt by lia. rewrite Nat.sub_diag. simpl. by rewrite <- app_assoc.
Qed.

Lemma prefix_snoc {A} (h : list A) c : h `prefix_of` h ++ [c].
Proof. by exists [c]. Qed.

(** Closing an object whose first cell was reserved before its parts were copied. *)
Lemma copied_cell h c0 t a v' h' :
  copied (h ++ [c0]) t a v' h' ->
  copied h (TPtr t) (APtr a) (VPtr (Some (length h))) (<[length h := v']> h').
Proof.
  intros Hc. pose proof (copied_length _ _ _ _ _ Hc) as Hlen. rewrite length_app in Hlen. simpl in Hlen.
  destruct Hc as [Hp (ls & Hr & Hf)]. split; [by eapply prefix_insert|].
  exists (length h :: ls). split.
  - simpl. rewrite list_lookup_insert_eq by lia. simpl.
    rewrite (read_agree h' _ t v' (a, ls) Hr); [done|]. intros l Hl. rewrite list_lookup_insert_ne; [done|].
    destruct Hf as [_ Hf]. specialize (Hf l Hl). rewrite length_app in Hf. simpl in Hf. lia.
  - apply (fresh_cons h (h ++ [c0])); [rewrite length_app; simpl; lia|rewrite length_insert, length_app; simpl; lia|].
    destruct Hf as [Hn Hf]. split; [done|]. intros l Hl. rewrite length_insert. by apply Hf.
Qed.

Lemma read_ptr_inv h t v r :
  read h (TPtr t) v = Some r ->
  v = VPtr None /\ r = (ANil, []) \/
  exists l c r', v = VPtr (Some l) /\ h !! l = Some c /\ read h t c = Some r' /\ r = (APtr r'.1, l :: r'.2).
Proof.
  destruct v as [|[l|]| | |]; simpl; try done; [|by intros [= <-]; left].
  destruct (h !! l) as [c|] eqn:E; [|done]. simpl. destruct (read h t c) as [r'|] eqn:Er; [|done].
  intros [= <-]. right. eauto 10.
Qed.

Lemma nil_copied h t v r :
  read h t v = Some r -> r.2 = [] -> copied h t r.1 v h.
Proof. intros Hr Hn. split; [done|]. exists []. rewrite Hr. destruct r; simpl in *. subst. split; [done|apply fresh_nil]. Qed.

#[export] Instance DeepCopy_copies t f : DeepCopies t f -> DeepCopies (TPtr t) (DeepCopy f).
Proof.
  intros Hf h v a ls Hr. pose proof Hr as Hr0. apply read_ptr_inv in Hr as [[-> [= -> ->]]|(l & c & [a' ls'] & -> & Hl & Hc & [= -> ->])].
  - by apply (nil_copied _ _ _ _ Hr0).
  - unfold DeepCopy, alloc, load, store, mbind, M_bind, mret, M_ret.
    rewrite lookup_app_l by (by eapply lookup_lt_Some). rewrite Hl. simpl.
    pose proof (Hf (h ++ [zero]) c a' ls' (read_prefix _ _ _ _ _ (prefix_snoc _ _) Hc)) as Hcp.
    destruct (f c (h ++ [zero])) as [c' h']. simpl in *. by eapply copied_cell.
Qed.

Lemma new_assign_eq v h : new_assign v h = DeepCopy assign v h.
Proof. by destruct v as [|[l|]| | |]. Qed.

#[export] Instance new_assign_copies t : flat t = true -> DeepCopies (TPtr t) new_assign.
Proof. intros Hf h v a ls Hr. rewrite new_assign_eq. eapply (DeepCopy_copies t assign _ h v a ls Hr). Unshelve. by apply flat_copies. Qed.

#[export] Instance value_copy_copies t f : DeepCopies t f -> DeepCopies (TPtr t) (value_copy f).
Proof.
  intros Hf h v a ls Hr. pose proof Hr as Hr0. apply read_ptr_inv in Hr as [[-> [= -> ->]]|(l & c & [a' ls'] & -> & Hl & Hc & [= -> ->])].
  - by apply (nil_copied _ _ _ _ Hr0).
  - unfold value_copy, alloc, load, mbind, M_bind, mret, M_ret. rewrite Hl. simpl.
    destruct (Hf h c a' ls' Hc) as [Hp (ls1 & Hr1 & [Hn Hf1])]. destruct (f c h) as [c' h']. simpl in *.
    split; [by apply prefix_app_r|]. exists (length h' :: ls1). simpl.
    rewrite lookup_app_r, Nat.sub_diag by lia. simpl.
    rewrite (read_prefix _ _ _ _ _ (prefix_snoc _ _) Hr1). split; [done|]. apply prefix_length in Hp. split.
    + constructor; [|done]. intros Hl1. specialize (Hf1 _ Hl1). lia.
    + intros k. rewrite length_app. simpl. intros [->|Hk]%elem_of_cons; [lia|]. specialize (Hf1 _ Hk). lia.
Qed.

Lemma fresh_length h1 h2 h1' h2' ls :
  length h1 = length h1' -> length h2 = length h2' -> fresh_between h1 h2 ls -> fresh_between h1' h2' ls.
Proof. unfold fresh_between. by intros -> ->. Qed.

Lemma mapM_read_bound h t es rs l : mapM (read h t) es = Some rs -> l ∈ concat (rs.*2) -> l < length h.
Proof.
  intros H%mapM_Some_1. induction H as [|e r es rs He _ IH]; simpl; intros Hl; [by apply elem_of_nil in Hl|].
  apply elem_of_app in Hl as [Hl|Hl]; [by eapply read_bound|by apply IH].
Qed.

Lemma mapM_read_agree h h' t es rs :
  mapM (read h t) es = Some rs -> (forall l, l ∈ concat (rs.*2) -> h' !! l = h !! l) ->
  mapM (read h' t) es = Some rs.
Proof. intros H Ha. eapply (mapM_agree (read h t) _ snd (fun l => h' !! l = h !! l)); [|done..]. intros x y. apply read_agree. Qed.

(** One step of the loop: the element is copied, and stored in its slot. *)
Lemma copy_one f t (Hf : DeepCopies t f) h o outs rest e a ls :
  h !! o = Some (VArray (outs ++ zero :: rest)) -> read h t e = Some (a, ls) ->
  exists v h1, f e h = (v, h1) /\ copied h t a v h1 /\
    (set_elem o (length outs) v h1).2 = <[o := VArray ((outs ++ [v]) ++ rest)]> h1.
Proof.
  intros Ho Hr. pose proof (Hf h e a ls Hr) as Hc. destruct (f e h) as [v h1]. simpl in Hc. exists v, h1.
  split; [done|]. split; [done|]. unfold set_elem, array_at. simpl.
  destruct Hc as [[k ->] _]. rewrite lookup_app_l, Ho by (by eapply lookup_lt_Some).
  rewrite (insert_app_r_alt outs), Nat.sub_diag by lia. simpl. by rewrite <- app_assoc.
Qed.

Lemma copy_loop_copies f t (Hf : DeepCopies t f) es h o outs rs :
  h !! o = Some (VArray (outs ++ repeat zero (length es))) ->
  mapM (read h t) es = Some rs -> o ∉ concat (rs.*2) ->
  exists h' outs' rs', copy_loop f o (length outs) es h = (tt, h') /\ length h <= length h' /\
    (forall l, l < length h -> l <> o -> h' !! l = h !! l) /\
    h' !! o = Some (VArray (outs ++ outs')) /\ length outs' = length es /\
    mapM (read h' t) outs' = Some rs' /\ rs'.*1 = rs.*1 /\ fresh_between h h' (concat (rs'.*2)).
Proof.
  revert h outs rs. induction es as [|e es IH]; intros h outs rs Ho Hm Hno.
  - injection Hm as <-. exists h, [], []. simpl in Ho. repeat (split; [done|]). apply fresh_nil.
  - simpl in Hm. destruct (read h t e) as [[a ls]|] eqn:Er; [|done]. simpl in Hm.
    destruct (mapM (read h t) es) as [rs0|] eqn:Em; [|done]. simpl in Hm. injection Hm as <-. simpl in Hno.
    destruct (copy_one f t Hf h o outs (repeat zero (length es)) e a ls Ho Er) as (v & h1 & Hv & Hc & Hset).
    pose proof (lookup_lt_Some _ _ _ Ho) as Hol. pose proof (copied_length _ _ _ _ _ Hc) as Hlen.
    destruct Hc as [[k Hk] (ls1 & Hr1 & Hf1)].
    set (h2 := <[o := VArray ((outs ++ [v]) ++ repeat zero (length es))]> h1) in *.
    assert (length h2 = length h1) as Hl2 by apply length_insert.
    assert (forall l, l < length h -> l <> o -> h2 !! l = h !! l) as Hsame.
    { intros l Hl Hne. unfold h2. rewrite list_lookup_insert_ne by done. by rewrite Hk, lookup_app_l. }
    destruct (IH h2 (outs ++ [v]) rs0) as (h' & outs' & rs' & Hloop & Hlen' & Hold & Ho' & Hn' & Hr' & Hfst & Hfr).
    + unfold h2. by rewrite list_lookup_insert_eq by lia.
    + eapply mapM_read_agree; [done|]. intros l Hl. apply Hsame; [by eapply mapM_read_bound|]. intros ->. apply Hno, elem_of_app. by right.
    + intros Hin. apply Hno, elem_of_app. by right.
    + exists h', (v :: outs'), ((a, ls1) :: rs'). cbn [copy_loop]. unfold mbind, M_bind. rewrite Hv.
      destruct (set_elem o (length outs) v h1) as [[] h2'] eqn:Es. simpl in Hset. subst h2'.
      rewrite length_app, Nat.add_1_r in Hloop. split; [done|]. split; [lia|].
      split; [intros l Hl Hne; rewrite Hold by lia; by apply Hsame|].
      rewrite <- app_assoc in Ho'. split; [done|]. split; [simpl; lia|].
      assert (read h' t v = Some (a, ls1)) as Hrv.
      { eapply read_agree; [done|]. intros l Hl. apply Hf1 in Hl. rewrite Hold by lia.
        unfold h2. by rewrite list_lookup_insert_ne by lia. }
      simpl. rewrite Hrv. simpl. rewrite Hr'. simpl. split; [done|]. split; [exact (f_equal (cons a) Hfst)|].
      apply (fresh_app h h2 h'); [lia..| |done]. by eapply fresh_length; [..|exact Hf1].
Qed.

Lemma read_slice_inv h t v r :
  read h (TSlice t) v = Some r ->
  v = VSlice None /\ r = (ANil, []) \/
  exists l off n arr rs, v = VSlice (Some (l, off, n)) /\ h !! l = Some (VArray arr) /\ off + n <= length arr /\
    mapM (read h t) (take n (drop off arr)) = Some rs /\ r = (ASlice (rs.*1), l :: concat (rs.*2)).
Proof.
  destruct v as [| |[[[l off] n]|]| |]; simpl; try done; [|by intros [= <-]; left].
  destruct (h !! l) as [[| | | |arr]|] eqn:El; try done. destruct (off + n <=? length arr)%nat eqn:En; [|done].
  destruct (mapM (read h t) _) as [rs|] eqn:Em; [|done]. intros [= <-]. right.
  exists l, off, n, arr, rs. split_and!; try done. by apply Nat.leb_le in En.
Qed.

Lemma read_slice h t o es rs :
  h !! o = Some (VArray es) -> mapM (read h t) es = Some rs ->
  read h (TSlice t) (VSlice (Some (o, 0, length es))) = Some (ASlice (rs.*1), o :: concat (rs.*2)).
Proof. intros Ho Hm. simpl. rewrite Ho, Nat.leb_refl, drop_0, firstn_all, Hm. done. Qed.

Lemma array_at_snoc h l arr c : h !! l = Some (VArray arr) -> array_at (h ++ [c]) l = arr.
Proof. intros Hl. unfold array_at. by rewrite lookup_app_l, Hl by (by eapply lookup_lt_Some). Qed.

Lemma slice_length (arr : list gval) off n : off + n <= length arr -> length (take n (drop off arr)) = n.
Proof. intros. rewrite length_take, length_drop. lia. Qed.

Lemma prefix_agree {A} (h h' : list A) :
  (forall l, l < length h -> h' !! l = h !! l) -> h `prefix_of` h'.
Proof.
  intros Ha. exists (drop (length h) h'). rewrite <- (take_drop (length h) h') at 1. f_equal.
  apply list_eq. intros i. destruct (decide (i < length h)) as [Hi|Hi].
  - rewrite lookup_take_lt by done. by apply Ha.
  - rewrite lookup_take_ge by lia. symmetry. apply lookup_ge_None. lia.
Qed.

#[export] Instance make_into_copies t f : DeepCopies t f -> DeepCopies (TSlice t) (make_into f).
Proof.
  intros Hf h v a ls Hr. pose proof Hr as Hr0.
  apply read_slice_inv in Hr as [[-> [= -> ->]]|(l & off & n & arr & rs & -> & Hl & Hn & Hm & [= -> ->])].
  { by apply (nil_copied _ _ _ _ Hr0). }
  unfold make_into, alloc, elements, mbind, M_bind, mret, M_ret. rewrite (array_at_snoc _ _ _ _ Hl).
  pose proof (slice_length arr off n Hn) as Hlen. set (es := take n (drop off arr)) in *.
  destruct (copy_loop_copies f t Hf es (h ++ [VArray (repeat zero n)]) (length h) [] rs)
    as (h' & outs & rs' & Hloop & Hlen' & Hold & Ho & Hno & Hm' & Hfst & Hfr).
  - rewrite lookup_app_r, Nat.sub_diag by lia. by rewrite Hlen.
  - eapply mapM_read_agree; [done|]. intros k Hk. apply lookup_app_l. by eapply mapM_read_bound.
  - intros Hk. apply (mapM_read_bound _ _ _ _ _ Hm) in Hk. lia.
  - change (length []) with 0 in Hloop. rewrite Hloop.
    rewrite length_app in Hlen', Hold. simpl in Hlen', Hold. split.
    + apply prefix_agree. intros k Hk. simpl. rewrite Hold by lia. by rewrite lookup_app_l.
    + exists (length h :: concat (rs'.*2)). simpl fst. simpl snd. rewrite <- Hlen, <- Hno, <- Hfst.
      split; [by apply read_slice|].
      apply (fresh_cons h (h ++ [VArray (repeat zero n)])); [rewrite length_app; simpl; lia|rewrite length_app; simpl; lia|done].
Qed.

Lemma flat_mapM h h' t es rs :
  flat t = true -> mapM (read h t) es = Some rs ->
  mapM (read h' t) es = Some rs /\ concat (rs.*2) = [].
Proof.
  intros Hf Hm. assert (concat (rs.*2) = []) as Hn.
  { apply mapM_Some_1 in Hm. induction Hm as [|e r es rs He _ IH]; [done|]. simpl. by rewrite (flat_read _ _ _ _ Hf He). }
  split; [|done]. eapply mapM_read_agree; [done|]. intros l. rewrite Hn. by intros ?%elem_of_nil.
Qed.

#[export] Instance make_copy_copies t : flat t = true -> DeepCopies (TSlice t) make_copy.
Proof.
  intros Hf h v a ls Hr. pose proof Hr as Hr0.
  apply read_slice_inv in Hr as [[-> [= -> ->]]|(l & off & n & arr & rs & -> & Hl & Hn & Hm & [= -> ->])].
  { by apply (nil_copied _ _ _ _ Hr0). }
  unfold make_copy, alloc, elements, store, mbind, M_bind, mret, M_ret. rewrite (array_at_snoc _ _ _ _ Hl).
  pose proof (slice_length arr off n Hn) as Hlen. set (es := take n (drop off arr)) in *. simpl fst. simpl snd.
  rewrite insert_app_r_alt, Nat.sub_diag by lia. simpl.
  split; [by exists [VArray es]|]. exists [length h].
  destruct (flat_mapM h (h ++ [VArray es]) t es rs Hf Hm) as [Hm' Hnil]. split.
  - rewrite <- Hlen, <- Hnil. apply read_slice; [|done]. by rewrite lookup_app_r, Nat.sub_diag by lia.
  - split; [apply NoDup_singleton|]. intros k ->%list_elem_of_singleton. rewrite length_app. simpl. lia.
Qed.

(** Every field with references has its statement, in the order of the fields. *)
Inductive covers : list (string * gty) -> list (string * copier) -> Prop :=
| covers_nil : covers [] []
| covers_skip n t fs ss : flat t = true -> covers fs ss -> covers ((n, t) :: fs) ss
| covers_take n t f fs ss : DeepCopies t f -> covers fs ss -> covers ((n, t) :: fs) ((n, f) :: ss).

Lemma field_of_app pre n v vs : n ∉ pre.*1 -> field_of (pre ++ (n, v) :: vs) n = v.
Proof.
  induction pre as [|[m x] pre IH]; simpl; intros Hn; [by rewrite String.eqb_refl|].
  destruct (m =? n) eqn:E; to_prop; [set_solver|]. apply IH. set_solver.
Qed.

Lemma set_field_of_app pre n v vs x :
  n ∉ pre.*1 -> set_field_of (pre ++ (n, v) :: vs) n x = pre ++ (n, x) :: vs.
Proof.
  induction pre as [|[m y] pre IH]; simpl; intros Hn; [by rewrite String.eqb_refl|].
  destruct (m =? n) eqn:E; to_prop; [set_solver|]. f_equal. apply IH. set_solver.
Qed.

Lemma read_fields_prefix h h' fs vs r :
  h `prefix_of` h' -> read_fields h fs vs = Some r -> read_fields h' fs vs = Some r.
Proof.
  intros Hp. revert vs r. induction fs as [|[k tk] fs IH]; intros [|[m w] vs] r Hr; try done.
  apply read_fields_cons in Hr as (-> & b & rs & Hb & Hrs & ->). apply read_fields_cons. split; [done|].
  exists b, rs. split; [by eapply read_prefix|]. split; [by apply IH|done].
Qed.

Lemma run_fields_copies fs ss h pre_in pre_out vs r :
  covers fs ss -> NoDup (fs.*1) ->
  (forall n, n ∈ fs.*1 -> (n ∉ pre_in.*1) /\ (n ∉ pre_out.*1)) -> read_fields h fs vs = Some r ->
  exists ws h' ls, run_fields ss (VStruct (pre_in ++ vs)) (VStruct (pre_out ++ vs)) h = (VStruct (pre_out ++ ws), h') /\
    h `prefix_of` h' /\ read_fields h' fs ws = Some (r.1, ls) /\ fresh_between h h' ls.
Proof.
  intros Hc. revert h pre_in pre_out vs r.
  induction Hc as [|n t fs ss Hflat Hc IH|n t f fs ss Hf Hc IH]; intros h pi po vs r Hnd Hfresh Hr.
  - destruct vs; [|done]. simplify_eq/=. exists [], h, []. split; [done|]. split; [done|]. split; [done|apply fresh_nil].
  - destruct vs as [|[m v] vs]; [done|]. apply read_fields_cons in Hr as (-> & [a la] & rs & Hv & Hvs & ->).
    apply NoDup_cons in Hnd as [Hnin Hnd].
    destruct (IH h (pi ++ [(n, v)]) (po ++ [(n, v)]) vs rs) as (ws & h' & ls & He & Hp & Hrd & Hfr); [done| |done|].
    { intros k Hk. destruct (Hfresh k) as [H1 H2]; [simpl; set_solver|]. rewrite !fmap_app. set_solver. }
    rewrite <- !app_assoc in He. simpl in He. exists ((n, v) :: ws), h', ls. split; [done|]. split; [done|].
    pose proof (flat_read _ _ _ _ Hflat Hv) as Hnil. simpl in Hnil. subst la.
    split; [|done]. apply read_fields_cons. split; [done|]. exists (a, []), (rs.1, ls).
    split; [by eapply read_prefix|done].
  - destruct vs as [|[m v] vs]; [done|]. apply read_fields_cons in Hr as (-> & [a la] & rs & Hv & Hvs & ->).
    apply NoDup_cons in Hnd as [Hnin Hnd]. destruct (Hfresh n) as [Hni Hno]; [simpl; set_solver|].
    cbn [run_fields]. unfold mbind, M_bind. unfold field. rewrite field_of_app by done.
    pose proof (Hf h v a la Hv) as Hcp. destruct (f v h) as [x h1]. simpl in Hcp.
    unfold set_field. rewrite set_field_of_app by done. cbn beta iota.
    pose proof (copied_length _ _ _ _ _ Hcp) as Hlen. destruct Hcp as [Hp1 (la1 & Hr1 & Hf1)].
    destruct (IH h1 (pi ++ [(n, v)]) (po ++ [(n, x)]) vs rs) as (ws & h' & ls & He & Hp & Hrd & Hfr); [done| | |].
    { intros k Hk. destruct (Hfresh k) as [H1 H2]; [simpl; set_solver|]. rewrite !fmap_app. set_solver. }
    { by eapply read_fields_prefix. }
    rewrite <- !app_assoc in He. simpl in He. exists ((n, x) :: ws), h', (la1 ++ ls). split; [done|].
    split; [by etrans|]. split.
    + apply read_fields_cons. split; [done|]. exists (a, la1), (rs.1, ls). split; [by eapply read_prefix|done].
    + apply (fresh_app h h1 h'); [lia|by apply prefix_length|done|done].
Qed.

Lemma copy_struct_copies fs ss :
  covers fs ss -> NoDup (fs.*1) -> DeepCopies (TStruct fs) (copy_struct ss).
Proof.
  intros Hc Hnd h v a ls Hr. destruct v as [| | |vs|]; try done. rewrite read_struct in Hr.
  destruct (read_fields h fs vs) as [r|] eqn:Er; [|done]. simpl in Hr. simplify_eq.
  destruct (run_fields_copies fs ss h [] [] vs r Hc Hnd) as (ws & h' & ls' & He & Hp & Hrd & Hfr);
    [set_solver|done|]. simpl in He. unfold copy_struct. rewrite He. split; [done|]. exists ls'.
  cbn [fst snd]. by rewrite read_struct, Hrd.
Qed.

(** A generated [DeepCopyInto], field by field. *)
Create HintDb deepcopy.
#[export] Hint Resolve flat_copies DeepCopy_copies new_assign_copies value_copy_copies make_into_copies
  make_copy_copies : deepcopy.
#[export] Hint Extern 0 (flat _ = true) => reflexivity : deepcopy.
Ltac solve_copies :=
  apply copy_struct_copies;
  [ repeat first [ apply covers_nil
                 | apply covers_take; [solve [eauto 4 with deepcopy]|]
                 | apply covers_skip; [reflexivity|] ]
  | apply (bool_decide_unpack _); vm_compute; exact I ].
