(* ===== verification/GoStrings.v ===== *)
(** * The parts of Go's [strings] and [strconv] packages the operator uses

    A Go string is a byte sequence; here it is a Rocq [string], one [ascii] per
    byte.  The functions below follow the documented behaviour of Go's standard
    library on byte strings. *)

From S2P Require Import Prelude.
Open Scope string_scope.

(** ** Prefixes and suffixes *)

(** [strings.CutPrefix(s, p)]: the rest of [s] when it starts with [p]. *)
Fixpoint CutPrefix (s p : string) {struct p} : option string :=
  match p, s with
  | EmptyString, _ => Some s
  | String a p', String b s' => if Ascii.eqb a b then CutPrefix s' p' else None
  | String _ _, EmptyString => None
  end.

(** [strings.HasPrefix(s, p)] *)
Definition HasPrefix (s p : string) : bool :=
  match CutPrefix s p with Some _ => true | None => false end.

(** [strings.HasSuffix(s, p)] *)
Fixpoint HasSuffix (s p : string) : bool :=
  (s =? p) || match s with EmptyString => false | String _ s' => HasSuffix s' p end.

(** [strings.Contains(s, sub)] *)
Fixpoint Contains (s sub : string) : bool :=
  HasPrefix s sub || match s with EmptyString => false | String _ s' => Contains s' sub end.

(** ** Characters *)

Fixpoint has_char (c : ascii) (s : string) : bool :=
  match s with
  | EmptyString => false
  | String a s' => Ascii.eqb a c || has_char c s'
  end.

(** [strings.Cut(s, c)] for a one-byte separator: the text before and after the
    first occurrence. *)
Fixpoint Cut (s : string) (c : ascii) : option (string * string) :=
  match s with
  | EmptyString => None
  | String a s' =>
      if Ascii.eqb a c then Some ("", s')
      else match Cut s' c with
           | Some (b, t) => Some (String a b, t)
           | None => None
           end
  end.

(** ** Splitting and joining *)

(** [strings.Split(s, c)] for a one-byte separator. *)
Fixpoint split_on (c : ascii) (s : string) : list string :=
  match s with
  | EmptyString => [""]
  | String a s' =>
      if Ascii.eqb a c then "" :: split_on c s'
      else match split_on c s' with
           | h :: t => String a h :: t
           | [] => [String a ""]
           end
  end.

(** [strings.Join(l, sep)] *)
Fixpoint Join (sep : string) (l : list string) : string :=
  match l with
  | [] => ""
  | [x] => x
  | x :: l' => x +:+ sep +:+ Join sep l'
  end.

(** ** White space *)

(** The ASCII white space of [unicode.IsSpace]. *)
Definition is_space (c : ascii) : bool :=
  let n := Ascii.nat_of_ascii c in
  (n =? 32)%nat || ((9 <=? n)%nat && (n <=? 13)%nat).

(** [strings.Fields(s)]: the maximal runs of non-space bytes; [cur] is the run
    being read. *)
Fixpoint fields_from (cur : string) (s : string) : list string :=
  match s with
  | EmptyString => if cur =? "" then [] else [cur]
  | String a s' =>
      if is_space a then
        (if cur =? "" then fields_from "" s' else cur :: fields_from "" s')
      else fields_from (cur +:+ String a "") s'
  end.
Definition Fields (s : string) : list string := fields_from "" s.

Fixpoint trim_left (s : string) : string :=
  match s with
  | EmptyString => ""
  | String a s' => if is_space a then trim_left s' else s
  end.
Fixpoint trim_right (s : string) : string :=
  match s with
  | EmptyString => ""
  | String a s' =>
      let t := trim_right s' in
      if (t =? "") && is_space a then "" else String a t
  end.
(** [strings.TrimSpace(s)] *)
Definition TrimSpace (s : string) : string := trim_right (trim_left s).

(** ** Decimal numbers *)

Definition digit (c : ascii) : option Z :=
  let n := Ascii.nat_of_ascii c in
  if (48 <=? n)%nat && (n <=? 57)%nat then Some (Z.of_nat n - 48)%Z else None.

Fixpoint digits_from (acc : Z) (s : string) : option Z :=
  match s with
  | EmptyString => Some acc
  | String c s' => match digit c with
                   | Some d => digits_from (acc * 10 + d)%Z s'
                   | None => None
                   end
  end.

Inductive atoi_error := ErrSyntax | ErrRange.

(** [strconv.Atoi(s)]: an optional sign, then at least one decimal digit, in
    the range of [int]. *)
Definition Atoi (s : string) : result atoi_error Z :=
  let '(neg, body) :=
    match s with
    | String c r => if Ascii.eqb c "-" then (true, r)
                    else if Ascii.eqb c "+" then (false, r) else (false, s)
    | EmptyString => (false, "")
    end in
  if body =? "" then Err ErrSyntax
  else match digits_from 0 body with
       | None => Err ErrSyntax
       | Some n => let v := if neg then (- n)%Z else n in
                   if (int64 v =? v)%Z then Ok v else Err ErrRange
       end.

(** ** Lemmas *)

Lemma append_nil_r s : s +:+ "" = s.
Proof. induction s as [|a s IH]; simpl; [done|]. by rewrite IH. Qed.

Lemma append_assoc (a b c : string) : (a +:+ b) +:+ c = a +:+ (b +:+ c).
Proof. induction a as [|x a IH]; simpl; [done|]. by rewrite IH. Qed.

Lemma append_length a b : String.length (a +:+ b) = String.length a + String.length b.
Proof. induction a as [|x a IH]; simpl; [done|]. by rewrite IH. Qed.

Lemma append_inj_l (p a b : string) : p +:+ a = p +:+ b -> a = b.
Proof. induction p as [|x p IH]; simpl; [done|]. intros [=]. auto. Qed.

Lemma append_inj_r (a b p : string) : a +:+ p = b +:+ p -> a = b.
Proof.
  revert b. induction a as [|x a IH]; intros [|y b] H; simpl in *; try done.
  - apply (f_equal String.length) in H. simpl in H. rewrite append_length in H. lia.
  - apply (f_equal String.length) in H. simpl in H. rewrite append_length in H. lia.
  - injection H as -> H. f_equal. auto.
Qed.

Lemma CutPrefix_spec s p r : CutPrefix s p = Some r <-> s = p +:+ r.
Proof.
  revert s. induction p as [|a p IH]; intros s; simpl.
  - split; [by intros [= ->]|]. intros ->. by destruct r.
  - destruct s as [|b s]; [done|].
    destruct (Ascii.eqb_spec a b) as [->|Hne].
    + rewrite IH. split; congruence.
    + split; [done|congruence].
Qed.

Lemma HasPrefix_spec s p : HasPrefix s p = true <-> exists r, s = p +:+ r.
Proof.
  unfold HasPrefix. destruct (CutPrefix s p) as [r|] eqn:E.
  - apply CutPrefix_spec in E. split; eauto.
  - split; [done|]. intros [r H%CutPrefix_spec]. congruence.
Qed.

Lemma HasPrefix_app p r : HasPrefix (p +:+ r) p = true.
Proof. apply HasPrefix_spec. eauto. Qed.

Lemma HasSuffix_spec s p : HasSuffix s p = true <-> exists r, s = r +:+ p.
Proof.
  induction s as [|a s IH]; simpl.
  - rewrite orb_false_r, String.eqb_eq. split.
    + intros <-. by exists "".
    + intros [[|x r] H]; simpl in H; congruence.
  - rewrite orb_true_iff, String.eqb_eq, IH. split.
    + intros [<-|[r ->]]; [by exists ""|by exists (String a r)].
    + intros [[|x r] H]; simpl in H; [by left|].
      injection H as -> H. right. by exists r.
Qed.

Lemma has_char_app c a b : has_char c (a +:+ b) = has_char c a || has_char c b.
Proof. induction a as [|x a IH]; simpl; [done|]. by rewrite IH, orb_assoc. Qed.

Lemma Cut_spec s c b t :
  Cut s c = Some (b, t) <-> s = b +:+ String c t /\ has_char c b = false.
Proof.
  revert b t. induction s as [|a s IH]; intros b t; simpl.
  - split; [done|]. intros [H _]. by destruct b.
  - destruct (Ascii.eqb_spec a c) as [->|Hne].
    + split; [by intros [= <- <-]|].
      intros [H Hb]. destruct b as [|x b]; simpl in *; [congruence|].
      injection H as <- _. by rewrite Ascii.eqb_refl in Hb.
    + destruct (Cut s c) as [[b' t']|] eqn:E.
      * destruct (IH b' t') as [IH1 _]. destruct (IH1 eq_refl) as [-> Hb'].
        split.
        -- intros [= <- <-]. simpl. split; [done|]. rewrite Hb', orb_false_r.
           by apply Ascii.eqb_neq.
        -- intros [H Hb]. destruct b as [|x b]; simpl in *; [congruence|].
           injection H as <- H. apply orb_false_iff in Hb as [_ Hb].
           specialize (IH b t) as [_ IH2]. rewrite <- H in IH2.
           specialize (IH2 (conj eq_refl Hb)). congruence.
      * split; [done|]. intros [H Hb]. destruct b as [|x b]; simpl in *; [congruence|].
        injection H as <- H. apply orb_false_iff in Hb as [_ Hb].
        specialize (IH b t) as [_ IH2]. by specialize (IH2 (conj H Hb)).
Qed.

Lemma split_on_nonnil c s : split_on c s <> [].
Proof. destruct s as [|a s]; simpl; [done|]. by destruct (Ascii.eqb a c), (split_on c s). Qed.

Lemma split_on_no_char c s x : In x (split_on c s) -> has_char c x = false.
Proof.
  revert x. induction s as [|a s IH]; intros x; simpl; [by intros [<-|[]]|].
  destruct (Ascii.eqb_spec a c) as [->|Hne]; simpl.
  - intros [<-|H]; auto.
  - pose proof (split_on_nonnil c s). destruct (split_on c s) as [|h t]; [done|].
    simpl. intros [<-|H']; [|apply IH; by right]. simpl. rewrite IH by (by left).
    rewrite orb_false_r. by apply Ascii.eqb_neq.
Qed.

Lemma Join_cons sep x l : l <> [] -> Join sep (x :: l) = x +:+ sep +:+ Join sep l.
Proof. by destruct l. Qed.

Lemma Join_split c s : Join (String c "") (split_on c s) = s.
Proof.
  induction s as [|a s IH]; simpl; [done|].
  pose proof (split_on_nonnil c s).
  destruct (Ascii.eqb_spec a c) as [->|Hne].
  - rewrite Join_cons by done. simpl. by rewrite IH.
  - destruct (split_on c s) as [|h t] eqn:E; [done|].
    destruct t as [|h' t]; simpl in *; by rewrite <- IH.
Qed.

Lemma split_on_app_no_char c x r :
  has_char c x = false -> split_on c (x +:+ String c r) = x :: split_on c r.
Proof.
  induction x as [|a x IH]; simpl.
  - by rewrite Ascii.eqb_refl.
  - intros [Ha Hx]%orb_false_iff. rewrite Ha, IH by done. done.
Qed.

Lemma split_on_single c x : has_char c x = false -> split_on c x = [x].
Proof.
  induction x as [|a x IH]; simpl; [done|].
  intros [Ha Hx]%orb_false_iff. by rewrite Ha, IH.
Qed.

(** Splitting a joined list gives the list back when no element contains the
    separator. *)
Lemma split_on_Join c l :
  l <> [] -> Forall (fun x => has_char c x = false) l ->
  split_on c (Join (String c "") l) = l.
Proof.
  induction l as [|x l IH]; [done|]. intros _ [Hx Hl]%Forall_cons.
  destruct l as [|y l].
  - simpl. by apply split_on_single.
  - rewrite Join_cons by done. simpl String.append.
    change (String c "" +:+ Join (String c "") (y :: l))
      with (String c (Join (String c "") (y :: l))).
    rewrite split_on_app_no_char by done. f_equal. apply IH; done.
Qed.

Lemma Join_app sep l x :
  l <> [] -> Join sep (app l [x]) = Join sep l +:+ sep +:+ x.
Proof.
  induction l as [|y l IH]; [done|]. intros _. destruct l as [|z l].
  - done.
  - change (app (y :: z :: l) [x]) with (y :: app (z :: l) [x]).
    rewrite Join_cons by (by destruct l). rewrite IH by done.
    rewrite (Join_cons sep y (z :: l)) by done. by rewrite !append_assoc.
Qed.

#[export] Hint Rewrite append_nil_r append_assoc : cro.
#[export] Hint Resolve HasPrefix_app split_on_nonnil : cro.

Lemma append_suffix_inj (a b s t : string) :
  String.length s = String.length t -> a +:+ s = b +:+ t -> s = t.
Proof.
  revert b. induction a as [|x a IH]; intros b Hl H.
  - destruct b as [|y b]; [done|]. apply (f_equal String.length) in H.
    rewrite !append_length in H. simpl in H. lia.
  - destruct b as [|y b].
    + apply (f_equal String.length) in H. rewrite !append_length in H. simpl in H. lia.
    + simpl in H. simplify_eq. eauto.
Qed.
