(* ===== verification/GoJson.v ===== *)
(** * Go's [encoding/json], as the operator uses it

    A parser for JSON documents, the decoding of a document into a
    [map[string]string] and the string encoder of [json.Marshal].  Text is taken
    byte by byte: bytes from 128 up pass through unchanged (as they do in valid
    UTF-8, the line separators U+2028 and U+2029 apart), and Go's nesting limit of
    10000 is not modelled. *)

From S2P Require Import Prelude GoStrings.
Open Scope string_scope.
Open Scope list_scope.

Inductive json :=
| JNull
| JBool (b : bool)
| JNum (text : string)
| JStr (s : string)
| JArr (l : list json)
| JObj (l : list (string * json)).

(** ** Lexing *)

Definition code (c : ascii) : N := N_of_ascii c.

Definition json_space (c : ascii) : bool :=
  ((code c =? 32) || (code c =? 9) || (code c =? 10) || (code c =? 13))%N.

Fixpoint skip_ws (s : string) : string :=
  match s with
  | String c r => if json_space c then skip_ws r else s
  | EmptyString => ""
  end.

Definition hex_digit (c : ascii) : option N :=
  let n := code c in
  if ((48 <=? n) && (n <=? 57))%N then Some (n - 48)%N
  else if ((97 <=? n) && (n <=? 102))%N then Some (n - 87)%N
  else if ((65 <=? n) && (n <=? 70))%N then Some (n - 55)%N
  else None.

Definition hex4 (a b c d : ascii) : option N :=
  w ← hex_digit a; x ← hex_digit b; y ← hex_digit c; z ← hex_digit d;
  Some (((w * 16 + x) * 16 + y) * 16 + z)%N.

(** The UTF-8 encoding of a code point; lone surrogates become U+FFFD. *)
Definition utf8 (n : N) : string :=
  let b (x : N) := ascii_of_N x in
  if (n <? 128)%N then String (b n) ""
  else if (n <? 2048)%N then String (b (192 + n / 64)%N) (String (b (128 + n mod 64)%N) "")
  else if ((55296 <=? n) && (n <=? 57343))%N
  then String (b 239%N) (String (b 191%N) (String (b 189%N) ""))
  else if (n <? 65536)%N
  then String (b (224 + n / 4096)%N)
         (String (b (128 + (n / 64) mod 64)%N) (String (b (128 + n mod 64)%N) ""))
  else String (b (240 + n / 262144)%N)
         (String (b (128 + (n / 4096) mod 64)%N)
            (String (b (128 + (n / 64) mod 64)%N) (String (b (128 + n mod 64)%N) ""))).

(** The double quote and the backslash. *)
Definition dquote : ascii := ascii_of_N 34.
Definition bslash : ascii := ascii_of_N 92.

Definition simple_escape (c : ascii) : option ascii :=
  if (c =? dquote)%char then Some dquote
  else if (c =? bslash)%char then Some bslash
  else if (c =? "/")%char then Some "/"%char
  else if (c =? "b")%char then Some (ascii_of_N 8)
  else if (c =? "f")%char then Some (ascii_of_N 12)
  else if (c =? "n")%char then Some (ascii_of_N 10)
  else if (c =? "r")%char then Some (ascii_of_N 13)
  else if (c =? "t")%char then Some (ascii_of_N 9)
  else None.

(** A [\u] escape whose second half, if it is a low surrogate, completes a pair:
    the text and whether the second escape was used. *)
Definition pair_code (hi : N) (r : string) : option N :=
  match r with
  | String b (String u (String x1 (String x2 (String x3 (String x4 _))))) =>
      if ((b =? bslash)%char && (u =? "u")%char && (55296 <=? hi)%N && (hi <=? 56319)%N) then
        match hex4 x1 x2 x3 x4 with
        | Some lo => if ((56320 <=? lo) && (lo <=? 57343))%N
                     then Some (65536 + (hi - 55296) * 1024 + (lo - 56320))%N else None
        | None => None
        end
      else None
  | _ => None
  end.

(** The rest of a string literal after its opening quote. *)
Fixpoint lex_string (s : string) : option (string * string) :=
  match s with
  | EmptyString => None
  | String c r =>
      if (c =? dquote)%char then Some ("", r)
      else if (c =? bslash)%char then
        match r with
        | EmptyString => None
        | String e r1 =>
            match simple_escape e with
            | Some x => '(t, rest) ← lex_string r1; Some (String x t, rest)
            | None =>
                if (e =? "u")%char then
                  match r1 with
                  | String x1 (String x2 (String x3 (String x4 r2))) =>
                      match hex4 x1 x2 x3 x4 with
                      | None => None
                      | Some n =>
                          match pair_code n r2, r2 with
                          | Some m, String _ (String _ (String _ (String _ (String _ (String _ r3))))) =>
                              '(t, rest) ← lex_string r3; Some (utf8 m +:+ t, rest)
                          | _, _ => '(t, rest) ← lex_string r2; Some (utf8 n +:+ t, rest)
                          end
                      end
                  | _ => None
                  end
                else None
            end
        end
      else if (code c <? 32)%N then None
      else '(t, rest) ← lex_string r; Some (String c t, rest)
  end.

Fixpoint span_digits (s : string) : string * string :=
  match s with
  | String c r => match digit c with
                  | Some _ => let '(d, t) := span_digits r in (String c d, t)
                  | None => ("", s)
                  end
  | EmptyString => ("", "")
  end.

(** A number: sign, integer part without leading zeros, fraction, exponent. *)
Definition lex_number (s : string) : option (string * string) :=
  let '(sign, s1) := match s with
                     | String c r => if (c =? "-")%char then ("-", r) else ("", s)
                     | EmptyString => ("", s)
                     end in
  let '(ip, s2) := match s1 with
                   | String c r => if (c =? "0")%char then ("0", r) else span_digits s1
                   | EmptyString => ("", s1)
                   end in
  if ip =? "" then None
  else
    let frac := match s2 with
                | String c r => if (c =? ".")%char then
                                  let '(d, t) := span_digits r in
                                  if d =? "" then None else Some ("." +:+ d, t)
                                else Some ("", s2)
                | EmptyString => Some ("", s2)
                end in
    match frac with
    | None => None
    | Some (fp, s3) =>
        match s3 with
        | String e r =>
            if (e =? "e")%char || (e =? "E")%char then
              let '(sg, r1) := match r with
                               | String c r' => if (c =? "+")%char || (c =? "-")%char
                                                then (String c "", r') else ("", r)
                               | EmptyString => ("", r)
                               end in
              let '(d, t) := span_digits r1 in
              if d =? "" then None else Some (sign +:+ ip +:+ fp +:+ String e (sg +:+ d), t)
            else Some (sign +:+ ip +:+ fp, s3)
        | EmptyString => Some (sign +:+ ip +:+ fp, s3)
        end
    end.

(** ** Parsing

    Every call consumes a byte or closes a literal, so the length of the
    document is enough fuel. *)
Fixpoint parse_value (fuel : nat) (s : string) {struct fuel} : option (json * string) :=
  match fuel with
  | O => None
  | S fuel =>
      match skip_ws s with
      | EmptyString => None
      | String c r =>
          if (c =? dquote)%char then '(t, rest) ← lex_string r; Some (JStr t, rest)
          else if (c =? "{")%char then
            match skip_ws r with
            | String d r' => if (d =? "}")%char then Some (JObj [], r')
                             else '(l, rest) ← parse_members fuel r; Some (JObj l, rest)
            | EmptyString => None
            end
          else if (c =? "[")%char then
            match skip_ws r with
            | String d r' => if (d =? "]")%char then Some (JArr [], r')
                             else '(l, rest) ← parse_elems fuel r; Some (JArr l, rest)
            | EmptyString => None
            end
          else match CutPrefix (String c r) "true" with
               | Some t => Some (JBool true, t)
               | None =>
                   match CutPrefix (String c r) "false" with
                   | Some t => Some (JBool false, t)
                   | None =>
                       match CutPrefix (String c r) "null" with
                       | Some t => Some (JNull, t)
                       | None => '(t, rest) ← lex_number (String c r); Some (JNum t, rest)
                       end
                   end
               end
      end
  end
with parse_elems (fuel : nat) (s : string) {struct fuel} : option (list json * string) :=
  match fuel with
  | O => None
  | S fuel =>
      '(v, r) ← parse_value fuel s;
      match skip_ws r with
      | String c r' => if (c =? ",")%char then '(l, rest) ← parse_elems fuel r'; Some (v :: l, rest)
                       else if (c =? "]")%char then Some ([v], r')
                       else None
      | EmptyString => None
      end
  end
with parse_members (fuel : nat) (s : string) {struct fuel}
  : option (list (string * json) * string) :=
  match fuel with
  | O => None
  | S fuel =>
      match skip_ws s with
      | String q r0 =>
          if negb (q =? dquote)%char then None
          else
            '(k, r1) ← lex_string r0;
            match skip_ws r1 with
            | String c r2 =>
                if negb (c =? ":")%char then None
                else
                  '(v, r3) ← parse_value fuel r2;
                  match skip_ws r3 with
                  | String d r4 =>
                      if (d =? ",")%char then
                        '(l, rest) ← parse_members fuel r4; Some ((k, v) :: l, rest)
                      else if (d =? "}")%char then Some ([(k, v)], r4)
                      else None
                  | EmptyString => None
                  end
            | EmptyString => None
            end
      | EmptyString => None
      end
  end.

(** A whole document: one value, then only white space. *)
Definition parse_json (s : string) : option json :=
  match parse_value (S (String.length s)) s with
  | Some (v, rest) => if skip_ws rest =? "" then Some v else None
  | None => None
  end.

(** ** Decoding into a [map[string]string]

    A [null] value leaves the zero value; any other non-string is a type
    error; a later duplicate key wins. *)
Fixpoint decode_string_map (l : list (string * json)) (m : gmap string string)
  : option (gmap string string) :=
  match l with
  | [] => Some m
  | (k, JStr v) :: l' => decode_string_map l' (<[k := v]> m)
  | (k, JNull) :: l' => decode_string_map l' (<[k := ""]> m)
  | _ => None
  end.

Definition unmarshal_string_map (s : string) : option (gmap string string) :=
  match parse_json s with
  | Some (JObj l) => decode_string_map l ∅
  | Some JNull => Some ∅
  | _ => None
  end.

(** ** Decoding into a struct *)

(** [encoding/json] matches object keys to fields without regard to case. *)
Definition fold_char (c : ascii) : ascii :=
  let n := N_of_ascii c in
  if ((97 <=? n) && (n <=? 122))%N then ascii_of_N (n - 32) else c.
Fixpoint fold_name (s : string) : string :=
  match s with
  | EmptyString => ""
  | String c r => String (fold_char c) (fold_name r)
  end.

Fixpoint decode_strings (l : list json) : option (list string) :=
  match l with
  | [] => Some []
  | JStr s :: l' => x ← decode_strings l'; Some (s :: x)
  | JNull :: l' => x ← decode_strings l'; Some ("" :: x)
  | _ => None
  end.

(** ** Encoding strings *)

Definition hex_char (n : N) : ascii :=
  ascii_of_N (if (n <? 10)%N then 48 + n else 87 + n)%N.

(** [json.Marshal] escapes quotes, backslashes, control characters and the
    HTML characters. *)
Definition escape_char (c : ascii) : string :=
  let n := code c in
  if (c =? dquote)%char then String bslash (String dquote "")
  else if (c =? bslash)%char then String bslash (String bslash "")
  else if (n =? 8)%N then String bslash "b"
  else if (n =? 12)%N then String bslash "f"
  else if (n =? 10)%N then String bslash "n"
  else if (n =? 13)%N then String bslash "r"
  else if (n =? 9)%N then String bslash "t"
  else if ((n <? 32) || (n =? 60) || (n =? 62) || (n =? 38))%N
  then String bslash (String "u" (String "0" (String "0"
         (String (hex_char (n / 16)%N) (String (hex_char (n mod 16)%N) "")))))
  else String c "".

Fixpoint escape (s : string) : string :=
  match s with
  | EmptyString => ""
  | String c r => escape_char c +:+ escape r
  end.

Definition encode_string (s : string) : string := String dquote (escape s +:+ String dquote "").

(** ** Round trip of strings *)

(** Below the surrogates no pair is formed. *)
Lemma pair_code_low hi r : (hi < 55296)%N -> pair_code hi r = None.
Proof.
  intros H. apply N.leb_gt in H. unfold pair_code. rewrite H. split_matches; try done.
  by rewrite andb_false_r in Em.
Qed.

Lemma lex_unicode_low x1 x2 x3 x4 n s :
  hex4 x1 x2 x3 x4 = Some n -> (n < 55296)%N ->
  lex_string (String bslash (String "u" (String x1 (String x2 (String x3 (String x4 s)))))) =
  ('(t, rest) ← lex_string s; Some (utf8 n +:+ t, rest)).
Proof.
  intros Hx Hn.
  change (lex_string (String bslash (String "u" (String x1 (String x2 (String x3 (String x4 s)))))))
    with (match hex4 x1 x2 x3 x4 with
          | None => None
          | Some n =>
              match pair_code n s, s with
              | Some m, String _ (String _ (String _ (String _ (String _ (String _ r3))))) =>
                  '(t, rest) ← lex_string r3; Some (utf8 m +:+ t, rest)
              | _, _ => '(t, rest) ← lex_string s; Some (utf8 n +:+ t, rest)
              end
          end).
  by rewrite Hx, (pair_code_low n s Hn).
Qed.

Lemma lex_escape_char c s :
  lex_string (escape_char c +:+ s) =
  ('(t, rest) ← lex_string s; Some (String c t, rest)).
Proof.
  destruct c as [[] [] [] [] [] [] [] []]; try reflexivity.
  all: etransitivity; [eapply lex_unicode_low; reflexivity|reflexivity].
Qed.

(** The decoder inverts the encoder. *)
Lemma lex_escape s rest : lex_string (escape s +:+ String dquote rest) = Some (s, rest).
Proof.
  induction s as [|c s IH]; simpl; [reflexivity|].
  by rewrite append_assoc, lex_escape_char, IH.
Qed.

Lemma encode_string_app s rest :
  encode_string s +:+ rest = String dquote (escape s +:+ String dquote rest).
Proof. unfold encode_string. simpl. by rewrite append_assoc. Qed.

Lemma parse_encode_string fuel s rest :
  parse_value (S fuel) (encode_string s +:+ rest) = Some (JStr s, rest).
Proof.
  rewrite encode_string_app. simpl. by rewrite lex_escape.
Qed.

Lemma parse_elems_S fuel s :
  parse_elems (S fuel) s =
  ('(v, r) ← parse_value fuel s;
   match skip_ws r with
   | String c r' => if (c =? ",")%char then '(l, rest) ← parse_elems fuel r'; Some (v :: l, rest)
                    else if (c =? "]")%char then Some ([v], r')
                    else None
   | EmptyString => None
   end).
Proof. reflexivity. Qed.

(** A non-empty array of strings, after its opening bracket. *)
Lemma parse_encode_strings fuel l rest :
  l <> [] -> length l < fuel ->
  parse_elems fuel (Join "," (encode_string <$> l) +:+ String "]" rest) = Some (JStr <$> l, rest).
Proof.
  revert fuel. induction l as [|s l IH]; intros fuel Hne Hf; [done|].
  destruct fuel as [|[|fuel]]; simpl in Hf; try lia.
  rewrite parse_elems_S. destruct l as [|s' l].
  - change (Join "," (encode_string <$> [s])) with (encode_string s).
    by rewrite parse_encode_string.
  - rewrite fmap_cons, Join_cons by done. rewrite !append_assoc, parse_encode_string.
    change ("," +:+ ?x) with (String "," x).
    cbn -[parse_elems Join fmap list_fmap]. change (json_space ",") with false. cbn iota.
    change ("," =? ",")%char with true. cbn iota.
    rewrite IH; [done|done|simpl in *; lia].
Qed.

(** One member of an object whose value parses. *)
Lemma parse_member fuel k s v r :
  parse_value fuel s = Some (v, r) ->
  parse_members (S fuel) (encode_string k +:+ String ":" s) =
  match skip_ws r with
  | String d r4 =>
      if (d =? ",")%char then '(l, rest) ← parse_members fuel r4; Some ((k, v) :: l, rest)
      else if (d =? "}")%char then Some ([(k, v)], r4)
      else None
  | EmptyString => None
  end.
Proof.
  intros H. rewrite encode_string_app.
  transitivity ('(k', r1) ← lex_string (escape k +:+ String dquote (String ":" s));
    match skip_ws r1 with
    | String c r2 =>
        if negb (c =? ":")%char then None
        else
          '(v, r3) ← parse_value fuel r2;
          match skip_ws r3 with
          | String d r4 =>
              if (d =? ",")%char then
                '(l, rest) ← parse_members fuel r4; Some ((k', v) :: l, rest)
              else if (d =? "}")%char then Some ([(k', v)], r4)
              else None
          | EmptyString => None
          end
    | EmptyString => None
    end); [reflexivity|].
  rewrite lex_escape. simpl mbind.
  change (skip_ws (String ":" s)) with (String ":" s). cbv iota. simpl negb. cbv iota.
  by rewrite H.
Qed.

Lemma Join_encode_length l : length l <= String.length (Join "," (encode_string <$> l)).
Proof.
  induction l as [|s l IH]; [done|]. destruct l as [|s' l]; [simpl; lia|].
  rewrite fmap_cons, Join_cons by done. rewrite !append_length.
  simpl length in *. change (String.length ",") with 1. lia.
Qed.

Lemma decode_strings_JStr l : decode_strings (JStr <$> l) = Some l.
Proof. induction l as [|s l IH]; [done|]. rewrite fmap_cons. simpl. by rewrite IH. Qed.
