(* ===== verification/GoPath.v ===== *)
(** * Go's [path/filepath] on Unix

    [Clean], [Split], [Dir], [Base], [Ext], [IsAbs], [Join] and the glob patterns
    of [Match], as documented for Unix paths and over bytes, with the lemmas on
    clean absolute paths that the confinement theorems rest on. *)

From S2P Require Import Prelude GoStrings.
Open Scope string_scope.

Definition sep : ascii := "/".

(** ** Lexical operations *)

(** One path element processed by [Clean]; [st] is the output, last element
    first. *)
Definition clean_step (rooted : bool) (st : list string) (e : string) : list string :=
  if (e =? "") || (e =? ".") then st
  else if e =? ".." then
    match st with
    | top :: rest => if top =? ".." then ".." :: st else rest
    | [] => if rooted then [] else [".."]
    end
  else e :: st.

Definition IsAbs (p : string) : bool := HasPrefix p "/".

Definition Clean (p : string) : string :=
  let rooted := IsAbs p in
  let st := fold_left (clean_step rooted) (split_on sep p) [] in
  let out := (if rooted then "/" else "") +:+ Join "/" (rev st) in
  if out =? "" then "." else out.

(** [filepath.Split]: the directory part keeps its trailing separator. *)
Fixpoint Split (p : string) : string * string :=
  match p with
  | EmptyString => ("", "")
  | String a r =>
      let '(d, f) := Split r in
      if has_char sep r then (String a d, f)
      else if Ascii.eqb a sep then ("/", r) else ("", p)
  end.

Definition Dir (p : string) : string := Clean (fst (Split p)).

(** Remove trailing separators. *)
Fixpoint strip_seps (p : string) : string :=
  match p with
  | EmptyString => ""
  | String a r =>
      let t := strip_seps r in
      if (t =? "") && Ascii.eqb a sep then "" else String a t
  end.

Definition Base (p : string) : string :=
  if p =? "" then "."
  else let q := strip_seps p in
       if q =? "" then "/" else snd (Split q).

Fixpoint Ext (p : string) : string :=
  match p with
  | EmptyString => ""
  | String a r =>
      let e := Ext r in
      if negb (e =? "") then e
      else if has_char sep r then ""
      else if Ascii.eqb a "." then p else ""
  end.

(** [filepath.Join(a, b)] *)
Definition FileJoin (a b : string) : string :=
  if a =? "" then (if b =? "" then "" else Clean b)
  else Clean (a +:+ "/" +:+ b).

(** ** Glob patterns *)

Inductive glob_tok :=
| GStar
| GAny
| GClass (negated : bool) (ranges : list (ascii * ascii))
| GChar (c : ascii).

(** [getEsc]: one possibly escaped character of a class; a class is never the
    end of the pattern. *)
Definition getEsc (s : string) : option (ascii * string) :=
  match s with
  | EmptyString => None
  | String c r =>
      if Ascii.eqb c "-" || Ascii.eqb c "]" then None
      else let '(c', r') := if Ascii.eqb c "\" then
                              match r with String x y => (Some x, y) | EmptyString => (None, "") end
                            else (Some c, r) in
           match c' with
           | None => None
           | Some x => if r' =? "" then None else Some (x, r')
           end
  end.

Fixpoint parse_class (fuel : nat) (neg : bool) (acc : list (ascii * ascii)) (s : string)
  : option (glob_tok * string) :=
  match fuel with
  | O => None
  | S fuel =>
      match s with
      | String c r =>
          if Ascii.eqb c "]" && negb (bool_decide (acc = [])) then Some (GClass neg acc, r)
          else
            match getEsc s with
            | None => None
            | Some (lo, s1) =>
                match s1 with
                | String d s2 =>
                    if Ascii.eqb d "-" then
                      match getEsc s2 with
                      | None => None
                      | Some (hi, s3) => parse_class fuel neg (app acc [(lo, hi)]) s3
                      end
                    else parse_class fuel neg (app acc [(lo, lo)]) s1
                | EmptyString => None
                end
            end
      | EmptyString => None
      end
  end.

(** [None] is [filepath.ErrBadPattern].  Every token consumes a byte, so the
    length of the pattern is enough fuel. *)
Fixpoint parse_pattern (fuel : nat) (s : string) : option (list glob_tok) :=
  match fuel with
  | O => match s with EmptyString => Some [] | _ => None end
  | S fuel =>
      match s with
      | EmptyString => Some []
      | String c r =>
          if Ascii.eqb c "*" then cons GStar <$> parse_pattern fuel r
          else if Ascii.eqb c "?" then cons GAny <$> parse_pattern fuel r
          else if Ascii.eqb c "[" then
            let '(neg, r1) := match r with
                              | String x y => if Ascii.eqb x "^" then (true, y) else (false, r)
                              | EmptyString => (false, r)
                              end in
            match parse_class (String.length r1) neg [] r1 with
            | Some (t, r2) => cons t <$> parse_pattern fuel r2
            | None => None
            end
          else if Ascii.eqb c "\" then
            match r with
            | String x y => cons (GChar x) <$> parse_pattern fuel y
            | EmptyString => None
            end
          else cons (GChar c) <$> parse_pattern fuel r
      end
  end.

Definition in_range (c : ascii) (r : ascii * ascii) : bool :=
  (Ascii.nat_of_ascii r.1 <=? Ascii.nat_of_ascii c)%nat
  && (Ascii.nat_of_ascii c <=? Ascii.nat_of_ascii r.2)%nat.

Definition tok_matches (t : glob_tok) (c : ascii) : bool :=
  match t with
  | GStar => false
  | GAny => negb (Ascii.eqb c sep)
  | GClass neg rs => negb (Bool.eqb neg (existsb (in_range c) rs))
  | GChar x => Ascii.eqb c x
  end.

Fixpoint glob_match (ts : list glob_tok) : string -> bool :=
  match ts with
  | [] => fun s => s =? ""
  | GStar :: ts' =>
      fix star (s : string) : bool :=
        glob_match ts' s ||
        match s with
        | EmptyString => false
        | String c s' => negb (Ascii.eqb c sep) && star s'
        end
  | t :: ts' => fun s =>
      match s with
      | EmptyString => false
      | String c s' => tok_matches t c && glob_match ts' s'
      end
  end.

(** [filepath.Match(pattern, name)] *)
Definition Match (pattern name : string) : option bool :=
  (fun ts => glob_match ts name) <$> parse_pattern (String.length pattern) pattern.

(** [hasMeta]: the magic characters of [Match]. *)
Definition hasMeta (p : string) : bool :=
  has_char "*" p || has_char "?" p || has_char "[" p || has_char "\" p.

(** ** Clean absolute paths *)

(** An element of a cleaned rooted path. *)
Definition clean_elem (e : string) : Prop :=
  e <> "" /\ e <> "." /\ e <> ".." /\ has_char sep e = false.

(** [abs_path es] is the clean absolute path with elements [es]. *)
Definition abs_path (es : list string) : string := "/" +:+ Join "/" es.

Lemma clean_elem_no_sep es :
  Forall clean_elem es -> Forall (fun e => has_char sep e = false) es.
Proof. intros H. eapply Forall_impl; [exact H|]. by intros e (_ & _ & _ & ?). Qed.

Lemma IsAbs_spec p : IsAbs p = true <-> exists r, p = "/" +:+ r.
Proof. apply HasPrefix_spec. Qed.

Lemma clean_step_empty rooted st : clean_step rooted st "" = st.
Proof. done. Qed.

Lemma clean_step_clean st e :
  Forall clean_elem st -> has_char sep e = false ->
  Forall clean_elem (clean_step true st e).
Proof.
  intros Hst He. unfold clean_step.
  destruct (e =? "") eqn:E1; [done|]. destruct (e =? ".") eqn:E2; [done|]. simpl.
  destruct (e =? "..") eqn:E3.
  - destruct st as [|top rest]; [done|]. apply Forall_cons in Hst as [Ht Hr].
    destruct (top =? "..") eqn:E4; [|done]. to_prop. by destruct Ht as (_ & _ & ? & _).
  - to_prop. constructor; [by repeat split|done].
Qed.

Lemma clean_fold_clean l st :
  Forall clean_elem st -> Forall (fun e => has_char sep e = false) l ->
  Forall clean_elem (fold_left (clean_step true) l st).
Proof.
  revert st. induction l as [|e l IH]; simpl; intros st Hst Hl; [done|].
  apply Forall_cons in Hl as [He Hl]. eauto using clean_step_clean.
Qed.

Lemma split_on_Forall c s : Forall (fun e => has_char c e = false) (split_on c s).
Proof. apply List.Forall_forall. intros x. apply split_on_no_char. Qed.

(** The result of cleaning a rooted path. *)
Lemma Clean_abs p :
  IsAbs p = true -> exists es, Clean p = abs_path es /\ Forall clean_elem es.
Proof.
  intros Habs. unfold Clean. rewrite Habs.
  set (st := fold_left _ _ _).
  assert (Forall clean_elem st) as Hst.
  { apply clean_fold_clean; [constructor|apply split_on_Forall]. }
  exists (rev st). split; [done|]. by apply List.Forall_rev.
Qed.

(** Cleaning keeps a list of clean elements as it is. *)
Lemma clean_fold_id rooted es st :
  Forall clean_elem es -> fold_left (clean_step rooted) es st = app (rev es) st.
Proof.
  revert st. induction es as [|e es IH]; simpl; intros st H; [done|].
  apply Forall_cons in H as [(H1 & H2 & H3 & H4) Hes].
  rewrite IH by done. unfold clean_step.
  apply String.eqb_neq in H1, H2, H3. rewrite H1, H2, H3. simpl.
  by rewrite <- app_assoc.
Qed.

Lemma split_abs_path es :
  Forall clean_elem es ->
  split_on sep (abs_path es) = "" :: match es with [] => [""] | _ => es end.
Proof.
  intros H. unfold abs_path. simpl. f_equal. destruct es as [|e es]; [done|].
  apply split_on_Join; [done|]. by apply clean_elem_no_sep.
Qed.

Lemma Clean_abs_path es : Forall clean_elem es -> Clean (abs_path es) = abs_path es.
Proof.
  intros H. unfold Clean.
  assert (IsAbs (abs_path es) = true) as -> by (apply IsAbs_spec; eexists; done).
  rewrite split_abs_path by done. simpl.
  destruct es as [|e es]; [done|].
  rewrite clean_fold_id by done. rewrite app_nil_r, rev_involutive. done.
Qed.

Lemma abs_path_snoc es b : es <> [] -> abs_path (app es [b]) = abs_path es +:+ "/" +:+ b.
Proof. intros H. unfold abs_path. rewrite Join_app by done. by rewrite append_assoc. Qed.

Lemma Split_snoc d b : has_char sep b = false -> Split (d +:+ "/" +:+ b) = (d +:+ "/", b).
Proof.
  intros Hb. induction d as [|a d IH]; simpl in *.
  - assert (forall s, has_char sep s = false -> Split s = ("", s)) as Hs.
    { induction s as [|x s IH]; simpl; [done|]. intros [Hx Hs]%orb_false_iff.
      rewrite IH, Hs, Hx by done. done. }
    by rewrite Hs, Hb.
  - rewrite IH. rewrite has_char_app. simpl. by rewrite orb_true_r.
Qed.

Lemma abs_path_last es b : exists d, abs_path (app es [b]) = d +:+ "/" +:+ b /\
  d +:+ "/" = match es with [] => "/" | _ => abs_path es +:+ "/" end.
Proof.
  destruct es as [|e es].
  - exists "". split; done.
  - exists (abs_path (e :: es)). split; [|done]. by apply abs_path_snoc.
Qed.

(** Trailing separators do not matter to [Clean]. *)
Lemma Clean_abs_path_slash es :
  Forall clean_elem es -> es <> [] -> Clean (abs_path es +:+ "/") = abs_path es.
Proof.
  intros H Hne. unfold Clean.
  assert (IsAbs (abs_path es +:+ "/") = true) as -> by (apply IsAbs_spec; eexists; done).
  assert (split_on sep (abs_path es +:+ "/") = "" :: app es [""]) as ->.
  { unfold abs_path. rewrite append_assoc. simpl. f_equal.
    change (split_on sep (Join "/" es +:+ "/" +:+ "") = app es [""]).
    rewrite <- Join_app by done. apply split_on_Join; [by destruct es|].
    apply Forall_app. split; [by apply clean_elem_no_sep|by repeat constructor]. }
  simpl. rewrite fold_left_app, (clean_fold_id true es) by done. simpl.
  rewrite !clean_step_empty, app_nil_r, rev_involutive. done.
Qed.

Lemma Dir_abs_path es b :
  Forall clean_elem es -> clean_elem b -> Dir (abs_path (app es [b])) = abs_path es.
Proof.
  intros H (_ & _ & _ & Hb). unfold Dir.
  destruct (abs_path_last es b) as (d & -> & Hd).
  rewrite Split_snoc by done. simpl. rewrite Hd.
  destruct es as [|e es]; [done|]. by apply Clean_abs_path_slash.
Qed.

Lemma strip_seps_last d b :
  b <> "" -> has_char sep b = false -> strip_seps (d +:+ b) = d +:+ b.
Proof.
  intros Hne Hb.
  assert (strip_seps b = b) as Hs.
  { clear Hne. induction b as [|x b IH]; simpl; [done|]. simpl in Hb.
    apply orb_false_iff in Hb as [Hx Hb]. rewrite IH, Hx, andb_false_r by done. done. }
  induction d as [|a d IH]; [done|]. simpl. rewrite IH.
  destruct (d +:+ b =? "") eqn:E; [|done].
  to_prop. by destruct d, b.
Qed.

Lemma Base_abs_path es b : clean_elem b -> Base (abs_path (app es [b])) = b.
Proof.
  intros (Hne & _ & _ & Hb). destruct (abs_path_last es b) as (d & -> & _).
  unfold Base.
  destruct (d +:+ "/" +:+ b =? "") eqn:E.
  { to_prop. by destruct d. }
  rewrite <- append_assoc, strip_seps_last by done. rewrite append_assoc, E.
  by rewrite Split_snoc.
Qed.

Lemma FileJoin_abs_path es b :
  Forall clean_elem es -> clean_elem b -> FileJoin (abs_path es) b = abs_path (app es [b]).
Proof.
  intros H Hb. unfold FileJoin. destruct (abs_path es =? "") eqn:E; [to_prop; done|].
  destruct es as [|e es].
  - unfold abs_path at 1. simpl. unfold Clean. simpl. destruct Hb as (H1 & H2 & H3 & H4).
    rewrite split_on_single by done. simpl. unfold clean_step. simpl.
    apply String.eqb_neq in H1, H2, H3. by rewrite H1, H2, H3.
  - rewrite <- abs_path_snoc by done. apply Clean_abs_path.
    apply Forall_app. split; [done|]. by constructor.
Qed.

(** The last element of a clean absolute path other than the root. *)
Lemma clean_abs_cases p :
  IsAbs p = true -> Clean p = p ->
  p = "/" \/ exists es b, p = abs_path (app es [b]) /\ Forall clean_elem es /\ clean_elem b.
Proof.
  intros Ha Hc. destruct (Clean_abs p Ha) as (es & He & Hes).
  rewrite Hc in He. destruct (decide (es = [])) as [->|Hne].
  - by left.
  - right. destruct (exists_last Hne) as (es' & b & ->).
    apply Forall_app in Hes as [H1 H2]. apply Forall_cons in H2 as [H2 _].
    by exists es', b.
Qed.
