(* ===== verification/Kube.v ===== *)
(** * The Kubernetes objects and client machinery the controllers use

    The pieces of [k8s.io/api], [apimachinery], [client-go] and
    [controller-runtime] that the operator's own code reads or writes: pods and
    containers (the fields the operator touches), status conditions, resource
    quantities, API errors, finalizers and the conflict-retry loop. *)

From S2P Require Import Prelude GoStrings.
Open Scope string_scope.

(** ** Time

    A [time.Time] is a number of nanoseconds since the epoch; a [*metav1.Time]
    is an [option].  A [time.Duration] is a number of nanoseconds. *)
Definition Time := Z.
Definition Duration := Z.
Definition Second : Duration := 1000000000%Z.
Definition Minute : Duration := (60 * Second)%Z.

(** What a [metav1.Time] becomes when the API server stores it: RFC 3339 with
    a resolution of one second. *)
Definition stored_time (t : Time) : Time := (t / Second * Second)%Z.

(** ** Errors of API calls *)
Inductive apierror :=
| NotFound
| AlreadyExists
| Conflict
| APIFailure (msg : string).

#[export] Instance apierror_eq_dec : EqDecision apierror.
Proof. solve_decision. Defined.

Definition IsNotFound (e : apierror) : bool := bool_decide (e = NotFound).

(** ** Status conditions *)
Inductive ConditionStatus := ConditionTrue | ConditionFalse | ConditionUnknown.

#[export] Instance ConditionStatus_eq_dec : EqDecision ConditionStatus.
Proof. solve_decision. Defined.

Record Condition := {
  Type_ : string;
  Status_ : ConditionStatus;
  CondGeneration : Z;
  LastTransitionTime : Time;
  Reason : string;
  Message : string
}.

#[export] Instance Condition_eq_dec : EqDecision Condition.
Proof. solve_decision. Defined.

(** [meta.FindStatusCondition] *)
Definition FindStatusCondition (cs : list Condition) (ty : string) : option Condition :=
  List.find (fun c => Type_ c =? ty) cs.

(** [meta.SetStatusCondition]: replace the first condition of the type in
    place, moving its transition time only when the status changes, or append.
    [now] is used when the new condition carries no time (a zero time). *)
Definition merge_condition (now : Time) (old new : Condition) : Condition :=
  {| Type_ := Type_ old;
     Status_ := Status_ new;
     CondGeneration := CondGeneration new;
     LastTransitionTime :=
       if bool_decide (Status_ old = Status_ new) then LastTransitionTime old
       else if (LastTransitionTime new =? 0)%Z then now else LastTransitionTime new;
     Reason := Reason new;
     Message := Message new |}.

Fixpoint SetStatusCondition (now : Time) (cs : list Condition) (new : Condition)
  : list Condition :=
  match cs with
  | [] => [ {| Type_ := Type_ new; Status_ := Status_ new;
               CondGeneration := CondGeneration new;
               LastTransitionTime :=
                 if (LastTransitionTime new =? 0)%Z then now else LastTransitionTime new;
               Reason := Reason new; Message := Message new |} ]
  | c :: cs' => if Type_ c =? Type_ new then merge_condition now c new :: cs'
                else c :: SetStatusCondition now cs' new
  end.

(** ** Quantities

    A [resource.Quantity] is an exact decimal with a resolution of one
    nano-unit; it is modelled by its number of nano-units. *)
Definition Quantity := Z.
Definition nano : Z := 1000000000.

Definition NewQuantity (v : Z) : Quantity := (v * nano)%Z.

(** [negativeScaleInt64]: drop decimal digits, rounding away from zero. *)
Definition scale_down (q d : Z) : Z :=
  let v := Z.quot q d in
  if (Z.rem q d =? 0)%Z then v else if (0 <? q)%Z then (v + 1)%Z else (v - 1)%Z.

Definition Value (q : Quantity) : Z := scale_down q nano.
Definition MilliValue (q : Quantity) : Z := scale_down q 1000000.
Definition Cmp (a b : Quantity) : comparison := Z.compare a b.
Definition IsZero (q : Quantity) : bool := (q =? 0)%Z.

(** ["1Ei"] and ["100Gi"] *)
Definition Q1Ei : Quantity := NewQuantity (2 ^ 60).
Definition Q100Gi : Quantity := NewQuantity (100 * 2 ^ 30).

(** ** Pods *)
Inductive PodPhase := PodPending | PodRunning | PodSucceeded | PodFailed | PodUnknown.

#[export] Instance PodPhase_eq_dec : EqDecision PodPhase.
Proof. solve_decision. Defined.

Record PodCondition := {
  pc_type : string;
  pc_status : ConditionStatus;
  pc_reason : string
}.

Record Container := {
  c_name : string;
  c_image : string;
  c_limits : gmap string Quantity
}.

Record PodSpec := {
  NodeName : string;
  Containers : list Container
}.

(** The metadata, spec and status fields of a Pod the operator reads or sets;
    [controller_uid] is the UID of the controlling owner reference, if any. *)
Record Pod := {
  p_name : string;
  p_namespace : string;
  p_annotations : gmap string string;
  p_labels : gmap string string;
  controller_uid : option string;
  p_deleting : bool;
  p_spec : PodSpec;
  p_phase : PodPhase;
  p_reason : string;
  p_message : string;
  p_conditions : list PodCondition
}.

(** ** Finalizers *)
Definition ContainsFinalizer (fs : list string) (f : string) : bool := existsb (String.eqb f) fs.
Definition AddFinalizer (fs : list string) (f : string) : list string :=
  if ContainsFinalizer fs f then fs else app fs [f].
Definition RemoveFinalizer (fs : list string) (f : string) : list string :=
  List.filter (fun x => negb (x =? f)) fs.

(** ** Reconcile results *)

(** [ctrl.Result]: [RequeueAfter] is [0] when no requeue is asked for. *)
Record Result := { RequeueAfter : Duration }.
Definition no_requeue : Result := {| RequeueAfter := 0%Z |}.
Definition requeue_after (d : Duration) : Result := {| RequeueAfter := d |}.

(** ** Conflict retries

    [retry.RetryOnConflict(retry.DefaultRetry, fn)]: [fn] runs at most
    [steps] times and is repeated only while it fails with a conflict; the last
    conflict is returned when the steps run out. *)
Definition DefaultRetrySteps : nat := 5.

Fixpoint OnConflict {W} (steps : nat) (fn : W -> result apierror unit * W) (w : W)
  : result apierror unit * W :=
  match steps with
  | O => (Err Conflict, w)
  | S steps' =>
      match fn w with
      | (Err Conflict, w') => match steps' with
                              | O => (Err Conflict, w')
                              | _ => OnConflict steps' fn w'
                              end
      | r => r
      end
  end.

Definition RetryOnConflict {W} (fn : W -> result apierror unit * W) (w : W)
  : result apierror unit * W := OnConflict DefaultRetrySteps fn w.

(** ** Lemmas *)

Lemma SetStatusCondition_find now cs new :
  exists c, FindStatusCondition (SetStatusCondition now cs new) (Type_ new) = Some c /\
    Status_ c = Status_ new /\ Reason c = Reason new /\ Message c = Message new /\
    CondGeneration c = CondGeneration new.
Proof.
  unfold FindStatusCondition. induction cs as [|c cs IH]; simpl.
  - rewrite String.eqb_refl. eexists. by split.
  - destruct (Type_ c =? Type_ new) eqn:E; simpl.
    + rewrite E. eexists. by split.
    + rewrite E. apply IH.
Qed.

Lemma SetStatusCondition_find_ne now cs new ty :
  ty <> Type_ new ->
  FindStatusCondition (SetStatusCondition now cs new) ty = FindStatusCondition cs ty.
Proof.
  intros Hne. unfold FindStatusCondition. induction cs as [|c cs IH]; simpl.
  - destruct (Type_ new =? ty) eqn:E; [|done]. to_prop. congruence.
  - destruct (Type_ c =? Type_ new) eqn:E; simpl.
    + to_prop. rewrite E. destruct (Type_ new =? ty) eqn:E2; [|done].
      to_prop. congruence.
    + by rewrite IH.
Qed.

(** Setting the same condition again is a no-op: no transition time moves. *)
Lemma SetStatusCondition_same now now' cs new :
  SetStatusCondition now' (SetStatusCondition now cs new) new = SetStatusCondition now cs new.
Proof.
  induction cs as [|c cs IH]; simpl.
  - rewrite String.eqb_refl. unfold merge_condition. simpl.
    by rewrite bool_decide_eq_true_2.
  - destruct (Type_ c =? Type_ new) eqn:E; simpl; rewrite E; [|by rewrite IH].
    unfold merge_condition. simpl. by rewrite (bool_decide_eq_true_2 (Status_ new = _)).
Qed.

Lemma Value_NewQuantity v : Value (NewQuantity v) = v.
Proof.
  unfold Value, NewQuantity, scale_down.
  rewrite Z.rem_mul by done. simpl. by rewrite Z.quot_mul.
Qed.

(** For a non-negative quantity, [Value] rounds up. *)
Lemma Value_le q n : (0 <= q -> Value q <= n <-> q <= NewQuantity n)%Z.
Proof.
  intros Hq. unfold Value, NewQuantity, scale_down.
  pose proof (Z.quot_rem' q nano). pose proof (Z.rem_bound_pos q nano Hq ltac:(done)).
  unfold nano in *.
  destruct (Z.rem q 1000000000 =? 0)%Z eqn:E; to_prop; [lia|].
  destruct (0 <? q)%Z eqn:E2; to_prop; [lia|]. assert (q = 0)%Z as -> by lia. done.
Qed.

Lemma Value_pos q : (0 < q -> 0 < Value q)%Z.
Proof. intros Hq. destruct (Z.lt_ge_cases 0 (Value q)) as [|H]; [done|].
  apply Value_le in H; [|lia]. unfold NewQuantity in H. lia. Qed.

Lemma ContainsFinalizer_In fs f : ContainsFinalizer fs f = true <-> In f fs.
Proof.
  unfold ContainsFinalizer. rewrite existsb_exists. split.
  - intros (x & H & Hx). to_prop. by subst.
  - intros H. exists f. by rewrite String.eqb_refl.
Qed.

Lemma AddFinalizer_contains fs f : ContainsFinalizer (AddFinalizer fs f) f = true.
Proof.
  unfold AddFinalizer. destruct (ContainsFinalizer fs f) eqn:E; [done|].
  apply ContainsFinalizer_In, in_or_app. right. by left.
Qed.

Lemma RemoveFinalizer_gone fs f : ContainsFinalizer (RemoveFinalizer fs f) f = false.
Proof.
  apply not_true_iff_false. rewrite ContainsFinalizer_In. unfold RemoveFinalizer.
  rewrite filter_In, String.eqb_refl. by intros [_ [=]].
Qed.

#[export] Hint Resolve AddFinalizer_contains RemoveFinalizer_gone : cro.
