(* ===== verification/GoSystem.v ===== *)
(** * The file system, [filepath.Glob] and [sort.Slice]

    A file system maps clean absolute paths to files and directories.  Two sets
    record the paths on which writing (create, remove, rename) or reading fails
    for a reason other than absence, so that the error branches of the code are
    reachable.  [sort.Slice] is an interface: its contract is a type class, and
    Go's insertion sort (the algorithm [sort.Slice] runs on up to twelve
    elements) is an instance. *)

From S2P Require Import Prelude GoStrings GoPath Kube.
Open Scope string_scope.
Open Scope list_scope.

(** ** Files *)

Record file := {
  f_size : Z;
  f_mtime : Time;
  f_data : string
}.

Inductive node := NFile (f : file) | NDir.

Record FS := {
  fs_nodes : gmap string node;
  fs_nowrite : gset string;
  fs_noread : gset string
}.

Definition with_nodes (fs : FS) (m : gmap string node) : FS :=
  {| fs_nodes := m; fs_nowrite := fs_nowrite fs; fs_noread := fs_noread fs |}.

Inductive os_error := ErrNotExist | ErrPermission.

(** [os.Stat]: fails on a missing path. *)
Definition os_Stat (fs : FS) (p : string) : option node := fs_nodes fs !! p.

(** [os.ReadFile] *)
Definition os_ReadFile (fs : FS) (p : string) : result os_error string :=
  match fs_nodes fs !! p with
  | None => Err ErrNotExist
  | Some NDir => Err ErrPermission
  | Some (NFile f) => if bool_decide (p ∈ fs_noread fs) then Err ErrPermission else Ok (f_data f)
  end.

(** [os.Remove] of a file. *)
Definition os_Remove (fs : FS) (p : string) : result os_error FS :=
  match fs_nodes fs !! p with
  | None => Err ErrNotExist
  | Some NDir => Err ErrPermission
  | Some (NFile _) => if bool_decide (p ∈ fs_nowrite fs) then Err ErrPermission
                      else Ok (with_nodes fs (delete p (fs_nodes fs)))
  end.

(** [os.WriteFile]: create or truncate. *)
Definition os_WriteFile (now : Time) (fs : FS) (p data : string) : result os_error FS :=
  match fs_nodes fs !! p with
  | Some NDir => Err ErrPermission
  | _ => if bool_decide (p ∈ fs_nowrite fs) then Err ErrPermission
         else Ok (with_nodes fs (<[p := NFile {| f_size := Z.of_nat (String.length data);
                                                 f_mtime := now; f_data := data |}]>
                                   (fs_nodes fs)))
  end.

(** [os.Rename] of a file onto a file or a free path. *)
Definition os_Rename (fs : FS) (src dst : string) : result os_error FS :=
  match fs_nodes fs !! src, fs_nodes fs !! dst with
  | None, _ => Err ErrNotExist
  | Some NDir, _ | _, Some NDir => Err ErrPermission
  | Some (NFile f), _ =>
      if bool_decide (src ∈ fs_nowrite fs) || bool_decide (dst ∈ fs_nowrite fs)
      then Err ErrPermission
      else Ok (with_nodes fs (<[dst := NFile f]> (delete src (fs_nodes fs))))
  end.

(** ** Globbing *)

(** The sorted names in directory [d]. *)
Definition readdir (fs : FS) (d : string) : list string :=
  merge_sort String.le
    (Base <$> List.filter (fun p => (Dir p =? d) && negb (p =? d))
                          (elements (dom (fs_nodes fs)))).

(** [glob]: the matching entries of one directory; a missing or unreadable
    directory has none. *)
Definition glob_dir (fs : FS) (d : string) (toks : list glob_tok) : list string :=
  match os_Stat fs d with
  | Some NDir => FileJoin d <$> List.filter (glob_match toks) (readdir fs d)
  | _ => []
  end.

Definition cleanGlobPath (d : string) : string :=
  if d =? "" then "." else if d =? "/" then "/" else strip_seps d.

(** [filepath.Glob]; [None] is [ErrBadPattern].  Each level removes a path
    element, so the pattern's length is enough fuel. *)
Fixpoint glob_fuel (fuel : nat) (fs : FS) (pattern : string) : option (list string) :=
  match fuel with
  | O => None
  | S fuel =>
      match parse_pattern (String.length pattern) pattern with
      | None => None
      | Some _ =>
          if negb (hasMeta pattern) then
            Some (match os_Stat fs pattern with Some _ => [pattern] | None => [] end)
          else
            let '(dir, file) := Split pattern in
            let dir := cleanGlobPath dir in
            match parse_pattern (String.length file) file with
            | None => None
            | Some toks =>
                if negb (hasMeta dir) then Some (glob_dir fs dir toks)
                else if dir =? pattern then None
                else match glob_fuel fuel fs dir with
                     | None => None
                     | Some ds => Some (concat (map (fun d => glob_dir fs d toks) ds))
                     end
            end
      end
  end.

Definition Glob (fs : FS) (pattern : string) : option (list string) :=
  glob_fuel (S (String.length pattern)) fs pattern.

(** ** Sorting *)

Section Sorting.
Context {A : Type} (less : A -> A -> bool).

(** [less] is a strict weak order on the elements of [l]. *)
Definition strict_weak_on (l : list A) : Prop :=
  (forall x, x ∈ l -> less x x = false) /\
  (forall x y z, x ∈ l -> y ∈ l -> z ∈ l ->
     less x y = true -> less y z = true -> less x z = true) /\
  (forall x y z, x ∈ l -> y ∈ l -> z ∈ l ->
     less x y = false -> less y z = false -> less x z = false).

(** No element is less than an earlier one. *)
Definition no_inversion (l : list A) : Prop :=
  StronglySorted (fun x y => less y x = false) l.

(** Go's [insertionSort]: [rp] is the sorted prefix, last element first. *)
Fixpoint insertion_sift (x : A) (rp : list A) : list A :=
  match rp with
  | [] => [x]
  | y :: rp' => if less x y then y :: insertion_sift x rp' else x :: rp
  end.

Definition insertion_sort (l : list A) : list A :=
  rev (fold_left (fun rp x => insertion_sift x rp) l []).

End Sorting.

(** The contract of [sort.Slice].  The first two laws are the documented ones;
    the third holds of Go's pattern-defeating quicksort, which leaves a slice
    without inversions as it is. *)
Class GoSort (sort_slice : forall A : Type, (A -> A -> bool) -> list A -> list A) : Prop := {
  sort_slice_perm : forall A less (l : list A), sort_slice A less l ≡ₚ l;
  sort_slice_sorted : forall A less (l : list A),
    strict_weak_on less l -> no_inversion less (sort_slice A less l);
  sort_slice_ordered : forall A less (l : list A),
    no_inversion less l -> sort_slice A less l = l
}.

(** ** Lemmas on sorting *)

Section SortingLemmas.
Context {A : Type} (less : A -> A -> bool).

Lemma insertion_sift_perm x rp : insertion_sift less x rp ≡ₚ x :: rp.
Proof.
  induction rp as [|y rp IH]; simpl; [done|]. destruct (less x y); [|done].
  rewrite IH. apply perm_swap.
Qed.

Lemma insertion_fold_perm l rp :
  fold_left (fun rp x => insertion_sift less x rp) l rp ≡ₚ rev l ++ rp.
Proof.
  revert rp. induction l as [|x l IH]; intros rp; simpl; [done|].
  rewrite IH, insertion_sift_perm, <- app_assoc. simpl. done.
Qed.

Lemma insertion_sort_perm l : insertion_sort less l ≡ₚ l.
Proof.
  unfold insertion_sort. rewrite <- Permutation_rev, insertion_fold_perm, app_nil_r.
  symmetry. apply Permutation_rev.
Qed.

(** A reversed prefix is in order when no earlier element of it is less than a
    later one. *)
Definition rsorted (rp : list A) : Prop := StronglySorted (fun x y => less x y = false) rp.

Lemma insertion_sift_sorted all x rp :
  strict_weak_on less all -> x ∈ all -> (forall y, y ∈ rp -> y ∈ all) ->
  rsorted rp -> rsorted (insertion_sift less x rp).
Proof.
  intros (Hirr & Htr & Hnt) Hx Hrp Hs. induction rp as [|y rp IH]; simpl.
  - repeat constructor.
  - apply StronglySorted_inv in Hs as [Hs Hy].
    assert (y ∈ all) as Hyall by (apply Hrp; left).
    destruct (less x y) eqn:E.
    + constructor.
      * apply IH; [|done]. intros z Hz. apply Hrp. by right.
      * rewrite insertion_sift_perm. constructor; [|done].
        destruct (less y x) eqn:E2; [|done].
        rewrite <- (Hirr x Hx). symmetry. eauto.
    + constructor; [by constructor|]. constructor; [done|].
      rewrite List.Forall_forall in Hy |- *. intros z Hz.
      apply (Hnt x y z); eauto. apply Hrp. right. by apply list_elem_of_In.
Qed.

Lemma insertion_fold_sorted all l rp :
  strict_weak_on less all -> (forall y, y ∈ l -> y ∈ all) -> (forall y, y ∈ rp -> y ∈ all) ->
  rsorted rp -> rsorted (fold_left (fun rp x => insertion_sift less x rp) l rp).
Proof.
  intros Hall. revert rp. induction l as [|x l IH]; intros rp Hl Hrp Hs; simpl; [done|].
  apply IH.
  - intros y Hy. apply Hl. by right.
  - intros y. rewrite insertion_sift_perm. rewrite elem_of_cons.
    intros [->|Hy]; [apply Hl; left|auto].
  - apply (insertion_sift_sorted all); try done. apply Hl. left.
Qed.

Lemma StronglySorted_rev (R : relation A) l :
  StronglySorted R l -> StronglySorted (flip R) (rev l).
Proof.
  induction 1 as [|x l Hs IH Hx]; simpl; [constructor|].
  apply StronglySorted_app_2; [|done|by repeat constructor].
  intros y z Hy Hz. apply list_elem_of_singleton in Hz as ->.
  rewrite List.Forall_forall in Hx. apply Hx. apply list_elem_of_In in Hy.
  by rewrite <- in_rev in Hy.
Qed.

Lemma insertion_sort_sorted l :
  strict_weak_on less l -> no_inversion less (insertion_sort less l).
Proof.
  intros Hl. unfold insertion_sort, no_inversion.
  apply (StronglySorted_rev (fun x y => less x y = false)).
  apply (insertion_fold_sorted l); try done; [|constructor]. by intros y ?%elem_of_nil.
Qed.

Lemma insertion_fold_ordered l rp :
  no_inversion less (rev rp ++ l) ->
  fold_left (fun rp x => insertion_sift less x rp) l rp = rev l ++ rp.
Proof.
  revert rp. induction l as [|x l IH]; intros rp H; simpl; [done|].
  assert (insertion_sift less x rp = x :: rp) as ->.
  { destruct rp as [|y rp]; [done|]. simpl.
    assert (less x y = false) as ->; [|done].
    unfold no_inversion in H. eapply (StronglySorted_app_1_elem_of _ _ _ y x) in H; try done.
    - simpl. rewrite elem_of_app. right. by left.
    - by left. }
  rewrite IH; simpl; rewrite <- app_assoc; done.
Qed.

Lemma insertion_sort_ordered l : no_inversion less l -> insertion_sort less l = l.
Proof.
  intros H. unfold insertion_sort. rewrite insertion_fold_ordered by done.
  by rewrite app_nil_r, rev_involutive.
Qed.

End SortingLemmas.

#[export] Instance insertion_GoSort : GoSort (@insertion_sort).
Proof.
  split.
  - intros. apply insertion_sort_perm.
  - intros. by apply insertion_sort_sorted.
  - intros. by apply insertion_sort_ordered.
Qed.

(** ** Lemmas on the file system *)

(** Every path of the file system is absolute and clean. *)
Definition fs_wf (fs : FS) : Prop :=
  forall p n, fs_nodes fs !! p = Some n -> IsAbs p = true /\ Clean p = p.

Lemma path_join_dir_base p :
  IsAbs p = true -> Clean p = p -> p <> Dir p -> FileJoin (Dir p) (Base p) = p.
Proof.
  intros Ha Hc Hne. destruct (clean_abs_cases p Ha Hc) as [->|(es & b & -> & Hes & Hb)].
  - by destruct Hne.
  - rewrite Dir_abs_path, Base_abs_path, FileJoin_abs_path by done. done.
Qed.

Lemma readdir_In fs d n :
  In n (readdir fs d) <->
  exists p, p ∈ dom (fs_nodes fs) /\ Dir p = d /\ p <> d /\ Base p = n.
Proof.
  unfold readdir. rewrite <- list_elem_of_In, merge_sort_Permutation, list_elem_of_fmap.
  split.
  - intros (p & -> & Hp). apply list_elem_of_In, filter_In in Hp as [Hp Hd].
    apply list_elem_of_In, elem_of_elements in Hp. to_prop.
    destruct Hd as [Hd Hpd]. to_prop. eauto.
  - intros (p & Hp & <- & Hne & <-). exists p. split; [done|].
    apply list_elem_of_In, filter_In. split.
    + by apply list_elem_of_In, elem_of_elements.
    + rewrite String.eqb_refl. simpl. apply negb_true_iff. by apply String.eqb_neq.
Qed.

Lemma glob_dir_In fs d toks p :
  fs_wf fs ->
  In p (glob_dir fs d toks) <->
  os_Stat fs d = Some NDir /\ is_Some (os_Stat fs p) /\ Dir p = d /\ p <> d /\
    glob_match toks (Base p) = true.
Proof.
  intros Hwf. unfold glob_dir, os_Stat.
  destruct (fs_nodes fs !! d) as [[f|]|] eqn:Hd; simpl;
    try (split; [done|by intros (? & _)]).
  rewrite <- list_elem_of_In, list_elem_of_fmap. split.
  - intros (n & -> & Hn). apply list_elem_of_In, filter_In in Hn as [Hn Hm].
    apply readdir_In in Hn as (p & [nd Hp]%elem_of_dom & <- & Hne & <-).
    destruct (Hwf _ _ Hp). rewrite path_join_dir_base by done. eauto.
  - intros (_ & [nd Hp] & <- & Hne & Hm). exists (Base p).
    destruct (Hwf _ _ Hp). rewrite path_join_dir_base by done. split; [done|].
    apply list_elem_of_In, filter_In. split; [|done]. apply readdir_In. exists p.
    split; [|done]. apply elem_of_dom. eauto.
Qed.

Lemma readdir_NoDup fs d : fs_wf fs -> List.NoDup (readdir fs d).
Proof.
  intros Hwf. unfold readdir. apply NoDup_ListNoDup. rewrite merge_sort_Permutation.
  apply NoDup_fmap_2_strong; [|apply NoDup_ListNoDup, List.NoDup_filter, NoDup_ListNoDup, NoDup_elements].
  intros p q Hp Hq Hb.
  apply list_elem_of_In, filter_In in Hp as [Hp Hpd]. apply list_elem_of_In, elem_of_elements, elem_of_dom in Hp as [? Hp].
  apply list_elem_of_In, filter_In in Hq as [Hq Hqd]. apply list_elem_of_In, elem_of_elements, elem_of_dom in Hq as [? Hq].
  to_prop. destruct Hpd as [Hp1 Hp2], Hqd as [Hq1 Hq2]. to_prop.
  destruct (Hwf _ _ Hp), (Hwf _ _ Hq).
  rewrite <- (path_join_dir_base p), <- (path_join_dir_base q) by congruence. congruence.
Qed.

Lemma glob_dir_NoDup fs d toks : fs_wf fs -> List.NoDup (glob_dir fs d toks).
Proof.
  intros Hwf. unfold glob_dir. destruct (os_Stat fs d) as [[f|]|]; try constructor.
  apply NoDup_ListNoDup. apply NoDup_fmap_2_strong;
    [|apply NoDup_ListNoDup, List.NoDup_filter, readdir_NoDup, Hwf].
  intros m n Hm Hn Hj.
  apply list_elem_of_In, filter_In in Hm as [Hm _], Hn as [Hn _].
  apply readdir_In in Hm as (p & [? Hp]%elem_of_dom & <- & ? & <-).
  apply readdir_In in Hn as (q & [? Hq]%elem_of_dom & Hqd & ? & <-).
  destruct (Hwf _ _ Hp), (Hwf _ _ Hq).
  rewrite path_join_dir_base in Hj by done. rewrite <- Hqd in Hj.
  rewrite path_join_dir_base in Hj by congruence. congruence.
Qed.

Lemma glob_fuel_In fuel fs pat l p :
  fs_wf fs -> glob_fuel fuel fs pat = Some l -> In p l -> is_Some (os_Stat fs p).
Proof.
  intros Hwf. destruct fuel as [|fuel]; simpl; [done|].
  destruct (parse_pattern _ pat) as [ts|]; [|done].
  destruct (negb (hasMeta pat)).
  { intros [= <-]. destruct (os_Stat fs pat) eqn:E; [|done]. intros [<-|[]]. eauto. }
  destruct (Split pat) as [dir file]. destruct (parse_pattern _ file) as [toks|]; [|done].
  destruct (negb (hasMeta (cleanGlobPath dir))).
  { intros [= <-] H. by apply glob_dir_In in H as (_ & ? & _). }
  destruct (_ =? pat); [done|]. destruct (glob_fuel fuel fs _) as [ds|]; [|done].
  intros [= <-] H. apply in_concat in H as (x & [d [<- _]]%in_map_iff & H).
  by apply glob_dir_In in H as (_ & ? & _).
Qed.

(** What a glob returns exists. *)
Lemma Glob_exists fs pat l p :
  fs_wf fs -> Glob fs pat = Some l -> In p l -> is_Some (os_Stat fs p).
Proof. apply glob_fuel_In. Qed.

Lemma NoDup_concat_dirs fs toks ds :
  fs_wf fs -> List.NoDup ds -> List.NoDup (concat (map (fun d => glob_dir fs d toks) ds)).
Proof.
  intros Hwf. induction 1 as [|d ds Hd Hds IH]; simpl; [constructor|].
  apply NoDup_ListNoDup, NoDup_app. split; [by apply NoDup_ListNoDup, glob_dir_NoDup|].
  split; [|by apply NoDup_ListNoDup].
  intros p Hp Hc. apply list_elem_of_In in Hp, Hc.
  apply glob_dir_In in Hp as (_ & _ & Hp & _); [|done].
  apply in_concat in Hc as (x & [d' [<- Hd']]%in_map_iff & Hc).
  apply glob_dir_In in Hc as (_ & _ & Hc & _); [|done]. congruence.
Qed.

(** A glob returns no path twice. *)
Lemma Glob_NoDup fs pat l : fs_wf fs -> Glob fs pat = Some l -> List.NoDup l.
Proof.
  intros Hwf. unfold Glob. generalize (S (String.length pat)) as fuel.
  intros fuel. revert pat l. induction fuel as [|fuel IH]; intros pat l; simpl; [done|].
  destruct (parse_pattern _ pat) as [ts|]; [|done].
  destruct (negb (hasMeta pat)).
  { intros [= <-]. destruct (os_Stat fs pat); repeat constructor. by intros []. }
  destruct (Split pat) as [dir file]. destruct (parse_pattern _ file) as [toks|]; [|done].
  destruct (negb (hasMeta (cleanGlobPath dir))).
  { intros [= <-]. by apply glob_dir_NoDup. }
  destruct (_ =? pat); [done|]. destruct (glob_fuel fuel fs _) as [ds|] eqn:E; [|done].
  intros [= <-]. apply NoDup_concat_dirs; [done|]. eauto.
Qed.

(** Removing files keeps the file system well formed. *)
Lemma fs_wf_subset fs fs' :
  fs_wf fs -> fs_nodes fs' ⊆ fs_nodes fs -> fs_wf fs'.
Proof. intros Hwf Hsub p n Hp. eapply Hwf. by eapply lookup_weaken. Qed.

#[export] Hint Resolve Glob_exists Glob_NoDup : cro.

Lemma os_WriteFile_Ok now fs p data fs' :
  os_WriteFile now fs p data = Ok fs' ->
  (p ∉ fs_nowrite fs) /\ fs_nodes fs !! p <> Some NDir /\
  fs' = with_nodes fs (<[p := NFile {| f_size := Z.of_nat (String.length data);
                                       f_mtime := now; f_data := data |}]> (fs_nodes fs)).
Proof.
  unfold os_WriteFile. destruct (fs_nodes fs !! p) as [[]|]; try done;
    case_bool_decide; intros [= <-]; done.
Qed.

Lemma os_Remove_Ok fs p fs' :
  os_Remove fs p = Ok fs' ->
  (p ∉ fs_nowrite fs) /\ fs' = with_nodes fs (delete p (fs_nodes fs)) /\
  exists f, fs_nodes fs !! p = Some (NFile f).
Proof.
  unfold os_Remove. destruct (fs_nodes fs !! p) as [[]|]; try done.
  case_bool_decide; intros [= <-]; eauto.
Qed.

Lemma os_Rename_Ok fs src dst fs' :
  os_Rename fs src dst = Ok fs' ->
  exists f, fs_nodes fs !! src = Some (NFile f) /\
    fs' = with_nodes fs (<[dst := NFile f]> (delete src (fs_nodes fs))).
Proof.
  unfold os_Rename. destruct (fs_nodes fs !! src) as [[]|], (fs_nodes fs !! dst) as [[]|];
    try done; destruct (_ || _); intros [= <-]; eauto.
Qed.

(** A check for [fs_wf] on concrete file systems. *)
Definition fs_wfb (fs : FS) : bool :=
  forallb (fun p => IsAbs p && (Clean p =? p)) (elements (dom (fs_nodes fs))).

Lemma fs_wfb_sound fs : fs_wfb fs = true -> fs_wf fs.
Proof.
  unfold fs_wfb. rewrite forallb_forall. intros H p n Hp.
  assert (In p (elements (dom (fs_nodes fs)))) as Hin.
  { apply list_elem_of_In, elem_of_elements, elem_of_dom. eauto. }
  apply H in Hin. to_prop. destruct Hin. by to_prop.
Qed.
