(* ===== verification/GoFlag.v ===== *)
(** * Command lines (Go's [flag] package)

    [flag.Parse] on the command line of a program whose flags were defined with
    [StringVar], [BoolVar] and [DurationVar]: both commands of the repository read
    their settings this way.  Errors end the process ([flag.ExitOnError]). *)

From S2P Require Import Prelude GoStrings Kube.
Open Scope string_scope.
Open Scope list_scope.

(** A flag by the type of its variable; flags defined by a library validate and
    keep their text ([flag.Value]). *)
Inductive flag_kind :=
| FString
| FBool
| FDuration
| FValue (valid : string -> bool).

Inductive flag_value :=
| VString (s : string)
| VBool (b : bool)
| VDuration (d : Duration).

Inductive flag_error :=
| BadSyntax (arg : string)
| NotDefined (name : string)
| NeedsArgument (name : string)
| InvalidValue (name value : string)
| ErrHelp.

(** [strconv.ParseBool] *)
Definition ParseBool (s : string) : option bool :=
  if existsb (String.eqb s) ["1"; "t"; "T"; "true"; "TRUE"; "True"] then Some true
  else if existsb (String.eqb s) ["0"; "f"; "F"; "false"; "FALSE"; "False"] then Some false
  else None.

(** The values set so far, by name. *)
Abbreviation flag_set := (gmap string flag_value).

Section Flag.
(** [time.ParseDuration] *)
Context (ParseDuration : string -> option Duration).

(** [flag.Value.Set] *)
Definition Set_value (k : flag_kind) (s : string) : option flag_value :=
  match k with
  | FString => Some (VString s)
  | FBool => option_map VBool (ParseBool s)
  | FDuration => option_map VDuration (ParseDuration s)
  | FValue valid => if valid s then Some (VString s) else None
  end.

(** Split [name=value] at the first equals sign after the first character. *)
Fixpoint split_equals (s : string) : string * option string :=
  match s with
  | EmptyString => ("", None)
  | String c s' =>
      if Ascii.eqb c "=" then ("", Some s')
      else let '(n, v) := split_equals s' in (String c n, v)
  end.

Definition split_flag (s : string) : string * option string :=
  match s with
  | EmptyString => ("", None)
  | String c s' => let '(n, v) := split_equals s' in (String c n, v)
  end.

(** What the first argument is: the flags are over (and the rest of the
    arguments), an error, or a flag with its value if it carries one. *)
Inductive first_arg :=
| Over (rest : list string)
| Bad (e : flag_error)
| Flag (name : string) (value : option string) (rest : list string).

Definition classify (args : list string) : first_arg :=
  match args with
  | [] => Over []
  | s :: rest =>
      match s with
      | String "-" (String c s') =>
          let name := if Ascii.eqb c "-" then s' else String c s' in
          if Ascii.eqb c "-" && (s' =? "") then Over rest
          else match name with
               | EmptyString | String "-" _ | String "=" _ => Bad (BadSyntax s)
               | _ => let '(n, v) := split_flag name in Flag n v rest
               end
      | _ => Over args
      end
  end.

Definition lookup_flag (defs : list (string * flag_kind)) (name : string) : option flag_kind :=
  match List.find (fun d => (fst d =? name)%string) defs with
  | Some (_, k) => Some k
  | None => None
  end.

(** One flag: its value, and the arguments after it. *)
Definition parse_value_of (defs : list (string * flag_kind)) (name : string) (value : option string)
    (rest : list string) : result flag_error (flag_value * list string) :=
  match lookup_flag defs name with
  | None => if (name =? "help") || (name =? "h") then Err ErrHelp else Err (NotDefined name)
  | Some k =>
      let set_from (s : string) (rest : list string) :=
        match Set_value k s with
        | Some v => Ok (v, rest)
        | None => Err (InvalidValue name s)
        end in
      match k, value with
      | _, Some s => set_from s rest
      | FBool, None => set_from "true" rest
      | _, None => match rest with
                   | [] => Err (NeedsArgument name)
                   | s :: rest' => set_from s rest'
                   end
      end
  end.

(** [flag.Parse]: at most one round per argument. *)
Fixpoint parse_loop (fuel : nat) (defs : list (string * flag_kind)) (args : list string) (m : flag_set)
  : result flag_error (flag_set * list string) :=
  match fuel with
  | O => Ok (m, args)
  | S fuel =>
      match classify args with
      | Over rest => Ok (m, rest)
      | Bad e => Err e
      | Flag name value rest =>
          try! (v, rest') := parse_value_of defs name value rest in
          parse_loop fuel defs rest' (<[name := v]> m)
      end
  end.

Definition Parse (defs : list (string * flag_kind)) (args : list string)
  : result flag_error (flag_set * list string) :=
  parse_loop (S (length args)) defs args ∅.
End Flag.

(** The exit status after a failed [flag.Parse]. *)
Definition parse_exit (e : flag_error) : Z := match e with ErrHelp => 0 | _ => 2 end%Z.

(** The variables after parsing: what was set, or the default. *)
Definition string_flag (m : flag_set) (name dflt : string) : string :=
  match m !! name with Some (VString s) => s | _ => dflt end.
Definition bool_flag (m : flag_set) (name : string) (dflt : bool) : bool :=
  match m !! name with Some (VBool b) => b | _ => dflt end.
Definition duration_flag (m : flag_set) (name : string) (dflt : Duration) : Duration :=
  match m !! name with Some (VDuration d) => d | _ => dflt end.

(** ** Properties *)

Section FlagFacts.
Context (ParseDuration : string -> option Duration).

Lemma classify_shorter args name value rest :
  classify args = Flag name value rest -> (length rest < length args)%nat.
Proof.
  unfold classify. destruct args as [|s args]; [done|]. intros H.
  repeat (split_match_in H; try done); simpl; lia.
Qed.

Lemma parse_value_shorter defs name value rest v rest' :
  parse_value_of ParseDuration defs name value rest = Ok (v, rest') -> (length rest' <= length rest)%nat.
Proof.
  unfold parse_value_of. intros H. repeat (split_match_in H; try done); simpl; lia.
Qed.

(** The fuel of [Parse] is never used up: more of it changes nothing. *)
Lemma parse_loop_fuel defs args m fuel :
  (length args < fuel)%nat ->
  parse_loop ParseDuration fuel defs args m = parse_loop ParseDuration (S (length args)) defs args m.
Proof.
  revert args m. induction fuel as [fuel IH] using lt_wf_ind. intros args m Hf.
  destruct fuel as [|fuel]; [lia|]. simpl. destruct (classify args) as [rest|e|name value rest] eqn:Ec; try done.
  destruct (parse_value_of _ defs name value rest) as [[v rest']|e] eqn:Ev; [|done].
  apply classify_shorter in Ec. apply parse_value_shorter in Ev.
  rewrite (IH fuel) by lia. destruct (decide (length args = S (length rest'))) as [->|]; [done|].
  symmetry. apply IH; lia.
Qed.

(** Every value that ends up set is of the type its flag was defined with. *)
Definition typed (defs : list (string * flag_kind)) (m : flag_set) : Prop :=
  forall name v, m !! name = Some v ->
    exists k s, lookup_flag defs name = Some k /\ Set_value ParseDuration k s = Some v.

Lemma parse_typed defs args m rest :
  Parse ParseDuration defs args = Ok (m, rest) -> typed defs m.
Proof.
  unfold Parse. generalize (S (length args)) as fuel. intros fuel.
  assert (typed defs ∅) as H0 by (intros name v; by rewrite lookup_empty).
  revert args H0. generalize (∅ : flag_set) as m0. revert m rest.
  induction fuel as [|fuel IH]; intros m rest m0 args H0 H; simpl in H; [by simplify_eq|].
  destruct (classify args) as [r|e|name value r]; simplify_eq/=; [done|].
  destruct (parse_value_of _ defs name value r) as [[v r']|e] eqn:Ev; [|done].
  apply IH in H; [done|]. intros n w [[<- <-]|[Hne Hw]]%lookup_insert_Some; [|by apply H0].
  unfold parse_value_of in Ev. destruct (lookup_flag defs name) as [k|] eqn:Ek; [|by split_matches_in Ev].
  exists k. revert Ev. generalize (Set_value ParseDuration) as SV. intros SV Ev.
  repeat (split_match_in Ev; try done); eauto.
Qed.

End FlagFacts.
