(* ===== verification/GlobFacts.v ===== *)
(** * Globs for a fixed suffix

    The collector's glob patterns insert names read from archives without
    escaping them.  Whatever those names are, a pattern that ends in a literal
    suffix without pattern characters only matches names with that suffix. *)

From S2P Require Import Prelude GoStrings GoPath Kube GoSystem.
Open Scope string_scope.
Open Scope list_scope.

Lemma suffix_split s t pre c rest :
  s +:+ t = pre +:+ String c rest -> has_char c t = false -> exists s', rest = s' +:+ t.
Proof.
  revert pre. induction s as [|x s IH]; intros pre H Ht.
  - simpl in H. subst t. rewrite has_char_app in Ht. simpl in Ht.
    rewrite Ascii.eqb_refl, orb_true_r in Ht. done.
  - destruct pre as [|y pre]; simpl in H; simplify_eq; eauto.
Qed.

Lemma HasSuffix_cons c s t : HasSuffix s t = true -> HasSuffix (String c s) t = true.
Proof. rewrite !HasSuffix_spec. intros (r & ->). by exists (String c r). Qed.

Lemma HasSuffix_app a s t : HasSuffix s t = true -> HasSuffix (a +:+ s) t = true.
Proof. rewrite !HasSuffix_spec. intros (r & ->). exists (a +:+ r). by rewrite append_assoc. Qed.

Lemma getEsc_suffix s c r : getEsc s = Some (c, r) -> exists pre, s = pre +:+ r.
Proof.
  unfold getEsc. destruct s as [|x s]; [done|].
  destruct (_ || _); [done|]. destruct (Ascii.eqb x "\"); simpl.
  - destruct s as [|y s]; simpl; [done|]. destruct (s =? ""); [done|].
    intros [= <- <-]. by exists (String x (String y "")).
  - destruct (s =? ""); [done|]. intros [= <- <-]. by exists (String x "").
Qed.

Lemma parse_class_close fuel neg acc s t rest :
  parse_class fuel neg acc s = Some (t, rest) -> exists pre, s = pre +:+ String "]" rest.
Proof.
  revert acc s. induction fuel as [|fuel IH]; intros acc s; simpl; [done|].
  destruct s as [|c r]; [done|].
  destruct (Ascii.eqb c "]" && _) eqn:Ec.
  { intros [= <- <-]. to_prop. destruct Ec as [->%Ascii.eqb_eq _]. by exists "". }
  destruct (getEsc (String c r)) as [[lo s1]|] eqn:E1; [|done].
  apply getEsc_suffix in E1 as (p1 & ->). destruct s1 as [|d s2]; [done|].
  destruct (Ascii.eqb d "-").
  - destruct (getEsc s2) as [[hi s3]|] eqn:E2; [|done].
    apply getEsc_suffix in E2 as (p2 & ->). intros (p3 & ->)%IH.
    exists (p1 +:+ String d (p2 +:+ p3)). rewrite !append_assoc. simpl. by rewrite append_assoc.
  - intros (p3 & Hp3)%IH. rewrite Hp3. exists (p1 +:+ p3). by rewrite append_assoc.
Qed.

Section Suffix.
(** [".tar"], as bytes. *)
Definition tar_tokens : list glob_tok := [GChar "."; GChar "t"; GChar "a"; GChar "r"].

Lemma parse_pattern_tar fuel s0 toks :
  parse_pattern fuel (s0 +:+ ".tar") = Some toks -> exists pre, toks = pre ++ tar_tokens.
Proof.
  revert s0 toks. induction fuel as [|fuel IH]; intros s0 toks H; [by destruct s0|].
  destruct s0 as [|c s].
  { do 3 (destruct fuel as [|fuel]; [done|]). simpl in H.
    destruct fuel; simpl in H; simplify_eq; by exists []. }
  simpl in H.
  destruct (Ascii.eqb c "*"); [|destruct (Ascii.eqb c "?"); [|destruct (Ascii.eqb c "[");
    [|destruct (Ascii.eqb c "\")]]].
  3:{ set (x := match s +:+ ".tar" with String _ _ => _ | _ => _ end) in H.
      assert (exists s1, x.2 = s1 +:+ ".tar") as [s1 Hs1].
      { subst x. destruct s as [|y s]; simpl; [by exists ""|].
        destruct (Ascii.eqb y "^"); [by exists s|by exists (String y s)]. }
      destruct x as [neg r1]. simpl in Hs1. subst r1.
      destruct (parse_class _ _ _ _) as [[t r2]|] eqn:Ec; [|done].
      apply parse_class_close in Ec as (pre & Hpre).
      apply suffix_split in Hpre as (s' & ->); [|done].
      destruct (parse_pattern fuel (s' +:+ ".tar")) as [ts|] eqn:E; simpl in H; simplify_eq.
      apply IH in E as (pre' & ->). by exists (t :: pre'). }
  3:{ destruct s as [|x y].
      - change ("" +:+ ".tar") with ".tar" in H.
        do 3 (destruct fuel as [|fuel]; [done|]). destruct fuel; simpl in H; simplify_eq; by exists [].
      - simpl in H. destruct (parse_pattern fuel (y +:+ ".tar")) as [ts|] eqn:E; simpl in H; simplify_eq.
        apply IH in E as (pre' & ->). by exists (GChar x :: pre'). }
  all: destruct (parse_pattern fuel (s +:+ ".tar")) as [ts|] eqn:E; simpl in H; simplify_eq;
    apply IH in E as (pre' & ->); by eexists (_ :: pre').
Qed.

Lemma glob_match_suffix pre n :
  glob_match (pre ++ tar_tokens) n = true -> HasSuffix n ".tar" = true.
Proof.
  revert n. induction pre as [|t pre IH]; intros n H.
  - simpl in H. destruct n as [|c0 [|c1 [|c2 [|c3 n]]]]; simpl in H;
      repeat rewrite andb_true_iff in H; destruct_and?; try done.
    repeat match goal with H : Ascii.eqb _ _ = true |- _ => apply Ascii.eqb_eq in H end.
    to_prop. by subst.
  - destruct t; simpl in H.
    + induction n as [|c n IHn].
      * apply IH. by rewrite orb_false_r in H.
      * apply orb_true_iff in H as [H|H]; [by apply IH|]. to_prop. apply HasSuffix_cons. tauto.
    + destruct n as [|c n]; [done|]. to_prop. apply HasSuffix_cons. apply IH. tauto.
    + destruct n as [|c n]; [done|]. to_prop. apply HasSuffix_cons. apply IH. tauto.
    + destruct n as [|x n]; [done|]. to_prop. apply HasSuffix_cons. apply IH. tauto.
Qed.

Lemma Split_spec p :
  fst (Split p) +:+ snd (Split p) = p /\ has_char sep (snd (Split p)) = false /\
  (fst (Split p) = "" \/ exists d, fst (Split p) = d +:+ "/").
Proof.
  induction p as [|a r IH]; simpl; [by repeat split; auto|].
  destruct (Split r) as [d f]. simpl in IH. destruct IH as (Hr & Hf & Hd).
  destruct (has_char sep r) eqn:Es; simpl.
  - split; [by rewrite Hr|]. split; [done|]. right.
    destruct Hd as [->|(d' & ->)].
    + simpl in Hr. subst. congruence.
    + by exists (String a d').
  - destruct (Ascii.eqb a sep) eqn:Ea; simpl.
    + apply Ascii.eqb_eq in Ea as ->. split; [done|]. split; [done|]. right. by exists "".
    + split; [done|]. rewrite Ea, Es. auto.
Qed.

Lemma Split_tar p : HasSuffix p ".tar" = true -> HasSuffix (snd (Split p)) ".tar" = true.
Proof.
  intros (r & Hr)%HasSuffix_spec. destruct (Split_spec p) as (Hp & _ & Hd).
  destruct (Split p) as [d f]. simpl in *. destruct Hd as [->|(d' & ->)].
  - simpl in Hp. subst. apply HasSuffix_spec. by exists r.
  - rewrite append_assoc in Hp. simpl in Hp. rewrite <- Hp in Hr. symmetry in Hr.
    apply suffix_split in Hr as (s' & ->); [|done]. apply HasSuffix_spec. by exists s'.
Qed.

(** The last path element of a string that ends in [".tar"]. *)
Lemma split_on_last_tar s :
  HasSuffix s ".tar" = true ->
  exists es e, split_on sep s = es ++ [e] /\ HasSuffix e ".tar" = true.
Proof.
  intros H. destruct (Split_spec s) as (Hs & Hf & Hd). pose proof (Split_tar s H) as Ht.
  destruct (Split s) as [d f]. simpl in *. destruct Hd as [->|(d' & ->)].
  - simpl in Hs. subst. exists [], s. by rewrite split_on_single.
  - rewrite append_assoc in Hs. subst s. exists (split_on sep d'), f. split; [|done].
    clear -Hf. induction d' as [|a d IH]; simpl.
    + by rewrite split_on_single.
    + change ("/" +:+ f) with (String "/" f) in IH. rewrite IH.
      destruct (Ascii.eqb a sep); [done|]. destruct (split_on sep d) as [|x l] eqn:E; [|done].
      by apply split_on_nonnil in E.
Qed.

Lemma Join_last es e : exists r, Join "/" (es ++ [e]) = r +:+ e.
Proof.
  destruct es as [|x es]; [by exists ""|]. rewrite Join_app by done.
  exists (Join "/" (x :: es) +:+ "/"). by rewrite append_assoc.
Qed.

Lemma Clean_tar s : HasSuffix s ".tar" = true -> HasSuffix (Clean s) ".tar" = true.
Proof.
  intros H. destruct (split_on_last_tar s H) as (es & e & Hs & He).
  unfold Clean. rewrite Hs, fold_left_app. simpl.
  set (st := fold_left _ es []).
  assert (clean_step (IsAbs s) st e = e :: st) as ->.
  { unfold clean_step. apply HasSuffix_spec in He as (r & ->).
    assert (forall t, String.length t < 4 -> (r +:+ ".tar" =? t) = false) as Hne.
    { intros t Ht. apply String.eqb_neq. intros <-. rewrite append_length in Ht. simpl in Ht. lia. }
    rewrite !Hne by (simpl; lia). done. }
  simpl. destruct (Join_last (rev st) e) as [r ->].
  set (out := _ +:+ _). assert (HasSuffix out ".tar" = true) as Ho.
  { subst out. by repeat apply HasSuffix_app. }
  destruct (out =? "") eqn:E; [|done]. to_prop. by rewrite E in Ho.
Qed.

Lemma FileJoin_tar d s : HasSuffix s ".tar" = true -> HasSuffix (FileJoin d s) ".tar" = true.
Proof.
  intros H. unfold FileJoin. destruct (d =? ""); [destruct (s =? "") eqn:E|].
  - to_prop. by subst.
  - by apply Clean_tar.
  - apply Clean_tar. by repeat apply HasSuffix_app.
Qed.

Lemma Base_tar_path p :
  IsAbs p = true -> Clean p = p -> HasSuffix (Base p) ".tar" = true -> HasSuffix p ".tar" = true.
Proof.
  intros Ha Hc H. destruct (clean_abs_cases p Ha Hc) as [->|(es & b & -> & Hes & Hb)]; [done|].
  rewrite Base_abs_path in H by done. destruct (abs_path_last es b) as (d & -> & _).
  by repeat apply HasSuffix_app.
Qed.

(** A glob whose pattern ends in [".tar"] returns only such paths, whatever the
    rest of the pattern is. *)
Lemma Glob_tar fs pat l p :
  fs_wf fs -> HasSuffix pat ".tar" = true -> Glob fs pat = Some l -> In p l ->
  HasSuffix p ".tar" = true.
Proof.
  intros Hwf Ht. unfold Glob. simpl.
  destruct (parse_pattern _ pat) as [ts|]; [|done].
  destruct (negb (hasMeta pat)).
  { intros [= <-]. destruct (os_Stat fs pat); [|done]. by intros [<-|[]]. }
  pose proof (Split_tar pat Ht) as Hf. destruct (Split pat) as [dir file]. simpl in Hf.
  apply HasSuffix_spec in Hf as (f0 & ->).
  destruct (parse_pattern _ (f0 +:+ ".tar")) as [toks|] eqn:Ep; [|done].
  apply parse_pattern_tar in Ep as (pre & ->).
  assert (forall d, In p (glob_dir fs d (pre ++ tar_tokens)) -> HasSuffix p ".tar" = true) as Hdir.
  { intros d (_ & [n Hn] & _ & _ & Hm)%glob_dir_In; [|done].
    destruct (Hwf p n Hn). apply Base_tar_path; try done. by eapply glob_match_suffix. }
  destruct (negb (hasMeta (cleanGlobPath dir))).
  { intros [= <-]. eauto. }
  destruct (_ =? pat); [done|]. destruct (glob_fuel _ fs _) as [ds|]; [|done].
  intros [= <-] H. apply in_concat in H as (x & [d [<- _]]%in_map_iff & H). eauto.
Qed.
End Suffix.
#[export] Hint Resolve HasSuffix_app FileJoin_tar : cro.
