(* ===== verification/Api.v ===== *)
(** * The API types of the operator ([api/v1])

    The specs and statuses of the four custom resources, and the three
    validation functions of [podrestore_types.go] that the PodRestore controller
    and the CRI proxy share, with the theorems on path confinement. *)

From S2P Require Import Prelude GoStrings GoPath Kube.
Open Scope string_scope.

(** ** CheckpointRestoreOperator: retention policies *)

Record GlobalPolicySpec := {
  gp_RetainOrphan : option bool;
  gp_MaxCheckpointsPerNamespaces : option Z;
  gp_MaxCheckpointsPerPod : option Z;
  gp_MaxCheckpointsPerContainer : option Z;
  gp_MaxCheckpointSize : option Quantity;
  gp_MaxTotalSizePerNamespace : option Quantity;
  gp_MaxTotalSizePerPod : option Quantity;
  gp_MaxTotalSizePerContainer : option Quantity
}.

Record ContainerPolicySpec := {
  cp_Namespace : string;
  cp_Pod : string;
  cp_Container : string;
  cp_RetainOrphan : option bool;
  cp_MaxCheckpoints : option Z;
  cp_MaxCheckpointSize : option Quantity;
  cp_MaxTotalSize : option Quantity
}.

Record PodPolicySpec := {
  pp_Namespace : string;
  pp_Pod : string;
  pp_RetainOrphan : option bool;
  pp_MaxCheckpoints : option Z;
  pp_MaxCheckpointSize : option Quantity;
  pp_MaxTotalSize : option Quantity
}.

Record NamespacePolicySpec := {
  np_Namespace : string;
  np_RetainOrphan : option bool;
  np_MaxCheckpoints : option Z;
  np_MaxCheckpointSize : option Quantity;
  np_MaxTotalSize : option Quantity
}.

Record CheckpointRestoreOperatorSpec := {
  CheckpointDirectory : string;
  ApplyPoliciesImmediately : bool;
  GlobalPolicies : GlobalPolicySpec;
  ContainerPolicies : list ContainerPolicySpec;
  PodPolicies : list PodPolicySpec;
  NamespacePolicies : list NamespacePolicySpec
}.

(** ** Label selectors *)

Record LabelSelectorRequirement := {
  lsr_Key : string;
  lsr_Operator : string;
  lsr_Values : list string
}.

Record LabelSelector := {
  MatchLabels : gmap string string;
  MatchExpressions : list LabelSelectorRequirement
}.

(** ** CheckpointSchedule *)

Record ResourcePercentThreshold := {
  Upper : option Z;
  Lower : option Z
}.

Record ResourceThresholdSpec := {
  CPUPercent : option ResourcePercentThreshold;
  MemoryPercent : option ResourcePercentThreshold;
  PollIntervalSeconds : option Z
}.

Record TriggersSpec := {
  tr_Interval : option Duration;
  ResourceThreshold : option ResourceThresholdSpec;
  OnKubernetesEvents : list string;
  OnAnnotation : bool
}.

Record CheckpointScheduleSpec := {
  cs_Namespace : string;
  cs_Selector : LabelSelector;
  cs_ContainerNames : list string;
  cs_Triggers : TriggersSpec
}.

Record CheckpointScheduleStatus := {
  cs_Conditions : list Condition;
  LastCheckpointTime : option Time;
  CheckpointsCreated : Z
}.

Record CheckpointSchedule := {
  cs_CreationTimestamp : Time;
  cs_Deleting : bool;
  cs_Finalizers : list string;
  cs_Spec : CheckpointScheduleSpec;
  cs_Status : CheckpointScheduleStatus
}.

(** ** ForensicSnapshotChain *)

Record CaptureSpec := {
  fc_Interval : option Duration;
  fc_MaxSnapshots : option Z;
  fc_MaxDuration : option Duration
}.

Record IntegritySpec := { HashAlgorithm : string }.

(** The phase is a string in Go; the four known values, the empty one and any
    other are told apart. *)
Inductive SnapshotChainPhase :=
| PhaseNone
| PhasePending
| PhaseRunning
| PhaseCompleted
| PhaseFailed
| PhaseOther (s : string).

Inductive PostSnapshotAction :=
| PostSnapshotActionNone
| PostSnapshotActionDeletePod
| PostSnapshotActionOther (s : string).

#[export] Instance SnapshotChainPhase_eq_dec : EqDecision SnapshotChainPhase.
Proof. solve_decision. Defined.
#[export] Instance PostSnapshotAction_eq_dec : EqDecision PostSnapshotAction.
Proof. solve_decision. Defined.

Record SnapshotChainRecord := {
  Index : Z;
  r_PodName : string;
  r_ContainerName : string;
  CheckpointPath : string;
  SnapshotTime : Time;
  SHA256Hash : string;
  PreviousSHA256Hash : string
}.

Record ForensicSnapshotChainSpec := {
  fs_Namespace : string;
  fs_Selector : LabelSelector;
  fs_ContainerNames : list string;
  Capture : CaptureSpec;
  Integrity : IntegritySpec;
  fs_PostSnapshotAction : PostSnapshotAction
}.

Record ForensicSnapshotChainStatus := {
  fs_Conditions : list Condition;
  Phase : SnapshotChainPhase;
  SnapshotCount : Z;
  AttemptCount : Z;
  FailureCount : Z;
  StartTime : option Time;
  LastSnapshotTime : option Time;
  CompletionTime : option Time;
  ErrorMessage : string;
  fs_ObservedGeneration : Z;
  SnapshotChainRecords : list SnapshotChainRecord
}.

Record ForensicSnapshotChain := {
  fs_Generation : Z;
  fs_Spec : ForensicSnapshotChainSpec;
  fs_Status : ForensicSnapshotChainStatus
}.

(** ** PodRestore *)

Record ContainerCheckpoint := {
  cc_Container : string;
  cc_Path : string
}.

(** The Pod template: nil maps and empty maps are told apart, as the renderer
    does. *)
Record PodTemplateSpec := {
  t_Annotations : option (gmap string string);
  t_Labels : option (gmap string string);
  t_Spec : PodSpec
}.

Record PodRestoreSpec := {
  TargetNode : string;
  Checkpoints : list ContainerCheckpoint;
  Template : PodTemplateSpec
}.

Record PodRestoreStatus := {
  pr_Conditions : list Condition;
  pr_PodName : string;
  pr_ObservedGeneration : Z
}.

Record PodRestore := {
  pr_Name : string;
  pr_Namespace : string;
  pr_UID : string;
  pr_Generation : Z;
  pr_Deleting : bool;
  pr_Finalizers : list string;
  pr_Spec : PodRestoreSpec;
  pr_Status : PodRestoreStatus
}.

Definition RestoreCheckpointPathAnnotationPrefix : string := "restore.criu.org/checkpoint-path.".
Definition DefaultCheckpointDir : string := "/var/lib/kubelet/checkpoints".
Definition ConditionReady : string := "Ready".
Definition ConditionCheckpointsPinned : string := "CheckpointsPinned".

(** ** Checkpoint path validation *)

Inductive PathError :=
| PathEmpty
| PathNotAbsolute (p : string)
| PathNotClean (p : string)
| PathNotTar (p : string)
| PathNotInDir (p dir : string)
| NameNotKubelet (base : string)
| NameOtherNamespace (base ns : string).

Definition ValidateCheckpointPath (p : string) : result PathError unit :=
  if p =? "" then Err PathEmpty
  else if negb (IsAbs p) then Err (PathNotAbsolute p)
  else if negb (Clean p =? p) then Err (PathNotClean p)
  else if negb (Ext p =? ".tar") then Err (PathNotTar p)
  else Ok tt.

Definition ValidateCheckpointPathInDir (p allowedDir : string) : result PathError unit :=
  try! _ := ValidateCheckpointPath p in
  let allowedDir := if allowedDir =? "" then DefaultCheckpointDir else allowedDir in
  if negb (Dir p =? Clean allowedDir) then Err (PathNotInDir p allowedDir)
  else Ok tt.

Definition ValidateCheckpointNamespaceHint (p ns : string) : result PathError unit :=
  let base := Base p in
  match CutPrefix base "checkpoint-" with
  | None => Err (NameNotKubelet base)
  | Some rest =>
      match Cut rest "_" with
      | None => Err (NameNotKubelet base)
      | Some (_, after) =>
          if negb (HasPrefix after (ns +:+ "-")) then Err (NameOtherNamespace base ns)
          else Ok tt
      end
  end.

(** ** Properties *)

(** The directory an empty configuration stands for. *)
Definition allowed_dir (d : string) : string := if d =? "" then DefaultCheckpointDir else d.

Lemma ValidateCheckpointPath_Ok p :
  ValidateCheckpointPath p = Ok tt <->
  p <> "" /\ IsAbs p = true /\ Clean p = p /\ Ext p = ".tar".
Proof.
  unfold ValidateCheckpointPath.
  destruct (p =? "") eqn:E1; [to_prop; intuition congruence|].
  destruct (IsAbs p) eqn:E2; simpl; [|intuition congruence].
  destruct (Clean p =? p) eqn:E3; simpl; [|to_prop; intuition congruence].
  destruct (Ext p =? ".tar") eqn:E4; simpl; to_prop; intuition congruence.
Qed.

(** The extension is a suffix of the path. *)
Lemma Ext_suffix p : Ext p <> "" -> HasSuffix p (Ext p) = true.
Proof.
  induction p as [|a p IH]; simpl; [done|]. destruct (Ext p =? "") eqn:E; simpl.
  - destruct (has_char sep p); [done|]. destruct (Ascii.eqb a "."); [|done]. by rewrite String.eqb_refl.
  - to_prop. intros _. by rewrite IH, orb_true_r.
Qed.

Lemma Ext_root : Ext "/" <> ".tar".
Proof. done. Qed.

(** The extension only depends on the last element. *)
Lemma Ext_app_slash d b : has_char sep b = false -> Ext (d +:+ "/" +:+ b) = Ext b.
Proof.
  intros Hb. induction d as [|a d IH]; simpl in *.
  - rewrite Hb. destruct (Ext b =? "") eqn:E; simpl; [to_prop; by rewrite E|done].
  - rewrite IH. rewrite has_char_app. simpl. rewrite orb_true_r.
    destruct (Ext b =? "") eqn:E; simpl; [to_prop; by rewrite E|done].
Qed.

(** C36.  A path accepted by [ValidateCheckpointPathInDir] names a file directly
    inside the (cleaned) allowed directory: it is that directory's path
    followed by one element, which is a proper name (neither empty, [.] nor
    [..], with no separator) whose extension is [.tar]; and every such path is
    accepted.  So the confinement test is exact: no traversal and no
    sub-directory gets through, for any configured absolute directory. *)
Theorem ValidateCheckpointPathInDir_confines p dir :
  IsAbs (allowed_dir dir) = true ->
  (ValidateCheckpointPathInDir p dir = Ok tt <->
   exists es b, Clean (allowed_dir dir) = abs_path es /\ p = abs_path (app es [b]) /\
     Forall clean_elem es /\ clean_elem b /\ Ext b = ".tar").
Proof.
  intros Hdir. unfold ValidateCheckpointPathInDir.
  fold (allowed_dir dir). split.
  - destruct (ValidateCheckpointPath p) as [[]|] eqn:E; [|done].
    apply ValidateCheckpointPath_Ok in E as (_ & Ha & Hc & He).
    destruct (Dir p =? Clean (allowed_dir dir)) eqn:Ed; simpl; [|done]. intros _. to_prop.
    destruct (clean_abs_cases p Ha Hc) as [->|(es & b & -> & Hes & Hb)]; [done|].
    exists es, b. rewrite Dir_abs_path in Ed by done. repeat split; try done; try apply Hb.
    destruct (abs_path_last es b) as (d & Hd & _). rewrite Hd in He.
    rewrite Ext_app_slash in He by apply Hb. done.
  - intros (es & b & Hd & -> & Hes & Hb & He).
    assert (Forall clean_elem (app es [b])) as Hall by (apply Forall_app; split; [done|by constructor]).
    assert (ValidateCheckpointPath (abs_path (app es [b])) = Ok tt) as ->.
    { apply ValidateCheckpointPath_Ok. split; [done|]. repeat split.
      - by apply Clean_abs_path.
      - destruct (abs_path_last es b) as (d & -> & _). by rewrite Ext_app_slash by apply Hb. }
    by rewrite Dir_abs_path, Hd, String.eqb_refl.
Qed.

Lemma ValidateCheckpointPathInDir_confines_witness :
  exists es b, Clean (allowed_dir "") = abs_path es /\
     "/var/lib/kubelet/checkpoints/checkpoint-a_b-c-1.tar" = abs_path (app es [b]) /\
     Forall clean_elem es /\ clean_elem b /\ Ext b = ".tar".
Proof.
  apply (ValidateCheckpointPathInDir_confines
           "/var/lib/kubelet/checkpoints/checkpoint-a_b-c-1.tar" ""); reflexivity.
Defined.

(** [ValidateCheckpointNamespaceHint] accepts exactly the archive names
    [checkpoint-<pod>_<ns>-<rest>] where [<pod>] holds no underscore: every
    archive the kubelet names for namespace [ns] passes (pod names hold no
    underscore), and whatever passes has [ns] followed by a dash right after
    the first underscore. *)
Theorem ValidateCheckpointNamespaceHint_exact p ns :
  ValidateCheckpointNamespaceHint p ns = Ok tt <->
  exists pod rest, Base p = "checkpoint-" +:+ pod +:+ "_" +:+ ns +:+ "-" +:+ rest /\
    has_char "_" pod = false.
Proof.
  unfold ValidateCheckpointNamespaceHint. split.
  - destruct (CutPrefix (Base p) "checkpoint-") as [r|] eqn:E1; [|done].
    apply CutPrefix_spec in E1.
    destruct (Cut r "_") as [[pod after]|] eqn:E2; [|done].
    apply Cut_spec in E2 as [-> Hpod].
    destruct (HasPrefix after (ns +:+ "-")) eqn:E3; [|done]. intros _.
    apply HasPrefix_spec in E3 as [rest ->]. exists pod, rest. split; [|done].
    rewrite E1. by rewrite append_assoc.
  - intros (pod & rest & -> & Hpod).
    set (s := pod +:+ "_" +:+ ns +:+ "-" +:+ rest).
    assert (CutPrefix ("checkpoint-" +:+ s) "checkpoint-" = Some s) as ->
      by by apply CutPrefix_spec.
    assert (Cut s "_" = Some (pod, ns +:+ "-" +:+ rest)) as -> by by apply Cut_spec.
    assert (HasPrefix (ns +:+ "-" +:+ rest) (ns +:+ "-") = true) as ->; [|done].
    apply HasPrefix_spec. exists rest. by rewrite append_assoc.
Qed.

(** The residual ambiguity the source documents: an archive of namespace
    [team-prod] passes the hint for namespace [team]. *)
Example namespace_hint_prefix :
  ValidateCheckpointNamespaceHint "/d/checkpoint-p_team-prod-c-1.tar" "team" = Ok tt.
Proof. reflexivity. Qed.
