(* ===== verification/Admission.v ===== *)
(** * What the API server admits (the validation markers of [src/api/v1/*_types.go])

    The markers on the fields of the custom resources become the schema and the
    CEL rules of the CRDs, which the API server enforces before a controller sees
    an object: the bounds of numbers, durations and strings, enumerations, lists
    keyed by a field, and the immutability of fields.  Lengths are counted in
    bytes, durations are those CEL's [duration] can parse. *)

From S2P Require Import Prelude GoStrings GoPath Kube Api.
Open Scope string_scope.
Open Scope list_scope.
Open Scope Z_scope.

Definition present {A} (o : option A) : bool := match o with Some _ => true | None => false end.

(** A field that is absent is not validated. *)
Definition if_present {A} (o : option A) (f : A -> bool) : bool := match o with Some x => f x | None => true end.

(** [duration(self) >= duration('1s')] *)
Definition at_least_1s (d : Duration) : bool := Second <=? d.

(** The schema's [format: int32]. *)
Definition is_int32 (z : Z) : bool := (-2147483648 <=? z) && (z <=? MaxInt32).

Definition length_between (lo hi : nat) (s : string) : bool :=
  (lo <=? String.length s)%nat && (String.length s <=? hi)%nat.

(** ** ForensicSnapshotChain *)

Definition admit_CaptureSpec (c : CaptureSpec) : bool :=
  (present (fc_MaxSnapshots c) || present (fc_MaxDuration c)) &&
  if_present (fc_Interval c) at_least_1s &&
  if_present (fc_MaxSnapshots c) (fun n => is_int32 n && (1 <=? n)) &&
  if_present (fc_MaxDuration c) at_least_1s.

(** An absent action is defaulted to [None] before it is validated. *)
Definition default_PostSnapshotAction (a : PostSnapshotAction) : PostSnapshotAction :=
  match a with
  | PostSnapshotActionOther "" => PostSnapshotActionNone
  | _ => a
  end.

Definition admit_PostSnapshotAction (a : PostSnapshotAction) : bool :=
  match default_PostSnapshotAction a with PostSnapshotActionOther _ => false | _ => true end.

Definition admit_ForensicSnapshotChainSpec (s : ForensicSnapshotChainSpec) : bool :=
  admit_CaptureSpec (Capture s) && admit_PostSnapshotAction (fs_PostSnapshotAction s).

(** ** CheckpointSchedule *)

Definition admit_TriggersSpec (t : TriggersSpec) : bool := if_present (tr_Interval t) at_least_1s.

(** ** PodRestore *)

Definition newline : ascii := ascii_of_N 10.

(** The pattern [^/.*\.tar$]; a dot does not match a newline. *)
Definition path_pattern (p : string) : bool :=
  HasPrefix p "/" && HasSuffix p ".tar" && negb (has_char newline p).

Definition admit_ContainerCheckpoint (cp : ContainerCheckpoint) : bool :=
  length_between 1 253 (cc_Container cp) && path_pattern (cc_Path cp) && length_between 0 4096 (cc_Path cp).

(** The list is a map keyed by the container. *)
Definition admit_PodRestoreSpec (s : PodRestoreSpec) : bool :=
  length_between 1 253 (TargetNode s) &&
  ((1 <=? length (Checkpoints s))%nat && (length (Checkpoints s) <=? 32)%nat) &&
  forallb admit_ContainerCheckpoint (Checkpoints s) &&
  bool_decide (NoDup (cc_Container <$> Checkpoints s)).

#[export] Instance ContainerCheckpoint_eq_dec : EqDecision ContainerCheckpoint.
Proof. solve_decision. Defined.

#[export] Instance Container_eq_dec : EqDecision Container.
Proof. solve_decision. Defined.
#[export] Instance PodSpec_eq_dec : EqDecision PodSpec.
Proof. solve_decision. Defined.
#[export] Instance PodTemplateSpec_eq_dec : EqDecision PodTemplateSpec.
Proof. solve_decision. Defined.

(** [self == oldSelf] on [targetNode], [checkpoints] and [template]. *)
Definition admit_PodRestoreSpec_update (old new : PodRestoreSpec) : bool :=
  admit_PodRestoreSpec new && (TargetNode new =? TargetNode old)%string &&
  bool_decide (Checkpoints new = Checkpoints old) && bool_decide (Template new = Template old).

(** ** What the controllers may rely on *)

(** A capture specification has a limit: a duration, or a positive number of
    rounds that fits the 32-bit counters. *)
Lemma admitted_capture c :
  admit_CaptureSpec c = true ->
  (is_Some (fc_MaxDuration c) \/ exists L, fc_MaxSnapshots c = Some L /\ 1 <= L <= MaxInt32) /\
  (forall d, fc_MaxDuration c = Some d -> Second <= d) /\ (forall i, fc_Interval c = Some i -> Second <= i).
Proof.
  unfold admit_CaptureSpec, is_int32, at_least_1s. intros H. to_prop. destruct H as [[[Hl Hi] Hn] Hd].
  split; [|split].
  - destruct (fc_MaxDuration c) as [d|]; [left; eauto|]. right.
    destruct (fc_MaxSnapshots c) as [L|]; [|by destruct Hl]. exists L. split; [done|]. simpl in Hn. to_prop. lia.
  - intros d Hd'. rewrite Hd' in Hd. simpl in Hd. by to_prop.
  - intros i Hi'. rewrite Hi' in Hi. simpl in Hi. by to_prop.
Qed.

Lemma admitted_distinct s : admit_PodRestoreSpec s = true -> NoDup (cc_Container <$> Checkpoints s).
Proof. intros [_ H]%andb_true_iff. by apply bool_decide_eq_true in H. Qed.

(** All fields of a PodRestore's spec are immutable. *)
Lemma admitted_update old new : admit_PodRestoreSpec_update old new = true -> new = old.
Proof.
  unfold admit_PodRestoreSpec_update. rewrite !andb_true_iff, String.eqb_eq, !bool_decide_eq_true.
  destruct old, new. simpl. intros [[[_ ->] ->] ->]. done.
Qed.

(** The controller's own check is the stricter one: a path it accepts, without a
    newline, has the admitted form. *)
Lemma validated_path_admitted p :
  ValidateCheckpointPath p = Ok tt -> has_char newline p = false -> path_pattern p = true.
Proof.
  intros (_ & Ha & _ & He)%ValidateCheckpointPath_Ok Hn. unfold path_pattern. rewrite Hn, andb_true_r.
  apply andb_true_iff. split; [exact Ha|]. rewrite <- He. apply Ext_suffix. by rewrite He.
Qed.
