(* ===== verification/Pinning.v ===== *)
(** * Checkpoint pinning
    ([checkpoint_pinning.go], pin markers of [podrestore_controller.go])

    The [.keep] marker protocol between the retention garbage collector and the
    PodRestore controller.  A marker is a JSON document counting the restores
    that use an archive; the collector only tests for the marker's existence.
    Log output is dropped.  [podRestorePinMu] makes each critical section one
    step; the [os.Stat] of [pinCheckpoint] runs before the lock and is a step of
    its own in the interleaving model at the end of the file. *)

From S2P Require Import Prelude GoStrings GoJson GoPath Kube GoSystem Api.
Open Scope string_scope.
Open Scope list_scope.

(** ** The marker document *)

Record podRestorePinMarker := {
  ManagedBy : string;
  Owners : list string
}.

Definition podRestorePinManager : string := "checkpoint-restore-operator/podrestore".

(** The fields of the struct in the order of the document; unknown keys are
    skipped, a value of the wrong type is an error, [null] keeps the string and
    clears the slice. *)
Fixpoint decode_marker (l : list (string * json)) (m : podRestorePinMarker)
  : option podRestorePinMarker :=
  match l with
  | [] => Some m
  | (k, v) :: l' =>
      if fold_name k =? fold_name "managedBy" then
        match v with
        | JStr s => decode_marker l' {| ManagedBy := s; Owners := Owners m |}
        | JNull => decode_marker l' m
        | _ => None
        end
      else if fold_name k =? fold_name "podRestoreOwners" then
        match v with
        | JArr a => match decode_strings a with
                    | Some os => decode_marker l' {| ManagedBy := ManagedBy m; Owners := os |}
                    | None => None
                    end
        | JNull => decode_marker l' {| ManagedBy := ManagedBy m; Owners := [] |}
        | _ => None
        end
      else decode_marker l' m
  end.

(** [json.Unmarshal(data, &marker)] *)
Definition unmarshal_marker (data : string) : option podRestorePinMarker :=
  let zero := {| ManagedBy := ""; Owners := [] |} in
  match parse_json data with
  | Some (JObj l) => decode_marker l zero
  | Some JNull => Some zero
  | _ => None
  end.

Definition parsePodRestorePinMarker (data : string) : option podRestorePinMarker :=
  match unmarshal_marker data with
  | None => None
  | Some marker => if negb (ManagedBy marker =? podRestorePinManager) then None else Some marker
  end.

(** [json.Marshal(marker)]; [podRestoreOwners] is omitted when empty. *)
Definition marshal_marker (m : podRestorePinMarker) : string :=
  "{" +:+ encode_string "managedBy" +:+ ":" +:+ encode_string (ManagedBy m) +:+
  match Owners m with
  | [] => ""
  | _ => "," +:+ encode_string "podRestoreOwners" +:+ ":[" +:+
         Join "," (encode_string <$> Owners m) +:+ "]"
  end +:+ "}".

Definition newline : string := String (ascii_of_nat 10) "".

(** ** Writing, pinning and unpinning *)

Definition writePodRestorePinMarker (now : Time) (fs : FS) (path : string)
    (marker : podRestorePinMarker) : result os_error unit * FS :=
  let data := marshal_marker marker +:+ newline in
  let tmp := path +:+ ".tmp" in
  match os_WriteFile now fs tmp data with
  | Err e => (Err e, fs)
  | Ok fs1 =>
      match os_Rename fs1 tmp path with
      | Err e => (Err e, match os_Remove fs1 tmp with Ok fs2 => fs2 | Err _ => fs1 end)
      | Ok fs2 => (Ok tt, fs2)
      end
  end.

Fixpoint containsString (items : list string) (want : string) : bool :=
  match items with
  | [] => false
  | item :: rest => if item =? want then true else containsString rest want
  end.

Fixpoint removeString (items : list string) (remove : string) : list string :=
  match items with
  | [] => []
  | item :: rest => if negb (item =? remove) then item :: removeString rest remove
                    else removeString rest remove
  end.

(** [sort.Strings] *)
Definition sort_Strings (l : list string) : list string := merge_sort String.le l.

(** The part of [pinCheckpoint] under [podRestorePinMu]. *)
Definition pinCheckpoint_locked (now : Time) (fs : FS) (path owner : string) : bool * FS :=
  let keep := path +:+ ".keep" in
  match os_ReadFile fs keep with
  | Err ErrNotExist =>
      match writePodRestorePinMarker now fs keep
              {| ManagedBy := podRestorePinManager; Owners := [owner] |} with
      | (Err _, fs') => (false, fs')
      | (Ok _, fs') => (true, fs')
      end
  | Err _ => (false, fs)
  | Ok data =>
      match parsePodRestorePinMarker data with
      | None => (true, fs)
      | Some marker =>
          if containsString (Owners marker) owner then (true, fs)
          else
            match writePodRestorePinMarker now fs keep
                    {| ManagedBy := ManagedBy marker;
                       Owners := sort_Strings (Owners marker ++ [owner]) |} with
            | (Err _, fs') => (false, fs')
            | (Ok _, fs') => (true, fs')
            end
      end
  end.

Definition pinCheckpoint (now : Time) (fs : FS) (path owner : string) : bool * FS :=
  match os_Stat fs path with
  | None => (false, fs)
  | Some _ => pinCheckpoint_locked now fs path owner
  end.

Definition unpinCheckpoint (now : Time) (fs : FS) (path owner : string) : FS :=
  let keep := path +:+ ".keep" in
  match os_ReadFile fs keep with
  | Err _ => fs
  | Ok data =>
      match parsePodRestorePinMarker data with
      | None => fs
      | Some marker =>
          let owners := removeString (Owners marker) owner in
          if length owners =? length (Owners marker) then fs
          else if 0 <? length owners then
            snd (writePodRestorePinMarker now fs keep
                   {| ManagedBy := ManagedBy marker; Owners := owners |})
          else match os_Remove fs keep with
               | Ok fs' => fs'
               | Err _ => fs
               end
      end
  end%nat.

Definition podRestoreOwnerKey (pr : PodRestore) : string := pr_Namespace pr +:+ "/" +:+ pr_Name pr.

(** ** The collector's side *)

Definition isCheckpointPinned (fs : FS) (archivePath : string) : bool :=
  match os_Stat fs (archivePath +:+ ".keep") with Some _ => true | None => false end.

Definition removeArchiveUnlessPinned (fs : FS) (archive : string) : FS :=
  if isCheckpointPinned fs archive then fs
  else match os_Remove fs archive with
       | Ok fs' => fs'
       | Err _ => fs
       end.

(** (deletable, pinned) *)
Fixpoint partitionArchives (fs : FS) (archives : list string) : list string * list string :=
  match archives with
  | [] => ([], [])
  | a :: rest =>
      let '(deletable, pinned) := partitionArchives fs rest in
      if isCheckpointPinned fs a then (deletable, a :: pinned) else (a :: deletable, pinned)
  end.

(** ** Lemmas on the marker document *)

Lemma parse_owners fuel l rest :
  l <> [] -> length l < fuel ->
  parse_value (S fuel) (String "[" (Join "," (encode_string <$> l) +:+ String "]" rest)) =
  Some (JArr (JStr <$> l), rest).
Proof.
  intros Hne Hf. transitivity
    ('(l, rest) ← parse_elems fuel (Join "," (encode_string <$> l) +:+ String "]" rest);
     Some (JArr l, rest)).
  - destruct l as [|s [|s' l]]; [done|reflexivity|reflexivity].
  - by rewrite parse_encode_strings.
Qed.

Lemma parse_marshal_fuel fuel m rest :
  length (Owners m) + 4 < fuel ->
  parse_value fuel (marshal_marker m +:+ rest) =
  Some (JObj (("managedBy", JStr (ManagedBy m)) ::
              match Owners m with
              | [] => []
              | os => [("podRestoreOwners", JArr (JStr <$> os))]
              end), rest).
Proof.
  intros Hf. do 4 (destruct fuel as [|fuel]; [lia|]).
  unfold marshal_marker. rewrite !append_assoc.
  transitivity ('(l, rest) ← parse_members (S (S (S fuel)))
    (encode_string "managedBy" +:+ String ":" (encode_string (ManagedBy m) +:+
       (match Owners m with
        | [] => ""
        | _ => "," +:+ encode_string "podRestoreOwners" +:+ ":[" +:+
               Join "," (encode_string <$> Owners m) +:+ "]"
        end +:+ String "}" rest))); Some (JObj l, rest)); [reflexivity|].
  erewrite parse_member by apply parse_encode_string.
  destruct (Owners m) as [|o os] eqn:Ho; [reflexivity|].
  rewrite <- Ho in *.
  transitivity ('(l, rest) ← ('(l, rest) ← parse_members (S (S fuel))
    (encode_string "podRestoreOwners" +:+ String ":" (String "["
       (Join "," (encode_string <$> Owners m) +:+ String "]" (String "}" rest))));
    Some (("managedBy", JStr (ManagedBy m)) :: l, rest)); Some (JObj l, rest)).
  { rewrite Ho. rewrite !append_assoc. reflexivity. }
  erewrite parse_member; [|apply parse_owners; [congruence|lia]].
  rewrite Ho. reflexivity.
Qed.

Lemma unmarshal_marshal m : unmarshal_marker (marshal_marker m +:+ newline) = Some m.
Proof.
  unfold unmarshal_marker, parse_json. rewrite parse_marshal_fuel.
  - change (skip_ws newline =? "") with true. cbv iota.
    destruct m as [mb [|o os]]; [reflexivity|].
    cbn -[fold_name decode_strings fmap list_fmap].
    change (fold_name "managedBy" =? fold_name "managedBy") with true.
    change (fold_name "podRestoreOwners" =? fold_name "managedBy") with false.
    rewrite String.eqb_refl. cbv iota. by rewrite decode_strings_JStr.
  - unfold marshal_marker. rewrite !append_length.
    pose proof (Join_encode_length (Owners m)). destruct (Owners m) as [|o os]; [simpl; lia|].
    rewrite !append_length. simpl String.length in *. lia.
Qed.

(** ** Lemmas on marker files *)

Definition keep_path (p : string) : string := p +:+ ".keep".
Definition tmp_path (p : string) : string := keep_path p +:+ ".tmp".
Definition is_archive (p : string) : Prop := HasSuffix p ".tar" = true.

Lemma keep_ne_tmp p q : keep_path p <> tmp_path q.
Proof.
  unfold keep_path, tmp_path. intros H.
  change ".keep" with ("." +:+ "keep") in H at 1. rewrite <- append_assoc in H.
  by apply append_suffix_inj in H.
Qed.

Lemma archive_ne_keep p q : is_archive p -> p <> keep_path q.
Proof.
  intros [r ->]%HasSuffix_spec H. unfold keep_path in H.
  change ".keep" with ("." +:+ "keep") in H. rewrite <- append_assoc in H.
  by apply append_suffix_inj in H.
Qed.

Lemma archive_ne_tmp p q : is_archive p -> p <> tmp_path q.
Proof. intros [r ->]%HasSuffix_spec H. by apply append_suffix_inj in H. Qed.

Lemma keep_path_inj p q : keep_path p = keep_path q -> p = q.
Proof. apply append_inj_r. Qed.

#[export] Hint Resolve keep_ne_tmp archive_ne_keep archive_ne_tmp keep_path_inj : cro.

(** The file systems [fs] and [fs'] agree except on the marker of [p] and its
    temporary file. *)
Definition marker_frame (p : string) (fs fs' : FS) : Prop :=
  (forall q, q <> keep_path p -> q <> tmp_path p -> fs_nodes fs' !! q = fs_nodes fs !! q) /\
  fs_nowrite fs' = fs_nowrite fs /\ fs_noread fs' = fs_noread fs.

Lemma marker_frame_refl p fs : marker_frame p fs fs.
Proof. by repeat split. Qed.
#[export] Hint Resolve marker_frame_refl : cro.

Lemma write_marker_spec now fs p m r fs' :
  writePodRestorePinMarker now fs (keep_path p) m = (r, fs') ->
  marker_frame p fs fs' /\
  match r with
  | Ok _ => exists f, fs_nodes fs' !! keep_path p = Some (NFile f) /\
                      f_data f = marshal_marker m +:+ newline
  | Err _ => fs_nodes fs' !! keep_path p = fs_nodes fs !! keep_path p
  end.
Proof.
  unfold writePodRestorePinMarker. fold (tmp_path p). intros H.
  pose proof (keep_ne_tmp p p) as Hne.
  destruct (os_WriteFile now fs (tmp_path p) _) as [fs1|e] eqn:Ew; [|simplify_eq; auto with cro].
  apply os_WriteFile_Ok in Ew as (_ & _ & ->).
  destruct (os_Rename _ _ _) as [fs2|e] eqn:Er; simplify_eq.
  - apply os_Rename_Ok in Er as (f & Hf & ->). simpl in *.
    rewrite lookup_insert_eq in Hf. simplify_eq. split.
    + repeat split. simpl. intros q Hk Ht. by rewrite lookup_insert_ne, lookup_delete_ne, lookup_insert_ne.
    + rewrite lookup_insert_eq. eauto.
  - destruct (os_Remove _ _) as [fs2|e2] eqn:Em.
    + apply os_Remove_Ok in Em as (_ & -> & _). simpl. split.
      * repeat split. simpl. intros q Hk Ht. by rewrite lookup_delete_ne, lookup_insert_ne.
      * by rewrite lookup_delete_ne, lookup_insert_ne.
    + split.
      * repeat split. simpl. intros q Hk Ht. by rewrite lookup_insert_ne.
      * simpl. by rewrite lookup_insert_ne.
Qed.

(** ** Abstract pin states

    What a marker means: none, one the operator does not manage, or a set of
    owners. *)
Inductive pin_state :=
| NoMarker
| ManualMarker
| ManagedMarker (owners : gset string).

#[export] Instance pin_state_eq_dec : EqDecision pin_state.
Proof. solve_decision. Defined.

Definition node_pin_state (n : option node) : pin_state :=
  match n with
  | None => NoMarker
  | Some NDir => ManualMarker
  | Some (NFile f) => match parsePodRestorePinMarker (f_data f) with
                      | Some m => ManagedMarker (list_to_set (Owners m))
                      | None => ManualMarker
                      end
  end.

Definition pin_state_of (fs : FS) (p : string) : pin_state :=
  node_pin_state (fs_nodes fs !! keep_path p).

Definition abs_pin (o : string) (s : pin_state) : pin_state :=
  match s with
  | NoMarker => ManagedMarker {[o]}
  | ManualMarker => ManualMarker
  | ManagedMarker os => ManagedMarker (os ∪ {[o]})
  end.

Definition abs_unpin (o : string) (s : pin_state) : pin_state :=
  match s with
  | ManagedMarker os =>
      if bool_decide (o ∈ os) then
        if bool_decide (os ∖ {[o]} = ∅) then NoMarker else ManagedMarker (os ∖ {[o]})
      else s
  | _ => s
  end.

(** [o] is safe against the collector while the marker says so. *)
Definition protects (s : pin_state) (o : string) : Prop :=
  match s with
  | NoMarker => False
  | ManualMarker => True
  | ManagedMarker os => o ∈ os
  end.

Lemma containsString_In l o : containsString l o = true <-> o ∈ l.
Proof.
  induction l as [|x l IH]; simpl; [by rewrite elem_of_nil|].
  rewrite elem_of_cons. destruct (x =? o) eqn:E; to_prop; [split; auto|].
  rewrite IH. split; [auto|]. intros [->|?]; [done|done].
Qed.

Lemma removeString_filter l o : removeString l o = List.filter (fun x => negb (x =? o)) l.
Proof. induction l as [|x l IH]; simpl; [done|]. destruct (x =? o); simpl; by rewrite IH. Qed.

Lemma removeString_set l o :
  list_to_set (removeString l o) =@{gset string} list_to_set l ∖ {[o]}.
Proof.
  rewrite removeString_filter. apply set_eq. intros x.
  rewrite elem_of_difference, !elem_of_list_to_set, !list_elem_of_In, filter_In, elem_of_singleton.
  destruct (x =? o) eqn:E; to_prop; intuition done.
Qed.

Lemma removeString_length l o :
  (length (removeString l o) =? length l)%nat = negb (containsString l o).
Proof.
  induction l as [|x l IH]; simpl; [done|].
  destruct (x =? o) eqn:E; simpl; [|by rewrite <- IH].
  apply Nat.eqb_neq. rewrite removeString_filter. pose proof (List.filter_length_le (fun x => negb (x =? o)) l). lia.
Qed.

Lemma parse_written m :
  ManagedBy m = podRestorePinManager ->
  parsePodRestorePinMarker (marshal_marker m +:+ newline) = Some m.
Proof.
  intros H. unfold parsePodRestorePinMarker. rewrite unmarshal_marshal, H.
  by rewrite String.eqb_refl.
Qed.

Lemma parse_managed d m : parsePodRestorePinMarker d = Some m -> ManagedBy m = podRestorePinManager.
Proof.
  unfold parsePodRestorePinMarker. destruct (unmarshal_marker d) as [m'|]; [|done].
  destruct (ManagedBy m' =? podRestorePinManager) eqn:E; simpl; [|done].
  intros [= <-]. by to_prop.
Qed.

(** Writing a managed marker gives its owner set on success and changes nothing
    that matters on failure. *)
Lemma write_marker_state now fs p m r fs' :
  ManagedBy m = podRestorePinManager ->
  writePodRestorePinMarker now fs (keep_path p) m = (r, fs') ->
  marker_frame p fs fs' /\
  pin_state_of fs' p =
    if is_ok r then ManagedMarker (list_to_set (Owners m)) else pin_state_of fs p.
Proof.
  intros Hm H. apply write_marker_spec in H as [Hf H]. split; [done|].
  unfold pin_state_of. destruct r as [[]|e]; simpl; [|by rewrite H].
  destruct H as (f & -> & Hd). simpl. by rewrite Hd, parse_written.
Qed.

Lemma ReadFile_state fs p :
  match os_ReadFile fs (keep_path p) with
  | Ok d => pin_state_of fs p = match parsePodRestorePinMarker d with
                                | Some m => ManagedMarker (list_to_set (Owners m))
                                | None => ManualMarker
                                end
  | Err ErrNotExist => pin_state_of fs p = NoMarker
  | Err ErrPermission => pin_state_of fs p <> NoMarker
  end.
Proof.
  unfold os_ReadFile, pin_state_of. destruct (fs_nodes fs !! keep_path p) as [[f|]|]; simpl; try done.
  case_bool_decide; simpl; [|done]. by destruct (parsePodRestorePinMarker (f_data f)).
Qed.

Lemma sort_Strings_set l : list_to_set (sort_Strings l) =@{gset string} list_to_set l.
Proof. unfold sort_Strings. apply list_to_set_perm_L, merge_sort_Permutation. Qed.

(** [pinCheckpoint] refines [abs_pin] when it reports success and leaves the
    marker as it was otherwise. *)
Lemma pin_locked_refines now fs p o b fs' :
  pinCheckpoint_locked now fs p o = (b, fs') ->
  marker_frame p fs fs' /\
  pin_state_of fs' p = if b then abs_pin o (pin_state_of fs p) else pin_state_of fs p.
Proof.
  unfold pinCheckpoint_locked. fold (keep_path p). intros H.
  pose proof (ReadFile_state fs p) as HR.
  destruct (os_ReadFile fs (keep_path p)) as [d|[]].
  - destruct (parsePodRestorePinMarker d) as [m|] eqn:Ep; [|simplify_eq; rewrite HR; auto with cro].
    destruct (containsString (Owners m) o) eqn:Ec.
    + apply containsString_In in Ec. simplify_eq. split; [auto with cro|].
      rewrite HR. simpl. f_equal. set_solver.
    + destruct (writePodRestorePinMarker _ _ _ _) as [r fs1] eqn:Ew.
      apply write_marker_state in Ew as [? Hs]; [|exact (parse_managed _ _ Ep)].
      destruct r; simplify_eq; split; try done. rewrite Hs, HR. simpl.
      rewrite sort_Strings_set, list_to_set_app_L. f_equal. set_solver.
  - destruct (writePodRestorePinMarker _ _ _ _) as [r fs1] eqn:Ew.
    apply write_marker_state in Ew as [? Hs]; [|done].
    destruct r; simplify_eq; split; try done. rewrite Hs, HR. simpl. f_equal. set_solver.
  - simplify_eq. auto with cro.
Qed.

Lemma pin_refines now fs p o b fs' :
  pinCheckpoint now fs p o = (b, fs') ->
  marker_frame p fs fs' /\
  (b = true -> is_Some (os_Stat fs p)) /\
  pin_state_of fs' p = (if b then abs_pin o (pin_state_of fs p) else pin_state_of fs p).
Proof.
  unfold pinCheckpoint. destruct (os_Stat fs p) as [n|] eqn:E.
  - intros H%pin_locked_refines. split; [tauto|]. split; [eauto|tauto].
  - intros [= <- <-]. split; [auto with cro|]. by split.
Qed.

Lemma unpin_refines now fs p o :
  let fs' := unpinCheckpoint now fs p o in
  marker_frame p fs fs' /\
  (pin_state_of fs' p = abs_unpin o (pin_state_of fs p) \/ pin_state_of fs' p = pin_state_of fs p).
Proof.
  intros fs'. subst fs'. unfold unpinCheckpoint. fold (keep_path p).
  pose proof (ReadFile_state fs p) as HR.
  destruct (os_ReadFile fs (keep_path p)) as [d|e]; [|auto with cro].
  destruct (parsePodRestorePinMarker d) as [m|] eqn:Ep; [|auto with cro].
  rewrite removeString_length. destruct (containsString (Owners m) o) eqn:Ec; [|auto with cro].
  simpl. apply containsString_In in Ec.
  rewrite HR. simpl. rewrite bool_decide_eq_true_2 by set_solver.
  rewrite <- removeString_set.
  destruct (0 <? _)%nat eqn:El.
  - destruct (writePodRestorePinMarker _ _ _ _) as [r fs1] eqn:Ew.
    apply write_marker_state in Ew as [? Hs]; [|exact (parse_managed _ _ Ep)].
    split; [done|]. simpl. rewrite Hs, HR. destruct r; simpl; [|by right]. left.
    rewrite bool_decide_eq_false_2; [done|].
    destruct (removeString (Owners m) o); [done|]. set_solver.
  - destruct (os_Remove fs (keep_path p)) as [fs1|e] eqn:Er; [|auto with cro].
    apply os_Remove_Ok in Er as (_ & -> & _). split.
    + repeat split. intros q ? ?. simpl. by rewrite lookup_delete_ne.
    + left. unfold pin_state_of. simpl. rewrite lookup_delete_eq. simpl.
      rewrite bool_decide_eq_true_2; [done|].
      destruct (removeString (Owners m) o); [done|]. simpl in El. done.
Qed.

(** No I/O error is to be expected on the marker of [p]. *)
Definition marker_io_ok (fs : FS) (p : string) : Prop :=
  (keep_path p ∉ fs_nowrite fs) /\ (tmp_path p ∉ fs_nowrite fs) /\ (keep_path p ∉ fs_noread fs) /\
  fs_nodes fs !! keep_path p <> Some NDir /\ fs_nodes fs !! tmp_path p <> Some NDir.

Lemma write_marker_ok now fs p m :
  marker_io_ok fs p -> is_ok (fst (writePodRestorePinMarker now fs (keep_path p) m)) = true.
Proof.
  intros (Hk & Ht & _ & Hkd & Htd). unfold writePodRestorePinMarker. fold (tmp_path p).
  assert (os_WriteFile now fs (tmp_path p) (marshal_marker m +:+ newline) =
    Ok (with_nodes fs (<[tmp_path p := NFile {| f_size := Z.of_nat (String.length (marshal_marker m +:+ newline));
         f_mtime := now; f_data := marshal_marker m +:+ newline |}]> (fs_nodes fs)))) as ->.
  { unfold os_WriteFile. rewrite bool_decide_eq_false_2 by done.
    destruct (fs_nodes fs !! tmp_path p) as [[]|]; done. }
  unfold os_Rename. simpl. rewrite lookup_insert_eq, lookup_insert_ne by auto using not_eq_sym with cro.
  rewrite !bool_decide_eq_false_2 by done. simpl.
  destruct (fs_nodes fs !! keep_path p) as [[]|]; done.
Qed.

Lemma io_ok_read fs p :
  marker_io_ok fs p -> pin_state_of fs p <> NoMarker -> exists d, os_ReadFile fs (keep_path p) = Ok d.
Proof.
  intros (_ & _ & Hr & Hd & _). unfold pin_state_of, os_ReadFile.
  destruct (fs_nodes fs !! keep_path p) as [[]|]; try done.
  rewrite bool_decide_eq_false_2 by done. eauto.
Qed.

Lemma unpin_exact now fs p o :
  marker_io_ok fs p ->
  pin_state_of (unpinCheckpoint now fs p o) p = abs_unpin o (pin_state_of fs p).
Proof.
  intros Hio. pose proof (unpin_refines now fs p o) as [_ [H|H]]; [done|].
  revert H. unfold unpinCheckpoint. fold (keep_path p).
  pose proof (ReadFile_state fs p) as HR.
  destruct (os_ReadFile fs (keep_path p)) as [d|[]] eqn:Erd; [|by rewrite HR|].
  2:{ destruct (io_ok_read fs p) as [d Hd]; [done|done|congruence]. }
  rewrite HR. destruct (parsePodRestorePinMarker d) as [m|] eqn:Ep; [|done].
  rewrite removeString_length. simpl.
  destruct (containsString (Owners m) o) eqn:Ec; simpl.
  2:{ intros _. rewrite bool_decide_eq_false_2, HR; [done|].
      rewrite elem_of_list_to_set, <- containsString_In. congruence. }
  apply containsString_In in Ec. rewrite (bool_decide_eq_true_2 (o ∈ _)) by set_solver.
  rewrite <- removeString_set. destruct (0 <? _)%nat eqn:El.
  - destruct (writePodRestorePinMarker _ _ _ _) as [r fs1] eqn:Ew.
    assert (is_ok r = true) as Hok.
    { eapply (write_marker_ok now fs p) in Hio. rewrite Ew in Hio. exact Hio. }
    apply write_marker_state in Ew as [_ Hs]; [|exact (parse_managed _ _ Ep)].
    simpl. rewrite Hs, Hok. simpl. intros _. rewrite bool_decide_eq_false_2; [done|].
    destruct (removeString (Owners m) o); [done|]. set_solver.
  - destruct (os_Remove fs (keep_path p)) as [fs1|e] eqn:Er.
    + apply os_Remove_Ok in Er as (_ & -> & _). intros _. unfold pin_state_of. simpl.
      rewrite lookup_delete_eq. simpl. rewrite bool_decide_eq_true_2; [done|].
      destruct (removeString (Owners m) o); done.
    + exfalso. unfold os_Remove, os_ReadFile in *. destruct Hio as (Hk & _).
      destruct (fs_nodes fs !! keep_path p) as [[]|]; try done.
      by rewrite bool_decide_eq_false_2 in Er.
Qed.

(** C30. Marker round trip: the marker the operator writes is read back as a
    managed marker with the same owners, in the same order. *)
Theorem marker_roundtrip m :
  ManagedBy m = podRestorePinManager ->
  parsePodRestorePinMarker (marshal_marker m +:+ newline) = Some m.
Proof. apply parse_written. Qed.

Lemma marker_roundtrip_witness :
  parsePodRestorePinMarker
    (marshal_marker {| ManagedBy := podRestorePinManager; Owners := ["default/a"; "team/b"] |}
       +:+ newline) =
  Some {| ManagedBy := podRestorePinManager; Owners := ["default/a"; "team/b"] |}.
Proof. apply marker_roundtrip. reflexivity. Defined.

(** C29.  Pinning implements the reference count of owners.  [pinCheckpoint]
    reports success only for an archive it saw, and then the marker's owner set
    has gained the owner (a marker it does not manage is left alone); when it
    reports failure the marker is as before.  [unpinCheckpoint] removes the owner,
    deleting the marker with the last one, or leaves the marker as it was, which
    cannot happen when the marker can be read and written.  Both touch nothing
    but the marker and its temporary file. *)
Theorem pin_protocol_refines now fs p o :
  (let '(b, fs') := pinCheckpoint now fs p o in
   marker_frame p fs fs' /\
   (b = true -> is_Some (os_Stat fs p)) /\
   pin_state_of fs' p = (if b then abs_pin o (pin_state_of fs p) else pin_state_of fs p)) /\
  (let fs' := unpinCheckpoint now fs p o in
   marker_frame p fs fs' /\
   (pin_state_of fs' p = abs_unpin o (pin_state_of fs p) \/ pin_state_of fs' p = pin_state_of fs p) /\
   (marker_io_ok fs p -> pin_state_of fs' p = abs_unpin o (pin_state_of fs p))).
Proof.
  split.
  - destruct (pinCheckpoint now fs p o) as [b fs'] eqn:E. by eapply pin_refines.
  - simpl. pose proof (unpin_refines now fs p o) as [Hf Hs].
    split; [done|]. split; [done|]. apply unpin_exact.
Qed.

(** ** Crashes during a marker write

    The states a crash can leave behind: before the write, with any prefix of
    the document in the temporary file, and after the rename. *)
Inductive crash_state (now : Time) (fs : FS) (path : string) (m : podRestorePinMarker) : FS -> Prop :=
| crash_before : crash_state now fs path m fs
| crash_writing data rest fs1 :
    data +:+ rest = marshal_marker m +:+ newline ->
    os_WriteFile now fs (path +:+ ".tmp") data = Ok fs1 ->
    crash_state now fs path m fs1
| crash_after r fs1 :
    writePodRestorePinMarker now fs path m = (r, fs1) ->
    crash_state now fs path m fs1.

(** A marker write is atomic: whenever a crash interrupts it, the marker
    file holds either its old contents or the complete new document, and no
    archive is touched. *)
Theorem marker_write_atomic now fs p m fs' :
  crash_state now fs (keep_path p) m fs' ->
  (fs_nodes fs' !! keep_path p = fs_nodes fs !! keep_path p \/
   exists f, fs_nodes fs' !! keep_path p = Some (NFile f) /\
             unmarshal_marker (f_data f) = Some m) /\
  forall q, is_archive q -> fs_nodes fs' !! q = fs_nodes fs !! q.
Proof.
  intros [|data rest fs1 _ Hw|r fs1 Hw].
  - by split; [left|].
  - apply os_WriteFile_Ok in Hw as (_ & _ & ->). simpl. fold (tmp_path p).
    split; [left|intros q Hq]; rewrite lookup_insert_ne; auto using not_eq_sym with cro.
  - apply write_marker_spec in Hw as [[Hf _] Hw]. split.
    + destruct r; [right|left; done]. destruct Hw as (f & Hk & Hd). exists f.
      by rewrite Hd, unmarshal_marshal.
    + intros q Hq. apply Hf; auto with cro.
Qed.

Definition demo_archive : string := "/var/lib/kubelet/checkpoints/checkpoint-web_default-nginx-1.tar".
Definition demo_fs : FS :=
  {| fs_nodes := {[ "/var/lib/kubelet/checkpoints" := NDir;
                    demo_archive := NFile {| f_size := 10%Z; f_mtime := 1%Z; f_data := "x" |} ]};
     fs_nowrite := ∅; fs_noread := ∅ |}.

Lemma marker_write_atomic_witness :
  exists fs', crash_state 7%Z demo_fs (keep_path demo_archive)
      {| ManagedBy := podRestorePinManager; Owners := ["default/a"] |} fs' /\
    fs_nodes fs' !! demo_archive = fs_nodes demo_fs !! demo_archive.
Proof.
  eexists. split.
  - eapply (crash_writing _ _ _ _ "{"); reflexivity.
  - eapply (marker_write_atomic 7%Z _ demo_archive); [|reflexivity].
    eapply (crash_writing _ _ _ {| ManagedBy := podRestorePinManager; Owners := ["default/a"] |} "{");
      reflexivity.
Defined.

(** ** Interleaving of the controllers and the collector

    Restores pin in two steps (the unlocked [os.Stat], then the critical
    section), unpin in one; the collector removes archives; new archives appear;
    a user may add a marker of their own where none is. *)
Inductive pin_event :=
| EStat (p o : string)
| ELock (p o : string)
| EUnpin (p o : string)
| ECollect (p : string)
| ECreate (p data : string)
| EManual (p data : string).

Record pin_sys := {
  ps_fs : FS;
  ps_pending : list (string * string);
  ps_held : list (string * string)
}.

Definition drop_pair (x : string * string) (l : list (string * string)) : list (string * string) :=
  List.filter (fun y => negb (bool_decide (y = x))) l.

(** One step; [None] when the event cannot happen. *)
Definition pin_step (now : Time) (s : pin_sys) (e : pin_event) : option pin_sys :=
  match e with
  | EStat p o =>
      if HasSuffix p ".tar" && match os_Stat (ps_fs s) p with Some _ => true | None => false end
      then Some {| ps_fs := ps_fs s; ps_pending := (p, o) :: ps_pending s; ps_held := ps_held s |}
      else None
  | ELock p o =>
      if bool_decide ((p, o) ∈ ps_pending s) then
        let '(b, fs') := pinCheckpoint_locked now (ps_fs s) p o in
        Some {| ps_fs := fs'; ps_pending := drop_pair (p, o) (ps_pending s);
                ps_held := if b then (p, o) :: ps_held s else ps_held s |}
      else None
  | EUnpin p o =>
      if HasSuffix p ".tar" then
        Some {| ps_fs := unpinCheckpoint now (ps_fs s) p o; ps_pending := ps_pending s;
                ps_held := drop_pair (p, o) (ps_held s) |}
      else None
  | ECollect p =>
      if HasSuffix p ".tar" then
        Some {| ps_fs := removeArchiveUnlessPinned (ps_fs s) p; ps_pending := ps_pending s;
                ps_held := ps_held s |}
      else None
  | ECreate p data =>
      match HasSuffix p ".tar", os_Stat (ps_fs s) p, os_WriteFile now (ps_fs s) p data with
      | true, None, Ok fs' => Some {| ps_fs := fs'; ps_pending := ps_pending s; ps_held := ps_held s |}
      | _, _, _ => None
      end
  | EManual p data =>
      match HasSuffix p ".tar", os_Stat (ps_fs s) (keep_path p),
            os_WriteFile now (ps_fs s) (keep_path p) data with
      | true, None, Ok fs' => Some {| ps_fs := fs'; ps_pending := ps_pending s; ps_held := ps_held s |}
      | _, _, _ => None
      end
  end.

Fixpoint pin_run (now : Time) (s : pin_sys) (es : list pin_event) : option pin_sys :=
  match es with
  | [] => Some s
  | e :: es' => s' ← pin_step now s e; pin_run now s' es'
  end.

Lemma marker_frame_archive p fs fs' q :
  marker_frame p fs fs' -> is_archive q -> fs_nodes fs' !! q = fs_nodes fs !! q.
Proof. intros [Hf _] Hq. apply Hf; auto with cro. Qed.

Lemma marker_frame_state p fs fs' q :
  marker_frame p fs fs' -> q <> p -> pin_state_of fs' q = pin_state_of fs q.
Proof.
  intros [Hf _] Hq. unfold pin_state_of. rewrite Hf; auto with cro.
Qed.

Lemma write_archive_state now fs p d fs' q :
  is_archive p -> os_WriteFile now fs p d = Ok fs' -> pin_state_of fs' q = pin_state_of fs q.
Proof.
  intros Hp (_ & _ & ->)%os_WriteFile_Ok. unfold pin_state_of. simpl.
  rewrite lookup_insert_ne; [done|]. by apply archive_ne_keep.
Qed.

Lemma isCheckpointPinned_state fs p :
  isCheckpointPinned fs p = true <-> pin_state_of fs p <> NoMarker.
Proof.
  unfold isCheckpointPinned, pin_state_of, os_Stat. fold (keep_path p).
  destruct (fs_nodes fs !! keep_path p) as [[f|]|]; simpl; [|done|done].
  by destruct (parsePodRestorePinMarker _).
Qed.

(** The collector's removal: nothing for a pinned archive, at most the archive
    itself otherwise. *)
Lemma removeArchiveUnlessPinned_spec fs p :
  removeArchiveUnlessPinned fs p = fs \/
  (isCheckpointPinned fs p = false /\ (p ∉ fs_nowrite fs) /\
   (exists f, fs_nodes fs !! p = Some (NFile f)) /\
   removeArchiveUnlessPinned fs p = with_nodes fs (delete p (fs_nodes fs))).
Proof.
  unfold removeArchiveUnlessPinned. destruct (isCheckpointPinned fs p); [by left|].
  destruct (os_Remove fs p) as [fs'|e] eqn:E; [|by left].
  apply os_Remove_Ok in E as (? & -> & ?). right. auto.
Qed.

Lemma collect_state fs p q :
  is_archive p -> pin_state_of (removeArchiveUnlessPinned fs p) q = pin_state_of fs q.
Proof.
  intros Hp. destruct (removeArchiveUnlessPinned_spec fs p) as [->|(_ & _ & _ & ->)]; [done|].
  unfold pin_state_of. simpl. rewrite lookup_delete_ne; [done|]. by apply archive_ne_keep.
Qed.

Lemma protects_pin s o o' : protects s o -> protects (abs_pin o' s) o.
Proof. destruct s; simpl; [done|done|set_solver]. Qed.

Lemma protects_pin_self s o : protects (abs_pin o s) o.
Proof. destruct s; simpl; set_solver. Qed.

Lemma protects_unpin s o o' : o <> o' -> protects s o -> protects (abs_unpin o' s) o.
Proof.
  intros Hne. destruct s as [| |os]; simpl; [done|done|]. intros H.
  case_bool_decide; [|done]. case_bool_decide; set_solver.
Qed.

(** Every pin that is held is backed by a marker that protects its owner. *)
Definition pin_inv (s : pin_sys) : Prop :=
  (forall p o, (p, o) ∈ ps_held s -> is_archive p /\ protects (pin_state_of (ps_fs s) p) o) /\
  (forall p o, (p, o) ∈ ps_pending s -> is_archive p).

Lemma drop_pair_elem x y l : y ∈ drop_pair x l <-> y <> x /\ y ∈ l.
Proof.
  unfold drop_pair. rewrite !list_elem_of_In, filter_In. case_bool_decide; simpl; intuition done.
Qed.

Lemma pin_inv_lock now s p o s' :
  pin_inv s -> pin_step now s (ELock p o) = Some s' -> pin_inv s'.
Proof.
  intros [Hh Hp]. simpl. case_bool_decide as Hpd; [|done].
  destruct (pinCheckpoint_locked now (ps_fs s) p o) as [b fs'] eqn:E. intros [= <-].
  apply pin_locked_refines in E as [Hf Hs]. split; simpl.
  2:{ intros q u [_ H]%drop_pair_elem. eauto. }
  assert (forall q u, (q, u) ∈ ps_held s -> is_archive q /\ protects (pin_state_of fs' q) u) as Hold.
  { intros q u H. destruct (Hh q u H) as [Ha Hpr]. split; [done|].
    destruct (decide (q = p)) as [->|Hq]; [|by rewrite (marker_frame_state p (ps_fs s) fs' q)].
    rewrite Hs. destruct b; [by apply protects_pin|done]. }
  intros q u H. destruct b; [|by apply Hold]. apply elem_of_cons in H as [[= -> ->]|H]; [|by apply Hold].
  split; [eauto|]. rewrite Hs. apply protects_pin_self.
Qed.

Lemma pin_inv_unpin now s p o s' :
  pin_inv s -> pin_step now s (EUnpin p o) = Some s' -> pin_inv s'.
Proof.
  intros [Hh Hp]. simpl. destruct (HasSuffix p ".tar"); [|done]. intros [= <-].
  destruct (unpin_refines now (ps_fs s) p o) as [Hf Hs]. split; simpl; [|done].
  intros q u [Hne H]%drop_pair_elem. destruct (Hh q u H) as [Ha Hpr]. split; [done|].
  destruct (decide (q = p)) as [->|Hq]; [|by rewrite (marker_frame_state p (ps_fs s) _ q)].
  destruct Hs as [->|Hs]; [|by rewrite Hs]. apply protects_unpin; congruence.
Qed.

Lemma pin_inv_step now s e s' : pin_inv s -> pin_step now s e = Some s' -> pin_inv s'.
Proof.
  destruct e as [p o|p o|p o|p|p d|p d].
  2:{ apply pin_inv_lock. }
  2:{ apply pin_inv_unpin. }
  all: intros [Hh Hp]; simpl; destruct (HasSuffix p ".tar") eqn:Ha; simpl; try done.
  - destruct (os_Stat (ps_fs s) p); [|done]. intros [= <-]. split; simpl; [done|].
    intros q u [[= -> ->]|H]%elem_of_cons; eauto.
  - intros [= <-]. split; simpl; [|done]. intros q u H. rewrite collect_state by done. auto.
  - destruct (os_Stat (ps_fs s) p); [done|]. destruct (os_WriteFile _ _ _ _) as [fs'|] eqn:Ew; [|done].
    intros [= <-]. split; simpl; [|done]. intros q u H.
    rewrite (write_archive_state now (ps_fs s) p d fs') by done. auto.
  - destruct (os_Stat (ps_fs s) (keep_path p)) eqn:Es; [done|].
    destruct (os_WriteFile _ _ _ _) as [fs'|] eqn:Ew; [|done].
    intros [= <-]. split; simpl; [|done]. intros q u H. destruct (Hh q u H) as [Haq Hpr].
    apply os_WriteFile_Ok in Ew as (_ & _ & ->). unfold pin_state_of, os_Stat in *. simpl.
    destruct (decide (q = p)) as [->|Hq]; [by rewrite Es in Hpr|].
    rewrite lookup_insert_ne; [done|]. intros ?%keep_path_inj. done.
Qed.

Lemma pin_inv_run now s es s' : pin_inv s -> pin_run now s es = Some s' -> pin_inv s'.
Proof.
  revert s. induction es as [|e es IH]; simpl; intros s Hi H; [by simplify_eq|].
  destruct (pin_step now s e) as [s1|] eqn:E; [|done]. simpl in H.
  eapply IH; [|done]. by eapply pin_inv_step.
Qed.

(** A held pin keeps its archive through any step but its own release. *)
Lemma pin_step_keeps now s e s' p o :
  pin_inv s -> pin_step now s e = Some s' -> e <> EUnpin p o -> (p, o) ∈ ps_held s ->
  is_Some (os_Stat (ps_fs s) p) ->
  os_Stat (ps_fs s') p = os_Stat (ps_fs s) p /\ (p, o) ∈ ps_held s'.
Proof.
  intros [Hh Hpd] H Hne Hheld [n Hn]. destruct (Hh p o Hheld) as [Hap Hpr]. unfold os_Stat in *.
  destruct e as [q u|q u|q u|q|q d|q d]; simpl in H.
  - destruct (HasSuffix q ".tar" && _); simplify_eq. done.
  - case_bool_decide; [|done]. destruct (pinCheckpoint_locked _ _ _ _) as [b fs'] eqn:E.
    simplify_eq. simpl. apply pin_locked_refines in E as [Hf _].
    split; [by apply (marker_frame_archive q)|]. destruct b; [by right|done].
  - destruct (HasSuffix q ".tar"); simplify_eq. simpl.
    destruct (unpin_refines now (ps_fs s) q u) as [Hf _].
    split; [by apply (marker_frame_archive q)|]. apply drop_pair_elem. split; [congruence|done].
  - destruct (HasSuffix q ".tar"); simplify_eq. simpl. split; [|done].
    destruct (removeArchiveUnlessPinned_spec (ps_fs s) q) as [->|(Hnp & _ & _ & ->)]; [done|].
    simpl. rewrite lookup_delete_ne; [done|]. intros ->.
    assert (isCheckpointPinned (ps_fs s) p = true); [|congruence].
    apply isCheckpointPinned_state. by intros Hs; rewrite Hs in Hpr.
  - destruct (HasSuffix q ".tar"); [|done]. unfold os_Stat in H.
    destruct (fs_nodes (ps_fs s) !! q) eqn:Eq; [done|].
    destruct (os_WriteFile _ _ _ _) as [fs'|] eqn:Ew; simplify_eq.
    apply os_WriteFile_Ok in Ew as (_ & _ & ->). simpl. split; [|done].
    rewrite lookup_insert_ne; [done|]. congruence.
  - destruct (HasSuffix q ".tar"); [|done]. destruct (os_Stat _ _); [done|].
    destruct (os_WriteFile _ _ _ _) as [fs'|] eqn:Ew; simplify_eq.
    apply os_WriteFile_Ok in Ew as (_ & _ & ->). simpl. split; [|done].
    rewrite lookup_insert_ne; [done|]. apply not_eq_sym. by apply archive_ne_keep.
Qed.

Lemma pin_run_keeps now s es s' p o :
  pin_inv s -> pin_run now s es = Some s' -> EUnpin p o ∉ es -> (p, o) ∈ ps_held s ->
  is_Some (os_Stat (ps_fs s) p) ->
  os_Stat (ps_fs s') p = os_Stat (ps_fs s) p.
Proof.
  revert s. induction es as [|e es IH]; simpl; intros s Hi H Hu Hh Hx; [by simplify_eq|].
  destruct (pin_step now s e) as [s1|] eqn:E; [|done]. simpl in H.
  apply not_elem_of_cons in Hu as [Hne Hu].
  destruct (pin_step_keeps now s e s1 p o) as [Hs Hh1]; [done|done|congruence|done|done|].
  rewrite <- Hs. apply IH; [by eapply pin_inv_step|done|done|done|]. by rewrite Hs.
Qed.

Definition pin_init (fs : FS) : pin_sys := {| ps_fs := fs; ps_pending := []; ps_held := [] |}.

Lemma pin_inv_init fs : pin_inv (pin_init fs).
Proof. split; intros p o H; by apply elem_of_nil in H. Qed.

(** C16. In every interleaving of pins, unpins, collector removals, new archives
    and user markers: once a restore holds a pin on an archive that exists, the
    archive stays on disk, unchanged, until that restore releases its pin. *)
Theorem pinned_archive_survives now fs es1 s1 es2 s2 p o :
  pin_run now (pin_init fs) es1 = Some s1 ->
  (p, o) ∈ ps_held s1 -> is_Some (os_Stat (ps_fs s1) p) ->
  pin_run now s1 es2 = Some s2 -> EUnpin p o ∉ es2 ->
  os_Stat (ps_fs s2) p = os_Stat (ps_fs s1) p.
Proof.
  intros H1 Hh Hx H2 Hu.
  apply (pin_run_keeps now s1 es2 s2 p o); try done.
  eapply pin_inv_run; [apply pin_inv_init|done].
Qed.

Lemma pinned_archive_survives_witness :
  exists s1 s2,
    pin_run 7%Z (pin_init demo_fs) [EStat demo_archive "default/a"; ELock demo_archive "default/a";
                                  EStat demo_archive "default/b"; ELock demo_archive "default/b"] = Some s1 /\
    pin_run 7%Z s1 [ECollect demo_archive; EUnpin demo_archive "default/b"; ECollect demo_archive] = Some s2 /\
    os_Stat (ps_fs s2) demo_archive = os_Stat (ps_fs s1) demo_archive.
Proof.
  eexists _, _. split; [reflexivity|]. split; [reflexivity|].
  eapply (pinned_archive_survives 7%Z demo_fs
    [EStat demo_archive "default/a"; ELock demo_archive "default/a";
     EStat demo_archive "default/b"; ELock demo_archive "default/b"] _
    [ECollect demo_archive; EUnpin demo_archive "default/b"; ECollect demo_archive] _ _ "default/a").
  - reflexivity.
  - apply (bool_decide_eq_true_1 _). vm_compute. reflexivity.
  - apply (bool_decide_eq_true_1 _). vm_compute. reflexivity.
  - reflexivity.
  - rewrite !not_elem_of_cons. repeat split; try discriminate. apply not_elem_of_nil.
Defined.

(** The existence check of [pinCheckpoint] runs before the lock: the
    collector can remove the archive in between, and the restore then reports the
    archive as pinned although it is gone. *)
Theorem pin_stat_race :
  exists s, pin_run 7%Z (pin_init demo_fs)
              [EStat demo_archive "default/a"; ECollect demo_archive; ELock demo_archive "default/a"] = Some s /\
    (demo_archive, "default/a") ∈ ps_held s /\ os_Stat (ps_fs s) demo_archive = None.
Proof.
  eexists. split; [reflexivity|]. split; [|vm_compute; reflexivity].
  apply (bool_decide_eq_true_1 _). vm_compute. reflexivity.
Qed.
