(* ===== verification/Archive.v ===== *)
(** * Reading checkpoint archives ([internal/checkpointarchive])

    Selective extraction of an untrusted tar archive and the pod/container
    identity recorded in its [spec.dump].  What decompresses the stream, parses
    the tar format and decodes the JSON documents is third-party code: it is the
    parameter record [ArchiveEnv]. *)

From S2P Require Import Prelude GoStrings GoJson GoPath Kube GoSystem.
Open Scope string_scope.
Open Scope list_scope.

Definition MaxExtractedFileSize : Z := Z.shiftl 16 20.
Definition criOLabelsAnnotation : string := "io.kubernetes.cri-o.Labels".
Definition containerdSandboxNamespaceAnnotation : string := "io.kubernetes.cri.sandbox-namespace".
Definition containerdSandboxNameAnnotation : string := "io.kubernetes.cri.sandbox-name".
Definition containerdContainerNameAnnotation : string := "io.kubernetes.cri.container-name".
Definition CheckpointAnnotationName : string := "org.criu.checkpoint.container.name".
Definition CheckpointAnnotationPod : string := "org.criu.checkpoint.pod.name".
Definition CheckpointAnnotationNamespace : string := "org.criu.checkpoint.pod.namespace".
Definition KubernetesPodNamespaceLabel : string := "io.kubernetes.pod.namespace".
Definition KubernetesPodNameLabel : string := "io.kubernetes.pod.name".
Definition KubernetesContainerNameLabel : string := "io.kubernetes.container.name".
Definition SpecDumpFile : string := "spec.dump".
Definition ConfigDumpFile : string := "config.dump".

(** ** Tar streams *)

(** A [tar.Header] with the bytes of its entry that can be read; [h_truncated]
    when the stream fails after them (a cut or corrupted archive). *)
Record tar_entry := {
  h_Name : string;
  h_Typeflag : ascii;
  h_data : string;
  h_truncated : bool
}.

Definition TypeReg : ascii := "0".

(** What [tar.Reader] yields: entries, then the end of the archive ([true]) or
    a read error ([false]). *)
Record tar_stream := {
  ts_entries : list tar_entry;
  ts_eof : bool
}.

(** The third-party decoders, and the temporary directory [os.MkdirTemp]
    returns ([None] when it fails). *)
Record ArchiveEnv := {
  DecompressStream : string -> option tar_stream;
  parseSpecDump : string -> option (gmap string string);
  parseConfigDump : string -> option string;
  MkdirTemp : option string
}.

Inductive ArchiveError :=
| OpenFailed
| DecompressFailed
| TarReadFailed
| NotRegular (name : string)
| EscapesDest (name : string)
| TargetIO (name : string)
| CopyFailed (name : string)
| EntryTooLarge (name : string)
| TempDirFailed
| DumpUnreadable
| LabelsUnparsable
| IdentityIncomplete (source : string)
| IdentityConflict (source1 source2 : string)
| IdentityMissing
| NamespaceMissing
| ImageMissing.

(** ** Extraction *)

(** [os.MkdirAll]: create the missing directories on the way to [d]; those made
    before a failure stay. *)
Fixpoint mkdir_prefixes (fs : FS) (pre : string) (es : list string)
  : result os_error unit * FS :=
  match es with
  | [] => (Ok tt, fs)
  | e :: es' =>
      if e =? "" then mkdir_prefixes fs pre es'
      else
        let p := pre +:+ e in
        match fs_nodes fs !! p with
        | Some (NFile _) => (Err ErrPermission, fs)
        | Some NDir => mkdir_prefixes fs (p +:+ "/") es'
        | None => if bool_decide (p ∈ fs_nowrite fs) then (Err ErrPermission, fs)
                  else mkdir_prefixes (with_nodes fs (<[p := NDir]> (fs_nodes fs))) (p +:+ "/") es'
        end
  end.

Definition os_MkdirAll (fs : FS) (d : string) : result os_error unit * FS :=
  mkdir_prefixes fs (if IsAbs d then "/" else "") (split_on sep d).

(** [io.LimitReader(r, MaxExtractedFileSize+1)]: the bytes that are copied. *)
Definition limited (data : string) : string :=
  if (Z.of_nat (String.length data) <=? MaxExtractedFileSize)%Z then data
  else String.substring 0 (Z.to_nat (MaxExtractedFileSize + 1)) data.

(** [io.Copy] through that reader fails when the stream does so before the
    limit is reached. *)
Definition copy_fails (h : tar_entry) : bool :=
  h_truncated h && (Z.of_nat (String.length (h_data h)) <=? MaxExtractedFileSize)%Z.

(** The callback of [UntarFiles] on one entry.  A failed copy and an entry over
    the limit leave the bytes copied so far behind. *)
Definition untar_entry (now : Time) (want : list string) (cleanDest : string)
    (fs : FS) (h : tar_entry) : result ArchiveError unit * FS :=
  let name := Clean (h_Name h) in
  if negb (existsb (String.eqb name) want) then (Ok tt, fs)
  else if negb (Ascii.eqb (h_Typeflag h) TypeReg) then (Err (NotRegular (h_Name h)), fs)
  else
    let target := FileJoin cleanDest name in
    if negb (target =? cleanDest) && negb (HasPrefix target (cleanDest +:+ "/"))
    then (Err (EscapesDest (h_Name h)), fs)
    else
      match os_MkdirAll fs (Dir target) with
      | (Err _, fs1) => (Err (TargetIO (h_Name h)), fs1)
      | (Ok _, fs1) =>
          match os_WriteFile now fs1 target (limited (h_data h)) with
          | Err _ => (Err (TargetIO (h_Name h)), fs1)
          | Ok fs2 =>
              if copy_fails h then (Err (CopyFailed (h_Name h)), fs2)
              else if (MaxExtractedFileSize <? Z.of_nat (String.length (limited (h_data h))))%Z
              then (Err (EntryTooLarge (h_Name h)), fs2)
              else (Ok tt, fs2)
          end
      end.

(** The loop of [iterateTarArchive]: [Next] skips what the callback left unread of
    the current entry, so it fails behind a truncated one. *)
Fixpoint iterate_entries {S} (callback : S -> tar_entry -> result ArchiveError unit * S)
    (es : list tar_entry) (eof : bool) (s : S) : result ArchiveError unit * S :=
  match es with
  | [] => (if eof then Ok tt else Err TarReadFailed, s)
  | e :: es' =>
      match callback s e with
      | (Ok _, s') => if h_truncated e then (Err TarReadFailed, s')
                      else iterate_entries callback es' eof s'
      | (Err x, s') => (Err x, s')
      end
  end.

Definition iterateTarArchive {S} (env : ArchiveEnv) (fs : FS) (archiveInput : string)
    (callback : S -> tar_entry -> result ArchiveError unit * S) (s : S)
  : result ArchiveError unit * S :=
  match os_ReadFile fs archiveInput with
  | Err _ => (Err OpenFailed, s)
  | Ok data =>
      match DecompressStream env data with
      | None => (Err DecompressFailed, s)
      | Some st => iterate_entries callback (ts_entries st) (ts_eof st) s
      end
  end.

Definition UntarFiles (env : ArchiveEnv) (now : Time) (fs : FS) (src dest : string)
    (files : list string) : result ArchiveError unit * FS :=
  let want := Clean <$> files in
  let cleanDest := Clean dest in
  iterateTarArchive env fs src (untar_entry now want cleanDest) fs.

(** ** Identity *)

Record PodContainerRef := {
  ref_Namespace : string;
  ref_Pod : string;
  ref_Container : string
}.

#[export] Instance PodContainerRef_eq_dec : EqDecision PodContainerRef.
Proof. solve_decision. Defined.

Record podContainerRefCandidate := {
  source : string;
  ref : PodContainerRef
}.

Definition complete (r : PodContainerRef) : bool :=
  negb (ref_Namespace r =? "") && negb (ref_Pod r =? "") && negb (ref_Container r =? "").

Definition equal (r other : PodContainerRef) : bool :=
  (ref_Namespace r =? ref_Namespace other) && (ref_Pod r =? ref_Pod other)
  && (ref_Container r =? ref_Container other).

(** Reading a missing key of a Go map yields the empty string. *)
Definition get (m : gmap string string) (k : string) : string := default "" (m !! k).

Definition appendCandidateIfPresent (candidates : list podContainerRefCandidate)
    (src : string) (r : PodContainerRef) : list podContainerRefCandidate :=
  if (ref_Namespace r =? "") && (ref_Pod r =? "") && (ref_Container r =? "") then candidates
  else candidates ++ [ {| source := src; ref := r |} ].

(** The loop over the candidates. *)
Fixpoint select_ref (selected : option podContainerRefCandidate)
    (candidates : list podContainerRefCandidate) : result ArchiveError PodContainerRef :=
  match candidates with
  | [] => match selected with
          | None => Err IdentityMissing
          | Some s => Ok (ref s)
          end
  | c :: cs =>
      if negb (complete (ref c)) then Err (IdentityIncomplete (source c))
      else match selected with
           | None => select_ref (Some c) cs
           | Some s => if negb (equal (ref s) (ref c))
                       then Err (IdentityConflict (source s) (source c))
                       else select_ref selected cs
           end
  end.

(** The candidate of CRI-O's labels annotation. *)
Definition crio_candidate (annotations : gmap string string)
  : result ArchiveError (list podContainerRefCandidate) :=
  let raw := get annotations criOLabelsAnnotation in
  if raw =? "" then Ok []
  else match unmarshal_string_map raw with
       | None => Err LabelsUnparsable
       | Some labels =>
           Ok [ {| source := criOLabelsAnnotation;
                   ref := {| ref_Namespace := get labels KubernetesPodNamespaceLabel;
                             ref_Pod := get labels KubernetesPodNameLabel;
                             ref_Container := get labels KubernetesContainerNameLabel |} |} ]
       end.

Definition containerd_ref (annotations : gmap string string) : PodContainerRef :=
  {| ref_Namespace := get annotations containerdSandboxNamespaceAnnotation;
     ref_Pod := get annotations containerdSandboxNameAnnotation;
     ref_Container := get annotations containerdContainerNameAnnotation |}.

Definition checkpointctl_ref (annotations : gmap string string) : PodContainerRef :=
  {| ref_Namespace := get annotations CheckpointAnnotationNamespace;
     ref_Pod := get annotations CheckpointAnnotationPod;
     ref_Container := get annotations CheckpointAnnotationName |}.

Definition podContainerRefFromAnnotations (annotations : gmap string string)
  : result ArchiveError PodContainerRef :=
  try! candidates := crio_candidate annotations in
  let candidates := appendCandidateIfPresent candidates
                      "containerd CRI annotations" (containerd_ref annotations) in
  let candidates := appendCandidateIfPresent candidates
                      "checkpointctl annotations" (checkpointctl_ref annotations) in
  select_ref None candidates.

(** Extract one dump into a private temporary directory and decode it.  The
    directory is removed on return, so the caller's file system is unchanged. *)
Definition extract_dump {A} (env : ArchiveEnv) (now : Time) (fs : FS)
    (checkpointPath dumpFile : string) (decode : string -> option A) : result ArchiveError A :=
  match MkdirTemp env with
  | None => Err TempDirFailed
  | Some tempDir =>
      let fs0 := with_nodes fs (<[tempDir := NDir]> (fs_nodes fs)) in
      match UntarFiles env now fs0 checkpointPath tempDir [dumpFile] with
      | (Err e, _) => Err e
      | (Ok _, fs1) =>
          match os_ReadFile fs1 (FileJoin tempDir dumpFile) with
          | Err _ => Err DumpUnreadable
          | Ok data => match decode data with
                       | None => Err DumpUnreadable
                       | Some a => Ok a
                       end
          end
      end
  end.

Definition extractSpecDump (env : ArchiveEnv) (now : Time) (fs : FS) (checkpointPath : string)
  : result ArchiveError (gmap string string) :=
  extract_dump env now fs checkpointPath SpecDumpFile (parseSpecDump env).

Definition ReadPodContainerRef (env : ArchiveEnv) (now : Time) (fs : FS) (checkpointPath : string)
  : result ArchiveError PodContainerRef :=
  try! annotations := extractSpecDump env now fs checkpointPath in
  podContainerRefFromAnnotations annotations.

Definition namespaceFromAnnotations (annotations : gmap string string)
  : result ArchiveError string :=
  let others :=
    let ns := get annotations containerdSandboxNamespaceAnnotation in
    if negb (ns =? "") then Ok ns
    else let ns := get annotations CheckpointAnnotationNamespace in
         if negb (ns =? "") then Ok ns else Err NamespaceMissing in
  let raw := get annotations criOLabelsAnnotation in
  if negb (raw =? "") then
    match unmarshal_string_map raw with
    | None => Err LabelsUnparsable
    | Some labels => let ns := get labels KubernetesPodNamespaceLabel in
                     if negb (ns =? "") then Ok ns else others
    end
  else others.

Definition ReadPodNamespace (env : ArchiveEnv) (now : Time) (fs : FS) (checkpointPath : string)
  : result ArchiveError string :=
  try! annotations := extractSpecDump env now fs checkpointPath in
  namespaceFromAnnotations annotations.

Definition ReadBaseImage (env : ArchiveEnv) (now : Time) (fs : FS) (checkpointPath : string)
  : result ArchiveError string :=
  try! image := extract_dump env now fs checkpointPath ConfigDumpFile (parseConfigDump env) in
  if image =? "" then Err ImageMissing else Ok image.

(** ** Extraction is confined *)

(** What every callback keeps, and what every successful one establishes anew, the
    iteration keeps and, when it succeeds, establishes. *)
Lemma iterate_entries_ind {S} (P Q : S -> Prop) callback es eof s :
  Q s ->
  (forall s, Q s -> P s) ->
  (forall s e, Q s -> match callback s e with (Ok _, s') => Q s' | (Err _, s') => P s' end) ->
  match @iterate_entries S callback es eof s with (Ok _, s') => Q s' | (Err _, s') => P s' end.
Proof.
  intros Hs HQP Hstep. revert s Hs.
  induction es as [|e es IH]; simpl; intros s Hs; [destruct eof; auto|].
  specialize (Hstep s e Hs). destruct (callback s e) as [[u|x] s']; simpl in *; [|done].
  destruct (h_truncated e); [by apply HQP|by apply IH].
Qed.

(** Creating directories changes no file and keeps every existing node. *)
Lemma mkdir_prefixes_frame fs pre es :
  let fs' := (mkdir_prefixes fs pre es).2 in
  (forall p n, fs_nodes fs !! p = Some n -> fs_nodes fs' !! p = Some n) /\
  (forall p f, fs_nodes fs' !! p = Some (NFile f) -> fs_nodes fs !! p = Some (NFile f)).
Proof.
  revert fs pre. induction es as [|e es IH]; simpl; intros fs pre; [done|].
  destruct (e =? ""); [apply IH|].
  destruct (fs_nodes fs !! (pre +:+ e)) as [[f|]|] eqn:E; [done|apply IH|].
  destruct (bool_decide _); [done|].
  destruct (IH (with_nodes fs (<[pre +:+ e := NDir]> (fs_nodes fs))) ((pre +:+ e) +:+ "/"))
    as [H1 H2].
  split.
  - intros p n Hp. apply H1. simpl. rewrite lookup_insert_ne; [done|congruence].
  - intros p f Hp. apply H2 in Hp. simpl in Hp. rewrite lookup_insert in Hp. by case_decide.
Qed.

Lemma os_WriteFile_lookup now fs p data fs' q :
  os_WriteFile now fs p data = Ok fs' ->
  fs_nodes fs' !! q = if decide (p = q)
    then Some (NFile {| f_size := Z.of_nat (String.length data); f_mtime := now; f_data := data |})
    else fs_nodes fs !! q.
Proof.
  unfold os_WriteFile. destruct (fs_nodes fs !! p) as [[f|]|]; [|done|];
    (destruct (bool_decide _); [done|]); intros [= <-]; simpl; apply lookup_insert.
Qed.

Lemma substring_0_length n s : String.length (String.substring 0 n s) <= n.
Proof.
  revert s. induction n as [|n IH]; intros [|a s]; simpl; try lia.
  specialize (IH s). lia.
Qed.

Lemma MaxExtractedFileSize_nonneg : (0 <= MaxExtractedFileSize)%Z.
Proof. by vm_compute. Qed.

Lemma limited_length data :
  (Z.of_nat (String.length (limited data)) <= MaxExtractedFileSize + 1)%Z.
Proof.
  unfold limited. pose proof MaxExtractedFileSize_nonneg as HM.
  generalize dependent MaxExtractedFileSize. intros M HM.
  destruct (_ <=? _)%Z eqn:E; to_prop; [lia|].
  pose proof (substring_0_length (Z.to_nat (M + 1)) data). lia.
Qed.

(** [p] is where the entry [f] of the archive is extracted to. *)
Definition extraction_target (dest : string) (files : list string) (p : string) : Prop :=
  exists f, In f files /\ p = FileJoin (Clean dest) (Clean f) /\
    (p = Clean dest \/ HasPrefix p (Clean dest +:+ "/") = true).

(** The file system after an extraction, relative to the one before; the files
    extracted hold at most [bound] bytes. *)
Definition untar_frame (bound : Z) (dest : string) (files : list string) (fs0 fs : FS) : Prop :=
  (forall p n, fs_nodes fs0 !! p = Some n -> ~ extraction_target dest files p ->
     fs_nodes fs !! p = Some n) /\
  (forall p f, fs_nodes fs !! p = Some (NFile f) ->
     fs_nodes fs0 !! p = Some (NFile f) \/
     (extraction_target dest files p /\ Z.of_nat (String.length (f_data f)) <= bound)%Z).

Lemma untar_frame_mono b b' dest files fs0 fs :
  (b <= b')%Z -> untar_frame b dest files fs0 fs -> untar_frame b' dest files fs0 fs.
Proof.
  intros Hb [H1 H2]. split; [done|]. intros p f Hp.
  destruct (H2 p f Hp) as [|[? ?]]; [by left|right; split; [done|lia]].
Qed.

Lemma untar_frame_mkdir b dest files fs0 fs d :
  untar_frame b dest files fs0 fs -> untar_frame b dest files fs0 (os_MkdirAll fs d).2.
Proof.
  intros [H1 H2]. unfold os_MkdirAll.
  destruct (mkdir_prefixes_frame fs (if IsAbs d then "/" else "") (split_on sep d)) as [Hm1 Hm2].
  split; [intros p n ? ?; apply Hm1; auto|intros p f ?; apply H2; auto].
Qed.

Lemma untar_frame_write b now dest files fs0 fs p data fs' :
  untar_frame b dest files fs0 fs -> extraction_target dest files p ->
  (Z.of_nat (String.length data) <= b)%Z -> os_WriteFile now fs p data = Ok fs' ->
  untar_frame b dest files fs0 fs'.
Proof.
  intros [H1 H2] Ht Hd Hw. split; intros q; rewrite (os_WriteFile_lookup _ _ _ _ _ q Hw).
  - intros n Hq Hnt. case_decide; [by subst|auto].
  - intros f. case_decide; [|apply H2]. intros [= <-]. right. by subst.
Qed.

Lemma existsb_want name files :
  existsb (String.eqb name) (Clean <$> files) = true ->
  exists f, In f files /\ name = Clean f.
Proof.
  intros (x & Hx & Heq)%existsb_exists. to_prop. subst x.
  apply list_elem_of_In, list_elem_of_fmap in Hx as (f & -> & Hf).
  exists f. split; [by apply list_elem_of_In|done].
Qed.

Lemma untar_entry_frame now dest files fs0 fs h :
  untar_frame MaxExtractedFileSize dest files fs0 fs ->
  match untar_entry now (Clean <$> files) (Clean dest) fs h with
  | (Ok _, fs') => untar_frame MaxExtractedFileSize dest files fs0 fs'
  | (Err _, fs') => untar_frame (MaxExtractedFileSize + 1) dest files fs0 fs'
  end.
Proof.
  intros H. assert (forall fs', untar_frame MaxExtractedFileSize dest files fs0 fs' ->
    untar_frame (MaxExtractedFileSize + 1) dest files fs0 fs') as Hup.
  { intros fs'. apply untar_frame_mono. lia. }
  unfold untar_entry.
  destruct (existsb _ _) eqn:Ew; simpl; [|done].
  destruct (Ascii.eqb _ TypeReg); simpl; [|auto].
  destruct (negb _ && negb _) eqn:Eg; simpl; [auto|].
  set (t := FileJoin (Clean dest) (Clean (h_Name h))) in *.
  assert (extraction_target dest files t) as Ht.
  { apply existsb_want in Ew as (f & Hf & Hn). exists f. split; [done|].
    split; [unfold t; by rewrite Hn|]. to_prop. destruct Eg; to_prop; auto. }
  apply (untar_frame_mkdir _ _ _ _ _ (Dir t)) in H.
  destruct (os_MkdirAll fs (Dir t)) as [[[]|e] fs1]; simpl in H; [|auto].
  destruct (os_WriteFile _ _ _ _) as [fs2|] eqn:Ewr; [|auto].
  pose proof (limited_length (h_data h)) as Hlen.
  assert (untar_frame (MaxExtractedFileSize + 1) dest files fs0 fs2) as H2.
  { eapply untar_frame_write; eauto. }
  destruct (copy_fails h); [done|].
  destruct (MaxExtractedFileSize <? _)%Z eqn:El; [done|]. to_prop.
  eapply untar_frame_write; eauto.
Qed.

(** C37.  Extraction from an untrusted archive is confined: whatever the archive
    holds (any entry names and types, cut or oversized entries) and whether or not
    [UntarFiles] reports an error, the only regular files it creates or changes are
    the requested names joined to the destination, at or below it, and every other
    existing path keeps its node.  A file extracted by a call that succeeds holds
    at most [MaxExtractedFileSize] bytes, and a call that fails leaves at most one
    byte more behind. *)
Theorem UntarFiles_confined env now fs src dest files :
  match UntarFiles env now fs src dest files with
  | (Ok _, fs') => untar_frame MaxExtractedFileSize dest files fs fs'
  | (Err _, fs') => untar_frame (MaxExtractedFileSize + 1) dest files fs fs'
  end.
Proof.
  unfold UntarFiles, iterateTarArchive.
  assert (forall b, untar_frame b dest files fs fs) as H0 by (split; eauto).
  destruct (os_ReadFile fs src); [|done]. destruct (DecompressStream env a); [|done].
  apply iterate_entries_ind; [done| |].
  - intros s. apply untar_frame_mono. lia.
  - intros s e. apply untar_entry_frame.
Qed.

(** ** Identity *)

Lemma equal_spec r r' : equal r r' = true <-> r = r'.
Proof.
  unfold equal. destruct r, r'; simpl. rewrite !andb_true_iff, !String.eqb_eq.
  split; [intros [[-> ->] ->]; done|by intros [= -> -> ->]].
Qed.

Lemma select_ref_some s cs r :
  select_ref (Some s) cs = Ok r <->
  r = ref s /\ Forall (fun c => ref c = ref s /\ complete (ref c) = true) cs.
Proof.
  induction cs as [|c cs IH]; simpl.
  - split; [intros [= <-]; auto|by intros [-> _]].
  - rewrite Forall_cons. destruct (complete (ref c)) eqn:Ec; simpl.
    + destruct (equal (ref s) (ref c)) eqn:Ee; simpl.
      * apply equal_spec in Ee. rewrite IH. intuition congruence.
      * split; [done|]. intros (_ & (H & _) & _). symmetry in H.
        apply equal_spec in H. congruence.
    + split; [done|]. intros (_ & (_ & H) & _). congruence.
Qed.

Lemma select_ref_none cs r :
  select_ref None cs = Ok r <->
  cs <> [] /\ complete r = true /\ Forall (fun c => ref c = r) cs.
Proof.
  destruct cs as [|c cs]; simpl; [intuition congruence|].
  destruct (complete (ref c)) eqn:Ec; simpl.
  - rewrite select_ref_some, Forall_cons. split.
    + intros [-> H]. repeat split; [done|done|].
      eapply Forall_impl; [exact H|]. by intros x [? _].
    + intros (_ & Hc & <- & H). split; [done|].
      eapply Forall_impl; [exact H|]. intros x ->. done.
  - rewrite Forall_cons. split; [done|]. intros (_ & Hc & <- & _). congruence.
Qed.

(** The references of sources that are present at all. *)
Definition present (l : list PodContainerRef) : list PodContainerRef :=
  List.filter (fun r => negb (equal r {| ref_Namespace := ""; ref_Pod := ""; ref_Container := "" |})) l.

(** The identities an archive's annotations record, one per source present. *)
Definition recorded_refs (labels : gmap string string) (crio : bool)
    (annotations : gmap string string) : list PodContainerRef :=
  (if crio then [ {| ref_Namespace := get labels KubernetesPodNamespaceLabel;
                     ref_Pod := get labels KubernetesPodNameLabel;
                     ref_Container := get labels KubernetesContainerNameLabel |} ] else [])
  ++ present [containerd_ref annotations; checkpointctl_ref annotations].

Lemma appendCandidateIfPresent_refs cs src r :
  ref <$> appendCandidateIfPresent cs src r =
  (ref <$> cs) ++ present [r].
Proof.
  unfold appendCandidateIfPresent, present, equal. simpl.
  destruct (_ && _ && _); simpl; [by rewrite app_nil_r|]. by rewrite fmap_app.
Qed.

Lemma podContainerRefFromAnnotations_spec annotations r :
  podContainerRefFromAnnotations annotations = Ok r <->
  exists labels crio,
    (crio = negb (get annotations criOLabelsAnnotation =? "")) /\
    (crio = true -> unmarshal_string_map (get annotations criOLabelsAnnotation) = Some labels) /\
    recorded_refs labels crio annotations <> [] /\
    Forall (fun r' => r' = r) (recorded_refs labels crio annotations) /\
    complete r = true.
Proof.
  unfold podContainerRefFromAnnotations, crio_candidate.
  assert (forall cs labels crio,
    ref <$> cs = (if crio : bool then [ {| ref_Namespace := get labels KubernetesPodNamespaceLabel;
                     ref_Pod := get labels KubernetesPodNameLabel;
                     ref_Container := get labels KubernetesContainerNameLabel |} ] else []) ->
    select_ref None (appendCandidateIfPresent (appendCandidateIfPresent cs
       "containerd CRI annotations" (containerd_ref annotations))
       "checkpointctl annotations" (checkpointctl_ref annotations)) = Ok r <->
    recorded_refs labels crio annotations <> [] /\
    Forall (fun r' => r' = r) (recorded_refs labels crio annotations) /\ complete r = true) as Hsel.
  { intros cs labels crio Hcs. rewrite select_ref_none.
    set (l := appendCandidateIfPresent _ _ _).
    assert (ref <$> l = recorded_refs labels crio annotations) as Hl.
    { unfold l, recorded_refs. rewrite !appendCandidateIfPresent_refs, Hcs, <- app_assoc. f_equal.
      unfold present. simpl. by destruct (negb _). }
    rewrite <- Hl, Forall_fmap. unfold compose. destruct l; simpl; intuition done. }
  destruct (get annotations criOLabelsAnnotation =? "") eqn:E; simpl.
  - rewrite (Hsel [] ∅ false) by done. split.
    + intros (? & ? & ?). exists ∅, false. by split_and!.
    + intros (labels & crio & -> & _ & ? & ? & ?). by split_and!.
  - destruct (unmarshal_string_map _) as [labels|] eqn:El.
    + rewrite (Hsel _ labels true) by done. split.
      * intros (? & ? & ?). exists labels, true. by split_and!.
      * intros (labels' & crio & -> & Hl & ? & ? & ?). specialize (Hl eq_refl). simplify_eq. by split_and!.
    + split; [done|]. intros (labels' & crio & -> & Hl & _). by specialize (Hl eq_refl).
Qed.

(** Identity is read fail-closed: [podContainerRefFromAnnotations] returns
    an identity exactly when CRI-O's labels (if annotated) parse, at least one
    source records an identity, and all sources that do agree on it, with
    namespace, pod and container all non-empty.  Any missing, incomplete,
    malformed or conflicting record is an error. *)
Theorem podContainerRefFromAnnotations_exact annotations r :
  podContainerRefFromAnnotations annotations = Ok r <->
  exists labels crio,
    (crio = negb (get annotations criOLabelsAnnotation =? "")) /\
    (crio = true -> unmarshal_string_map (get annotations criOLabelsAnnotation) = Some labels) /\
    recorded_refs labels crio annotations <> [] /\
    Forall (fun r' => r' = r) (recorded_refs labels crio annotations) /\
    complete r = true.
Proof. apply podContainerRefFromAnnotations_spec. Qed.

Lemma complete_ns r : complete r = true -> ref_Namespace r <> "".
Proof. unfold complete. intros H. to_prop. by destruct H as [[H _] _]; to_prop. Qed.

(** A source that is skipped as absent records no namespace. *)
Lemma source_present x r l :
  Forall (fun r' => r' = r) (present (x :: l)) ->
  (x = r \/ ref_Namespace x = "") /\ Forall (fun r' => r' = r) (present l).
Proof.
  unfold present. simpl. destruct (equal x _) eqn:E; simpl.
  - apply equal_spec in E as ->. auto.
  - intros [-> H]%Forall_cons. auto.
Qed.

(** C38.  The two readers agree: whenever the strict reader used by the
    retention collector returns an identity, the namespace reader the CRI proxy
    authorises restores with returns the namespace of that identity. *)
Theorem ReadPodNamespace_agrees env now fs path r :
  ReadPodContainerRef env now fs path = Ok r ->
  ReadPodNamespace env now fs path = Ok (ref_Namespace r).
Proof.
  unfold ReadPodContainerRef, ReadPodNamespace.
  destruct (extractSpecDump env now fs path) as [ann|]; [|done].
  rewrite podContainerRefFromAnnotations_spec.
  intros (labels & crio & -> & Hl & Hne & Hall & Hc). unfold namespaceFromAnnotations.
  pose proof (complete_ns r Hc) as Hns. unfold recorded_refs in *.
  destruct (get ann criOLabelsAnnotation =? "") eqn:E; unfold negb in Hne, Hall, Hl |- *.
  - rewrite app_nil_l in Hne, Hall. pose proof Hall as Hall'. apply source_present in Hall' as [H1 H2].
    apply source_present in H2 as [H2 _].
    destruct (get ann containerdSandboxNamespaceAnnotation =? "") eqn:E1.
    + destruct (get ann CheckpointAnnotationNamespace =? "") eqn:E2; to_prop.
      * destruct (present _) as [|x l] eqn:Ef; [done|].
        apply Forall_cons in Hall as [-> _].
        assert (In r (r :: l)) as Hin by (by left). rewrite <- Ef in Hin.
        apply filter_In in Hin as [[<-|[<-|[]]] _]; done.
      * by destruct H2 as [<-|H2].
    + to_prop. by destruct H1 as [<-|H1].
  - rewrite Hl by done. apply Forall_cons in Hall as [<- _]. simpl in *.
    by apply String.eqb_neq in Hns as ->.
Qed.

(** A concrete instance of the decoders: an archive file holds the text
    [namespace/pod/container], unpacked to one [spec.dump] whose annotations are
    containerd's. *)
Definition demo_env : ArchiveEnv :=
  {| DecompressStream := fun data =>
       Some {| ts_entries := [ {| h_Name := "spec.dump"; h_Typeflag := TypeReg; h_data := data;
                                h_truncated := false |} ];
               ts_eof := true |};
     parseSpecDump := fun data =>
       match split_on sep data with
       | [n; p; c] => Some {[ containerdSandboxNamespaceAnnotation := n;
                              containerdSandboxNameAnnotation := p;
                              containerdContainerNameAnnotation := c ]}
       | _ => None
       end;
     parseConfigDump := fun data => Some "docker.io/library/nginx:1.27";
     MkdirTemp := Some "/tmp/inspect1" |}.

(** A readable archive of the demo format. *)
Definition demo_file (size : Z) (mtime : Time) (identity : string) : node :=
  NFile {| f_size := size; f_mtime := mtime; f_data := identity |}.

Lemma ReadPodNamespace_agrees_witness :
  let fs := {| fs_nodes := {[ "/tmp" := NDir; "/c/a.tar" := demo_file 5%Z 1%Z "team/web/nginx" ]};
               fs_nowrite := ∅; fs_noread := ∅ |} in
  ReadPodNamespace demo_env 9%Z fs "/c/a.tar" = Ok "team".
Proof.
  apply (ReadPodNamespace_agrees demo_env 9%Z _ "/c/a.tar"
           {| ref_Namespace := "team"; ref_Pod := "web"; ref_Container := "nginx" |}).
  vm_compute. reflexivity.
Defined.
