(* ===== verification/CriProxy.v ===== *)
(** * The node-side CRI proxy ([internal/criproxy], [cmd/cri-proxy])

    The rewrite of [CreateContainer], the transparent forwarding of every other
    CRI call and of the server streams, and the listener set-up of the
    [cri-proxy] command.  The upstream runtime (a gRPC client) is a parameter. *)

From S2P Require Import Prelude GoStrings GoPath Kube GoSystem Api Archive.
Open Scope string_scope.
Open Scope list_scope.

(** ** CRI requests

    The fields of a [CreateContainerRequest] the proxy reads or writes; a nil
    sub-message is [None]. *)
Record ContainerConfig := {
  cfg_Metadata : option string;   (* metadata.name *)
  cfg_Image : option string       (* image.image *)
}.

Record PodSandboxConfig := {
  sb_Metadata : option string;    (* metadata.namespace *)
  sb_Annotations : gmap string string
}.

Record CreateContainerRequest := {
  req_Config : option ContainerConfig;
  req_SandboxConfig : option PodSandboxConfig
}.

Record Options := {
  CheckpointDir : string;
  AllowCrossNamespace : bool
}.

Inductive StatusError :=
| InvalidArgument (container : string) (e : PathError)
| DeniedNoSandboxNamespace (container : string)
| DeniedUnverifiable (container : string) (e : ArchiveError)
| DeniedOtherNamespace (container archiveNS sandboxNS : string).

(** The nil-safe getters of the generated code. *)
Definition sandbox_annotations (req : CreateContainerRequest) : gmap string string :=
  match req_SandboxConfig req with Some sb => sb_Annotations sb | None => ∅ end.
Definition sandbox_namespace (req : CreateContainerRequest) : string :=
  match req_SandboxConfig req with
  | Some sb => default "" (sb_Metadata sb)
  | None => ""
  end.

Definition set_image (req : CreateContainerRequest) (cfg : ContainerConfig) (img : string)
  : CreateContainerRequest :=
  {| req_Config := Some {| cfg_Metadata := cfg_Metadata cfg; cfg_Image := Some img |};
     req_SandboxConfig := req_SandboxConfig req |}.

(** [rewriteCreateContainer] mutates the request in place: the new request is
    returned beside the result ([Ok ""] when nothing is rewritten). *)
Definition rewriteCreateContainer (env : ArchiveEnv) (now : Time) (fs : FS)
    (req : CreateContainerRequest) (opts : Options)
  : result StatusError string * CreateContainerRequest :=
  match req_Config req with
  | None => (Ok "", req)
  | Some cfg =>
      match cfg_Metadata cfg with
      | None => (Ok "", req)
      | Some name =>
          match sandbox_annotations req !! (RestoreCheckpointPathAnnotationPrefix +:+ name) with
          | None => (Ok "", req)
          | Some path =>
              if path =? "" then (Ok "", req)
              else
                match ValidateCheckpointPathInDir path (CheckpointDir opts) with
                | Err e => (Err (InvalidArgument name e), req)
                | Ok _ =>
                    let check :=
                      if AllowCrossNamespace opts then Ok tt
                      else
                        let sandboxNS := sandbox_namespace req in
                        if sandboxNS =? "" then Err (DeniedNoSandboxNamespace name)
                        else match ReadPodNamespace env now fs path with
                             | Err e => Err (DeniedUnverifiable name e)
                             | Ok archiveNS =>
                                 if negb (archiveNS =? sandboxNS)
                                 then Err (DeniedOtherNamespace name archiveNS sandboxNS)
                                 else Ok tt
                             end in
                    match check with
                    | Err e => (Err e, req)
                    | Ok _ => (Ok path, set_image req cfg path)
                    end
                end
          end
      end
  end.

(** ** The two services and their proxies *)

(** The unary methods of the RuntimeService, [CreateContainer] apart. *)
Inductive RuntimeMethod :=
| Version | RunPodSandbox | StopPodSandbox | RemovePodSandbox | PodSandboxStatus
| ListPodSandbox | StartContainer | StopContainer | RemoveContainer | ListContainers
| ContainerStatus | UpdateContainerResources | ReopenContainerLog | ExecSync | Exec
| Attach | PortForward | ContainerStats | ListContainerStats | PodSandboxStats
| ListPodSandboxStats | UpdateRuntimeConfig | Status | CheckpointContainer
| ListMetricDescriptors | ListPodSandboxMetrics | RuntimeConfig | UpdatePodSandboxResources.

(** The unary methods of the ImageService. *)
Inductive ImageMethod := ListImages | ImageStatus | PullImage | RemoveImage | ImageFsInfo.

(** The methods that answer with a stream. *)
Inductive StreamMethod := SContainers | SContainerStats | SContainerEvents | SImages.

(** The message types of the generated API. *)
Record CRITypes := {
  RuntimeRequest : RuntimeMethod -> Type;
  RuntimeResponse : RuntimeMethod -> Type;
  ImageRequest : ImageMethod -> Type;
  ImageResponse : ImageMethod -> Type;
  StreamRequest : StreamMethod -> Type;
  StreamItem : StreamMethod -> Type;
  CreateResponse : Type;
  RPCError : Type
}.

(** What the upstream stream yields: messages, then [io.EOF] or an error. *)
Record upstream_stream (A E : Type) := { us_items : list A; us_end : option E }.
Arguments us_items {A E} _.
Arguments us_end {A E} _.

(** The clients of the upstream runtime: its answers to each call. *)
Record RuntimeServiceClient (T : CRITypes) := {
  client_CreateContainer : CreateContainerRequest -> result (RPCError T) (CreateResponse T);
  client_call : forall m, RuntimeRequest T m -> result (RPCError T) (RuntimeResponse T m);
  client_stream : forall s, StreamRequest T s ->
    result (RPCError T) (upstream_stream (StreamItem T s) (RPCError T))
}.
Arguments client_CreateContainer {T} _ _.
Arguments client_call {T} _ _ _.
Arguments client_stream {T} _ _ _.

Record ImageServiceClient (T : CRITypes) := {
  image_call : forall m, ImageRequest T m -> result (RPCError T) (ImageResponse T m);
  image_stream : StreamRequest T SImages ->
    result (RPCError T) (upstream_stream (StreamItem T SImages) (RPCError T))
}.
Arguments image_call {T} _ _ _.
Arguments image_stream {T} _ _.

(** The proxies; their loggers are left out. *)
Record RuntimeProxy (T : CRITypes) := {
  rp_client : RuntimeServiceClient T;
  rp_opts : Options
}.
Arguments rp_client {T} _.
Arguments rp_opts {T} _.

Record ImageProxy (T : CRITypes) := { image_client : ImageServiceClient T }.
Arguments image_client {T} _.

Definition NewRuntimeProxy {T} (c : RuntimeServiceClient T) (o : Options) : RuntimeProxy T :=
  {| rp_client := c; rp_opts := o |}.

Definition NewImageProxy {T} (c : ImageServiceClient T) : ImageProxy T := {| image_client := c |}.

(** ** Forwarding *)

Section Forwarding.
Context {T : CRITypes}.

(** [(p *RuntimeProxy) CreateContainer]: an error is either the proxy's own
    refusal or the runtime's.  The second component is what reaches the
    runtime. *)
Definition CreateContainer (p : RuntimeProxy T) (env : ArchiveEnv) (now : Time) (fs : FS)
    (req : CreateContainerRequest)
  : result (StatusError + RPCError T) (CreateResponse T) * option CreateContainerRequest :=
  match rewriteCreateContainer env now fs req (rp_opts p) with
  | (Err e, _) => (Err (inl e), None)
  | (Ok _, req') => (map_err inr (client_CreateContainer (rp_client p) req'), Some req')
  end.

(** Every other unary method of the RuntimeService: [return p.client.M(ctx, in)]. *)
Definition runtime_forward (p : RuntimeProxy T) (m : RuntimeMethod) (req : RuntimeRequest T m)
  : result (RPCError T) (RuntimeResponse T m) :=
  client_call (rp_client p) m req.

(** Every unary method of the ImageService. *)
Definition image_forward (p : ImageProxy T) (m : ImageMethod) (req : ImageRequest T m)
  : result (RPCError T) (ImageResponse T m) :=
  image_call (image_client p) m req.

End Forwarding.

(** ** Server streams *)

(** The loop of the four relays: [Recv] until the end, [Send] each message, which
    may fail; the messages sent so far are returned too. *)
Fixpoint relay {A E} (send : A -> option E) (items : list A) (fin : option E)
  : result E unit * list A :=
  match items with
  | [] => (match fin with None => Ok tt | Some e => Err e end, [])
  | x :: items' =>
      match send x with
      | Some e => (Err e, [])
      | None => let '(r, sent) := relay send items' fin in (r, x :: sent)
      end
  end.

Definition stream_relay {A E} (up : result E (upstream_stream A E)) (send : A -> option E)
  : result E unit * list A :=
  match up with
  | Err e => (Err e, [])
  | Ok s => relay send (us_items s) (us_end s)
  end.

Section Streams.
Context {T : CRITypes}.

Definition StreamContainers (p : RuntimeProxy T) (req : StreamRequest T SContainers)
    (send : StreamItem T SContainers -> option (RPCError T)) :=
  stream_relay (client_stream (rp_client p) SContainers req) send.

Definition StreamContainerStats (p : RuntimeProxy T) (req : StreamRequest T SContainerStats)
    (send : StreamItem T SContainerStats -> option (RPCError T)) :=
  stream_relay (client_stream (rp_client p) SContainerStats req) send.

Definition GetContainerEvents (p : RuntimeProxy T) (req : StreamRequest T SContainerEvents)
    (send : StreamItem T SContainerEvents -> option (RPCError T)) :=
  stream_relay (client_stream (rp_client p) SContainerEvents req) send.

Definition StreamImages (p : ImageProxy T) (req : StreamRequest T SImages)
    (send : StreamItem T SImages -> option (RPCError T)) :=
  stream_relay (image_stream (image_client p) req) send.
End Streams.

(** ** The [cri-proxy] command *)

Definition systemdFirstListenFD : Z := 3.

Inductive ListenError :=
| ActivationHalfSet
| ParseListenPID (e : atoi_error)
| ParseListenFDs (e : atoi_error)
| NegativeFDs (n : Z)
| NotOneSocket (n : Z)
| FDUnusable
| CreateDirFailed
| RemoveStaleFailed
| ListenFailed
| ChmodFailed.

Definition systemdActivationFDCount (currentPID : Z) (listenPID listenFDs : string)
  : Z * bool * option ListenError :=
  if (listenPID =? "") && (listenFDs =? "") then (0%Z, false, None)
  else if (listenPID =? "") || (listenFDs =? "") then (0%Z, true, Some ActivationHalfSet)
  else match Atoi listenPID with
       | Err e => (0%Z, true, Some (ParseListenPID e))
       | Ok pid =>
           if negb (pid =? currentPID)%Z then (0%Z, false, None)
           else match Atoi listenFDs with
                | Err e => (0%Z, true, Some (ParseListenFDs e))
                | Ok fds => if (fds <? 0)%Z then (0%Z, true, Some (NegativeFDs fds))
                            else (fds, true, None)
                end
       end.

(** A listener: the inherited systemd socket, or a fresh unix socket. *)
Inductive Listener := InheritedFD (fd : Z) | UnixSocket (path : string).

(** The process environment and what the OS answers: [file_listener] is
    [net.FileListener] on the inherited descriptor, [net_listen] is
    [net.Listen("unix", path)], [chmod_ok] is [os.Chmod]. *)
Record ProcEnv := {
  Getpid : Z;
  Getenv : gmap string string;
  fd_listener : bool;
  net_listen : bool;
  chmod_ok : bool
}.

Definition unsetSystemdActivationEnv (e : gmap string string) : gmap string string :=
  delete "LISTEN_FDNAMES" (delete "LISTEN_FDS" (delete "LISTEN_PID" e)).

Definition inheritedSystemdListener (pe : ProcEnv)
  : option Listener * bool * option ListenError * gmap string string :=
  let '(fds, activated, err) :=
    systemdActivationFDCount (Getpid pe) (get (Getenv pe) "LISTEN_PID")
                             (get (Getenv pe) "LISTEN_FDS") in
  if negb activated || err_set err
  then (None, activated, err, Getenv pe)
  else
    let env' := unsetSystemdActivationEnv (Getenv pe) in
    if negb (fds =? 1)%Z then (None, true, Some (NotOneSocket fds), env')
    else if negb (fd_listener pe) then (None, true, Some FDUnusable, env')
    else (Some (InheritedFD systemdFirstListenFD), true, None, env').

(** [listenForKubelet]: the socket is created with mode [0600], and removed
    again when the mode cannot be set. *)
Definition listenForKubelet (pe : ProcEnv) (now : Time) (fs : FS) (listen : string)
  : (option Listener * bool * option ListenError) * FS :=
  let '(lis, inherited, err, _) := inheritedSystemdListener pe in
  if inherited || err_set err
  then (lis, inherited, err, fs)
  else
    match os_MkdirAll fs (Dir listen) with
    | (Err _, fs1) => (None, false, Some CreateDirFailed, fs1)
    | (Ok _, fs1) =>
        let removed := match os_Remove fs1 listen with
                       | Ok fs2 => Ok fs2
                       | Err ErrNotExist => Ok fs1
                       | Err e => Err e
                       end in
        match removed with
        | Err _ => (None, false, Some RemoveStaleFailed, fs1)
        | Ok fs2 =>
            if negb (net_listen pe) then (None, false, Some ListenFailed, fs2)
            else
              match os_WriteFile now fs2 listen "" with
              | Err _ => (None, false, Some ListenFailed, fs2)
              | Ok fs3 =>
                  if chmod_ok pe then (Some (UnixSocket listen), false, None, fs3)
                  else (None, false, Some ChmodFailed,
                        match os_Remove fs3 listen with Ok fs4 => fs4 | Err _ => fs3 end)
              end
        end
    end.

(** ** Properties *)

(** The restore the annotations of a request ask for: the container's name and
    the non-empty path annotated for it. *)
Definition requested (req : CreateContainerRequest) : option (string * string) :=
  cfg ← req_Config req;
  name ← cfg_Metadata cfg;
  path ← sandbox_annotations req !! (RestoreCheckpointPathAnnotationPrefix +:+ name);
  if path =? "" then None else Some (name, path).

(** The archive at [path] may be restored into the sandbox of [req]. *)
Definition authorised (env : ArchiveEnv) (now : Time) (fs : FS) (opts : Options)
    (req : CreateContainerRequest) (path : string) : Prop :=
  ValidateCheckpointPathInDir path (CheckpointDir opts) = Ok tt /\
  (AllowCrossNamespace opts = true \/
   sandbox_namespace req <> "" /\
   ReadPodNamespace env now fs path = Ok (sandbox_namespace req)).

Lemma rewrite_not_requested env now fs req opts :
  requested req = None -> rewriteCreateContainer env now fs req opts = (Ok "", req).
Proof.
  unfold requested, rewriteCreateContainer.
  destruct (req_Config req) as [cfg|]; simpl; [|done].
  destruct (cfg_Metadata cfg) as [name|]; simpl; [|done].
  destruct (sandbox_annotations req !! _) as [path|]; simpl; [|done].
  by destruct (path =? "").
Qed.

Lemma rewrite_requested env now fs req opts name path :
  requested req = Some (name, path) ->
  (authorised env now fs opts req path /\
   exists cfg, req_Config req = Some cfg /\
     rewriteCreateContainer env now fs req opts = (Ok path, set_image req cfg path)) \/
  (~ authorised env now fs opts req path /\
   exists e, rewriteCreateContainer env now fs req opts = (Err e, req)).
Proof.
  unfold requested, rewriteCreateContainer, authorised.
  destruct (req_Config req) as [cfg|]; simpl; [|done].
  destruct (cfg_Metadata cfg) as [nm|]; simpl; [|done].
  destruct (sandbox_annotations req !! _) as [pth|]; simpl; [|done].
  destruct (pth =? "") eqn:Ep; [done|]. intros [= -> ->].
  destruct (ValidateCheckpointPathInDir path _) as [[]|e]; simpl.
  2:{ right. split; [by intros [? _]|eauto]. }
  destruct (AllowCrossNamespace opts); [left; eauto 6|].
  destruct (sandbox_namespace req =? "") eqn:Es; to_prop.
  { right. split; [by intros (_ & [?|[? _]])|eauto]. }
  destruct (ReadPodNamespace env now fs path) as [ns|e] eqn:Er.
  2:{ right. split; [by intros (_ & [?|[_ ?]])|eauto]. }
  destruct (ns =? sandbox_namespace req) eqn:En; simpl; to_prop.
  - left. subst ns. eauto 8.
  - right. split; [|eauto]. intros (_ & [?|[_ ?]]); congruence.
Qed.

(** The proxy is the last gate: for every [CreateContainer] request,
    exactly one of three things reaches the runtime.  With no restore
    annotation for the container, the request is forwarded unchanged.  With
    one, it is forwarded with only its image replaced by the annotated path,
    and only if that path is confined to the checkpoint directory and (unless
    cross-namespace restores are allowed) the namespace recorded inside the
    archive is the non-empty namespace of the sandbox.  Otherwise nothing is
    forwarded and the caller gets an error. *)
Theorem CreateContainer_gate {T} (p : RuntimeProxy T) env now fs req :
  match requested req with
  | None => CreateContainer p env now fs req =
      (map_err inr (client_CreateContainer (rp_client p) req), Some req)
  | Some (_, path) =>
      (authorised env now fs (rp_opts p) req path /\
       exists cfg, req_Config req = Some cfg /\
         CreateContainer p env now fs req =
           (map_err inr (client_CreateContainer (rp_client p) (set_image req cfg path)),
            Some (set_image req cfg path))) \/
      (~ authorised env now fs (rp_opts p) req path /\
       exists e, CreateContainer p env now fs req = (Err (inl e), None))
  end.
Proof.
  unfold CreateContainer. destruct (requested req) as [[name path]|] eqn:E.
  - destruct (rewrite_requested env now fs req (rp_opts p) name path E)
      as [(Ha & cfg & Hc & ->)|(Ha & e & ->)]; [left|right]; simpl; eauto.
  - by rewrite (rewrite_not_requested _ _ _ _ _ E).
Qed.

(** The stream relays are faithful: what is sent downstream is a prefix of
    what the runtime produced, in order, and the relay ends without error
    exactly when the runtime's stream ended normally and every message was
    sent. *)
Theorem relay_faithful {A E} (send : A -> option E) items fin :
  (exists k, (relay send items fin).2 = take k items) /\
  ((relay send items fin).1 = Ok tt <->
   fin = None /\ Forall (fun x => send x = None) items /\ (relay send items fin).2 = items).
Proof.
  induction items as [|x items [[k Hk] IH]]; simpl.
  - split; [by exists 0|]. split; [by destruct fin|by intros (-> & _)].
  - destruct (send x) as [e|] eqn:Es; simpl.
    + split; [by exists 0|]. split; [done|]. intros (_ & H & _). apply Forall_cons in H as [H _].
      congruence.
    + destruct (relay send items fin) as [r sent]; simpl in *. split; [exists (S k); by rewrite Hk|].
      rewrite IH, Forall_cons. intuition congruence.
Qed.

Lemma listen_unix_removed fs p fs' : os_Remove fs p = Ok fs' -> os_Stat fs' p = None.
Proof.
  unfold os_Remove, os_Stat. destruct (fs_nodes fs !! p) as [[f|]|]; try done.
  destruct (bool_decide _); [done|]. intros [= <-]. simpl. apply lookup_delete_eq.
Qed.

(** Socket activation: the count of inherited descriptors is used only when
    both variables are set, [LISTEN_PID] is this process and [LISTEN_FDS] is a
    non-negative number; with neither variable, or with another process's PID,
    activation is reported as off without an error. *)
Theorem systemdActivationFDCount_exact pid lp lf n :
  systemdActivationFDCount pid lp lf = (n, true, None) <->
  Atoi lp = Ok pid /\ Atoi lf = Ok n /\ (0 <= n)%Z.
Proof.
  unfold systemdActivationFDCount. destruct (lp =? "") eqn:E1; simpl.
  { to_prop. subst lp. destruct (lf =? ""); simpl; split; (done || by intros (H & _)). }
  destruct (lf =? "") eqn:E2; simpl.
  { to_prop. subst lf. split; [done|by intros (_ & H & _)]. }
  destruct (Atoi lp) as [p|]; [|split; [done|by intros (H & _)]].
  destruct (p =? pid)%Z eqn:E3; simpl; to_prop.
  - destruct (Atoi lf) as [fds|]; [|split; [done|by intros (_ & H & _)]].
    destruct (fds <? 0)%Z eqn:E4; to_prop.
    + split; [done|]. intros (_ & [= ->] & H). lia.
    + split; [intros [= ->]; by subst|]. by intros (_ & [= ->] & _).
  - split; [done|]. intros ([= ->] & _). done.
Qed.

(** A runtime that accepts everything, with empty messages. *)
Definition demo_types : CRITypes :=
  {| RuntimeRequest := fun _ => unit; RuntimeResponse := fun _ => unit; ImageRequest := fun _ => unit;
     ImageResponse := fun _ => unit; StreamRequest := fun _ => unit; StreamItem := fun _ => unit;
     CreateResponse := unit; RPCError := unit |}.
Definition demo_runtime : RuntimeServiceClient demo_types :=
  Build_RuntimeServiceClient demo_types (fun _ => Ok tt) (fun _ _ => Ok tt)
    (fun _ _ => Ok {| us_items := [tt; tt]; us_end := None |}).
Definition demo_images : ImageServiceClient demo_types :=
  Build_ImageServiceClient demo_types (fun _ _ => Ok tt)
    (fun _ => Ok {| us_items := []; us_end := None |}).
