(* ===== verification/CriProxyMain.v ===== *)
(** * The [cri-proxy] process ([cmd/cri-proxy/main.go])

    [main]: the flags, the connection to the runtime and its check, the listener,
    the gRPC server with the two proxies, the optional health server and the
    goroutine that waits for a signal.  Start-up is a function with its exit codes;
    afterwards main, the health goroutine, the signal goroutine and the RPC
    handlers advance in any order.  The runtime is the parameter of [CriProxy.v];
    the file system may change under the process at any time. *)

From stdpp Require Import relations.
From S2P Require Import Prelude GoStrings GoPath Kube GoSystem Api Archive GoFlag CriProxy.
Open Scope string_scope.
Open Scope list_scope.

(** ** Flags *)

Record proxy_flags := {
  pf_upstream : string;
  pf_listen : string;
  pf_checkpointDir : string;
  pf_allowCrossNamespace : bool;
  pf_upstreamTimeout : Duration;
  pf_healthAddr : string;
  pf_healthTimeout : Duration
}.

Definition proxy_flag_defs : list (string * flag_kind) :=
  [ ("upstream", FString); ("listen", FString); ("checkpoint-dir", FString);
    ("allow-cross-namespace", FBool); ("upstream-timeout", FDuration);
    ("health-bind-address", FString); ("health-timeout", FDuration) ].

Definition proxy_flags_of (m : flag_set) : proxy_flags :=
  {| pf_upstream := string_flag m "upstream" "/run/containerd/containerd.sock";
     pf_listen := string_flag m "listen" "/run/cr-restore-proxy/cri-proxy.sock";
     pf_checkpointDir := string_flag m "checkpoint-dir" DefaultCheckpointDir;
     pf_allowCrossNamespace := bool_flag m "allow-cross-namespace" false;
     pf_upstreamTimeout := duration_flag m "upstream-timeout" (10 * Second)%Z;
     pf_healthAddr := string_flag m "health-bind-address" ":8080";
     pf_healthTimeout := duration_flag m "health-timeout" (2 * Second)%Z |}.

(** The options the runtime proxy is made with. *)
Definition proxy_options (f : proxy_flags) : Options :=
  {| CheckpointDir := pf_checkpointDir f; AllowCrossNamespace := pf_allowCrossNamespace f |}.

(** ** Start-up *)

(** [checkUpstream]: the error of the [Version] call. *)
Definition checkUpstream {E A} (version : result E A) : option E :=
  match version with Ok _ => None | Err e => Some e end.

(** [readyzHandler]: status and body; [version] is the runtime's answer within the
    given time. *)
Definition readyzHandler {A} (version : Duration -> result string A) (timeout : Duration) : Z * string :=
  match checkUpstream (version timeout) with
  | Some e => (503%Z, e +:+ String "010" "")
  | None => (200%Z, "ok" +:+ String "010" "")
  end.

(** What the process finds when it starts: the OS, [grpc.NewClient] for an
    address, and the runtime's answer to [Version] within a timeout. *)
Record boot_env := {
  bt_proc : ProcEnv;
  bt_now : Time;
  bt_NewClient : string -> bool;
  bt_Version : Duration -> result string unit
}.

(** Why start-up ended, each with the exit code of [exit_code]. *)
Inductive boot_error :=
| BadFlags (e : flag_error)
| NoClient
| UpstreamNotReady (e : string)
| NoListener (e : ListenError).

Definition exit_code (e : boot_error) : Z :=
  match e with BadFlags e => parse_exit e | _ => 1%Z end.

(** The server that is about to [Serve]. *)
Record server := {
  sv_flags : proxy_flags;
  sv_listener : Listener;
  sv_inherited : bool
}.

Section Boot.
Context (ParseDuration : string -> option Duration).
(** The flags [zap.Options.BindFlags] adds. *)
Context (zap_flags : list (string * flag_kind)).

Definition startup (b : boot_env) (args : list string) (fs : FS) : result boot_error server * FS :=
  match Parse ParseDuration (proxy_flag_defs ++ zap_flags) args with
  | Err e => (Err (BadFlags e), fs)
  | Ok (m, _) =>
      let f := proxy_flags_of m in
      if negb (bt_NewClient b ("unix:" +:+ pf_upstream f)) then (Err NoClient, fs)
      else match checkUpstream (bt_Version b (pf_upstreamTimeout f)) with
           | Some e => (Err (UpstreamNotReady e), fs)
           | None =>
               match listenForKubelet (bt_proc b) (bt_now b) fs (pf_listen f) with
               | (_, _, Some e, fs') => (Err (NoListener e), fs')
               | (Some lis, inherited, None, fs') =>
                   (Ok {| sv_flags := f; sv_listener := lis; sv_inherited := inherited |}, fs')
               | (None, inherited, None, fs') =>   (* not a result of listenForKubelet *)
                   (Err (NoListener ListenFailed), fs')
               end
           end
  end.
End Boot.

(** ** The running process *)

Inductive health := HDisabled | HStarting | HListening | HFailed | HClosed.

(** The goroutine that waits for a signal: still waiting, shutting the health
    server down, or in [GracefulStop]. *)
Inductive shutdown := Waiting | Signalled | Draining.

(** A unary RPC of the kubelet: [CreateContainer], or another one of the two
    services with its request. *)
Inductive rpc (T : CRITypes) :=
| RCreate (req : CreateContainerRequest)
| RRuntime (m : RuntimeMethod) (req : RuntimeRequest T m)
| RImage (m : ImageMethod) (req : ImageRequest T m).
Arguments RCreate {T} _.
Arguments RRuntime {T} _ _.
Arguments RImage {T} _ _.

(** What the kubelet gets back. *)
Inductive answer (T : CRITypes) :=
| ACreate (r : result (StatusError + RPCError T) (CreateResponse T))
| ARuntime (m : RuntimeMethod) (r : result (RPCError T) (RuntimeResponse T m))
| AImage (m : ImageMethod) (r : result (RPCError T) (ImageResponse T m)).
Arguments ACreate {T} _.
Arguments ARuntime {T} _ _.
Arguments AImage {T} _ _.

(** An answered RPC: its number, the time and the files it was handled with, what
    the kubelet sent, what reached the runtime and the answer. *)
Record handled (T : CRITypes) := {
  hd_id : nat;
  hd_now : Time;
  hd_fs : FS;
  hd_rpc : rpc T;
  hd_sent : option (rpc T);
  hd_answer : answer T
}.
Arguments Build_handled {T}.
Arguments hd_id {T} _.
Arguments hd_now {T} _.
Arguments hd_fs {T} _.
Arguments hd_rpc {T} _.
Arguments hd_sent {T} _.
Arguments hd_answer {T} _.

Record proc (T : CRITypes) := {
  pr_server : server;
  pr_fs : FS;
  pr_health : health;
  pr_shutdown : shutdown;
  pr_next : nat;                      (* RPCs accepted so far *)
  pr_inflight : list (nat * rpc T);
  pr_answered : list (handled T);
  pr_exit : option Z
}.
Arguments Build_proc {T}.
Arguments pr_server {T} _.
Arguments pr_fs {T} _.
Arguments pr_health {T} _.
Arguments pr_shutdown {T} _.
Arguments pr_next {T} _.
Arguments pr_inflight {T} _.
Arguments pr_answered {T} _.
Arguments pr_exit {T} _.

(** What reached the runtime, in order. *)
Definition pr_upstream {T} (p : proc T) : list (rpc T) := omap hd_sent (pr_answered p).

Section Updates.
Context {T : CRITypes}.

Definition serve (sv : server) (fs : FS) : proc T :=
  {| pr_server := sv; pr_fs := fs;
     pr_health := if pf_healthAddr (sv_flags sv) =? "" then HDisabled else HStarting;
     pr_shutdown := Waiting; pr_next := 0; pr_inflight := []; pr_answered := []; pr_exit := None |}.

Definition with_fs (p : proc T) (fs : FS) : proc T :=
  {| pr_server := pr_server p; pr_fs := fs; pr_health := pr_health p; pr_shutdown := pr_shutdown p;
     pr_next := pr_next p; pr_inflight := pr_inflight p; pr_answered := pr_answered p;
     pr_exit := pr_exit p |}.
Definition with_health (p : proc T) (h : health) : proc T :=
  {| pr_server := pr_server p; pr_fs := pr_fs p; pr_health := h; pr_shutdown := pr_shutdown p;
     pr_next := pr_next p; pr_inflight := pr_inflight p; pr_answered := pr_answered p;
     pr_exit := pr_exit p |}.
Definition with_shutdown (p : proc T) (s : shutdown) : proc T :=
  {| pr_server := pr_server p; pr_fs := pr_fs p; pr_health := pr_health p; pr_shutdown := s;
     pr_next := pr_next p; pr_inflight := pr_inflight p; pr_answered := pr_answered p;
     pr_exit := pr_exit p |}.
Definition with_exit (p : proc T) (code : Z) : proc T :=
  {| pr_server := pr_server p; pr_fs := pr_fs p; pr_health := pr_health p; pr_shutdown := pr_shutdown p;
     pr_next := pr_next p; pr_inflight := pr_inflight p; pr_answered := pr_answered p;
     pr_exit := Some code |}.
Definition accept (p : proc T) (r : rpc T) : proc T :=
  {| pr_server := pr_server p; pr_fs := pr_fs p; pr_health := pr_health p; pr_shutdown := pr_shutdown p;
     pr_next := S (pr_next p); pr_inflight := pr_inflight p ++ [(pr_next p, r)];
     pr_answered := pr_answered p; pr_exit := pr_exit p |}.

(** [_ = os.Remove(path)] *)
Definition remove_quietly (fs : FS) (path : string) : FS :=
  match os_Remove fs path with Ok fs' => fs' | Err _ => fs end.

(** [if !inheritedSocket { _ = os.Remove(listen) }] *)
Definition cleanup (p : proc T) : proc T :=
  if sv_inherited (pr_server p) then p
  else with_fs p (remove_quietly (pr_fs p) (pf_listen (sv_flags (pr_server p)))).

(** Closing a unix listener unlinks its socket; an inherited one stays. *)
Definition close_listener (p : proc T) : proc T :=
  match sv_listener (pr_server p) with
  | UnixSocket path => with_fs p (remove_quietly (pr_fs p) path)
  | InheritedFD _ => p
  end.

(** [healthServer.Shutdown], when there is one that runs. *)
Definition stop_health (p : proc T) : proc T :=
  match pr_health p with
  | HDisabled | HFailed => p
  | _ => with_health p HClosed
  end.

End Updates.

Inductive act (T : CRITypes) :=
| FilesChange (fs : FS)                    (* another process, such as the kubelet *)
| Accept (r : rpc T)
| Handle (now : Time) (n : nat)            (* some handler finishes *)
| HealthUp | HealthFail                    (* healthServer.ListenAndServe *)
| Signal | HealthShutdown | Drained
| ServeError.

Arguments FilesChange {T} _.
Arguments Accept {T} _.
Arguments Handle {T} _ _.
Arguments HealthUp {T}.
Arguments HealthFail {T}.
Arguments Signal {T}.
Arguments HealthShutdown {T}.
Arguments Drained {T}.
Arguments ServeError {T}.

Section Process.
Context {T : CRITypes} (env : ArchiveEnv).
(** The clients of the connection to the runtime. *)
Context (runtimeClient : RuntimeServiceClient T) (imageClient : ImageServiceClient T).

(** The proxies [main] registers. *)
Definition runtime_service (sv : server) : RuntimeProxy T :=
  NewRuntimeProxy runtimeClient (proxy_options (sv_flags sv)).
Definition image_service : ImageProxy T := NewImageProxy imageClient.

(** The method of the registered service: the answer, and what it sent to the
    runtime. *)
Definition dispatch (sv : server) (now : Time) (fs : FS) (r : rpc T) : answer T * option (rpc T) :=
  match r with
  | RCreate req =>
      let '(res, sent) := CreateContainer (runtime_service sv) env now fs req in
      (ACreate res, RCreate <$> sent)
  | RRuntime m req => (ARuntime m (runtime_forward (runtime_service sv) m req), Some r)
  | RImage m req => (AImage m (image_forward image_service m req), Some r)
  end.

(** The [n]-th RPC in flight is handled and answered. *)
Definition handle (p : proc T) (now : Time) (n : nat) : option (proc T) :=
  match pr_inflight p !! n with
  | None => None
  | Some (id, r) =>
      let '(a, sent) := dispatch (pr_server p) now (pr_fs p) r in
      Some {| pr_server := pr_server p; pr_fs := pr_fs p; pr_health := pr_health p;
              pr_shutdown := pr_shutdown p; pr_next := pr_next p;
              pr_inflight := delete n (pr_inflight p);
              pr_answered := pr_answered p ++
                [ {| hd_id := id; hd_now := now; hd_fs := pr_fs p; hd_rpc := r;
                     hd_sent := sent; hd_answer := a |} ];
              pr_exit := pr_exit p |}
  end.

(** One action, if it is possible.  [GracefulStop] first closes the listener, so
    that nothing is accepted any more, and lets the RPCs in flight end; [Serve]
    then returns nil.  It returns an error when accepting fails for good. *)
Definition pstep (a : act T) (p : proc T) : option (proc T) :=
  match pr_exit p with
  | Some _ => None
  | None =>
      match a, pr_shutdown p with
      | FilesChange fs, _ => Some (with_fs p fs)
      | Accept r, (Waiting | Signalled) => Some (accept p r)
      | Handle now n, _ => handle p now n
      | HealthUp, _ => match pr_health p with
                       | HStarting => Some (with_health p HListening) | _ => None end
      | HealthFail, _ => match pr_health p with
                         | HStarting | HListening => Some (with_health p HFailed) | _ => None end
      | Signal, Waiting => Some (with_shutdown p Signalled)
      | HealthShutdown, Signalled => Some (with_shutdown (close_listener (stop_health p)) Draining)
      | Drained, Draining =>
          match pr_inflight p with
          | [] => Some (with_exit (cleanup p) 0)
          | _ => None
          end
      | ServeError, (Waiting | Signalled) => Some (with_exit (cleanup p) 1)
      | _, _ => None
      end
  end.

Fixpoint prun (ls : list (act T)) (p : proc T) : option (proc T) :=
  match ls with
  | [] => Some p
  | a :: ls' => match pstep a p with Some p' => prun ls' p' | None => None end
  end.

(** ** Properties *)

(** How an RPC must have been handled.  [CreateContainer]: forwarded as it is
    without a restore annotation; forwarded with the annotated path as its image
    when the gate of [CriProxy.v] lets that path pass; otherwise answered with the
    proxy's error and not forwarded.  Every other RPC is forwarded as it is.  What
    is forwarded is answered with what the runtime says to it. *)
Definition gated (f : proxy_flags) (h : handled T) : Prop :=
  match hd_rpc h with
  | RCreate req =>
      let forwarded_as req' := hd_sent h = Some (RCreate req') /\
        hd_answer h = ACreate (map_err inr (client_CreateContainer runtimeClient req')) in
      match requested req with
      | None => forwarded_as req
      | Some (_, path) =>
          let ok := authorised env (hd_now h) (hd_fs h) (proxy_options f) req path in
          ok /\ (exists cfg, req_Config req = Some cfg /\ forwarded_as (set_image req cfg path)) \/
          ~ ok /\ hd_sent h = None /\ exists e, hd_answer h = ACreate (Err (inl e))
      end
  | RRuntime m req => hd_sent h = Some (hd_rpc h) /\ hd_answer h = ARuntime m (client_call runtimeClient m req)
  | RImage m req => hd_sent h = Some (hd_rpc h) /\ hd_answer h = AImage m (image_call imageClient m req)
  end.

(** Every accepted RPC is in flight or answered, once. *)
Record proc_inv (f : proxy_flags) (p : proc T) : Prop := {
  pi_flags : sv_flags (pr_server p) = f;
  pi_ids : map fst (pr_inflight p) ++ map hd_id (pr_answered p) ≡ₚ seq 0 (pr_next p);
  pi_gated : Forall (gated f) (pr_answered p);
  pi_exit0 : pr_exit p = Some 0%Z -> pr_shutdown p = Draining /\ pr_inflight p = [];
  pi_exit : forall c, pr_exit p = Some c -> c = 0%Z \/ c = 1%Z
}.

Lemma serve_inv sv fs : proc_inv (sv_flags sv) (serve sv fs).
Proof. by split. Qed.

Lemma dispatch_gated sv id now fs r a sent :
  dispatch sv now fs r = (a, sent) ->
  gated (sv_flags sv) {| hd_id := id; hd_now := now; hd_fs := fs; hd_rpc := r;
                         hd_sent := sent; hd_answer := a |}.
Proof.
  unfold dispatch, gated. destruct r as [req|m req|m req]; simpl; [|by intros [= <- <-]..].
  pose proof (CreateContainer_gate (runtime_service sv) env now fs req) as H.
  destruct (CreateContainer _ _ _ _ _) as [res osent] eqn:Ec. intros [= <- <-].
  destruct (requested req) as [[name path]|]; [|by simplify_eq].
  destruct H as [(Ha & cfg & Hc & H)|(Ha & e & H)]; [left|right]; simplify_eq; eauto.
Qed.

Lemma handle_inv f p now n p' : proc_inv f p -> pr_exit p = None -> handle p now n = Some p' -> proc_inv f p'.
Proof.
  intros [Hf Hids Hg H0 H1] Hx H. unfold handle in H.
  destruct (pr_inflight p !! n) as [[id r]|] eqn:En; [|done].
  destruct (dispatch _ _ _ _) as [a sent] eqn:Ed. simplify_eq. split; simpl; try done.
  - rewrite (delete_Permutation _ _ _ En) in Hids. simpl in Hids. rewrite <- Hids.
    rewrite map_app, app_assoc, (Permutation_app_comm _ [id]). done.
  - apply Forall_app. split; [done|]. constructor; [|done]. by apply dispatch_gated.
  - congruence.
Qed.

(** Two states that differ at most in files, health, shutdown and exit. *)
Definition same_rpcs (p q : proc T) : Prop :=
  pr_server q = pr_server p /\ pr_next q = pr_next p /\ pr_inflight q = pr_inflight p /\
  pr_answered q = pr_answered p.

Lemma cleanup_same p : same_rpcs p (cleanup p) /\ pr_shutdown (cleanup p) = pr_shutdown p.
Proof. unfold cleanup, same_rpcs. by destruct (sv_inherited _). Qed.

Lemma stop_same p : same_rpcs p (close_listener (stop_health p)) /\
  pr_exit (close_listener (stop_health p)) = pr_exit p.
Proof.
  unfold same_rpcs, close_listener, stop_health.
  destruct (pr_health p); simpl; destruct (sv_listener _); by repeat split.
Qed.

Lemma same_inv f p q :
  proc_inv f p -> same_rpcs p q ->
  (pr_exit q = Some 0%Z -> pr_shutdown q = Draining /\ pr_inflight q = []) ->
  (forall c, pr_exit q = Some c -> c = 0%Z \/ c = 1%Z) -> proc_inv f q.
Proof.
  intros [Hf Hids Hg _ _] (E1 & E2 & E3 & E4) H0 H1.
  split; rewrite ?E1, ?E2, ?E3, ?E4 in *; done.
Qed.

Lemma accept_inv f p r : proc_inv f p -> pr_exit p = None -> proc_inv f (accept p r).
Proof.
  intros [Hf Hids Hg H0 H1] Hx. split; simpl; try congruence.
  change (0 :: seq 1 (pr_next p)) with (seq 0 (S (pr_next p))).
  rewrite seq_S, <- Hids, map_app. simpl. rewrite <- !app_assoc. f_equiv. apply Permutation_app_comm.
Qed.

Lemma pstep_inv f a p p' : proc_inv f p -> pstep a p = Some p' -> proc_inv f p'.
Proof.
  intros Hi H. unfold pstep in H. destruct (pr_exit p) eqn:Hx; [done|].
  destruct (cleanup_same p) as [C1 C2]. destruct (stop_same p) as [S1 S2].
  assert (forall q, same_rpcs p q -> pr_exit q = None -> proc_inv f q) as Hq.
  { intros q Hs Hn. apply (same_inv f p q Hi Hs); congruence. }
  destruct a; destruct (pr_shutdown p) eqn:Hs; simplify_eq;
    first [ by eapply handle_inv | by apply accept_inv | by apply Hq | idtac ].
  all: try (split_matches_in H; by apply Hq).
  - apply Hq; [exact S1|simpl; congruence].
  - destruct (pr_inflight p) eqn:Ei; simplify_eq. apply (same_inv f p _ Hi); simpl.
    + exact C1.
    + intros _. split; [congruence|]. destruct C1 as (_ & _ & -> & _). done.
    + intros c [= <-]. by left.
  - apply (same_inv f p _ Hi); simpl; [exact C1|done|]. intros c [= <-]. by right.
  - apply (same_inv f p _ Hi); simpl; [exact C1|done|]. intros c [= <-]. by right.
Qed.

Lemma prun_inv f ls p p' : proc_inv f p -> prun ls p = Some p' -> proc_inv f p'.
Proof.
  revert p. induction ls as [|a ls IH]; simpl; intros p Hi H; [by simplify_eq|].
  destruct (pstep a p) as [p1|] eqn:E; [|done]. eauto using pstep_inv.
Qed.
End Process.

Lemma prun_app {T} env rc (ic : ImageServiceClient T) ls ls' p p1 :
  prun env rc ic ls p = Some p1 -> prun env rc ic (ls ++ ls') p = prun env rc ic ls' p1.
Proof.
  revert p. induction ls as [|a ls IH]; simpl; intros p H; [by simplify_eq|].
  destruct (pstep env rc ic a p); [by apply IH|done].
Qed.

(** What [listenForKubelet] promises when it returns a listener. *)
Lemma listenForKubelet_Ok pe now fs listen lis inherited fs' :
  listenForKubelet pe now fs listen = (Some lis, inherited, None, fs') ->
  if inherited then lis = InheritedFD 3 /\ fs' = fs
  else lis = UnixSocket listen /\ exists f, fs_nodes fs' !! listen = Some (NFile f).
Proof.
  unfold listenForKubelet, inheritedSystemdListener. intros H.
  destruct (systemdActivationFDCount _ _ _) as [[fds act] err].
  destruct act; simpl in H.
  - destruct err as [e|]; simpl in H; [by simplify_eq|].
    destruct (negb (fds =? 1)%Z); simpl in H; [by simplify_eq|].
    destruct (fd_listener pe); simpl in H; by simplify_eq.
  - destruct err as [e|]; simpl in H; [by simplify_eq|].
    destruct (os_MkdirAll fs (Dir listen)) as [[u|e] fs1]; [|by simplify_eq].
    destruct (match os_Remove fs1 listen with Ok fs2 => Ok fs2 | Err ErrNotExist => Ok fs1 | Err e => Err e end)
      as [fs2|]; [|by simplify_eq].
    destruct (negb (net_listen pe)); [by simplify_eq|].
    destruct (os_WriteFile now fs2 listen "") as [fs3|] eqn:Ew; [|by simplify_eq].
    destruct (chmod_ok pe); simplify_eq. split; [done|].
    apply os_WriteFile_Ok in Ew as (_ & _ & ->). eexists. simpl. by rewrite lookup_insert_eq.
Qed.

(** The flags of a server that started are those of its command line. *)
Lemma startup_flags ParseDuration zap_flags b args fs sv fs' :
  startup ParseDuration zap_flags b args fs = (Ok sv, fs') ->
  exists m rest, Parse ParseDuration (proxy_flag_defs ++ zap_flags) args = Ok (m, rest) /\
    sv_flags sv = proxy_flags_of m.
Proof.
  unfold startup. destruct (Parse _ _ args) as [[m rest]|fe]; [|done]. intros H.
  repeat (split_match_in H; try done); eauto.
Qed.

(** Start-up is all or nothing.  The process serves exactly when the flags
    parse, the client can be made, the runtime answers the version call within the
    timeout and a listener is there; it serves with the options its flags say, on
    the inherited socket (files untouched) or on the socket file it made.
    Otherwise it ends with code 2 for a bad command line, 0 for a request for help
    and 1 for the rest, and before the listener is prepared no file has changed. *)
Theorem startup_exact ParseDuration zap_flags b args fs :
  match startup ParseDuration zap_flags b args fs with
  | (Ok sv, fs') =>
      exists m rest, Parse ParseDuration (proxy_flag_defs ++ zap_flags) args = Ok (m, rest) /\
        sv_flags sv = proxy_flags_of m /\
        bt_NewClient b ("unix:" +:+ pf_upstream (sv_flags sv)) = true /\
        bt_Version b (pf_upstreamTimeout (sv_flags sv)) = Ok tt /\
        if sv_inherited sv then sv_listener sv = InheritedFD 3 /\ fs' = fs
        else sv_listener sv = UnixSocket (pf_listen (sv_flags sv)) /\
             exists f, fs_nodes fs' !! pf_listen (sv_flags sv) = Some (NFile f)
  | (Err e, fs') =>
      (exit_code e = 0%Z <-> Parse ParseDuration (proxy_flag_defs ++ zap_flags) args = Err ErrHelp) /\
      (exit_code e = 2%Z <->
         exists fe, fe <> ErrHelp /\ Parse ParseDuration (proxy_flag_defs ++ zap_flags) args = Err fe) /\
      (fs' = fs \/ exists le, e = NoListener le)
  end.
Proof.
  unfold startup. destruct (Parse _ _ args) as [[m rest]|fe] eqn:Ep.
  2:{ simpl. split; [|split; [|by left]].
      - destruct fe; simpl; split; intros H; (done || by simplify_eq).
      - destruct fe; simpl; split; try done; try (intros _; eexists; split; [|reflexivity]; done).
        intros (fe & Hne & Heq). by simplify_eq. }
  assert (forall e, e <> ErrHelp /\ Ok (m, rest) = Err e -> False) as Hno by (by intros e [_ ?]).
  destruct (bt_NewClient b _) eqn:En; simpl.
  2:{ split; [done|]. split; [|by left]. split; [done|]. intros (fe & H). by destruct (Hno fe). }
  destruct (checkUpstream _) as [e|] eqn:Ev.
  { split; [done|]. split; [|by left]. split; [done|]. intros (fe & H). by destruct (Hno fe). }
  destruct (listenForKubelet _ _ _ _) as [[[lis inherited] err] fs'] eqn:El.
  assert (forall le, (exit_code (NoListener le) = 0%Z <->
                      (Ok (m, rest) : result flag_error (flag_set * list string)) = Err ErrHelp) /\
            (exit_code (NoListener le) = 2%Z <-> exists fe, fe <> ErrHelp /\
                      (Ok (m, rest) : result flag_error (flag_set * list string)) = Err fe) /\
            (fs' = fs \/ exists le', NoListener le = NoListener le')) as Herr.
  { intros le. split; [done|]. split; [|eauto]. split; [done|]. intros (fe & H). by destruct (Hno fe). }
  destruct err as [le|]; [destruct lis; apply Herr|]. destruct lis as [lis|]; [|apply Herr].
  exists m, rest. split; [done|]. split; [done|]. split; [done|]. split.
  - simpl. unfold checkUpstream in Ev. by destruct (bt_Version b _) as [[]|].
  - simpl. by apply listenForKubelet_Ok in El.
Qed.


(** ** The health endpoint *)

Definition is_health {T} (a : act T) : bool :=
  match a with HealthUp | HealthFail => true | _ => false end.

Section Health.
Context {T : CRITypes} (rc : RuntimeServiceClient T) (ic : ImageServiceClient T) (env : ArchiveEnv).

Lemma pstep_health a p p' h :
  is_health a = false -> pstep env rc ic a p = Some p' ->
  exists h', pstep env rc ic a (with_health p h) = Some (with_health p' h').
Proof.
  intros Ha H. unfold pstep in *. simpl. destruct (pr_exit p); [done|].
  destruct a; try done; destruct (pr_shutdown p); simplify_eq; simpl; try (by eexists);
    try (unfold handle in *; simpl; destruct (pr_inflight p !! n) as [[id r]|]; [|done];
         destruct (dispatch _ _ _ _ _ _ _); simplify_eq; by eexists).
  - unfold close_listener, stop_health. simpl.
    destruct (pr_health p), h; simpl; destruct (sv_listener (pr_server p)); by eexists.
  - destruct (pr_inflight p); simplify_eq. unfold cleanup. simpl. destruct (sv_inherited _); by eexists.
  - unfold cleanup. simpl. destruct (sv_inherited _); by eexists.
  - unfold cleanup. simpl. destruct (sv_inherited _); by eexists.
Qed.

Lemma pstep_is_health a p p' :
  is_health a = true -> pstep env rc ic a p = Some p' -> exists h, p' = with_health p h.
Proof.
  intros Ha H. unfold pstep in H. destruct (pr_exit p); [done|].
  destruct a; try done; destruct (pr_shutdown p), (pr_health p); simplify_eq; by eexists.
Qed.

(** The health endpoint is observability only: take any run of the process
    and leave out everything the health server does (starting, failing, at any
    point), or start with the endpoint disabled: the rest of the run is possible
    as it was and ends in the same state but for the health server itself.  So the
    same requests are accepted, forwarded and answered and the process ends in the
    same way. *)
Theorem health_is_observability_only ls p p' h :
  prun env rc ic ls p = Some p' ->
  exists h', prun env rc ic (List.filter (fun a => negb (is_health a)) ls) (with_health p h) =
             Some (with_health p' h').
Proof.
  revert p h. induction ls as [|a ls IH]; simpl; intros p h H; [simplify_eq; by exists h|].
  destruct (pstep env rc ic a p) as [p1|] eqn:E1; [|done]. destruct (is_health a) eqn:Ea; simpl.
  - destruct (pstep_is_health a p p1 Ea E1) as (h1 & ->).
    destruct (IH (with_health p h1) h H) as (h' & Hh). eauto.
  - destruct (pstep_health a p p1 h Ea E1) as (h1 & ->). apply (IH p1 h1 H).
Qed.

(** ** Graceful shutdown *)

Definition drain (now : Time) (p : proc T) : list (act T) := repeat (Handle now 0) (length (pr_inflight p)) ++ [Drained].

Lemma pstep_draining a p p' :
  pr_shutdown p = Draining -> pstep env rc ic a p = Some p' ->
  pr_next p' = pr_next p /\ pr_shutdown p' = Draining /\
  match a with
  | Handle _ _ => S (length (pr_inflight p')) = length (pr_inflight p)
  | Drained => pr_inflight p = [] /\ pr_exit p' = Some 0%Z
  | _ => pr_inflight p' = pr_inflight p
  end.
Proof.
  intros Hd H. unfold pstep in H. destruct (pr_exit p); [done|]. rewrite Hd in H.
  destruct a; simplify_eq; try done.
  - unfold handle in H. destruct (pr_inflight p !! n) as [[id r]|] eqn:En; [|done].
    destruct (dispatch _ _ _ _ _ _ _). simplify_eq. simpl.
    rewrite length_delete by eauto. apply lookup_lt_Some in En. split; [done|]. split; [done|lia].
  - by destruct (pr_health p); simplify_eq.
  - by destruct (pr_health p); simplify_eq.
  - destruct (pr_inflight p); simplify_eq. simpl. destruct (cleanup_same p) as [(_ & -> & _) ->]. done.
Qed.

End Health.

(** ** A concrete process *)

Definition demo_duration (s : string) : option Duration :=
  if (s =? "2s")%string then Some (2 * Second)%Z else None.

Definition demo_boot : boot_env :=
  {| bt_proc := {| Getpid := 7; Getenv := ∅; fd_listener := false; net_listen := true; chmod_ok := true |};
     bt_now := 1%Z; bt_NewClient := fun _ => true; bt_Version := fun _ => Ok tt |}.

Definition demo_args : list string := ["--listen=/run/p.sock"; "--health-timeout"; "2s"].

Definition empty_fs : FS := {| fs_nodes := {[ "/" := NDir ]}; fs_nowrite := ∅; fs_noread := ∅ |}.

Definition demo_server : server :=
  {| sv_flags := proxy_flags_of {[ "listen" := VString "/run/p.sock"; "health-timeout" := VDuration (2 * Second)%Z ]};
     sv_listener := UnixSocket "/run/p.sock"; sv_inherited := false |}.

Definition demo_fs : FS := snd (startup demo_duration [] demo_boot demo_args empty_fs).

Definition demo_plain : CreateContainerRequest :=
  {| req_Config := Some {| cfg_Metadata := Some "web"; cfg_Image := Some "nginx" |}; req_SandboxConfig := None |}.
Definition demo_forged : CreateContainerRequest :=
  {| req_Config := Some {| cfg_Metadata := Some "web"; cfg_Image := Some "nginx" |};
     req_SandboxConfig := Some {| sb_Metadata := Some "default";
       sb_Annotations := {[ RestoreCheckpointPathAnnotationPrefix +:+ "web" := "/tmp/evil.tar" ]} |} |}.

(** The runtime accepts everything; a forged restore and a plain container are
    created while the process shuts down. *)
Definition demo_run : list (act demo_types) :=
  [ Accept (RCreate demo_forged); HealthFail; Accept (RCreate demo_plain); Accept (@RImage demo_types PullImage tt);
    Signal; HealthShutdown ].

Definition demo_proc (ls : list (act demo_types)) : proc demo_types :=
  default (serve demo_server demo_fs) (prun demo_env demo_runtime demo_images ls (serve demo_server demo_fs)).

Lemma demo_proc_run ls :
  is_Some (prun demo_env demo_runtime demo_images ls (serve demo_server demo_fs)) ->
  prun demo_env demo_runtime demo_images ls (serve demo_server demo_fs) = Some (demo_proc ls).
Proof. unfold demo_proc. by intros [p ->]. Qed.


Lemma health_is_observability_only_witness :
  exists h', prun demo_env demo_runtime demo_images (List.filter (fun a => negb (is_health a)) demo_run)
               (with_health (serve demo_server demo_fs) HDisabled) =
             Some (with_health (demo_proc demo_run) h').
Proof.
  apply (health_is_observability_only demo_runtime demo_images demo_env demo_run (serve demo_server demo_fs)).
  apply demo_proc_run. vm_compute. by eexists.
Defined.

