(* ===== verification/Policies.v ===== *)
(** * Retention policies
    ([checkpointrestoreoperator_controller.go]: the policy variables, how a
    CheckpointRestoreOperator spec sets them, snapshots, and which policy
    applies to a checkpoint)

    The package variables guarded by [policyMutex] are one record; every
    function that runs under the mutex maps that record to its new value.
    Pointers are options: a copied pointer is the same value, and nothing writes
    through one. *)

From S2P Require Import Prelude GoStrings Kube Api Archive.
Open Scope string_scope.
Open Scope list_scope.
Open Scope Z_scope.

Record policyVars := {
  v_checkpointDirectory : string;
  v_retainOrphan : option bool;
  v_maxCheckpointsPerContainer : Z;
  v_maxCheckpointsPerPod : Z;
  v_maxCheckpointsPerNamespace : Z;
  v_maxCheckpointSize : Quantity;
  v_maxTotalSizePerPod : Quantity;
  v_maxTotalSizePerContainer : Quantity;
  v_maxTotalSizePerNamespace : Quantity;
  v_containerPolicies : list ContainerPolicySpec;
  v_podPolicies : list PodPolicySpec;
  v_namespacePolicies : list NamespacePolicySpec
}.

(** The values the package starts with. *)
Definition initialVars : policyVars :=
  {| v_checkpointDirectory := "/var/lib/kubelet/checkpoints";
     v_retainOrphan := None;
     v_maxCheckpointsPerContainer := 10;
     v_maxCheckpointsPerPod := 20;
     v_maxCheckpointsPerNamespace := 30;
     v_maxCheckpointSize := Q100Gi;
     v_maxTotalSizePerPod := Q100Gi;
     v_maxTotalSizePerContainer := Q100Gi;
     v_maxTotalSizePerNamespace := Q100Gi;
     v_containerPolicies := []; v_podPolicies := []; v_namespacePolicies := [] |}.

Record policySnapshot := {
  checkpointDirectory : string;
  retainOrphan : bool;
  maxCheckpointsPerContainer : Z;
  maxCheckpointsPerPod : Z;
  maxCheckpointsPerNamespace : Z;
  maxCheckpointSize : Quantity;
  maxTotalSizePerPod : Quantity;
  maxTotalSizePerContainer : Quantity;
  maxTotalSizePerNamespace : Quantity;
  containerPolicies : list ContainerPolicySpec;
  podPolicies : list PodPolicySpec;
  namespacePolicies : list NamespacePolicySpec
}.

(** ** Applying a spec *)

Definition resetAllPoliciesToDefault (v : policyVars) : policyVars :=
  {| v_checkpointDirectory := v_checkpointDirectory v;
     v_retainOrphan := None;
     v_maxCheckpointsPerContainer := 10;
     v_maxCheckpointsPerPod := 20;
     v_maxCheckpointsPerNamespace := 30;
     v_maxCheckpointSize := Q1Ei;
     v_maxTotalSizePerPod := Q1Ei;
     v_maxTotalSizePerContainer := Q1Ei;
     v_maxTotalSizePerNamespace := Q1Ei;
     v_containerPolicies := []; v_podPolicies := []; v_namespacePolicies := [] |}.

(** [if p != nil && *p >= 0 { x = *p }] *)
Definition set_count (p : option Z) (x : Z) : Z :=
  match p with
  | Some n => if 0 <=? n then n else x
  | None => x
  end.

(** [if p != nil { x = *p }] *)
Definition set_size (p : option Quantity) (x : Quantity) : Quantity :=
  match p with
  | Some q => q
  | None => x
  end.

Definition handleGlobalPolicies (v : policyVars) (gp : GlobalPolicySpec) : policyVars :=
  {| v_checkpointDirectory := v_checkpointDirectory v;
     v_retainOrphan := match gp_RetainOrphan gp with
                       | None => Some true
                       | Some b => Some b
                       end;
     v_maxCheckpointsPerContainer :=
       set_count (gp_MaxCheckpointsPerContainer gp) (v_maxCheckpointsPerContainer v);
     v_maxCheckpointsPerPod := set_count (gp_MaxCheckpointsPerPod gp) (v_maxCheckpointsPerPod v);
     v_maxCheckpointsPerNamespace :=
       set_count (gp_MaxCheckpointsPerNamespaces gp) (v_maxCheckpointsPerNamespace v);
     v_maxCheckpointSize := set_size (gp_MaxCheckpointSize gp) (v_maxCheckpointSize v);
     v_maxTotalSizePerPod := set_size (gp_MaxTotalSizePerPod gp) (v_maxTotalSizePerPod v);
     v_maxTotalSizePerContainer :=
       set_size (gp_MaxTotalSizePerContainer gp) (v_maxTotalSizePerContainer v);
     v_maxTotalSizePerNamespace :=
       set_size (gp_MaxTotalSizePerNamespace gp) (v_maxTotalSizePerNamespace v);
     v_containerPolicies := v_containerPolicies v;
     v_podPolicies := v_podPolicies v;
     v_namespacePolicies := v_namespacePolicies v |}.

(** [var x []T; if len(l) > 0 { x = l }] *)
Definition if_nonempty {A} (l : list A) : list A :=
  if (0 <? length l)%nat then l else [].

Definition handleSpecificPolicies (v : policyVars) (spec : CheckpointRestoreOperatorSpec) : policyVars :=
  {| v_checkpointDirectory := v_checkpointDirectory v;
     v_retainOrphan := v_retainOrphan v;
     v_maxCheckpointsPerContainer := v_maxCheckpointsPerContainer v;
     v_maxCheckpointsPerPod := v_maxCheckpointsPerPod v;
     v_maxCheckpointsPerNamespace := v_maxCheckpointsPerNamespace v;
     v_maxCheckpointSize := v_maxCheckpointSize v;
     v_maxTotalSizePerPod := v_maxTotalSizePerPod v;
     v_maxTotalSizePerContainer := v_maxTotalSizePerContainer v;
     v_maxTotalSizePerNamespace := v_maxTotalSizePerNamespace v;
     v_containerPolicies := if_nonempty (ContainerPolicies spec);
     v_podPolicies := if_nonempty (PodPolicies spec);
     v_namespacePolicies := if_nonempty (NamespacePolicies spec) |}.

(** ** Snapshots *)

Definition copyBoolPtr (value : option bool) : option bool :=
  match value with None => None | Some copied => Some copied end.
Definition copyIntPtr (value : option Z) : option Z :=
  match value with None => None | Some copied => Some copied end.
Definition copyQuantityPtr (value : option Quantity) : option Quantity :=
  match value with None => None | Some copied => Some copied end.

Definition copyContainerPolicies (policies : list ContainerPolicySpec) : list ContainerPolicySpec :=
  map (fun p => {| cp_Namespace := cp_Namespace p; cp_Pod := cp_Pod p;
                   cp_Container := cp_Container p;
                   cp_RetainOrphan := copyBoolPtr (cp_RetainOrphan p);
                   cp_MaxCheckpoints := copyIntPtr (cp_MaxCheckpoints p);
                   cp_MaxCheckpointSize := copyQuantityPtr (cp_MaxCheckpointSize p);
                   cp_MaxTotalSize := copyQuantityPtr (cp_MaxTotalSize p) |}) policies.

Definition copyPodPolicies (policies : list PodPolicySpec) : list PodPolicySpec :=
  map (fun p => {| pp_Namespace := pp_Namespace p; pp_Pod := pp_Pod p;
                   pp_RetainOrphan := copyBoolPtr (pp_RetainOrphan p);
                   pp_MaxCheckpoints := copyIntPtr (pp_MaxCheckpoints p);
                   pp_MaxCheckpointSize := copyQuantityPtr (pp_MaxCheckpointSize p);
                   pp_MaxTotalSize := copyQuantityPtr (pp_MaxTotalSize p) |}) policies.

Definition copyNamespacePolicies (policies : list NamespacePolicySpec) : list NamespacePolicySpec :=
  map (fun p => {| np_Namespace := np_Namespace p;
                   np_RetainOrphan := copyBoolPtr (np_RetainOrphan p);
                   np_MaxCheckpoints := copyIntPtr (np_MaxCheckpoints p);
                   np_MaxCheckpointSize := copyQuantityPtr (np_MaxCheckpointSize p);
                   np_MaxTotalSize := copyQuantityPtr (np_MaxTotalSize p) |}) policies.

Definition currentPolicySnapshot (v : policyVars) : policySnapshot :=
  {| checkpointDirectory := v_checkpointDirectory v;
     retainOrphan := match v_retainOrphan v with Some b => b | None => true end;
     maxCheckpointsPerContainer := v_maxCheckpointsPerContainer v;
     maxCheckpointsPerPod := v_maxCheckpointsPerPod v;
     maxCheckpointsPerNamespace := v_maxCheckpointsPerNamespace v;
     maxCheckpointSize := v_maxCheckpointSize v;
     maxTotalSizePerPod := v_maxTotalSizePerPod v;
     maxTotalSizePerContainer := v_maxTotalSizePerContainer v;
     maxTotalSizePerNamespace := v_maxTotalSizePerNamespace v;
     containerPolicies := copyContainerPolicies (v_containerPolicies v);
     podPolicies := copyPodPolicies (v_podPolicies v);
     namespacePolicies := copyNamespacePolicies (v_namespacePolicies v) |}.

Definition set_directory (v : policyVars) (d : string) : policyVars :=
  {| v_checkpointDirectory := d;
     v_retainOrphan := v_retainOrphan v;
     v_maxCheckpointsPerContainer := v_maxCheckpointsPerContainer v;
     v_maxCheckpointsPerPod := v_maxCheckpointsPerPod v;
     v_maxCheckpointsPerNamespace := v_maxCheckpointsPerNamespace v;
     v_maxCheckpointSize := v_maxCheckpointSize v;
     v_maxTotalSizePerPod := v_maxTotalSizePerPod v;
     v_maxTotalSizePerContainer := v_maxTotalSizePerContainer v;
     v_maxTotalSizePerNamespace := v_maxTotalSizePerNamespace v;
     v_containerPolicies := v_containerPolicies v;
     v_podPolicies := v_podPolicies v;
     v_namespacePolicies := v_namespacePolicies v |}.

(** The snapshot, whether the garbage collector must restart, and the new
    variables. *)
Definition applyPolicySpec (v : policyVars) (spec : CheckpointRestoreOperatorSpec)
  : policySnapshot * bool * policyVars :=
  let v := resetAllPoliciesToDefault v in
  let v := handleGlobalPolicies v (GlobalPolicies spec) in
  let v := handleSpecificPolicies v spec in
  if negb (CheckpointDirectory spec =? "")%string
     && negb (CheckpointDirectory spec =? v_checkpointDirectory v)%string
  then let v := set_directory v (CheckpointDirectory spec) in
       (currentPolicySnapshot v, true, v)
  else (currentPolicySnapshot v, false, v).

(** ** Which policy applies *)

Record checkpointDetails := {
  namespace : string;
  pod : string;
  container : string
}.

Definition findContainerPolicy (policies : policySnapshot) (details : checkpointDetails)
  : option ContainerPolicySpec :=
  List.find (fun policy => (cp_Namespace policy =? namespace details)%string
                           && (cp_Pod policy =? pod details)%string
                           && (cp_Container policy =? container details)%string)
    (containerPolicies policies).

Definition findPodPolicy (policies : policySnapshot) (details : checkpointDetails)
  : option PodPolicySpec :=
  List.find (fun policy => (pp_Namespace policy =? namespace details)%string
                           && (pp_Pod policy =? pod details)%string)
    (podPolicies policies).

Definition findNamespacePolicy (policies : policySnapshot) (details : checkpointDetails)
  : option NamespacePolicySpec :=
  List.find (fun policy => np_Namespace policy =? namespace details)%string
    (namespacePolicies policies).

Record Policy := {
  RetainOrphan : bool;
  MaxCheckpoints : Z;
  MaxCheckpointSize : Quantity;
  MaxTotalSize : Quantity
}.

Definition toInfinityCount (value : option Z) : Z :=
  match value with None => MaxInt32 | Some n => n end.
Definition toInfinitySize (value : option Quantity) : Quantity :=
  match value with None => Q1Ei | Some q => q end.
Definition ifNil (value : option bool) : bool :=
  match value with None => true | Some b => b end.

(** ** Lemmas *)

Lemma copyContainerPolicies_id l : copyContainerPolicies l = l.
Proof.
  unfold copyContainerPolicies. rewrite <- (map_id l) at 2. apply map_ext.
  intros [? ? ? [] [] [] []]; reflexivity.
Qed.

Lemma copyPodPolicies_id l : copyPodPolicies l = l.
Proof.
  unfold copyPodPolicies. rewrite <- (map_id l) at 2. apply map_ext.
  intros [? ? [] [] [] []]; reflexivity.
Qed.

Lemma copyNamespacePolicies_id l : copyNamespacePolicies l = l.
Proof.
  unfold copyNamespacePolicies. rewrite <- (map_id l) at 2. apply map_ext.
  intros [? [] [] [] []]; reflexivity.
Qed.

Lemma if_nonempty_id {A} (l : list A) : if_nonempty l = l.
Proof. by destruct l. Qed.

(** The limit a count field of the spec stands for. *)
Definition effective_count (p : option Z) (d : Z) : Z :=
  match p with Some n => if n <? 0 then d else n | None => d end.

Lemma set_count_effective p d : set_count p d = effective_count p d.
Proof. destruct p as [n|]; simpl; [|done]. rewrite Z.ltb_antisym. by destruct (0 <=? n). Qed.

(** A spec determines the policies: whatever was configured before, after
    [applyPolicySpec] the snapshot holds the spec's own values, with the defaults
    10/20/30 (and for negative counts), one exbibyte for sizes and retained orphans for
    what it leaves out; only the directory is inherited, and the collector is
    restarted exactly when the spec names another one. *)
Theorem applyPolicySpec_exact v spec :
  let gp := GlobalPolicies spec in
  let dir := if (CheckpointDirectory spec =? "")%string then v_checkpointDirectory v
             else CheckpointDirectory spec in
  let '(snap, restart, v') := applyPolicySpec v spec in
  snap = {| checkpointDirectory := dir;
            retainOrphan := default true (gp_RetainOrphan gp);
            maxCheckpointsPerContainer := effective_count (gp_MaxCheckpointsPerContainer gp) 10;
            maxCheckpointsPerPod := effective_count (gp_MaxCheckpointsPerPod gp) 20;
            maxCheckpointsPerNamespace := effective_count (gp_MaxCheckpointsPerNamespaces gp) 30;
            maxCheckpointSize := default Q1Ei (gp_MaxCheckpointSize gp);
            maxTotalSizePerPod := default Q1Ei (gp_MaxTotalSizePerPod gp);
            maxTotalSizePerContainer := default Q1Ei (gp_MaxTotalSizePerContainer gp);
            maxTotalSizePerNamespace := default Q1Ei (gp_MaxTotalSizePerNamespace gp);
            containerPolicies := ContainerPolicies spec;
            podPolicies := PodPolicies spec;
            namespacePolicies := NamespacePolicies spec |} /\
  snap = currentPolicySnapshot v' /\
  (restart = true <-> dir <> v_checkpointDirectory v).
Proof.
  unfold applyPolicySpec.
  destruct (CheckpointDirectory spec =? "")%string eqn:E1; simpl;
    [|destruct (CheckpointDirectory spec =? v_checkpointDirectory v)%string eqn:E2; simpl];
    to_prop; (split; [|split]); try done; try (by split; congruence);
    unfold currentPolicySnapshot; simpl;
    rewrite copyContainerPolicies_id, copyPodPolicies_id, copyNamespacePolicies_id, !if_nonempty_id,
      !set_count_effective; try rewrite E2;
    destruct (gp_RetainOrphan (GlobalPolicies spec)); reflexivity.
Qed.

(** A second application of the same spec changes nothing and never restarts
    the collector. *)
Lemma applyPolicySpec_idempotent v spec :
  let '(snap, _, v') := applyPolicySpec v spec in
  applyPolicySpec v' spec = (snap, false, v').
Proof.
  unfold applyPolicySpec.
  destruct (CheckpointDirectory spec =? "")%string eqn:E1; simpl; rewrite ?E1; simpl.
  - reflexivity.
  - destruct (CheckpointDirectory spec =? v_checkpointDirectory v)%string eqn:E2; simpl;
      rewrite ?E1, ?E2, ?String.eqb_refl; simpl; reflexivity.
Qed.
