(* ===== verification/Retention.v ===== *)
(** * The retention garbage collector
    ([checkpointrestoreoperator_controller.go]: [handleCheckpointsForLevel] and
    everything around it)

    One evaluation of a retention policy: which archives are in scope, orphan
    deletion, per-file size limit, count rotation, total-size rotation, and the
    edge-triggered report of limits that pinned archives make unreachable.  Log
    lines are dropped except that report.  The Kubernetes API, the archive
    reader's codecs and [sort.Slice] are parameters. *)

From S2P Require Import Prelude GoStrings GoPath Kube GoSystem GlobFacts Api Pinning Archive Policies.
Open Scope string_scope.
Open Scope list_scope.
Open Scope Z_scope.

(** ** Parameters and state *)

(** What the collector finds of the cluster: the in-cluster configuration and the
    client made from it, or the error, and the answers of the API server. *)
Record Cluster := {
  cl_InClusterConfig : result string unit;
  cl_NewForConfig : result string unit;
  cl_GetPod : string -> string -> result apierror Pod;
  cl_GetNamespace : string -> result apierror unit
}.

(** ** Cluster lookups *)

Definition getKubernetesClient (c : Cluster) : result string unit :=
  match cl_InClusterConfig c with Err e => Err e | Ok _ => cl_NewForConfig c end.

Definition getPodFromNamespace (c : Cluster) (namespace podName : string) : result apierror Pod :=
  match getKubernetesClient c with
  | Err e => Err (APIFailure ("failed to create Kubernetes client: " +:+ e))
  | Ok _ => cl_GetPod c namespace podName
  end.

Definition getNamespace (c : Cluster) (namespace : string) : result apierror unit :=
  match getKubernetesClient c with
  | Err e => Err (APIFailure ("failed to create Kubernetes client: " +:+ e))
  | Ok _ => cl_GetNamespace c namespace
  end.

(** A "retention limit unreachable" message: its key and the pinned archives. *)
Record unreachable_report := {
  rep_key : string;
  rep_pinned : list string
}.

(** The checkpoint directory, [retentionUnreachableState] and the reports
    logged so far. *)
Record gc_state := {
  g_fs : FS;
  retentionUnreachableState : gmap string string;
  g_reports : list unreachable_report
}.

Definition with_fs (g : gc_state) (fs : FS) : gc_state :=
  {| g_fs := fs; retentionUnreachableState := retentionUnreachableState g; g_reports := g_reports g |}.

Inductive RetentionPolicy := ByCount | BySize.

(** [fi.Size()] and [fi.ModTime()] *)
Definition fi_Size (n : node) : Z := match n with NFile f => f_size f | NDir => 0 end.
Definition fi_ModTime (n : node) : Time := match n with NFile f => f_mtime f | NDir => 0 end.

Section Retention.
Context (env : ArchiveEnv) (cluster : Cluster).
Context (sort_slice : forall A : Type, (A -> A -> bool) -> list A -> list A).

Definition getCheckpointArchiveInformation (now : Time) (fs : FS) (checkpointPath : string)
  : result ArchiveError checkpointDetails :=
  match ReadPodContainerRef env now fs checkpointPath with
  | Err e => Err e
  | Ok r => Ok {| namespace := ref_Namespace r; pod := ref_Pod r; container := ref_Container r |}
  end.

(** ** The existence check behind orphan deletion *)

Inductive cluster_error := ClusterAPI (e : apierror) | InvalidLevel (level : string).

Definition resourceExistsInCluster (level : string) (details : checkpointDetails)
  : bool * option cluster_error :=
  if (level =? "container")%string then
    match getPodFromNamespace cluster (namespace details) (pod details) with
    | Err e => if IsNotFound e then (false, None) else (false, Some (ClusterAPI e))
    | Ok p => if existsb (fun c => (c_name c =? container details)%string) (Containers (p_spec p))
              then (true, None) else (false, None)
    end
  else if (level =? "pod")%string then
    match getPodFromNamespace cluster (namespace details) (pod details) with
    | Err e => if IsNotFound e then (false, None) else (false, Some (ClusterAPI e))
    | Ok _ => (true, None)
    end
  else if (level =? "namespace")%string then
    match getNamespace cluster (namespace details) with
    | Err e => if IsNotFound e then (false, None) else (false, Some (ClusterAPI e))
    | Ok _ => (true, None)
    end
  else (false, Some (InvalidLevel level)).

(** ** The unreachable report *)

Definition pinnedNames (paths : list string) : list string := Base <$> paths.

(** Whether the blocking set changed, and the recorded state. *)
Definition logRetentionUnreachableChanged (st : gmap string string) (key : string)
    (pinned : list string) : bool * gmap string string :=
  let cur := Join "," (pinnedNames pinned) in
  if (default "" (st !! key) =? cur)%string then (false, st)
  else (true, <[key := cur]> st).

Definition clearRetentionUnreachable (st : gmap string string) (key : string) : gmap string string :=
  delete key st.

(** Report a breached limit, or forget that it was. *)
Definition report_unreachable (g : gc_state) (breached : bool) (key : string)
    (pinned : list string) : gc_state :=
  if breached then
    let '(changed, st) := logRetentionUnreachableChanged (retentionUnreachableState g) key pinned in
    {| g_fs := g_fs g; retentionUnreachableState := st;
       g_reports := if changed then g_reports g ++ [ {| rep_key := key; rep_pinned := pinnedNames pinned |} ]
                    else g_reports g |}
  else {| g_fs := g_fs g;
          retentionUnreachableState := clearRetentionUnreachable (retentionUnreachableState g) key;
          g_reports := g_reports g |}.

(** ** Selecting archives to delete *)

(** The [less] function: archives that cannot be statted are not less. *)
Definition older (fs : FS) (a b : string) : bool :=
  match os_Stat fs a with
  | None => false
  | Some fileInfo1 =>
      match os_Stat fs b with
      | None => false
      | Some fileInfo2 => fi_ModTime fileInfo1 <? fi_ModTime fileInfo2
      end
  end.

(** The loop of the [BySize] case. *)
Fixpoint take_until_excess (archiveSizes : gmap string Z) (excess : Z) (archives : list string)
  : list string :=
  match archives with
  | [] => []
  | archive :: rest =>
      let excess := int64 (excess - default 0 (archiveSizes !! archive)) in
      archive :: (if excess <=? 0 then [] else take_until_excess archiveSizes excess rest)
  end.

(** The selection, and the slice [archives] as the in-place sort leaves it. *)
Definition selectArchivesToDelete (fs : FS) (archives : list string) (archiveSizes : gmap string Z)
    (excess : Z) (policy : RetentionPolicy) : list string * list string :=
  let archives := sort_slice string (older fs) archives in
  match policy with
  | ByCount => (take (Z.to_nat excess) archives, archives)
  | BySize => (take_until_excess archiveSizes excess archives, archives)
  end.

(** ** One evaluation of a policy *)

Definition level_pattern (policies : policySnapshot) (details : checkpointDetails) (level : string)
  : string :=
  if (level =? "container")%string then
    FileJoin (checkpointDirectory policies)
      ("checkpoint-" +:+ pod details +:+ "_" +:+ namespace details +:+ "-" +:+ container details +:+
       "-[0-9][0-9][0-9][0-9]-[0-2][0-9]-[0-3][0-9]T[0-2][0-9]:[0-5][0-9]:[0-6][0-9]*.tar")
  else if (level =? "pod")%string then
    FileJoin (checkpointDirectory policies)
      ("checkpoint-" +:+ pod details +:+ "_" +:+ namespace details +:+ "-*-*.tar")
  else if (level =? "namespace")%string then
    FileJoin (checkpointDirectory policies)
      ("checkpoint-*_" +:+ namespace details +:+ "-*-*.tar")
  else "".

Definition is_some {A} (o : option A) : bool := match o with Some _ => true | None => false end.

(** Whether an archive found by the glob is subject to this level. *)
Definition in_scope (policies : policySnapshot) (now : Time) (fs : FS) (level archive : string) : bool :=
  match getCheckpointArchiveInformation now fs archive with
  | Err _ => false
  | Ok archiveDetails =>
      negb (((level =? "pod")%string && is_some (findContainerPolicy policies archiveDetails)) ||
            ((level =? "namespace")%string &&
             (is_some (findContainerPolicy policies archiveDetails) ||
              is_some (findPodPolicy policies archiveDetails))))
  end.

Definition level_scope (details : checkpointDetails) (level : string) : string :=
  if (level =? "pod")%string then namespace details +:+ "/" +:+ pod details
  else if (level =? "namespace")%string then namespace details
  else namespace details +:+ "/" +:+ pod details +:+ "/" +:+ container details.

(** The orphan branch: delete everything unpinned. *)
Fixpoint delete_orphans (fs : FS) (archives : list string) : FS :=
  match archives with
  | [] => fs
  | archive :: rest =>
      if isCheckpointPinned fs archive then delete_orphans fs rest
      else delete_orphans (removeArchiveUnlessPinned fs archive) rest
  end.

(** What the accounting loop carries. *)
Record accounting := {
  a_fs : FS;
  checkpointArchivesCounter : Z;
  totalSize : Quantity;
  archiveSizes : gmap string Z;
  deletableCandidates : list string
}.

Definition account (policy : Policy) (acc : accounting) (c : string) : accounting :=
  match os_Stat (a_fs acc) c with
  | None => acc
  | Some fi =>
      let currentSize := NewQuantity (fi_Size fi) in
      let counted := {| a_fs := a_fs acc;
                        checkpointArchivesCounter := checkpointArchivesCounter acc;
                        totalSize := totalSize acc + currentSize;
                        archiveSizes := <[c := fi_Size fi]> (archiveSizes acc);
                        deletableCandidates := deletableCandidates acc |} in
      match Cmp (MaxCheckpointSize policy) currentSize with
      | Lt =>
          if isCheckpointPinned (a_fs acc) c then counted
          else {| a_fs := removeArchiveUnlessPinned (a_fs acc) c;
                  checkpointArchivesCounter := checkpointArchivesCounter acc - 1;
                  totalSize := totalSize acc;
                  archiveSizes := archiveSizes acc;
                  deletableCandidates := deletableCandidates acc |}
      | _ =>
          if isCheckpointPinned (a_fs acc) c then counted
          else {| a_fs := a_fs counted;
                  checkpointArchivesCounter := checkpointArchivesCounter counted;
                  totalSize := totalSize counted;
                  archiveSizes := archiveSizes counted;
                  deletableCandidates := deletableCandidates acc ++ [c] |}
      end
  end.

(** The deletion loop of the count phase. *)
Fixpoint delete_by_count (fs : FS) (counter max : Z) (toDelete : list string) : FS * Z :=
  match toDelete with
  | [] => (fs, counter)
  | archive :: rest =>
      let fs := removeArchiveUnlessPinned fs archive in
      let counter := counter - 1 in
      if counter <=? max then (fs, counter) else delete_by_count fs counter max rest
  end.

(** The deletion loop of the size phase. *)
Fixpoint delete_by_size (fs : FS) (total : Quantity) (sizes : gmap string Z) (max : Quantity)
    (toDelete : list string) : FS * Quantity :=
  match toDelete with
  | [] => (fs, total)
  | archive :: rest =>
      let fs := removeArchiveUnlessPinned fs archive in
      let total := total - NewQuantity (default 0 (sizes !! archive)) in
      let sizes := delete archive sizes in
      if max <? total then delete_by_size fs total sizes max rest else (fs, total)
  end.

(** Count phase: the file system, the counter and the candidates afterwards. *)
Definition count_phase (policy : Policy) (acc : accounting) : FS * Z * list string :=
  let counter := checkpointArchivesCounter acc in
  if (0 <? MaxCheckpoints policy) && (MaxCheckpoints policy <? counter) then
    let excessCount := counter - MaxCheckpoints policy in
    let '(toDelete, candidates) :=
      selectArchivesToDelete (a_fs acc) (deletableCandidates acc) (archiveSizes acc) excessCount ByCount in
    let '(fs, counter) := delete_by_count (a_fs acc) counter (MaxCheckpoints policy) toDelete in
    (fs, counter, candidates)
  else (a_fs acc, counter, deletableCandidates acc).

(** Size phase: the file system and the total size afterwards. *)
Definition size_phase (policy : Policy) (fs : FS) (total : Quantity) (sizes : gmap string Z)
    (candidates : list string) : FS * Quantity :=
  if MaxTotalSize policy <? total then
    let excessSize := total - MaxTotalSize policy in
    let '(toDelete, _) := selectArchivesToDelete fs candidates sizes (Value excessSize) BySize in
    delete_by_size fs total sizes (MaxTotalSize policy) toDelete
  else (fs, total).

(** The part of [handleCheckpointsForLevel] after the scope is known. *)
Definition enforce_limits (policy : Policy) (level scope : string) (filteredArchives : list string)
    (g : gc_state) : gc_state :=
  let pinned := (partitionArchives (g_fs g) filteredArchives).2 in
  let acc := fold_left (account policy) filteredArchives
               {| a_fs := g_fs g; checkpointArchivesCounter := Z.of_nat (length filteredArchives);
                  totalSize := 0; archiveSizes := ∅; deletableCandidates := [] |} in
  let '(fs1, counter, candidates) := count_phase policy acc in
  let g := report_unreachable (with_fs g fs1) (MaxCheckpoints policy <? counter)
             (level +:+ "|count|" +:+ scope) pinned in
  let '(fs2, total) := size_phase policy fs1 (totalSize acc) (archiveSizes acc) candidates in
  report_unreachable (with_fs g fs2) (MaxTotalSize policy <? total)
    (level +:+ "|size|" +:+ scope) pinned.

Definition handleCheckpointsForLevel (policies : policySnapshot) (now : Time)
    (details : checkpointDetails) (level : string) (policy : Policy) (g : gc_state) : gc_state :=
  if MaxCheckpoints policy <=? 0 then g
  else if Value (MaxCheckpointSize policy) <=? 0 then g
  else if Value (MaxTotalSize policy) <=? 0 then g
  else
    match Glob (g_fs g) (level_pattern policies details level) with
    | None => g
    | Some checkpointArchives =>
        let filteredArchives :=
          List.filter (in_scope policies now (g_fs g) level) checkpointArchives in
        if negb (RetainOrphan policy) && negb (fst (resourceExistsInCluster level details)) then
          with_fs g (delete_orphans (g_fs g) filteredArchives)
        else enforce_limits policy level (level_scope details level) filteredArchives g
    end.

(** ** Which levels are evaluated *)

Definition applyPolicies (policies : policySnapshot) (now : Time) (details : checkpointDetails)
    (g : gc_state) : gc_state :=
  match findContainerPolicy policies details with
  | Some policy =>
      handleCheckpointsForLevel policies now details "container"
        {| RetainOrphan := ifNil (cp_RetainOrphan policy);
           MaxCheckpoints := toInfinityCount (cp_MaxCheckpoints policy);
           MaxCheckpointSize := toInfinitySize (cp_MaxCheckpointSize policy);
           MaxTotalSize := toInfinitySize (cp_MaxTotalSize policy) |} g
  | None =>
  match findPodPolicy policies details with
  | Some policy =>
      handleCheckpointsForLevel policies now details "pod"
        {| RetainOrphan := ifNil (pp_RetainOrphan policy);
           MaxCheckpoints := toInfinityCount (pp_MaxCheckpoints policy);
           MaxCheckpointSize := toInfinitySize (pp_MaxCheckpointSize policy);
           MaxTotalSize := toInfinitySize (pp_MaxTotalSize policy) |} g
  | None =>
  match findNamespacePolicy policies details with
  | Some policy =>
      handleCheckpointsForLevel policies now details "namespace"
        {| RetainOrphan := ifNil (np_RetainOrphan policy);
           MaxCheckpoints := toInfinityCount (np_MaxCheckpoints policy);
           MaxCheckpointSize := toInfinitySize (np_MaxCheckpointSize policy);
           MaxTotalSize := toInfinitySize (np_MaxTotalSize policy) |} g
  | None =>
      let g := handleCheckpointsForLevel policies now details "container"
        {| RetainOrphan := retainOrphan policies;
           MaxCheckpoints := maxCheckpointsPerContainer policies;
           MaxCheckpointSize := maxCheckpointSize policies;
           MaxTotalSize := maxTotalSizePerContainer policies |} g in
      let g := handleCheckpointsForLevel policies now details "pod"
        {| RetainOrphan := retainOrphan policies;
           MaxCheckpoints := maxCheckpointsPerPod policies;
           MaxCheckpointSize := maxCheckpointSize policies;
           MaxTotalSize := maxTotalSizePerPod policies |} g in
      handleCheckpointsForLevel policies now details "namespace"
        {| RetainOrphan := retainOrphan policies;
           MaxCheckpoints := maxCheckpointsPerNamespace policies;
           MaxCheckpointSize := maxCheckpointSize policies;
           MaxTotalSize := maxTotalSizePerNamespace policies |} g
  end
  end
  end.

(** The last details read for each key; the order of the map's iteration is
    not specified by Go and is a parameter of [applyPoliciesImmediately]. *)
Definition details_key (details : checkpointDetails) : string :=
  namespace details +:+ "/" +:+ pod details +:+ "/" +:+ container details.

Definition categorizeCheckpoints (now : Time) (fs : FS) (checkpointFiles : list string)
  : gmap string checkpointDetails :=
  fold_left (fun m checkpointFile =>
               match getCheckpointArchiveInformation now fs checkpointFile with
               | Err _ => m
               | Ok details => <[details_key details := details]> m
               end) checkpointFiles ∅.

Definition applyPoliciesImmediately (policies : policySnapshot) (now : Time)
    (iteration : gmap string checkpointDetails -> list checkpointDetails) (g : gc_state) : gc_state :=
  match Glob (g_fs g) (FileJoin (checkpointDirectory policies) "checkpoint-*_*-*-*.tar") with
  | None => g
  | Some checkpointFiles =>
      if (length checkpointFiles =? 0)%nat then g
      else fold_left (fun g details => applyPolicies policies now details g)
             (iteration (categorizeCheckpoints now (g_fs g) checkpointFiles)) g
  end.

Definition getContainerNames (p : Pod) : list string := c_name <$> Containers (p_spec p).

(** Every call of [applyPolicies] takes a new snapshot of the variables. *)
Definition handlePodDeleted (vars : policyVars) (now : Time) (p : Pod) (g : gc_state) : gc_state :=
  fold_left (fun g containerName =>
               applyPolicies (currentPolicySnapshot vars) now
                 {| namespace := p_namespace p; pod := p_name p; container := containerName |} g)
    (getContainerNames p) g.

End Retention.
