(* ===== verification/RetentionProofs.v ===== *)
(** * Correctness of the retention garbage collector

    The closed forms of the collector's loops, the refinement of
    [handleCheckpointsForLevel] by "delete the shortest oldest-first prefix that
    meets the limits", and its consequences: pinned archives stay, limits hold
    afterwards, the oldest go first, and orphan deletion. *)

From S2P Require Import Prelude GoStrings GoPath Kube GoSystem GlobFacts Api Pinning Archive Policies Retention.
Open Scope string_scope.
Open Scope list_scope.
Open Scope Z_scope.

(** ** Removing a list of archives *)

Definition remove_all (fs : FS) (l : list string) : FS := fold_left removeArchiveUnlessPinned l fs.

(** An archive the collector can delete: an unpinned, writable file. *)
Definition removable (fs : FS) (a : string) : bool :=
  negb (isCheckpointPinned fs a) && negb (bool_decide (a ∈ fs_nowrite fs)) &&
  match fs_nodes fs !! a with Some (NFile _) => true | _ => false end.

Lemma FS_eq fs fs' :
  fs_nodes fs = fs_nodes fs' -> fs_nowrite fs = fs_nowrite fs' -> fs_noread fs = fs_noread fs' ->
  fs = fs'.
Proof. destruct fs, fs'. simpl. congruence. Qed.

Lemma remove_one_spec fs a :
  removeArchiveUnlessPinned fs a =
  if removable fs a then with_nodes fs (delete a (fs_nodes fs)) else fs.
Proof.
  unfold removeArchiveUnlessPinned, removable, os_Remove.
  destruct (isCheckpointPinned fs a); simpl; [done|].
  destruct (fs_nodes fs !! a) as [[]|]; simpl; rewrite ?andb_false_r; try done.
  by destruct (bool_decide _).
Qed.

Lemma with_nodes_delete_pinned fs a q :
  is_archive a ->
  isCheckpointPinned (with_nodes fs (delete a (fs_nodes fs))) q = isCheckpointPinned fs q.
Proof.
  intros Ha. unfold isCheckpointPinned, os_Stat. simpl. fold (keep_path q).
  rewrite lookup_delete_ne; [done|]. by apply archive_ne_keep.
Qed.

Lemma remove_one_pinned fs a q :
  is_archive a -> isCheckpointPinned (removeArchiveUnlessPinned fs a) q = isCheckpointPinned fs q.
Proof.
  intros Ha. rewrite remove_one_spec. destruct (removable fs a); [|done].
  by apply with_nodes_delete_pinned.
Qed.

Lemma remove_one_removable fs a q :
  is_archive a -> q <> a -> removable (removeArchiveUnlessPinned fs a) q = removable fs q.
Proof.
  intros Ha Hq. unfold removable at 1. rewrite remove_one_pinned by done.
  rewrite remove_one_spec. destruct (removable fs a); [|done]. simpl.
  rewrite lookup_delete_ne by done. done.
Qed.

Lemma remove_all_meta fs l :
  fs_nowrite (remove_all fs l) = fs_nowrite fs /\ fs_noread (remove_all fs l) = fs_noread fs.
Proof.
  revert fs. induction l as [|a l IH]; intros fs; simpl; [done|].
  destruct (IH (removeArchiveUnlessPinned fs a)) as [-> ->].
  rewrite remove_one_spec. by destruct (removable fs a).
Qed.

Lemma remove_all_pinned fs l q :
  Forall is_archive l -> isCheckpointPinned (remove_all fs l) q = isCheckpointPinned fs q.
Proof.
  intros H. revert fs. induction H as [|a l Ha _ IH]; intros fs; simpl; [done|].
  by rewrite IH, remove_one_pinned.
Qed.

(** What is left after removing a list of archives. *)
Lemma remove_all_lookup fs l q :
  Forall is_archive l ->
  fs_nodes (remove_all fs l) !! q =
  if bool_decide (q ∈ l) && removable fs q then None else fs_nodes fs !! q.
Proof.
  intros H. revert fs. induction H as [|a l Ha _ IH]; intros fs; simpl; [done|].
  rewrite IH. destruct (decide (q = a)) as [->|Hq].
  - rewrite (bool_decide_eq_true_2 (a ∈ a :: l)) by left. simpl.
    rewrite remove_one_spec. destruct (removable fs a) eqn:Er.
    + simpl. rewrite lookup_delete_eq. by destruct (_ && _).
    + by rewrite Er, andb_false_r.
  - rewrite remove_one_removable by done.
    rewrite (bool_decide_ext (q ∈ a :: l) (q ∈ l)) by (rewrite elem_of_cons; naive_solver).
    rewrite remove_one_spec. destruct (removable fs a); [|done]. simpl.
    by rewrite lookup_delete_ne.
Qed.

Lemma remove_all_app fs l1 l2 : remove_all fs (l1 ++ l2) = remove_all (remove_all fs l1) l2.
Proof. apply fold_left_app. Qed.

(** Only the set of archives matters. *)
Lemma remove_all_set fs l l' :
  Forall is_archive l -> (forall a, a ∈ l <-> a ∈ l') -> remove_all fs l = remove_all fs l'.
Proof.
  intros Hl Heq. assert (Forall is_archive l') as Hl'.
  { apply Forall_forall. intros a Ha. rewrite Forall_forall in Hl. by apply Hl, Heq. }
  destruct (remove_all_meta fs l) as [H1 H2], (remove_all_meta fs l') as [H3 H4].
  apply FS_eq; [|congruence|congruence].
  apply map_eq. intros q. rewrite !remove_all_lookup by done.
  by rewrite (bool_decide_ext _ _ (Heq q)).
Qed.

Lemma remove_all_stat_notin fs l q :
  Forall is_archive l -> q ∉ l -> os_Stat (remove_all fs l) q = os_Stat fs q.
Proof.
  intros Hl Hq. unfold os_Stat. rewrite remove_all_lookup by done.
  by rewrite bool_decide_eq_false_2.
Qed.

Lemma remove_all_stat_sub fs l q n :
  Forall is_archive l -> os_Stat (remove_all fs l) q = Some n -> os_Stat fs q = Some n.
Proof.
  intros Hl. unfold os_Stat. rewrite remove_all_lookup by done. by destruct (_ && _).
Qed.

Lemma delete_orphans_all fs l : delete_orphans fs l = remove_all fs l.
Proof.
  revert fs. induction l as [|a l IH]; intros fs; simpl; [done|].
  rewrite !IH. destruct (isCheckpointPinned fs a) eqn:E; [|done].
  unfold removeArchiveUnlessPinned. by rewrite E.
Qed.

Lemma partitionArchives_filter fs l :
  partitionArchives fs l =
  (List.filter (fun a => negb (isCheckpointPinned fs a)) l, List.filter (isCheckpointPinned fs) l).
Proof.
  induction l as [|a l IH]; simpl; [done|]. rewrite IH.
  by destruct (isCheckpointPinned fs a).
Qed.

(** ** The accounting loop in closed form *)

Definition size_of (fs : FS) (a : string) : Z :=
  match os_Stat fs a with Some n => fi_Size n | None => 0 end.

Definition oversize (policy : Policy) (fs : FS) (a : string) : bool :=
  negb (isCheckpointPinned fs a) && (MaxCheckpointSize policy <? NewQuantity (size_of fs a)).

(** What survives the per-file limit, and the part of it that may rotate. *)
Definition within_limit (policy : Policy) (fs : FS) (l : list string) : list string :=
  List.filter (fun a => negb (oversize policy fs a)) l.
Definition over_limit (policy : Policy) (fs : FS) (l : list string) : list string :=
  List.filter (oversize policy fs) l.
Definition rotatable (policy : Policy) (fs : FS) (l : list string) : list string :=
  List.filter (fun a => negb (isCheckpointPinned fs a)) (within_limit policy fs l).

Fixpoint total (fs : FS) (l : list string) : Z :=
  match l with [] => 0 | a :: l' => size_of fs a + total fs l' end.

Lemma total_app fs l l' : total fs (l ++ l') = total fs l + total fs l'.
Proof. induction l as [|a l IH]; simpl; lia. Qed.

#[export] Instance total_proper fs : Proper ((≡ₚ) ==> eq) (total fs).
Proof. intros l l'. induction 1; simpl; lia. Qed.

Lemma total_split fs (f : string -> bool) l :
  total fs (List.filter f l) + total fs (List.filter (fun a => negb (f a)) l) = total fs l.
Proof. induction l as [|a l IH]; simpl; [done|]. destruct (f a); simpl; lia. Qed.

(** The archives in scope: distinct existing files. *)
Definition scope_ok (fs : FS) (l : list string) : Prop :=
  List.NoDup l /\ Forall is_archive l /\ Forall (fun a => is_Some (os_Stat fs a)) l.

Definition account_start (fs : FS) (n : Z) : accounting :=
  {| a_fs := fs; checkpointArchivesCounter := n; totalSize := 0; archiveSizes := ∅;
     deletableCandidates := [] |}.

(** What the loop has computed after the prefix [l]. *)
Definition accounted (policy : Policy) (fs : FS) (n : Z) (l : list string) (acc : accounting) : Prop :=
  a_fs acc = remove_all fs (over_limit policy fs l) /\
  checkpointArchivesCounter acc = n - Z.of_nat (length (over_limit policy fs l)) /\
  totalSize acc = NewQuantity (total fs (within_limit policy fs l)) /\
  deletableCandidates acc = rotatable policy fs l /\
  (forall a, a ∈ within_limit policy fs l -> archiveSizes acc !! a = Some (size_of fs a)).

Lemma scope_ok_snoc fs l c :
  scope_ok fs (l ++ [c]) -> scope_ok fs l /\ is_archive c /\ is_Some (os_Stat fs c) /\ c ∉ l.
Proof.
  intros (Hnd & Ha & Hs). apply Forall_app in Ha as [Ha Hc], Hs as [Hs Hsc].
  apply Forall_cons in Hc as [Hc _], Hsc as [Hsc _].
  apply NoDup_ListNoDup, NoDup_app in Hnd as (Hnd & Hdj & _).
  split; [split; [by apply NoDup_ListNoDup|done]|]. split; [done|]. split; [done|].
  intros Hin. apply (Hdj c Hin). by left.
Qed.

Lemma over_limit_sub policy fs l a : a ∈ over_limit policy fs l -> a ∈ l.
Proof. unfold over_limit. rewrite !list_elem_of_In, filter_In. tauto. Qed.

Lemma Forall_over_limit policy fs l (P : string -> Prop) :
  Forall P l -> Forall P (over_limit policy fs l).
Proof.
  rewrite !Forall_forall. intros H a Ha. apply H. by eapply over_limit_sub.
Qed.

Lemma Cmp_Lt a b : Cmp a b = Lt <-> (a <? b) = true.
Proof. unfold Cmp. rewrite Z.compare_lt_iff, Z.ltb_lt. done. Qed.

Lemma over_limit_snoc policy fs l c :
  over_limit policy fs (l ++ [c]) = over_limit policy fs l ++ (if oversize policy fs c then [c] else []).
Proof. unfold over_limit. by rewrite List.filter_app. Qed.

Lemma within_limit_snoc policy fs l c :
  within_limit policy fs (l ++ [c]) = within_limit policy fs l ++ (if oversize policy fs c then [] else [c]).
Proof. unfold within_limit. rewrite List.filter_app. simpl. by destruct (oversize policy fs c). Qed.

Lemma rotatable_snoc policy fs l c :
  rotatable policy fs (l ++ [c]) =
  rotatable policy fs l ++ (if oversize policy fs c || isCheckpointPinned fs c then [] else [c]).
Proof.
  unfold rotatable. rewrite within_limit_snoc, List.filter_app.
  destruct (oversize policy fs c); simpl; [done|]. by destruct (isCheckpointPinned fs c).
Qed.

Lemma account_step policy fs n l c acc :
  scope_ok fs (l ++ [c]) -> accounted policy fs n l acc ->
  accounted policy fs n (l ++ [c]) (account policy acc c).
Proof.
  intros Hok (Hfs & Hcnt & Htot & Hdel & Hsz).
  apply scope_ok_snoc in Hok as ((_ & Har & _) & Hc & [nd Hs] & Hcl).
  assert (Forall is_archive (over_limit policy fs l)) as Hov by by apply Forall_over_limit.
  assert (os_Stat (a_fs acc) c = Some nd) as Hs'.
  { rewrite Hfs, remove_all_stat_notin; try done. intros Hin. by apply Hcl, (over_limit_sub policy fs). }
  assert (isCheckpointPinned (a_fs acc) c = isCheckpointPinned fs c) as Hp.
  { rewrite Hfs. by apply remove_all_pinned. }
  assert (size_of fs c = fi_Size nd) as Hsize by (unfold size_of; by rewrite Hs).
  assert (forall a, a ∈ within_limit policy fs l -> a <> c) as Hne.
  { intros a Ha ->. apply Hcl. revert Ha. unfold within_limit. rewrite !list_elem_of_In, filter_In. tauto. }
  assert (oversize policy fs c = negb (isCheckpointPinned fs c) && (MaxCheckpointSize policy <? NewQuantity (fi_Size nd)))
    as Hovc by (unfold oversize; by rewrite Hsize).
  unfold account. rewrite Hs', Hp. pose proof (Cmp_Lt (MaxCheckpointSize policy) (NewQuantity (fi_Size nd))) as Hcmp.
  unfold accounted. rewrite over_limit_snoc, within_limit_snoc, rotatable_snoc, Hovc.
  rewrite length_app, remove_all_app, total_app.
  destruct (isCheckpointPinned fs c), (Cmp _ _), (MaxCheckpointSize policy <? _); try (exfalso; intuition done);
    simpl; rewrite ?Nat2Z.inj_add, ?app_nil_r, ?Hfs, ?Htot, ?Hdel, ?Hcnt, ?Hsize; simpl; split_and!; try done; try lia;
    try (unfold NewQuantity; lia);
    try (by intros a Ha; eauto);
    (intros a Ha; apply elem_of_app in Ha as [Ha|Ha];
      [rewrite lookup_insert_ne by (apply not_eq_sym; eauto); eauto
      |apply list_elem_of_singleton in Ha as ->; by rewrite lookup_insert_eq, Hsize]).
Qed.

Lemma account_loop policy fs n l :
  scope_ok fs l -> accounted policy fs n l (fold_left (account policy) l (account_start fs n)).
Proof.
  induction l as [|c l IH] using rev_ind; intros Hok.
  - unfold accounted. simpl. split_and!; try done; [lia|]. by intros a Ha%elem_of_nil.
  - rewrite fold_left_app. simpl. apply account_step; [done|]. apply IH.
    by apply scope_ok_snoc in Hok as [Hok _].
Qed.

(** ** The rotation loops in closed form *)

Lemma delete_by_count_spec fs counter max l :
  max < counter -> Z.of_nat (length l) <= counter - max ->
  delete_by_count fs counter max l = (remove_all fs l, counter - Z.of_nat (length l)).
Proof.
  revert fs counter. induction l as [|a l IH]; intros fs counter Hm Hl; simpl in *.
  - f_equal. lia.
  - destruct (counter - 1 <=? max) eqn:E; to_prop.
    + destruct l; [|simpl in Hl; lia]. simpl. done.
    + rewrite IH by lia. f_equal. lia.
Qed.

(** How many of the oldest archives must go until the total size fits. *)
Fixpoint size_needed (fs : FS) (max t : Quantity) (l : list string) : nat :=
  match l with
  | [] => 0
  | a :: l' => if t <=? max then 0 else S (size_needed fs max (t - NewQuantity (size_of fs a)) l')
  end.

(** How many of the oldest archives must go until both limits hold. *)
Fixpoint needed (fs : FS) (maxCount : Z) (maxTotal : Quantity) (c : Z) (t : Quantity)
    (l : list string) : nat :=
  match l with
  | [] => 0
  | a :: l' =>
      if (c <=? maxCount) && (t <=? maxTotal) then 0
      else S (needed fs maxCount maxTotal (c - 1) (t - NewQuantity (size_of fs a)) l')
  end.

Definition count_needed (max c : Z) (l : list string) : nat := Nat.min (Z.to_nat (c - max)) (length l).

Lemma size_needed_small fs max t l : t <= max -> size_needed fs max t l = 0%nat.
Proof. intros H. destruct l; simpl; [done|]. destruct (t <=? max) eqn:E; [done|]. to_prop. lia. Qed.

Lemma needed_max fs maxC maxT c t l :
  Forall (fun a => 0 <= size_of fs a) l ->
  needed fs maxC maxT c t l = Nat.max (count_needed maxC c l) (size_needed fs maxT t l).
Proof.
  intros Hl. revert c t. induction Hl as [|a l Ha _ IH]; intros c t; unfold count_needed; simpl; [lia|].
  destruct (c <=? maxC) eqn:Ec, (t <=? maxT) eqn:Et; to_prop; simpl;
    rewrite ?IH; unfold count_needed; simpl.
  - assert (Z.to_nat (c - maxC) = 0%nat) as -> by lia. done.
  - assert (Z.to_nat (c - maxC) = 0%nat) as -> by lia.
    assert (Z.to_nat (c - 1 - maxC) = 0%nat) as -> by lia. done.
  - rewrite size_needed_small by (unfold NewQuantity, nano in *; lia).
    assert (Z.to_nat (c - maxC) = S (Z.to_nat (c - 1 - maxC))) as -> by lia. lia.
  - assert (Z.to_nat (c - maxC) = S (Z.to_nat (c - 1 - maxC))) as -> by lia. lia.
Qed.

Lemma Value_bound q n : q <= NewQuantity n -> 0 <= n -> Value q <= n.
Proof.
  intros Hq Hn. destruct (Z.le_gt_cases 0 q) as [H|H]; [by apply Value_le|].
  unfold Value, scale_down. pose proof (Z.quot_rem' q nano).
  pose proof (Z.rem_nonpos q nano ltac:(unfold nano; lia) ltac:(lia)).
  pose proof (Z.rem_bound_abs q nano ltac:(done)). unfold nano in *.
  destruct (Z.rem q 1000000000 =? 0); [lia|]. destruct (0 <? q) eqn:E; to_prop; lia.
Qed.

Lemma Value_shift q s : NewQuantity s < q -> 0 <= s -> Value (q - NewQuantity s) = Value q - s.
Proof.
  intros Hq Hs. apply Z.le_antisymm.
  - apply Value_le; [lia|]. pose proof (proj1 (Value_le q (Value q) ltac:(unfold NewQuantity, nano in *; lia)) ltac:(lia)).
    unfold NewQuantity in *. lia.
  - cut (Value q <= Value (q - NewQuantity s) + s); [lia|].
    apply Value_le; [unfold NewQuantity, nano in *; lia|].
    pose proof (proj1 (Value_le (q - NewQuantity s) (Value (q - NewQuantity s)) ltac:(lia)) ltac:(lia)).
    unfold NewQuantity in *. lia.
Qed.

Lemma take_until_excess_spec fs sizes max t l :
  max < t -> Value (t - max) <= MaxInt64 ->
  Forall (fun a => sizes !! a = Some (size_of fs a) /\ 0 <= size_of fs a <= MaxInt64) l ->
  take_until_excess sizes (Value (t - max)) l = take (size_needed fs max t l) l.
Proof.
  intros Ht Hv Hl. revert t Ht Hv. induction Hl as [|a l [Hs Hb] _ IH]; intros t Ht Hv; simpl; [done|].
  assert ((t <=? max) = false) as -> by (apply Z.leb_gt; lia).
  rewrite Hs. simpl. f_equal.
  assert (0 < Value (t - max)) by (apply Value_pos; lia).
  rewrite int64_id by (unfold MaxInt64 in *; lia).
  destruct (Value (t - max) - size_of fs a <=? 0) eqn:E; to_prop.
  - rewrite size_needed_small; [done|].
    assert (t - max <= NewQuantity (size_of fs a)); [|lia].
    apply Value_le; lia.
  - assert (NewQuantity (size_of fs a) < t - max) as Hlt.
    { apply Z.nle_gt. intros Hle. apply Value_le in Hle; lia. }
    rewrite <- Value_shift by lia.
    replace (t - max - NewQuantity (size_of fs a)) with (t - NewQuantity (size_of fs a) - max) by lia.
    apply IH; [lia|].
    replace (t - NewQuantity (size_of fs a) - max) with (t - max - NewQuantity (size_of fs a)) by lia.
    rewrite Value_shift; lia.
Qed.

Lemma delete_by_size_spec fs fs' sizes max t l :
  max < t -> NoDup l ->
  Forall (fun a => sizes !! a = Some (size_of fs a)) l ->
  delete_by_size fs' t sizes max (take (size_needed fs max t l) l) =
  (remove_all fs' (take (size_needed fs max t l) l),
   t - NewQuantity (total fs (take (size_needed fs max t l) l))).
Proof.
  intros Ht Hnd. revert fs' t sizes Ht. induction Hnd as [|a l Ha Hnd IH]; intros fs' t sizes Ht Hl; simpl.
  { f_equal. unfold NewQuantity. lia. }
  apply Forall_cons in Hl as [Hs Hl].
  assert ((t <=? max) = false) as -> by (apply Z.leb_gt; lia). simpl. rewrite Hs. simpl.
  destruct (max <? t - NewQuantity (size_of fs a)) eqn:E; to_prop.
  - rewrite IH; [|lia|].
    + f_equal. unfold NewQuantity. lia.
    + rewrite Forall_forall in Hl |- *. intros b Hb. rewrite lookup_delete_ne; [by apply Hl|].
      intros ->. done.
  - rewrite size_needed_small by lia. simpl. f_equal. unfold NewQuantity. lia.
Qed.

(** ** The order of deletion *)

Lemma older_spec fs a b n m :
  os_Stat fs a = Some n -> os_Stat fs b = Some m -> older fs a b = (fi_ModTime n <? fi_ModTime m).
Proof. intros Ha Hb. unfold older. by rewrite Ha, Hb. Qed.

Lemma older_strict_weak fs l :
  (forall a, a ∈ l -> is_Some (os_Stat fs a)) -> strict_weak_on (older fs) l.
Proof.
  intros H. split_and!.
  - intros x [n Hn]%H. rewrite (older_spec fs x x n n) by done. apply Z.ltb_irrefl.
  - intros x y z [n Hn]%H [m Hm]%H [k Hk]%H.
    rewrite (older_spec fs x y n m), (older_spec fs y z m k), (older_spec fs x z n k) by done.
    rewrite !Z.ltb_lt. lia.
  - intros x y z [n Hn]%H [m Hm]%H [k Hk]%H.
    rewrite (older_spec fs x y n m), (older_spec fs y z m k), (older_spec fs x z n k) by done.
    rewrite !Z.ltb_ge. lia.
Qed.

(** Removing archives only makes fewer of them comparable. *)
Lemma older_remove fs r a b :
  Forall is_archive r -> older (remove_all fs r) a b = true -> older fs a b = true.
Proof.
  intros Hr. unfold older.
  destruct (os_Stat (remove_all fs r) a) as [n|] eqn:Ea; [|done].
  destruct (os_Stat (remove_all fs r) b) as [m|] eqn:Eb; [|done].
  apply remove_all_stat_sub in Ea, Eb; [|done|done]. by rewrite Ea, Eb.
Qed.

Lemma no_inversion_remove fs r l :
  Forall is_archive r -> no_inversion (older fs) l -> no_inversion (older (remove_all fs r)) l.
Proof.
  intros Hr. unfold no_inversion. induction 1 as [|x l Hs IH Hx]; constructor; [done|].
  eapply Forall_impl; [exact Hx|]. intros y Hy. simpl in *.
  destruct (older (remove_all fs r) y x) eqn:E; [|done]. apply older_remove in E; congruence.
Qed.

Lemma take_sub {A} (n : nat) (l : list A) x : x ∈ take n l -> x ∈ l.
Proof. intros H. rewrite <- (take_drop n l). apply elem_of_app. by left. Qed.

Lemma take_take_sub {A} (n m : nat) (l : list A) x :
  (x ∈ take n l ++ take m l) <-> x ∈ take (Nat.max n m) l.
Proof.
  rewrite elem_of_app. destruct (Nat.max_spec n m) as [[H ->]|[H ->]].
  - split; [|tauto]. intros [Hx|Hx]; [|done].
    rewrite <- (Nat.min_l n m) in Hx by lia. rewrite <- take_take in Hx. by eapply take_sub.
  - split; [|tauto]. intros [Hx|Hx]; [done|].
    rewrite <- (Nat.min_r n m) in Hx by lia. rewrite Nat.min_comm, <- take_take in Hx. by eapply take_sub.
Qed.

(** Sizes the operating system reports: not negative, and their sum fits. *)
Definition sizes_ok (fs : FS) (l : list string) : Prop :=
  Forall (fun a => 0 <= size_of fs a) l /\ total fs l <= MaxInt64.

Lemma total_filter fs (f : string -> bool) l :
  Forall (fun a => 0 <= size_of fs a) l -> 0 <= total fs (List.filter f l) <= total fs l.
Proof.
  induction 1 as [|a l Ha _ IH]; simpl; [done|]. destruct (f a); simpl; lia.
Qed.

Lemma size_le_total fs l a :
  Forall (fun a => 0 <= size_of fs a) l -> a ∈ l -> size_of fs a <= total fs l.
Proof.
  intros H Ha. revert H. induction Ha as [a l|a b l _ IH]; intros H; apply Forall_cons in H as [Hb H]; simpl.
  - pose proof (total_filter fs (fun _ => true) l H) as Ht.
    rewrite list_filter_all in Ht by done. lia.
  - specialize (IH H). lia.
Qed.

Section Enforce.
Context (sort_slice : forall A : Type, (A -> A -> bool) -> list A -> list A) `{!GoSort sort_slice}.

(** Both phases over candidates [D] whose deletion order is [C]. *)
Lemma count_phase_spec policy acc :
  let C := sort_slice string (older (a_fs acc)) (deletableCandidates acc) in
  let c := checkpointArchivesCounter acc in
  let kc := count_needed (MaxCheckpoints policy) c C in
  0 < MaxCheckpoints policy ->
  Forall is_archive (deletableCandidates acc) ->
  (forall a, a ∈ deletableCandidates acc -> is_Some (os_Stat (a_fs acc) a)) ->
  exists cands,
    count_phase sort_slice policy acc = (remove_all (a_fs acc) (take kc C), c - Z.of_nat kc, cands) /\
    sort_slice string (older (remove_all (a_fs acc) (take kc C))) cands = C.
Proof.
  intros C c kc Hmax Har Hst. subst kc. unfold count_needed.
  assert (C ≡ₚ deletableCandidates acc) as HC by apply sort_slice_perm.
  assert (Forall is_archive C) as HCa by by rewrite HC.
  unfold count_phase, selectArchivesToDelete. fold c. fold C.
  assert ((0 <? MaxCheckpoints policy) = true) as -> by by apply Z.ltb_lt. simpl.
  destruct (MaxCheckpoints policy <? c) eqn:E; to_prop.
  - exists C. rewrite delete_by_count_spec; [|lia|rewrite length_take; lia].
    rewrite length_take.
    replace (take (Z.to_nat (c - MaxCheckpoints policy)) C)
      with (take (Nat.min (Z.to_nat (c - MaxCheckpoints policy)) (length C)) C)
      by (rewrite <- take_take, firstn_all; done).
    split; [done|]. apply sort_slice_ordered, no_inversion_remove; [by apply Forall_take|].
    apply sort_slice_sorted. by apply older_strict_weak.
  - exists (deletableCandidates acc).
    assert (Z.to_nat (c - MaxCheckpoints policy) = 0%nat) as -> by lia. simpl.
    split; [|done]. f_equal. f_equal. lia.
Qed.

Lemma size_phase_spec policy fs fs1 t sizes cands C :
  sort_slice string (older fs1) cands = C ->
  let ks := size_needed fs (MaxTotalSize policy) t C in
  NoDup C -> Value (t - MaxTotalSize policy) <= MaxInt64 ->
  Forall (fun a => sizes !! a = Some (size_of fs a) /\ 0 <= size_of fs a <= MaxInt64) C ->
  size_phase sort_slice policy fs1 t sizes cands =
  (remove_all fs1 (take ks C), t - NewQuantity (total fs (take ks C))).
Proof.
  intros HC ks Hnd Hv HF. subst ks. unfold size_phase, selectArchivesToDelete. rewrite HC.
  destruct (MaxTotalSize policy <? t) eqn:E; to_prop.
  - rewrite (take_until_excess_spec fs) by done. apply delete_by_size_spec; [done|done|].
    eapply Forall_impl; [exact HF|]. by intros a [? _].
  - rewrite size_needed_small by lia. simpl. f_equal. unfold NewQuantity. lia.
Qed.

(** The archives a policy deletes from a scope. *)
Definition to_delete (policy : Policy) (fs : FS) (l : list string) : list string :=
  let over := over_limit policy fs l in
  let keep := within_limit policy fs l in
  let C := sort_slice string (older (remove_all fs over)) (rotatable policy fs l) in
  over ++ take (needed fs (MaxCheckpoints policy) (MaxTotalSize policy)
                  (Z.of_nat (length keep)) (NewQuantity (total fs keep)) C) C.

Lemma report_fs g b k p : g_fs (report_unreachable g b k p) = g_fs g.
Proof.
  unfold report_unreachable. destruct b; [|done].
  by destruct (logRetentionUnreachableChanged _ _ _).
Qed.

Lemma within_over_length policy fs l :
  Z.of_nat (length l) - Z.of_nat (length (over_limit policy fs l)) = Z.of_nat (length (within_limit policy fs l)).
Proof. unfold over_limit, within_limit. pose proof (filter_negb_length (oversize policy fs) l). lia. Qed.

Lemma rotatable_sub policy fs l a :
  a ∈ rotatable policy fs l <->
  a ∈ l /\ isCheckpointPinned fs a = false /\ oversize policy fs a = false.
Proof.
  unfold rotatable, within_limit. rewrite !list_elem_of_In, !filter_In, !negb_true_iff. tauto.
Qed.

Lemma rotatable_ok policy fs l :
  scope_ok fs l ->
  NoDup (rotatable policy fs l) /\ Forall is_archive (rotatable policy fs l) /\
  (forall a, a ∈ rotatable policy fs l ->
     is_Some (os_Stat (remove_all fs (over_limit policy fs l)) a)).
Proof.
  intros (Hnd & Har & Hst). rewrite Forall_forall in Hst. split_and!.
  - apply NoDup_ListNoDup. unfold rotatable, within_limit. by repeat apply List.NoDup_filter.
  - rewrite Forall_forall in Har |- *. intros a (Ha & _)%rotatable_sub. auto.
  - intros a (Ha & _ & Ho)%rotatable_sub.
    rewrite remove_all_stat_notin; [auto|by apply Forall_over_limit|].
    unfold over_limit. rewrite list_elem_of_In, filter_In. intros [_ ?]. congruence.
Qed.

(** [enforce_limits] deletes exactly [to_delete]. *)
Lemma enforce_limits_fs policy level scope A g :
  scope_ok (g_fs g) A -> sizes_ok (g_fs g) A ->
  0 < MaxCheckpoints policy -> 0 <= MaxTotalSize policy ->
  g_fs (enforce_limits sort_slice policy level scope A g) =
  remove_all (g_fs g) (to_delete policy (g_fs g) A).
Proof.
  intros Hok [Hsz Htot] HC HT. unfold enforce_limits, to_delete. set (fs := g_fs g) in *.
  pose proof (account_loop policy fs (Z.of_nat (length A)) A Hok) as Hacc.
  unfold account_start in Hacc. destruct (fold_left _ _ _) as [fs0 c t sizes D].
  destruct Hacc as (Hfs & Hc & Ht & HD & Hs). simpl in *. subst fs0 t D.
  rewrite within_over_length in Hc. subst c.
  set (over := over_limit policy fs A) in *. set (keep := within_limit policy fs A) in *.
  destruct (rotatable_ok policy fs A Hok) as (Hnd & Har & Hst). fold over in Hst.
  set (C := sort_slice string (older (remove_all fs over)) (rotatable policy fs A)).
  assert (C ≡ₚ rotatable policy fs A) as HCp by apply sort_slice_perm.
  destruct (count_phase_spec policy {| a_fs := remove_all fs over;
      checkpointArchivesCounter := Z.of_nat (length keep); totalSize := NewQuantity (total fs keep);
      archiveSizes := sizes; deletableCandidates := rotatable policy fs A |}) as (cands & Hcp & Hsort);
    [done|done|done|]. simpl in Hcp, Hsort. fold C in Hcp, Hsort.
  set (kc := count_needed (MaxCheckpoints policy) (Z.of_nat (length keep)) C) in *.
  assert (Forall (fun a => sizes !! a = Some (size_of fs a) /\ 0 <= size_of fs a <= MaxInt64) C) as HFC.
  { rewrite HCp. apply Forall_forall. intros a (Ha & Hp & Ho)%rotatable_sub.
    rewrite Forall_forall in Hsz. split; [|split; [auto|]].
    - apply Hs. unfold keep, within_limit. rewrite list_elem_of_In, filter_In, Ho.
      by rewrite <- list_elem_of_In.
    - etransitivity; [apply (size_le_total fs A); [by apply Forall_forall|done]|done]. }
  rewrite Hcp. simpl.
  rewrite (size_phase_spec policy fs _ _ sizes cands C Hsort); [|by rewrite HCp| |done].
  - simpl. rewrite report_fs. simpl. rewrite needed_max.
    2:{ eapply Forall_impl; [exact HFC|]. simpl. lia. }
    fold kc. set (ks := size_needed _ _ _ C).
    assert (Forall is_archive C) as HCa by by rewrite HCp.
    rewrite <- (remove_all_app (remove_all fs over)), <- remove_all_app.
    apply remove_all_set.
    + apply Forall_app. split; [apply Forall_over_limit; by destruct Hok as (_ & ? & _)|].
      apply Forall_app. by split; apply Forall_take.
    + intros a. rewrite !(elem_of_app over), take_take_sub. done.
  - apply Value_bound; [|unfold MaxInt64; lia].
    pose proof (total_filter fs (fun a => negb (oversize policy fs a)) A Hsz).
    unfold keep, within_limit, NewQuantity, nano in *. lia.
Qed.

(** [needed] is at most everything, meets both limits unless it is everything,
    and is the least such number. *)
Lemma needed_spec fs maxC maxT c t l :
  let k := needed fs maxC maxT c t l in
  let fits j := c - Z.of_nat j <= maxC /\ t - NewQuantity (total fs (take j l)) <= maxT in
  (k <= length l)%nat /\ (k = length l \/ fits k) /\ (forall j, (j < k)%nat -> ~ fits j).
Proof.
  simpl. revert c t. induction l as [|a l IH]; intros c t; simpl.
  { split; [done|]. split; [by left|]. intros j Hj. lia. }
  destruct ((c <=? maxC) && (t <=? maxT)) eqn:E.
  - split; [lia|]. split; [|intros j Hj; lia]. right. to_prop. destruct E. to_prop.
    simpl. unfold NewQuantity. lia.
  - destruct (IH (c - 1) (t - NewQuantity (size_of fs a))) as (H1 & H2 & H3).
    split; [lia|]. split.
    + destruct H2 as [->|[H2 H4]]; [by left|]. right. simpl. unfold NewQuantity in *. lia.
    + intros [|j] Hj; simpl.
      * to_prop. unfold NewQuantity. destruct E; to_prop; lia.
      * intros [H4 H5]. apply (H3 j); [lia|]. unfold NewQuantity in *. lia.
Qed.

End Enforce.

(** ** The archives in scope *)

Section Scope.
Context (env : ArchiveEnv).

(** What one evaluation looks at. *)
Definition scope_of (policies : policySnapshot) (now : Time) (details : checkpointDetails)
    (level : string) (fs : FS) : list string :=
  match Glob fs (level_pattern policies details level) with
  | Some l => List.filter (in_scope env policies now fs level) l
  | None => []
  end.

Lemma level_pattern_cases policies details level :
  level_pattern policies details level = "" \/
  HasSuffix (level_pattern policies details level) ".tar" = true.
Proof.
  unfold level_pattern. destruct (level =? "container")%string; [|destruct (level =? "pod")%string;
    [|destruct (level =? "namespace")%string; [|by left]]]; right; apply FileJoin_tar;
    repeat apply HasSuffix_app; reflexivity.
Qed.

Lemma Glob_empty_pattern fs : fs_wf fs -> Glob fs "" = Some [].
Proof.
  intros Hwf. unfold Glob. simpl. unfold os_Stat.
  destruct (fs_nodes fs !! "") as [n|] eqn:E; [|done].
  by destruct (Hwf _ _ E).
Qed.

Lemma Forall_filter_bool {A} (P : A -> Prop) (f : A -> bool) (l : list A) :
  (forall x, In x l -> P x) -> Forall P (List.filter f l).
Proof. intros H. apply List.Forall_forall. intros x Hx. apply filter_In in Hx as [Hx _]. auto. Qed.

Lemma scope_of_ok policies now details level fs :
  fs_wf fs -> scope_ok fs (scope_of policies now details level fs).
Proof.
  intros Hwf. unfold scope_of. destruct (Glob fs _) as [l|] eqn:E.
  2:{ by repeat split; constructor. }
  split; [by apply List.NoDup_filter; eapply Glob_NoDup|]. split; apply Forall_filter_bool.
  - intros a Ha. destruct (level_pattern_cases policies details level) as [Hp|Hp].
    + rewrite Hp, Glob_empty_pattern in E by done. by simplify_eq.
    + by eapply Glob_tar.
  - intros a Ha. by eapply Glob_exists.
Qed.

Lemma scope_of_archives policies now details level fs :
  fs_wf fs -> Forall is_archive (scope_of policies now details level fs).
Proof. intros H. by apply scope_of_ok. Qed.
End Scope.

Lemma remove_all_wf fs l : Forall is_archive l -> fs_wf fs -> fs_wf (remove_all fs l).
Proof.
  intros Hl Hwf. eapply fs_wf_subset; [done|]. apply map_subseteq_spec. intros q n.
  rewrite remove_all_lookup by done. by destruct (_ && _).
Qed.

(** ** Only removals, on every path through the collector *)

Definition collected (fs fs' : FS) : Prop :=
  exists l, Forall is_archive l /\ fs' = remove_all fs l.

Lemma collected_refl fs : collected fs fs.
Proof. exists []. by split; [constructor|]. Qed.

Lemma collected_trans fs1 fs2 fs3 : collected fs1 fs2 -> collected fs2 fs3 -> collected fs1 fs3.
Proof.
  intros (l1 & H1 & ->) (l2 & H2 & ->). exists (l1 ++ l2).
  rewrite remove_all_app. split; [by apply Forall_app|done].
Qed.

Lemma collected_one fs a : is_archive a -> collected fs (removeArchiveUnlessPinned fs a).
Proof. intros H. exists [a]. by split; [repeat constructor|]. Qed.

#[export] Hint Resolve collected_refl collected_one : cro.

Lemma collected_wf fs fs' : collected fs fs' -> fs_wf fs -> fs_wf fs'.
Proof. intros (l & Hl & ->). by apply remove_all_wf. Qed.

(** What the collector never does. *)
Lemma collected_keeps fs fs' q :
  collected fs fs' -> isCheckpointPinned fs q = true \/ HasSuffix q ".tar" = false ->
  fs_nodes fs' !! q = fs_nodes fs !! q.
Proof.
  intros (l & Hl & ->) Hq. rewrite remove_all_lookup by done. unfold removable.
  destruct Hq as [->|Hq]; [by rewrite andb_false_r|].
  rewrite bool_decide_eq_false_2; [done|]. intros Hin.
  rewrite Forall_forall in Hl. apply Hl in Hin. unfold is_archive in Hin. congruence.
Qed.

Lemma collected_sub fs fs' : collected fs fs' -> fs_nodes fs' ⊆ fs_nodes fs.
Proof.
  intros (l & Hl & ->). apply map_subseteq_spec. intros q n.
  rewrite remove_all_lookup by done. by destruct (_ && _).
Qed.

Lemma delete_by_count_collected fs c m l :
  Forall is_archive l -> collected fs (delete_by_count fs c m l).1.
Proof.
  intros H. revert fs c. induction H as [|a l Ha _ IH]; intros fs c; simpl; [auto with cro|].
  destruct (_ <=? m); simpl; [auto with cro|]. eapply collected_trans; [by apply collected_one|apply IH].
Qed.

Lemma delete_by_size_collected fs t s m l :
  Forall is_archive l -> collected fs (delete_by_size fs t s m l).1.
Proof.
  intros H. revert fs t s. induction H as [|a l Ha _ IH]; intros fs t s; simpl; [auto with cro|].
  destruct (m <? _); simpl; [|auto with cro]. eapply collected_trans; [by apply collected_one|apply IH].
Qed.

Lemma take_until_excess_sub sizes e l a : a ∈ take_until_excess sizes e l -> a ∈ l.
Proof.
  revert e. induction l as [|b l IH]; intros e; simpl; [done|]. rewrite !elem_of_cons.
  intros [->|H]; [by left|]. right. destruct (_ <=? 0); [by apply elem_of_nil in H|eauto].
Qed.

Lemma account_collected policy A acc :
  Forall is_archive A -> Forall is_archive (deletableCandidates acc) ->
  let acc' := fold_left (account policy) A acc in
  collected (a_fs acc) (a_fs acc') /\ Forall is_archive (deletableCandidates acc').
Proof.
  intros H. revert acc. induction H as [|a A Ha _ IH]; intros acc Hd; simpl; [auto with cro|].
  assert (collected (a_fs acc) (a_fs (account policy acc a)) /\
          Forall is_archive (deletableCandidates (account policy acc a))) as [H1 H2].
  { unfold account. destruct (os_Stat (a_fs acc) a); [|auto with cro].
    destruct (Cmp _ _), (isCheckpointPinned (a_fs acc) a); simpl; auto with cro;
      (split; [auto with cro|apply Forall_app; split; [done|by repeat constructor]]). }
  destruct (IH _ H2) as [H3 H4]. split; [by eapply collected_trans|done].
Qed.

Section Frame.
Context (env : ArchiveEnv) (cluster : Cluster).
Context (sort_slice : forall A : Type, (A -> A -> bool) -> list A -> list A) `{!GoSort sort_slice}.

Lemma select_sub fs l sizes e p :
  Forall is_archive l ->
  Forall is_archive (selectArchivesToDelete sort_slice fs l sizes e p).1 /\
  Forall is_archive (selectArchivesToDelete sort_slice fs l sizes e p).2.
Proof.
  intros H. unfold selectArchivesToDelete.
  pose proof (sort_slice_perm string (older fs) l) as Hp. rewrite <- Hp in H.
  destruct p; simpl; (split; [|done]).
  - by apply Forall_take.
  - rewrite Forall_forall in H |- *. intros a Ha. apply H. by eapply take_until_excess_sub.
Qed.

Lemma enforce_collected policy level scope A g :
  Forall is_archive A -> collected (g_fs g) (g_fs (enforce_limits sort_slice policy level scope A g)).
Proof.
  intros HA. unfold enforce_limits.
  pose proof (account_collected policy A (account_start (g_fs g) (Z.of_nat (length A))) HA
                ltac:(constructor)) as [H1 H2].
  unfold account_start in H1, H2. set (acc := fold_left _ _ _) in *. simpl in H1.
  assert (let '(fs1, _, cands) := count_phase sort_slice policy acc in
          collected (a_fs acc) fs1 /\ Forall is_archive cands) as Hc.
  { unfold count_phase. destruct (_ && _); [|auto with cro].
    pose proof (select_sub (a_fs acc) (deletableCandidates acc) (archiveSizes acc)
                  (checkpointArchivesCounter acc - MaxCheckpoints policy) ByCount H2) as [H3 H4].
    destruct (selectArchivesToDelete _ _ _ _ _ _) as [td cs]. simpl in *.
    pose proof (delete_by_count_collected (a_fs acc) (checkpointArchivesCounter acc)
                  (MaxCheckpoints policy) td H3) as H5.
    destruct (delete_by_count _ _ _ _) as [fs' c']. by split. }
  destruct (count_phase sort_slice policy acc) as [[fs1 c1] cands]. destruct Hc as [H3 H4].
  assert (collected fs1 (size_phase sort_slice policy fs1 (totalSize acc) (archiveSizes acc) cands).1) as H5.
  { unfold size_phase. destruct (_ <? _); [|auto with cro].
    pose proof (select_sub fs1 cands (archiveSizes acc) (Value (totalSize acc - MaxTotalSize policy)) BySize H4)
      as [H5 _].
    destruct (selectArchivesToDelete _ _ _ _ _ _) as [td cs]. simpl in *.
    by apply delete_by_size_collected. }
  destruct (size_phase _ _ _ _ _ _) as [fs2 t2]. rewrite report_fs. simpl in *.
  eauto using collected_trans.
Qed.

Lemma handle_collected policies now details level policy g :
  fs_wf (g_fs g) ->
  collected (g_fs g) (g_fs (handleCheckpointsForLevel env cluster sort_slice policies now details level policy g)).
Proof.
  intros Hwf. unfold handleCheckpointsForLevel.
  destruct (_ <=? 0); [auto with cro|]. destruct (_ <=? 0); [auto with cro|].
  destruct (_ <=? 0); [auto with cro|].
  pose proof (scope_of_archives env policies now details level (g_fs g) Hwf) as HA.
  unfold scope_of in HA. destruct (Glob _ _) as [l|]; [|auto with cro].
  destruct (_ && _).
  - simpl. rewrite delete_orphans_all. eexists. by split.
  - by apply enforce_collected.
Qed.

Lemma applyPolicies_collected policies now details g :
  fs_wf (g_fs g) ->
  collected (g_fs g) (g_fs (applyPolicies env cluster sort_slice policies now details g)).
Proof.
  intros Hwf. unfold applyPolicies.
  destruct (findContainerPolicy _ _); [by apply handle_collected|].
  destruct (findPodPolicy _ _); [by apply handle_collected|].
  destruct (findNamespacePolicy _ _); [by apply handle_collected|].
  repeat match goal with
  | |- collected _ (g_fs (handleCheckpointsForLevel _ _ _ _ _ _ _ _ ?g')) =>
      eapply (collected_trans _ (g_fs g')); [|apply handle_collected]
  end; auto with cro; repeat (eapply collected_wf; [apply handle_collected|]); done.
Qed.

Lemma fold_collected {X} (f : gc_state -> X -> gc_state) (l : list X) g :
  (forall g x, fs_wf (g_fs g) -> collected (g_fs g) (g_fs (f g x))) ->
  fs_wf (g_fs g) -> collected (g_fs g) (g_fs (fold_left f l g)).
Proof.
  intros Hf. revert g. induction l as [|x l IH]; intros g Hwf; simpl; [auto with cro|].
  eapply collected_trans; [by apply Hf|]. apply IH. eapply collected_wf; [by apply Hf|done].
Qed.
End Frame.

(** ** Theorems *)

Section Theorems.
Context (env : ArchiveEnv) (cluster : Cluster).
Context (sort_slice : forall A : Type, (A -> A -> bool) -> list A -> list A) `{!GoSort sort_slice}.

(** A policy with a limit of zero or less is not enforced at all. *)
Definition not_enforced (policy : Policy) : bool :=
  (MaxCheckpoints policy <=? 0) || (Value (MaxCheckpointSize policy) <=? 0)
  || (Value (MaxTotalSize policy) <=? 0).

(** Orphans are deleted and the resource was not found. *)
Definition orphaned (policy : Policy) (level : string) (details : checkpointDetails) : bool :=
  negb (RetainOrphan policy) && negb (fst (resourceExistsInCluster cluster level details)).

Lemma handle_fs policies now details level policy g :
  let fs := g_fs g in
  let A := scope_of env policies now details level fs in
  fs_wf fs -> sizes_ok fs A ->
  g_fs (handleCheckpointsForLevel env cluster sort_slice policies now details level policy g) =
  if not_enforced policy then fs
  else remove_all fs (if orphaned policy level details then A else to_delete sort_slice policy fs A).
Proof.
  intros fs A Hwf Hsz. subst fs A. unfold handleCheckpointsForLevel, not_enforced, orphaned.
  destruct (MaxCheckpoints policy <=? 0) eqn:E1; simpl; [done|].
  destruct (Value (MaxCheckpointSize policy) <=? 0) eqn:E2; simpl; [done|].
  destruct (Value (MaxTotalSize policy) <=? 0) eqn:E3; simpl; [done|].
  pose proof (scope_of_ok env policies now details level (g_fs g) Hwf) as Hok. unfold scope_of in *.
  destruct (Glob _ _) as [l|].
  2:{ destruct (_ && _); [done|]. unfold to_delete. simpl.
      assert (sort_slice string (older (remove_all (g_fs g) (over_limit policy (g_fs g) [])))
                (rotatable policy (g_fs g) []) = []) as HC.
      { apply Permutation_nil. symmetry. apply sort_slice_perm. }
      simpl in HC. by rewrite HC. }
  destruct (_ && _); [simpl; apply delete_orphans_all|].
  to_prop. apply enforce_limits_fs; try done; try lia.
  destruct (Z.le_gt_cases 0 (MaxTotalSize policy)) as [|Hneg]; [done|].
  assert (Value (MaxTotalSize policy) <= 0); [|lia]. apply Value_bound; [unfold NewQuantity; lia|done].
Qed.

(** C5. [handleCheckpointsForLevel] implements its specification on every
    branch: a policy with a non-positive limit does nothing; when orphans are not
    retained and the resource does not exist, every archive in scope is removed;
    otherwise the archives above the per-file limit go, and of the rest the
    shortest oldest-first prefix that brings both the count and the total size
    under their limits (all of the unpinned ones if that is not enough).  Pinned
    archives stay in each case, and nothing else in the file system changes. *)
Theorem handleCheckpointsForLevel_refines policies now details level policy g q :
  let fs := g_fs g in
  let A := scope_of env policies now details level fs in
  let gone := if not_enforced policy then []
              else if orphaned policy level details then A
              else to_delete sort_slice policy fs A in
  fs_wf fs -> sizes_ok fs A ->
  fs_nodes (g_fs (handleCheckpointsForLevel env cluster sort_slice policies now details level policy g)) !! q =
  if bool_decide (q ∈ gone) && removable fs q then None else fs_nodes fs !! q.
Proof.
  intros fs A gone Hwf Hsz. subst gone. rewrite handle_fs by done.
  destruct (not_enforced policy); [done|].
  rewrite remove_all_lookup; [done|].
  pose proof (scope_of_ok env policies now details level fs Hwf) as Hok. fold A in Hok.
  destruct (orphaned policy level details); [by apply Hok|].
  unfold to_delete. apply Forall_app. split; [apply Forall_over_limit, Hok|].
  apply Forall_take. rewrite sort_slice_perm. by apply rotatable_ok.
Qed.

(** C2. No path through the collector (an evaluation after a write, the
    immediate application of a new policy, the deletion of a pod) removes or
    changes a pinned archive or anything that is not a [.tar] path, and none
    creates anything. *)
Theorem collector_keeps_pinned g g' :
  fs_wf (g_fs g) ->
  (exists policies now details, g' = applyPolicies env cluster sort_slice policies now details g) \/
  (exists policies now it, g' = applyPoliciesImmediately env cluster sort_slice policies now it g) \/
  (exists vars now p, g' = handlePodDeleted env cluster sort_slice vars now p g) ->
  fs_nodes (g_fs g') ⊆ fs_nodes (g_fs g) /\
  forall q, isCheckpointPinned (g_fs g) q = true \/ HasSuffix q ".tar" = false ->
    fs_nodes (g_fs g') !! q = fs_nodes (g_fs g) !! q.
Proof.
  intros Hwf H. cut (collected (g_fs g) (g_fs g')).
  { intros Hc. split; [by apply collected_sub|]. intros q. by apply collected_keeps. }
  destruct H as [(ps & now & d & ->)|[(ps & now & it & ->)|(vs & now & p & ->)]].
  - by apply applyPolicies_collected.
  - unfold applyPoliciesImmediately. destruct (Glob _ _); [|auto with cro].
    destruct (_ =? 0)%nat; [auto with cro|].
    apply fold_collected; [|done]. intros. by apply applyPolicies_collected.
  - unfold handlePodDeleted. apply fold_collected; [|done]. intros. by apply applyPolicies_collected.
Qed.

(** ** What an enforced policy leaves behind *)

Lemma in_scope_file policies now fs level a :
  in_scope env policies now fs level a = true -> exists f, fs_nodes fs !! a = Some (NFile f).
Proof.
  unfold in_scope, getCheckpointArchiveInformation, ReadPodContainerRef, extractSpecDump, extract_dump.
  destruct (MkdirTemp env) as [d|]; [|done]. unfold UntarFiles, iterateTarArchive, os_ReadFile. simpl.
  destruct (decide (d = a)) as [->|Hne].
  - by rewrite lookup_insert_eq.
  - rewrite lookup_insert_ne by done. destruct (fs_nodes fs !! a) as [[f|]|]; [eauto|done|done].
Qed.

Definition remaining (fs' : FS) (A : list string) : list string :=
  List.filter (fun a => is_some (os_Stat fs' a)) A.

Section Enforced.
Context (policies : policySnapshot) (now : Time) (details : checkpointDetails) (level : string)
        (policy : Policy) (g : gc_state).
Let fs := g_fs g.
Let A := scope_of env policies now details level fs.
Let fs' := g_fs (handleCheckpointsForLevel env cluster sort_slice policies now details level policy g).
Let keep := within_limit policy fs A.
Let C := sort_slice string (older (remove_all fs (over_limit policy fs A))) (rotatable policy fs A).
Let k := needed fs (MaxCheckpoints policy) (MaxTotalSize policy)
           (Z.of_nat (length keep)) (NewQuantity (total fs keep)) C.
Hypothesis Hwf : fs_wf fs.
Hypothesis Hsz : sizes_ok fs A.
Hypothesis Hwritable : Forall (fun a => a ∉ fs_nowrite fs) A.
Hypothesis Henf : not_enforced policy = false.
Hypothesis Hretained : orphaned policy level details = false.

Lemma enforced_ok : scope_ok fs A.
Proof. by apply scope_of_ok. Qed.

Lemma C_perm : C ≡ₚ rotatable policy fs A.
Proof. apply sort_slice_perm. Qed.

Lemma scope_file a : a ∈ A -> exists f, fs_nodes fs !! a = Some (NFile f).
Proof.
  subst A. unfold scope_of. destruct (Glob fs _); [|by intros ?%elem_of_nil].
  rewrite list_elem_of_In, filter_In. intros [_ H]. by eapply in_scope_file.
Qed.

Lemma enforced_fs : fs' = remove_all fs (to_delete sort_slice policy fs A).
Proof. subst fs'. rewrite handle_fs by done. by rewrite Henf, Hretained. Qed.

Lemma remaining_elem a :
  a ∈ remaining fs' A <-> a ∈ A /\ (a ∉ over_limit policy fs A) /\ a ∉ take k C.
Proof.
  unfold remaining. rewrite list_elem_of_In, filter_In, <- list_elem_of_In.
  split; intros [Ha Hx]; (split; [done|]).
  - rewrite enforced_fs in Hx. unfold os_Stat in Hx. rewrite remove_all_lookup in Hx.
    2:{ unfold to_delete. apply Forall_app. split; [apply Forall_over_limit, enforced_ok|].
        apply Forall_take. fold C. rewrite C_perm. apply rotatable_ok, enforced_ok. }
    assert (isCheckpointPinned fs a = false -> a ∉ to_delete sort_slice policy fs A) as Hnd.
    { intros Hp Hin. rewrite bool_decide_eq_true_2 in Hx by done. unfold removable in Hx.
      destruct (scope_file a Ha) as [f Hf]. rewrite Hp, Hf in Hx.
      rewrite Forall_forall in Hwritable. rewrite bool_decide_eq_false_2 in Hx by auto. done. }
    unfold to_delete in Hnd. fold keep C k in Hnd. split.
    + intros Hin. apply Hnd; [|apply elem_of_app; by left].
      unfold over_limit in Hin. rewrite list_elem_of_In, filter_In in Hin.
      destruct Hin as [_ Ho]. unfold oversize in Ho. to_prop. tauto.
    + intros Hin. apply Hnd; [|apply elem_of_app; by right].
      apply take_sub in Hin. rewrite C_perm, rotatable_sub in Hin. tauto.
  - rewrite enforced_fs. unfold os_Stat. rewrite remove_all_lookup.
    2:{ unfold to_delete. apply Forall_app. split; [apply Forall_over_limit, enforced_ok|].
        apply Forall_take. fold C. rewrite C_perm. apply rotatable_ok, enforced_ok. }
    rewrite bool_decide_eq_false_2.
    + destruct (scope_file a Ha) as [f ->]. done.
    + unfold to_delete. rewrite elem_of_app. fold keep C k. tauto.
Qed.

Lemma remaining_perm :
  remaining fs' A ≡ₚ List.filter (isCheckpointPinned fs) keep ++ drop k C.
Proof.
  destruct (rotatable_ok policy fs A enforced_ok) as (HndR & _ & _).
  assert (NoDup (take k C ++ drop k C)) as Hsplit by by rewrite take_drop, C_perm.
  apply NoDup_app in Hsplit as (_ & Hdisj & Hdrop).
  apply NoDup_Permutation.
  - apply NoDup_ListNoDup, List.NoDup_filter, enforced_ok.
  - apply NoDup_app. split.
    + apply NoDup_ListNoDup. unfold keep, within_limit. apply List.NoDup_filter, List.NoDup_filter, enforced_ok.
    + split; [|done]. intros a Ha Hd.
      rewrite list_elem_of_In, filter_In in Ha. destruct Ha as [_ Hp].
      assert (a ∈ C) as HC by (rewrite <- (take_drop k C); apply elem_of_app; by right).
      rewrite C_perm, rotatable_sub in HC. destruct HC as (_ & Hp' & _). congruence.
  - intros a. rewrite remaining_elem, elem_of_app.
    assert (forall x, x ∈ C <-> x ∈ take k C \/ x ∈ drop k C) as HC.
    { intros x. rewrite <- elem_of_app, take_drop. done. }
    unfold keep, within_limit, over_limit. rewrite !list_elem_of_In, !filter_In, <- !list_elem_of_In, negb_true_iff.
    split.
    + intros (Ha & Ho & Ht). assert (oversize policy fs a = false) as Hov.
      { destruct (oversize policy fs a); [|done]. exfalso. by apply Ho. }
      destruct (isCheckpointPinned fs a) eqn:Ep; [by left|]. right.
      destruct (proj1 (HC a)) as [?|?]; [|done|done]. rewrite C_perm. by apply rotatable_sub.
    + intros [[[Ha Hov] Hp]|Hd].
      * split; [done|]. split; [intros [_ ?]; congruence|]. intros Ht%take_sub.
        rewrite C_perm, rotatable_sub in Ht. destruct Ht as (_ & ? & _). congruence.
      * assert (a ∈ C) as Hc by (apply HC; by right). rewrite C_perm, rotatable_sub in Hc.
        destruct Hc as (Ha & Hp & Hov). split; [done|]. split; [intros [_ ?]; congruence|].
        intros Ht. by apply (Hdisj a).
Qed.

Lemma remaining_counts :
  Z.of_nat (length (remaining fs' A)) = Z.of_nat (length keep) - Z.of_nat k /\
  total fs (remaining fs' A) = total fs keep - total fs (take k C).
Proof.
  pose proof (needed_spec fs (MaxCheckpoints policy) (MaxTotalSize policy)
                (Z.of_nat (length keep)) (NewQuantity (total fs keep)) C) as (Hk & _ & _). fold k in Hk.
  rewrite remaining_perm, length_app, length_drop, total_app.
  assert (total fs C = total fs (rotatable policy fs A)) as HC by by rewrite C_perm.
  rewrite <- (take_drop k C) in HC. rewrite total_app in HC.
  assert (length C = length (rotatable policy fs A)) as HL by by rewrite C_perm.
  unfold rotatable in HC, HL. fold keep in HC, HL.
  pose proof (filter_negb_length (isCheckpointPinned fs) keep).
  pose proof (total_split fs (isCheckpointPinned fs) keep). lia.
Qed.

Lemma limits_hold :
  (Forall (fun a => isCheckpointPinned fs a = true) (remaining fs' A) \/
   (Z.of_nat (length (remaining fs' A)) <= MaxCheckpoints policy /\
    NewQuantity (total fs (remaining fs' A)) <= MaxTotalSize policy)) /\
  forall a, a ∈ remaining fs' A -> isCheckpointPinned fs a = false ->
    NewQuantity (size_of fs a) <= MaxCheckpointSize policy.
Proof.
  destruct remaining_counts as [Hl Ht].
  pose proof (needed_spec fs (MaxCheckpoints policy) (MaxTotalSize policy)
                (Z.of_nat (length keep)) (NewQuantity (total fs keep)) C) as (_ & Hk & _). fold k in Hk.
  split.
  - destruct Hk as [Hk|[Hk1 Hk2]].
    + left. rewrite remaining_perm, Hk, drop_all, app_nil_r.
      apply Forall_forall. intros a. rewrite list_elem_of_In, filter_In. tauto.
    + right. rewrite Hl, Ht. unfold NewQuantity in *. lia.
  - intros a Ha Hp. apply remaining_elem in Ha as (Ha & Ho & _).
    unfold over_limit in Ho. rewrite list_elem_of_In, filter_In, <- list_elem_of_In in Ho.
    unfold oversize in Ho. rewrite Hp in Ho. simpl in Ho.
    destruct (_ <? _) eqn:E; [exfalso; by apply Ho|]. by to_prop.
Qed.

(** An archive deleted by rotation, that is, not for its own size. *)
Definition rotated (a : string) : Prop :=
  a ∈ A /\ (a ∉ remaining fs' A) /\ oversize policy fs a = false.

Lemma rotated_elem a : rotated a <-> a ∈ take k C.
Proof.
  unfold rotated. rewrite remaining_elem. split.
  - intros (Ha & Hn & Ho). destruct (decide (a ∈ take k C)) as [|Ht]; [done|]. exfalso. apply Hn.
    split; [done|]. split; [|done]. unfold over_limit. rewrite list_elem_of_In, filter_In. intros [_ ?]. congruence.
  - intros Ht. pose proof (take_sub _ _ _ Ht) as Hc. rewrite C_perm, rotatable_sub in Hc. tauto.
Qed.

Definition mtime_of (a : string) : Time :=
  match os_Stat fs a with Some n => fi_ModTime n | None => 0 end.

Lemma oldest_first a b :
  rotated a -> b ∈ remaining fs' A -> isCheckpointPinned fs b = false -> mtime_of a <= mtime_of b.
Proof.
  intros Ha%rotated_elem Hb Hp.
  assert (b ∈ drop k C) as Hd.
  { rewrite remaining_perm, elem_of_app, list_elem_of_In, filter_In in Hb.
    destruct Hb as [[_ ?]|]; [congruence|done]. }
  destruct (rotatable_ok policy fs A enforced_ok) as (_ & _ & Hst).
  assert (no_inversion (older (remove_all fs (over_limit policy fs A))) C) as Hs.
  { apply sort_slice_sorted. by apply older_strict_weak. }
  unfold no_inversion in Hs. rewrite <- (take_drop k C) in Hs.
  eapply (StronglySorted_app_1_elem_of _ _ _ a b) in Hs; try done.
  assert (a ∈ rotatable policy fs A) as Har by (rewrite <- C_perm; by eapply take_sub).
  assert (b ∈ rotatable policy fs A) as Hbr.
  { rewrite <- C_perm, <- (take_drop k C). apply elem_of_app. by right. }
  apply Hst in Har as [n Hn], Hbr as [m Hm].
  cbv beta in Hs. rewrite (older_spec _ b a m n) in Hs by done. to_prop.
  apply remove_all_stat_sub in Hn, Hm; try (apply Forall_over_limit, enforced_ok).
  unfold mtime_of. rewrite Hn, Hm. done.
Qed.

Lemma no_overdelete a :
  rotated a ->
  exists b, rotated b /\
    (MaxCheckpoints policy < Z.of_nat (length (remaining fs' A)) + 1 \/
     MaxTotalSize policy < NewQuantity (total fs (remaining fs' A) + size_of fs b)).
Proof.
  intros Ha%rotated_elem. destruct remaining_counts as [Hl Ht].
  pose proof (needed_spec fs (MaxCheckpoints policy) (MaxTotalSize policy)
                (Z.of_nat (length keep)) (NewQuantity (total fs keep)) C) as (Hle & _ & Hmin).
  fold k in Hmin, Hle. destruct k as [|j] eqn:Ek; [by apply elem_of_nil in Ha|].
  destruct (lookup_lt_is_Some_2 C j) as [b Hb]; [lia|]. exists b. split.
  { apply rotated_elem. rewrite Ek, (take_S_r C j b Hb). apply elem_of_app. right. by left. }
  specialize (Hmin j ltac:(lia)). rewrite Hl, Ht, (take_S_r C j b Hb), total_app. simpl.
  unfold NewQuantity in *. lia.
Qed.
End Enforced.

(** The circumstances of an ordinary evaluation: a well-formed file system with
    sane sizes, deletable archives, a policy that is enforced and a resource that
    exists (or orphans that are retained). *)
Definition ordinary (policies : policySnapshot) (now : Time) (details : checkpointDetails)
    (level : string) (policy : Policy) (g : gc_state) : Prop :=
  let A := scope_of env policies now details level (g_fs g) in
  fs_wf (g_fs g) /\ sizes_ok (g_fs g) A /\ Forall (fun a => a ∉ fs_nowrite (g_fs g)) A /\
  not_enforced policy = false /\ orphaned policy level details = false.



Lemma to_delete_sub policy fs l a : a ∈ to_delete sort_slice policy fs l -> a ∈ l.
Proof.
  unfold to_delete. rewrite elem_of_app. intros [H|H]; [by eapply over_limit_sub|].
  apply take_sub in H. rewrite sort_slice_perm, rotatable_sub in H. tauto.
Qed.

(** A more specific policy shields its archives: an evaluation at pod level
    leaves every archive whose container has a policy of its own, and one at
    namespace level every archive whose container or pod has one. *)
Theorem specific_policy_shields policies now details level policy g q d :
  fs_wf (g_fs g) -> sizes_ok (g_fs g) (scope_of env policies now details level (g_fs g)) ->
  getCheckpointArchiveInformation env now (g_fs g) q = Ok d ->
  (level = "pod" /\ is_Some (findContainerPolicy policies d)) \/
  (level = "namespace" /\ (is_Some (findContainerPolicy policies d) \/ is_Some (findPodPolicy policies d))) ->
  fs_nodes (g_fs (handleCheckpointsForLevel env cluster sort_slice policies now details level policy g)) !! q =
  fs_nodes (g_fs g) !! q.
Proof.
  intros Hwf Hsz Hd Hl.
  assert (q ∉ scope_of env policies now details level (g_fs g)) as Hq.
  { unfold scope_of. destruct (Glob _ _); [|apply not_elem_of_nil].
    rewrite list_elem_of_In, filter_In. unfold in_scope. rewrite Hd. intros [_ H]. revert H.
    destruct Hl as [[-> [p ->]]|[-> [[p ->]|[p ->]]]]; simpl; try done; by rewrite orb_true_r. }
  rewrite handle_fs by done. destruct (not_enforced policy); [done|].
  pose proof (scope_of_ok env policies now details level (g_fs g) Hwf) as Hok.
  rewrite remove_all_lookup.
  - rewrite bool_decide_eq_false_2; [done|]. destruct (orphaned policy level details); [done|].
    intros H. by apply to_delete_sub in H.
  - destruct (orphaned policy level details); [by apply Hok|]. apply Forall_forall. intros a Ha%to_delete_sub.
    destruct Hok as (_ & Hok & _). rewrite Forall_forall in Hok. auto.
Qed.

(** With [retainOrphan: false], an API error other than "not found" is
    treated like a missing resource: the existence check returns false with the
    error, the error is only logged, and every unpinned archive of the pod is
    deleted although nothing is known about the pod. *)
Theorem orphan_api_error policies now details policy g e :
  getPodFromNamespace cluster (namespace details) (pod details) = Err e ->
  fs_wf (g_fs g) -> sizes_ok (g_fs g) (scope_of env policies now details "pod" (g_fs g)) ->
  RetainOrphan policy = false -> not_enforced policy = false ->
  let fs' := g_fs (handleCheckpointsForLevel env cluster sort_slice policies now details "pod" policy g) in
  forall a, a ∈ scope_of env policies now details "pod" (g_fs g) ->
    isCheckpointPinned (g_fs g) a = false -> (a ∉ fs_nowrite (g_fs g)) -> os_Stat fs' a = None.
Proof.
  intros He Hwf Hsz Hr Henf fs' a Ha Hp Hw. subst fs'. rewrite handle_fs by done. rewrite Henf.
  unfold orphaned, resourceExistsInCluster. rewrite Hr, He. simpl.
  replace (negb (fst (if IsNotFound e then _ else _))) with true by (by destruct (IsNotFound e)).
  unfold os_Stat. rewrite remove_all_lookup by by apply scope_of_archives.
  destruct (scope_file policies now details "pod" g a Ha) as [f Hf].
  unfold removable. rewrite bool_decide_eq_true_2, Hp, Hf by done.
  by rewrite bool_decide_eq_false_2.
Qed.
End Theorems.

(** ** Concrete evaluations *)

Definition demo_cluster : Cluster :=
  {| cl_InClusterConfig := Ok tt; cl_NewForConfig := Ok tt;
     cl_GetPod := fun _ _ => Err (APIFailure "etcdserver: request timed out");
     cl_GetNamespace := fun _ => Ok tt |}.

Definition demo_policies : policySnapshot :=
  {| checkpointDirectory := "/c"; retainOrphan := true;
     maxCheckpointsPerContainer := 10; maxCheckpointsPerPod := 20; maxCheckpointsPerNamespace := 30;
     maxCheckpointSize := Q1Ei; maxTotalSizePerPod := Q1Ei; maxTotalSizePerContainer := Q1Ei;
     maxTotalSizePerNamespace := Q1Ei;
     containerPolicies := [ {| cp_Namespace := "team"; cp_Pod := "db"; cp_Container := "pg";
                               cp_RetainOrphan := None; cp_MaxCheckpoints := None;
                               cp_MaxCheckpointSize := None; cp_MaxTotalSize := None |} ];
     podPolicies := []; namespacePolicies := [] |}.

Definition demo_web (ts : string) : string := "/c/checkpoint-web_team-nginx-" +:+ ts +:+ ".tar".
Definition demo_prod : string := "/c/checkpoint-api_team-prod-go-2026-01-01T00:00:00Z.tar".
Definition demo_db : string := "/c/checkpoint-db_team-pg-2026-01-01T00:00:00Z.tar".

(** Three archives of pod [web], the middle one pinned, one of a container with
    a policy of its own, and one of a pod in the namespace [team-prod]. *)
Definition demo_gc : gc_state :=
  {| g_fs := {| fs_nodes :=
       {[ "/c" := NDir;
          demo_web "2026-01-03T00:00:00Z" := demo_file 100 3 "team/web/nginx";
          demo_web "2026-01-02T00:00:00Z" := demo_file 100 2 "team/web/nginx";
          demo_web "2026-01-02T00:00:00Z" +:+ ".keep" := demo_file 0 2 "";
          demo_web "2026-01-04T00:00:00Z" := demo_file 100 4 "team/web/nginx";
          demo_db := demo_file 100 1 "team/db/pg";
          demo_prod := demo_file 100 1 "team-prod/api/go" ]};
       fs_nowrite := ∅; fs_noread := ∅ |};
     retentionUnreachableState := ∅; g_reports := [] |}.

Definition demo_details : checkpointDetails :=
  {| namespace := "team"; pod := "web"; container := "nginx" |}.

Definition demo_policy (retain : bool) (n : Z) : Policy :=
  {| RetainOrphan := retain; MaxCheckpoints := n; MaxCheckpointSize := Q1Ei; MaxTotalSize := Q1Ei |}.

Lemma demo_wf : fs_wf (g_fs demo_gc).
Proof. apply fs_wfb_sound. vm_compute. reflexivity. Qed.

Lemma demo_sizes level :
  level = "pod" \/ level = "namespace" ->
  sizes_ok (g_fs demo_gc) (scope_of demo_env demo_policies 9 demo_details level (g_fs demo_gc)).
Proof.
  intros [-> | ->]; (split; [|vm_compute; discriminate]);
    apply List.Forall_forall; vm_compute; intros a Ha;
    repeat (destruct Ha as [<-|Ha]; [discriminate|]); destruct Ha.
Qed.

Lemma demo_ordinary : ordinary demo_env demo_cluster demo_policies 9 demo_details "pod" (demo_policy true 2) demo_gc.
Proof.
  split; [apply demo_wf|]. split; [apply demo_sizes; by left|].
  split; [|split; vm_compute; reflexivity].
  apply Forall_forall. intros a _. apply not_elem_of_empty.
Qed.

Lemma handleCheckpointsForLevel_refines_witness :
  fs_nodes (g_fs (handleCheckpointsForLevel demo_env demo_cluster (@insertion_sort) demo_policies 9
                    demo_details "pod" (demo_policy true 2) demo_gc)) !! demo_web "2026-01-03T00:00:00Z" = None.
Proof.
  rewrite (handleCheckpointsForLevel_refines demo_env demo_cluster (@insertion_sort) demo_policies 9
             demo_details "pod" (demo_policy true 2) demo_gc).
  - vm_compute. reflexivity.
  - apply demo_wf.
  - apply demo_sizes. by left.
Defined.

Lemma collector_keeps_pinned_witness :
  fs_nodes (g_fs (applyPolicies demo_env demo_cluster (@insertion_sort) demo_policies 9 demo_details demo_gc))
    !! demo_web "2026-01-02T00:00:00Z" = Some (demo_file 100 2 "team/web/nginx").
Proof.
  eapply (collector_keeps_pinned demo_env demo_cluster (@insertion_sort) demo_gc _ demo_wf).
  - left. eauto.
  - left. vm_compute. reflexivity.
Defined.



Lemma specific_policy_shields_witness :
  fs_nodes (g_fs (handleCheckpointsForLevel demo_env demo_cluster (@insertion_sort) demo_policies 9
                    demo_details "namespace" (demo_policy true 1) demo_gc)) !! demo_db =
  Some (demo_file 100 1 "team/db/pg").
Proof.
  rewrite (specific_policy_shields demo_env demo_cluster (@insertion_sort) demo_policies 9
             demo_details "namespace" (demo_policy true 1) demo_gc demo_db
             {| namespace := "team"; pod := "db"; container := "pg" |}).
  - vm_compute. reflexivity.
  - apply demo_wf.
  - apply demo_sizes. by right.
  - vm_compute. reflexivity.
  - right. split; [done|]. left. vm_compute. eauto.
Defined.

Lemma orphan_api_error_witness :
  os_Stat (g_fs (handleCheckpointsForLevel demo_env demo_cluster (@insertion_sort) demo_policies 9
                   demo_details "pod" (demo_policy false 10) demo_gc)) (demo_web "2026-01-04T00:00:00Z") = None.
Proof.
  eapply (orphan_api_error demo_env demo_cluster (@insertion_sort) demo_policies 9 demo_details
            (demo_policy false 10) demo_gc (APIFailure "etcdserver: request timed out")).
  - reflexivity.
  - apply demo_wf.
  - apply demo_sizes. by left.
  - reflexivity.
  - vm_compute. reflexivity.
  - apply (bool_decide_eq_true_1 _). vm_compute. reflexivity.
  - vm_compute. reflexivity.
  - apply not_elem_of_empty.
Defined.

(** The pod and namespace patterns separate names with dashes, which names
    may contain, and the metadata of a matching archive is not compared with the
    names asked for: evaluating the namespace [team] deletes an archive that
    belongs to the namespace [team-prod]. *)
Theorem cross_namespace_eviction :
  getCheckpointArchiveInformation demo_env 9 (g_fs demo_gc) demo_prod =
    Ok {| namespace := "team-prod"; pod := "api"; container := "go" |} /\
  os_Stat (g_fs (handleCheckpointsForLevel demo_env demo_cluster (@insertion_sort) demo_policies 9
                   demo_details "namespace" (demo_policy true 3) demo_gc)) demo_prod = None.
Proof. vm_compute. split; reflexivity. Qed.
