(* ===== verification/ConcurrentRetention.v ===== *)
(** * Concurrent retention evaluations
    ([checkpointrestoreoperator_controller.go]: [handleCheckpointsForLevel])

    Every timer of the collector's loop, the pod informer and the immediate
    application of a policy evaluate policies in goroutines of their own, and
    nothing serialises them: only the removal of one archive is under
    [podRestorePinMu], and only the report state under [retentionUnreachableMu].
    Here an evaluation is a small program whose steps are the single accesses to
    the shared state: the listing, the reading of one archive, one [os.Stat], one
    look for a marker, one removal, one report.  Between two steps anything may
    happen.  The theorems: run without interference the program computes
    [handleCheckpointsForLevel] of [Retention.v]; with any interference it ends,
    removes only unpinned archives it has listed and read, and rotates no more
    archives than its own listing has over the limit.  What it does not keep under
    interference is the limit itself ([concurrent_overdeletion]). *)

From stdpp Require Import relations.
From S2P Require Import Prelude GoStrings GoPath Kube GoSystem GlobFacts Api Pinning Archive Policies Retention RetentionProofs.
Open Scope string_scope.
Open Scope list_scope.
Open Scope Z_scope.

(** ** One evaluation *)

(** The arguments of [handleCheckpointsForLevel]. *)
Record job := {
  j_policies : policySnapshot;
  j_details : checkpointDetails;
  j_level : string;
  j_policy : Policy
}.

(** The locals of the accounting loop. *)
Record tally := {
  t_counter : Z;
  t_total : Quantity;
  t_sizes : gmap string Z;
  t_candidates : list string
}.

(** Where an evaluation is, with the locals it still needs. *)
Inductive stage :=
| Begin
| Reading (todo kept : list string)
| Partitioning (todo archives pinned : list string)
| Deciding (archives pinned : list string)
| OrphanCheck (todo : list string)
| OrphanRemove (a : string) (todo : list string)
| Stating (todo pinned : list string) (t : tally)
| PinCheck (c : string) (size : Z) (todo pinned : list string) (t : tally)
| OverRemove (c : string) (todo pinned : list string) (t : tally)
| CountSort (pinned : list string) (t : tally)
| CountRemove (toDelete pinned : list string) (t : tally)
| CountReport (pinned : list string) (t : tally)
| SizeSort (pinned : list string) (t : tally)
| SizeRemove (toDelete pinned : list string) (t : tally)
| SizeReport (pinned : list string) (t : tally)
| Done.

(** What the environment decides at a step: the time, the cluster's answers, and
    the order the comparisons of [sort.Slice] amount to (they stat the files one
    by one, so the files may change while they are compared). *)
Record view := {
  v_now : Time;
  v_cluster : Cluster;
  v_less : string -> string -> bool
}.

Definition new_tally (archives : list string) : tally :=
  {| t_counter := Z.of_nat (length archives); t_total := 0; t_sizes := ∅; t_candidates := [] |}.

Definition set_counter (t : tally) (n : Z) : tally :=
  {| t_counter := n; t_total := t_total t; t_sizes := t_sizes t; t_candidates := t_candidates t |}.

Definition set_candidates (t : tally) (l : list string) : tally :=
  {| t_counter := t_counter t; t_total := t_total t; t_sizes := t_sizes t; t_candidates := l |}.

(** [totalSize.Add(currentSize); archiveSizes[c] = fi.Size()] *)
Definition count_archive (t : tally) (c : string) (size : Z) : tally :=
  {| t_counter := t_counter t; t_total := t_total t + NewQuantity size;
     t_sizes := <[c := size]> (t_sizes t); t_candidates := t_candidates t |}.

(** [totalSize.Sub(currentSize); delete(archiveSizes, archive)] *)
Definition uncount_archive (t : tally) (a : string) : tally :=
  {| t_counter := t_counter t; t_total := t_total t - NewQuantity (default 0 (t_sizes t !! a));
     t_sizes := delete a (t_sizes t); t_candidates := t_candidates t |}.

Section Evaluation.
Context (env : ArchiveEnv).
Context (sort_slice : forall A : Type, (A -> A -> bool) -> list A -> list A).

Definition remove_archive (g : gc_state) (a : string) : gc_state :=
  with_fs g (removeArchiveUnlessPinned (g_fs g) a).

Definition countKey (j : job) : string :=
  j_level j +:+ "|count|" +:+ level_scope (j_details j) (j_level j).
Definition sizeKey (j : job) : string :=
  j_level j +:+ "|size|" +:+ level_scope (j_details j) (j_level j).

(** One step of an evaluation: its next stage and the shared state. *)
Definition estep (j : job) (v : view) (st : stage) (g : gc_state) : stage * gc_state :=
  let policy := j_policy j in
  match st with
  | Begin =>
      (if MaxCheckpoints policy <=? 0 then Done
       else if Value (MaxCheckpointSize policy) <=? 0 then Done
       else if Value (MaxTotalSize policy) <=? 0 then Done
       else match Glob (g_fs g) (level_pattern (j_policies j) (j_details j) (j_level j)) with
            | None => Done
            | Some checkpointArchives => Reading checkpointArchives []
            end, g)
  | Reading [] filteredArchives => (Partitioning filteredArchives filteredArchives [], g)
  | Reading (a :: todo) kept =>
      (Reading todo (if in_scope env (j_policies j) (v_now v) (g_fs g) (j_level j) a
                     then kept ++ [a] else kept), g)
  | Partitioning [] archives pinned => (Deciding archives pinned, g)
  | Partitioning (a :: todo) archives pinned =>
      (Partitioning todo archives (if isCheckpointPinned (g_fs g) a then pinned ++ [a] else pinned), g)
  | Deciding archives pinned =>
      (if negb (RetainOrphan policy) &&
          negb (fst (resourceExistsInCluster (v_cluster v) (j_level j) (j_details j)))
       then OrphanCheck archives
       else Stating archives pinned (new_tally archives), g)
  | OrphanCheck [] => (Done, g)
  | OrphanCheck (a :: todo) =>
      (if isCheckpointPinned (g_fs g) a then OrphanCheck todo else OrphanRemove a todo, g)
  | OrphanRemove a todo => (OrphanCheck todo, remove_archive g a)
  | Stating [] pinned t => (CountSort pinned t, g)
  | Stating (c :: todo) pinned t =>
      (match os_Stat (g_fs g) c with
       | None => Stating todo pinned t
       | Some fi => PinCheck c (fi_Size fi) todo pinned t
       end, g)
  | PinCheck c size todo pinned t =>
      let counted := count_archive t c size in
      (match Cmp (MaxCheckpointSize policy) (NewQuantity size) with
       | Lt => if isCheckpointPinned (g_fs g) c then Stating todo pinned counted
               else OverRemove c todo pinned t
       | _ => Stating todo pinned (if isCheckpointPinned (g_fs g) c then counted
                                   else set_candidates counted (t_candidates t ++ [c]))
       end, g)
  | OverRemove c todo pinned t =>
      (Stating todo pinned (set_counter t (t_counter t - 1)), remove_archive g c)
  | CountSort pinned t =>
      (if (0 <? MaxCheckpoints policy) && (MaxCheckpoints policy <? t_counter t) then
         let archives := sort_slice string (v_less v) (t_candidates t) in
         CountRemove (take (Z.to_nat (t_counter t - MaxCheckpoints policy)) archives) pinned
           (set_candidates t archives)
       else CountReport pinned t, g)
  | CountRemove [] pinned t => (CountReport pinned t, g)
  | CountRemove (a :: rest) pinned t =>
      let t := set_counter t (t_counter t - 1) in
      (if t_counter t <=? MaxCheckpoints policy then CountReport pinned t
       else CountRemove rest pinned t, remove_archive g a)
  | CountReport pinned t =>
      (SizeSort pinned t, report_unreachable g (MaxCheckpoints policy <? t_counter t) (countKey j) pinned)
  | SizeSort pinned t =>
      (if MaxTotalSize policy <? t_total t then
         let archives := sort_slice string (v_less v) (t_candidates t) in
         SizeRemove (take_until_excess (t_sizes t) (Value (t_total t - MaxTotalSize policy)) archives)
           pinned (set_candidates t archives)
       else SizeReport pinned t, g)
  | SizeRemove [] pinned t => (SizeReport pinned t, g)
  | SizeRemove (a :: rest) pinned t =>
      let t := uncount_archive t a in
      (if MaxTotalSize policy <? t_total t then SizeRemove rest pinned t
       else SizeReport pinned t, remove_archive g a)
  | SizeReport pinned t =>
      (Done, report_unreachable g (MaxTotalSize policy <? t_total t) (sizeKey j) pinned)
  | Done => (Done, g)
  end.

(** The archive a stage is about to remove. *)
Definition removing (st : stage) : option string :=
  match st with
  | OrphanRemove a _ | OverRemove a _ _ _ | CountRemove (a :: _) _ _ | SizeRemove (a :: _) _ _ => Some a
  | _ => None
  end.

(** ** Without interference *)

Section Alone.
Context (now : Time) (cluster : Cluster) (j : job).

(** The view of an evaluation that nothing interferes with. *)
Definition quiet (g : gc_state) : view :=
  {| v_now := now; v_cluster := cluster; v_less := older (g_fs g) |}.

Definition alone (x y : stage * gc_state) : Prop :=
  x.1 <> Done /\ y = estep j (quiet x.2) x.1 x.2.

Lemma alone_step st g y : st <> Done -> rtc alone (estep j (quiet g) st g) y -> rtc alone (st, g) y.
Proof. intros Hd H. eapply rtc_l; [|exact H]. by split. Qed.

Lemma alone_reading g todo kept :
  rtc alone (Reading todo kept, g)
    (let l := kept ++ List.filter (in_scope env (j_policies j) now (g_fs g) (j_level j)) todo in
     Partitioning l l [], g).
Proof.
  revert kept. induction todo as [|a todo IH]; intros kept; (apply alone_step; [done|]).
  - simpl. rewrite app_nil_r. apply rtc_refl.
  - simpl. destruct (in_scope _ _ _ _ _ _); [|apply IH].
    specialize (IH (kept ++ [a])). by rewrite <- app_assoc in IH.
Qed.

Lemma alone_partitioning g todo archives pinned :
  rtc alone (Partitioning todo archives pinned, g)
    (Deciding archives (pinned ++ List.filter (isCheckpointPinned (g_fs g)) todo), g).
Proof.
  revert pinned. induction todo as [|a todo IH]; intros pinned; (apply alone_step; [done|]).
  - simpl. rewrite app_nil_r. apply rtc_refl.
  - simpl. destruct (isCheckpointPinned _ _); [|apply IH].
    specialize (IH (pinned ++ [a])). by rewrite <- app_assoc in IH.
Qed.

Lemma alone_orphans g todo :
  rtc alone (OrphanCheck todo, g) (Done, with_fs g (delete_orphans (g_fs g) todo)).
Proof.
  revert g. induction todo as [|a todo IH]; intros g; (apply alone_step; [done|]); simpl.
  - destruct g. apply rtc_refl.
  - destruct (isCheckpointPinned _ _); [apply IH|]. apply alone_step; [done|].
    apply (IH (remove_archive g a)).
Qed.

(** The sequential accounting state of a tally. *)
Definition accounting_of (fs : FS) (t : tally) : accounting :=
  {| a_fs := fs; checkpointArchivesCounter := t_counter t; totalSize := t_total t;
     archiveSizes := t_sizes t; deletableCandidates := t_candidates t |}.

Lemma alone_stating g todo pinned t :
  exists t' fs', rtc alone (Stating todo pinned t, g) (CountSort pinned t', with_fs g fs') /\
    accounting_of fs' t' = fold_left (account (j_policy j)) todo (accounting_of (g_fs g) t).
Proof.
  revert g t. induction todo as [|c todo IH]; intros g t; simpl.
  - exists t, (g_fs g). split; [|done]. apply alone_step; [done|]. destruct g. apply rtc_refl.
  - assert (forall g' t', rtc alone (Stating (c :: todo) pinned t, g) (Stating todo pinned t', g') ->
      (forall fs, with_fs g' fs = with_fs g fs) ->
      accounting_of (g_fs g') t' = account (j_policy j) (accounting_of (g_fs g) t) c ->
      exists t' fs', rtc alone (Stating (c :: todo) pinned t, g) (CountSort pinned t', with_fs g fs') /\
        accounting_of fs' t' =
        fold_left (account (j_policy j)) todo (account (j_policy j) (accounting_of (g_fs g) t) c)) as Hgo.
    { intros g' t' Hr Hw <-. destruct (IH g' t') as (t2 & fs2 & H2 & E2). exists t2, fs2.
      split; [|done]. rewrite <- Hw. by etrans. }
    unfold account in Hgo |- *. simpl in Hgo |- *.
    destruct (os_Stat (g_fs g) c) as [fi|] eqn:Es.
    2:{ apply (Hgo g t); [|done|done]. apply alone_step; [done|]. simpl. rewrite Es. apply rtc_refl. }
    destruct (Cmp (MaxCheckpointSize (j_policy j)) (NewQuantity (fi_Size fi))) eqn:Ec;
      destruct (isCheckpointPinned (g_fs g) c) eqn:Ep;
      (eapply Hgo;
       [apply alone_step; [done|]; simpl; rewrite Es; apply alone_step; [done|]; simpl; rewrite Ec, Ep;
        first [apply rtc_refl | apply alone_step; [done|]; simpl; apply rtc_refl]
       |done|done]).
Qed.

Lemma alone_count_remove g toDelete pinned t :
  let '(fs', counter) := delete_by_count (g_fs g) (t_counter t) (MaxCheckpoints (j_policy j)) toDelete in
  rtc alone (CountRemove toDelete pinned t, g) (CountReport pinned (set_counter t counter), with_fs g fs').
Proof.
  revert g t. induction toDelete as [|a rest IH]; intros g t; simpl.
  - apply alone_step; [done|]. destruct t, g. apply rtc_refl.
  - destruct (t_counter t - 1 <=? MaxCheckpoints (j_policy j)) eqn:E.
    + apply alone_step; [done|]. simpl. rewrite E. apply rtc_refl.
    + specialize (IH (remove_archive g a) (set_counter t (t_counter t - 1))). simpl in IH.
      destruct (delete_by_count _ _ _ _) as [fs' n]. apply alone_step; [done|]. simpl. by rewrite E.
Qed.

Lemma alone_size_remove g toDelete pinned t :
  let '(fs', total) := delete_by_size (g_fs g) (t_total t) (t_sizes t) (MaxTotalSize (j_policy j)) toDelete in
  exists t', rtc alone (SizeRemove toDelete pinned t, g) (SizeReport pinned t', with_fs g fs') /\ t_total t' = total.
Proof.
  revert g t. induction toDelete as [|a rest IH]; intros g t; simpl.
  - exists t. split; [|done]. apply alone_step; [done|]. destruct g. apply rtc_refl.
  - destruct (MaxTotalSize (j_policy j) <? _) eqn:E.
    + specialize (IH (remove_archive g a) (uncount_archive t a)). simpl in IH.
      destruct (delete_by_size _ _ _ _ _) as [fs' n]. destruct IH as (t' & H & Ht). exists t'.
      split; [|done]. apply alone_step; [done|]. simpl. by rewrite E.
    + exists (uncount_archive t a). split; [|done]. apply alone_step; [done|]. simpl. rewrite E. apply rtc_refl.
Qed.

(** From the accounting on, the program follows [enforce_limits]. *)
Lemma alone_enforce g archives :
  let pinned := List.filter (isCheckpointPinned (g_fs g)) archives in
  rtc alone (Stating archives pinned (new_tally archives), g)
    (Done, enforce_limits sort_slice (j_policy j) (j_level j)
             (level_scope (j_details j) (j_level j)) archives g).
Proof.
  intros pinned. unfold enforce_limits. rewrite partitionArchives_filter. fold pinned. cbn [snd].
  destruct (alone_stating g archives pinned (new_tally archives)) as (t & fs' & H1 & Ht).
  change (accounting_of (g_fs g) (new_tally archives)) with
    {| a_fs := g_fs g; checkpointArchivesCounter := Z.of_nat (length archives); totalSize := 0;
       archiveSizes := ∅; deletableCandidates := [] |} in Ht.
  rewrite <- Ht. etrans; [exact H1|]. clear H1 Ht. unfold count_phase. simpl.
  assert (exists t' fs1, rtc alone (CountSort pinned t, with_fs g fs') (CountReport pinned t', with_fs g fs1) /\
    (if (0 <? MaxCheckpoints (j_policy j)) && (MaxCheckpoints (j_policy j) <? t_counter t)
     then let '(fs, counter) := delete_by_count fs' (t_counter t) (MaxCheckpoints (j_policy j))
            (take (Z.to_nat (t_counter t - MaxCheckpoints (j_policy j)))
                  (sort_slice string (older fs') (t_candidates t))) in
          (fs, counter, sort_slice string (older fs') (t_candidates t))
     else (fs', t_counter t, t_candidates t)) = (fs1, t_counter t', t_candidates t') /\
    t_total t' = t_total t /\ t_sizes t' = t_sizes t) as (t' & fs1 & H1 & -> & Htot & Hsz).
  { destruct (_ && _) eqn:E.
    - pose proof (alone_count_remove (with_fs g fs')
        (take (Z.to_nat (t_counter t - MaxCheckpoints (j_policy j)))
              (sort_slice string (older fs') (t_candidates t))) pinned
        (set_candidates t (sort_slice string (older fs') (t_candidates t)))) as Hc. simpl in Hc.
      destruct (delete_by_count _ _ _ _) as [fs1 n]. eexists _, fs1.
      split; [apply alone_step; [done|]; simpl; rewrite E; exact Hc|]. done.
    - exists t, fs'. split; [|done]. apply alone_step; [done|]. simpl. rewrite E. apply rtc_refl. }
  etrans; [exact H1|]. apply alone_step; [done|]. simpl. unfold size_phase. rewrite <- Htot, <- Hsz.
  set (g1 := report_unreachable _ _ _ _).
  assert (g_fs g1 = fs1) as Hg1 by apply report_fs.
  destruct (MaxTotalSize (j_policy j) <? t_total t') eqn:E.
  - pose proof (alone_size_remove g1
      (take_until_excess (t_sizes t') (Value (t_total t' - MaxTotalSize (j_policy j)))
         (sort_slice string (older fs1) (t_candidates t'))) pinned
      (set_candidates t' (sort_slice string (older fs1) (t_candidates t')))) as Hs.
    rewrite Hg1 in Hs. simpl in Hs |- *.
    destruct (delete_by_size _ _ _ _ _) as [fs2 tot]. destruct Hs as (t2 & Hs & <-).
    apply alone_step; [done|]. simpl. rewrite E, Hg1. etrans; [exact Hs|].
    apply alone_step; [done|]. apply rtc_refl.
  - apply alone_step; [done|]. simpl. rewrite E. apply alone_step; [done|]. simpl. rewrite E.
    rewrite <- Hg1. apply rtc_refl.
Qed.

Lemma alone_evaluation g :
  rtc alone (Begin, g)
    (Done, handleCheckpointsForLevel env cluster sort_slice (j_policies j) now (j_details j)
             (j_level j) (j_policy j) g).
Proof.
  apply alone_step; [done|]. unfold handleCheckpointsForLevel. simpl.
  destruct (MaxCheckpoints _ <=? 0); [apply rtc_refl|].
  destruct (Value _ <=? 0); [apply rtc_refl|]. destruct (Value _ <=? 0); [apply rtc_refl|].
  destruct (Glob _ _) as [l|]; [|apply rtc_refl].
  etrans; [apply alone_reading|]. simpl. etrans; [apply alone_partitioning|]. simpl.
  apply alone_step; [done|]. simpl. destruct (_ && _); [apply alone_orphans|apply alone_enforce].
Qed.

Lemma alone_det x y z : alone x y -> alone x z -> y = z.
Proof. intros [_ ->] [_ ->]. done. Qed.

Lemma alone_unique x g1 g2 : rtc alone x (Done, g1) -> rtc alone x (Done, g2) -> g1 = g2.
Proof.
  intros H. revert g2. remember (Done, g1) as y eqn:Ey. induction H as [x|x y z Hxy _ IH].
  - subst x. intros g2 H. apply rtc_inv in H as [H|(y & [H _] & _)]; [by simplify_eq|done].
  - intros g2 H. apply rtc_inv in H as [->|(y' & Hy & H)]; [by destruct Hxy|].
    apply IH; [done|]. by rewrite (alone_det _ _ _ Hxy Hy).
Qed.
End Alone.
End Evaluation.

(** ** The evaluations of one call of [applyPolicies] *)

Definition policy_jobs (policies : policySnapshot) (details : checkpointDetails) : list job :=
  let mk level policy := {| j_policies := policies; j_details := details; j_level := level; j_policy := policy |} in
  match findContainerPolicy policies details with
  | Some p => [mk "container" {| RetainOrphan := ifNil (cp_RetainOrphan p);
                                 MaxCheckpoints := toInfinityCount (cp_MaxCheckpoints p);
                                 MaxCheckpointSize := toInfinitySize (cp_MaxCheckpointSize p);
                                 MaxTotalSize := toInfinitySize (cp_MaxTotalSize p) |}]
  | None =>
  match findPodPolicy policies details with
  | Some p => [mk "pod" {| RetainOrphan := ifNil (pp_RetainOrphan p);
                           MaxCheckpoints := toInfinityCount (pp_MaxCheckpoints p);
                           MaxCheckpointSize := toInfinitySize (pp_MaxCheckpointSize p);
                           MaxTotalSize := toInfinitySize (pp_MaxTotalSize p) |}]
  | None =>
  match findNamespacePolicy policies details with
  | Some p => [mk "namespace" {| RetainOrphan := ifNil (np_RetainOrphan p);
                                 MaxCheckpoints := toInfinityCount (np_MaxCheckpoints p);
                                 MaxCheckpointSize := toInfinitySize (np_MaxCheckpointSize p);
                                 MaxTotalSize := toInfinitySize (np_MaxTotalSize p) |}]
  | None =>
      let global n total := {| RetainOrphan := retainOrphan policies; MaxCheckpoints := n;
                               MaxCheckpointSize := maxCheckpointSize policies; MaxTotalSize := total |} in
      [mk "container" (global (maxCheckpointsPerContainer policies) (maxTotalSizePerContainer policies));
       mk "pod" (global (maxCheckpointsPerPod policies) (maxTotalSizePerPod policies));
       mk "namespace" (global (maxCheckpointsPerNamespace policies) (maxTotalSizePerNamespace policies))]
  end
  end
  end.

(** A goroutine: the evaluations it still has to make, the first one at a stage. *)
Abbreviation goroutine := (list job * stage)%type.

Section Goroutines.
Context (env : ArchiveEnv).
Context (sort_slice : forall A : Type, (A -> A -> bool) -> list A -> list A).

(** A step of a goroutine; it has ended when no evaluation is left. *)
Definition gostep (v : view) (gr : goroutine) (g : gc_state) : option (goroutine * gc_state) :=
  match gr with
  | ([], _) => None
  | (_ :: js, Done) => Some ((js, Begin), g)
  | (j :: js, st) => let '(st', g') := estep env sort_slice j v st g in Some ((j :: js, st'), g')
  end.

Definition goalone (now : Time) (cluster : Cluster) (x y : goroutine * gc_state) : Prop :=
  gostep (quiet now cluster x.2) x.1 x.2 = Some y.

Lemma goalone_evaluation now cluster j js x y :
  rtc (alone env sort_slice now cluster j) x y ->
  rtc (goalone now cluster) ((j :: js, x.1), x.2) ((j :: js, y.1), y.2).
Proof.
  induction 1 as [x|[st g] y z [Hd ->] _ IH]; [apply rtc_refl|]. eapply rtc_l; [|exact IH].
  unfold goalone. simpl in *. destruct (estep env sort_slice j _ st g) eqn:E. by destruct st.
Qed.

Lemma goalone_jobs now cluster js g :
  rtc (goalone now cluster) ((js, Begin), g)
    (([], Begin), fold_left (fun g j => handleCheckpointsForLevel env cluster sort_slice (j_policies j) now
                                (j_details j) (j_level j) (j_policy j) g) js g).
Proof.
  revert g. induction js as [|j js IH]; intros g; simpl; [apply rtc_refl|].
  etrans; [exact (goalone_evaluation now cluster j js _ _ (alone_evaluation env sort_slice now cluster j g))|].
  eapply rtc_l; [|apply IH]. done.
Qed.

Lemma applyPolicies_jobs cluster policies now details g :
  applyPolicies env cluster sort_slice policies now details g =
  fold_left (fun g j => handleCheckpointsForLevel env cluster sort_slice (j_policies j) now
                          (j_details j) (j_level j) (j_policy j) g) (policy_jobs policies details) g.
Proof.
  unfold applyPolicies, policy_jobs. destruct (findContainerPolicy _ _); [done|].
  destruct (findPodPolicy _ _); [done|]. by destruct (findNamespacePolicy _ _).
Qed.

Lemma goalone_unique now cluster x y1 y2 :
  rtc (goalone now cluster) x (([], Begin), y1) -> rtc (goalone now cluster) x (([], Begin), y2) -> y1 = y2.
Proof.
  intros H. remember (([] : list job, Begin), y1) as y eqn:Ey. induction H as [x|x y z Hxy _ IH].
  - subst x. intros H. apply rtc_inv in H as [H|(y & H & _)]; [by simplify_eq|done].
  - intros H. apply rtc_inv in H as [->|(y' & Hy & H)]; [done|].
    apply IH; [done|]. unfold goalone in *. rewrite Hxy in Hy. by simplify_eq.
Qed.

End Goroutines.

(** ** Interference *)

(** All goroutines of the collector over the shared state.  Besides them anything
    else may change the files: the kubelet, the PodRestore controller, a user. *)
Record collectors := {
  co_goroutines : list goroutine;
  co_state : gc_state
}.

Inductive co_act := Run (i : nat) (v : view) | Other (fs : FS).

(** What is recorded of a step of an evaluation: the goroutine and how many
    evaluations it had left, the job, the stage, and what the step saw. *)
Record entry := {
  en_go : nat;
  en_left : nat;
  en_job : job;
  en_stage : stage;
  en_view : view;
  en_seen : gc_state
}.

(** The evaluation an entry belongs to. *)
Definition of_evaluation (i n : nat) (e : entry) : bool := (en_go e =? i)%nat && (en_left e =? n)%nat.

(** The step rotates an archive out because of the count. *)
Definition counting (st : stage) : bool :=
  match st with CountRemove (_ :: _) _ _ => true | _ => false end.

Section Interference.
Context (env : ArchiveEnv).
Context (sort_slice : forall A : Type, (A -> A -> bool) -> list A -> list A) `{!GoSort sort_slice}.

Definition entry_of (i : nat) (gr : goroutine) (v : view) (g : gc_state) : list entry :=
  match gr with
  | ([], _) | (_, Done) => []
  | (j :: js, st) => [ {| en_go := i; en_left := S (length js); en_job := j; en_stage := st;
                          en_view := v; en_seen := g |} ]
  end.

Definition costep (a : co_act) (s : collectors) : option (collectors * list entry) :=
  match a with
  | Other fs => Some ({| co_goroutines := co_goroutines s; co_state := with_fs (co_state s) fs |}, [])
  | Run i v =>
      gr ← co_goroutines s !! i;
      '(gr', g') ← gostep env sort_slice v gr (co_state s);
      Some ({| co_goroutines := <[i := gr']> (co_goroutines s); co_state := g' |},
            entry_of i gr v (co_state s))
  end.

Fixpoint corun (ls : list co_act) (s : collectors) : option (collectors * list entry) :=
  match ls with
  | [] => Some (s, [])
  | a :: ls' =>
      '(s1, e) ← costep a s;
      '(s2, tr) ← corun ls' s1;
      Some (s2, e ++ tr)
  end.

Definition spawn (gos : list (list job)) (g : gc_state) : collectors :=
  {| co_goroutines := map (fun js => (js, Begin)) gos; co_state := g |}.

(** *** The run of one evaluation

    Whatever else happens, an evaluation sees a sequence of views and states. *)

(** The stage after [obs], and the entries with the stages on the way. *)
Fixpoint after (j : job) (st : stage) (obs : list (view * gc_state)) : stage :=
  match obs with
  | [] => st
  | (v, g) :: obs' => after j (estep env sort_slice j v st g).1 obs'
  end.

Fixpoint passed (j : job) (st : stage) (obs : list (view * gc_state)) : list (stage * view * gc_state) :=
  match obs with
  | [] => []
  | (v, g) :: obs' => (st, v, g) :: passed j (estep env sort_slice j v st g).1 obs'
  end.

(** What holds of the locals at a stage: the archives satisfy [P], there are at most
    [n] of them, and the counter is at most [n]. *)
Definition tally_ok (P : string -> Prop) (n : nat) (t : tally) : Prop :=
  Forall P (t_candidates t) /\ (length (t_candidates t) <= n)%nat /\ t_counter t <= Z.of_nat n.

Definition stage_ok (P : string -> Prop) (n : nat) (st : stage) : Prop :=
  match st with
  | Begin | Done => True
  | Reading todo kept => Forall P kept /\ (length kept + length todo <= n)%nat
  | Partitioning todo archives _ => Forall P archives /\ (length archives <= n /\ length todo <= n)%nat
  | Deciding archives _ => Forall P archives /\ (length archives <= n)%nat
  | OrphanCheck todo => Forall P todo /\ (length todo <= n)%nat
  | OrphanRemove a todo => P a /\ Forall P todo /\ (length todo < n)%nat
  | Stating todo _ t =>
      Forall P todo /\ Forall P (t_candidates t) /\
      (length todo + length (t_candidates t) <= n)%nat /\ t_counter t <= Z.of_nat n
  | PinCheck c _ todo _ t | OverRemove c todo _ t =>
      P c /\ Forall P todo /\ Forall P (t_candidates t) /\
      (length todo + length (t_candidates t) < n)%nat /\ t_counter t <= Z.of_nat n
  | CountSort _ t | CountReport _ t | SizeSort _ t | SizeReport _ t => tally_ok P n t
  | CountRemove toDelete _ t | SizeRemove toDelete _ t =>
      Forall P toDelete /\ (length toDelete <= n)%nat /\ tally_ok P n t
  end.

(** How many steps are left at most. *)
Definition work (n : nat) (st : stage) : nat :=
  match st with
  | Begin => 7 * n + 12
  | Reading todo _ => length todo + 6 * n + 11
  | Partitioning todo _ _ => length todo + 5 * n + 9
  | Deciding _ _ => 5 * n + 8
  | OrphanCheck todo => 2 * length todo + 1
  | OrphanRemove _ todo => 2 * length todo + 2
  | Stating todo _ _ => 3 * length todo + 2 * n + 7
  | PinCheck _ _ todo _ _ => 3 * length todo + 2 * n + 9
  | OverRemove _ todo _ _ => 3 * length todo + 2 * n + 8
  | CountSort _ _ => 2 * n + 6
  | CountRemove toDelete _ _ => length toDelete + n + 5
  | CountReport _ _ => n + 4
  | SizeSort _ _ => n + 3
  | SizeRemove toDelete _ _ => length toDelete + 2
  | SizeReport _ _ => 1
  | Done => 0
  end%nat.

(** How many archives may still be rotated out because of the count. *)
Definition budget (max : Z) (n : nat) (st : stage) : nat :=
  match st with
  | Begin | Reading _ _ | Partitioning _ _ _ | Deciding _ _ | Stating _ _ _ | PinCheck _ _ _ _ _
  | OverRemove _ _ _ _ | CountSort _ _ => Z.to_nat (Z.of_nat n - max)
  | CountRemove toDelete _ _ => length toDelete
  | _ => 0
  end%nat.

Lemma sort_Forall (P : string -> Prop) less l : Forall P l -> Forall P (sort_slice string less l).
Proof. by rewrite sort_slice_perm. Qed.

Lemma sort_length less (l : list string) : length (sort_slice string less l) = length l.
Proof. apply Permutation_length, sort_slice_perm. Qed.

Lemma take_until_excess_length sizes e l : (length (take_until_excess sizes e l) <= length l)%nat.
Proof.
  revert e. induction l as [|a l IH]; intros e; simpl; [lia|].
  destruct (_ <=? 0); simpl; [lia|]. specialize (IH (int64 (e - default 0 (sizes !! a)))). lia.
Qed.

(** Split a conjunction of bounds and discharge its parts. *)
Local Ltac bounds := repeat split; simpl; auto; try done; try tauto; try lia.

(** One step that is not the listing: the locals stay in bounds, less work is left,
    and a rotation uses up budget. *)
Lemma estep_ok P n j v st g :
  st <> Begin -> st <> Done -> stage_ok P n st ->
  (forall a todo kept, st = Reading (a :: todo) kept ->
     in_scope env (j_policies j) (v_now v) (g_fs g) (j_level j) a = true -> P a) ->
  let st' := (estep env sort_slice j v st g).1 in
  st' <> Begin /\ stage_ok P n st' /\ (work n st' < work n st)%nat /\
  (budget (MaxCheckpoints (j_policy j)) n st' + (if counting st then 1 else 0) <=
   budget (MaxCheckpoints (j_policy j)) n st)%nat.
Proof.
  intros Hb Hd Hok HP.
  destruct st as [|[|a todo] kept|[|a todo] archives pinned|archives pinned|[|a todo]|a todo
    |[|c todo] pinned t|c size todo pinned t|c todo pinned t|pinned t|[|a rest] pinned t|pinned t
    |pinned t|[|a rest] pinned t|pinned t|]; try done; simpl in *; unfold tally_ok in *.
  - destruct Hok as [H1 H2]. bounds.
  - destruct Hok as [H1 H2]. destruct (in_scope _ _ _ _ _ _) eqn:E; simpl.
    + rewrite Forall_app, length_app. simpl. split; [done|]. split; [|lia].
      repeat split; [done| |lia]. constructor; [|done]. eauto.
    + bounds.
  - bounds.
  - destruct Hok as (H1 & H2 & H3). bounds.
  - destruct (negb _ && negb _); simpl; bounds.
  - bounds.
  - destruct Hok as [[H1 H2]%Forall_cons H3]. destruct (isCheckpointPinned _ _); simpl; bounds.
  - destruct Hok as (H1 & H2 & H3). bounds.
  - destruct Hok as (H1 & H2 & H3 & H4). bounds.
  - destruct Hok as ([H1 H1']%Forall_cons & H2 & H3 & H4).
    destruct (os_Stat _ _); simpl; bounds.
  - destruct Hok as (H1 & H2 & H3 & H4 & H5).
    destruct (Cmp _ _), (isCheckpointPinned _ _); simpl; rewrite ?length_app; simpl;
      bounds; try (apply Forall_app; split; [done|by constructor]).
  - destruct Hok as (H1 & H2 & H3 & H4 & H5). bounds.
  - destruct Hok as (H1 & H2 & H3). destruct (_ && _) eqn:E; simpl.
    + to_prop. pose proof (sort_length (v_less v) (t_candidates t)) as Hl.
      rewrite !length_take, Hl. repeat split; simpl; auto using sort_Forall, Forall_take; try done; lia.
    + bounds.
  - destruct Hok as (H1 & H2 & H3). bounds.
  - destruct Hok as ([H0 H1]%Forall_cons & H2 & H3 & H4 & H5).
    destruct (_ <=? _); simpl; bounds.
  - bounds.
  - destruct Hok as (H1 & H2 & H3). destruct (_ <? _); simpl.
    + pose proof (sort_length (v_less v) (t_candidates t)) as Hl.
      pose proof (take_until_excess_length (t_sizes t) (Value (t_total t - MaxTotalSize (j_policy j)))
        (sort_slice string (v_less v) (t_candidates t))) as Hl2.
      repeat split; simpl; auto using sort_Forall; try done; try lia.
      apply Forall_forall. intros a Ha. apply take_until_excess_sub in Ha.
      rewrite sort_slice_perm in Ha. rewrite Forall_forall in H1. auto.
    + bounds.
  - destruct Hok as (H1 & H2 & H3). bounds.
  - destruct Hok as ([H0 H1]%Forall_cons & H2 & H3 & H4 & H5).
    destruct (_ <? _); simpl; bounds.
  - bounds.
Qed.
(** The archive a step removes satisfies what holds of the locals. *)
Lemma removing_ok P n st a : stage_ok P n st -> removing st = Some a -> P a.
Proof.
  destruct st as [| | | | | | | | | |[|]| | |[|]| |]; simpl; intros H [= <-]; try (by apply H);
    by destruct H as [[H _]%Forall_cons _].
Qed.

(** A step changes the files only by the removal of that archive. *)
Lemma estep_files j v st g :
  g_fs (estep env sort_slice j v st g).2 =
  match removing st with Some a => removeArchiveUnlessPinned (g_fs g) a | None => g_fs g end.
Proof.
  destruct st as [|[|]|[|]| |[|]| |[|]| | | |[|]| | |[|]| |]; simpl; auto using report_fs.
Qed.

Definition unfinished (x : stage * view * gc_state) : Prop := x.1.1 <> Done.
Definition counts (x : stage * view * gc_state) : bool := counting x.1.1.

(** The step has read archive [a] and found it in the scope of the evaluation. *)
Definition reads (j : job) (a : string) (x : stage * view * gc_state) : Prop :=
  (exists todo kept, x.1.1 = Reading (a :: todo) kept) /\
  in_scope env (j_policies j) (v_now x.1.2) (g_fs x.2) (j_level j) a = true.

Lemma passed_ok P n j st obs :
  st <> Begin -> stage_ok P n st ->
  Forall unfinished (passed j st obs) ->
  (forall a x, x ∈ passed j st obs -> reads j a x -> P a) ->
  (length obs <= work n st)%nat /\
  (length (List.filter counts (passed j st obs)) <= budget (MaxCheckpoints (j_policy j)) n st)%nat /\
  Forall (fun x => stage_ok P n x.1.1) (passed j st obs).
Proof.
  revert st. induction obs as [|[v g] obs IH]; intros st Hb Hok Hu HP; simpl in *.
  { split; [lia|]. split; [lia|done]. }
  apply Forall_cons in Hu as [Hd Hu]. unfold unfinished in Hd. simpl in Hd.
  destruct (estep_ok P n j v st g) as (Hb' & Hok' & Hw & Hc); try done.
  { intros a todo kept -> Hs. eapply (HP a); [by left|]. split; simpl; eauto. }
  destruct (IH _ Hb' Hok' Hu) as (H1 & H2 & H3).
  { intros a x Hx. apply HP. by right. }
  split; [lia|]. split; [|by constructor]. unfold counts at 1. simpl.
  destruct (counting st); simpl; lia.
Qed.

(** What an evaluation that begins in state [g] lists. *)
Definition listing (j : job) (g : gc_state) : list string :=
  if not_enforced (j_policy j) then []
  else default [] (Glob (g_fs g) (level_pattern (j_policies j) (j_details j) (j_level j))).

Lemma estep_begin j v g :
  (estep env sort_slice j v Begin g).1 = Reading (listing j g) [] \/
  (estep env sort_slice j v Begin g).1 = Done.
Proof.
  unfold listing, not_enforced. simpl. destruct (_ <=? 0); [by right|].
  destruct (_ <=? 0); [by right|]. destruct (_ <=? 0); [by right|].
  destruct (Glob _ _); [by left|by right].
Qed.

Lemma passed_done j obs : Forall unfinished (passed j Done obs) -> obs = [].
Proof. destruct obs as [|[v g] obs]; [done|]. by intros [? _]%Forall_cons. Qed.

(** A whole evaluation, whatever it sees. *)
Lemma passed_begin j v g obs :
  Forall unfinished (passed j Begin ((v, g) :: obs)) ->
  let es := passed j Begin ((v, g) :: obs) in
  let n := length (listing j g) in
  (length es <= 7 * n + 12)%nat /\
  (length (List.filter counts es) <= Z.to_nat (Z.of_nat n - MaxCheckpoints (j_policy j)))%nat /\
  (forall a x, x ∈ es -> removing x.1.1 = Some a -> exists y, y ∈ es /\ reads j a y).
Proof.
  intros Hu es n. subst es. cbn [passed] in *. apply Forall_cons in Hu as [_ Hu].
  destruct (estep_begin j v g) as [E|E]; rewrite E in *.
  2:{ apply passed_done in Hu as ->. simpl. split; [lia|]. split; [lia|].
      intros a x Hx Hr. apply list_elem_of_singleton in Hx as ->. done. }
  set (st := Reading (listing j g) []) in *.
  set (P a := exists y, y ∈ (Begin, v, g) :: passed j st obs /\ reads j a y).
  destruct (passed_ok P n j st obs) as (H1 & H2 & H3); [done|by split; [constructor|simpl; lia]|done| |].
  { intros a x Hx Hr. exists x. split; [by right|done]. }
  assert (forall st' l, length (passed j st' l) = length l) as Hlen.
  { intros st' l. revert st'. induction l as [|[v' g'] l IH]; intros st'; simpl; [done|]. by rewrite IH. }
  cbn [length List.filter]. change (counts (Begin, v, g)) with false. cbn [negb].
  split; [|split].
  - rewrite Hlen. unfold st, work in H1. fold n in H1. lia.
  - done.
  - intros a x [->|Hx]%elem_of_cons Hr; [done|]. rewrite Forall_forall in H3. specialize (H3 x Hx).
    exact (removing_ok P n _ a H3 Hr).
Qed.

(** *** Only archives are removed *)

(** Everything an evaluation holds is the path of an archive. *)
Definition archives_only (st : stage) : Prop :=
  (exists n, stage_ok is_archive n st) /\
  match st with Reading todo _ => Forall is_archive todo | _ => True end.

Lemma listing_archives j g : fs_wf (g_fs g) -> Forall is_archive (listing j g).
Proof.
  intros Hwf. unfold listing. destruct (not_enforced _); [constructor|].
  destruct (Glob (g_fs g) _) as [l|] eqn:E; [|constructor]. simpl. apply Forall_forall. intros a Ha.
  destruct (level_pattern_cases (j_policies j) (j_details j) (j_level j)) as [Hp|Hp].
  - rewrite Hp, Glob_empty_pattern in E by done. simplify_eq. by apply elem_of_nil in Ha.
  - apply list_elem_of_In in Ha. by eapply Glob_tar.
Qed.

Lemma estep_archives j v st g :
  fs_wf (g_fs g) -> archives_only st ->
  archives_only (estep env sort_slice j v st g).1 /\ collected (g_fs g) (g_fs (estep env sort_slice j v st g).2).
Proof.
  intros Hwf [[n Hok] Htodo]. split.
  - assert (st = Begin \/ st = Done \/ st <> Begin /\ st <> Done) as [->|[->|[Hb Hd]]]
      by (destruct st; auto; right; right; done).
    + destruct (estep_begin j v g) as [->| ->]; [|by split; [exists 0%nat|]].
      split; [exists (length (listing j g)); split; [constructor|simpl; lia]|]. by apply listing_archives.
    + split; [exists 0%nat|]; done.
    + destruct (estep_ok is_archive n j v st g) as (_ & Hok' & _); try done.
      { intros a todo kept -> _. by apply Forall_cons in Htodo as [Ha _]. }
      split; [by exists n|].
      destruct st as [|[|a todo] kept|[|]|archives pinned|[|]| |[|]| | | |[|]| | |[|]| |]; simpl in *; try done;
        repeat (case_match; try done); by apply Forall_cons in Htodo as [_ Htodo].
  - rewrite estep_files. destruct (removing st) as [a|] eqn:Er; [|auto with cro].
    apply collected_one. by eapply removing_ok.
Qed.

Lemma gostep_archives v gr g gr' g' :
  fs_wf (g_fs g) -> archives_only gr.2 -> gostep env sort_slice v gr g = Some (gr', g') ->
  archives_only gr'.2 /\ collected (g_fs g) (g_fs g').
Proof.
  intros Hwf Ha H. destruct gr as [[|j js] st]; [done|]. simpl in *.
  assert (archives_only Begin) as Hbegin by (by split; [exists 0%nat|]).
  pose proof (estep_archives j v st g Hwf Ha) as He.
  destruct (estep env sort_slice j v st g) as [st1 g1]. simpl in He.
  destruct st; simplify_eq; simpl; auto with cro.
Qed.

(** *** From the system to one evaluation *)

(** The job and stage of the evaluation with which a goroutine has [n] left. *)
Definition position (gr : goroutine) (n : nat) : option (job * stage) :=
  match (length gr.1 - n)%nat, decide (0 < n <= length gr.1)%nat with
  | k, left _ => j ← gr.1 !! k; Some (j, if (k =? 0)%nat then gr.2 else Begin)
  | _, right _ => None
  end.

Definition entry_with (i n : nat) (j : job) (x : stage * view * gc_state) : entry :=
  {| en_go := i; en_left := n; en_job := j; en_stage := x.1.1; en_view := x.1.2; en_seen := x.2 |}.

(** The entries of an evaluation are what it passes from its position on. *)
Definition trace_of (i n : nat) (o : option (job * stage)) (es : list entry) : Prop :=
  match o with
  | None => es = []
  | Some (j, st) => exists obs, es = entry_with i n j <$> passed j st obs /\ Forall unfinished (passed j st obs)
  end.

Lemma trace_of_nil i n o : trace_of i n o [].
Proof. destruct o as [[j st]|]; [|done]. by exists []. Qed.
Lemma position_head j js st : position (j :: js, st) (S (length js)) = Some (j, st).
Proof.
  unfold position. cbn [fst snd length]. rewrite Nat.sub_diag. destruct (decide _) as [_|H]; [done|lia].
Qed.

Lemma position_tail j js st n :
  n <> S (length js) -> position (j :: js, st) n = position (js, Begin) n.
Proof.
  intros Hn. unfold position. cbn [fst snd length].
  destruct (decide (0 < n <= S (length js))%nat) as [H|H], (decide (0 < n <= length js)%nat) as [H'|H'];
    try done; try lia.
  replace (S (length js) - n)%nat with (S (length js - n)) by lia. cbn.
  destruct (js !! (length js - n)%nat); [|done]. simpl. by destruct (length js - n =? 0)%nat.
Qed.

Lemma position_end js n : (length js < n)%nat -> position (js, Begin) n = None.
Proof. intros H. unfold position. simpl. destruct (decide _); [lia|done]. Qed.

(** What one step of a goroutine means for one of its evaluations. *)
Lemma gostep_position i n v gr g gr' g' :
  gostep env sort_slice v gr g = Some (gr', g') ->
  let e := List.filter (of_evaluation i n) (entry_of i gr v g) in
  (e = [] /\ (position gr' n = position gr n \/ position gr' n = None)) \/
  exists j st, position gr n = Some (j, st) /\ st <> Done /\ e = [entry_with i n j (st, v, g)] /\
    position gr' n = Some (j, (estep env sort_slice j v st g).1).
Proof.
  intros H. destruct gr as [[|j js] st]; [done|].
  assert (st = Done \/ st <> Done) as [->|Hd] by (destruct st; auto; by right).
  - simpl in H. simplify_eq. left. split; [done|].
    destruct (decide (n = S (length js))) as [->|Hn]; [right; apply position_end; lia|].
    left. by rewrite position_tail.
  - assert (entry_of i (j :: js, st) v g = [entry_with i (S (length js)) j (st, v, g)]) as He by (by destruct st).
    assert (gr' = (j :: js, (estep env sort_slice j v st g).1)) as ->.
    { simpl in H. destruct (estep env sort_slice j v st g); by destruct st; simplify_eq. }
    intros e. subst e. rewrite He. cbn [List.filter]. unfold of_evaluation. simpl. rewrite Nat.eqb_refl. simpl.
    destruct (decide (n = S (length js))) as [->|Hn].
    + right. exists j, st. rewrite Nat.eqb_refl, !position_head. done.
    + left. rewrite !position_tail by done. split; [|by left].
      destruct n as [|n]; [done|]. destruct (length js =? n)%nat eqn:E; [|done]. apply Nat.eqb_eq in E. lia.
Qed.

Definition position_in (s : collectors) (i n : nat) : option (job * stage) :=
  gr ← co_goroutines s !! i; position gr n.

Lemma entry_of_go i gr v g e : e ∈ entry_of i gr v g -> en_go e = i.
Proof.
  destruct gr as [[|j js] st]; [by intros ?%elem_of_nil|].
  destruct st; simpl; try (by intros ?%elem_of_nil); by intros ->%list_elem_of_singleton.
Qed.

Lemma costep_position a s s' e i n :
  costep a s = Some (s', e) ->
  let e' := List.filter (of_evaluation i n) e in
  (e' = [] /\ (position_in s' i n = position_in s i n \/ position_in s' i n = None)) \/
  exists j st v, position_in s i n = Some (j, st) /\ st <> Done /\
    e' = [entry_with i n j (st, v, co_state s)] /\
    position_in s' i n = Some (j, (estep env sort_slice j v st (co_state s)).1).
Proof.
  destruct a as [k v|fs]; simpl; [|intros [= <- <-]; left; by auto].
  destruct (co_goroutines s !! k) as [gr|] eqn:Ek; [|done]. cbn [mbind option_bind].
  destruct (gostep env sort_slice v gr (co_state s)) as [[gr' g']|] eqn:Eg; [|done].
  cbn [mbind option_bind]. intros [= <- <-]. unfold position_in. cbn [co_goroutines].
  destruct (decide (k = i)) as [->|Hne].
  - rewrite Ek, list_lookup_insert_eq by (by eapply lookup_lt_Some). cbn [mbind option_bind].
    destruct (gostep_position i n v gr (co_state s) gr' g' Eg) as [?|(j & st & ? & ? & ? & ?)]; [by left|].
    right. by exists j, st, v.
  - rewrite list_lookup_insert_ne by done. left. split; [|by left].
    destruct (List.filter _ _) as [|x l] eqn:Ef; [done|].
    assert (In x (x :: l)) as Hin by (by left). rewrite <- Ef in Hin.
    apply filter_In in Hin as [Hin Hx]. apply andb_prop in Hx as [Hx%Nat.eqb_eq _].
    apply list_elem_of_In, entry_of_go in Hin. congruence.
Qed.

Lemma corun_trace ls s s' tr i n :
  corun ls s = Some (s', tr) -> trace_of i n (position_in s i n) (List.filter (of_evaluation i n) tr).
Proof.
  revert s tr. induction ls as [|a ls IH]; intros s tr H; simpl in H; [simplify_eq; apply trace_of_nil|].
  destruct (costep a s) as [[s1 e]|] eqn:Ea; [|done]. cbn [mbind option_bind] in H.
  destruct (corun ls s1) as [[s2 tr']|] eqn:Er; [|done]. cbn [mbind option_bind] in H. injection H as <- <-.
  specialize (IH s1 tr' Er). rewrite List.filter_app.
  destruct (costep_position a s s1 e i n Ea) as [[-> [Hp|Hp]]|(j & st & v & Hp & Hd & -> & Hp')].
  - by rewrite Hp in IH.
  - rewrite Hp in IH. simpl in *. rewrite IH. apply trace_of_nil.
  - rewrite Hp. rewrite Hp' in IH. destruct IH as (obs & -> & Hu). exists ((v, co_state s) :: obs).
    split; [done|]. by constructor.
Qed.

(** The entries of evaluation [n] of goroutine [i], and the archives it listed. *)
Definition entries_of (i n : nat) (tr : list entry) : list entry := List.filter (of_evaluation i n) tr.

Definition listed (es : list entry) : list string :=
  match es with [] => [] | e :: _ => listing (en_job e) (en_seen e) end.

Lemma counting_entries i n j l :
  length (List.filter (fun e => counting (en_stage e)) (entry_with i n j <$> l)) =
  length (List.filter counts l).
Proof.
  induction l as [|y l IH]; csimpl; [done|]. unfold counts at 1.
  destruct (counting y.1.1); csimpl; by rewrite IH.
Qed.

Lemma position_spawn gos g i n j st : position_in (spawn gos g) i n = Some (j, st) -> st = Begin.
Proof.
  unfold position_in, spawn. simpl. rewrite list_lookup_fmap.
  destruct (gos !! i) as [js|]; [|done]. simpl. unfold position. simpl.
  destruct (decide _); [|done]. destruct (js !! _); [|done]. simpl. intros [= <- <-]. by destruct (_ =? 0)%nat.
Qed.

(** C6. Evaluations that run concurrently, with each other and with anything else
    that changes the files in between, stay safe.  In every run of any number of
    goroutines, each evaluation takes at most seven steps for each archive it listed
    and twelve more, and none of its steps has to wait, so it ends.  Every archive it
    goes to remove is one it has read before and found in the scope of its level, and
    the removal itself spares it if it is pinned at that moment
    ([removeArchiveUnlessPinned]).  And it rotates out because of the count at most as
    many archives as its own listing has more than the limit. *)
Theorem interleaved_evaluations_bounded gos g ls s tr i n :
  corun ls (spawn gos g) = Some (s, tr) ->
  let es := entries_of i n tr in
  (length es <= 7 * length (listed es) + 12)%nat /\
  (forall e, e ∈ es ->
     (length (List.filter (fun e => counting (en_stage e)) es) <=
      Z.to_nat (Z.of_nat (length (listed es)) - MaxCheckpoints (j_policy (en_job e))))%nat) /\
  (forall e a, e ∈ es -> removing (en_stage e) = Some a ->
     g_fs (estep env sort_slice (en_job e) (en_view e) (en_stage e) (en_seen e)).2 =
       removeArchiveUnlessPinned (g_fs (en_seen e)) a /\
     exists r todo kept, r ∈ es /\ en_stage r = Reading (a :: todo) kept /\
       in_scope env (j_policies (en_job r)) (v_now (en_view r)) (g_fs (en_seen r)) (j_level (en_job r)) a = true) /\
  (forall gr v, co_goroutines s !! i = Some gr -> gr.1 <> [] -> is_Some (costep (Run i v) s)).
Proof.
  intros Hr es. pose proof (corun_trace ls _ s tr i n Hr) as Ht. fold (entries_of i n tr) in Ht. fold es in Ht.
  split_and!.
  4:{ intros [js st] v Hl Hne. destruct js as [|j js]; [done|]. simpl. rewrite Hl. cbn [mbind option_bind].
      unfold gostep. destruct (estep env sort_slice j v st (co_state s)). destruct st; by eexists. }
  all: destruct (position_in (spawn gos g) i n) as [[j st]|] eqn:Ep; simpl in Ht;
    [apply position_spawn in Ep as ->; destruct Ht as ([|[v0 g0] obs] & Hes & Hu)|]; rewrite ?Ht, ?Hes;
    try (simpl; lia); try (by intros ? ?%elem_of_nil); try (by intros ? ? ?%elem_of_nil).
  all: destruct (passed_begin j v0 g0 obs Hu) as (H1 & H2 & H3).
  - rewrite length_fmap. exact H1.
  - intros e (x & -> & Hx)%list_elem_of_fmap. simpl en_job.
    by rewrite counting_entries.
  - intros e a (x & -> & Hx)%list_elem_of_fmap Ha. simpl in Ha. split.
    + rewrite estep_files. simpl. by rewrite Ha.
    + destruct (H3 a x Hx Ha) as (y & Hy & (todo & kept & Hst) & Hin).
      exists (entry_with i n j y), todo, kept. split; [|done].
      apply list_elem_of_fmap. by exists y.
Qed.
End Interference.

(** ** Two evaluations at once *)

(** Five archives of the pod [web], from two containers. *)
Definition race_archive (container day : string) : string :=
  "/c/checkpoint-web_team-" +:+ container +:+ "-2026-01-0" +:+ day +:+ "T00:00:00Z.tar".

Definition race_files : list string :=
  [race_archive "nginx" "1"; race_archive "log" "2"; race_archive "nginx" "3"; race_archive "log" "4";
   race_archive "nginx" "5"].

Definition race_gc : gc_state :=
  {| g_fs := {| fs_nodes :=
       {[ "/c" := NDir;
          race_archive "nginx" "1" := demo_file 100 1 "team/web/nginx";
          race_archive "log" "2" := demo_file 100 2 "team/web/log";
          race_archive "nginx" "3" := demo_file 100 3 "team/web/nginx";
          race_archive "log" "4" := demo_file 100 4 "team/web/log";
          race_archive "nginx" "5" := demo_file 100 5 "team/web/nginx" ]};
       fs_nowrite := ∅; fs_noread := ∅ |};
     retentionUnreachableState := ∅; g_reports := [] |}.

(** The pod may keep three archives. *)
Definition race_policies : policySnapshot :=
  {| checkpointDirectory := "/c"; retainOrphan := true;
     maxCheckpointsPerContainer := 10; maxCheckpointsPerPod := 3; maxCheckpointsPerNamespace := 30;
     maxCheckpointSize := Q1Ei; maxTotalSizePerPod := Q1Ei; maxTotalSizePerContainer := Q1Ei;
     maxTotalSizePerNamespace := Q1Ei; containerPolicies := []; podPolicies := []; namespacePolicies := [] |}.

Definition race_details (container : string) : checkpointDetails :=
  {| namespace := "team"; pod := "web"; container := container |}.

Definition race_view : view :=
  {| v_now := 9; v_cluster := demo_cluster; v_less := older (g_fs race_gc) |}.

(** Both containers' newest archives have been written: their timers start two
    goroutines. *)
Definition race_start : collectors :=
  spawn [policy_jobs race_policies (race_details "nginx"); policy_jobs race_policies (race_details "log")] race_gc.

(** The first goroutine has evaluated its container and has read the archives of the
    pod when the second one runs to its end; then the first one goes on. *)
Definition race_run : list co_act :=
  repeat (Run 0 race_view) 29 ++ repeat (Run 1 race_view) 72 ++ repeat (Run 0 race_view) 37.

(** The archives that are still there. *)
Definition left_over (g : gc_state) : list string :=
  List.filter (fun a => is_some (os_Stat (g_fs g) a)) race_files.

Definition race_result : collectors * list entry :=
  default (race_start, []) (corun demo_env (@insertion_sort) race_run race_start).

Lemma race_runs : corun demo_env (@insertion_sort) race_run race_start = Some race_result.
Proof.
  unfold race_result.
  assert (is_some (corun demo_env (@insertion_sort) race_run race_start) = true) as H
    by (vm_compute; reflexivity).
  destruct (corun _ _ _ _); [reflexivity|discriminate H].
Qed.

Lemma race_counts :
  length (listed (entries_of 0 2 race_result.2)) = 5%nat /\
  length (List.filter (fun e => counting (en_stage e)) (entries_of 0 2 race_result.2)) = 2%nat /\
  length (List.filter (fun e => counting (en_stage e)) (entries_of 1 2 race_result.2)) = 2%nat.
Proof. vm_compute. repeat split. Qed.

Lemma interleaved_evaluations_bounded_witness :
  let es := entries_of 0 2 race_result.2 in
  length (listed es) = 5%nat /\ (length es <= 47)%nat /\
  forall e, e ∈ es -> (length (List.filter (fun e => counting (en_stage e)) es) <=
    Z.to_nat (5 - MaxCheckpoints (j_policy (en_job e))))%nat.
Proof.
  destruct race_counts as [Hl _]. intros es.
  destruct (interleaved_evaluations_bounded demo_env (@insertion_sort)
    [policy_jobs race_policies (race_details "nginx"); policy_jobs race_policies (race_details "log")]
    race_gc race_run race_result.1 race_result.2 0 2) as (H1 & H2 & _ & _).
  - rewrite <- surjective_pairing. exact race_runs.
  - fold es in Hl, H1, H2. rewrite Hl in H1, H2. split; [exact Hl|]. split; [exact H1|exact H2].
Defined.

(** Concurrent evaluations can rotate out too much.  A pod has five archives and may
    keep three.  One goroutine has listed and read the five when another one, started
    for another container of the pod, evaluates the pod and removes the two oldest.
    The first one then fails to stat these two and skips them, but still counts them:
    it removes the two oldest of the remaining three.  One archive is left.  (Each
    evaluation alone, and the two after one another, leave three.) *)
Theorem concurrent_overdeletion :
  (map fst (co_goroutines race_result.1) = [[]; []]) /\
  left_over (co_state race_result.1) = [race_archive "nginx" "5"] /\
  maxCheckpointsPerPod race_policies = 3 /\
  left_over (applyPolicies demo_env demo_cluster (@insertion_sort) race_policies 9 (race_details "log")
    (applyPolicies demo_env demo_cluster (@insertion_sort) race_policies 9 (race_details "nginx") race_gc)) =
  [race_archive "nginx" "3"; race_archive "log" "4"; race_archive "nginx" "5"].
Proof. vm_compute. repeat split. Qed.
