(* ===== verification/GarbageCollector.v ===== *)
(** * The garbage collector's event loop
    ([checkpointrestoreoperator_controller.go]: [Reconcile],
    [restartGarbageCollector], [runGarbageCollector], [handleWriteFinished])

    Three models: the event loop that debounces file events per path, the
    handler that reads a finished archive with retries, and the goroutines of
    several collector instances with their lock and the unbuffered [quit]
    channel.  The pod informer only calls [handlePodDeleted]. *)

From S2P Require Import Prelude GoStrings GoPath Kube GoSystem Api Pinning Archive Policies Retention.
Open Scope string_scope.
Open Scope list_scope.
Open Scope Z_scope.

(** ** [Reconcile] of a CheckpointRestoreOperator *)

Inductive reconcile_effect :=
| RestartCollector
| ApplyNow (policies : policySnapshot).

(** [client.IgnoreNotFound] *)
Definition IgnoreNotFound (e : apierror) : option apierror := if IsNotFound e then None else Some e.

Definition Reconcile (get : result apierror CheckpointRestoreOperatorSpec) (v : policyVars)
  : Result * option apierror * policyVars * list reconcile_effect :=
  match get with
  | Err e => (no_requeue, IgnoreNotFound e, v, [])
  | Ok spec =>
      let '(policies, restart, v') := applyPolicySpec v spec in
      (no_requeue, None, v',
       (if restart then [RestartCollector] else []) ++
       (if ApplyPoliciesImmediately spec then [ApplyNow policies] else []))
  end.

(** ** The event loop *)

Definition waitFor : Duration := Second.
Definition checkpointArchiveReadAttempts : Z := 3.
Definition checkpointArchiveReadRetryDelay : Duration := 2 * Second.

(** What [select] may receive. *)
Inductive loop_input :=
| Quit
| Event (create write : bool) (name : string)
| EventsClosed
| WatchError
| ErrorsClosed.

(** The [timers] map: a path's timer is armed with a deadline or stopped; the
    loop's context, and whether the loop has returned ([c] closed). *)
Record loop_state := {
  timers : gmap string (option Time);
  cancelled : bool;
  returned : bool
}.

Definition loop_start : loop_state := {| timers := ∅; cancelled := false; returned := false |}.

(** [stop]: cancel, stop and forget every timer, close [c]. *)
Definition stop_loop (s : loop_state) : loop_state :=
  {| timers := ∅; cancelled := true; returned := true |}.

Definition loop_step (now : Time) (s : loop_state) (i : loop_input) : loop_state :=
  if returned s then s
  else
    match i with
    | Quit | EventsClosed | ErrorsClosed => stop_loop s
    | WatchError => s
    | Event create write name =>
        if negb create && negb write then s
        else if HasSuffix name ".keep" || HasSuffix name ".keep.tmp" then s
        else {| timers := <[name := Some (now + waitFor)]> (timers s);
                cancelled := cancelled s; returned := returned s |}
    end.

(** The runtime fires the timer of [path] once its deadline has passed: the
    handler starts and the timer stays in the map, stopped. *)
Definition fire (now : Time) (path : string) (s : loop_state) : option loop_state :=
  match timers s !! path with
  | Some (Some d) => if d <=? now
                     then Some {| timers := <[path := None]> (timers s);
                                  cancelled := cancelled s; returned := returned s |}
                     else None
  | _ => None
  end.

(** Traces: inputs and firings at the times they happen. *)
Inductive loop_action := Input (i : loop_input) | Fire (path : string).

Definition loop_act (s : loop_state) (e : Time * loop_action) : option loop_state :=
  match e with
  | (now, Input i) => Some (loop_step now s i)
  | (now, Fire path) => fire now path s
  end.

Fixpoint loop_run (s : loop_state) (es : list (Time * loop_action)) : option loop_state :=
  match es with
  | [] => Some s
  | e :: es' => s' ← loop_act s e; loop_run s' es'
  end.

(** ** Handling a finished write *)

Section Write.
(** What the [n]-th read returns, and whether the context is cancelled before
    the [n]-th attempt, while waiting after it, and when the details are there. *)
Context {E : Type} (read : Z -> result E checkpointDetails).
Context (cancelled_before cancelled_waiting : Z -> bool).

Inductive read_error := ReadCanceled | WaitCanceled | ReadFailed (e : E).

Fixpoint read_attempts (fuel : nat) (attempt maxAttempts : Z) (retryDelay : Duration)
  : result read_error checkpointDetails * Z :=
  match fuel with
  | O => (Err ReadCanceled, attempt)
  | S fuel =>
      if cancelled_before attempt then (Err ReadCanceled, attempt - 1)
      else match read attempt with
           | Ok details => (Ok details, attempt)
           | Err e =>
               if attempt =? maxAttempts then (Err (ReadFailed e), attempt)
               else if retryDelay <=? 0 then read_attempts fuel (attempt + 1) maxAttempts retryDelay
               else if cancelled_waiting attempt then (Err WaitCanceled, attempt)
               else read_attempts fuel (attempt + 1) maxAttempts retryDelay
           end
  end.

(** The result and the number of reads. *)
Definition readCheckpointArchiveInformationWithRetry (maxAttempts : Z) (retryDelay : Duration)
  : result read_error checkpointDetails * Z :=
  let maxAttempts := if maxAttempts <? 1 then 1 else maxAttempts in
  read_attempts (Z.to_nat maxAttempts) 1 maxAttempts retryDelay.

(** The details [apply] is called with, if it is called. *)
Definition handleWriteFinishedWithReader (cancelled_after : bool) (maxAttempts : Z)
    (retryDelay : Duration) : option checkpointDetails :=
  match readCheckpointArchiveInformationWithRetry maxAttempts retryDelay with
  | (Err _, _) => None
  | (Ok details, _) => if cancelled_after then None else Some details
  end.
End Write.
Arguments read_error : clear implicits.
Arguments ReadFailed {E} e.
Arguments ReadCanceled {E}.
Arguments WaitCanceled {E}.

(** [handleWriteFinished]: the collector's reader and policies. *)
Definition handleWriteFinished (env : ArchiveEnv) (cluster : Cluster)
    (sort_slice : forall A : Type, (A -> A -> bool) -> list A -> list A)
    (fs_at : Z -> FS) (cancelled_before cancelled_waiting : Z -> bool) (cancelled_after : bool)
    (vars : policyVars) (now : Time) (name : string) (g : gc_state) : gc_state :=
  match handleWriteFinishedWithReader
          (fun n => getCheckpointArchiveInformation env now (fs_at n) name)
          cancelled_before cancelled_waiting cancelled_after
          checkpointArchiveReadAttempts checkpointArchiveReadRetryDelay with
  | None => g
  | Some details => applyPolicies env cluster sort_slice (currentPolicySnapshot vars) now details g
  end.

(** ** Collector instances and restarts

    Every [runGarbageCollector] goroutine: waiting for [gc.Lock], holding it
    while the watcher is created, in the event loop (or parked on [quit] when the
    watcher could not be created), stopped but not yet returned, or gone. *)
Inductive phase := WaitLock | Starting | Looping | Parked | Stopped | Gone.

#[export] Instance phase_eq_dec : EqDecision phase.
Proof. solve_decision. Defined.

(** The instances by the order of their start; [sending] is a reconcile blocked
    on [quit <- true] to the channel the newest instance reads. *)
Record gc_sys := {
  insts : nat -> phase;
  newest : nat;
  gc_lock : option nat;
  sending : bool
}.

Definition set_phase (f : nat -> phase) (i : nat) (p : phase) : nat -> phase :=
  fun j => if (j =? i)%nat then p else f j.

(** [SetupWithManager] starts the first instance. *)
Definition sys_start : gc_sys :=
  {| insts := fun i => if (i =? 0)%nat then WaitLock else Gone;
     newest := 0; gc_lock := None; sending := false |}.

Inductive sys_step : gc_sys -> gc_sys -> Prop :=
| step_lock s i :
    insts s i = WaitLock -> gc_lock s = None ->
    sys_step s {| insts := set_phase (insts s) i Starting; newest := newest s;
                  gc_lock := Some i; sending := sending s |}
| step_watch s i (ok : bool) :
    insts s i = Starting ->
    sys_step s {| insts := set_phase (insts s) i (if ok then Looping else Parked); newest := newest s;
                  gc_lock := gc_lock s; sending := sending s |}
| step_request s :
    sending s = false ->
    sys_step s {| insts := insts s; newest := newest s; gc_lock := gc_lock s; sending := true |}
| step_restart s i :
    (* the rendezvous on [quit], then the new channel and [go runGarbageCollector] *)
    insts s i = Looping \/ insts s i = Parked -> sending s = true ->
    sys_step s {| insts := set_phase (set_phase (insts s) i Stopped) (S (newest s)) WaitLock;
                  newest := S (newest s); gc_lock := gc_lock s; sending := false |}
| step_return s i :
    insts s i = Stopped ->
    sys_step s {| insts := set_phase (insts s) i Gone; newest := newest s;
                  gc_lock := None; sending := sending s |}.

(** ** The loop debounces *)

Definition stops (a : Time * loop_action) : bool :=
  match a.2 with
  | Input Quit | Input EventsClosed | Input ErrorsClosed => true
  | _ => false
  end.

Definition is_marker (name : string) : bool := HasSuffix name ".keep" || HasSuffix name ".keep.tmp".

(** A create or write event for [path]. *)
Definition write_event (path : string) (a : Time * loop_action) : bool :=
  match a.2 with
  | Input (Event create write name) => (create || write) && (name =? path)%string
  | _ => false
  end.

Definition fires (path : string) (a : Time * loop_action) : bool :=
  match a.2 with Fire p => (p =? path)%string | _ => false end.

Lemma loop_run_snoc s es e s' :
  loop_run s (es ++ [e]) = Some s' <-> exists s1, loop_run s es = Some s1 /\ loop_act s1 e = Some s'.
Proof.
  revert s. induction es as [|a es IH]; intros s; simpl.
  - destruct (loop_act s e) as [s1|] eqn:E; simpl; split.
    + intros [= <-]. eauto.
    + intros (? & [= <-] & H). congruence.
    + done.
    + intros (? & [= <-] & H). congruence.
  - destruct (loop_act s a); simpl; [apply IH|]. split; [done|]. by intros (? & ? & _).
Qed.

Lemma returned_run es s :
  loop_run loop_start es = Some s -> returned s = existsb stops es /\ (returned s = true -> timers s = ∅).
Proof.
  revert s. induction es as [|e es IH] using rev_ind; intros s H.
  { simpl in H. by simplify_eq. }
  apply loop_run_snoc in H as (s1 & H1 & H2). destruct (IH s1 H1) as [Hr Ht].
  rewrite existsb_app, <- Hr. simpl. rewrite orb_false_r.
  destruct e as [now [i|p]]; simpl in H2.
  - simplify_eq. unfold loop_step, stops. simpl. destruct (returned s1) eqn:Er; [by rewrite ?Er; auto|].
    destruct i as [|c w n| | |]; simpl; try done; [|by rewrite Er].
    destruct (negb c && negb w); [by rewrite Er|]. destruct (_ || _); simpl; by rewrite ?Er.
  - unfold fire in H2. destruct (timers s1 !! p) as [[d|]|] eqn:El; try done.
    destruct (d <=? now); [|done]. simplify_eq. simpl. unfold stops. simpl. rewrite orb_false_r.
    split; [done|]. intros Hc. rewrite Ht in El by done. by rewrite lookup_empty in El.
Qed.

(** [path] was last written at [t0], and since then neither written nor
    handled. *)
Definition last_write (path : string) (t0 : Time) (es : list (Time * loop_action)) : Prop :=
  exists es1 es2 c w, es = es1 ++ (t0, Input (Event c w path)) :: es2 /\ c || w = true /\
    existsb (fun a => write_event path a || fires path a) es2 = false.

Lemma last_write_snoc path t0 es e :
  last_write path t0 (es ++ [e]) <->
  (write_event path e = true /\ e.1 = t0) \/
  (write_event path e || fires path e = false /\ last_write path t0 es).
Proof.
  split.
  - intros (es1 & es2 & c & w & He & Hcw & Hq).
    destruct es2 as [|x es2 _] using rev_ind.
    + apply app_inj_tail in He as [-> ->]. left. unfold write_event. simpl. by rewrite Hcw, String.eqb_refl.
    + rewrite app_comm_cons, app_assoc in He. apply app_inj_tail in He as [-> <-].
      rewrite existsb_app in Hq. apply orb_false_iff in Hq as [Hq Hx]. simpl in Hx.
      rewrite orb_false_r in Hx. right. split; [done|]. by exists es1, es2, c, w.
  - intros [[Hw <-]|[Hn (es1 & es2 & c & w & -> & Hcw & Hq)]].
    + destruct e as [t [[|c w n| | |]|p]]; try done. unfold write_event in Hw. simpl in Hw. to_prop.
      destruct Hw as [Hcw Hn]. to_prop. subst n. exists es, [], c, w. split; [done|]. split; [|done].
      by apply orb_true_iff.
    + exists es1, (es2 ++ [e]), c, w. split; [by rewrite <- app_assoc|]. split; [done|].
      rewrite existsb_app, Hq. simpl. by rewrite Hn.
Qed.

Lemma timer_armed path es s d :
  loop_run loop_start es = Some s ->
  timers s !! path = Some (Some d) <->
  is_marker path = false /\ existsb stops es = false /\
  exists t0, last_write path t0 es /\ d = t0 + waitFor.
Proof.
  revert s d. induction es as [|e es IH] using rev_ind; intros s d H.
  { simpl in H. simplify_eq. simpl. rewrite lookup_empty. split; [done|].
    intros (_ & _ & t0 & (es1 & es2 & c & w & He & _) & _). by destruct es1. }
  apply loop_run_snoc in H as (s1 & H1 & H2).
  destruct (returned_run _ _ H1) as [Hr Ht]. specialize (IH s1 d H1).
  rewrite existsb_app. simpl. rewrite orb_false_r.
  setoid_rewrite last_write_snoc. destruct e as [now [i|p]].
  - simpl in H2. simplify_eq. unfold loop_step. destruct (returned s1) eqn:Er.
    { rewrite Ht, lookup_empty by done. rewrite <- Hr. simpl. split; [done|]. by intros (_ & ? & _). }
    rewrite <- Hr in IH |- *. simpl.
    destruct i as [|c w n| | |]; simpl; unfold stops, write_event, fires; simpl;
      try (rewrite lookup_empty; split; [done|by intros (_ & ? & _)]).
    + rewrite <- negb_orb. destruct (c || w) eqn:Ecw; simpl.
      2:{ rewrite IH. split; intros (? & ? & t0 & ? & ?); split; try done; split; try done; exists t0; intuition done. }
      fold (is_marker n). destruct (is_marker n) eqn:Em.
      { rewrite IH. destruct (n =? path)%string eqn:En; to_prop.
        - subst n. rewrite Em. split; by intros (? & _).
        - split; intros (? & ? & t0 & ? & ?); (split; [done|]; split; [done|]; exists t0; intuition done). }
      simpl. destruct (n =? path)%string eqn:En; to_prop.
      * subst n. rewrite lookup_insert_eq. split.
        -- intros [= <-]. split; [done|]. split; [done|]. exists now. split; [by left|done].
        -- intros (_ & _ & t0 & [[_ <-]|[? _]] & ->); [done|done].
      * rewrite lookup_insert_ne by done. rewrite IH.
        split; intros (? & ? & t0 & ? & ?); (split; [done|]; split; [done|]; exists t0; intuition done).
    + rewrite IH. split; intros (? & ? & t0 & ? & ?); (split; [done|]; split; [done|]; exists t0; intuition done).
  - simpl in H2. unfold fire in H2. destruct (timers s1 !! p) as [[d'|]|] eqn:El; try done.
    destruct (d' <=? now); [|done]. simplify_eq. simpl. unfold stops, write_event, fires. simpl.
    rewrite orb_false_r. destruct (p =? path)%string eqn:En; to_prop.
    + subst p. rewrite lookup_insert_eq. split; [done|]. by intros (_ & _ & t0 & [[? _]|[? _]] & _).
    + rewrite lookup_insert_ne by done. rewrite IH.
      split; intros (? & ? & t0 & ? & ?); (split; [done|]; split; [done|]; exists t0; intuition done).
Qed.

(** C34. The event loop debounces each path exactly: in every run of the loop
    the handler of a path can start at a time if and only if the path is not a
    pin marker, the loop has not been stopped, the path was created or written at
    least one second ago, and since that last write the handler has not started:
    one evaluation per burst of writes, none for markers, none after [quit]. *)
Theorem collector_debounce es s path now :
  loop_run loop_start es = Some s ->
  is_Some (fire now path s) <->
  is_marker path = false /\ existsb stops es = false /\
  exists t0, last_write path t0 es /\ t0 + Second <= now.
Proof.
  intros H. unfold fire. split.
  - destruct (timers s !! path) as [[d|]|] eqn:E; try by intros [? ?].
    destruct (d <=? now) eqn:Ed; [|by intros [? ?]]. intros _. to_prop.
    apply (timer_armed path es s d H) in E as (? & ? & t0 & ? & ->).
    split; [done|]. split; [done|]. exists t0. by split.
  - intros (Hm & Hs & t0 & Hl & Ht).
    assert (timers s !! path = Some (Some (t0 + waitFor))) as ->.
    { apply (timer_armed path es s _ H). eauto. }
    unfold waitFor. apply Z.leb_le in Ht. rewrite Ht. eauto.
Qed.

Lemma collector_debounce_witness :
  exists s, loop_run loop_start [(0, Input (Event true false "/c/a.tar"));
                                 (Second, Input (Event false true "/c/a.tar"))] = Some s /\
    is_Some (fire (2 * Second) "/c/a.tar" s).
Proof.
  eexists. split; [reflexivity|].
  eapply (collector_debounce [(0, Input (Event true false "/c/a.tar"));
                              (Second, Input (Event false true "/c/a.tar"))]); [reflexivity|].
  split; [reflexivity|]. split; [reflexivity|]. exists Second. split; [|vm_compute; discriminate].
  exists [(0, Input (Event true false "/c/a.tar"))], [], false, true. by split.
Defined.

(** ** The handler *)

Section WriteFacts.
Context {E : Type} (read : Z -> result E checkpointDetails).
Context (cancelled_before cancelled_waiting : Z -> bool).

(** The first readable attempt is [n], and the context lives that long. *)
Definition succeeds_at (first : Z) (delay : Duration) (n : Z) (d : checkpointDetails) : Prop :=
  read n = Ok d /\
  (forall k, first <= k < n -> is_ok (read k) = false /\ (0 < delay -> cancelled_waiting k = false)) /\
  (forall k, first <= k <= n -> cancelled_before k = false).

Lemma read_attempts_spec fuel attempt max delay d n :
  attempt <= max -> Z.of_nat fuel = max - attempt + 1 ->
  read_attempts read cancelled_before cancelled_waiting fuel attempt max delay = (Ok d, n) <->
  attempt <= n <= max /\ succeeds_at attempt delay n d.
Proof.
  revert attempt. induction fuel as [|fuel IH]; intros attempt Hm Hf; [lia|]. simpl.
  destruct (cancelled_before attempt) eqn:Ec.
  { split; [done|]. intros (Hn & _ & _ & Hc). rewrite Hc in Ec by lia. done. }
  destruct (read attempt) as [d'|e] eqn:Er.
  { split.
    - intros [= <- <-]. split; [lia|]. split; [done|]. split; [lia|]. intros k Hk.
      replace k with attempt by lia. done.
    - intros (Hn & Hr & Hk & _). destruct (Z.eq_dec attempt n) as [<-|Hne]; [congruence|].
      destruct (Hk attempt) as [Hk' _]; [lia|]. rewrite Er in Hk'. done. }
  assert (succeeds_at attempt delay n d -> attempt <= n -> attempt + 1 <= n) as Hlater.
  { intros (Hr & _) Hn. destruct (Z.eq_dec attempt n) as [<-|]; [congruence|lia]. }
  assert (delay <= 0 \/ cancelled_waiting attempt = false ->
          attempt <> max ->
          (attempt + 1 <= n <= max /\ succeeds_at (attempt + 1) delay n d) <->
          (attempt <= n <= max /\ succeeds_at attempt delay n d)) as Hstep.
  { intros Hw Hne. split.
    - intros (Hn & Hr & Hk & Hc). split; [lia|]. split; [done|]. split; intros k Hkn.
      + destruct (Z.eq_dec k attempt) as [->|]; [|apply Hk; lia].
        rewrite Er. split; [done|]. intros. destruct Hw; [lia|done].
      + destruct (Z.eq_dec k attempt) as [->|]; [done|apply Hc; lia].
    - intros (Hn & Hs). pose proof (Hlater Hs ltac:(lia)) as Hn'.
      destruct Hs as (Hr & Hk & Hc). split; [lia|]. split; [done|]. split; intros k Hkn.
      + apply Hk. lia.
      + apply Hc. lia. }
  destruct (attempt =? max) eqn:Em; to_prop.
  { split; [done|]. intros [Hn Hs]. pose proof (Hlater Hs ltac:(lia)) as Hn'. lia. }
  destruct (delay <=? 0) eqn:Ed; to_prop.
  { rewrite IH by lia. apply Hstep; [by left|done]. }
  destruct (cancelled_waiting attempt) eqn:Ew.
  { split; [done|]. intros [Hn Hs]. pose proof (Hlater Hs ltac:(lia)) as Hn'.
    destruct Hs as (_ & Hk & _). destruct (Hk attempt) as [_ Hw]; [lia|]. rewrite Hw in Ew by lia. done. }
  rewrite IH by lia. apply Hstep; [by right|done].
Qed.

Lemma read_attempts_count fuel attempt max delay :
  1 <= attempt <= max -> Z.of_nat fuel = max - attempt + 1 ->
  0 <= (read_attempts read cancelled_before cancelled_waiting fuel attempt max delay).2 <= max.
Proof.
  revert attempt. induction fuel as [|fuel IH]; intros attempt Hm Hf; simpl; [lia|].
  destruct (cancelled_before attempt); simpl; [lia|]. destruct (read attempt); simpl; [lia|].
  destruct (attempt =? max) eqn:E1; simpl; to_prop; [lia|].
  destruct (delay <=? 0); [apply IH; lia|]. destruct (cancelled_waiting attempt); simpl; [lia|].
  apply IH; lia.
Qed.

(** A finished write is evaluated with exactly the metadata of the first
    readable attempt: [apply] is called if and only if one of the attempts reads
    the archive and the collector is not stopped before, between or after the
    attempts up to it; there are at least one and at most [maxAttempts] reads. *)
Theorem handleWriteFinished_exact cancelled_after maxAttempts delay d :
  (handleWriteFinishedWithReader read cancelled_before cancelled_waiting cancelled_after
     maxAttempts delay = Some d <->
   cancelled_after = false /\
   exists n, 1 <= n <= Z.max 1 maxAttempts /\ succeeds_at 1 delay n d) /\
  0 <= (readCheckpointArchiveInformationWithRetry read cancelled_before cancelled_waiting
          maxAttempts delay).2 <= Z.max 1 maxAttempts.
Proof.
  unfold handleWriteFinishedWithReader, readCheckpointArchiveInformationWithRetry.
  assert ((if maxAttempts <? 1 then 1 else maxAttempts) = Z.max 1 maxAttempts) as ->
    by (destruct (maxAttempts <? 1) eqn:El; to_prop; lia).
  split; [|apply read_attempts_count; lia].
  pose proof (read_attempts_spec (Z.to_nat (Z.max 1 maxAttempts)) 1 (Z.max 1 maxAttempts) delay) as Hs.
  destruct (read_attempts _ _ _ _ _ _ _) as [[d'|e] n'].
  - destruct (proj1 (Hs d' n' ltac:(lia) ltac:(lia)) eq_refl) as [Hn' Hs'].
    destruct cancelled_after; split.
    + done.
    + by intros [? _].
    + intros [= <-]. split; [done|]. eauto.
    + intros (_ & n & Hn & Hsd).
      assert ((Ok d', n') = (Ok d, n) :> result (read_error E) checkpointDetails * Z) as [= -> ->]; [|done].
      apply Hs; [lia|lia|]. split; [lia|done].
  - split; [done|]. intros (_ & n & Hn & Hsd).
    assert ((Err e, n') = (Ok d, n) :> result (read_error E) checkpointDetails * Z) as [=].
    apply Hs; [lia|lia|]. split; [lia|done].
Qed.
End WriteFacts.

(** ** Instances *)

Inductive sys_reachable : gc_sys -> Prop :=
| reach_start : sys_reachable sys_start
| reach_step s s' : sys_reachable s -> sys_step s s' -> sys_reachable s'.

Definition holds_lock (p : phase) : bool :=
  match p with Starting | Looping | Parked | Stopped => true | _ => false end.

(** The newest instance has not been stopped; every older one has been, and
    only one of them may not have returned yet; the lock is held by the instance
    whose phase says so. *)
Definition sys_inv (s : gc_sys) : Prop :=
  (insts s (newest s) <> Stopped /\ insts s (newest s) <> Gone) /\
  (forall i, i <> newest s -> insts s i = Stopped \/ insts s i = Gone) /\
  (forall i, gc_lock s = Some i <-> holds_lock (insts s i) = true).

Lemma set_phase_eq f i p : set_phase f i p i = p.
Proof. unfold set_phase. by rewrite Nat.eqb_refl. Qed.

Lemma set_phase_ne f i j p : j <> i -> set_phase f i p j = f j.
Proof. intros H. unfold set_phase. by apply Nat.eqb_neq in H as ->. Qed.

Lemma sys_inv_start : sys_inv sys_start.
Proof.
  split_and!; try done.
  - intros i Hi. simpl in *. apply Nat.eqb_neq in Hi as ->. by right.
  - intros i. simpl. split; [done|]. by destruct (i =? 0)%nat.
Qed.

(** Outside the newest, only the phase [Stopped] holds the lock. *)
Lemma sys_inv_newest s i :
  sys_inv s -> insts s i <> Stopped -> insts s i <> Gone -> i = newest s.
Proof.
  intros (_ & Ho & _) H1 H2. destruct (decide (i = newest s)) as [|Hne]; [done|].
  destruct (Ho i Hne); done.
Qed.

(** The newest instance moves on, and holds the lock from then on. *)
Lemma sys_inv_phase s p :
  sys_inv s -> p <> Stopped -> p <> Gone -> holds_lock p = true ->
  gc_lock s = None \/ gc_lock s = Some (newest s) ->
  sys_inv {| insts := set_phase (insts s) (newest s) p; newest := newest s; gc_lock := Some (newest s);
             sending := sending s |}.
Proof.
  intros (_ & Ho & Hl) Hp1 Hp2 Hp Hk. split_and!; simpl; rewrite ?set_phase_eq; try done.
  - intros j Hj. rewrite set_phase_ne by done. auto.
  - intros j. destruct (decide (j = newest s)) as [->|Hj]; [by rewrite set_phase_eq, Hp|].
    rewrite set_phase_ne by done. rewrite <- Hl. destruct Hk as [-> | ->]; split; congruence.
Qed.

(** The newest instance stops and its successor waits for the lock. *)
Lemma sys_inv_restart s :
  sys_inv s -> gc_lock s = Some (newest s) ->
  sys_inv {| insts := set_phase (set_phase (insts s) (newest s) Stopped) (S (newest s)) WaitLock;
             newest := S (newest s); gc_lock := gc_lock s; sending := false |}.
Proof.
  intros (_ & Ho & Hl) Hk. split_and!; simpl; rewrite ?set_phase_eq; try done.
  - intros j Hj. rewrite set_phase_ne by done.
    destruct (decide (j = newest s)) as [->|Hj']; [rewrite set_phase_eq; by left|].
    rewrite set_phase_ne by done. auto.
  - intros j. rewrite Hk. destruct (decide (j = S (newest s))) as [->|Hj].
    + rewrite set_phase_eq. simpl. split; [|done]. intros [= H]. lia.
    + rewrite set_phase_ne by done. destruct (decide (j = newest s)) as [->|Hj'].
      * by rewrite set_phase_eq.
      * rewrite set_phase_ne, <- Hl, Hk by done. done.
Qed.

Lemma sys_inv_step s s' : sys_inv s -> sys_step s s' -> sys_inv s'.
Proof.
  intros Hinv Hstep. pose proof Hinv as ([Hn1 Hn2] & Ho & Hl).
  destruct Hstep as [s i Hi Hk|s i ok Hi|s Hs|s i Hi Hs|s i Hi].
  - assert (i = newest s) as -> by (apply (sys_inv_newest s); congruence).
    apply sys_inv_phase; auto.
  - assert (i = newest s) as -> by (apply (sys_inv_newest s); congruence).
    assert (gc_lock s = Some (newest s)) as Hlk by (apply Hl; by rewrite Hi).
    rewrite Hlk. destruct ok; apply sys_inv_phase; auto.
  - done.
  - assert (i = newest s) as -> by (apply (sys_inv_newest s); destruct Hi; congruence).
    apply sys_inv_restart; [done|]. apply Hl. by destruct Hi as [-> | ->].
  - assert (i <> newest s) as Hne by congruence.
    assert (gc_lock s = Some i) as Hlk by (apply Hl; by rewrite Hi).
    split_and!; simpl; rewrite ?set_phase_ne by congruence; try done.
    + intros j Hj. destruct (decide (j = i)) as [->|Hji]; [rewrite set_phase_eq; by right|].
      rewrite set_phase_ne by done. auto.
    + intros j. destruct (decide (j = i)) as [->|Hji]; [by rewrite set_phase_eq|].
      rewrite set_phase_ne by done. rewrite <- Hl, Hlk. split; congruence.
Qed.

Lemma sys_reachable_inv s : sys_reachable s -> sys_inv s.
Proof. induction 1; eauto using sys_inv_start, sys_inv_step. Qed.

(** Some path of instance steps (no new request) from [s] to [s']. *)
Inductive sys_internal : gc_sys -> gc_sys -> Prop :=
| int_refl s : sys_internal s s
| int_step s s1 s' : sys_step s s1 -> (sending s = sending s1 \/ sending s1 = false) ->
    sys_internal s1 s' -> sys_internal s s'.

Lemma serve_looping s :
  sys_inv s -> sending s = true ->
  insts s (newest s) = Looping \/ insts s (newest s) = Parked ->
  exists s', sys_internal s s' /\ sending s' = false.
Proof.
  intros _ Hs Hp. eexists. split.
  - eapply int_step; [by apply (step_restart s (newest s))|by right|apply int_refl].
  - done.
Qed.

Lemma serve_starting s :
  sys_inv s -> sending s = true -> insts s (newest s) = Starting ->
  exists s', sys_internal s s' /\ sending s' = false.
Proof.
  intros Hi Hs Hp. pose proof (step_watch s (newest s) true Hp) as Hst.
  destruct (serve_looping _ (sys_inv_step _ _ Hi Hst)) as (s' & Hint & Hf); [done|left; apply set_phase_eq|].
  exists s'. split; [|done]. eapply int_step; [exact Hst|by left|done].
Qed.

Lemma serve_waiting s :
  sys_inv s -> sending s = true -> insts s (newest s) = WaitLock -> gc_lock s = None ->
  exists s', sys_internal s s' /\ sending s' = false.
Proof.
  intros Hi Hs Hp Hl. pose proof (step_lock s (newest s) Hp Hl) as Hst.
  destruct (serve_starting _ (sys_inv_step _ _ Hi Hst)) as (s' & Hint & Hf); [done|apply set_phase_eq|].
  exists s'. split; [|done]. eapply int_step; [exact Hst|by left|done].
Qed.


