(* ===== verification/Creator.v ===== *)
(** * Creating checkpoints ([checkpoint_creator.go])

    The request to the kubelet's checkpoint API with its retries, and the table
    of locks that serialises requests for the same container.  The HTTP client
    and the context are parameters: what each attempt's exchange yields and
    whether the context ends while waiting for the next one. *)

From stdpp Require Import pretty.
From S2P Require Import Prelude GoStrings GoJson Kube.
Open Scope string_scope.
Open Scope list_scope.
Open Scope Z_scope.

Definition maxCheckpointAttempts : Z := 3.
Definition maxCheckpointErrorBodyBytes : nat := 4096.
Definition StatusOK : Z := 200.
Definition StatusInternalServerError : Z := 500.

(** ** One request *)

(** What building the request and [httpClient.Do] yield: an error with its text
    (of [checkpointRequestTimeout] too), or a response. *)
Inductive exchange :=
| DoFailed (text : string)
| Response (statusCode : Z) (body : string).

Inductive checkpoint_error :=
| RequestError (text : string)
| checkpointHTTPError (target : string) (statusCode : Z) (body : string)
| DecodeError (target detail : string)
| NoItems
| ContextDone (text : string).

(** The text of an HTTP error; a body of white space is left out. *)
Definition checkpointHTTPError_Error (target : string) (statusCode : Z) (body : string) : string :=
  if (TrimSpace body =? "")%string then
    "checkpoint failed for " +:+ target +:+ ": status " +:+ pretty statusCode
  else
    "checkpoint failed for " +:+ target +:+ ": status " +:+ pretty statusCode +:+ ": " +:+ TrimSpace body.

(** [err.Error()] *)
Definition error_text (e : checkpoint_error) : string :=
  match e with
  | RequestError text => text
  | checkpointHTTPError target statusCode body => checkpointHTTPError_Error target statusCode body
  | DecodeError target detail => "failed to decode checkpoint response for " +:+ target +:+ ": " +:+ detail
  | NoItems => "checkpoint response contained no items"
  | ContextDone text => text
  end.

(** [json.NewDecoder(body).Decode] into [struct{ Items []string }]: the first
    value of the stream. *)
Fixpoint decode_items (l : list (string * json)) (items : list string) : option (list string) :=
  match l with
  | [] => Some items
  | (k, v) :: l' =>
      if (fold_name k =? fold_name "items")%string then
        match v with
        | JArr a => match decode_strings a with
                    | Some xs => decode_items l' xs
                    | None => None
                    end
        | JNull => decode_items l' []
        | _ => None
        end
      else decode_items l' items
  end.

Definition decode_response (body : string) : option (list string) :=
  match parse_value (S (String.length body)) body with
  | Some (JObj l, _) => decode_items l []
  | Some (JNull, _) => Some []
  | _ => None
  end.

(** [decode_error_text] is the text of the decoder's error for a body. *)
Definition createCheckpointOnce (decode_error_text : string -> string) (target : string) (x : exchange) : result checkpoint_error string :=
  match x with
  | DoFailed text => Err (RequestError text)
  | Response statusCode body =>
      if negb (statusCode =? StatusOK) then
        Err (checkpointHTTPError target statusCode
               (String.substring 0 maxCheckpointErrorBodyBytes body))
      else
        match decode_response body with
        | None => Err (DecodeError target (decode_error_text body))
        | Some items => match items with
                        | [] => Err NoItems
                        | item :: _ => Ok item
                        end
        end
  end.

(** ** Retries *)

Definition isTransientCheckpointErrorText (text : string) : bool :=
  Contains text "cannot pause a paused container" ||
  Contains text "ctrd-checkpoint/status: no such file or directory".

Definition isTransientCheckpointError (e : checkpoint_error) : bool :=
  match e with
  | checkpointHTTPError _ statusCode body =>
      (StatusInternalServerError <=? statusCode) && isTransientCheckpointErrorText body
  | _ => isTransientCheckpointErrorText (error_text e)
  end.

Definition checkpointTargetKey (nodeName namespace podName containerName : string) : string :=
  nodeName +:+ "/" +:+ namespace +:+ "/" +:+ podName +:+ "/" +:+ containerName.

Definition checkpoint_url (host nodeName namespace podName containerName : string) : string :=
  host +:+ "/api/v1/nodes/" +:+ nodeName +:+ "/proxy/checkpoint/" +:+ namespace +:+ "/" +:+
  podName +:+ "/" +:+ containerName.

(** The branch the [select] of [sleepWithContext] took: the context ended, with
    its error, or the timer fired. *)
Inductive select_branch :=
| CtxDone (text : string)
| TimerFired.

Definition sleepWithContext (b : select_branch) : option string :=
  match b with CtxDone text => Some text | TimerFired => None end.

Section Create.
(** The exchange of each attempt, and the context's error if it ends while
    sleeping after an attempt. *)
Context (decode_error_text : string -> string).
Context (attempt_exchange : Z -> exchange) (sleep : Z -> option string).

(** The loop of [createCheckpoint]; the inner [lastErr] shadows the outer one,
    so leaving the loop would return no path and no error. *)
Fixpoint create_loop (fuel : nat) (target : string) (attempt : Z)
  : result checkpoint_error string * Z :=
  match fuel with
  | O => (Ok "", attempt - 1)
  | S fuel =>
      match createCheckpointOnce decode_error_text target (attempt_exchange attempt) with
      | Ok checkpointPath => (Ok checkpointPath, attempt)
      | Err lastErr =>
          if negb (isTransientCheckpointError lastErr) || (attempt =? maxCheckpointAttempts)
          then (Err lastErr, attempt)
          else match sleep attempt with
               | Some text => (Err (ContextDone text), attempt)
               | None => create_loop fuel target (attempt + 1)
               end
      end
  end.

(** The result and the number of requests; [client] is the error of
    [rest.HTTPClientFor]. *)
Definition createCheckpoint (client : option string) (nameSpace podName containerName nodeName : string)
  : result checkpoint_error string * Z :=
  match client with
  | Some text => (Err (RequestError text), 0)
  | None => create_loop (Z.to_nat maxCheckpointAttempts)
              (checkpointTargetKey nodeName nameSpace podName containerName) 1
  end.

(** Attempt [n] is reached: all earlier ones failed transiently and the context
    lasted. *)
Definition reached (target : string) (first n : Z) : Prop :=
  forall k, first <= k < n ->
    sleep k = None /\
    exists e, createCheckpointOnce decode_error_text target (attempt_exchange k) = Err e /\ isTransientCheckpointError e = true.

Lemma create_loop_spec fuel target attempt r n :
  1 <= attempt <= maxCheckpointAttempts -> Z.of_nat fuel = maxCheckpointAttempts - attempt + 1 ->
  create_loop fuel target attempt = (r, n) ->
  attempt <= n <= maxCheckpointAttempts /\ reached target attempt n /\
  (r = createCheckpointOnce decode_error_text target (attempt_exchange n) /\
     (n = maxCheckpointAttempts \/
      (forall e, r = Err e -> isTransientCheckpointError e = false)) \/
   exists text e, r = Err (ContextDone text) /\ sleep n = Some text /\ n < maxCheckpointAttempts /\
     createCheckpointOnce decode_error_text target (attempt_exchange n) = Err e /\ isTransientCheckpointError e = true).
Proof.
  revert attempt. induction fuel as [|fuel IH]; intros attempt Ha Hf H; [lia|]. simpl in H.
  destruct (createCheckpointOnce decode_error_text target (attempt_exchange attempt)) as [p|e] eqn:Eo.
  { simplify_eq. split; [lia|]. split; [intros k Hk; lia|]. left. split; [done|]. by right. }
  destruct (isTransientCheckpointError e) eqn:Et; simpl in H.
  2:{ simplify_eq. split; [lia|]. split; [intros k Hk; lia|]. left. split; [done|]. right. by intros e' [= <-]. }
  destruct (attempt =? maxCheckpointAttempts) eqn:Em; to_prop.
  { simplify_eq. split; [lia|]. split; [intros k Hk; lia|]. left. split; [done|]. by left. }
  destruct (sleep attempt) as [text|] eqn:Es.
  { simplify_eq. split; [lia|]. split; [intros k Hk; lia|]. right. exists text, e. repeat split; try done. lia. }
  apply IH in H as (Hn & Hr & Hc); [|lia|lia]. split; [lia|]. split; [|done].
  intros k Hk. destruct (Z.eq_dec k attempt) as [->|]; [eauto|]. apply Hr. lia.
Qed.

End Create.

(** ** The lock table

    [lock] registers a caller with the lock object of its target (creating it if
    needed) under the table's mutex, then waits for the object's own mutex; the
    returned function releases that mutex and then, under the table's mutex,
    drops the registration and the object's entry with the last one.  Lock
    objects are numbered; a caller is a goroutine. *)

Inductive caller :=
| Waiting (target : string) (lk : nat)
| Holding (target : string) (lk : nat)
| Released (target : string) (lk : nat).

Definition caller_target (c : caller) : string :=
  match c with Waiting t _ | Holding t _ | Released t _ => t end.
Definition caller_lock (c : caller) : nat :=
  match c with Waiting _ l | Holding _ l | Released _ l => l end.

Record lock_table := {
  callers : gmap nat caller;
  locks : gmap string nat;
  refs : nat -> nat;
  holder : nat -> option nat;
  next_lock : nat
}.

Definition newCheckpointTargetLockTable : lock_table :=
  {| callers := ∅; locks := ∅; refs := fun _ => 0%nat; holder := fun _ => None; next_lock := 0 |}.

Inductive lock_event :=
| Register (who : nat) (target : string)
| Acquire (who : nat)
| Release (who : nat)
| Unregister (who : nat).

Definition upd {A} (f : nat -> A) (i : nat) (x : A) : nat -> A :=
  fun j => if (j =? i)%nat then x else f j.

Definition lock_step (t : lock_table) (e : lock_event) : option lock_table :=
  match e with
  | Register who target =>
      match callers t !! who with
      | Some _ => None
      | None =>
          let '(lk, tbl, rf, nxt) :=
            match locks t !! target with
            | Some lk => (lk, locks t, refs t, next_lock t)
            | None => (next_lock t, <[target := next_lock t]> (locks t),
                       upd (refs t) (next_lock t) 0%nat, S (next_lock t))
            end in
          Some {| callers := <[who := Waiting target lk]> (callers t); locks := tbl;
                  refs := upd rf lk (S (rf lk)); holder := holder t; next_lock := nxt |}
      end
  | Acquire who =>
      match callers t !! who with
      | Some (Waiting target lk) =>
          match holder t lk with
          | None => Some {| callers := <[who := Holding target lk]> (callers t); locks := locks t;
                            refs := refs t; holder := upd (holder t) lk (Some who);
                            next_lock := next_lock t |}
          | Some _ => None
          end
      | _ => None
      end
  | Release who =>
      match callers t !! who with
      | Some (Holding target lk) =>
          Some {| callers := <[who := Released target lk]> (callers t); locks := locks t;
                  refs := refs t; holder := upd (holder t) lk None; next_lock := next_lock t |}
      | _ => None
      end
  | Unregister who =>
      match callers t !! who with
      | Some (Released target lk) =>
          let n := Nat.pred (refs t lk) in
          Some {| callers := delete who (callers t);
                  locks := if (n =? 0)%nat then delete target (locks t) else locks t;
                  refs := upd (refs t) lk n; holder := holder t; next_lock := next_lock t |}
      | _ => None
      end
  end.

Fixpoint lock_run (t : lock_table) (es : list lock_event) : option lock_table :=
  match es with
  | [] => Some t
  | e :: es' => t' ← lock_step t e; lock_run t' es'
  end.

(** The callers registered for a target. *)
Definition users (t : lock_table) (target : string) : gmap nat caller :=
  filter (fun '(_, c) => caller_target c = target) (callers t).

Record lock_inv (t : lock_table) : Prop := {
  li_lock : forall who c, callers t !! who = Some c -> locks t !! caller_target c = Some (caller_lock c);
  li_refs : forall target lk, locks t !! target = Some lk ->
    refs t lk = size (users t target) /\ users t target <> ∅;
  li_inj : forall t1 t2 lk, locks t !! t1 = Some lk -> locks t !! t2 = Some lk -> t1 = t2;
  li_fresh : forall target lk, locks t !! target = Some lk -> (lk < next_lock t)%nat;
  li_hold : forall lk who, holder t lk = Some who <->
    exists target, callers t !! who = Some (Holding target lk)
}.

Lemma lock_inv_new : lock_inv newCheckpointTargetLockTable.
Proof.
  split; simpl.
  - intros who c H. by rewrite lookup_empty in H.
  - intros target lk H. by rewrite lookup_empty in H.
  - intros t1 t2 lk H. by rewrite lookup_empty in H.
  - intros target lk H. by rewrite lookup_empty in H.
  - intros lk who. split; [done|]. intros (target & H). by rewrite lookup_empty in H.
Qed.

(** A caller that changes its state but not its target stays a user. *)
Lemma users_change t who c c' cs target :
  callers t !! who = Some c -> caller_target c' = caller_target c -> cs = <[who := c']> (callers t) ->
  size (filter (fun '(_, c) => caller_target c = target) cs) = size (users t target) /\
  (filter (fun '(_, c) => caller_target c = target) cs = ∅ <-> users t target = ∅).
Proof.
  intros Hc Ht ->. unfold users. destruct (decide (caller_target c' = target)) as [Hd|Hd].
  - rewrite map_filter_insert_True by done.
    assert (filter (fun '(_, c) => caller_target c = target) (callers t) !! who = Some c) as Hf.
    { apply map_lookup_filter_Some. split; [done|congruence]. }
    split.
    + apply map_size_insert_Some. by exists c.
    + split; [intros H; by apply insert_non_empty in H|]. intros H. rewrite H, lookup_empty in Hf. done.
  - rewrite map_filter_insert_False by done. rewrite map_filter_delete, delete_id; [done|].
    apply map_lookup_filter_None. right. intros c0 Hc0. simplify_eq. congruence.
Qed.

Lemma new_caller t who tg :
  callers t !! who = None -> filter (fun '(_, c) => caller_target c = tg) (callers t) !! who = None.
Proof. intros Ec. apply map_lookup_filter_None. by left. Qed.

(** A caller joins the lock of its target. *)
Lemma lock_inv_join t who target lk :
  lock_inv t -> callers t !! who = None -> locks t !! target = Some lk ->
  lock_inv {| callers := <[who := Waiting target lk]> (callers t); locks := locks t;
              refs := upd (refs t) lk (S (refs t lk)); holder := holder t; next_lock := next_lock t |}.
Proof.
  intros [Hl Hr Hi Hf Hh] Ec El. pose proof (fun tg => new_caller t who tg Ec) as Hnone.
  split; simpl.
  - intros w c. destruct (decide (w = who)) as [->|Hw].
    + rewrite lookup_insert_eq. by intros [= <-].
    + rewrite lookup_insert_ne by done. apply Hl.
  - intros tg l Htg. unfold users. simpl. unfold upd.
    destruct (decide (tg = target)) as [->|Ht].
    + simplify_eq. rewrite Nat.eqb_refl, map_filter_insert_True by done.
      rewrite map_size_insert_None by apply Hnone. destruct (Hr _ _ El) as [-> _].
      split; [done|]. apply insert_non_empty.
    + assert (l <> lk) as Hne by (intros ->; eauto). apply Nat.eqb_neq in Hne as ->.
      rewrite map_filter_insert_False by (simpl; congruence). rewrite delete_id by done. by apply Hr.
  - done.
  - done.
  - intros l w. rewrite Hh. destruct (decide (w = who)) as [->|Hw].
    + rewrite lookup_insert_eq, Ec. split; by intros (? & ?).
    + by rewrite lookup_insert_ne.
Qed.

(** The first caller for a target creates its lock. *)
Lemma lock_inv_create t who target :
  lock_inv t -> callers t !! who = None -> locks t !! target = None ->
  lock_inv {| callers := <[who := Waiting target (next_lock t)]> (callers t);
              locks := <[target := next_lock t]> (locks t);
              refs := upd (upd (refs t) (next_lock t) 0%nat) (next_lock t)
                        (S (upd (refs t) (next_lock t) 0%nat (next_lock t)));
              holder := holder t; next_lock := S (next_lock t) |}.
Proof.
  intros [Hl Hr Hi Hf Hh] Ec El. pose proof (fun tg => new_caller t who tg Ec) as Hnone.
  split; simpl.
  - intros w c. destruct (decide (w = who)) as [->|Hw].
    + rewrite lookup_insert_eq. intros [= <-]. simpl. by rewrite lookup_insert_eq.
    + rewrite lookup_insert_ne by done. intros Hw'. pose proof (Hl _ _ Hw') as Hx.
      rewrite lookup_insert_ne; [done|]. congruence.
  - intros tg l Htg. unfold users. simpl. unfold upd. destruct (decide (tg = target)) as [->|Ht].
    + rewrite lookup_insert_eq in Htg. simplify_eq. rewrite !Nat.eqb_refl, map_filter_insert_True by done.
      rewrite map_size_insert_None by apply Hnone.
      assert (users t target = ∅) as He.
      { apply map_empty. intros w. apply map_lookup_filter_None. right. intros c Hc Hct.
        apply Hl in Hc. congruence. }
      unfold users in He. rewrite He. split; [by rewrite map_size_empty|]. apply insert_non_empty.
    + rewrite lookup_insert_ne in Htg by done. pose proof (Hf _ _ Htg) as Hlt.
      assert ((l =? next_lock t)%nat = false) as -> by (apply Nat.eqb_neq; lia).
      rewrite map_filter_insert_False by (simpl; congruence). rewrite delete_id by done. by apply Hr.
  - intros t1 t2 l. destruct (decide (t1 = target)) as [->|H1], (decide (t2 = target)) as [->|H2]; try done.
    + rewrite lookup_insert_eq, lookup_insert_ne by done. intros [= <-] H%Hf. lia.
    + rewrite lookup_insert_eq, lookup_insert_ne by done. intros H%Hf [= <-]. lia.
    + rewrite !lookup_insert_ne by done. apply Hi.
  - intros tg l. destruct (decide (tg = target)) as [->|Ht].
    + rewrite lookup_insert_eq. intros [= <-]. lia.
    + rewrite lookup_insert_ne by done. intros H%Hf. lia.
  - intros l w. rewrite Hh. destruct (decide (w = who)) as [->|Hw].
    + rewrite lookup_insert_eq, Ec. split; by intros (? & ?).
    + by rewrite lookup_insert_ne.
Qed.

Lemma lock_inv_register t who target t' :
  lock_inv t -> lock_step t (Register who target) = Some t' -> lock_inv t'.
Proof.
  intros Hi H. simpl in H. destruct (callers t !! who) as [c|] eqn:Ec; [done|].
  destruct (locks t !! target) as [lk|] eqn:El; injection H as <-; [by apply lock_inv_join|by apply lock_inv_create].
Qed.

(** Changing one caller's state and its lock's holder keeps the rest. *)
Lemma lock_inv_change t who c c' h :
  lock_inv t -> callers t !! who = Some c ->
  caller_target c' = caller_target c -> caller_lock c' = caller_lock c ->
  (forall lk w, h lk = Some w <-> exists target, <[who := c']> (callers t) !! w = Some (Holding target lk)) ->
  lock_inv {| callers := <[who := c']> (callers t); locks := locks t; refs := refs t;
              holder := h; next_lock := next_lock t |}.
Proof.
  intros [Hl Hr Hi Hf Hh] Hc Ht Hk Hh'. split; simpl; try done.
  - intros w x. destruct (decide (w = who)) as [->|Hw].
    + rewrite lookup_insert_eq. intros [= <-]. rewrite Ht, Hk. by eapply Hl.
    + rewrite lookup_insert_ne by done. apply Hl.
  - intros tg l Htg. unfold users. simpl.
    destruct (users_change t who c c' (<[who := c']> (callers t)) tg) as [-> He]; [done|done|done|].
    destruct (Hr _ _ Htg) as [Hsz Hne]. split; [done|]. intros H. by apply Hne, He.
Qed.

Lemma lock_inv_acquire t who t' :
  lock_inv t -> lock_step t (Acquire who) = Some t' -> lock_inv t'.
Proof.
  intros Hinv H. simpl in H. destruct (callers t !! who) as [[tg lk| |]|] eqn:Ec; try done.
  destruct (holder t lk) eqn:Eh; [done|]. simplify_eq.
  apply (lock_inv_change t who (Waiting tg lk)); try done.
  destruct Hinv as [Hl Hr Hi Hf Hh]. intros l w. unfold upd.
  destruct (decide (w = who)) as [->|Hw].
  - rewrite lookup_insert_eq. destruct (decide (l = lk)) as [->|Hne].
    + rewrite Nat.eqb_refl. split; [by exists tg|done].
    + pose proof Hne as Hne'. apply Nat.eqb_neq in Hne' as ->. rewrite Hh, Ec.
      split; intros (? & ?); simplify_eq.
  - rewrite lookup_insert_ne by done. destruct (decide (l = lk)) as [->|Hne].
    + rewrite Nat.eqb_refl, <- Hh, Eh. split; [intros [= ->]; done|done].
    + pose proof Hne as Hne'. apply Nat.eqb_neq in Hne' as ->. apply Hh.
Qed.

Lemma lock_inv_release t who t' :
  lock_inv t -> lock_step t (Release who) = Some t' -> lock_inv t'.
Proof.
  intros Hinv H. simpl in H. destruct (callers t !! who) as [[|tg lk|]|] eqn:Ec; try done. simplify_eq.
  apply (lock_inv_change t who (Holding tg lk)); try done.
  destruct Hinv as [Hl Hr Hi Hf Hh]. intros l w. unfold upd.
  assert (holder t lk = Some who) as Hlk by (apply Hh; eauto).
  destruct (decide (w = who)) as [->|Hw].
  - rewrite lookup_insert_eq. destruct (decide (l = lk)) as [->|Hne].
    + rewrite Nat.eqb_refl. split; [done|]. by intros (? & ?).
    + pose proof Hne as Hne'. apply Nat.eqb_neq in Hne' as ->. rewrite Hh, Ec.
      split; intros (? & ?); simplify_eq.
  - rewrite lookup_insert_ne by done. destruct (decide (l = lk)) as [->|Hne].
    + rewrite Nat.eqb_refl, <- Hh, Hlk. split; [done|intros [= ->]; done].
    + pose proof Hne as Hne'. apply Nat.eqb_neq in Hne' as ->. apply Hh.
Qed.

Lemma lock_inv_unregister t who t' :
  lock_inv t -> lock_step t (Unregister who) = Some t' -> lock_inv t'.
Proof.
  intros [Hl Hr Hi Hf Hh] H. simpl in H. destruct (callers t !! who) as [[| |tg lk]|] eqn:Ec; try done.
  simplify_eq. pose proof (Hl _ _ Ec) as Htl. simpl in Htl. destruct (Hr _ _ Htl) as [Hrf Hne].
  assert (users t tg !! who = Some (Released tg lk)) as Hu by (by apply map_lookup_filter_Some).
  assert (size (delete who (users t tg)) = Nat.pred (refs t lk)) as Hsz.
  { rewrite Hrf. apply map_size_delete_Some. eauto. }
  assert (forall g l, (if (Nat.pred (refs t lk) =? 0)%nat then delete tg (locks t) else locks t) !! g = Some l ->
            locks t !! g = Some l /\ (g = tg -> (Nat.pred (refs t lk) <> 0)%nat)) as Hsub.
  { intros g l. destruct (_ =? 0)%nat eqn:E0.
    - intros Hx. apply lookup_delete_Some in Hx as [Hx1 Hx2]. by split.
    - intros Hx. split; [done|]. intros _. by apply Nat.eqb_neq. }
  split; simpl.
  - intros w c. intros [Hw Hc]%lookup_delete_Some. pose proof (Hl _ _ Hc) as Hx.
    destruct (_ =? 0)%nat eqn:E0; [|done]. apply Nat.eqb_eq in E0.
    rewrite lookup_delete_ne; [done|]. intros Heq.
    assert (delete who (users t tg) = ∅) as He by (apply map_size_empty_inv; congruence).
    assert (delete who (users t tg) !! w = Some c) as Hd.
    { rewrite lookup_delete_ne by done. apply map_lookup_filter_Some. by split. }
    rewrite He, lookup_empty in Hd. done.
  - intros g l [Hg Hz]%Hsub. unfold users. simpl. rewrite map_filter_delete.
    fold (users t g). unfold upd. destruct (decide (g = tg)) as [->|Hgt].
    + simplify_eq. rewrite Nat.eqb_refl. split; [done|]. intros He. rewrite He, map_size_empty in Hsz.
      specialize (Hz eq_refl). lia.
    + assert (l <> lk) as Hlne by (intros ->; eauto). apply Nat.eqb_neq in Hlne as ->.
      rewrite delete_id; [by apply Hr|]. apply map_lookup_filter_None. right. intros c Hc Hct.
      rewrite Ec in Hc. by simplify_eq.
  - intros t1 t2 l [H1 _]%Hsub [H2 _]%Hsub. eauto.
  - intros g l [Hg _]%Hsub. eauto.
  - intros l w. rewrite Hh. split.
    + intros (g & Hg). exists g. rewrite lookup_delete_ne; [done|]. intros ->. congruence.
    + intros (g & [_ Hg]%lookup_delete_Some). eauto.
Qed.

Lemma lock_inv_step t e t' : lock_inv t -> lock_step t e = Some t' -> lock_inv t'.
Proof.
  destruct e; eauto using lock_inv_register, lock_inv_acquire, lock_inv_release, lock_inv_unregister.
Qed.

Lemma lock_inv_run t es t' : lock_inv t -> lock_run t es = Some t' -> lock_inv t'.
Proof.
  revert t. induction es as [|e es IH]; simpl; intros t Hi H; [by simplify_eq|].
  destruct (lock_step t e) as [t1|] eqn:E; [|done]. simpl in H. eauto using lock_inv_step.
Qed.

(** One caller at a time holds the lock of a target. *)
Lemma holding_unique t w1 w2 target l1 l2 :
  lock_inv t -> callers t !! w1 = Some (Holding target l1) ->
  callers t !! w2 = Some (Holding target l2) -> w1 = w2.
Proof.
  intros [Hl _ _ _ Hh] H1 H2. pose proof (Hl _ _ H1) as E1. pose proof (Hl _ _ H2) as E2. simpl in *.
  assert (l2 = l1) as -> by congruence.
  assert (holder t l1 = Some w1) as Hw1 by (apply Hh; eauto).
  assert (holder t l1 = Some w2) as Hw2 by (apply Hh; eauto). congruence.
Qed.

(** A target has an entry exactly while a caller is registered for it. *)
Lemma entry_registered t target :
  lock_inv t ->
  is_Some (locks t !! target) <-> exists w c, callers t !! w = Some c /\ caller_target c = target.
Proof.
  intros [Hl Hr _ _ _]. split.
  - intros [lk Hlk]. destruct (Hr _ _ Hlk) as [_ Hne]. apply map_choose in Hne as (w & c & Hc).
    apply map_lookup_filter_Some in Hc as [Hc Ht]. eauto.
  - intros (w & c & Hc & <-). eauto.
Qed.

Lemma no_callers_no_locks t : lock_inv t -> callers t = ∅ -> locks t = ∅.
Proof.
  intros Hi He. apply map_empty. intros target. destruct (locks t !! target) eqn:E; [|done].
  destruct (proj1 (entry_registered t target Hi)) as (w & c & Hc & _); [eauto|].
  rewrite He, lookup_empty in Hc. done.
Qed.

(** In every interleaving of callers the lock table serialises requests per
    target: two callers never hold the lock of the same target at once, a target
    has an entry exactly while someone is registered for it, and the table is
    empty again when everyone has left. *)
Theorem checkpoint_lock_exclusive es t :
  lock_run newCheckpointTargetLockTable es = Some t ->
  (forall w1 w2 target l1 l2, callers t !! w1 = Some (Holding target l1) ->
     callers t !! w2 = Some (Holding target l2) -> w1 = w2) /\
  (forall target, is_Some (locks t !! target) <->
     exists w c, callers t !! w = Some c /\ caller_target c = target) /\
  (callers t = ∅ -> locks t = ∅).
Proof.
  intros H. assert (lock_inv t) as Hi by (eapply lock_inv_run; [apply lock_inv_new|done]).
  split; [eauto using holding_unique|]. split; [intros target; by apply entry_registered|].
  by apply no_callers_no_locks.
Qed.

Definition demo_callers : list lock_event :=
  [Register 1 "n/ns/p/c"; Register 2 "n/ns/p/c"; Acquire 1; Release 1; Unregister 1;
   Acquire 2; Release 2; Unregister 2].

Lemma checkpoint_lock_exclusive_witness :
  match lock_run newCheckpointTargetLockTable demo_callers with
  | Some t => locks t = ∅
  | None => False
  end.
Proof.
  assert (callers <$> lock_run newCheckpointTargetLockTable demo_callers = Some ∅) as Hc
    by (vm_compute; reflexivity).
  destruct (lock_run newCheckpointTargetLockTable demo_callers) as [t|] eqn:E; [|discriminate Hc].
  apply (checkpoint_lock_exclusive demo_callers t E). injection Hc. auto.
Defined.
