(* ===== verification/Triggers.v ===== *)
(** * What initiates a checkpoint
    ([pod_selector.go], [schedule_trigger.go], [annotation_trigger.go],
    [event_trigger.go], [resource_trigger.go])

    Pod selection and the four kinds of triggers of a CheckpointSchedule.  The
    checkpoint creator is an oracle: the outcome of the [n]-th request may be
    anything, and the world records every request with its outcome.  Pollers run
    in goroutines; one [run] is one poll, and the map iterations and goroutine
    orders Go leaves open are parameters. *)

From S2P Require Import Prelude GoStrings GoJson Kube Api Creator.
Open Scope string_scope.
Open Scope list_scope.
Open Scope Z_scope.

(** ** The checkpoint creator as an oracle *)

Record ck_request := {
  ck_ns : string;
  ck_pod : string;
  ck_container : string;
  ck_node : string
}.

#[export] Instance ck_request_eq_dec : EqDecision ck_request.
Proof. solve_decision. Defined.

(** The requests made so far, each with its outcome. *)
Definition ck_log := list (ck_request * result checkpoint_error string).

Definition ck_oracle := nat -> ck_request -> result checkpoint_error string.

Section Triggers.
Context (outcome : ck_oracle).

(** [creator.createCheckpoint] *)
Definition create (w : ck_log) (r : ck_request) : result checkpoint_error string * ck_log :=
  let res := outcome (length w) r in (res, w ++ [(r, res)]).

(** ** Selecting pods and containers *)

(** The API machinery: compiling a label selector and listing a namespace. *)
Record PodAPI := {
  LabelSelectorAsSelector : LabelSelector -> result apierror (gmap string string -> bool);
  list_namespace : string -> result apierror (list Pod)
}.

Definition getMatchingPods (api : PodAPI) (ns : string) (selector : LabelSelector)
  : result apierror (list Pod) :=
  try! labelSelector := LabelSelectorAsSelector api selector in
  try! podList := list_namespace api ns in
  let items := List.filter (fun p => labelSelector (p_labels p)) podList in
  Ok (List.filter (fun p => bool_decide (p_phase p = PodRunning)) items).

Definition filterContainers (p : Pod) (containerNames : list string) : list Container :=
  match containerNames with
  | [] => Containers (p_spec p)
  | _ => List.filter (fun c => existsb (String.eqb (c_name c)) containerNames) (Containers (p_spec p))
  end.

Definition request_for (p : Pod) (c : Container) : ck_request :=
  {| ck_ns := p_namespace p; ck_pod := p_name p; ck_container := c_name c; ck_node := NodeName (p_spec p) |}.

(** ** Scheduled checkpoints *)

(** The containers to checkpoint, in the order the goroutines are started. *)
Definition scheduled_requests (pods : list Pod) (containerNames : list string) : list ck_request :=
  concat (map (fun p => map (request_for p)
    (List.filter (fun c => if (0 <? length containerNames)%nat
                           then existsb (String.eqb (c_name c)) containerNames else true)
       (Containers (p_spec p)))) pods).

(** Run requests one after another; the number that succeeded, as [int32]. *)
Fixpoint run_requests (w : ck_log) (rs : list ck_request) (created : Z) : Z * ck_log :=
  match rs with
  | [] => (created, w)
  | r :: rs' =>
      let '(res, w) := create w r in
      run_requests w rs' (match res with Ok _ => int32 (created + 1) | Err _ => created end)
  end.

(** [order] is the order in which the goroutines' requests take effect. *)
Definition runScheduledCheckpoints (api : PodAPI) (order : list ck_request -> list ck_request)
    (spec : CheckpointScheduleSpec) (w : ck_log) : Z * ck_log :=
  match getMatchingPods api (cs_Namespace spec) (cs_Selector spec) with
  | Err _ => (0, w)
  | Ok pods => run_requests w (order (scheduled_requests pods (cs_ContainerNames spec))) 0
  end.

(** ** Checkpointing the selected containers of a pod *)

(** Request every selected container; whether all succeeded. *)
Fixpoint checkpoint_all (w : ck_log) (p : Pod) (cs : list Container) (ok : bool) : bool * ck_log :=
  match cs with
  | [] => (ok, w)
  | c :: cs' =>
      let '(res, w) := create w (request_for p c) in
      checkpoint_all w p cs' (match res with Ok _ => ok | Err _ => false end)
  end.

Definition checkpointPodContainers (names : list string) (w : ck_log) (p : Pod) : bool * ck_log :=
  checkpoint_all w p (filterContainers p names) true.

(** ** The annotation trigger *)

Definition CheckpointTriggerAnnotation : string := "checkpoint.criu.org/trigger".

Definition annotated (p : Pod) : bool :=
  match p_annotations p !! CheckpointTriggerAnnotation with
  | Some v => (v =? "true")%string
  | None => false
  end.

(** One poll over the pods; the pods whose annotation a patch clears. *)
Fixpoint annotation_pods (names : list string) (w : ck_log) (pods : list Pod) : list Pod * ck_log :=
  match pods with
  | [] => ([], w)
  | p :: pods' =>
      if negb (annotated p) then annotation_pods names w pods'
      else
        let '(ok, w) := checkpointPodContainers names w p in
        let '(cleared, w) := annotation_pods names w pods' in
        (if ok then p :: cleared else cleared, w)
  end.

Definition annotation_run (api : PodAPI) (spec : CheckpointScheduleSpec) (w : ck_log)
  : list Pod * ck_log :=
  match getMatchingPods api (cs_Namespace spec) (cs_Selector spec) with
  | Err _ => ([], w)
  | Ok pods => annotation_pods (cs_ContainerNames spec) w pods
  end.

(** ** The event trigger *)

Record EventTrigger := {
  watchNodeDrain : bool;
  watchPodEviction : bool;
  watchPreemption : bool;
  seenNodes : gset string;
  seenPods : gset string
}.

Definition NewEventTrigger (spec : CheckpointScheduleSpec) : EventTrigger :=
  let events := OnKubernetesEvents (cs_Triggers spec) in
  {| watchNodeDrain := existsb (String.eqb "NodeDrain") events;
     watchPodEviction := existsb (String.eqb "PodEviction") events;
     watchPreemption := existsb (String.eqb "Preemption") events;
     seenNodes := ∅; seenPods := ∅ |}.

Definition with_seenPods (et : EventTrigger) (s : gset string) : EventTrigger :=
  {| watchNodeDrain := watchNodeDrain et; watchPodEviction := watchPodEviction et;
     watchPreemption := watchPreemption et; seenNodes := seenNodes et; seenPods := s |}.
Definition with_seenNodes (et : EventTrigger) (s : gset string) : EventTrigger :=
  {| watchNodeDrain := watchNodeDrain et; watchPodEviction := watchPodEviction et;
     watchPreemption := watchPreemption et; seenNodes := s; seenPods := seenPods et |}.

Definition pod_key (p : Pod) : string := p_namespace p +:+ "/" +:+ p_name p.

Definition podIsPreempted (p : Pod) : bool :=
  existsb (fun cond => (pc_type cond =? "DisruptionTarget")%string &&
                       (pc_reason cond =? "PreemptingEvictor")%string &&
                       bool_decide (pc_status cond = ConditionTrue)) (p_conditions p).

Definition checkpointOnce (names : list string) (et : EventTrigger) (w : ck_log) (p : Pod) (key : string)
  : EventTrigger * ck_log :=
  if bool_decide (key ∈ seenPods et) then (et, w)
  else
    let '(ok, w) := checkpointPodContainers names w p in
    (if ok then with_seenPods et ({[key]} ∪ seenPods et) else et, w).

(** The matching pods on one node; (fired, allOK). *)
Fixpoint drain_node (names : list string) (w : ck_log) (nodeName : string) (pods : list Pod)
    (fired allOK : bool) : bool * bool * ck_log :=
  match pods with
  | [] => (fired, allOK, w)
  | p :: pods' =>
      if negb (NodeName (p_spec p) =? nodeName)%string then drain_node names w nodeName pods' fired allOK
      else
        let '(ok, w) := checkpointPodContainers names w p in
        drain_node names w nodeName pods' true (if ok then allOK else false)
  end.

Fixpoint drain_nodes (names : list string) (et : EventTrigger) (w : ck_log) (pods : list Pod)
    (nodes : list string) : EventTrigger * ck_log :=
  match nodes with
  | [] => (et, w)
  | nodeName :: nodes' =>
      if bool_decide (nodeName ∈ seenNodes et) then drain_nodes names et w pods nodes'
      else
        let '(fired, allOK, w) := drain_node names w nodeName pods false true in
        let et := if fired && allOK then with_seenNodes et ({[nodeName]} ∪ seenNodes et) else et in
        drain_nodes names et w pods nodes'
  end.

(** [nodes]: the node list with [spec.unschedulable]; [iter] is the order of the
    map iteration. *)
Definition handleNodeDrain (names : list string) (nodes : result apierror (list (string * bool)))
    (iter : gset string -> list string) (et : EventTrigger) (w : ck_log) (pods : list Pod)
  : EventTrigger * ck_log :=
  let podNodeNames : gset string :=
    list_to_set (List.filter (fun n => negb (n =? "")%string) (map (fun p => NodeName (p_spec p)) pods)) in
  match nodes with
  | Err _ => (et, w)
  | Ok items =>
      let drainingNow : gset string :=
        list_to_set (map fst (List.filter (fun '(n, unschedulable) =>
          (unschedulable : bool) && bool_decide (n ∈ podNodeNames)) items)) in
      let et := with_seenNodes et (seenNodes et ∩ drainingNow) in
      drain_nodes names et w pods (iter drainingNow)
  end.

Fixpoint event_pods (names : list string) (et : EventTrigger) (w : ck_log) (pods : list Pod)
  : EventTrigger * ck_log :=
  match pods with
  | [] => (et, w)
  | p :: pods' =>
      let '(et, w) := if watchPodEviction et && p_deleting p
                      then checkpointOnce names et w p (pod_key p) else (et, w) in
      let '(et, w) := if watchPreemption et && podIsPreempted p
                      then checkpointOnce names et w p (pod_key p) else (et, w) in
      event_pods names et w pods'
  end.

Definition event_run (api : PodAPI) (nodes : result apierror (list (string * bool)))
    (iter : gset string -> list string) (spec : CheckpointScheduleSpec) (et : EventTrigger) (w : ck_log)
  : EventTrigger * ck_log :=
  match getMatchingPods api (cs_Namespace spec) (cs_Selector spec) with
  | Err _ => (et, w)
  | Ok pods =>
      let live : gset string := list_to_set (map pod_key pods) in
      let et := with_seenPods et (seenPods et ∩ live) in
      let '(et, w) := if watchNodeDrain et
                      then handleNodeDrain (cs_ContainerNames spec) nodes iter et w pods else (et, w) in
      event_pods (cs_ContainerNames spec) et w pods
  end.

(** ** The resource trigger *)

Definition defaultResourcePollInterval : Duration := 30 * Second.
Definition checkpointCooldown : Duration := 5 * Minute.

Record containerMetricsItem := {
  cm_Name : string;
  cm_Usage : gmap string string
}.

(** [time.NewTicker] panics on a non-positive interval. *)
Definition NewTicker (interval : Duration) : option Duration :=
  if 0 <? interval then Some interval else None.

(** The polling interval [NewResourceTrigger] computes. *)
Definition resource_interval (spec : CheckpointScheduleSpec) : Duration :=
  match ResourceThreshold (cs_Triggers spec) with
  | Some rt => match PollIntervalSeconds rt with
               | Some n => int64 (n * Second)
               | None => defaultResourcePollInterval
               end
  | None => defaultResourcePollInterval
  end.

Section Resource.
(** [resource.ParseQuantity] *)
Context (ParseQuantity : string -> option Quantity).

(** Usage and limit of one resource as integers [value], if both are there and
    the limit is not zero: the percentage, in [int64] arithmetic. *)
Definition usagePercent (res : string) (value : Quantity -> Z) (cm : containerMetricsItem)
    (limits : gmap string Quantity) : option Z :=
  match cm_Usage cm !! res with
  | None => None
  | Some usageStr =>
      match ParseQuantity usageStr with
      | None => None
      | Some usage =>
          match limits !! res with
          | None => None
          | Some limit => if IsZero limit then None
                          else Some (Z.quot (int64 (value usage * 100)) (value limit))
          end
      end
  end.

Definition memoryUsagePercent := usagePercent "memory" Value.
Definition cpuUsagePercent := usagePercent "cpu" MilliValue.

Inductive threshold_reason :=
| MemoryUpper (pct bound : Z) | MemoryLower (pct bound : Z)
| CPUUpper (pct bound : Z) | CPULower (pct bound : Z).

Definition thresholdExceeded (cm : containerMetricsItem) (limits : gmap string Quantity)
    (spec : ResourceThresholdSpec) : option threshold_reason :=
  let check (pct : option Z) (th : option ResourcePercentThreshold)
            (up low : Z -> Z -> threshold_reason) : option threshold_reason :=
    match th, pct with
    | Some t, Some p =>
        match Upper t with
        | Some u => if u <=? p then Some (up p u)
                    else match Lower t with
                         | Some l => if p <=? l then Some (low p l) else None
                         | None => None
                         end
        | None => match Lower t with
                  | Some l => if p <=? l then Some (low p l) else None
                  | None => None
                  end
        end
    | _, _ => None
    end in
  match check (memoryUsagePercent cm limits) (MemoryPercent spec) MemoryUpper MemoryLower with
  | Some r => Some r
  | None => check (cpuUsagePercent cm limits) (CPUPercent spec) CPUUpper CPULower
  end.

(** The trigger's memory of past checkpoints, and the clock: the [n]-th reading
    of the time. *)
Record resource_state := {
  lastCheckpoint : gmap string Time;
  ticks : nat
}.

Context (clock : nat -> Time).

Definition resource_key (p : Pod) (cm : containerMetricsItem) : string := p_name p +:+ "/" +:+ cm_Name cm.

(** [time.Since] of a missing (zero) time is longer than any cooldown. *)
Definition cooling (st : resource_state) (key : string) : bool :=
  match lastCheckpoint st !! key with
  | Some last => clock (ticks st) - last <? checkpointCooldown
  | None => false
  end.

Definition resource_item (p : Pod) (limits : gmap string (gmap string Quantity))
    (spec : ResourceThresholdSpec) (st : resource_state) (w : ck_log) (cm : containerMetricsItem)
  : resource_state * ck_log :=
  match limits !! cm_Name cm with
  | None => (st, w)
  | Some containerLimits =>
      match thresholdExceeded cm containerLimits spec with
      | None => (st, w)
      | Some _ =>
          let key := resource_key p cm in
          let st1 := {| lastCheckpoint := lastCheckpoint st; ticks := S (ticks st) |} in
          if cooling st key then (st1, w)
          else
            match create w {| ck_ns := p_namespace p; ck_pod := p_name p; ck_container := cm_Name cm;
                              ck_node := NodeName (p_spec p) |} with
            | (Err _, w) => (st1, w)
            | (Ok _, w) => ({| lastCheckpoint := <[key := clock (ticks st1)]> (lastCheckpoint st1);
                               ticks := S (ticks st1) |}, w)
            end
      end
  end.

(** The limits of the selected containers by name; a later container wins. *)
Definition container_limits (cs : list Container) : gmap string (gmap string Quantity) :=
  fold_left (fun m c => <[c_name c := c_limits c]> m) cs ∅.

Definition resource_pod (names : list string) (spec : ResourceThresholdSpec)
    (metrics : Pod -> option (list containerMetricsItem))
    (st : resource_state) (w : ck_log) (p : Pod) : resource_state * ck_log :=
  match metrics p with
  | None => (st, w)
  | Some items =>
      fold_left (fun '(st, w) cm => resource_item p (container_limits (filterContainers p names)) spec st w cm)
        items (st, w)
  end.

(** One poll; [client] is whether [rest.HTTPClientFor] succeeded. *)
Definition resource_run (api : PodAPI) (client : bool)
    (metrics : Pod -> option (list containerMetricsItem)) (spec : CheckpointScheduleSpec)
    (st : resource_state) (w : ck_log) : resource_state * ck_log :=
  match ResourceThreshold (cs_Triggers spec) with
  | None => (st, w)
  | Some rt =>
      match getMatchingPods api (cs_Namespace spec) (cs_Selector spec) with
      | Err _ => (st, w)
      | Ok pods =>
          if negb client then (st, w)
          else fold_left (fun '(st, w) p => resource_pod (cs_ContainerNames spec) rt metrics st w p)
                 pods (st, w)
      end
  end.
End Resource.

End Triggers.

(** ** Fetching pod metrics *)

(** The fields of a [metav1.Status] that are inspected. *)
Record Status := {
  s_Reason : string;
  s_Code : Z;
  s_Details : option (string * string * string)   (* group, kind, name *)
}.

Definition StatusNotFound : Z := 404.

Inductive metrics_error :=
| MetricsRequest (text : string)
| MetricsNotAvailable
| MetricsStatus (code : Z)
| MetricsDecode.

Section Metrics.
(** Decoding of a [metav1.Status] and of a pod metrics object. *)
Context (decodeStatus : string -> option Status).
Context (decodeMetrics : string -> option (list containerMetricsItem)).

Definition isPodMetricsNotFound (body podName : string) : bool :=
  match decodeStatus body with
  | None => false
  | Some status =>
      if negb (s_Reason status =? "NotFound")%string then false
      else if negb (s_Code status =? 0) && negb (s_Code status =? StatusNotFound) then false
      else match s_Details status with
           | None => false
           | Some (group, kind, name) =>
               (group =? "metrics.k8s.io")%string && (kind =? "pods")%string && (name =? podName)%string
           end
  end.

Definition fetchPodMetrics (x : exchange) (podName : string)
  : result metrics_error (list containerMetricsItem) :=
  match x with
  | DoFailed text => Err (MetricsRequest text)
  | Response statusCode body =>
      if (statusCode =? StatusNotFound) && isPodMetricsNotFound body podName then Err MetricsNotAvailable
      else if negb (statusCode =? StatusOK) then Err (MetricsStatus statusCode)
      else match decodeMetrics body with
           | None => Err MetricsDecode
           | Some m => Ok m
           end
  end.
End Metrics.
