(* ===== verification/TriggersProofs.v ===== *)
(** * Correctness of the triggers

    Exactly which checkpoints each trigger requests, what it remembers, and when
    it retries. *)

From S2P Require Import Prelude GoStrings GoJson Kube Api Creator Triggers.
Open Scope string_scope.
Open Scope list_scope.
Open Scope Z_scope.

Definition succeeded (e : ck_request * result checkpoint_error string) : bool := is_ok e.2.

Section Facts.
Context (outcome : ck_oracle).

(** ** Runs of requests *)

(** The world grew by [new]. *)
Definition grew (w w' new : ck_log) : Prop := w' = w ++ new.

Lemma run_requests_spec w rs created c w' :
  run_requests outcome w rs created = (c, w') ->
  exists new, grew w w' new /\ map fst new = rs /\
    (created = int32 created -> c = int32 (created + Z.of_nat (length (List.filter succeeded new)))).
Proof.
  revert w created. induction rs as [|r rs IH]; intros w created H; simpl in H.
  { simplify_eq. exists []. split; [unfold grew; by rewrite app_nil_r|]. simpl. by rewrite Z.add_0_r. }
  apply IH in H as (new & -> & Hf & Hc). exists ((r, outcome (length w) r) :: new).
  split; [unfold grew; by rewrite <- app_assoc|]. split; [simpl; by f_equal|].
  simpl. intros Hcr. destruct (outcome (length w) r) as [p|e]; unfold succeeded at 1; simpl.
  - rewrite Hc by (symmetry; apply int32_id, int32_range).
    rewrite int32_add_l. f_equal. lia.
  - by rewrite Hc.
Qed.

(** Every selected container of the pod is requested, in order. *)
Definition attempts (names : list string) (p : Pod) : list ck_request :=
  map (request_for p) (filterContainers p names).

Lemma checkpoint_all_spec w p cs ok ok' w' :
  checkpoint_all outcome w p cs ok = (ok', w') ->
  exists new, grew w w' new /\ map fst new = map (request_for p) cs /\ ok' = ok && forallb succeeded new.
Proof.
  revert w ok. induction cs as [|c cs IH]; intros w ok H; simpl in H.
  { simplify_eq. exists []. split; [unfold grew; by rewrite app_nil_r|]. by rewrite andb_true_r. }
  apply IH in H as (new & -> & Hf & ->). eexists (_ :: new).
  split; [unfold grew; by rewrite <- app_assoc|]. split; [simpl; by f_equal|].
  simpl. unfold succeeded at 2. simpl. destruct (outcome _ _), ok; done.
Qed.

Lemma checkpointPod_spec names w p ok w' :
  checkpointPodContainers outcome names w p = (ok, w') ->
  exists new, grew w w' new /\ map fst new = attempts names p /\ ok = forallb succeeded new.
Proof. intros H. by apply checkpoint_all_spec in H. Qed.

(** ** Selection *)

Lemma filterContainers_spec p names c :
  c ∈ filterContainers p names <->
  c ∈ Containers (p_spec p) /\ (names = [] \/ c_name c ∈ names).
Proof.
  unfold filterContainers. destruct names as [|n names].
  - split; [auto|tauto].
  - rewrite list_elem_of_In, filter_In, <- list_elem_of_In, existsb_exists.
    split.
    + intros [Hc (x & Hx & He)]. to_prop. subst x. split; [done|]. right. by apply list_elem_of_In.
    + intros [Hc [?|Hn]]; [done|]. split; [done|]. exists (c_name c). split; [by apply list_elem_of_In|].
      apply String.eqb_refl.
Qed.

Lemma scheduled_requests_attempts pods names :
  scheduled_requests pods names = concat (map (attempts names) pods).
Proof.
  unfold scheduled_requests, attempts, filterContainers. f_equal. apply map_ext. intros p. f_equal.
  destruct names as [|n names]; simpl; [|done]. by apply list_filter_all.
Qed.

Lemma getMatchingPods_spec api ns sel pods p :
  getMatchingPods api ns sel = Ok pods ->
  exists match_labels all, LabelSelectorAsSelector api sel = Ok match_labels /\
    list_namespace api ns = Ok all /\
    (p ∈ pods <-> p ∈ all /\ match_labels (p_labels p) = true /\ p_phase p = PodRunning).
Proof.
  unfold getMatchingPods. destruct (LabelSelectorAsSelector api sel) as [m|]; [|done].
  destruct (list_namespace api ns) as [all|]; [|done]. intros [= <-].
  exists m, all. split; [done|]. split; [done|].
  rewrite !list_elem_of_In, !filter_In, bool_decide_eq_true. tauto.
Qed.

(** A scheduled run requests exactly one checkpoint for every selected
    container of every running pod that matches, in whatever order the goroutines
    run, and returns the number of requests that succeeded; when the pods cannot
    be listed it requests nothing and returns zero. *)
Theorem runScheduledCheckpoints_exact api order spec w :
  (forall l, order l ≡ₚ l) ->
  let '(created, w') := runScheduledCheckpoints outcome api order spec w in
  exists new, grew w w' new /\
    match getMatchingPods api (cs_Namespace spec) (cs_Selector spec) with
    | Err _ => new = [] /\ created = 0
    | Ok pods =>
        map fst new ≡ₚ concat (map (attempts (cs_ContainerNames spec)) pods) /\
        created = int32 (Z.of_nat (length (List.filter succeeded new)))
    end.
Proof.
  intros Hord. unfold runScheduledCheckpoints. destruct (getMatchingPods _ _ _) as [pods|e].
  - destruct (run_requests _ _ _ _) as [created w'] eqn:E.
    apply run_requests_spec in E as (new & Hg & Hf & Hc). exists new. split; [done|].
    rewrite Hf, Hord, scheduled_requests_attempts. split; [done|]. by apply Hc.
  - exists []. split; [unfold grew; by rewrite app_nil_r|]. done.
Qed.

Lemma annotation_pods_spec names w pods cleared w' :
  annotation_pods outcome names w pods = (cleared, w') ->
  exists segs, grew w w' (concat segs) /\
    Forall2 (fun p seg => map fst seg = attempts names p) (List.filter annotated pods) segs /\
    cleared = map fst (List.filter (fun ps => forallb succeeded ps.2)
                         (combine (List.filter annotated pods) segs)).
Proof.
  revert w cleared w'. induction pods as [|p pods IH]; intros w cleared w' H; simpl in H.
  { simplify_eq. exists []. split; [unfold grew; by rewrite app_nil_r|]. split; [constructor|done]. }
  simpl. destruct (annotated p); simpl in H.
  - destruct (checkpointPodContainers _ _ _ _) as [ok w1] eqn:E1.
    apply checkpointPod_spec in E1 as (new & -> & Hf & ->).
    destruct (annotation_pods _ _ _ _) as [cl w2] eqn:E2. apply IH in E2 as (segs & Hg & HF & ->).
    unfold grew in Hg. simplify_eq. exists (new :: segs). split; [unfold grew; simpl; by rewrite app_assoc|].
    split; [by constructor|]. simpl. by destruct (forallb succeeded new).
  - apply IH in H as (segs & Hg & HF & ->). eauto.
Qed.

(** A poll of the annotation trigger requests the selected containers of
    exactly the annotated pods, in order, and clears the annotation of exactly
    those pods all of whose checkpoints succeeded; a failed request is kept for
    the next poll. *)
Theorem annotation_run_exact api spec w :
  let names := cs_ContainerNames spec in
  let '(cleared, w') := annotation_run outcome api spec w in
  exists segs, grew w w' (concat segs) /\
    match getMatchingPods api (cs_Namespace spec) (cs_Selector spec) with
    | Err _ => segs = [] /\ cleared = []
    | Ok pods =>
        Forall2 (fun p seg => map fst seg = attempts names p) (List.filter annotated pods) segs /\
        cleared = map fst (List.filter (fun ps => forallb succeeded ps.2)
                             (combine (List.filter annotated pods) segs))
    end.
Proof.
  intros names. unfold annotation_run. destruct (getMatchingPods _ _ _) as [pods|e].
  - destruct (annotation_pods _ _ _ _) as [cleared w'] eqn:E. by apply annotation_pods_spec in E.
  - exists []. split; [unfold grew; by rewrite app_nil_r|]. done.
Qed.

(** ** The event trigger *)

(** The checkpoints of a pod all succeeded, or one of them failed, in [new]. *)
Definition all_succeeded (names : list string) (new : ck_log) (p : Pod) : Prop :=
  forall r, r ∈ attempts names p -> exists x, x ∈ new /\ x.1 = r /\ succeeded x = true.
Definition some_failed (names : list string) (new : ck_log) (p : Pod) : Prop :=
  exists x, x ∈ new /\ x.1 ∈ attempts names p /\ succeeded x = false.

(** What a part of a poll that handles the pods [P] may do. *)
Definition event_rel (names : list string) (P : list Pod) (et et' : EventTrigger) (new : ck_log) : Prop :=
  (watchPodEviction et' = watchPodEviction et /\ watchPreemption et' = watchPreemption et) /\
  seenPods et ⊆ seenPods et' /\
  (forall x, x ∈ new -> exists p, p ∈ P /\ (pod_key p ∉ seenPods et) /\ x.1 ∈ attempts names p) /\
  (forall k, k ∈ seenPods et' ->
     k ∈ seenPods et \/ exists p, p ∈ P /\ pod_key p = k /\ all_succeeded names new p).

Lemma event_rel_refl names P et : event_rel names P et et [].
Proof. split; [done|]. split; [done|]. split; [by intros x ?%elem_of_nil|]. by left. Qed.

Lemma all_succeeded_mono names n1 n2 n p :
  n = n1 ++ n2 -> all_succeeded names n1 p \/ all_succeeded names n2 p -> all_succeeded names n p.
Proof.
  intros -> [H|H] r Hr; destruct (H r Hr) as (x & Hx & ?); exists x; (split; [|done]); apply elem_of_app; auto.
Qed.

Lemma event_rel_trans names P1 P2 et et1 et2 n1 n2 :
  event_rel names P1 et et1 n1 -> event_rel names P2 et1 et2 n2 ->
  event_rel names (P1 ++ P2) et et2 (n1 ++ n2).
Proof.
  intros ([F1 F2] & S1 & A1 & C1) ([G1 G2] & S2 & A2 & C2). split; [split; congruence|].
  split; [set_solver|]. split.
  - intros x [Hx|Hx]%elem_of_app.
    + destruct (A1 x Hx) as (p & ? & ? & ?). exists p. rewrite elem_of_app. auto.
    + destruct (A2 x Hx) as (p & ? & Hp & ?). exists p. rewrite elem_of_app. split; [auto|]. split; [set_solver|done].
  - intros k Hk. destruct (C2 k Hk) as [Hk1|(p & Hp & Hkey & Hall)].
    + destruct (C1 k Hk1) as [?|(p & Hp & Hkey & Hall)]; [by left|]. right. exists p. rewrite elem_of_app.
      split; [auto|]. split; [done|]. by apply (all_succeeded_mono names n1 n2); auto.
    + right. exists p. rewrite elem_of_app. split; [auto|]. split; [done|].
      by apply (all_succeeded_mono names n1 n2); auto.
Qed.

Lemma checkpointOnce_spec names et w p et' w' :
  checkpointOnce outcome names et w p (pod_key p) = (et', w') ->
  exists new, grew w w' new /\ event_rel names [p] et et' new /\
    (pod_key p ∈ seenPods et' \/ some_failed names new p).
Proof.
  unfold checkpointOnce. case_bool_decide as Hk.
  { intros [= <- <-]. exists []. split; [unfold grew; by rewrite app_nil_r|].
    split; [apply event_rel_refl|by left]. }
  destruct (checkpointPodContainers _ _ _ _) as [ok w1] eqn:E.
  apply checkpointPod_spec in E as (new & Hg & Hf & Hok). intros [= <- <-].
  exists new. split; [done|].
  assert (forall x, x ∈ new -> x.1 ∈ attempts names p) as Hin.
  { intros x Hx. rewrite <- Hf. apply list_elem_of_In, in_map, list_elem_of_In, Hx. }
  destruct ok; simpl.
  - split; [|left; set_solver]. split; [done|]. split; [simpl; set_solver|]. split.
    + intros x Hx. exists p. split; [by left|]. auto.
    + intros k. simpl. rewrite elem_of_union, elem_of_singleton. intros [->|?]; [|by left]. right.
      exists p. split; [by left|]. split; [done|]. intros r Hr. rewrite <- Hf in Hr.
      apply list_elem_of_In, in_map_iff in Hr as (x & <- & Hx). exists x.
      symmetry in Hok. rewrite forallb_forall in Hok. split; [by apply list_elem_of_In|]. auto.
  - split.
    + split; [done|]. split; [done|]. split; [|by left]. intros x Hx. exists p. split; [by left|]. auto.
    + right. assert (existsb (fun x => negb (succeeded x)) new = true) as Hx.
      { clear -Hok. induction new as [|x new IH]; simpl in *; [done|]. destruct (succeeded x); simpl in *; auto. }
      apply existsb_exists in Hx as (x & Hx & Hs). exists x. to_prop. apply list_elem_of_In in Hx. auto.
Qed.

(** A pod that the trigger's configuration reacts to. *)
Definition disrupted (et : EventTrigger) (p : Pod) : bool :=
  (watchPodEviction et && p_deleting p) || (watchPreemption et && podIsPreempted p).

(** One signal of one pod: checked if it is on. *)
Lemma signal_spec names et w p (on : bool) et' w' :
  (if on then checkpointOnce outcome names et w p (pod_key p) else (et, w)) = (et', w') ->
  exists new, grew w w' new /\ event_rel names (if on then [p] else []) et et' new /\
    (on = true -> pod_key p ∈ seenPods et' \/ some_failed names new p).
Proof.
  destruct on; intros H.
  - apply checkpointOnce_spec in H as (new & ? & ? & ?). eauto.
  - simplify_eq. exists []. split; [unfold grew; by rewrite app_nil_r|]. split; [apply event_rel_refl|done].
Qed.

Lemma grew_trans w w1 w2 n1 n2 : grew w w1 n1 -> grew w1 w2 n2 -> grew w w2 (n1 ++ n2).
Proof. unfold grew. intros -> ->. by rewrite app_assoc. Qed.

Lemma some_failed_mono names n1 n2 p :
  some_failed names n1 p \/ some_failed names n2 p -> some_failed names (n1 ++ n2) p.
Proof. intros [(x & Hx & H)|(x & Hx & H)]; exists x; (split; [|done]); apply elem_of_app; auto. Qed.

Lemma event_rel_weaken names P P' et et' new :
  (forall p, p ∈ P -> p ∈ P') -> event_rel names P et et' new -> event_rel names P' et et' new.
Proof.
  intros HP (F & S & A & C). split; [done|]. split; [done|]. split.
  - intros x Hx. destruct (A x Hx) as (p & ? & ? & ?). eauto.
  - intros k Hk. destruct (C k Hk) as [|(p & ? & ? & ?)]; [by left|]. right. eauto.
Qed.

Lemma event_pods_spec names et w pods et' w' :
  event_pods outcome names et w pods = (et', w') ->
  exists new, grew w w' new /\ event_rel names (List.filter (disrupted et) pods) et et' new /\
    (forall p, p ∈ pods -> disrupted et p = true ->
       pod_key p ∈ seenPods et' \/ some_failed names new p).
Proof.
  revert et w. induction pods as [|p pods IH]; intros et w H; simpl in H.
  { simplify_eq. exists []. split; [unfold grew; by rewrite app_nil_r|].
    split; [apply event_rel_refl|by intros p ?%elem_of_nil]. }
  destruct (if watchPodEviction et && p_deleting p then _ else _) as [et1 w1] eqn:E1.
  apply signal_spec in E1 as (n1 & G1 & R1 & B1).
  destruct (if watchPreemption et1 && podIsPreempted p then _ else _) as [et2 w2] eqn:E2.
  apply signal_spec in E2 as (n2 & G2 & R2 & B2).
  apply IH in H as (n3 & G3 & R3 & B3).
  pose proof R1 as ([F1 F2] & _). pose proof R2 as ([F3 F4] & S2 & _). pose proof R3 as (_ & S3 & _).
  assert (forall q, disrupted et2 q = disrupted et q) as Hdis.
  { intros q. unfold disrupted. congruence. }
  rewrite F2 in R2, B2.
  exists (n1 ++ n2 ++ n3). split; [eauto using grew_trans|]. split.
  - eapply event_rel_weaken; [|eapply event_rel_trans; [exact R1|eapply event_rel_trans; [exact R2|exact R3]]].
    intros q. rewrite !elem_of_app. simpl. rewrite (filter_ext _ _ Hdis). unfold disrupted at 2.
    destruct (watchPodEviction et && p_deleting p), (watchPreemption et && podIsPreempted p); simpl;
      rewrite ?elem_of_cons, ?elem_of_nil; tauto.
  - intros q Hq Hd. apply elem_of_cons in Hq as [->|Hq].
    + unfold disrupted in Hd. apply orb_true_iff in Hd as [Hd|Hd].
      * destruct (B1 Hd) as [?|?]; [left; set_solver|right]. apply some_failed_mono. by left.
      * destruct (B2 Hd) as [?|?]; [left; set_solver|right].
        apply some_failed_mono. right. apply some_failed_mono. by left.
    + destruct (B3 q Hq) as [?|?]; [by rewrite Hdis|by left|right].
      apply some_failed_mono. right. apply some_failed_mono. by right.
Qed.

(** A poll of the event trigger (node drains apart) checkpoints each
    disrupted pod once per disruption: it requests only the selected containers
    of disrupted pods that are not remembered from an earlier poll; a pod is
    remembered exactly when it was remembered and is still there or when all its
    checkpoints succeeded in this poll; and a disrupted pod that is not
    remembered afterwards had a failing checkpoint, which the next poll retries. *)
Theorem event_run_once api nodes iter spec et w pods :
  watchNodeDrain et = false ->
  getMatchingPods api (cs_Namespace spec) (cs_Selector spec) = Ok pods ->
  let names := cs_ContainerNames spec in
  let '(et', w') := event_run outcome api nodes iter spec et w in
  exists new, grew w w' new /\
    (forall x, x ∈ new -> exists p, p ∈ pods /\ disrupted et p = true /\
       (pod_key p ∉ seenPods et) /\ x.1 ∈ attempts names p) /\
    (forall k, k ∈ seenPods et' ->
       (k ∈ seenPods et /\ exists p, p ∈ pods /\ pod_key p = k) \/
       (exists p, p ∈ pods /\ disrupted et p = true /\ pod_key p = k /\ all_succeeded names new p)) /\
    (forall p, p ∈ pods -> pod_key p ∈ seenPods et -> pod_key p ∈ seenPods et') /\
    (forall p, p ∈ pods -> disrupted et p = true ->
       pod_key p ∈ seenPods et' \/ some_failed names new p).
Proof.
  intros Hd Hp names. unfold event_run. rewrite Hp. simpl. rewrite Hd.
  set (et0 := with_seenPods et _).
  assert (forall p, p ∈ pods -> pod_key p ∈ (list_to_set (map pod_key pods) : gset string)) as Hlive.
  { intros p Hin. apply elem_of_list_to_set, list_elem_of_In, in_map. by apply list_elem_of_In. }
  destruct (event_pods _ _ _ _ _) as [et' w'] eqn:E.
  apply event_pods_spec in E as (new & Hg & (_ & Hs & Ha & Hc) & Hb). exists new.
  assert (forall p, disrupted et0 p = disrupted et p) as Hdis by done.
  split; [done|]. split; [|split; [|split]].
  - intros x Hx. destruct (Ha x Hx) as (p & Hin & Hk & Hr).
    rewrite list_elem_of_In, filter_In, <- list_elem_of_In in Hin. exists p.
    split; [tauto|]. split; [tauto|]. split; [|done]. simpl in Hk.
    specialize (Hlive p ltac:(tauto)). set_solver.
  - intros k Hk. destruct (Hc k Hk) as [Hk'|(p & Hin & Hkey & Hall)].
    + left. simpl in Hk'. apply elem_of_intersection in Hk' as [Hk1 Hk2]. split; [done|].
      apply elem_of_list_to_set, list_elem_of_In, in_map_iff in Hk2 as (p & <- & Hin). exists p.
      by rewrite list_elem_of_In.
    + right. rewrite list_elem_of_In, filter_In, <- list_elem_of_In in Hin. exists p. tauto.
  - intros p Hin Hk. apply Hs. simpl. specialize (Hlive p Hin). set_solver.
  - intros p Hin Hdp. by apply Hb.
Qed.

(** ** Node drains *)

Definition on_node (n : string) (p : Pod) : bool := (NodeName (p_spec p) =? n)%string.

(** The requests for the pods of one node. *)
Definition node_attempts (names : list string) (pods : list Pod) (n : string) : list ck_request :=
  concat (map (attempts names) (List.filter (on_node n) pods)).

Lemma drain_node_spec names w n pods fired ok fired' ok' w' :
  drain_node outcome names w n pods fired ok = (fired', ok', w') ->
  exists new, grew w w' new /\ map fst new = node_attempts names pods n /\
    fired' = fired || existsb (on_node n) pods /\ ok' = ok && forallb succeeded new.
Proof.
  revert w fired ok. induction pods as [|p pods IH]; intros w fired ok H; simpl in H.
  { simplify_eq. exists []. split; [unfold grew; by rewrite app_nil_r|].
    simpl. by rewrite orb_false_r, andb_true_r. }
  unfold node_attempts. simpl. fold (on_node n p) in H. destruct (on_node n p) eqn:En; simpl in H.
  - destruct (checkpointPodContainers _ _ _ _) as [okp w1] eqn:E1.
    apply checkpointPod_spec in E1 as (n1 & G1 & F1 & ->). apply IH in H as (n2 & G2 & F2 & -> & ->).
    exists (n1 ++ n2). split; [eauto using grew_trans|].
    rewrite map_app, F1, F2, forallb_app. simpl. rewrite orb_true_r. split; [done|]. split; [done|].
    by destruct (forallb succeeded n1), ok.
  - apply IH in H as (n2 & G2 & F2 & -> & ->). exists n2. split; [done|]. by split.
Qed.

(** Every request of a node's pods succeeded, or one failed. *)
Definition node_succeeded (names : list string) (pods : list Pod) (new : ck_log) (n : string) : Prop :=
  forall r, r ∈ node_attempts names pods n -> exists x, x ∈ new /\ x.1 = r /\ succeeded x = true.
Definition node_failed (names : list string) (pods : list Pod) (new : ck_log) (n : string) : Prop :=
  exists x, x ∈ new /\ x.1 ∈ node_attempts names pods n /\ succeeded x = false.

Lemma not_all_succeeded l : forallb succeeded l = false -> exists x, x ∈ l /\ succeeded x = false.
Proof.
  induction l as [|x l IH]; simpl; [done|]. destruct (succeeded x) eqn:Es; simpl; intros H.
  - destruct (IH H) as (y & Hy & Hs). exists y. rewrite elem_of_cons. auto.
  - exists x. rewrite elem_of_cons. auto.
Qed.

Lemma drain_nodes_spec names et w pods nodes et' w' :
  drain_nodes outcome names et w pods nodes = (et', w') ->
  exists new, grew w w' new /\ seenPods et' = seenPods et /\ seenNodes et ⊆ seenNodes et' /\
    (forall x, x ∈ new -> exists n, n ∈ nodes /\ (n ∉ seenNodes et) /\ x.1 ∈ node_attempts names pods n) /\
    (forall n, n ∈ seenNodes et' ->
       n ∈ seenNodes et \/ (n ∈ nodes /\ node_succeeded names pods new n)) /\
    (forall n, n ∈ nodes -> existsb (on_node n) pods = true ->
       n ∈ seenNodes et' \/ node_failed names pods new n).
Proof.
  revert et w. induction nodes as [|n nodes IH]; intros et w H; simpl in H.
  { simplify_eq. exists []. split; [unfold grew; by rewrite app_nil_r|]. repeat split; try done.
    - by intros x ?%elem_of_nil.
    - by left.
    - by intros n ?%elem_of_nil. }
  case_bool_decide as Hn.
  { apply IH in H as (new & G & Sp & Sn & A & C & B). exists new. split; [done|]. split; [done|]. split; [done|].
    split; [|split].
    - intros x Hx. destruct (A x Hx) as (m & ? & ? & ?). exists m. rewrite elem_of_cons. auto.
    - intros m Hm. destruct (C m Hm) as [|[? ?]]; [by left|]. right. rewrite elem_of_cons. auto.
    - intros m [->|Hm]%elem_of_cons Hon; [left; set_solver|auto]. }
  destruct (drain_node _ _ _ _ _ _ _) as [[fired ok] w1] eqn:E1.
  apply drain_node_spec in E1 as (n1 & G1 & F1 & -> & ->). simpl in H.
  set (et1 := if existsb (on_node n) pods && forallb succeeded n1 then _ else et) in H.
  assert (seenPods et1 = seenPods et /\ seenNodes et ⊆ seenNodes et1 /\
          (forall m, m ∈ seenNodes et1 -> m ∈ seenNodes et \/
             (m = n /\ forallb succeeded n1 = true)) /\
          (existsb (on_node n) pods = true -> forallb succeeded n1 = true -> n ∈ seenNodes et1)) as (E1 & E2 & E3 & E4).
  { subst et1. destruct (existsb (on_node n) pods), (forallb succeeded n1); simpl; repeat split; try done; set_solver. }
  apply IH in H as (n2 & G2 & Sp & Sn & A & C & B). exists (n1 ++ n2).
  split; [eauto using grew_trans|]. split; [congruence|]. split; [set_solver|]. split; [|split].
  - intros x [Hx|Hx]%elem_of_app.
    + exists n. split; [by left|]. split; [done|]. rewrite <- F1.
      apply list_elem_of_In, in_map, list_elem_of_In, Hx.
    + destruct (A x Hx) as (m & ? & ? & ?). exists m. rewrite elem_of_cons. split; [auto|]. split; [set_solver|done].
  - intros m Hm. destruct (C m Hm) as [Hm1|[Hm1 Hall]].
    + destruct (E3 m Hm1) as [?|[-> Hok]]; [by left|]. right. split; [by left|].
      intros r Hr. rewrite <- F1 in Hr. apply list_elem_of_In, in_map_iff in Hr as (x & <- & Hx).
      exists x. rewrite forallb_forall in Hok. rewrite elem_of_app, list_elem_of_In. auto.
    + right. rewrite elem_of_cons. split; [auto|]. intros r Hr. destruct (Hall r Hr) as (x & ? & ?).
      exists x. rewrite elem_of_app. auto.
  - intros m [->|Hm]%elem_of_cons Hon.
    + destruct (forallb succeeded n1) eqn:Hok; [left; set_solver|]. right.
      destruct (not_all_succeeded n1 Hok) as (x & Hx & Hs). exists x. rewrite elem_of_app, <- F1.
      split; [by left|]. split; [|done]. by apply list_elem_of_In, in_map, list_elem_of_In.
    + destruct (B m Hm Hon) as [?|(x & ? & ?)]; [by left|]. right. exists x. rewrite elem_of_app. auto.
Qed.

(** The nodes that are being drained under matching pods. *)
Definition draining (items : list (string * bool)) (pods : list Pod) (n : string) : Prop :=
  (n, true) ∈ items /\ n <> "" /\ exists p, p ∈ pods /\ NodeName (p_spec p) = n.

(** Node drains: a poll requests only pods on nodes that are unschedulable
    now and whose drain is not remembered; a drain is remembered only while it
    lasts and only once every checkpoint on the node has succeeded; a draining
    node that is not remembered afterwards had a failing checkpoint. *)
Theorem handleNodeDrain_exact names items iter et w pods :
  (forall s, iter s ≡ₚ elements s) ->
  let '(et', w') := handleNodeDrain outcome names (Ok items) iter et w pods in
  exists new, grew w w' new /\ seenPods et' = seenPods et /\
    (forall x, x ∈ new -> exists n, draining items pods n /\ (n ∉ seenNodes et) /\
       x.1 ∈ node_attempts names pods n) /\
    (forall n, n ∈ seenNodes et' -> draining items pods n /\
       (n ∈ seenNodes et \/ node_succeeded names pods new n)) /\
    (forall n, draining items pods n -> n ∈ seenNodes et' \/ node_failed names pods new n).
Proof.
  intros Hit. unfold handleNodeDrain.
  set (names0 := list_to_set (List.filter _ _)). set (dn := list_to_set (map fst (List.filter _ items))).
  assert (forall n, n ∈ dn <-> draining items pods n) as Hdn.
  { intros n. subst dn names0. rewrite elem_of_list_to_set, list_elem_of_In, in_map_iff. unfold draining.
    setoid_rewrite filter_In. split.
    - intros ([m u] & <- & Hin & Hb). apply andb_true_iff in Hb as [-> Hb]. simpl.
      apply bool_decide_eq_true in Hb. rewrite elem_of_list_to_set, list_elem_of_In, filter_In, in_map_iff in Hb.
      destruct Hb as [(p & Hp & Hin') Hne]. to_prop. split; [by apply list_elem_of_In|]. split; [done|].
      exists p. by rewrite list_elem_of_In.
    - intros (Hin & Hne & p & Hp & Hn). exists (n, true). split; [done|]. split; [by apply list_elem_of_In|].
      simpl. apply bool_decide_eq_true. rewrite elem_of_list_to_set, list_elem_of_In, filter_In, in_map_iff.
      split; [exists p; by rewrite <- list_elem_of_In|]. apply negb_true_iff. by apply String.eqb_neq. }
  destruct (drain_nodes _ _ _ _ _ _) as [et' w'] eqn:E.
  apply drain_nodes_spec in E as (new & G & Sp & Sn & A & C & B). simpl in *.
  assert (forall n, n ∈ iter dn <-> draining items pods n) as Hel.
  { intros n. rewrite Hit, elem_of_elements. apply Hdn. }
  exists new. split; [done|]. split; [done|]. split; [|split].
  - intros x Hx. destruct (A x Hx) as (n & Hn & Hs & Hr). exists n. apply Hel in Hn.
    split; [done|]. split; [|done]. apply Hdn in Hn. set_solver.
  - intros n Hn. destruct (C n Hn) as [Hs|[Hs Hok]].
    + apply elem_of_intersection in Hs as [Hs Hd]. split; [by apply Hdn|]. by left.
    + split; [by apply Hel|]. by right.
  - intros n Hn. apply B; [by apply Hel|]. destruct Hn as (_ & _ & p & Hp & Hon).
    apply existsb_exists. exists p. split; [by apply list_elem_of_In|]. by apply String.eqb_eq.
Qed.
End Facts.

(** ** The resource trigger *)

Section ResourceFacts.
Context (outcome : ck_oracle) (ParseQuantity : string -> option Quantity) (clock : nat -> Time).

(** The number of checkpoints in [new] that succeeded for a pod/container key. *)
Definition successes (k : string) (new : ck_log) : Z :=
  Z.of_nat (length (List.filter
    (fun x => succeeded x && (ck_pod x.1 +:+ "/" +:+ ck_container x.1 =? k)%string) new)).

Lemma successes_app k n1 n2 : successes k (n1 ++ n2) = successes k n1 + successes k n2.
Proof. unfold successes. rewrite List.filter_app, length_app. lia. Qed.

Lemma successes_nonneg k n : 0 <= successes k n.
Proof. unfold successes. lia. Qed.

(** [n] successes of key [k] took the remembered time from [l] to [l'], one
    cooldown each, and not beyond [now]. *)
Definition spaced (n : Z) (l l' : option Time) (now : Time) : Prop :=
  (n = 0 -> l' = l) /\
  (0 < n -> exists t', l' = Some t' /\ t' <= now /\
     forall t, l = Some t -> t + n * checkpointCooldown <= t').

Definition paced (st st' : resource_state) (new : ck_log) : Prop :=
  (ticks st <= ticks st')%nat /\
  forall k, spaced (successes k new) (lastCheckpoint st !! k) (lastCheckpoint st' !! k) (clock (ticks st')).

Hypothesis clock_mono : forall n, clock n <= clock (S n).

Lemma clock_le m n : (m <= n)%nat -> clock m <= clock n.
Proof. induction 1 as [|n _ IH]; [done|]. specialize (clock_mono n). lia. Qed.

Lemma paced_refl st : paced st st [].
Proof. split; [done|]. intros k. split; [done|]. unfold successes. simpl. lia. Qed.

Lemma paced_trans st st1 st2 n1 n2 : paced st st1 n1 -> paced st1 st2 n2 -> paced st st2 (n1 ++ n2).
Proof.
  intros [T1 P1] [T2 P2]. split; [lia|]. intros k. rewrite successes_app.
  destruct (P1 k) as [Z1 N1], (P2 k) as [Z2 N2].
  pose proof (successes_nonneg k n1) as Q1. pose proof (successes_nonneg k n2) as Q2.
  pose proof (clock_le _ _ T2) as Q3. unfold spaced, checkpointCooldown, Minute, Second in *.
  split.
  - intros Hs. rewrite Z2, Z1 by lia. done.
  - intros Hs. destruct (Z.eq_dec (successes k n2) 0) as [E2|E2].
    + destruct N1 as (t' & H1 & H2 & H3); [lia|]. exists t'. rewrite Z2, E2 by lia.
      split; [done|]. split; [lia|]. intros t Ht. specialize (H3 t Ht). lia.
    + destruct N2 as (t' & H1 & H2 & H3); [lia|]. exists t'. split; [done|]. split; [done|].
      intros t Ht. destruct (Z.eq_dec (successes k n1) 0) as [E1|E1].
      * rewrite Z1 in H3 by done. specialize (H3 t Ht). lia.
      * destruct N1 as (t1 & H4 & H5 & H6); [lia|]. specialize (H3 t1 H4). specialize (H6 t Ht). lia.
Qed.

Lemma paced_tick st : paced st {| lastCheckpoint := lastCheckpoint st; ticks := S (ticks st) |} [].
Proof. split; [simpl; lia|]. intros k. split; [done|]. unfold successes. simpl. lia. Qed.

Lemma resource_item_paced p limits spec st w cm :
  exists new, grew w (resource_item outcome ParseQuantity clock p limits spec st w cm).2 new /\
    paced st (resource_item outcome ParseQuantity clock p limits spec st w cm).1 new.
Proof.
  unfold resource_item.
  assert (grew w w []) as Hrefl by (unfold grew; by rewrite app_nil_r).
  destruct (limits !! cm_Name cm) as [lim|]; [|eauto using paced_refl].
  destruct (thresholdExceeded _ _ _ _) as [reason|]; [|eauto using paced_refl].
  destruct (cooling clock st (resource_key p cm)) eqn:Ec; [eauto using paced_tick|].
  unfold create. set (req := {| ck_ns := _ |}). destruct (outcome (length w) req) as [path|e] eqn:Eo; simpl.
  - exists [(req, Ok path)]. split; [done|]. split; [simpl; lia|]. intros k. simpl.
    destruct (decide (k = resource_key p cm)) as [->|Hk].
    + rewrite lookup_insert_eq.
      assert (successes (resource_key p cm) [(req, Ok path)] = 1) as ->.
      { unfold successes, resource_key. simpl. by rewrite String.eqb_refl. }
      split; [lia|]. intros _. eexists. split; [done|]. split; [apply clock_mono|].
      intros t0 Ht. unfold cooling in Ec. revert Ec.
      destruct (lastCheckpoint st !! resource_key p cm) as [t1|] eqn:El; [|congruence].
      assert (t1 = t0) as -> by congruence. intros Ec. to_prop.
      pose proof (clock_mono (ticks st)). lia.
    + rewrite lookup_insert_ne by done.
      assert (successes k [(req, Ok path)] = 0) as ->; [|split; [done|lia]].
      unfold successes, resource_key in *. simpl.
      destruct (_ =? k)%string eqn:Ek; [apply String.eqb_eq in Ek; by destruct Hk|done].
  - exists [(req, Err e)]. split; [done|]. apply (paced_tick st).
Qed.

Lemma fold_paced {X} (f : resource_state * ck_log -> X -> resource_state * ck_log) (l : list X) st w :
  (forall st w x, exists new, grew w (f (st, w) x).2 new /\ paced st (f (st, w) x).1 new) ->
  exists new, grew w (fold_left f l (st, w)).2 new /\ paced st (fold_left f l (st, w)).1 new.
Proof.
  intros Hf. revert st w. induction l as [|x l IH]; intros st w; simpl.
  { exists []. split; [unfold grew; by rewrite app_nil_r|apply paced_refl]. }
  destruct (Hf st w x) as (n1 & G1 & P1). destruct (f (st, w) x) as [st1 w1]. simpl in *.
  destruct (IH st1 w1) as (n2 & G2 & P2). exists (n1 ++ n2).
  split; [eauto using grew_trans|eauto using paced_trans].
Qed.

(** The environment of one poll. *)
Record poll := {
  poll_api : PodAPI;
  poll_client : bool;
  poll_metrics : Pod -> option (list containerMetricsItem);
  poll_spec : CheckpointScheduleSpec
}.

Definition run_polls (ps : list poll) (st : resource_state) (w : ck_log) : resource_state * ck_log :=
  fold_left (fun '(st, w) q =>
    resource_run outcome ParseQuantity clock (poll_api q) (poll_client q) (poll_metrics q) (poll_spec q) st w)
    ps (st, w).

(** C39. The cooldown holds over any sequence of polls: if a container was last
    checkpointed at [t] and the polls make [n] more successful checkpoints of it,
    the last of them is at least [n] cooldowns of five minutes after [t] (and not
    in the future); without a success nothing is forgotten. *)
Theorem resource_cooldown ps st w :
  let '(st', w') := run_polls ps st w in
  exists new, grew w w' new /\
    forall k (t : Time), lastCheckpoint st !! k = Some t ->
      (successes k new = 0 -> lastCheckpoint st' !! k = Some t) /\
      (0 < successes k new -> exists t', lastCheckpoint st' !! k = Some t' /\
         t + successes k new * (5 * Minute) <= t' <= clock (ticks st')).
Proof.
  assert (exists new, grew w (run_polls ps st w).2 new /\ paced st (run_polls ps st w).1 new) as (new & G & _ & P).
  { unfold run_polls. apply fold_paced. clear st w. intros st w q. unfold resource_run.
    assert (grew w w []) as Hrefl by (unfold grew; by rewrite app_nil_r).
    destruct (ResourceThreshold _); [|eauto using paced_refl].
    destruct (getMatchingPods _ _ _); [|eauto using paced_refl].
    destruct (negb _); [eauto using paced_refl|]. apply fold_paced. clear st w Hrefl. intros st w p.
    unfold resource_pod. destruct (poll_metrics q p) as [items|].
    - apply fold_paced. intros. apply resource_item_paced.
    - exists []. split; [unfold grew; by rewrite app_nil_r|apply paced_refl]. }
  destruct (run_polls ps st w) as [st' w']. exists new. split; [done|]. intros k t Ht.
  destruct (P k) as [Hz Hn]. split; [intros Hs; by etransitivity; [apply (Hz Hs)|]|].
  intros Hs. destruct (Hn Hs) as (t' & H1 & H2 & H3). exists t'. split; [done|].
  specialize (H3 t Ht). by split.
Qed.

(** ** Thresholds *)

(** A configured bound is reached: at or above the upper one, or at or below the
    lower one. *)
Definition breached (pct : option Z) (th : option ResourcePercentThreshold) : Prop :=
  exists t p, th = Some t /\ pct = Some p /\
    ((exists u, Upper t = Some u /\ u <= p) \/ (exists l, Lower t = Some l /\ p <= l)).

Lemma scale_down_nonzero q d : 0 < d -> q <> 0 -> scale_down q d <> 0.
Proof.
  intros Hd Hq. unfold scale_down. pose proof (Z.quot_rem' q d).
  destruct (Z.rem q d =? 0) eqn:E; to_prop; [lia|].
  destruct (0 <? q) eqn:E2; to_prop.
  - pose proof (Z.quot_pos q d ltac:(lia) ltac:(lia)). lia.
  - assert (q ÷ d <= 0); [|lia]. apply Z.opp_nonneg_nonpos. rewrite <- Z.quot_opp_l by lia.
    apply Z.quot_pos; lia.
Qed.

(** The resource trigger fires exactly when memory or CPU usage reaches a
    configured bound, inclusively; the percentage it compares is the usage times
    100 divided by the limit, rounded down, and is computed only for a usage that
    parses and a limit that is not zero, so it never divides by zero. *)
Theorem thresholdExceeded_exact cm limits spec :
  let mem := memoryUsagePercent ParseQuantity cm limits in
  let cpu := cpuUsagePercent ParseQuantity cm limits in
  (is_Some (thresholdExceeded ParseQuantity cm limits spec) <->
   breached mem (MemoryPercent spec) \/ breached cpu (CPUPercent spec)) /\
  (forall pct, mem = Some pct -> exists s u l, cm_Usage cm !! "memory" = Some s /\ ParseQuantity s = Some u /\
     limits !! "memory" = Some l /\ Value l <> 0 /\
     (0 <= Value u -> Value u * 100 <= MaxInt64 -> 0 < Value l -> pct = Value u * 100 / Value l)) /\
  (forall pct, cpu = Some pct -> exists s u l, cm_Usage cm !! "cpu" = Some s /\ ParseQuantity s = Some u /\
     limits !! "cpu" = Some l /\ MilliValue l <> 0 /\
     (0 <= MilliValue u -> MilliValue u * 100 <= MaxInt64 -> 0 < MilliValue l ->
      pct = MilliValue u * 100 / MilliValue l)).
Proof.
  intros mem cpu.
  assert (forall res value pct, (forall q, q <> 0 -> value q <> 0) ->
    usagePercent ParseQuantity res value cm limits = Some pct ->
    exists s u l, cm_Usage cm !! res = Some s /\ ParseQuantity s = Some u /\ limits !! res = Some l /\
      value l <> 0 /\
      (0 <= value u -> value u * 100 <= MaxInt64 -> 0 < value l -> pct = value u * 100 / value l)) as Hpct.
  { intros res value pct Hv. unfold usagePercent. destruct (cm_Usage cm !! res) as [s|]; [|done].
    destruct (ParseQuantity s) as [u|] eqn:Ep; [|done]. destruct (limits !! res) as [l|]; [|done].
    unfold IsZero. destruct (l =? 0) eqn:El; [done|]. to_prop. intros [= <-].
    exists s, u, l. split; [done|]. split; [done|]. split; [done|]. split; [by apply Hv|].
    intros H1 H2 H3. rewrite int64_id by (unfold MaxInt64 in *; lia). apply Z.quot_div_nonneg; lia. }
  split; [|split].
  - unfold thresholdExceeded. fold mem cpu. unfold breached.
    destruct (MemoryPercent spec) as [[mu ml]|], mem as [pm|], (CPUPercent spec) as [[cu cl]|], cpu as [pc|];
      simpl; try (destruct mu as [mu|]); try (destruct ml as [ml|]);
      try (destruct cu as [cu|]); try (destruct cl as [cl|]).
    all: repeat (match goal with |- context [if (?a <=? ?b) then _ else _] =>
           let E := fresh "E" in destruct (a <=? b) eqn:E; to_prop end).
    all: split; [intros [x Hx]; try done; clear Hx
                |intros [(t & p & Ht & Hp & [(b & Hb & Hle)|(b & Hb & Hle)])
                        |(t & p & Ht & Hp & [(b & Hb & Hle)|(b & Hb & Hle)])];
                 simplify_eq/=; try done; eauto; lia].
    all: first [ left; eexists _, _; split; [reflexivity|]; split; [reflexivity|];
                   first [left; eexists; split; [reflexivity|assumption] | right; eexists; split; [reflexivity|assumption]]
               | right; eexists _, _; split; [reflexivity|]; split; [reflexivity|];
                   first [left; eexists; split; [reflexivity|assumption] | right; eexists; split; [reflexivity|assumption]]].
  - intros pct. apply Hpct. intros q Hq. by apply scale_down_nonzero.
  - intros pct. apply Hpct. intros q Hq. by apply scale_down_nonzero.
Qed.
(** The cooldown is kept per pod name and container name; the namespace is not
    part of the key. A container over its threshold is skipped when a container of
    the same name was checkpointed in a pod of the same name less than five
    minutes ago, in whichever namespace that pod runs. *)
Theorem resource_cooldown_ignores_namespace p p' limits spec st w cm cm' (t : Time) :
  p_name p' = p_name p -> cm_Name cm' = cm_Name cm ->
  lastCheckpoint st !! resource_key p cm = Some t -> clock (ticks st) - t < 5 * Minute ->
  (resource_item outcome ParseQuantity clock p' limits spec st w cm').2 = w /\
  lastCheckpoint (resource_item outcome ParseQuantity clock p' limits spec st w cm').1 = lastCheckpoint st.
Proof.
  intros Hp Hc Hl Ht. unfold resource_item. destruct (limits !! _); [|done].
  destruct (thresholdExceeded _ _ _ _); [|done].
  assert (cooling clock st (resource_key p' cm') = true) as ->; [|done].
  assert (resource_key p' cm' = resource_key p cm) as -> by (unfold resource_key; congruence).
  unfold cooling. destruct (lastCheckpoint st !! resource_key p cm) as [t1|]; [|congruence].
  assert (t1 = t) as -> by congruence. apply Z.ltb_lt. exact Ht.
Qed.
End ResourceFacts.

(** Polling interval: [pollIntervalSeconds] is not bounded from below, and
    the ticker of the trigger's goroutine panics exactly when the configured
    number of seconds is zero or negative (numbers whose nanoseconds overflow
    aside). *)
Theorem resource_ticker_panics spec rt n :
  ResourceThreshold (cs_Triggers spec) = Some rt -> PollIntervalSeconds rt = Some n ->
  -9223372036 <= n <= 9223372036 ->
  NewTicker (resource_interval spec) = None <-> n <= 0.
Proof.
  intros H1 H2 Hn. unfold resource_interval, NewTicker. rewrite H1, H2.
  rewrite int64_id by (unfold Second, MaxInt64; lia). unfold Second.
  destruct (0 <? n * 1000000000) eqn:E; to_prop; split; intros; try done; lia.
Qed.

(** ** Concrete runs *)

Definition demo_pod (name node : string) (deleting : bool) : Pod :=
  {| p_name := name; p_namespace := "team"; p_annotations := ∅; p_labels := ∅; controller_uid := None;
     p_deleting := deleting;
     p_spec := {| NodeName := node;
                  Containers := [ {| c_name := "app"; c_image := "img"; c_limits := ∅ |};
                                  {| c_name := "sidecar"; c_image := "img"; c_limits := ∅ |} ] |};
     p_phase := PodRunning; p_reason := ""; p_message := ""; p_conditions := [] |}.

Definition demo_pods : list Pod := [demo_pod "a" "n1" true; demo_pod "b" "n2" false].

Definition demo_api : PodAPI :=
  {| LabelSelectorAsSelector := fun _ => Ok (fun _ => true);
     list_namespace := fun _ => Ok demo_pods |}.

Definition demo_spec : CheckpointScheduleSpec :=
  {| cs_Namespace := "team"; cs_Selector := {| MatchLabels := ∅; MatchExpressions := [] |};
     cs_ContainerNames := ["app"];
     cs_Triggers := {| tr_Interval := None;
                       ResourceThreshold := Some {| CPUPercent := None; MemoryPercent := None;
                                                    PollIntervalSeconds := Some 0 |};
                       OnKubernetesEvents := ["PodEviction"]; OnAnnotation := false |} |}.

Definition demo_outcome : ck_oracle := fun _ _ => Ok "/var/lib/kubelet/checkpoints/c.tar".

Lemma runScheduledCheckpoints_exact_witness :
  exists new, grew [] (runScheduledCheckpoints demo_outcome demo_api (@rev _) demo_spec []).2 new /\
    map fst new ≡ₚ concat (map (attempts ["app"]) demo_pods).
Proof.
  pose proof (runScheduledCheckpoints_exact demo_outcome demo_api (@rev _) demo_spec []
                (fun l => Permutation_sym (Permutation_rev l))) as H.
  destruct (runScheduledCheckpoints _ _ _ _ _) as [c w']. destruct H as (new & Hg & Hp & _).
  exists new. split; [exact Hg|exact Hp].
Defined.

Lemma event_run_once_witness :
  let '(et', w') := event_run demo_outcome demo_api (Ok []) elements demo_spec (NewEventTrigger demo_spec) [] in
  exists new, grew [] w' new /\
    (pod_key (demo_pod "a" "n1" true) ∈ seenPods et' \/ some_failed ["app"] new (demo_pod "a" "n1" true)).
Proof.
  pose proof (event_run_once demo_outcome demo_api (Ok []) elements demo_spec (NewEventTrigger demo_spec) []
                demo_pods eq_refl eq_refl) as H.
  destruct (event_run _ _ _ _ _ _ _) as [et' w']. destruct H as (new & Hg & _ & _ & _ & H).
  exists new. split; [exact Hg|]. apply (H (demo_pod "a" "n1" true)); [left|reflexivity].
Defined.

Lemma handleNodeDrain_exact_witness :
  let '(et', _) := handleNodeDrain demo_outcome ["app"] (Ok [("n1", true); ("n2", false)]) elements
                     (NewEventTrigger demo_spec) [] demo_pods in
  forall n, n ∈ seenNodes et' -> draining [("n1", true); ("n2", false)] demo_pods n.
Proof.
  pose proof (handleNodeDrain_exact demo_outcome ["app"] [("n1", true); ("n2", false)] elements
                (NewEventTrigger demo_spec) [] demo_pods (fun s => Permutation_refl _)) as H.
  destruct (handleNodeDrain _ _ _ _ _ _ _) as [et' w']. destruct H as (new & _ & _ & _ & H & _).
  intros n Hn. apply (H n Hn).
Defined.

Lemma resource_cooldown_witness :
  let st := {| lastCheckpoint := {[ "a/app" := 7 ]}; ticks := 0 |} in
  let '(st', w') := run_polls demo_outcome (fun _ => None) Z.of_nat [] st [] in
  lastCheckpoint st' !! "a/app" = Some 7.
Proof.
  pose proof (resource_cooldown demo_outcome (fun _ => None) Z.of_nat (fun n => ltac:(lia)) []
                {| lastCheckpoint := {[ "a/app" := 7 ]}; ticks := 0 |} []) as H.
  simpl in *. destruct H as (new & Hg & H). destruct new; [|discriminate Hg].
  apply (H "a/app" 7); [vm_compute; reflexivity|reflexivity].
Defined.

(** Two pods of the same name in two namespaces, both at their memory limit,
    under a schedule for every namespace. *)
Definition crowded_pod (ns : string) : Pod :=
  {| p_name := "web-0"; p_namespace := ns; p_annotations := ∅; p_labels := ∅; controller_uid := None;
     p_deleting := false;
     p_spec := {| NodeName := "n1";
                  Containers := [ {| c_name := "app"; c_image := "img";
                                     c_limits := {[ "memory" := 1000000000 ]} |} ] |};
     p_phase := PodRunning; p_reason := ""; p_message := ""; p_conditions := [] |}.

Definition crowded_api : PodAPI :=
  {| LabelSelectorAsSelector := fun _ => Ok (fun _ => true);
     list_namespace := fun ns => Ok (List.filter (fun p => String.eqb ns "" || String.eqb ns (p_namespace p))
                                       [crowded_pod "blue"; crowded_pod "green"]) |}.

Definition crowded_spec (ns : string) : CheckpointScheduleSpec :=
  {| cs_Namespace := ns; cs_Selector := {| MatchLabels := ∅; MatchExpressions := [] |};
     cs_ContainerNames := [];
     cs_Triggers := {| tr_Interval := None;
                       ResourceThreshold := Some {| CPUPercent := None;
                                                    MemoryPercent := Some {| Upper := Some 90; Lower := None |};
                                                    PollIntervalSeconds := None |};
                       OnKubernetesEvents := []; OnAnnotation := false |} |}.

Definition crowded_poll (ns : string) : list string :=
  map (fun e => ck_ns e.1)
    (resource_run demo_outcome (fun _ => Some 1000000000) Z.of_nat crowded_api true
       (fun _ => Some [ {| cm_Name := "app"; cm_Usage := {[ "memory" := "1" ]} |} ])
       (crowded_spec ns) {| lastCheckpoint := ∅; ticks := 0 |} []).2.

(** A poll over one namespace checkpoints its pod; a poll over all of them
    checkpoints only the first of the two, although both are at their limit. *)
Example crowded_poll_skips_second :
  crowded_poll "blue" = ["blue"] /\ crowded_poll "green" = ["green"] /\ crowded_poll "" = ["blue"].
Proof. vm_compute. repeat split. Qed.

Lemma resource_ticker_panics_witness : NewTicker (resource_interval demo_spec) = None.
Proof.
  apply (resource_ticker_panics demo_spec {| CPUPercent := None; MemoryPercent := None;
                                             PollIntervalSeconds := Some 0 |} 0); try reflexivity; lia.
Defined.
