(* ===== verification/ConcurrentCreator.v ===== *)
(** * Concurrent calls of [createCheckpoint] ([checkpoint_creator.go])

    The controllers and triggers call [createCheckpoint] from many goroutines
    and share one table of target locks.  Here every call is a small program
    that is interleaved with the others at the points where it synchronises or
    waits: it registers with the lock of its target, waits for the lock, sends up
    to three requests to the kubelet, sleeps in between, and runs the deferred
    unlock.  The environment chooses the interleaving, what the kubelet answers
    and when a context ends.  The theorems: the kubelet sees the calls for a
    target one after another, each call returns what the sequential
    [createCheckpoint] returns for the answers it got, and all calls return. *)

From S2P Require Import Prelude GoStrings GoJson Kube Creator Triggers.
Open Scope string_scope.
Open Scope list_scope.
Open Scope nat_scope.

(** ** One call *)

(** Where a call is; [attempt] counts from 1. *)
Inductive stage :=
| Started
| Queued
| Locked
| InFlight (attempt : Z)
| Sleeping (attempt : Z)
| Unlocking (r : result checkpoint_error string)
| Leaving (r : result checkpoint_error string)
| Returned (r : result checkpoint_error string).

(** The call's request and position, and what the environment gave it: the error
    of [rest.HTTPClientFor], the exchanges in order, the error of the sleep that
    ended it. *)
Record call := {
  cl_req : ck_request;
  cl_stage : stage;
  cl_client : option string;
  cl_seen : list exchange;
  cl_wake : option string
}.

Definition new_call (r : ck_request) : call :=
  {| cl_req := r; cl_stage := Started; cl_client := None; cl_seen := []; cl_wake := None |}.

Definition request_target (r : ck_request) : string :=
  checkpointTargetKey (ck_node r) (ck_ns r) (ck_pod r) (ck_container r).

Definition cl_target (c : call) : string := request_target (cl_req c).

Inductive action :=
| Enter
| Lock
| HTTPClientFor (err : option string)
| Reply (x : exchange)
| Wake (b : select_branch)
| Unlock
| Leave.

#[export] Instance exchange_eq_dec : EqDecision exchange.
Proof. solve_decision. Defined.
#[export] Instance select_branch_eq_dec : EqDecision select_branch.
Proof. solve_decision. Defined.
#[export] Instance action_eq_dec : EqDecision action.
Proof. solve_decision. Defined.

Definition with_stage (c : call) (st : stage) : call :=
  {| cl_req := cl_req c; cl_stage := st; cl_client := cl_client c; cl_seen := cl_seen c; cl_wake := cl_wake c |}.

Section Calls.
Context (decode_error_text : string -> string).

(** After an exchange of attempt [k]: return, or sleep and retry. *)
Definition after_reply (target : string) (k : Z) (x : exchange) : stage :=
  match createCheckpointOnce decode_error_text target x with
  | Ok checkpointPath => Unlocking (Ok checkpointPath)
  | Err lastErr =>
      if negb (isTransientCheckpointError lastErr) || (k =? maxCheckpointAttempts)%Z
      then Unlocking (Err lastErr)
      else Sleeping k
  end.

(** The next operation of a call. *)
Definition call_step (c : call) (a : action) : option call :=
  match cl_stage c, a with
  | Started, Enter => Some (with_stage c Queued)
  | Queued, Lock => Some (with_stage c Locked)
  | Locked, HTTPClientFor (Some text) =>
      Some {| cl_req := cl_req c; cl_stage := Unlocking (Err (RequestError text));
              cl_client := Some text; cl_seen := cl_seen c; cl_wake := cl_wake c |}
  | Locked, HTTPClientFor None => Some (with_stage c (InFlight 1))
  | InFlight k, Reply x =>
      Some {| cl_req := cl_req c; cl_stage := after_reply (cl_target c) k x;
              cl_client := cl_client c; cl_seen := cl_seen c ++ [x]; cl_wake := cl_wake c |}
  | Sleeping k, Wake b =>
      match sleepWithContext b with
      | Some text =>
          Some {| cl_req := cl_req c; cl_stage := Unlocking (Err (ContextDone text));
                  cl_client := cl_client c; cl_seen := cl_seen c; cl_wake := Some text |}
      | None =>
          Some (with_stage c (if (k + 1 <=? maxCheckpointAttempts)%Z then InFlight (k + 1)
                              else Unlocking (Ok "")))
      end
  | Unlocking r, Unlock => Some (with_stage c (Leaving r))
  | Leaving r, Leave => Some (with_stage c (Returned r))
  | _, _ => None
  end.

(** ** The calls together *)

(** The lock table shared by all calls, the calls by number, the exchanges the
    kubelet completed in order and the order in which calls got their locks. *)
Record ck_state := {
  table : lock_table;
  calls : list call;
  history : list (nat * exchange);
  turns : list nat
}.

Definition ck_init : ck_state :=
  {| table := newCheckpointTargetLockTable; calls := []; history := []; turns := [] |}.

Inductive ck_event :=
| Call (r : ck_request)
| Step (i : nat) (a : action).

(** What an operation does to the lock table. *)
Definition lock_event_of (i : nat) (target : string) (a : action) : option lock_event :=
  match a with
  | Enter => Some (Register i target)
  | Lock => Some (Acquire i)
  | Unlock => Some (Release i)
  | Leave => Some (Unregister i)
  | _ => None
  end.

Definition table_step (t : lock_table) (o : option lock_event) : option lock_table :=
  match o with Some e => lock_step t e | None => Some t end.

(** What an operation adds to the two records. *)
Definition completed (i : nat) (a : action) : list (nat * exchange) :=
  match a with Reply x => [(i, x)] | _ => [] end.
Definition taken (i : nat) (a : action) : list nat :=
  match a with Lock => [i] | _ => [] end.

Definition ck_step (s : ck_state) (e : ck_event) : option ck_state :=
  match e with
  | Call r => Some {| table := table s; calls := calls s ++ [new_call r]; history := history s; turns := turns s |}
  | Step i a =>
      c ← calls s !! i;
      c' ← call_step c a;
      t' ← table_step (table s) (lock_event_of i (cl_target c) a);
      Some {| table := t'; calls := <[i := c']> (calls s);
              history := history s ++ completed i a; turns := turns s ++ taken i a |}
  end.

Fixpoint ck_run (s : ck_state) (es : list ck_event) : option ck_state :=
  match es with
  | [] => Some s
  | e :: es' => s' ← ck_step s e; ck_run s' es'
  end.

(** ** What a call saw *)

Definition exchange_at (seen : list exchange) (k : Z) : exchange :=
  default (DoFailed "") (seen !! Z.to_nat (k - 1)).

Definition sleep_at (seen : list exchange) (wake : option string) (k : Z) : option string :=
  if (k =? Z.of_nat (length seen))%Z then wake else None.

(** The sequential call, given what this call got from the environment. *)
Definition sequential (c : call) : result checkpoint_error string * Z :=
  createCheckpoint decode_error_text (exchange_at (cl_seen c)) (sleep_at (cl_seen c) (cl_wake c))
    (cl_client c) (ck_ns (cl_req c)) (ck_pod (cl_req c)) (ck_container (cl_req c)) (ck_node (cl_req c)).

Definition result_of (c : call) : option (result checkpoint_error string) :=
  match cl_stage c with Unlocking r | Leaving r | Returned r => Some r | _ => None end.

Definition returned (c : call) : bool :=
  match cl_stage c with Returned _ => true | _ => false end.

Definition holds (c : call) : bool :=
  match cl_stage c with Locked | InFlight _ | Sleeping _ | Unlocking _ => true | _ => false end.

Definition in_flight (c : call) : bool :=
  match cl_stage c with InFlight _ => true | _ => false end.

(** Attempt [k] of the exchanges seen so far failed with a transient error. *)
Definition failed_transiently (target : string) (x : exchange) : Prop :=
  exists e, createCheckpointOnce decode_error_text target x = Err e /\ isTransientCheckpointError e = true.

(** ** Each call computes the sequential result *)

(** The loop passes over attempts that failed transiently. *)
Lemma create_loop_advance exch slp fuel target a n :
  reached decode_error_text exch slp target a n -> (a <= n <= maxCheckpointAttempts)%Z ->
  (n - a < Z.of_nat fuel)%Z ->
  create_loop decode_error_text exch slp fuel target a =
  create_loop decode_error_text exch slp (fuel - Z.to_nat (n - a)) target n.
Proof.
  revert a. induction fuel as [|fuel IH]; intros a Hr Hn Hf; [lia|].
  destruct (Z.eq_dec a n) as [->|Hne]; [by rewrite Z.sub_diag, Nat.sub_0_r|].
  replace (S fuel - Z.to_nat (n - a)) with (fuel - Z.to_nat (n - (a + 1))) by lia.
  rewrite <- IH; [|intros k Hk; apply Hr; lia|lia|lia]. simpl.
  destruct (Hr a ltac:(lia)) as (-> & e & -> & ->). simpl.
  destruct (a =? maxCheckpointAttempts)%Z eqn:E; [to_prop; lia|done].
Qed.

Lemma exchange_at_lookup seen k x :
  seen !! Z.to_nat (k - 1) = Some x -> exchange_at seen k = x.
Proof. intros H. unfold exchange_at. by rewrite H. Qed.

(** The attempts before [n] were made, and all of them failed transiently. *)
Lemma reached_seen target seen wake n :
  Forall (failed_transiently target) (take (Z.to_nat (n - 1)) seen) ->
  (n <= Z.of_nat (length seen))%Z ->
  reached decode_error_text (exchange_at seen) (sleep_at seen wake) target 1 n.
Proof.
  intros Hf Hl k Hk. split.
  - unfold sleep_at. destruct (k =? Z.of_nat (length seen))%Z eqn:E; [to_prop; lia|done].
  - destruct (lookup_lt_is_Some_2 seen (Z.to_nat (k - 1))) as [x Hx]; [lia|].
    rewrite (exchange_at_lookup _ _ _ Hx).
    rewrite Forall_lookup in Hf. apply (Hf (Z.to_nat (k - 1))). rewrite lookup_take_lt; [done|lia].
Qed.

(** The invariant of a call. *)
Definition call_ok (c : call) : Prop :=
  match cl_stage c with
  | Started | Queued | Locked => cl_seen c = [] /\ cl_client c = None /\ cl_wake c = None
  | InFlight k =>
      cl_client c = None /\ cl_wake c = None /\ Z.of_nat (length (cl_seen c)) = (k - 1)%Z /\
      (k <= maxCheckpointAttempts)%Z /\ Forall (failed_transiently (cl_target c)) (cl_seen c)
  | Sleeping k =>
      cl_client c = None /\ cl_wake c = None /\ Z.of_nat (length (cl_seen c)) = k /\
      (1 <= k < maxCheckpointAttempts)%Z /\ Forall (failed_transiently (cl_target c)) (cl_seen c)
  | Unlocking r | Leaving r | Returned r => sequential c = (r, Z.of_nat (length (cl_seen c)))
  end.

(** The sequential call reaches the last exchange seen. *)
Lemma sequential_last c pre x :
  cl_client c = None -> cl_seen c = pre ++ [x] -> Forall (failed_transiently (cl_target c)) pre ->
  (Z.of_nat (length (cl_seen c)) <= maxCheckpointAttempts)%Z ->
  exists fuel, sequential c =
    create_loop decode_error_text (exchange_at (cl_seen c)) (sleep_at (cl_seen c) (cl_wake c)) (S fuel)
      (cl_target c) (Z.of_nat (length (cl_seen c))) /\
    exchange_at (cl_seen c) (Z.of_nat (length (cl_seen c))) = x.
Proof.
  intros Hc Hs Hf Hl. unfold sequential. rewrite Hc. unfold createCheckpoint.
  fold (request_target (cl_req c)). fold (cl_target c).
  assert (length (cl_seen c) = S (length pre)) as Hlen by (rewrite Hs, length_app; simpl; lia).
  exists (Z.to_nat maxCheckpointAttempts - length (cl_seen c)). split.
  - erewrite create_loop_advance with (n := Z.of_nat (length (cl_seen c))).
    + f_equal. unfold maxCheckpointAttempts in *. lia.
    + apply reached_seen; [|done]. rewrite Hs at 2.
      rewrite take_app_le by lia. by apply Forall_take.
    + lia.
    + unfold maxCheckpointAttempts in *. lia.
  - apply exchange_at_lookup. rewrite Hlen, Hs, lookup_app_r by lia.
    by replace (Z.to_nat _ - _) with 0 by lia.
Qed.

Lemma reply_ok c k x c' :
  call_ok c -> cl_stage c = InFlight k -> call_step c (Reply x) = Some c' -> call_ok c'.
Proof.
  intros Hok Hst H. unfold call_ok in Hok. unfold call_step in H. rewrite Hst in Hok, H.
  destruct Hok as (Hc & Hw & Hl & Hk & Hf). injection H as <-. unfold call_ok. simpl.
  set (c1 := {| cl_req := _ |}).
  assert (Z.of_nat (length (cl_seen c1)) = k) as Hl1.
  { unfold c1. simpl. rewrite length_app. simpl. lia. }
  destruct (sequential_last c1 (cl_seen c) x) as (fuel & Hs & Hx); try done; [lia|].
  rewrite Hl1 in Hs, Hx. unfold after_reply.
  destruct (createCheckpointOnce decode_error_text (cl_target c) x) as [p|e] eqn:E.
  { rewrite Hs. cbn [create_loop]. rewrite Hx. change (cl_target c1) with (cl_target c). rewrite E. by f_equal. }
  destruct (negb (isTransientCheckpointError e) || (k =? maxCheckpointAttempts)%Z) eqn:Et.
  { rewrite Hs. cbn [create_loop]. rewrite Hx. change (cl_target c1) with (cl_target c). rewrite E, Et. by f_equal. }
  to_prop. destruct Et as [Et Hk3]. split; [done|]. split; [done|]. split; [done|]. split; [lia|].
  apply Forall_app. split; [done|]. apply Forall_singleton. by exists e.
Qed.

Lemma wake_ok c k b c' :
  call_ok c -> cl_stage c = Sleeping k -> call_step c (Wake b) = Some c' -> call_ok c'.
Proof.
  intros Hok Hst H. unfold call_ok in Hok. unfold call_step in H. rewrite Hst in Hok, H.
  destruct Hok as (Hc & Hw & Hl & Hk & Hf).
  destruct (sleepWithContext b) as [text|].
  - injection H as <-. unfold call_ok. simpl. set (c1 := {| cl_req := _ |}).
    destruct (cl_seen c) as [|y pre _] eqn:Es using rev_ind; [simpl in Hl; lia|].
    apply Forall_app in Hf as [Hf Hy]. apply Forall_singleton in Hy as (e & He & Ht).
    destruct (sequential_last c1 pre y) as (fuel & Hs & Hx); try done.
    { unfold c1. simpl. rewrite length_app in *. lia. }
    rewrite Hs. cbn [create_loop]. rewrite Hx. change (cl_target c1) with (cl_target c). rewrite He, Ht.
    change (cl_seen c1) with (pre ++ [y]). rewrite Hl. simpl.
    destruct (k =? maxCheckpointAttempts)%Z eqn:Em; [to_prop; lia|].
    unfold sleep_at. rewrite Hl, Z.eqb_refl. done.
  - destruct (k + 1 <=? maxCheckpointAttempts)%Z eqn:E; [|to_prop; lia]. injection H as <-. unfold call_ok. simpl.
    to_prop. repeat split; try done; lia.
Qed.

Lemma call_step_ok c a c' : call_ok c -> call_step c a = Some c' -> call_ok c'.
Proof.
  intros Hok H. pose proof H as H0. unfold call_step in H0.
  destruct (cl_stage c) eqn:Hst, a as [| |o|x|b| |]; try discriminate H0;
    [| | |by eapply reply_ok|by eapply wake_ok| |].
  - injection H0 as <-. unfold call_ok in *. by rewrite Hst in Hok.
  - injection H0 as <-. unfold call_ok in *. by rewrite Hst in Hok.
  - unfold call_ok in Hok. rewrite Hst in Hok. destruct Hok as (Hs & Hc & Hw).
    destruct o as [text|]; injection H0 as <-; unfold call_ok; simpl.
    + by rewrite Hs.
    + by rewrite Hs.
  - injection H0 as <-. unfold call_ok in *. by rewrite Hst in Hok.
  - injection H0 as <-. unfold call_ok in *. by rewrite Hst in Hok.
Qed.

(** ** Calls and the lock table *)

(** A call's entry in the table of callers, for a lock object [lk]. *)
Definition table_view (c : call) (lk : nat) : option caller :=
  match cl_stage c with
  | Started | Returned _ => None
  | Queued => Some (Waiting (cl_target c) lk)
  | Locked | InFlight _ | Sleeping _ | Unlocking _ => Some (Holding (cl_target c) lk)
  | Leaving _ => Some (Released (cl_target c) lk)
  end.

Definition coupled (t : lock_table) (cs : list call) (i : nat) : Prop :=
  match cs !! i with
  | Some c => exists lk, callers t !! i = table_view c lk
  | None => callers t !! i = None
  end.

(** A call's steps concern its own entry. *)
Lemma table_step_others t i target a t' j :
  table_step t (lock_event_of i target a) = Some t' -> j <> i -> callers t' !! j = callers t !! j.
Proof.
  intros H Hj. destruct a; simpl in H; try (by injection H as <-).
  all: destruct (callers t !! i) as [[]|] eqn:E; try done.
  - destruct (locks t !! target); injection H as <-; simpl; by rewrite lookup_insert_ne.
  - destruct (holder t lk); [done|]. injection H as <-. simpl. by rewrite lookup_insert_ne.
  - injection H as <-. simpl. by rewrite lookup_insert_ne.
  - injection H as <-. simpl. by rewrite lookup_delete_ne.
Qed.

Lemma call_step_req c a c' : call_step c a = Some c' -> cl_req c' = cl_req c.
Proof.
  unfold call_step. intros H. destruct (cl_stage c), a as [| |[?|]|x|b| |]; try discriminate H;
    try (by injection H as <-). destruct (sleepWithContext b); by injection H as <-.
Qed.

Lemma after_reply_holds target k x lk c :
  cl_stage c = after_reply target k x -> table_view c lk = Some (Holding (cl_target c) lk).
Proof.
  intros H. unfold table_view. rewrite H. unfold after_reply.
  destruct (createCheckpointOnce decode_error_text target x); [done|]. by destruct (_ || _).
Qed.

(** A call's own entry follows its position. *)
Lemma table_step_self t i c a c' t' lk :
  callers t !! i = table_view c lk -> call_step c a = Some c' ->
  table_step t (lock_event_of i (cl_target c) a) = Some t' ->
  exists lk', callers t' !! i = table_view c' lk'.
Proof.
  intros Hv Hc Ht. pose proof (call_step_req _ _ _ Hc) as Hrq. unfold call_step in Hc. unfold table_view in Hv.
  destruct (cl_stage c) eqn:Est, a as [| |[?|]|x|b| |]; try discriminate Hc; simpl in Ht.
  - injection Hc as <-. rewrite Hv in Ht.
    destruct (locks t !! cl_target c); injection Ht as <-; simpl; eexists; by rewrite lookup_insert_eq.
  - injection Hc as <-. rewrite Hv in Ht. destruct (holder t lk); [done|]. injection Ht as <-.
    exists lk. simpl. by rewrite lookup_insert_eq.
  - injection Hc as <-. injection Ht as <-. by exists lk.
  - injection Hc as <-. injection Ht as <-. by exists lk.
  - injection Ht as <-. exists lk. injection Hc as <-. by rewrite (after_reply_holds (cl_target c) attempt x).
  - injection Ht as <-. exists lk. destruct (sleepWithContext b); injection Hc as <-; unfold table_view; simpl; [done|].
    by destruct (_ <=? _)%Z.
  - injection Hc as <-. rewrite Hv in Ht. injection Ht as <-. exists lk. simpl. by rewrite lookup_insert_eq.
  - injection Hc as <-. rewrite Hv in Ht. injection Ht as <-. exists lk. simpl. by rewrite lookup_delete_eq.
Qed.

(** ** Turns *)

Definition target_of (s : ck_state) (i : nat) : option string := cl_target <$> calls s !! i.

Definition for_target (s : ck_state) (target : string) (i : nat) : bool :=
  bool_decide (target_of s i = Some target).

(** The exchanges for a target, in the order they completed. *)
Definition target_history (s : ck_state) (target : string) : list (nat * exchange) :=
  List.filter (fun h => for_target s target h.1) (history s).

(** The calls for a target, in the order they got its lock. *)
Definition target_turns (s : ck_state) (target : string) : list nat :=
  List.filter (for_target s target) (turns s).

Definition seen_by (s : ck_state) (i : nat) : list (nat * exchange) :=
  match calls s !! i with Some c => pair i <$> cl_seen c | None => [] end.

(** Whether a call has got its lock. *)
Definition had_turn (c : call) : bool :=
  match cl_stage c with Started | Queued => false | _ => true end.

Record ck_inv (s : ck_state) : Prop := {
  ci_table : lock_inv (table s);
  ci_call : forall i c, calls s !! i = Some c -> call_ok c;
  ci_coupled : forall i, coupled (table s) (calls s) i;
  ci_turns : forall i, i ∈ turns s <-> exists c, calls s !! i = Some c /\ had_turn c = true;
  ci_nodup : NoDup (turns s);
  ci_known : forall h, h ∈ history s -> is_Some (calls s !! h.1);
  ci_last : forall i c, calls s !! i = Some c -> holds c = true ->
    exists pre, target_turns s (cl_target c) = pre ++ [i];
  ci_history : forall target, target_history s target = concat (seen_by s <$> target_turns s target)
}.

Lemma ck_inv_init : ck_inv ck_init.
Proof.
  split; simpl; try done.
  - apply lock_inv_new.
  - intros i. split; [by intros ?%elem_of_nil|]. by intros (c & Hc & _).
  - apply NoDup_nil_2.
  - by intros h ?%elem_of_nil.
Qed.

Lemma filter_target_ext s s' l target :
  (forall i, i ∈ l -> target_of s' i = target_of s i) ->
  List.filter (for_target s' target) l = List.filter (for_target s target) l.
Proof.
  intros H. apply filter_ext_in. intros i Hi%list_elem_of_In. unfold for_target. by rewrite H.
Qed.

Lemma filter_history_ext s s' (l : list (nat * exchange)) target :
  (forall h, h ∈ l -> target_of s' h.1 = target_of s h.1) ->
  List.filter (fun h => for_target s' target h.1) l = List.filter (fun h => for_target s target h.1) l.
Proof.
  intros H. apply filter_ext_in. intros h Hi%list_elem_of_In. unfold for_target. by rewrite H.
Qed.

Lemma concat_seen_ext s s' l :
  (forall i, i ∈ l -> seen_by s' i = seen_by s i) -> concat (seen_by s' <$> l) = concat (seen_by s <$> l).
Proof.
  intros H. f_equal. apply list_fmap_ext. intros k i Hi. apply H. by eapply list_elem_of_lookup_2.
Qed.

(** A new call changes nothing for the others. *)
Lemma call_keeps s r i c : calls s !! i = Some c -> (calls s ++ [new_call r]) !! i = Some c.
Proof. intros H. by apply lookup_app_l_Some. Qed.

Lemma ck_inv_call s r s' : ck_inv s -> ck_step s (Call r) = Some s' -> ck_inv s'.
Proof.
  intros [Ht Hc Hcp Htu Hnd Hk Hl Hh] H. injection H as <-.
  set (s' := {| calls := _ |}).
  assert (forall i, is_Some (calls s !! i) -> calls s' !! i = calls s !! i) as Hold.
  { intros i [c Hi]. rewrite Hi. by apply call_keeps. }
  assert (forall i c, calls s' !! i = Some c -> calls s !! i = Some c \/ (calls s !! i = None /\ c = new_call r)) as Hnew.
  { intros i c Hi. apply lookup_app_Some in Hi as [Hi|[Hge Hi]]; [by left|]. right.
    apply list_lookup_singleton_Some in Hi as [_ <-]. split; [|done]. by apply lookup_ge_None. }
  assert (forall i, i ∈ turns s -> is_Some (calls s !! i)) as Htk.
  { intros i (c & Hi & _)%Htu. by exists c. }
  assert (forall target, target_turns s' target = target_turns s target) as Htt.
  { intros target. apply filter_target_ext. intros i Hi. unfold target_of. by rewrite Hold by auto. }
  split.
  - done.
  - intros i c [Hi|[_ ->]]%Hnew; [by eapply Hc|done].
  - intros i. specialize (Hcp i). unfold coupled in *. destruct (calls s' !! i) as [c|] eqn:Ei.
    + apply Hnew in Ei as [Hi|[Hi ->]]; rewrite Hi in Hcp; [done|]. by exists 0.
    + destruct (calls s !! i) as [c|] eqn:Ei'; [|done]. apply (call_keeps s r) in Ei'. unfold s' in Ei. simpl in Ei. congruence.
  - intros i. change (turns s') with (turns s). rewrite Htu. split.
    + intros (c & Hi & Hb). exists c. rewrite Hold by (by exists c). done.
    + intros (c & Hi & Hb). apply Hnew in Hi as [Hi|[_ ->]]; [eauto|done].
  - done.
  - intros h Hh'. apply Hk in Hh'. by rewrite Hold.
  - intros i c [Hi|[_ ->]]%Hnew Hb; [|done]. rewrite Htt. by apply Hl.
  - intros target. rewrite Htt. unfold target_history. change (history s') with (history s).
    rewrite (filter_history_ext s s').
    2:{ intros h Hh'. unfold target_of. by rewrite Hold by auto. }
    fold (target_history s target). rewrite Hh. symmetry. apply concat_seen_ext. intros i Hi.
    unfold seen_by. rewrite Hold; [done|]. apply Htk.
    unfold target_turns in Hi. rewrite list_elem_of_In, filter_In, <- list_elem_of_In in Hi. tauto.
Qed.

Lemma call_step_seen c a c' :
  call_step c a = Some c' -> cl_seen c' = cl_seen c ++ match a with Reply x => [x] | _ => [] end.
Proof.
  unfold call_step. intros H. destruct (cl_stage c), a as [| |[?|]|x|b| |]; try discriminate H;
    try (injection H as <-; simpl; by rewrite ?app_nil_r).
  destruct (sleepWithContext b); injection H as <-; simpl; by rewrite app_nil_r.
Qed.

Lemma call_step_turn c a c' :
  call_step c a = Some c' ->
  had_turn c' = match a with Lock => true | _ => had_turn c end /\
  (a = Lock -> had_turn c = false /\ cl_stage c = Queued) /\
  (a <> Lock -> holds c' = true -> holds c = true) /\ (forall x, a = Reply x -> holds c = true).
Proof.
  unfold call_step, had_turn, holds. intros H.
  destruct (cl_stage c) eqn:E, a as [| |[?|]|x|b| |]; try discriminate H; try (by injection H as <-).
  - injection H as <-. simpl. unfold after_reply.
    destruct (createCheckpointOnce _ _ _); [done|]. by destruct (_ || _).
  - destruct (sleepWithContext b); injection H as <-; simpl; [done|]. by destruct (_ <=? _)%Z.
Qed.

Lemma step_parts s i a s' :
  ck_step s (Step i a) = Some s' ->
  exists c c' t', calls s !! i = Some c /\ call_step c a = Some c' /\
    table_step (table s) (lock_event_of i (cl_target c) a) = Some t' /\
    s' = {| table := t'; calls := <[i := c']> (calls s); history := history s ++ completed i a;
            turns := turns s ++ taken i a |}.
Proof.
  simpl. intros H. destruct (calls s !! i) as [c|] eqn:Ec; [|done]. simpl in H.
  destruct (call_step c a) as [c'|] eqn:Es; [|done]. simpl in H.
  destruct (table_step _ _) as [t'|] eqn:Et; [|done]. injection H as <-. by exists c, c', t'.
Qed.

(** The part of the invariant that does not speak of targets. *)
Lemma step_basic s i a s' :
  ck_inv s -> ck_step s (Step i a) = Some s' ->
  lock_inv (table s') /\ (forall j c, calls s' !! j = Some c -> call_ok c) /\
  (forall j, coupled (table s') (calls s') j) /\
  (forall j, j ∈ turns s' <-> exists c, calls s' !! j = Some c /\ had_turn c = true) /\
  NoDup (turns s') /\ (forall h, h ∈ history s' -> is_Some (calls s' !! h.1)).
Proof.
  intros [Ht Hc Hcp Htu Hnd Hk _ _] (c & c' & t' & Ei & Es & Et & ->)%step_parts. simpl.
  pose proof (lookup_lt_Some _ _ _ Ei) as Hlt. destruct (call_step_turn _ _ _ Es) as (Hturn & Hlock & _ & _).
  split; [|split; [|split; [|split; [|split]]]].
  - unfold table_step in Et. destruct (lock_event_of i (cl_target c) a); [by eapply lock_inv_step|by injection Et as <-].
  - intros j cj Hj. apply list_lookup_insert_Some in Hj as [(-> & <- & _)|[_ Hj]]; eauto using call_step_ok.
  - intros j. specialize (Hcp j). unfold coupled in *. destruct (decide (j = i)) as [->|Hji].
    + rewrite list_lookup_insert_eq by done. rewrite Ei in Hcp. destruct Hcp as [lk Hcp].
      by eapply table_step_self.
    + rewrite list_lookup_insert_ne by done. erewrite table_step_others by done. done.
  - intros j. rewrite elem_of_app, Htu. destruct (decide (j = i)) as [->|Hji].
    + rewrite list_lookup_insert_eq by done. split.
      * intros [(c0 & H0 & Hb)|Hin]; exists c'; (split; [done|]); rewrite Hturn.
        -- rewrite Ei in H0. injection H0 as ->. by destruct a.
        -- destruct a; simpl in Hin; by try apply elem_of_nil in Hin.
      * intros (c0 & [= <-] & Hb). rewrite Hturn in Hb. destruct a; try (left; by exists c).
        right. by left.
    + rewrite list_lookup_insert_ne by done. split; [|by left]. intros [|Hin]; [done|].
      destruct a; simpl in Hin; try (by apply elem_of_nil in Hin). by apply list_elem_of_singleton in Hin.
  - apply NoDup_app. split; [done|]. split.
    + intros j Hj Hin. destruct a; simpl in Hin; try (by apply elem_of_nil in Hin).
      apply list_elem_of_singleton in Hin as ->. apply Htu in Hj as (c0 & H0 & Hb).
      destruct (Hlock eq_refl) as [Hb' _]. congruence.
    + destruct a; simpl; try apply NoDup_nil_2. apply NoDup_singleton.
  - intros h [Hh|Hh]%elem_of_app.
    + apply Hk in Hh. destruct (decide (h.1 = i)) as [->|Hne]; [rewrite list_lookup_insert_eq by done; eauto|].
      by rewrite list_lookup_insert_ne.
    + destruct a; simpl in Hh; try (by apply elem_of_nil in Hh). apply list_elem_of_singleton in Hh as ->. simpl.
      rewrite list_lookup_insert_eq by done. eauto.
Qed.

Lemma step_target_of s i a s' j :
  ck_step s (Step i a) = Some s' -> target_of s' j = target_of s j.
Proof.
  intros (c & c' & t' & Ei & Es & _ & ->)%step_parts. unfold target_of. simpl.
  destruct (decide (j = i)) as [->|Hne]; [|by rewrite list_lookup_insert_ne].
  rewrite list_lookup_insert_eq by (by eapply lookup_lt_Some). rewrite Ei. simpl. f_equal. unfold cl_target.
  by rewrite (call_step_req _ _ _ Es).
Qed.

Lemma step_seen_by s i a s' j :
  ck_step s (Step i a) = Some s' ->
  seen_by s' j = seen_by s j ++ (if decide (j = i) then completed i a else []).
Proof.
  intros (c & c' & t' & Ei & Es & _ & ->)%step_parts. unfold seen_by. simpl.
  destruct (decide (j = i)) as [->|Hne]; [|by rewrite list_lookup_insert_ne, app_nil_r].
  rewrite list_lookup_insert_eq by (by eapply lookup_lt_Some). rewrite Ei.
  rewrite (call_step_seen _ _ _ Es), fmap_app. by destruct a.
Qed.

Lemma step_target_turns s i a s' target :
  ck_step s (Step i a) = Some s' ->
  target_turns s' target = target_turns s target ++ List.filter (for_target s target) (taken i a).
Proof.
  intros H. unfold target_turns. rewrite (filter_target_ext s s') by eauto using step_target_of.
  destruct (step_parts _ _ _ _ H) as (c & c' & t' & _ & _ & _ & ->). simpl. by rewrite List.filter_app.
Qed.

Lemma step_target_history s i a s' target :
  ck_step s (Step i a) = Some s' ->
  target_history s' target = target_history s target ++
    List.filter (fun h => for_target s target h.1) (completed i a).
Proof.
  intros H. unfold target_history. rewrite (filter_history_ext s s') by eauto using step_target_of.
  destruct (step_parts _ _ _ _ H) as (c & c' & t' & _ & _ & _ & ->). simpl. by rewrite List.filter_app.
Qed.

Lemma for_target_true s target i : for_target s target i = true <-> target_of s i = Some target.
Proof. apply bool_decide_eq_true. Qed.

(** Two calls for one target do not hold its lock at once. *)
Lemma holds_unique t cs i j ci cj :
  lock_inv t -> (forall k, coupled t cs k) ->
  cs !! i = Some ci -> cs !! j = Some cj -> holds ci = true -> holds cj = true ->
  cl_target ci = cl_target cj -> i = j.
Proof.
  intros Ht Hcp Hi Hj Hbi Hbj Htg. pose proof (Hcp i) as Ci. pose proof (Hcp j) as Cj. unfold coupled in *.
  rewrite Hi in Ci. rewrite Hj in Cj. destruct Ci as [li Ci], Cj as [lj Cj].
  assert (forall c lk, holds c = true -> table_view c lk = Some (Holding (cl_target c) lk)) as Hv.
  { intros c lk. unfold holds, table_view. by destruct (cl_stage c). }
  rewrite Hv in Ci, Cj by done. rewrite Htg in Ci. eauto using holding_unique.
Qed.

(** The call that holds a lock was the last to get it. *)
Lemma step_last s i a s' :
  ck_inv s -> ck_step s (Step i a) = Some s' ->
  forall j c, calls s' !! j = Some c -> holds c = true ->
    exists pre, target_turns s' (cl_target c) = pre ++ [j].
Proof.
  intros Hinv H j c Hj Hb. pose proof (step_basic _ _ _ _ Hinv H) as (Ht' & _ & Hcp' & _).
  pose proof (step_target_turns _ _ _ _ (cl_target c) H) as Htt.
  pose proof (step_parts _ _ _ _ H) as (ci & ci' & t' & Ei & Es & _ & Hs').
  destruct (call_step_turn _ _ _ Es) as (_ & _ & Hkeep & _).
  assert (calls s' !! i = Some ci') as Ei'.
  { subst s'. simpl. apply list_lookup_insert_eq. by eapply lookup_lt_Some. }
  assert (j <> i -> calls s !! j = Some c) as Hold.
  { intros Hji. subst s'. simpl in Hj. by rewrite list_lookup_insert_ne in Hj. }
  destruct (decide (a = Lock)) as [->|Ha]; simpl in Htt.
  - destruct (for_target s (cl_target c) i) eqn:Ef.
    + exists (target_turns s (cl_target c)). rewrite Htt. f_equal. f_equal.
      assert (holds ci' = true) as Hbi.
      { unfold call_step in Es. destruct (cl_stage ci); try done. by injection Es as <-. }
      apply for_target_true in Ef. rewrite <- (step_target_of _ _ _ _ i H) in Ef. unfold target_of in Ef.
      rewrite Ei' in Ef. injection Ef as Ef.
      by apply (holds_unique _ _ i j ci' c Ht' Hcp').
    + rewrite Htt, app_nil_r. destruct (decide (j = i)) as [->|Hji].
      * exfalso. rewrite Hj in Ei'. injection Ei' as <-.
        assert (target_of s i = Some (cl_target c)) as Htg.
        { rewrite <- (step_target_of _ _ _ _ i H). unfold target_of. by rewrite Hj. }
        apply for_target_true in Htg. congruence.
      * apply (ci_last s Hinv); auto.
  - assert (taken i a = []) as Hn by (by destruct a). rewrite Hn in Htt. simpl in Htt. rewrite app_nil_r in Htt.
    rewrite Htt. destruct (decide (j = i)) as [->|Hji]; [|apply (ci_last s Hinv); auto].
    rewrite Hj in Ei'. injection Ei' as <-. unfold cl_target. rewrite (call_step_req _ _ _ Es).
    apply (ci_last s Hinv i ci Ei). by apply Hkeep.
Qed.

Lemma target_turns_elem s target i : i ∈ target_turns s target <-> i ∈ turns s /\ target_of s i = Some target.
Proof. unfold target_turns. by rewrite list_elem_of_In, filter_In, <- list_elem_of_In, for_target_true. Qed.

(** A completed exchange extends the record of the last call. *)
Lemma step_history s i a s' :
  ck_inv s -> ck_step s (Step i a) = Some s' ->
  forall target, target_history s' target = concat (seen_by s' <$> target_turns s' target).
Proof.
  intros Hinv H target. rewrite (step_target_history _ _ _ _ _ H), (step_target_turns _ _ _ _ _ H).
  rewrite (ci_history s Hinv), fmap_app, concat_app.
  pose proof (step_parts _ _ _ _ H) as (ci & ci' & t' & Ei & Es & _ & _).
  destruct (call_step_turn _ _ _ Es) as (_ & Hlock & _ & Hrep).
  assert (forall j, (forall x, a <> Reply x) -> seen_by s' j = seen_by s j) as Hsame.
  { intros j Hx. rewrite (step_seen_by _ _ _ _ j H). destruct (decide (j = i)), a; simpl; try (by rewrite app_nil_r).
    by destruct (Hx x). }
  destruct a as [| |o|x|b| |]; simpl;
    try (rewrite !app_nil_r; symmetry; apply concat_seen_ext; intros; by apply Hsame).
  - rewrite app_nil_r. rewrite (concat_seen_ext s s') by (intros; by apply Hsame).
    destruct (for_target s target i); simpl; [|by rewrite app_nil_r]. rewrite Hsame by done.
    unfold seen_by at 3. rewrite Ei. destruct (Hlock eq_refl) as [_ Hq].
    pose proof (ci_call s Hinv i ci Ei) as Hok. unfold call_ok in Hok. rewrite Hq in Hok.
    destruct Hok as [-> _]. simpl. by rewrite app_nil_r.
  - rewrite app_nil_r. destruct (for_target s target i) eqn:Ef; simpl.
    + apply for_target_true in Ef. unfold target_of in Ef. rewrite Ei in Ef. injection Ef as Ef.
      destruct (ci_last s Hinv i ci Ei) as [pre Hpre]; [by eapply Hrep|]. rewrite Ef in Hpre.
      assert (NoDup (target_turns s target)) as Hnd.
      { unfold target_turns. apply NoDup_ListNoDup, List.NoDup_filter, NoDup_ListNoDup, (ci_nodup s Hinv). }
      rewrite Hpre in Hnd |- *. apply NoDup_app in Hnd as (_ & Hni & _).
      rewrite !fmap_app, !concat_app. simpl. rewrite !app_nil_r.
      rewrite (step_seen_by _ _ _ _ i H). rewrite decide_True by done. simpl.
      rewrite (concat_seen_ext s s' pre); [by rewrite app_assoc|].
      intros j Hj. rewrite (step_seen_by _ _ _ _ j H). rewrite decide_False, app_nil_r; [done|].
      intros ->. apply (Hni _ Hj). by left.
    + rewrite app_nil_r. symmetry. apply concat_seen_ext. intros j [_ Hj]%target_turns_elem.
      rewrite (step_seen_by _ _ _ _ j H). rewrite decide_False, app_nil_r; [done|].
      intros ->. apply for_target_true in Hj. congruence.
Qed.

Lemma ck_inv_step s e s' : ck_inv s -> ck_step s e = Some s' -> ck_inv s'.
Proof.
  destruct e as [r|i a]; [apply ck_inv_call|]. intros Hinv H.
  destruct (step_basic _ _ _ _ Hinv H) as (? & ? & ? & ? & ? & ?).
  split; eauto using step_last, step_history.
Qed.

Lemma ck_inv_run s es s' : ck_inv s -> ck_run s es = Some s' -> ck_inv s'.
Proof.
  revert s. induction es as [|e es IH]; simpl; intros s Hi H; [by injection H as <-|].
  destruct (ck_step s e) as [s1|] eqn:E; [|done]. simpl in H. eauto using ck_inv_step.
Qed.

(** ** Termination *)

(** The operations a call has left at most. *)
Definition stage_left (st : stage) : nat :=
  match st with
  | Started => 10
  | Queued => 9
  | Locked => 8
  | InFlight k => 9 - 2 * Z.to_nat k
  | Sleeping k => 8 - 2 * Z.to_nat k
  | Unlocking _ => 2
  | Leaving _ => 1
  | Returned _ => 0
  end.

Definition ops_left (s : ck_state) : nat := sum_list_with (stage_left ∘ cl_stage) (calls s).

Lemma call_step_left c a c' :
  call_ok c -> call_step c a = Some c' -> stage_left (cl_stage c') < stage_left (cl_stage c).
Proof.
  intros Hok H. unfold call_ok, call_step, maxCheckpointAttempts in *.
  destruct (cl_stage c) eqn:E, a as [| |[?|]|x|b| |]; try discriminate H; try (injection H as <-; simpl; lia).
  - injection H as <-. simpl. unfold after_reply, maxCheckpointAttempts.
    destruct (createCheckpointOnce _ _ _); simpl; [lia|].
    destruct (_ || _) eqn:Eb; simpl; [lia|]. to_prop. lia.
  - destruct (sleepWithContext b); injection H as <-; simpl; [lia|].
    destruct (_ <=? _)%Z; simpl; lia.
Qed.

Definition is_step (e : ck_event) : bool := match e with Step _ _ => true | Call _ => false end.

Lemma ck_step_left s e s' :
  ck_inv s -> ck_step s e = Some s' ->
  match e with
  | Step _ _ => ops_left s' < ops_left s /\ length (calls s') = length (calls s)
  | Call _ => ops_left s' = ops_left s + 10 /\ length (calls s') = S (length (calls s))
  end.
Proof.
  intros Hinv H. destruct e as [r|i a].
  - injection H as <-. unfold ops_left. simpl. rewrite sum_list_with_app, length_app. simpl. lia.
  - pose proof (step_parts _ _ _ _ H) as (c & c' & t' & Ei & Es & _ & ->). simpl.
    pose proof (call_step_left _ _ _ (ci_call s Hinv i c Ei) Es) as Hlt.
    pose proof (sum_list_update (stage_left ∘ cl_stage) (calls s) i c c' Ei) as Hu. unfold ops_left. simpl in *.
    rewrite length_insert. lia.
Qed.

Lemma ck_run_left s es s' :
  ck_inv s -> ck_run s es = Some s' ->
  length (List.filter is_step es) + ops_left s' + 10 * length (calls s) <= ops_left s + 10 * length (calls s').
Proof.
  revert s. induction es as [|e es IH]; simpl; intros s Hi H; [injection H as <-; lia|].
  destruct (ck_step s e) as [s1|] eqn:E; [|done]. simpl in H.
  specialize (IH s1 (ck_inv_step _ _ _ Hi E) H). pose proof (ck_step_left _ _ _ Hi E) as Hl.
  destruct e; simpl; lia.
Qed.

(** The operation a call performs next, given what the environment answers. *)
Record answer := { an_client : option string; an_exchange : exchange; an_branch : select_branch }.

Definition next_action (c : call) (an : answer) : option action :=
  match cl_stage c with
  | Started => Some Enter
  | Queued => Some Lock
  | Locked => Some (HTTPClientFor (an_client an))
  | InFlight _ => Some (Reply (an_exchange an))
  | Sleeping _ => Some (Wake (an_branch an))
  | Unlocking _ => Some Unlock
  | Leaving _ => Some Leave
  | Returned _ => None
  end.

Definition can_move (s : ck_state) (i : nat) (an : answer) : Prop :=
  exists c a, calls s !! i = Some c /\ next_action c an = Some a /\ is_Some (ck_step s (Step i a)).

(** Only a call that waits for a lock held by another can be unable to move. *)
Lemma can_move_or_wait s i c an :
  ck_inv s -> calls s !! i = Some c -> returned c = false ->
  can_move s i an \/
  exists lk w, callers (table s) !! i = Some (Waiting (cl_target c) lk) /\ holder (table s) lk = Some w.
Proof.
  intros Hinv Hi Hr. pose proof (ci_coupled s Hinv i) as Hcp. unfold coupled in Hcp. rewrite Hi in Hcp.
  destruct Hcp as [lk Hcp]. unfold table_view in Hcp. unfold returned in Hr.
  destruct (cl_stage c) eqn:Est; try done.
  2:{ destruct (holder (table s) lk) as [w|] eqn:Eh; [right; by exists lk, w|]. left.
      exists c, Lock. split; [done|]. unfold next_action. rewrite Est. split; [done|]. simpl.
      rewrite Hi. simpl. unfold call_step. rewrite Est. simpl. rewrite Hcp, Eh. by eexists. }
  all: left; exists c; unfold next_action; rewrite Est; eexists; (split; [done|]; split; [done|]);
    simpl; rewrite Hi; simpl; unfold call_step; rewrite Est; simpl; try (rewrite Hcp; by eexists).
  - rewrite Hcp. destruct (locks (table s) !! cl_target c); by eexists.
  - destruct (an_client an); by eexists.
  - by eexists.
  - destruct (sleepWithContext (an_branch an)); by eexists.
Qed.

Lemma some_move s :
  ck_inv s -> (exists i c, calls s !! i = Some c /\ returned c = false) -> exists i, forall an, can_move s i an.
Proof.
  intros Hinv (i & c & Hi & Hr).
  destruct (can_move_or_wait s i c {| an_client := None; an_exchange := DoFailed ""; an_branch := TimerFired |} Hinv Hi Hr)
    as [Hm|(lk & w & Hw & Hh)].
  - exists i. intros an. destruct (can_move_or_wait s i c an Hinv Hi Hr) as [|(lk & w & Hw & Hh)]; [done|].
    destruct Hm as (c0 & a & Hc0 & Ha & s' & Hs). rewrite Hi in Hc0. injection Hc0 as <-. exfalso.
    pose proof (ci_coupled s Hinv i) as Hcp. unfold coupled in Hcp. rewrite Hi in Hcp. destruct Hcp as [lk' Hcp].
    rewrite Hw in Hcp. unfold table_view in Hcp. unfold next_action in Ha. destruct (cl_stage c) eqn:Est; try done.
    injection Ha as <-. simpl in Hs. rewrite Hi in Hs. simpl in Hs. unfold call_step in Hs. rewrite Est in Hs.
    simpl in Hs. by rewrite Hw, Hh in Hs.
  - apply (li_hold _ (ci_table s Hinv)) in Hh as [tg Htg]. exists w. intros an.
    pose proof (ci_coupled s Hinv w) as Hcp. unfold coupled in Hcp. destruct (calls s !! w) as [cw|] eqn:Ew; [|congruence].
    destruct Hcp as [lk' Hcp]. rewrite Htg in Hcp.
    assert (returned cw = false) as Hrw by (unfold table_view in Hcp; unfold returned; by destruct (cl_stage cw)).
    destruct (can_move_or_wait s w cw an Hinv Ew Hrw) as [|(? & ? & Hx & _)]; [done|congruence].
Qed.

Definition all_returned (s : ck_state) : Prop := Forall (fun c => returned c = true) (calls s).

Lemma all_returned_dec s : all_returned s \/ exists i c, calls s !! i = Some c /\ returned c = false.
Proof.
  destruct (decide (all_returned s)) as [|Hn]; [by left|right].
  apply (not_Forall_Exists _) in Hn. apply Exists_exists in Hn as (c & Hc & Hb).
  apply list_elem_of_lookup in Hc as [i Hi]. exists i, c. split; [done|]. simpl in Hb. by destruct (returned c).
Qed.

(** A run without new calls in which every operation got the answer of [env]. *)
Fixpoint answered_by (env : ck_state -> answer) (s : ck_state) (es : list ck_event) (s' : ck_state) : Prop :=
  match es with
  | [] => s' = s
  | Call _ :: _ => False
  | Step i a :: es' =>
      exists c s1, calls s !! i = Some c /\ next_action c (env s) = Some a /\
        ck_step s (Step i a) = Some s1 /\ answered_by env s1 es' s'
  end.

Lemma answered_by_run env s es s' : answered_by env s es s' -> ck_run s es = Some s'.
Proof.
  revert s. induction es as [|[r|i a] es IH]; intros s H; [by rewrite H|done|].
  destruct H as (c & s1 & _ & _ & Hs & H). cbn [ck_run]. rewrite Hs. by apply IH.
Qed.

(** Against any environment the calls can be run to the end. *)
Lemma run_to_end (env : ck_state -> answer) s :
  ck_inv s -> exists es s', answered_by env s es s' /\ all_returned s' /\ length (calls s') = length (calls s).
Proof.
  remember (ops_left s) as n eqn:Hn. revert s Hn. induction n as [n IH] using lt_wf_ind. intros s -> Hinv.
  destruct (all_returned_dec s) as [Ha|Hne]; [by exists [], s|].
  destruct (some_move s Hinv Hne) as [i Hm]. destruct (Hm (env s)) as (c & a & Hc & Ha & s1 & Hs).
  pose proof (ck_step_left _ _ _ Hinv Hs) as [Hlt Hlen].
  destruct (IH _ Hlt s1 eq_refl (ck_inv_step _ _ _ Hinv Hs)) as (es & s' & Hes & Hall & Hl).
  exists (Step i a :: es), s'. split; [by exists c, s1|]. split; [done|congruence].
Qed.

Lemma all_returned_idle s : ck_inv s -> all_returned s -> callers (table s) = ∅ /\ locks (table s) = ∅.
Proof.
  intros Hinv Ha. assert (callers (table s) = ∅) as Hc; [|by eauto using no_callers_no_locks, ci_table].
  apply map_empty. intros i. pose proof (ci_coupled s Hinv i) as Hcp. unfold coupled in Hcp.
  destruct (calls s !! i) as [c|] eqn:Ei; [|done]. destruct Hcp as [lk ->].
  unfold all_returned in Ha. rewrite Forall_lookup in Ha. specialize (Ha i c Ei).
  unfold table_view. unfold returned in Ha. by destruct (cl_stage c).
Qed.

(** ** Theorems *)

(** C7. In every interleaving of checkpoint calls, however the kubelet answers, the
    kubelet has at most one request in flight per target, and for each target
    the exchanges it completed are those of the calls one after another, in the
    order in which they got the lock: the retries of a call are never mixed with
    requests of another. *)
Theorem checkpoint_calls_serialised es s :
  ck_run ck_init es = Some s ->
  (forall i j ci cj, calls s !! i = Some ci -> calls s !! j = Some cj ->
     in_flight ci = true -> in_flight cj = true -> cl_target ci = cl_target cj -> i = j) /\
  (forall target, target_history s target = concat (seen_by s <$> target_turns s target)) /\
  (forall target, NoDup (target_turns s target)).
Proof.
  intros H. pose proof (ck_inv_run _ _ _ ck_inv_init H) as Hinv. split; [|split].
  - intros i j ci cj Hi Hj Fi Fj.
    assert (forall c, in_flight c = true -> holds c = true) as Hfh.
    { intros c. unfold in_flight, holds. by destruct (cl_stage c). }
    apply (holds_unique _ _ i j ci cj (ci_table s Hinv) (ci_coupled s Hinv) Hi Hj); auto.
  - apply (ci_history s Hinv).
  - intros target. apply NoDup_ListNoDup, List.NoDup_filter, NoDup_ListNoDup, (ci_nodup s Hinv).
Qed.

(** C32. A concurrent checkpoint call refines the sequential one: when a call has
    decided its result, running [createCheckpoint] alone on the answers this call
    got gives the same result with the same number of requests, which is at most
    three. *)
Theorem checkpoint_call_refines es s i c r :
  ck_run ck_init es = Some s -> calls s !! i = Some c -> result_of c = Some r ->
  sequential c = (r, Z.of_nat (length (cl_seen c))) /\ length (cl_seen c) <= 3.
Proof.
  intros H Hc Hr. pose proof (ck_inv_run _ _ _ ck_inv_init H) as Hinv.
  pose proof (ci_call s Hinv i c Hc) as Hok. unfold call_ok in Hok. unfold result_of in Hr.
  assert (sequential c = (r, Z.of_nat (length (cl_seen c)))) as Hs.
  { destruct (cl_stage c); try discriminate Hr; by injection Hr as <-. }
  split; [done|]. unfold sequential, createCheckpoint in Hs. destruct (cl_client c); [injection Hs; lia|].
  apply create_loop_spec in Hs as [Hn _]; [|by vm_compute|by vm_compute]. unfold maxCheckpointAttempts in Hn. lia.
Qed.

(** C24. Checkpoint calls return: a run has at most ten operations per call; while a
    call has not returned some call can perform its next operation whatever the
    kubelet, the timer or the context answer, so the calls can always be run to
    the end; and when all have returned no lock is left in the table. *)
Theorem checkpoint_calls_return es s :
  ck_run ck_init es = Some s ->
  length (List.filter is_step es) <= 10 * length (calls s) /\
  (~ all_returned s -> exists i, forall an, can_move s i an) /\
  (forall env : ck_state -> answer, exists es' s', answered_by env s es' s' /\ all_returned s' /\
     length (calls s') = length (calls s) /\ locks (table s') = ∅).
Proof.
  intros H. pose proof (ck_inv_run _ _ _ ck_inv_init H) as Hinv. split; [|split].
  - pose proof (ck_run_left _ _ _ ck_inv_init H) as Hl. unfold ops_left in Hl. simpl in Hl. lia.
  - intros Hn. destruct (all_returned_dec s) as [|Hne]; [done|]. by apply some_move.
  - intros env. destruct (run_to_end env s Hinv) as (es' & s' & Hes & Ha & Hl).
    exists es', s'. repeat split; try done. apply all_returned_idle; [|done].
    eapply ck_inv_run; [done|]. by eapply answered_by_run.
Qed.
End Calls.

(** ** An interleaving of two calls for one container *)

Definition demo_request : ck_request :=
  {| ck_ns := "team"; ck_pod := "p"; ck_container := "app"; ck_node := "n1" |}.

(** The kubelet's answer that names one archive. *)
Definition demo_success : exchange :=
  Response 200 ("{" +:+ encode_string "items" +:+ ":[" +:+ encode_string "/c.tar" +:+ "]}").

(** The first call is retried after a transient failure while the second waits. *)
Definition demo_calls : list ck_event :=
  [Call demo_request; Call demo_request; Step 0 Enter; Step 1 Enter; Step 0 Lock; Step 0 (HTTPClientFor None);
   Step 0 (Reply (Response 500 "cannot pause a paused container")); Step 0 (Wake TimerFired);
   Step 0 (Reply demo_success); Step 0 Unlock; Step 1 Lock; Step 0 Leave; Step 1 (HTTPClientFor None);
   Step 1 (Reply demo_success)].

Definition demo_run : option ck_state := ck_run (fun _ => "EOF") ck_init demo_calls.

Lemma demo_run_results : (fun s => result_of <$> calls s) <$> demo_run = Some [Some (Ok "/c.tar"); Some (Ok "/c.tar")].
Proof. vm_compute. reflexivity. Qed.

Lemma checkpoint_calls_serialised_witness :
  match demo_run with
  | Some s => forall target, target_history s target = concat (seen_by s <$> target_turns s target)
  | None => False
  end.
Proof.
  pose proof demo_run_results as Hd. destruct demo_run as [s|] eqn:E; [|discriminate Hd].
  exact (proj1 (proj2 (checkpoint_calls_serialised (fun _ => "EOF") demo_calls s E))).
Defined.

Lemma checkpoint_call_refines_witness :
  match demo_run with
  | Some s => forall c, calls s !! 0 = Some c -> sequential (fun _ => "EOF") c = (Ok "/c.tar", Z.of_nat (length (cl_seen c)))
  | None => False
  end.
Proof.
  pose proof demo_run_results as Hd. destruct demo_run as [s|] eqn:E; [|discriminate Hd].
  intros c Hc. apply (checkpoint_call_refines (fun _ => "EOF") demo_calls s 0 c (Ok "/c.tar") E Hc).
  simpl in Hd. injection Hd as Hd. destruct (calls s) as [|c0 cs]; [discriminate Hd|].
  injection Hc as ->. simpl in Hd. by injection Hd.
Defined.

Lemma checkpoint_calls_return_witness :
  match demo_run with
  | Some s => length (calls s) = 2 /\ 12 <= 10 * length (calls s) /\ exists i, forall an, can_move (fun _ => "EOF") s i an
  | None => False
  end.
Proof.
  pose proof demo_run_results as Hd.
  assert ((fun s => (length (calls s), returned <$> calls s)) <$> demo_run = Some (2, [true; false])) as Hl
    by (vm_compute; reflexivity).
  destruct demo_run as [s|] eqn:E; [|discriminate Hd]. simpl in Hl. injection Hl as Hlen Hret.
  destruct (checkpoint_calls_return (fun _ => "EOF") demo_calls s E) as (Hb & Hm & _).
  split; [exact Hlen|]. split; [exact Hb|]. apply Hm. intros Ha. unfold all_returned in Ha.
  destruct (calls s) as [|c0 [|c1 cs]]; try discriminate Hret. simpl in Hret.
  apply Forall_cons in Ha as [_ [Ha _]%Forall_cons]. congruence.
Defined.
