(* ===== verification/ScheduledRound.v ===== *)
(** * A scheduled round with its goroutines ([schedule_trigger.go])

    [runScheduledCheckpoints] starts one goroutine per selected container, each
    of which calls the checkpoint creator and counts its success, and waits for
    all of them.  Here the loop, the goroutines, the wait group and the counter
    are interleaved with each other and with the calls the rest of the operator
    makes.  The theorems: whatever the interleaving, the value returned and the
    results are those of [Triggers.runScheduledCheckpoints] for some order of the
    requests, and the round returns. *)

From S2P Require Import Prelude GoStrings GoJson Kube Api Creator Triggers TriggersProofs ConcurrentCreator.
Open Scope string_scope.
Open Scope list_scope.
Open Scope nat_scope.

(** ** State *)

(** A goroutine of the round: in the call or about to look at its result, after
    [created.Add(1)], after [wg.Done()]. *)
Inductive go_stage := Calling | Added | Finished.

#[export] Instance go_stage_eq_dec : EqDecision go_stage.
Proof. solve_decision. Defined.

Record round_go := { go_call : nat; go_at : go_stage }.

(** The checkpoint calls of the whole operator, the containers the loops have
    not reached, the goroutines, [created], the wait group's counter, the order
    in which goroutines finished, and the value returned. *)
Record round_state := {
  rd_calls : ck_state;
  rd_todo : list ck_request;
  rd_gos : list round_go;
  rd_created : Z;
  rd_wg : Z;
  rd_finished : list nat;
  rd_result : option Z
}.

Inductive round_event :=
| Spawn
| Creator (e : ck_event)
| AddCreated (k : nat)
| WgDone (k : nat)
| Wait.

(** The result of a call that has returned. *)
Definition call_result (s : ck_state) (i : nat) : option (result checkpoint_error string) :=
  match calls s !! i with
  | Some c => match cl_stage c with Returned r => Some r | _ => None end
  | None => None
  end.

Definition set_go (st : round_state) (k : nat) (g : round_go) (created wg : Z) (finished : list nat) : round_state :=
  {| rd_calls := rd_calls st; rd_todo := rd_todo st; rd_gos := <[k := g]> (rd_gos st);
     rd_created := created; rd_wg := wg; rd_finished := finished; rd_result := rd_result st |}.

Section Round.
Context (decode_error_text : string -> string).

Definition round_step (st : round_state) (e : round_event) : option round_state :=
  match e with
  | Spawn =>
      match rd_todo st with
      | [] => None
      | r :: todo =>
          s' ← ck_step decode_error_text (rd_calls st) (Call r);
          Some {| rd_calls := s'; rd_todo := todo;
                  rd_gos := rd_gos st ++ [{| go_call := length (calls (rd_calls st)); go_at := Calling |}];
                  rd_created := rd_created st; rd_wg := rd_wg st + 1; rd_finished := rd_finished st;
                  rd_result := rd_result st |}
      end
  | Creator e =>
      s' ← ck_step decode_error_text (rd_calls st) e;
      Some {| rd_calls := s'; rd_todo := rd_todo st; rd_gos := rd_gos st; rd_created := rd_created st;
              rd_wg := rd_wg st; rd_finished := rd_finished st; rd_result := rd_result st |}
  | AddCreated k =>
      g ← rd_gos st !! k;
      match go_at g, call_result (rd_calls st) (go_call g) with
      | Calling, Some (Ok _) =>
          Some (set_go st k {| go_call := go_call g; go_at := Added |}
                  (int32 (rd_created st + 1)) (rd_wg st) (rd_finished st))
      | _, _ => None
      end
  | WgDone k =>
      g ← rd_gos st !! k;
      match go_at g, call_result (rd_calls st) (go_call g) with
      | Calling, Some (Err _) | Added, _ =>
          Some (set_go st k {| go_call := go_call g; go_at := Finished |}
                  (rd_created st) (rd_wg st - 1) (rd_finished st ++ [go_call g]))
      | _, _ => None
      end
  | Wait =>
      match rd_result st, rd_todo st with
      | None, [] =>
          if (rd_wg st =? 0)%Z then
            Some {| rd_calls := rd_calls st; rd_todo := []; rd_gos := rd_gos st; rd_created := rd_created st;
                    rd_wg := rd_wg st; rd_finished := rd_finished st; rd_result := Some (rd_created st) |}
          else None
      | _, _ => None
      end
  end.

Fixpoint round_run (st : round_state) (es : list round_event) : option round_state :=
  match es with
  | [] => Some st
  | e :: es' => st' ← round_step st e; round_run st' es'
  end.

(** The call of [runScheduledCheckpoints]: without the pods it returns at once. *)
Definition round_start (api : PodAPI) (spec : CheckpointScheduleSpec) (s : ck_state) : round_state :=
  match getMatchingPods api (cs_Namespace spec) (cs_Selector spec) with
  | Err _ => {| rd_calls := s; rd_todo := []; rd_gos := []; rd_created := 0; rd_wg := 0;
                rd_finished := []; rd_result := Some 0%Z |}
  | Ok pods => {| rd_calls := s; rd_todo := scheduled_requests pods (cs_ContainerNames spec); rd_gos := [];
                  rd_created := 0; rd_wg := 0; rd_finished := []; rd_result := None |}
  end.

(** ** Invariant *)

Definition open_go (g : round_go) : nat := match go_at g with Finished => 0 | _ => 1 end.

Definition counted (s : ck_state) (g : round_go) : nat :=
  match go_at g, call_result s (go_call g) with
  | Calling, _ => 0
  | _, Some (Ok _) => 1
  | _, _ => 0
  end.

Definition is_finished (g : round_go) : bool := match go_at g with Finished => true | _ => false end.

(** Where a goroutine is agrees with its call. *)
Definition go_ok (s : ck_state) (g : round_go) : Prop :=
  match go_at g with
  | Calling => True
  | Added => exists p, call_result s (go_call g) = Some (Ok p)
  | Finished => is_Some (call_result s (go_call g))
  end.

Definition go_request (s : ck_state) (g : round_go) : option ck_request := cl_req <$> calls s !! go_call g.

Record round_inv (reqs : list ck_request) (st : round_state) : Prop := {
  ri_calls : ck_inv decode_error_text (rd_calls st);
  ri_reqs : map (go_request (rd_calls st)) (rd_gos st) ++ map Some (rd_todo st) = map Some reqs;
  ri_go : Forall (go_ok (rd_calls st)) (rd_gos st);
  ri_wg : rd_wg st = Z.of_nat (sum_list_with open_go (rd_gos st));
  ri_created : rd_created st = int32 (Z.of_nat (sum_list_with (counted (rd_calls st)) (rd_gos st)));
  ri_finished : rd_finished st ≡ₚ map go_call (List.filter is_finished (rd_gos st));
  ri_result : forall v, rd_result st = Some v -> rd_todo st = [] /\ rd_wg st = 0%Z /\ v = rd_created st
}.

(** Calls keep their request, and their result once they have returned. *)
Lemma ck_step_keeps s e s' i c :
  ck_step decode_error_text s e = Some s' -> calls s !! i = Some c ->
  exists c', calls s' !! i = Some c' /\ cl_req c' = cl_req c /\ (returned c = true -> c' = c).
Proof.
  intros H Hi. destruct e as [r|j a].
  - injection H as <-. exists c. simpl. split; [by apply lookup_app_l_Some|done].
  - apply step_parts in H as (cj & cj' & t' & Hj & Hs & _ & ->). simpl.
    destruct (decide (i = j)) as [->|Hij].
    + rewrite list_lookup_insert_eq by (by eapply lookup_lt_Some). exists cj'. split; [done|].
      rewrite Hi in Hj. injection Hj as <-. split; [by eapply call_step_req|]. intros Hr. exfalso.
      unfold returned in Hr. unfold call_step in Hs. by destruct (cl_stage c), a.
    + rewrite list_lookup_insert_ne by done. eauto.
Qed.

Lemma ck_step_result s e s' i r :
  ck_step decode_error_text s e = Some s' -> call_result s i = Some r -> call_result s' i = Some r.
Proof.
  unfold call_result. intros H Hr. destruct (calls s !! i) as [c|] eqn:Ei; [|done].
  destruct (ck_step_keeps _ _ _ _ _ H Ei) as (c' & -> & _ & Hk). rewrite Hk; [done|].
  unfold returned. by destruct (cl_stage c).
Qed.

Lemma ck_step_request s e s' g rq :
  ck_step decode_error_text s e = Some s' -> go_request s g = Some rq -> go_request s' g = Some rq.
Proof.
  unfold go_request. intros H Hr. destruct (calls s !! go_call g) as [c|] eqn:Ei; [|done].
  destruct (ck_step_keeps _ _ _ _ _ H Ei) as (c' & -> & Hq & _). simpl in *. by rewrite Hq.
Qed.

Lemma ck_step_go_ok s e s' g :
  ck_step decode_error_text s e = Some s' -> go_ok s g -> go_ok s' g /\ counted s' g = counted s g.
Proof.
  unfold go_ok, counted. intros H Hg. destruct (go_at g); [done|..].
  - destruct Hg as [p Hp]. rewrite Hp, (ck_step_result _ _ _ _ _ H Hp). eauto.
  - destruct Hg as [r Hr]. rewrite Hr, (ck_step_result _ _ _ _ _ H Hr). eauto.
Qed.

Lemma gos_keep s e s' gos :
  ck_step decode_error_text s e = Some s' -> Forall (go_ok s) gos ->
  Forall (go_ok s') gos /\ sum_list_with (counted s') gos = sum_list_with (counted s) gos.
Proof.
  intros H. induction 1 as [|g gos Hg _ [IH1 IH2]]; simpl; [done|].
  destruct (ck_step_go_ok _ _ _ _ H Hg) as [Hg' ->]. auto.
Qed.

Lemma requests_keep s e s' gos todo reqs :
  ck_step decode_error_text s e = Some s' ->
  map (go_request s) gos ++ map Some todo = map Some reqs ->
  map (go_request s') gos = map (go_request s) gos.
Proof.
  intros H Hr. apply map_ext_in. intros g Hg.
  assert (In (go_request s g) (map Some reqs)) as Hin.
  { rewrite <- Hr. apply in_app_iff. left. by apply in_map. }
  apply in_map_iff in Hin as (rq & Hrq & _). symmetry in Hrq. rewrite Hrq. by eapply ck_step_request.
Qed.

Lemma round_inv_start api spec s :
  ck_inv decode_error_text s ->
  round_inv (match getMatchingPods api (cs_Namespace spec) (cs_Selector spec) with
             | Ok pods => scheduled_requests pods (cs_ContainerNames spec)
             | Err _ => []
             end) (round_start api spec s).
Proof.
  intros Hs. unfold round_start. destruct (getMatchingPods _ _ _); split; simpl; try done.
  by intros v [= <-].
Qed.

(** A step of the creator leaves the round's bookkeeping as it is. *)
Lemma round_inv_creator reqs st e s' :
  round_inv reqs st -> ck_step decode_error_text (rd_calls st) e = Some s' ->
  round_inv reqs {| rd_calls := s'; rd_todo := rd_todo st; rd_gos := rd_gos st; rd_created := rd_created st;
                    rd_wg := rd_wg st; rd_finished := rd_finished st; rd_result := rd_result st |}.
Proof.
  intros [Hc Hr Hg Hw Hn Hf Hv] H. destruct (gos_keep _ _ _ _ H Hg) as [Hg' Hsum].
  split; simpl; try done.
  - by eapply ck_inv_step.
  - by rewrite (requests_keep _ _ _ _ _ _ H Hr).
  - by rewrite Hsum.
Qed.

Lemma round_inv_spawn reqs st st' :
  round_inv reqs st -> round_step st Spawn = Some st' -> round_inv reqs st'.
Proof.
  intros Hinv H. unfold round_step in H. destruct (rd_todo st) as [|r todo] eqn:Et; [done|].
  destruct (ck_step decode_error_text (rd_calls st) (Call r)) as [s'|] eqn:Es; [|done]. injection H as <-.
  destruct (round_inv_creator _ _ _ _ Hinv Es) as [Hc Hr Hg Hw Hn Hf Hv]. simpl in *.
  injection Es as Es'. set (g := {| go_call := length (calls (rd_calls st)); go_at := Calling |}).
  split; simpl.
  - done.
  - rewrite map_app, <- app_assoc. simpl. rewrite <- Hr, Et. simpl. f_equal. f_equal.
    unfold go_request. rewrite <- Es'. simpl. rewrite lookup_app_r by done. by rewrite Nat.sub_diag.
  - apply Forall_app. split; [done|]. by apply Forall_singleton.
  - rewrite sum_list_with_app. simpl. rewrite Hw. lia.
  - rewrite sum_list_with_app, Hn. f_equal. simpl. lia.
  - rewrite List.filter_app, map_app. simpl. by rewrite app_nil_r.
  - intros v Hres. destruct (Hv v Hres) as [Hnil _]. congruence.
Qed.

(** Changing one goroutine. *)
Lemma finished_insert gos k g g' :
  gos !! k = Some g -> is_finished g = false -> is_finished g' = true ->
  map go_call (List.filter is_finished (<[k := g']> gos)) ≡ₚ
  map go_call (List.filter is_finished gos) ++ [go_call g'].
Proof.
  intros Hk Hb Hb'. revert k Hk. induction gos as [|g0 gos IH]; intros [|k] Hk; try done; simpl in *.
  - injection Hk as ->. rewrite Hb, Hb'. simpl. apply Permutation_cons_append.
  - destruct (is_finished g0); simpl; [f_equiv|]; by apply IH.
Qed.

Lemma unfinished_insert gos k g g' :
  gos !! k = Some g -> is_finished g = false -> is_finished g' = false ->
  List.filter is_finished (<[k := g']> gos) = List.filter is_finished gos.
Proof.
  intros Hk Hb Hb'. revert k Hk. induction gos as [|g0 gos IH]; intros [|k] Hk; try done; simpl in *.
  - injection Hk as ->. by rewrite Hb, Hb'.
  - destruct (is_finished g0); [f_equal|]; by apply IH.
Qed.

Lemma requests_insert s gos k g g' :
  gos !! k = Some g -> go_call g' = go_call g ->
  map (go_request s) (<[k := g']> gos) = map (go_request s) gos.
Proof.
  intros Hk Hc. revert k Hk. induction gos as [|g0 gos IH]; intros [|k] Hk; try done; simpl in *.
  - injection Hk as ->. unfold go_request at 1 3. by rewrite Hc.
  - f_equal. by apply IH.
Qed.

Lemma round_inv_add reqs st k st' :
  round_inv reqs st -> round_step st (AddCreated k) = Some st' -> round_inv reqs st'.
Proof.
  intros [Hc Hr Hg Hw Hn Hf Hv] H. simpl in H. destruct (rd_gos st !! k) as [g|] eqn:Ek; [|done]. simpl in H.
  destruct (go_at g) eqn:Ea; try done. destruct (call_result (rd_calls st) (go_call g)) as [[p|]|] eqn:Er; try done.
  injection H as <-. set (g' := {| go_call := go_call g; go_at := Added |}).
  pose proof (sum_list_update open_go _ _ _ g' Ek) as Ho.
  pose proof (sum_list_update (counted (rd_calls st)) _ _ _ g' Ek) as Hcn.
  pose proof (sum_list_ge open_go _ _ _ Ek) as Hge. unfold open_go at 1 in Hge. rewrite Ea in Hge.
  unfold open_go at 2 4 in Ho. unfold counted at 2 4 in Hcn. simpl in Ho, Hcn. rewrite Ea in Ho, Hcn. rewrite Er in Hcn.
  split; simpl; try done.
  - by rewrite (requests_insert _ _ _ g).
  - apply Forall_insert; [done|]. by exists p.
  - rewrite Hw. f_equal. lia.
  - rewrite Hn, int32_add_l. f_equal. lia.
  - rewrite (unfinished_insert _ _ g); [done|done| |done]. unfold is_finished. by rewrite Ea.
  - intros v Hres. exfalso. destruct (Hv v Hres) as (_ & Hz & _). rewrite Hw in Hz. lia.
Qed.

Lemma round_inv_done reqs st k st' :
  round_inv reqs st -> round_step st (WgDone k) = Some st' -> round_inv reqs st'.
Proof.
  intros [Hc Hr Hg Hw Hn Hf Hv] H. simpl in H. destruct (rd_gos st !! k) as [g|] eqn:Ek; [|done]. simpl in H.
  set (g' := {| go_call := go_call g; go_at := Finished |}) in *.
  pose proof (proj1 (Forall_lookup _ _) Hg k g Ek) as Hgo. unfold go_ok in Hgo.
  assert (st' = set_go st k g' (rd_created st) (rd_wg st - 1) (rd_finished st ++ [go_call g]) /\
          is_Some (call_result (rd_calls st) (go_call g)) /\ is_finished g = false /\ open_go g = 1 /\
          counted (rd_calls st) g' = counted (rd_calls st) g) as (-> & Hsome & Hnf & Hop & Hcnt).
  { unfold is_finished, open_go, counted. simpl. destruct (go_at g); [|destruct Hgo as [p Hp]|done].
    - destruct (call_result (rd_calls st) (go_call g)) as [[p|e]|]; try done. injection H as <-. eauto.
    - rewrite Hp in *. injection H as <-. eauto. }
  pose proof (sum_list_update open_go _ _ _ g' Ek) as Ho. rewrite Hop in Ho. unfold open_go at 3 in Ho. simpl in Ho.
  pose proof (sum_list_update (counted (rd_calls st)) _ _ _ g' Ek) as Hcn. rewrite Hcnt in Hcn.
  split; simpl; try done.
  - by rewrite (requests_insert _ _ _ g).
  - by apply Forall_insert.
  - rewrite Hw. lia.
  - rewrite Hn. f_equal. lia.
  - rewrite (finished_insert _ _ g g'); try done. by rewrite Hf.
  - intros v Hres. exfalso. destruct (Hv v Hres) as (_ & Hz & _). rewrite Hw in Hz. lia.
Qed.

Lemma round_inv_step reqs st e st' : round_inv reqs st -> round_step st e = Some st' -> round_inv reqs st'.
Proof.
  intros Hinv H. destruct e as [|e|k|k|]; eauto using round_inv_spawn, round_inv_add, round_inv_done.
  - simpl in H. destruct (ck_step _ _ _) as [s'|] eqn:Es; [|done]. injection H as <-. by eapply round_inv_creator.
  - simpl in H. destruct (rd_result st) eqn:Er; [done|]. destruct (rd_todo st) eqn:Et; [|done].
    destruct (rd_wg st =? 0)%Z eqn:Ew; [|done]. injection H as <-. to_prop.
    destruct Hinv as [Hc Hr Hg Hw Hn Hf Hv]. split; simpl; try done; [by rewrite Et in Hr|]. by intros v [= <-].
Qed.

Lemma round_inv_run reqs st es st' : round_inv reqs st -> round_run st es = Some st' -> round_inv reqs st'.
Proof.
  revert st. induction es as [|e es IH]; simpl; intros st Hi H; [by injection H as <-|].
  destruct (round_step st e) as [st1|] eqn:E; [|done]. simpl in H. eauto using round_inv_step.
Qed.

(** ** Refinement *)

(** A returned call as an entry of the log. *)
Definition log_entry (s : ck_state) (i : nat) : option (ck_request * result checkpoint_error string) :=
  c ← calls s !! i; r ← call_result s i; Some (cl_req c, r).

Definition round_log (st : round_state) : ck_log := omap (log_entry (rd_calls st)) (rd_finished st).

(** The oracle that answers with the results of the log, from request [n] on. *)
Definition replay (n : nat) (new : list (ck_request * result checkpoint_error string)) : ck_oracle :=
  fun m _ => match new !! (m - n) with Some e => e.2 | None => Ok "" end.

Lemma replay_log new : forall w pre created n,
  length w = n + length pre ->
  (run_requests (replay n (pre ++ new)) w (map fst new) created).2 = w ++ new.
Proof.
  induction new as [|[rq r] new IH]; intros w pre created n Hw; simpl; [by rewrite app_nil_r|].
  assert (replay n (pre ++ (rq, r) :: new) (length w) rq = r) as Hr.
  { unfold replay. rewrite Hw. replace (n + length pre - n) with (length pre) by lia.
    by rewrite list_lookup_middle. }
  rewrite Hr. specialize (IH (w ++ [(rq, r)]) (pre ++ [(rq, r)])). rewrite <- !app_assoc in IH. simpl in IH.
  rewrite IH; [done|]. rewrite !length_app. simpl. lia.
Qed.

Lemma log_entry_result s i c r :
  calls s !! i = Some c -> call_result s i = Some r -> log_entry s i = Some (cl_req c, r).
Proof. intros Hc Hr. unfold log_entry. by rewrite Hc, Hr. Qed.

(** When every goroutine has finished, the log has one entry per request, and
    counts as many successes as the counter. *)
Lemma all_finished_log s gos reqs :
  Forall (go_ok s) gos -> Forall (fun g => is_finished g = true) gos ->
  map (go_request s) gos = map Some reqs ->
  exists new, omap (log_entry s) (map go_call gos) = new /\ map fst new = reqs /\
    length (List.filter succeeded new) = sum_list_with (counted s) gos.
Proof.
  intros Hg Hf. revert reqs. induction gos as [|g gos IH]; intros reqs Hr.
  { exists []. split; [done|]. destruct reqs; [done|discriminate Hr]. }
  destruct reqs as [|rq reqs]; [discriminate Hr|]. simpl in Hr. injection Hr as Hrq Hr.
  apply Forall_cons in Hg as [Hg Hgs]. apply Forall_cons in Hf as [Hf Hfs].
  destruct (IH Hgs Hfs _ Hr) as (new & Hnew & Hfst & Hcnt). unfold go_request in Hrq.
  destruct (calls s !! go_call g) as [c|] eqn:Ec; [|discriminate Hrq]. injection Hrq as Hrq.
  unfold go_ok in Hg. unfold is_finished in Hf. destruct (go_at g) eqn:Ea; try done. destruct Hg as [r Hres].
  exists ((rq, r) :: new). csimpl. rewrite (log_entry_result _ _ _ _ Ec Hres), Hnew, Hfst, Hrq.
  split; [done|]. split; [done|]. unfold succeeded at 1, counted at 1. rewrite Ea, Hres.
  destruct r; simpl; lia.
Qed.

Lemma no_open_all_finished gos :
  sum_list_with open_go gos = 0 ->
  Forall (fun g => is_finished g = true) gos /\ List.filter is_finished gos = gos.
Proof.
  induction gos as [|g gos IH]; simpl; intros H; [done|]. destruct IH as [IH1 IH2]; [lia|].
  assert (is_finished g = true) as Hg by (unfold open_go in H; unfold is_finished; destruct (go_at g); [lia|lia|done]).
  rewrite Hg, IH2. auto.
Qed.

(** The log of a round that has returned. *)
Lemma round_log_final reqs st :
  round_inv reqs st -> is_Some (rd_result st) ->
  map fst (round_log st) ≡ₚ reqs /\
  rd_result st = Some (int32 (Z.of_nat (length (List.filter succeeded (round_log st))))).
Proof.
  intros [Hc Hr Hg Hw Hn Hf Hv] [v Hres]. destruct (Hv v Hres) as (Ht & Hz & ->).
  rewrite Hz in Hw. destruct (no_open_all_finished (rd_gos st)) as [Hall Hfl]; [lia|].
  rewrite Ht, app_nil_r in Hr. rewrite Hfl in Hf.
  destruct (all_finished_log _ _ _ Hg Hall Hr) as (new & Hnew & Hfst & Hcnt).
  assert (round_log st ≡ₚ new) as Hp by (unfold round_log; rewrite <- Hnew; by f_equiv).
  split; [by rewrite Hp, Hfst|]. rewrite Hres, Hn. do 3 f_equal. rewrite <- Hcnt.
  assert (forall l1 l2 : ck_log, l1 ≡ₚ l2 -> length (List.filter succeeded l1) = length (List.filter succeeded l2)) as Hpf.
  { induction 1; simpl; repeat split_match; simpl; try lia; congruence. }
  symmetry. by apply Hpf.
Qed.

Lemma round_log_sequential st rq r :
  ck_inv decode_error_text (rd_calls st) -> (rq, r) ∈ round_log st ->
  exists i c, calls (rd_calls st) !! i = Some c /\ cl_req c = rq /\ (sequential decode_error_text c).1 = r.
Proof.
  intros Hinv Hin. unfold round_log in Hin. apply list_elem_of_omap in Hin as (i & _ & Hi).
  unfold log_entry in Hi. destruct (calls (rd_calls st) !! i) as [c|] eqn:Ec; [|done].
  unfold call_result in Hi. rewrite Ec in Hi. simpl in Hi.
  pose proof (ci_call _ _ Hinv i c Ec) as Hok. unfold call_ok in Hok.
  destruct (cl_stage c); try done. injection Hi as <- <-. exists i, c. by rewrite Hok.
Qed.

(** An order that lists [reqs] as [ord] and leaves everything else alone. *)
Definition order_as (reqs ord : list ck_request) (l : list ck_request) : list ck_request :=
  if decide (l = reqs) then ord else l.

(** C12. A scheduled round with its concurrent goroutines refines the sequential
    description of it: however the goroutines, the loop that starts them, the
    wait group, the kubelet and the operator's other checkpoint calls interleave,
    the count returned and the results are those of [runScheduledCheckpoints] run
    one request after another in some order, each result being that of a
    sequential [createCheckpoint]. *)
Theorem scheduled_round_refines es0 s api spec es st v w :
  ck_run decode_error_text ck_init es0 = Some s ->
  round_run (round_start api spec s) es = Some st -> rd_result st = Some v ->
  exists outcome order, (forall l, order l ≡ₚ l) /\
    runScheduledCheckpoints outcome api order spec w = (v, w ++ round_log st) /\
    (forall rq r, (rq, r) ∈ round_log st ->
       exists i c, calls (rd_calls st) !! i = Some c /\ cl_req c = rq /\ (sequential decode_error_text c).1 = r).
Proof.
  intros H0 H Hv. pose proof (ck_inv_run _ _ _ _ (ck_inv_init _) H0) as Hs.
  pose proof (round_inv_run _ _ _ _ (round_inv_start api spec s Hs) H) as Hinv.
  set (reqs := match getMatchingPods _ _ _ with Ok _ => _ | Err _ => _ end) in Hinv.
  destruct (round_log_final _ _ Hinv ltac:(eauto)) as [Hp Hc]. rewrite Hv in Hc. injection Hc as ->.
  exists (replay (length w) (round_log st)), (order_as reqs (map fst (round_log st))).
  split; [|split; [|intros rq r; apply round_log_sequential, Hinv]].
  { intros l. unfold order_as. case_decide as Hl; [by subst l|done]. }
  unfold runScheduledCheckpoints. subst reqs. destruct (getMatchingPods _ _ _) as [pods|e].
  - unfold order_as. rewrite decide_True by done.
    pose proof (replay_log (round_log st) w [] 0 (length w) ltac:(simpl; lia)) as Hlog. simpl in Hlog.
    destruct (run_requests _ _ _ _) as [cnt w'] eqn:Er. simpl in Hlog. subst w'.
    apply run_requests_spec in Er as (new & Hg & _ & Hcnt). apply app_inv_head in Hg as <-.
    rewrite Hcnt by done. done.
  - apply Permutation_nil_r, map_eq_nil in Hp. rewrite Hp. simpl. by rewrite app_nil_r.
Qed.

(** ** Termination *)

Definition go_left (g : round_go) : nat := match go_at g with Calling => 2 | Added => 1 | Finished => 0 end.

(** The steps the round and all calls have left at most. *)
Definition round_left (st : round_state) : nat :=
  ops_left (rd_calls st) + 13 * length (rd_todo st) + sum_list_with go_left (rd_gos st) +
  match rd_result st with Some _ => 0 | None => 1 end.

Definition outside_call (e : round_event) : bool :=
  match e with Creator (Call _) => true | _ => false end.

Lemma round_step_left reqs st e st' :
  round_inv reqs st -> round_step st e = Some st' ->
  if outside_call e then round_left st' = round_left st + 10 else round_left st' < round_left st.
Proof.
  intros Hinv H. destruct e as [|e|k|k|]; simpl in H.
  - destruct (rd_todo st) as [|r todo] eqn:Et; [done|].
    pose proof (ck_step_left decode_error_text _ (Call r) _ (ri_calls _ _ Hinv) eq_refl) as [Hl _].
    injection H as <-. unfold round_left. simpl. rewrite sum_list_with_app, Et. simpl in *. lia.
  - destruct (ck_step _ _ _) as [s'|] eqn:Es; [|done]. injection H as <-.
    pose proof (ck_step_left _ _ _ _ (ri_calls _ _ Hinv) Es) as Hl. unfold round_left. simpl.
    destruct e; simpl; lia.
  - destruct (rd_gos st !! k) as [g|] eqn:Ek; [|done]. simpl in H.
    destruct (go_at g) eqn:Ea; try done. destruct (call_result _ _) as [[p|]|]; try done. injection H as <-.
    pose proof (sum_list_update go_left _ _ _ {| go_call := go_call g; go_at := Added |} Ek) as Hu.
    unfold go_left at 2 4 in Hu. rewrite Ea in Hu. unfold round_left. simpl in *. lia.
  - destruct (rd_gos st !! k) as [g|] eqn:Ek; [|done]. simpl in H.
    pose proof (sum_list_update go_left _ _ _ {| go_call := go_call g; go_at := Finished |} Ek) as Hu.
    unfold go_left at 2 4 in Hu. unfold round_left. simpl in Hu.
    destruct (go_at g); [destruct (call_result _ _) as [[p|]|]; try done| |done]; injection H as <-; simpl; lia.
  - destruct (rd_result st) eqn:Er; [done|]. destruct (rd_todo st) eqn:Et; [|done].
    destruct (rd_wg st =? 0)%Z; [|done]. injection H as <-. unfold round_left. simpl. rewrite Er, Et. simpl. lia.
Qed.

Lemma round_run_left reqs st es st' :
  round_inv reqs st -> round_run st es = Some st' ->
  length es + round_left st' <= round_left st + 11 * length (List.filter outside_call es).
Proof.
  revert st. induction es as [|e es IH]; simpl; intros st Hi H; [injection H as <-; lia|].
  destruct (round_step st e) as [st1|] eqn:E; [|done]. simpl in H.
  specialize (IH st1 (round_inv_step _ _ _ _ Hi E) H). pose proof (round_step_left _ _ _ _ Hi E) as Hl.
  destruct (outside_call e); simpl; lia.
Qed.

(** A goroutine that has not finished can go on when its call has returned. *)
Lemma goroutine_moves reqs st k g :
  round_inv reqs st -> all_returned (rd_calls st) -> rd_gos st !! k = Some g -> is_finished g = false ->
  exists e, outside_call e = false /\ (e = AddCreated k \/ e = WgDone k) /\ is_Some (round_step st e).
Proof.
  intros Hinv Hall Hk Hf.
  assert (is_Some (call_result (rd_calls st) (go_call g))) as [r Hr].
  { assert (In (go_request (rd_calls st) g) (map Some reqs)) as Hin.
    { rewrite <- (ri_reqs _ _ Hinv). apply in_app_iff. left. apply in_map, list_elem_of_In.
      by eapply list_elem_of_lookup_2. }
    apply in_map_iff in Hin as (rq & Hrq & _). unfold go_request in Hrq.
    unfold call_result. destruct (calls (rd_calls st) !! go_call g) as [c|] eqn:Ec; [|done].
    unfold all_returned in Hall. rewrite Forall_lookup in Hall. specialize (Hall _ _ Ec). unfold returned in Hall.
    destruct (cl_stage c); eauto; done. }
  unfold is_finished in Hf. destruct (go_at g) eqn:Ea; [destruct r as [p|e]| |done].
  - exists (AddCreated k). simpl. rewrite Hk. simpl. rewrite Ea, Hr. eauto.
  - exists (WgDone k). simpl. rewrite Hk. simpl. rewrite Ea, Hr. eauto.
  - exists (WgDone k). simpl. rewrite Hk. simpl. rewrite Ea. eauto.
Qed.

Lemma open_exists gos : sum_list_with open_go gos <> 0 -> exists k g, gos !! k = Some g /\ is_finished g = false.
Proof.
  induction gos as [|g gos IH]; simpl; intros H; [done|]. destruct (is_finished g) eqn:Ef.
  - destruct IH as (k & g' & Hk & Hg').
    + unfold is_finished in Ef. unfold open_go in H. destruct (go_at g); try done.
    + by exists (S k), g'.
  - by exists 0, g.
Qed.

(** A round that has not returned can go on, whatever the environment answers. *)
Lemma round_moves reqs st :
  round_inv reqs st -> rd_result st = None ->
  (exists e, (forall e', e <> Creator e') /\ is_Some (round_step st e)) \/
  exists i, forall an, can_move decode_error_text (rd_calls st) i an.
Proof.
  intros Hinv Hres. destruct (rd_todo st) as [|r todo] eqn:Et.
  2:{ left. exists Spawn. simpl. rewrite Et. simpl. eauto. }
  destruct (all_returned_dec (rd_calls st)) as [Hall|Hne]; [|right; apply some_move; [apply Hinv|done]].
  left. destruct (decide (sum_list_with open_go (rd_gos st) = 0)) as [Hz|Hz].
  - exists Wait. simpl. rewrite Hres, Et, (ri_wg _ _ Hinv), Hz. simpl. eauto.
  - destruct (open_exists _ Hz) as (k & g & Hk & Hg).
    destruct (goroutine_moves _ _ _ _ Hinv Hall Hk Hg) as (e & _ & He & Hs).
    exists e. split; [|done]. intros e' ->. by destruct He.
Qed.

(** A run without calls from outside in which the environment answers as [env]. *)
Fixpoint round_answered (env : round_state -> answer) (st : round_state) (es : list round_event) (st' : round_state) : Prop :=
  match es with
  | [] => st' = st
  | e :: es' =>
      match e with
      | Creator (Call _) => False
      | Creator (Step i a) => exists c, calls (rd_calls st) !! i = Some c /\ next_action c (env st) = Some a
      | _ => True
      end /\
      exists st1, round_step st e = Some st1 /\ round_answered env st1 es' st'
  end.

Lemma round_to_end env reqs st :
  round_inv reqs st -> exists es st', round_answered env st es st' /\ is_Some (rd_result st').
Proof.
  remember (round_left st) as n eqn:Hn. revert st Hn. induction n as [n IH] using lt_wf_ind. intros st -> Hinv.
  destruct (rd_result st) as [v|] eqn:Hres; [exists [], st; split; [done|by rewrite Hres]|].
  assert (exists e st1, outside_call e = false /\ round_step st e = Some st1 /\
            match e with
            | Creator (Call _) => False
            | Creator (Step i a) => exists c, calls (rd_calls st) !! i = Some c /\ next_action c (env st) = Some a
            | _ => True
            end) as (e & st1 & Ho & Hs & He).
  { destruct (round_moves _ _ Hinv Hres) as [(e & Hne & st1 & Hs)|[i Hm]].
    - exists e, st1. destruct e as [|e| | |]; try done. by destruct (Hne e).
    - destruct (Hm (env st)) as (c & a & Hc & Ha & s1 & Hs). exists (Creator (Step i a)). eexists.
      split; [done|]. split; [|by exists c]. cbn [round_step]. rewrite Hs. done. }
  pose proof (round_step_left _ _ _ _ Hinv Hs) as Hl. rewrite Ho in Hl.
  destruct (IH _ Hl st1 eq_refl (round_inv_step _ _ _ _ Hinv Hs)) as (es & st' & Hes & Hr).
  exists (e :: es), st'. split; [|done]. split; [done|]. by exists st1.
Qed.

(** C25. A scheduled round returns: the number of steps of any run is bounded by
    those of the round's own calls and of the other calls made meanwhile, and
    from every state the round can be run to its return against every
    environment: no goroutine is lost to the wait group. *)
Theorem scheduled_round_returns es0 s api spec pods es st :
  ck_run decode_error_text ck_init es0 = Some s ->
  getMatchingPods api (cs_Namespace spec) (cs_Selector spec) = Ok pods ->
  round_run (round_start api spec s) es = Some st ->
  length es <= 10 * length (calls s) + 13 * length (scheduled_requests pods (cs_ContainerNames spec)) + 1 +
               11 * length (List.filter outside_call es) /\
  (rd_result st = None ->
     (exists e, (forall e', e <> Creator e') /\ is_Some (round_step st e)) \/
     exists i, forall an, can_move decode_error_text (rd_calls st) i an) /\
  (forall env, exists es' st', round_answered env st es' st' /\ is_Some (rd_result st')).
Proof.
  intros H0 Hp H. pose proof (ck_inv_run _ _ _ _ (ck_inv_init _) H0) as Hs.
  pose proof (round_inv_start api spec s Hs) as Hi. pose proof (round_inv_run _ _ _ _ Hi H) as Hinv.
  split; [|split; [by eapply round_moves|intros env; by eapply round_to_end]].
  pose proof (round_run_left _ _ _ _ Hi H) as Hl.
  pose proof (ck_run_left _ _ _ _ (ck_inv_init _) H0) as Hl0.
  unfold round_left at 2 in Hl. unfold round_start in Hl. rewrite Hp in Hl. simpl in Hl, Hl0.
  lia.
Qed.
End Round.

(** ** A round over two pods *)

Definition demo_rounds : list round_event :=
  [Spawn; Creator (Step 0 Enter); Spawn; Creator (Step 1 Enter); Creator (Step 1 Lock);
   Creator (Step 1 (HTTPClientFor (Some "no credentials"))); Creator (Step 0 Lock);
   Creator (Step 0 (HTTPClientFor None)); Creator (Step 1 Unlock); Creator (Step 0 (Reply demo_success));
   Creator (Step 0 Unlock); Creator (Step 1 Leave); WgDone 1; Creator (Step 0 Leave); AddCreated 0; WgDone 0; Wait].

Definition demo_round : option round_state :=
  round_run (fun _ => "EOF") (round_start demo_api demo_spec ck_init) demo_rounds.

Lemma demo_round_result :
  (fun st => (rd_result st, map (fun e => (ck_pod e.1, is_ok e.2)) (round_log st))) <$> demo_round =
  Some (Some 1%Z, [("b", false); ("a", true)]).
Proof. vm_compute. reflexivity. Qed.

Lemma scheduled_round_refines_witness :
  match demo_round with
  | Some st => exists outcome order, runScheduledCheckpoints outcome demo_api order demo_spec [] = (1%Z, round_log st)
  | None => False
  end.
Proof.
  pose proof demo_round_result as Hd. destruct demo_round as [st|] eqn:E; [|discriminate Hd].
  injection Hd as Hv _.
  destruct (scheduled_round_refines (fun _ => "EOF") [] ck_init demo_api demo_spec demo_rounds st 1%Z [] eq_refl E Hv)
    as (outcome & order & _ & H & _).
  exists outcome, order. exact H.
Defined.

(** The round after its loop, with both goroutines still calling. *)
Lemma scheduled_round_returns_witness :
  match round_run (fun _ => "EOF") (round_start demo_api demo_spec ck_init) [Spawn; Spawn] with
  | Some st => exists i, forall an, can_move (fun _ => "EOF") (rd_calls st) i an
  | None => False
  end.
Proof.
  destruct (round_run _ _ _) as [st|] eqn:E; [|vm_compute in E; discriminate E].
  destruct (scheduled_round_returns (fun _ => "EOF") [] ck_init demo_api demo_spec demo_pods [Spawn; Spawn] st
              eq_refl eq_refl E) as (_ & Hm & _).
  vm_compute in E. injection E as <-. destruct Hm as [(e & He & st' & Hs)|H]; [reflexivity| |exact H].
  exfalso. destruct e as [|e|[|[|k]]|[|[|k]]|]; try discriminate Hs. exact (He e eq_refl).
Defined.
