(* ===== verification/Schedule.v ===== *)
(** * The CheckpointSchedule controller ([checkpointschedule_controller.go])

    Reconciliation of one CheckpointSchedule: finalizer handling, starting and
    stopping the polling triggers, and the periodic checkpoints driven by the
    time recorded in the status.  The API server holds the object; every API call
    may fail as the fault oracle says, in which case it changes nothing. *)

From S2P Require Import Prelude GoStrings Kube Api Admission Creator Triggers TriggersProofs.
Open Scope string_scope.
Open Scope list_scope.
Open Scope Z_scope.

Definition checkpointScheduleFinalizer : string := "criu.org/checkpoint-schedule-finalizer".

(** A running trigger: its kind and the spec it was created with. *)
Inductive trigger_kind := KAnnotation | KResource | KEvent.

Record trigger := {
  tg_kind : trigger_kind;
  tg_spec : CheckpointScheduleSpec
}.

(** The API server's copy, the number of API calls made, the checkpoints
    requested and the reconciler's [activeTriggers]. *)
Record sched_world := {
  stored : option CheckpointSchedule;
  calls : nat;
  sw_log : ck_log;
  activeTriggers : gmap string (list trigger)
}.

Definition with_stored (w : sched_world) (o : option CheckpointSchedule) : sched_world :=
  {| stored := o; calls := calls w; sw_log := sw_log w; activeTriggers := activeTriggers w |}.
Definition with_triggers (w : sched_world) (t : gmap string (list trigger)) : sched_world :=
  {| stored := stored w; calls := calls w; sw_log := sw_log w; activeTriggers := t |}.
Definition with_log (w : sched_world) (l : ck_log) : sched_world :=
  {| stored := stored w; calls := calls w; sw_log := l; activeTriggers := activeTriggers w |}.

Definition set_finalizers (s : CheckpointSchedule) (fs : list string) : CheckpointSchedule :=
  {| cs_CreationTimestamp := cs_CreationTimestamp s; cs_Deleting := cs_Deleting s;
     cs_Finalizers := fs; cs_Spec := cs_Spec s; cs_Status := cs_Status s |}.

Section Schedule.
(** The error of the [n]-th API call, if it fails. *)
Context (faults : nat -> option apierror).
Context (outcome : ck_oracle) (api : PodAPI) (order : list ck_request -> list ck_request).

Definition tick (w : sched_world) : option apierror * sched_world :=
  (faults (calls w),
   {| stored := stored w; calls := S (calls w); sw_log := sw_log w; activeTriggers := activeTriggers w |}).

(** [r.Get] *)
Definition Get (w : sched_world) : result apierror CheckpointSchedule * sched_world :=
  let '(f, w) := tick w in
  match f with
  | Some e => (Err e, w)
  | None => match stored w with
            | Some s => (Ok s, w)
            | None => (Err NotFound, w)
            end
  end.

(** [r.Update]: the server stores the metadata; an object being deleted goes
    away with its last finalizer. *)
Definition Update (s : CheckpointSchedule) (w : sched_world) : result apierror unit * sched_world :=
  let '(f, w) := tick w in
  match f with
  | Some e => (Err e, w)
  | None => (Ok tt, with_stored w (if cs_Deleting s && (length (cs_Finalizers s) =? 0)%nat
                                   then None else Some s))
  end.

(** [r.Status().Update]: the server stores the status, times in seconds. *)
Definition StatusUpdate (s : CheckpointSchedule) (w : sched_world) : result apierror unit * sched_world :=
  let '(f, w) := tick w in
  match f with
  | Some e => (Err e, w)
  | None =>
      match stored w with
      | None => (Err NotFound, w)
      | Some s0 =>
          (Ok tt, with_stored w (Some
             {| cs_CreationTimestamp := cs_CreationTimestamp s0; cs_Deleting := cs_Deleting s0;
                cs_Finalizers := cs_Finalizers s0; cs_Spec := cs_Spec s0;
                cs_Status := {| cs_Conditions := cs_Conditions (cs_Status s);
                                LastCheckpointTime := stored_time <$> LastCheckpointTime (cs_Status s);
                                CheckpointsCreated := CheckpointsCreated (cs_Status s) |} |}))
      end
  end.

(** ** Triggers *)

Definition stopTriggers (key : string) (w : sched_world) : sched_world :=
  with_triggers w (delete key (activeTriggers w)).

Definition new_triggers (spec : CheckpointScheduleSpec) : list trigger :=
  (if OnAnnotation (cs_Triggers spec) then [ {| tg_kind := KAnnotation; tg_spec := spec |} ] else []) ++
  (match ResourceThreshold (cs_Triggers spec) with
   | Some _ => [ {| tg_kind := KResource; tg_spec := spec |} ]
   | None => []
   end) ++
  (if (0 <? length (OnKubernetesEvents (cs_Triggers spec)))%nat
   then [ {| tg_kind := KEvent; tg_spec := spec |} ] else []).

(** ** Periodic checkpoints *)

(** The closure given to [RetryOnConflict]. *)
Definition record_run (now : Time) (created : Z) (w : sched_world) : result apierror unit * sched_world :=
  let '(g, w) := Get w in
  match g with
  | Err e => (Err e, w)
  | Ok latest =>
      let st := cs_Status latest in
      StatusUpdate
        {| cs_CreationTimestamp := cs_CreationTimestamp latest; cs_Deleting := cs_Deleting latest;
           cs_Finalizers := cs_Finalizers latest; cs_Spec := cs_Spec latest;
           cs_Status := {| cs_Conditions := cs_Conditions st;
                           LastCheckpointTime := Some now;
                           CheckpointsCreated := int64 (CheckpointsCreated st + created) |} |} w
  end.

Definition last_run (s : CheckpointSchedule) : Time :=
  match LastCheckpointTime (cs_Status s) with
  | Some t => t
  | None => cs_CreationTimestamp s
  end.

Definition reconcileInterval (now : Time) (s : CheckpointSchedule) (w : sched_world)
  : Result * option apierror * sched_world :=
  match tr_Interval (cs_Triggers (cs_Spec s)) with
  | None => (no_requeue, None, w)
  | Some interval =>
      let next := last_run s + interval in
      if now <? next then (requeue_after (next - now), None, w)
      else
        let '(created, log) := runScheduledCheckpoints outcome api order (cs_Spec s) (sw_log w) in
        let w := with_log w log in
        match RetryOnConflict (record_run now created) w with
        | (Err e, w) => (no_requeue, Some e, w)
        | (Ok _, w) => (requeue_after interval, None, w)
        end
  end.

(** ** Reconcile *)

Definition Reconcile (key : string) (now : Time) (w : sched_world)
  : Result * option apierror * sched_world :=
  let '(g, w) := Get w in
  match g with
  | Err e => (no_requeue, if IsNotFound e then None else Some e, w)
  | Ok schedule =>
      if cs_Deleting schedule then
        let w := stopTriggers key w in
        if ContainsFinalizer (cs_Finalizers schedule) checkpointScheduleFinalizer then
          match Update (set_finalizers schedule
                  (RemoveFinalizer (cs_Finalizers schedule) checkpointScheduleFinalizer)) w with
          | (Err e, w) => (no_requeue, Some e, w)
          | (Ok _, w) => (no_requeue, None, w)
          end
        else (no_requeue, None, w)
      else if negb (ContainsFinalizer (cs_Finalizers schedule) checkpointScheduleFinalizer) then
        match Update (set_finalizers schedule
                (AddFinalizer (cs_Finalizers schedule) checkpointScheduleFinalizer)) w with
        | (Err e, w) => (no_requeue, Some e, w)
        | (Ok _, w) => (no_requeue, None, w)
        end
      else
        let w := match activeTriggers w !! key with
                 | Some _ => w
                 | None => with_triggers w (<[key := new_triggers (cs_Spec schedule)]> (activeTriggers w))
                 end in
        reconcileInterval now schedule w
  end.

(** ** Correctness *)

(** An object the controller reads and may act on. *)
Definition ready (w : sched_world) (s : CheckpointSchedule) : Prop :=
  stored w = Some s /\ faults (calls w) = None /\ cs_Deleting s = false /\
  ContainsFinalizer (cs_Finalizers s) checkpointScheduleFinalizer = true.

(** What [record_run] persists. *)
Definition recorded (now : Time) (created : Z) (s : CheckpointSchedule) : CheckpointSchedule :=
  {| cs_CreationTimestamp := cs_CreationTimestamp s; cs_Deleting := cs_Deleting s;
     cs_Finalizers := cs_Finalizers s; cs_Spec := cs_Spec s;
     cs_Status := {| cs_Conditions := cs_Conditions (cs_Status s);
                     LastCheckpointTime := Some (stored_time now);
                     CheckpointsCreated := int64 (CheckpointsCreated (cs_Status s) + created) |} |}.

Lemma record_run_spec now created w :
  let '(r, w') := record_run now created w in
  sw_log w' = sw_log w /\ activeTriggers w' = activeTriggers w /\
  match r with
  | Ok _ => exists s, stored w = Some s /\ stored w' = Some (recorded now created s)
  | Err _ => stored w' = stored w
  end.
Proof.
  unfold record_run, Get, tick. simpl. destruct (faults (calls w)); [done|].
  destruct (stored w) as [s|] eqn:Es; [|done]. unfold StatusUpdate, tick. simpl.
  destruct (faults (S (calls w))); [done|]. simpl. repeat split; try done. by exists s.
Qed.

Lemma on_conflict_spec n now created w :
  let '(r, w') := OnConflict n (record_run now created) w in
  sw_log w' = sw_log w /\ activeTriggers w' = activeTriggers w /\
  match r with
  | Ok _ => exists s, stored w = Some s /\ stored w' = Some (recorded now created s)
  | Err _ => stored w' = stored w
  end.
Proof.
  revert w. induction n as [|n IH]; intros w; simpl; [done|].
  pose proof (record_run_spec now created w) as H. destruct (record_run now created w) as [[u|e] w1]; [done|].
  destruct e; try done. destruct n as [|n]; [done|].
  specialize (IH w1). destruct (OnConflict (S n) _ w1) as [r w2]. destruct H as (H1 & H2 & H3), IH as (I1 & I2 & I3).
  split; [congruence|]. split; [congruence|]. destruct r; [|congruence].
  destruct I3 as (s & Hs & Hs'). exists s. split; [congruence|done].
Qed.

(** Periodic checkpoints follow the recorded cadence.  For a schedule with an
    interval: before the interval has passed since the last recorded run (or the
    creation), nothing is requested or stored and the requeue falls exactly on the
    due time; from then on one run is made, and if its result can be stored,
    conflicts or not, exactly one run is recorded: the time of this run in
    seconds, and the number of checkpoints it created added once.  If it cannot be
    stored, the object is unchanged and the error is returned.  A schedule the CRD
    admits is requeued after a positive time whenever no error is returned, so it
    neither stops nor spins. *)
Theorem reconcileInterval_cadence key now s interval w :
  ready w s -> tr_Interval (cs_Triggers (cs_Spec s)) = Some interval ->
  let '(res, err, w') := Reconcile key now w in
  let due := last_run s + interval in
  let '(created, log) := runScheduledCheckpoints outcome api order (cs_Spec s) (sw_log w) in
  (now < due -> stored w' = Some s /\ sw_log w' = sw_log w /\ err = None /\
                now + RequeueAfter res = due) /\
  (due <= now ->
     sw_log w' = log /\
     ((err = None /\ RequeueAfter res = interval /\ stored w' = Some (recorded now created s)) \/
      (is_Some err /\ stored w' = Some s))) /\
  (admit_TriggersSpec (cs_Triggers (cs_Spec s)) = true -> err = None -> 0 < RequeueAfter res).
Proof.
  intros (Hs & Hf & Hd & Hfin) Hi. unfold Reconcile, Get, tick. simpl. rewrite Hf, Hs, Hd, Hfin. simpl.
  set (w1 := match activeTriggers w !! key with Some _ => _ | None => _ end).
  assert (stored w1 = Some s /\ sw_log w1 = sw_log w) as [Hs1 Hl1].
  { subst w1. by destruct (activeTriggers w !! key). }
  unfold reconcileInterval. rewrite Hi, Hl1.
  destruct (runScheduledCheckpoints _ _ _ _ _) as [created log] eqn:Er.
  destruct (now <? last_run s + interval) eqn:En; to_prop.
  - split; [|split; [lia|simpl; lia]]. intros _. repeat split; try done. simpl. lia.
  - pose proof (on_conflict_spec DefaultRetrySteps now created (with_log w1 log)) as H.
    unfold RetryOnConflict. destruct (OnConflict _ _ _) as [r w2]. destruct H as (H1 & H2 & H3).
    destruct r as [u|e]; simpl in *; (split; [lia|]); (split; [intros _; split; [done|]|]); [..|done].
    + left. destruct H3 as (s' & Hs' & Hr). rewrite Hs1 in Hs'. simplify_eq. done.
    + intros Ha _. unfold admit_TriggersSpec in Ha. rewrite Hi in Ha. simpl in Ha. apply Z.leb_le in Ha.
      unfold Second in Ha. lia.
    + right. split; [eauto|congruence].
Qed.

(** Deletion: when the object is being deleted, one reconcile stops the
    triggers of its key, whatever the API does, and requests nothing; the finalizer
    is given up only in a reconcile that has stopped them, and if the update is
    stored without other finalizers the object is gone. *)
Theorem deletion_stops_triggers key now s w :
  stored w = Some s -> faults (calls w) = None -> cs_Deleting s = true ->
  let '(_, err, w') := Reconcile key now w in
  activeTriggers w' !! key = None /\
  (forall k, k <> key -> activeTriggers w' !! k = activeTriggers w !! k) /\ sw_log w' = sw_log w /\
  (stored w' = Some s \/
   (err = None /\
    let rest := RemoveFinalizer (cs_Finalizers s) checkpointScheduleFinalizer in
    stored w' = match rest with [] => None | _ => Some (set_finalizers s rest) end)).
Proof.
  intros Hs Hf Hd. unfold Reconcile, Get, tick. simpl. rewrite Hf, Hs, Hd.
  destruct (ContainsFinalizer _ _); simpl.
  - unfold Update, tick. simpl. destruct (faults (S (calls w))); simpl;
      rewrite lookup_delete_eq; (split; [done|]); (split; [intros k Hk; by rewrite lookup_delete_ne|]);
      (split; [done|]); [by left|]. right. split; [done|]. rewrite Hd. simpl.
    by destruct (RemoveFinalizer _ _).
  - rewrite lookup_delete_eq. split; [done|]. split; [intros k Hk; by rewrite lookup_delete_ne|].
    split; [done|]. by left.
Qed.

(** The polling triggers are started once, from the spec seen first: a
    reconcile of a live object leaves the triggers of its key as they are when
    there is an entry, whatever the spec says now, and otherwise starts exactly
    the configured ones. *)
Theorem triggers_started_once key now s w :
  ready w s ->
  let '(_, _, w') := Reconcile key now w in
  activeTriggers w' !! key =
    Some (match activeTriggers w !! key with Some ts => ts | None => new_triggers (cs_Spec s) end).
Proof.
  intros (Hs & Hf & Hd & Hfin). unfold Reconcile, Get, tick. simpl. rewrite Hf, Hs, Hd, Hfin. simpl.
  set (w1 := match activeTriggers w !! key with Some _ => _ | None => _ end).
  assert (activeTriggers w1 !! key =
    Some (match activeTriggers w !! key with Some ts => ts | None => new_triggers (cs_Spec s) end)) as Hw1.
  { subst w1. destruct (activeTriggers w !! key) eqn:E; simpl; [done|]. by rewrite lookup_insert_eq. }
  unfold reconcileInterval. destruct (tr_Interval _) as [i|]; [|done].
  destruct (now <? _); [done|]. destruct (runScheduledCheckpoints _ _ _ _ _) as [created log].
  pose proof (on_conflict_spec DefaultRetrySteps now created (with_log w1 log)) as H.
  unfold RetryOnConflict. destruct (OnConflict _ _ _) as [r w2]. destruct H as (_ & H & _).
  destruct r; simpl; by rewrite H.
Qed.
End Schedule.

(** ** Concrete reconciles *)

Definition demo_schedule (deleting : bool) : CheckpointSchedule :=
  {| cs_CreationTimestamp := 0; cs_Deleting := deleting;
     cs_Finalizers := [checkpointScheduleFinalizer];
     cs_Spec := {| cs_Namespace := "team"; cs_Selector := {| MatchLabels := ∅; MatchExpressions := [] |};
                   cs_ContainerNames := ["app"];
                   cs_Triggers := {| tr_Interval := Some (60 * Second); ResourceThreshold := None;
                                     OnKubernetesEvents := ["NodeDrain"]; OnAnnotation := true |} |};
     cs_Status := {| cs_Conditions := []; LastCheckpointTime := None; CheckpointsCreated := 0 |} |}.

Definition demo_world (deleting : bool) : sched_world :=
  {| stored := Some (demo_schedule deleting); calls := 0; sw_log := [];
     activeTriggers := {[ "ns/s" := [] ]} |}.

(** The second API call, the first status update, hits a conflict. *)
Definition demo_faults (n : nat) : option apierror := if (n =? 2)%nat then Some Conflict else None.

Lemma reconcileInterval_cadence_witness :
  let '(res, err, w') := Reconcile demo_faults demo_outcome demo_api id "ns/s" (90 * Second) (demo_world false) in
  (err = None /\ RequeueAfter res = 60 * Second /\
   stored w' = Some (recorded (90 * Second) 2 (demo_schedule false))) \/
  (is_Some err /\ stored w' = Some (demo_schedule false)).
Proof.
  pose proof (reconcileInterval_cadence demo_faults demo_outcome demo_api id "ns/s" (90 * Second)
                (demo_schedule false) (60 * Second) (demo_world false)) as H.
  destruct (Reconcile _ _ _ _ _ _ _) as [[res err] w'].
  apply H; [|reflexivity|vm_compute; discriminate].
  split; [reflexivity|]. split; [reflexivity|]. split; reflexivity.
Defined.

Lemma deletion_stops_triggers_witness :
  let '(_, _, w') := Reconcile demo_faults demo_outcome demo_api id "ns/s" 0 (demo_world true) in
  activeTriggers w' !! "ns/s" = None.
Proof.
  pose proof (deletion_stops_triggers demo_faults demo_outcome demo_api id "ns/s" 0
                (demo_schedule true) (demo_world true) eq_refl eq_refl eq_refl) as H.
  destruct (Reconcile _ _ _ _ _ _ _) as [[res err] w']. apply H.
Defined.

Lemma triggers_started_once_witness :
  let '(_, _, w') := Reconcile demo_faults demo_outcome demo_api id "ns/s" 0 (demo_world false) in
  activeTriggers w' !! "ns/s" = Some [].
Proof.
  pose proof (triggers_started_once demo_faults demo_outcome demo_api id "ns/s" 0
                (demo_schedule false) (demo_world false)) as H.
  destruct (Reconcile _ _ _ _ _ _ _) as [[res err] w']. apply H.
  split; [reflexivity|]. split; [reflexivity|]. split; reflexivity.
Defined.
