(* ===== verification/Lifecycle.v ===== *)
(** * Goroutines of the polling triggers
    ([Start] and [Stop] of [annotation_trigger.go], [event_trigger.go] and
    [resource_trigger.go]; [stopTriggers] and the trigger start of
    [checkpointschedule_controller.go])

    The three triggers share one shape: [Start] adds one to a wait group and
    spawns a goroutine that makes a ticker and selects between a tick, the closed
    [stopCh] and the end of the context; [Stop] closes [stopCh] and waits for the
    goroutine.  Here every goroutine and every worker of the CheckpointSchedule
    controller advances by steps of its own, in any interleaving; the requests of a
    run are made one by one.  [Schedule.v] sees of all this only the table of the
    triggers that are running. *)

From stdpp Require Import relations.
From S2P Require Import Prelude GoStrings Kube Api Creator Triggers TriggersProofs Schedule.
Open Scope string_scope.
Open Scope list_scope.
Open Scope Z_scope.

(** ** Pollers *)

Definition annotationPollInterval : Duration := 30 * Second.
Definition eventPollInterval : Duration := 5 * Second.

(** What a trigger remembers between polls. *)
Inductive poller_state :=
| AnnotationState
| ResourceState (rs : resource_state)
| EventState (et : EventTrigger).

(** The constructor of the trigger, and the interval its ticker is given. *)
Definition new_poller (t : trigger) : poller_state :=
  match tg_kind t with
  | KAnnotation => AnnotationState
  | KResource => ResourceState {| lastCheckpoint := ∅; ticks := 0 |}
  | KEvent => EventState (NewEventTrigger (tg_spec t))
  end.

Definition poll_interval (t : trigger) : Duration :=
  match tg_kind t with
  | KAnnotation => annotationPollInterval
  | KResource => resource_interval (tg_spec t)
  | KEvent => eventPollInterval
  end.

(** What one run sees of its surroundings: the creator's outcomes, the API
    server, the metrics and the clock; every run may see something else. *)
Record poll_env := {
  pe_outcome : ck_oracle;
  pe_api : PodAPI;
  pe_nodes : result apierror (list (string * bool));
  pe_iter : gset string -> list string;
  pe_client : bool;
  pe_metrics : Pod -> option (list containerMetricsItem);
  pe_ParseQuantity : string -> option Quantity;
  pe_clock : nat -> Time
}.

(** The [run] of the trigger: the requests it makes, with their outcomes. *)
Definition poll (env : poll_env) (t : trigger) (st : poller_state) : poller_state * ck_log :=
  match st with
  | AnnotationState => (AnnotationState, snd (annotation_run (pe_outcome env) (pe_api env) (tg_spec t) []))
  | ResourceState rs =>
      let '(rs, l) := resource_run (pe_outcome env) (pe_ParseQuantity env) (pe_clock env) (pe_api env)
                        (pe_client env) (pe_metrics env) (tg_spec t) rs [] in
      (ResourceState rs, l)
  | EventState et =>
      let '(et, l) := event_run (pe_outcome env) (pe_api env) (pe_nodes env) (pe_iter env)
                        (tg_spec t) et [] in
      (EventState et, l)
  end.

(** ** One goroutine *)

Inductive gpc :=
| Spawned                                          (* before time.NewTicker *)
| Selecting                                        (* in the select statement *)
| Running (todo : ck_log) (next : poller_state)    (* in run, requests still to make *)
| Exited.                                          (* returned: ticker stopped, wg.Done called *)

(** A started trigger: the key of its schedule, the buffered tick of [ticker.C],
    whether [stopCh] is closed, and the counter of [wg]. *)
Record goroutine := {
  g_key : string;
  g_trigger : trigger;
  g_state : poller_state;
  g_tick : bool;
  g_stopCh : bool;
  g_wg : Z;
  g_pc : gpc
}.

(** New... followed by [Start]: [wg.Add(1)] comes before the goroutine. *)
Definition Start (key : string) (t : trigger) : goroutine :=
  {| g_key := key; g_trigger := t; g_state := new_poller t; g_tick := false; g_stopCh := false;
     g_wg := 1; g_pc := Spawned |}.

Definition with_pc (g : goroutine) (pc : gpc) : goroutine :=
  {| g_key := g_key g; g_trigger := g_trigger g; g_state := g_state g; g_tick := g_tick g;
     g_stopCh := g_stopCh g; g_wg := g_wg g; g_pc := pc |}.
Definition with_tick (g : goroutine) (b : bool) : goroutine :=
  {| g_key := g_key g; g_trigger := g_trigger g; g_state := g_state g; g_tick := b;
     g_stopCh := g_stopCh g; g_wg := g_wg g; g_pc := g_pc g |}.
Definition with_state (g : goroutine) (st : poller_state) : goroutine :=
  {| g_key := g_key g; g_trigger := g_trigger g; g_state := st; g_tick := g_tick g;
     g_stopCh := g_stopCh g; g_wg := g_wg g; g_pc := g_pc g |}.
Definition close_stopCh (g : goroutine) : goroutine :=
  {| g_key := g_key g; g_trigger := g_trigger g; g_state := g_state g; g_tick := g_tick g;
     g_stopCh := true; g_wg := g_wg g; g_pc := g_pc g |}.
(** The deferred calls on return: [ticker.Stop], then [wg.Done]. *)
Definition return_ (g : goroutine) : goroutine :=
  {| g_key := g_key g; g_trigger := g_trigger g; g_state := g_state g; g_tick := g_tick g;
     g_stopCh := g_stopCh g; g_wg := g_wg g - 1; g_pc := Exited |}.

(** What a goroutine can do; [Tick] is the runtime's ticker. *)
Inductive gact := MakeTicker | Tick | TakeTick (env : poll_env) | Request | RunDone | TakeStop | TakeDone.

Inductive gresult :=
| GPanic
| GStep (g : goroutine) (req : option (ck_request * result checkpoint_error string)).

(** One action, if it is possible: a full ticker channel drops the tick, and the
    select statement takes any case that is ready. *)
Definition gstep (ctx_done : bool) (a : gact) (g : goroutine) : option gresult :=
  match a, g_pc g with
  | MakeTicker, Spawned =>
      match NewTicker (poll_interval (g_trigger g)) with
      | None => Some GPanic
      | Some _ => Some (GStep (with_pc g Selecting) None)
      end
  | Tick, (Selecting | Running _ _) => Some (GStep (with_tick g true) None)
  | TakeTick env, Selecting =>
      if g_tick g then
        let '(st, l) := poll env (g_trigger g) (g_state g) in
        Some (GStep (with_pc (with_tick g false) (Running l st)) None)
      else None
  | Request, Running (r :: l) st => Some (GStep (with_pc g (Running l st)) (Some r))
  | RunDone, Running [] st => Some (GStep (with_pc (with_state g st) Selecting) None)
  | TakeStop, Selecting => if g_stopCh g then Some (GStep (return_ g) None) else None
  | TakeDone, Selecting => if ctx_done then Some (GStep (return_ g) None) else None
  | _, _ => None
  end.

(** ** The controller *)

(** A reconcile of one key: starting its triggers one by one, or in
    [stopTriggers] with the mutex held, or past it, where the finalizer goes. *)
Inductive worker :=
| WStart (spec : CheckpointScheduleSpec) (todo : list trigger) (started : list nat)
| WStop (todo : list nat)
| WWait (i : nat) (todo : list nat)
| WStopped.

(** The goroutines ever started, [activeTriggers], [mu] with the key of its
    holder, the context of the manager, the workers by key (the work queue never
    hands a key to two of them), and every request with the goroutine making it. *)
Record sys := {
  gs : list goroutine;
  active : gmap string (list nat);
  mu : option string;
  ctx_done : bool;
  workers : gmap string worker;
  reqs : list (nat * (ck_request * result checkpoint_error string));
  panicked : bool
}.

Definition sys_init : sys :=
  {| gs := []; active := ∅; mu := None; ctx_done := false; workers := ∅; reqs := []; panicked := false |}.

Definition with_gs (s : sys) (l : list goroutine) : sys :=
  {| gs := l; active := active s; mu := mu s; ctx_done := ctx_done s; workers := workers s;
     reqs := reqs s; panicked := panicked s |}.
Definition with_worker (s : sys) (k : string) (w : worker) : sys :=
  {| gs := gs s; active := active s; mu := mu s; ctx_done := ctx_done s;
     workers := <[k := w]> (workers s); reqs := reqs s; panicked := panicked s |}.
Definition worker_done (s : sys) (k : string) : sys :=
  {| gs := gs s; active := active s; mu := mu s; ctx_done := ctx_done s;
     workers := delete k (workers s); reqs := reqs s; panicked := panicked s |}.
Definition with_active (s : sys) (m : gmap string (list nat)) : sys :=
  {| gs := gs s; active := m; mu := mu s; ctx_done := ctx_done s; workers := workers s;
     reqs := reqs s; panicked := panicked s |}.
Definition with_mu (s : sys) (o : option string) : sys :=
  {| gs := gs s; active := active s; mu := o; ctx_done := ctx_done s; workers := workers s;
     reqs := reqs s; panicked := panicked s |}.
Definition with_req (s : sys) (i : nat) (o : option (ck_request * result checkpoint_error string)) : sys :=
  {| gs := gs s; active := active s; mu := mu s; ctx_done := ctx_done s; workers := workers s;
     reqs := reqs s ++ match o with Some r => [(i, r)] | None => [] end; panicked := panicked s |}.
Definition panic (s : sys) : sys :=
  {| gs := gs s; active := active s; mu := mu s; ctx_done := ctx_done s; workers := workers s;
     reqs := reqs s; panicked := true |}.
Definition cancel (s : sys) : sys :=
  {| gs := gs s; active := active s; mu := mu s; ctx_done := true; workers := workers s;
     reqs := reqs s; panicked := panicked s |}.

(** [Reconcile] of a live schedule: look for running triggers under the mutex;
    start the configured ones; store them under the mutex.  [Reconcile] of one
    being deleted: [stopTriggers], which closes and waits for one trigger after
    the other with the mutex held, then the update of the finalizer. *)
Inductive wact :=
| Reconcile_live (spec : CheckpointScheduleSpec) | StartOne | Store
| Reconcile_deleted | Close | Wait | Unlock | Finish.

Definition wstep (k : string) (a : wact) (s : sys) : option sys :=
  match a, workers s !! k with
  | Reconcile_live spec, None =>
      match mu s, active s !! k with
      | None, None => Some (with_worker s k (WStart spec (new_triggers spec) []))
      | None, Some _ => Some s
      | Some _, _ => None
      end
  | StartOne, Some (WStart spec (t :: todo) started) =>
      Some (with_worker (with_gs s (gs s ++ [Start k t])) k (WStart spec todo (started ++ [length (gs s)])))
  | Store, Some (WStart spec [] started) =>
      match mu s with
      | None => Some (worker_done (with_active s (<[k := started]> (active s))) k)
      | Some _ => None
      end
  | Reconcile_deleted, None =>
      match mu s with
      | None => Some (with_worker (with_mu s (Some k)) k (WStop (default [] (active s !! k))))
      | Some _ => None
      end
  | Close, Some (WStop (i :: todo)) =>
      match gs s !! i with
      | Some g => if g_stopCh g then Some (panic s)
                  else Some (with_worker (with_gs s (<[i := close_stopCh g]> (gs s))) k (WWait i todo))
      | None => None
      end
  | Wait, Some (WWait i todo) =>
      match gs s !! i with
      | Some g => if g_wg g =? 0 then Some (with_worker s k (WStop todo)) else None
      | None => None
      end
  | Unlock, Some (WStop []) =>
      Some (with_worker (with_mu (with_active s (delete k (active s))) None) k WStopped)
  | Finish, Some WStopped => Some (worker_done s k)
  | _, _ => None
  end.

Inductive label := LGo (i : nat) (a : gact) | LWork (k : string) (a : wact) | LCancel.

(** A panic in any goroutine ends the process. *)
Definition exec (l : label) (s : sys) : option sys :=
  if panicked s then None else
  match l with
  | LGo i a =>
      match gs s !! i with
      | None => None
      | Some g => match gstep (ctx_done s) a g with
                  | None => None
                  | Some GPanic => Some (panic s)
                  | Some (GStep g' o) => Some (with_req (with_gs s (<[i := g']> (gs s))) i o)
                  end
      end
  | LWork k a => wstep k a s
  | LCancel => Some (cancel s)
  end.

Definition step (s s' : sys) : Prop := exists l, exec l s = Some s'.

Fixpoint exec_all (ls : list label) (s : sys) : option sys :=
  match ls with
  | [] => Some s
  | l :: ls' => match exec l s with Some s' => exec_all ls' s' | None => None end
  end.

(** ** The invariant *)

(** The goroutines a key still answers for, and those of them whose [stopCh] it
    will close. *)
Definition owned (s : sys) (k : string) : list nat :=
  match workers s !! k with
  | Some (WStart _ _ started) => started
  | Some (WStop todo) => todo
  | Some (WWait i todo) => i :: todo
  | Some WStopped => []
  | None => default [] (active s !! k)
  end.

Definition to_close (s : sys) (k : string) : list nat :=
  match workers s !! k with
  | Some (WWait _ todo) => todo
  | _ => owned s k
  end.

(** The wait group counts the one goroutine until it returns. *)
Definition wg_ok (g : goroutine) : Prop :=
  g_wg g = match g_pc g with Exited => 0 | _ => 1 end.

(** What each position of a worker says of the mutex and the table. *)
Definition worker_ok (s : sys) (k : string) : Prop :=
  match workers s !! k with
  | Some (WStart spec todo started) =>
      active s !! k = None /\
      exists l, Forall2 (fun i t => exists g, gs s !! i = Some g /\ g_trigger g = t) started l /\
                l ++ todo = new_triggers spec
  | Some (WStop todo) => mu s = Some k
  | Some (WWait i todo) => mu s = Some k /\ exists g, gs s !! i = Some g /\ g_stopCh g = true
  | Some WStopped => active s !! k = None
  | None => True
  end.

Record inv (s : sys) : Prop := {
  inv_wg : forall i g, gs s !! i = Some g -> wg_ok g;
  inv_live : forall i g, gs s !! i = Some g -> g_pc g <> Exited -> i ∈ owned s (g_key g);
  inv_owned : forall k i, i ∈ owned s k -> exists g, gs s !! i = Some g /\ g_key g = k;
  inv_nodup : forall k, NoDup (owned s k);
  inv_unclosed : forall k i g, i ∈ to_close s k -> gs s !! i = Some g -> g_stopCh g = false;
  inv_worker : forall k, worker_ok s k;
  inv_active : forall k i, i ∈ default [] (active s !! k) -> (i < length (gs s))%nat
}.

Lemma gstep_spec c a g g' o :
  gstep c a g = Some (GStep g' o) ->
  g_key g' = g_key g /\ g_trigger g' = g_trigger g /\ g_stopCh g' = g_stopCh g /\
  g_pc g <> Exited /\ (wg_ok g -> wg_ok g').
Proof.
  unfold gstep, wg_ok. intros H. repeat (split_match_in H; try done);
    repeat split; try done; simpl; intros; try congruence; destruct (g_pc g); simplify_eq; lia.
Qed.

Lemma inv_init : inv sys_init.
Proof.
  split; try done.
  - intros k i. unfold owned. simpl. rewrite lookup_empty. simpl. set_solver.
  - intros k. unfold owned. simpl. rewrite lookup_empty. constructor.
  - intros k i. simpl. rewrite lookup_empty. simpl. set_solver.
Qed.

Lemma owned_ext s s' k :
  workers s' !! k = workers s !! k -> active s' !! k = active s !! k ->
  owned s' k = owned s k /\ to_close s' k = to_close s k.
Proof. unfold owned, to_close, owned. by intros -> ->. Qed.

(** Requests, panics and the context play no role. *)
Lemma inv_ext s s' :
  gs s' = gs s -> active s' = active s -> mu s' = mu s -> workers s' = workers s -> inv s -> inv s'.
Proof.
  intros Hg Ha Hm Hw [I1 I2 I3 I4 I5 I6 I7].
  assert (forall k, owned s' k = owned s k) as Ho by (intros k; unfold owned; by rewrite Hw, Ha).
  assert (forall k, to_close s' k = to_close s k) as Hc by (intros k; unfold to_close; by rewrite Hw, Ho).
  split; intros; rewrite ?Hg, ?Ho, ?Hc, ?Ha in *; eauto.
  specialize (I6 k). unfold worker_ok in *. by rewrite Hw, Ha, Hm, Hg.
Qed.

(** A goroutine that is not over advances. *)
Lemma inv_update s i g g' :
  inv s -> gs s !! i = Some g -> g_pc g <> Exited ->
  g_key g' = g_key g -> g_trigger g' = g_trigger g -> g_stopCh g' = g_stopCh g -> wg_ok g' ->
  inv (with_gs s (<[i := g']> (gs s))).
Proof.
  intros [I1 I2 I3 I4 I5 I6 I7] Hi Hp Hk Ht Hc Hw.
  assert (forall j h, gs s !! j = Some h -> exists h', <[i := g']> (gs s) !! j = Some h' /\
            g_key h' = g_key h /\ g_trigger h' = g_trigger h /\ g_stopCh h' = g_stopCh h) as Hup.
  { intros j h Hj. destruct (decide (i = j)) as [<-|Hne].
    - exists g'. rewrite list_lookup_insert_eq by (by eapply lookup_lt_Some). by simplify_eq.
    - exists h. by rewrite list_lookup_insert_ne. }
  split; simpl.
  - intros j h [(-> & -> & _)|[_ Hj]]%list_lookup_insert_Some; eauto.
  - intros j h [(-> & -> & _)|[_ Hj]]%list_lookup_insert_Some Hh; [|by apply I2].
    rewrite Hk. by apply I2.
  - intros k j Hj. destruct (I3 k j Hj) as (h & Hh & <-). destruct (Hup j h Hh) as (h' & ? & ? & _). eauto.
  - done.
  - intros k j h Hj [(-> & -> & _)|[_ Hh]]%list_lookup_insert_Some; [|by eapply I5].
    rewrite Hc. by eapply I5.
  - intros k. specialize (I6 k). unfold worker_ok in *. simpl.
    destruct (workers s !! k) as [[spec todo started|todo|j todo|]|]; try done.
    + destruct I6 as (Ha & l & Hl & Hn). split; [done|]. exists l. split; [|done].
      eapply Forall2_impl; [exact Hl|]. intros j t (h & Hh & <-).
      destruct (Hup j h Hh) as (h' & ? & _ & ? & _). eauto.
    + destruct I6 as (Hm & h & Hh & Hs). split; [done|]. destruct (Hup j h Hh) as (h' & ? & _ & _ & ?).
      exists h'. split; [done|congruence].
  - intros k j Hj. rewrite length_insert. eauto.
Qed.

(** Goroutines only advance: keys and triggers stay, closed channels stay closed. *)
Definition evolves (s s' : sys) : Prop :=
  forall j h, gs s !! j = Some h -> exists h', gs s' !! j = Some h' /\
    g_key h' = g_key h /\ g_trigger h' = g_trigger h /\ (g_stopCh h = true -> g_stopCh h' = true).

Lemma evolves_refl s s' : gs s' = gs s -> evolves s s'.
Proof. intros H j h Hj. rewrite H. by exists h. Qed.

Lemma evolves_length s s' : evolves s s' -> (length (gs s) <= length (gs s'))%nat.
Proof.
  intros H. destruct (decide (length (gs s') < length (gs s))%nat) as [Hl|]; [|lia].
  destruct (lookup_lt_is_Some_2 _ _ Hl) as (h & Hh). destruct (H _ _ Hh) as (h' & Hh' & _).
  apply lookup_lt_Some in Hh'. lia.
Qed.

(** What a step of the worker of [k] has to keep: everything about [k]; the rest
    is untouched. *)
Lemma inv_work s s' k :
  inv s -> evolves s s' ->
  (forall k', k' <> k -> workers s' !! k' = workers s !! k' /\ active s' !! k' = active s !! k') ->
  (mu s' = mu s \/ mu s = None \/ mu s = Some k) ->
  (forall j h, gs s' !! j = Some h -> g_key h <> k -> gs s !! j = Some h) ->
  (forall j h, gs s' !! j = Some h -> g_key h = k ->
     wg_ok h /\ (g_pc h <> Exited -> j ∈ owned s' k) /\ (j ∈ to_close s' k -> g_stopCh h = false)) ->
  (forall i, i ∈ owned s' k -> exists g, gs s' !! i = Some g /\ g_key g = k) ->
  NoDup (owned s' k) -> worker_ok s' k ->
  (forall i, i ∈ default [] (active s' !! k) -> (i < length (gs s'))%nat) ->
  inv s'.
Proof.
  intros [I1 I2 I3 I4 I5 I6 I7] He Hother Hmu Hkeep Hk Hown Hnd Hwk Hact.
  assert (forall k', k' <> k -> owned s' k' = owned s k' /\ to_close s' k' = to_close s k') as Ho.
  { intros k' Hne. destruct (Hother k' Hne). by apply owned_ext. }
  assert (forall i, i ∈ to_close s' k -> i ∈ owned s' k) as Hsub.
  { intros i. unfold to_close, owned. repeat case_match; set_solver. }
  split.
  - intros j h Hj. destruct (decide (g_key h = k)) as [E|E]; [by apply (Hk j h)|]. eauto.
  - intros j h Hj Hp. destruct (decide (g_key h = k)) as [E|E]; [rewrite E; by apply (Hk j h)|].
    destruct (Ho _ E) as [-> _]. eauto.
  - intros k' j Hj. destruct (decide (k' = k)) as [->|E]; [by apply Hown|].
    destruct (Ho _ E) as [Ho' _]. rewrite Ho' in Hj. destruct (I3 k' j Hj) as (h & Hh & <-).
    destruct (He j h Hh) as (h' & ? & ? & _). eauto.
  - intros k'. destruct (decide (k' = k)) as [->|E]; [done|]. destruct (Ho _ E) as [-> _]. done.
  - intros k' j h Hj Hh. destruct (decide (k' = k)) as [->|E].
    + destruct (Hown j (Hsub j Hj)) as (g & Hg & Hgk). simplify_eq. by apply (Hk j h).
    + destruct (Ho _ E) as [_ Hc]. rewrite Hc in Hj.
      assert (j ∈ owned s k') as Hjo by (unfold to_close, owned in *; repeat case_match; set_solver).
      destruct (I3 k' j Hjo) as (g & Hg & Hgk). destruct (He j g Hg) as (g' & Hg' & Hgk' & _). simplify_eq.
      apply (I5 (g_key g) j h Hj). apply Hkeep; congruence.
  - intros k'. destruct (decide (k' = k)) as [->|E]; [done|]. destruct (Hother k' E) as [Hw Ha].
    specialize (I6 k'). unfold worker_ok in *. rewrite Hw, Ha.
    destruct (workers s !! k') as [[spec todo started|todo|j todo|]|]; try done.
    + destruct I6 as (Hn & l & Hl & Hsp). split; [done|]. exists l. split; [|done].
      eapply Forall2_impl; [exact Hl|]. intros i t (h & Hh & <-).
      destruct (He i h Hh) as (h' & ? & _ & ? & _). eauto.
    + destruct Hmu as [->|[Hm|Hm]]; congruence.
    + destruct I6 as (Hm' & h & Hh & Hc). split; [destruct Hmu as [->|[Hm|Hm]]; congruence|].
      destruct (He j h Hh) as (h' & ? & _ & _ & ?). eauto.
  - intros k' i Hi. destruct (decide (k' = k)) as [->|E]; [by apply Hact|].
    destruct (Hother k' E) as [_ Ha]. rewrite Ha in Hi. apply I7 in Hi.
    pose proof (evolves_length s s' He). lia.
Qed.

(** The same when no goroutine changes: the key may only shed goroutines that
    are over. *)
Lemma inv_work_same s s' k :
  inv s -> gs s' = gs s ->
  (forall k', k' <> k -> workers s' !! k' = workers s !! k' /\ active s' !! k' = active s !! k') ->
  (mu s' = mu s \/ mu s = None \/ mu s = Some k) ->
  (forall j h, j ∈ owned s k -> gs s !! j = Some h -> g_pc h <> Exited -> j ∈ owned s' k) ->
  sublist (owned s' k) (owned s k) -> (forall j, j ∈ to_close s' k -> j ∈ to_close s k) ->
  worker_ok s' k ->
  (forall i, i ∈ default [] (active s' !! k) -> i ∈ owned s k \/ active s' !! k = active s !! k) ->
  inv s'.
Proof.
  intros Hi Hg Hother Hmu Hlive Hsub Hcl Hwk Hact. pose proof Hi as [I1 I2 I3 I4 I5 I6 I7].
  apply (inv_work s s' k Hi (evolves_refl s s' Hg) Hother Hmu); rewrite ?Hg; try done.
  - intros j h Hj Hk. split; [eauto|]. split; [|eauto]. intros Hp. eapply Hlive; eauto.
    rewrite <- Hk. eauto.
  - intros i Hin. apply I3. by eapply elem_of_sublist.
  - by eapply sublist_NoDup.
  - intros i Hin. destruct (Hact i Hin) as [Ho|He]; [|rewrite He in Hin; eauto].
    destruct (I3 k i Ho) as (g & Hgi & _). by eapply lookup_lt_Some.
Qed.

(** Unfold what the key of the worker owns after its step. *)
Ltac owned_simpl :=
  unfold owned, to_close, owned, worker_ok in *; simpl in *;
  rewrite ?lookup_insert_eq, ?lookup_delete_eq in *; simpl in *.

Lemma inv_start_one s k spec t todo started :
  inv s -> workers s !! k = Some (WStart spec (t :: todo) started) ->
  inv (with_worker (with_gs s (gs s ++ [Start k t])) k (WStart spec todo (started ++ [length (gs s)]))).
Proof.
  intros Hi Hw. pose proof Hi as [I1 I2 I3 I4 I5 I6 I7].
  assert (owned s k = started) as Ho by (unfold owned; by rewrite Hw).
  assert (to_close s k = started) as Hc by (unfold to_close; by rewrite Hw).
  pose proof (I6 k) as Hk. unfold worker_ok in Hk. rewrite Hw in Hk. destruct Hk as (Ha & l & Hl & Hn).
  apply (inv_work s _ k Hi).
  - intros j h Hj. exists h. split; [|done]. simpl. by apply lookup_app_l_Some.
  - intros k' Hne. simpl. by rewrite lookup_insert_ne.
  - by left.
  - simpl. intros j h Hj Hne. apply lookup_app_Some in Hj as [Hj|[_ Hj]]; [done|].
    apply list_lookup_singleton_Some in Hj as [_ <-]. by destruct Hne.
  - simpl. intros j h Hj Hk. owned_simpl. apply lookup_app_Some in Hj as [Hj|[Hlen Hj]].
    + split; [eauto|]. split; [intros Hp; apply elem_of_app; left; rewrite <- Ho, <- Hk; eauto|].
      intros [Hin|Hin]%elem_of_app; [apply (I5 k j h); [by rewrite Hw|done]|].
      apply list_elem_of_singleton in Hin as ->. apply lookup_lt_Some in Hj. lia.
    + apply list_lookup_singleton_Some in Hj as [Hj <-]. split; [done|]. split; [|done].
      intros _. apply elem_of_app. right. apply list_elem_of_singleton. lia.
  - intros i. owned_simpl. intros [Hin|Hin]%elem_of_app.
    + destruct (I3 k i) as (g & Hg & Hgk); [by rewrite Hw|]. exists g. split; [|done].
      by apply lookup_app_l_Some.
    + apply list_elem_of_singleton in Hin as ->. exists (Start k t). split; [|done].
      by rewrite lookup_app_r, Nat.sub_diag.
  - owned_simpl. apply NoDup_app. split; [specialize (I4 k); by rewrite Hw in I4|].
    split; [|apply NoDup_singleton]. intros i Hin ->%list_elem_of_singleton.
    destruct (I3 k (length (gs s))) as (g & Hg & _); [by rewrite Hw|]. apply lookup_lt_Some in Hg. lia.
  - owned_simpl. split; [done|]. exists (l ++ [t]). rewrite <- app_assoc. split; [|done].
    apply Forall2_app; [|constructor; [|constructor]; exists (Start k t); split; [|done];
                           by rewrite lookup_app_r, Nat.sub_diag].
    eapply Forall2_impl; [exact Hl|]. intros i t' (h & Hh & Ht). exists h. split; [|done].
    by apply lookup_app_l_Some.
  - simpl. rewrite Ha. set_solver.
Qed.

Lemma inv_close s k i todo g :
  inv s -> workers s !! k = Some (WStop (i :: todo)) -> gs s !! i = Some g ->
  inv (with_worker (with_gs s (<[i := close_stopCh g]> (gs s))) k (WWait i todo)).
Proof.
  intros Hi Hw Hg. pose proof Hi as [I1 I2 I3 I4 I5 I6 I7].
  pose proof (lookup_lt_Some _ _ _ Hg) as Hlt.
  assert (g_key g = k) as Hgk.
  { destruct (I3 k i) as (g' & Hg' & Hk); [unfold owned; rewrite Hw; set_solver|]. congruence. }
  pose proof (I4 k) as Hnd. pose proof (I6 k) as Hk. pose proof (I5 k) as Hun. pose proof (I3 k) as H3.
  apply (inv_work s _ k Hi).
  - intros j h Hj. simpl. destruct (decide (i = j)) as [<-|Hne].
    + exists (close_stopCh g). rewrite list_lookup_insert_eq by done. by simplify_eq.
    + exists h. by rewrite list_lookup_insert_ne.
  - intros k' Hne. simpl. by rewrite lookup_insert_ne.
  - by left.
  - simpl. intros j h [(-> & <- & _)|[_ Hj]]%list_lookup_insert_Some Hne; [|done]. by destruct Hne.
  - simpl. intros j h Hj Hjk. owned_simpl. rewrite Hw in *. apply NoDup_cons in Hnd as [Hni Hnd].
    apply list_lookup_insert_Some in Hj as [(-> & <- & _)|[Hne Hj]].
    + split; [by apply (I1 j g)|]. split; [set_solver|]. by intros Hin.
    + split; [eauto|]. split.
      * intros Hp. specialize (I2 j h Hj Hp). rewrite Hjk, Hw in I2. done.
      * intros Hin. apply (Hun j h); [set_solver|done].
  - intros j. owned_simpl. rewrite Hw in *. intros Hin. destruct (H3 j Hin) as (h & Hh & Hhk).
    destruct (decide (i = j)) as [<-|Hne].
    + exists (close_stopCh g). by rewrite list_lookup_insert_eq.
    + exists h. by rewrite list_lookup_insert_ne.
  - owned_simpl. by rewrite Hw in Hnd.
  - owned_simpl. rewrite Hw in Hk. split; [done|]. exists (close_stopCh g).
    by rewrite list_lookup_insert_eq.
  - simpl. rewrite length_insert. eauto.
Qed.

Lemma inv_wstep k a s s' : inv s -> wstep k a s = Some s' -> inv s'.
Proof.
  intros Hi H. pose proof Hi as [I1 I2 I3 I4 I5 I6 I7]. pose proof (I6 k) as Hk.
  unfold wstep in H. unfold worker_ok in Hk.
  destruct a; destruct (workers s !! k) as [[spec' todo started|todo|i todo|]|] eqn:Hw; try done.
  - (* Reconcile_live *)
    destruct (mu s) eqn:Hm; [done|]. destruct (active s !! k) eqn:Ha; simplify_eq; [done|].
    apply (inv_work_same s _ k Hi);
      [reflexivity|intros k' Hne; simpl; by rewrite lookup_insert_ne|by left|..];
      owned_simpl; rewrite ?Hw, ?Ha in *; try set_solver.
  - destruct todo as [|t todo]; [done|]. simplify_eq. by apply inv_start_one.
  - (* Store *)
    destruct todo; [|done]. destruct (mu s) eqn:Hm; [done|]. simplify_eq.
    apply (inv_work_same s _ k Hi);
      [reflexivity|intros k' Hne; simpl; by rewrite lookup_delete_ne, lookup_insert_ne|by left|..];
      owned_simpl; rewrite ?Hw in *; try done; set_solver.
  - (* Reconcile_deleted *)
    destruct (mu s) eqn:Hm; [done|]. simplify_eq.
    apply (inv_work_same s _ k Hi);
      [reflexivity|intros k' Hne; simpl; by rewrite lookup_insert_ne|by right; left|..];
      owned_simpl; rewrite ?Hw in *; try done; set_solver.
  - (* Close *)
    destruct todo as [|i todo]; [done|]. destruct (gs s !! i) as [g|] eqn:Hg; [|done].
    destruct (g_stopCh g); simplify_eq; [by apply (inv_ext s)|by apply inv_close].
  - (* Wait *)
    destruct (gs s !! i) as [g|] eqn:Hg; [|done]. destruct (g_wg g =? 0) eqn:E; [|done]. to_prop. simplify_eq.
    assert (g_pc g = Exited) as Hx.
    { pose proof (I1 i g Hg) as Hwg. unfold wg_ok in Hwg. destruct (g_pc g); (done || lia). }
    apply (inv_work_same s _ k Hi);
      [reflexivity|intros k' Hne; simpl; by rewrite lookup_insert_ne|by left|..];
      owned_simpl; rewrite ?Hw in *; try done; try (by constructor).
    + intros j h [->|Hin]%elem_of_cons Hj Hp; [|done]. congruence.
    + by destruct Hk.
  - (* Unlock *)
    destruct todo; [|done]. simplify_eq.
    apply (inv_work_same s _ k Hi);
      [reflexivity|intros k' Hne; simpl; by rewrite lookup_insert_ne, lookup_delete_ne|by right; right|..];
      owned_simpl; rewrite ?Hw in *; try done; set_solver.
  - (* Finish *)
    simplify_eq. apply (inv_work_same s _ k Hi);
      [reflexivity|intros k' Hne; simpl; by rewrite lookup_delete_ne|by left|..];
      owned_simpl; rewrite ?Hw, ?Hk in *; simpl; try done; set_solver.
Qed.

Lemma inv_step s s' : inv s -> step s s' -> inv s'.
Proof.
  intros Hi (l & H). unfold exec in H. destruct (panicked s); [done|].
  destruct l as [i a|k a|]; [|by eapply inv_wstep|simplify_eq; by apply (inv_ext s)].
  destruct (gs s !! i) as [g|] eqn:Hg; [|done].
  destruct (gstep (ctx_done s) a g) as [[|g' o]|] eqn:Hs; simplify_eq; [by apply (inv_ext s)|].
  apply gstep_spec in Hs as (Hk & Ht & Hc & Hp & Hw).
  apply (inv_ext (with_gs s (<[i := g']> (gs s)))); try done.
  eapply inv_update; eauto. apply Hw. by eapply (inv_wg s).
Qed.

Lemma inv_reachable s s' : inv s -> rtc step s s' -> inv s'.
Proof. intros Hi Hr. induction Hr; eauto using inv_step. Qed.

(** ** What a step does to a goroutine *)

(** No step revives a goroutine, reopens its channel or moves it to another key. *)
Lemma step_goroutine s s' i g :
  step s s' -> gs s !! i = Some g ->
  exists g', gs s' !! i = Some g' /\ g_key g' = g_key g /\ g_trigger g' = g_trigger g /\
    (g_stopCh g = true -> g_stopCh g' = true) /\ (g_pc g = Exited -> g_pc g' = Exited).
Proof.
  intros (l & H) Hi. unfold exec in H. destruct (panicked s); [done|]. destruct l as [j a|k a|].
  - destruct (gs s !! j) as [h|] eqn:Hj; [|done].
    destruct (gstep (ctx_done s) a h) as [[|h' o]|] eqn:Hs; simplify_eq; [by exists g|]. simpl.
    apply gstep_spec in Hs as (Hk & Ht & Hc & Hp & _). destruct (decide (j = i)) as [->|Hne].
    + simplify_eq. exists h'. rewrite list_lookup_insert_eq by (by eapply lookup_lt_Some).
      by repeat split; [..|congruence|intros].
    + exists g. by rewrite list_lookup_insert_ne.
  - unfold wstep in H. repeat (split_match_in H; try done); try (by exists g).
    + exists g. split; [by apply lookup_app_l_Some|done].
    + match goal with |- context [<[?n := _]> _] => destruct (decide (n = i)) as [->|Hne] end.
      * simplify_eq. eexists. rewrite list_lookup_insert_eq by (by eapply lookup_lt_Some).
        split; [reflexivity|]. done.
      * exists g. by rewrite list_lookup_insert_ne.
  - simplify_eq. by exists g.
Qed.

Lemma steps_goroutine s s' i g :
  rtc step s s' -> gs s !! i = Some g ->
  exists g', gs s' !! i = Some g' /\ g_key g' = g_key g /\ g_trigger g' = g_trigger g /\
    (g_stopCh g = true -> g_stopCh g' = true) /\ (g_pc g = Exited -> g_pc g' = Exited).
Proof.
  intros Hr. revert g. induction Hr as [s|s s1 s2 H1 Hr IH]; intros g Hi; [by exists g|].
  destruct (step_goroutine _ _ _ _ H1 Hi) as (g1 & Hg1 & Hk1 & Ht1 & Hc1 & Hp1).
  destruct (IH g1 Hg1) as (g2 & Hg2 & Hk2 & Ht2 & Hc2 & Hp2).
  exists g2. repeat split; [done|congruence|congruence|auto|auto].
Qed.

(** Requests are only added, by goroutines that are not over. *)
Lemma step_reqs s s' :
  step s s' ->
  reqs s' = reqs s \/
  exists i r g, reqs s' = reqs s ++ [(i, r)] /\ gs s !! i = Some g /\ g_pc g <> Exited.
Proof.
  intros (l & H). unfold exec in H. destruct (panicked s); [done|]. destruct l as [j a|k a|].
  - destruct (gs s !! j) as [h|] eqn:Hj; [|done].
    destruct (gstep (ctx_done s) a h) as [[|h' o]|] eqn:Hs; simplify_eq; [by left|]. simpl.
    destruct o as [r|]; [|left; by rewrite app_nil_r]. right. exists j, r, h.
    split; [done|]. split; [done|]. by apply gstep_spec in Hs as (_ & _ & _ & Hp & _).
  - left. unfold wstep in H. repeat (split_match_in H; try done).
  - simplify_eq. by left.
Qed.

Lemma quiet_goroutine s s' i g :
  rtc step s s' -> gs s !! i = Some g -> g_pc g = Exited ->
  exists new, reqs s' = reqs s ++ new /\ Forall (fun x => x.1 <> i) new.
Proof.
  intros Hr. revert g. induction Hr as [s|s s1 s2 H1 Hr IH]; intros g Hi Hp.
  - exists []. by rewrite app_nil_r.
  - destruct (step_goroutine _ _ _ _ H1 Hi) as (g1 & Hg1 & _ & _ & _ & Hp1).
    destruct (IH g1 Hg1 (Hp1 Hp)) as (new & Hnew & Hall).
    destruct (step_reqs _ _ H1) as [He|(j & r & h & He & Hj & Hh)]; rewrite He in Hnew; [by exists new|].
    exists ((j, r) :: new). rewrite <- app_assoc in Hnew. split; [done|]. constructor; [|done].
    simpl. intros ->. congruence.
Qed.

(** ** After stopTriggers *)

(** C10. Once [stopTriggers] has returned for a key (the finalizer is still to be
    given up), every goroutine ever started for it is over and its wait group is
    at zero, and in no continuation does one of them make another checkpoint
    request; this holds for any interleaving of goroutines, ticks, other keys and
    the end of the context. *)
Theorem stopTriggers_final s s' k :
  rtc step sys_init s -> workers s !! k = Some WStopped -> rtc step s s' ->
  (forall i g, gs s !! i = Some g -> g_key g = k -> g_pc g = Exited /\ g_wg g = 0) /\
  exists new, reqs s' = reqs s ++ new /\
    forall i r g, (i, r) ∈ new -> gs s !! i = Some g -> g_key g <> k.
Proof.
  intros Hr Hw Hs. pose proof (inv_reachable _ _ inv_init Hr) as Hi.
  assert (forall i g, gs s !! i = Some g -> g_key g = k -> g_pc g = Exited) as Hex.
  { intros i g Hg Hk. destruct (g_pc g) eqn:Hp; try done; exfalso;
      (assert (g_pc g <> Exited) as Hn by congruence);
      pose proof (inv_live s Hi i g Hg Hn) as Ho; unfold owned in Ho; rewrite Hk, Hw in Ho; set_solver. }
  split.
  - intros i g Hg Hk. pose proof (Hex i g Hg Hk) as Hp. split; [done|].
    pose proof (inv_wg s Hi i g Hg) as Hwg. unfold wg_ok in Hwg. by rewrite Hp in Hwg.
  - assert (exists new, reqs s' = reqs s ++ new) as (new & Hnew).
    { clear -Hs. induction Hs as [s|s s1 s2 H1 _ (new & IH)]; [exists []; by rewrite app_nil_r|].
      destruct (step_reqs _ _ H1) as [He|(j & r & h & He & _)]; rewrite IH, He; [by exists new|].
      exists ((j, r) :: new). by rewrite <- app_assoc. }
    exists new. split; [done|]. intros i r g Hin Hg Hk.
    destruct (quiet_goroutine _ _ _ _ Hs Hg (Hex i g Hg Hk)) as (new' & Hnew' & Hall).
    rewrite Hnew in Hnew'. apply app_inv_head in Hnew' as <-.
    rewrite Forall_forall in Hall. by apply (Hall (i, r) Hin).
Qed.

(** ** Panics *)

Lemma step_panic s s' :
  inv s -> step s s' -> panicked s' = true ->
  exists i g, gs s' !! i = Some g /\ NewTicker (poll_interval (g_trigger g)) = None.
Proof.
  intros Hi (l & H) Hp. unfold exec in H. destruct (panicked s) eqn:Hps; [done|]. destruct l as [j a|k a|].
  - destruct (gs s !! j) as [h|] eqn:Hj; [|done].
    destruct (gstep (ctx_done s) a h) as [[|h' o]|] eqn:Hs; simplify_eq/=; [|congruence].
    exists j, h. split; [done|]. unfold gstep in Hs. by repeat (split_match_in Hs; try done).
  - exfalso. unfold wstep in H.
    destruct a; destruct (workers s !! k) as [[spec' todo started|todo|i todo|]|] eqn:Hw; try done;
      repeat (split_match_in H; try congruence); try (simplify_eq/=; congruence).
    match goal with Hc : g_stopCh ?g = true, Hg : gs s !! ?n = Some ?g |- _ =>
      pose proof (inv_unclosed s Hi k n g) as Hu end.
    rewrite Hu in Em0; [done| |done]. unfold to_close, owned. rewrite Hw. set_solver.
  - simplify_eq/=. congruence.
Qed.

(** Closing a closed [stopCh] would panic; it never happens: in every
    reachable state a panic comes from [time.NewTicker] alone, in the goroutine of
    a resource trigger whose configured polling interval is not positive. *)
Theorem only_ticker_panics s :
  rtc step sys_init s -> panicked s = true ->
  exists i g, gs s !! i = Some g /\ tg_kind (g_trigger g) = KResource /\
    resource_interval (tg_spec (g_trigger g)) <= 0.
Proof.
  intros Hr Hp. assert (exists i g, gs s !! i = Some g /\
    NewTicker (poll_interval (g_trigger g)) = None) as (i & g & Hg & Ht).
  { apply rtc_inv_r in Hr as [<-|(s1 & Hr & H1)]; [done|].
    eapply step_panic; eauto. by apply (inv_reachable _ _ inv_init). }
  exists i, g. split; [done|]. unfold poll_interval, NewTicker in Ht.
  destruct (tg_kind (g_trigger g)); [done| |done]. split; [done|].
  destruct (0 <? _) eqn:E; [done|]. by to_prop.
Qed.

(** ** Stop returns *)

(** The actions of the goroutine itself; [Tick] is the runtime's. *)
Definition own_act (a : gact) : bool := match a with Tick => false | _ => true end.
Definition takes_tick (a : gact) : bool := match a with TakeTick _ => true | _ => false end.

(** The actions left before it returns, if the select statement takes no tick. *)
Definition left_to_do (g : goroutine) : nat :=
  match g_pc g with
  | Spawned => 2
  | Selecting => 1
  | Running todo _ => 2 + length todo
  | Exited => 0
  end.

Lemma gstep_progress c g :
  g_stopCh g = true -> g_pc g <> Exited ->
  exists a r, own_act a = true /\ takes_tick a = false /\ gstep c a g = Some r.
Proof.
  intros Hc Hp. destruct (g_pc g) as [| |[|r todo] st|] eqn:E.
  - exists MakeTicker. unfold gstep. rewrite E. by destruct (NewTicker _); eexists.
  - exists TakeStop. unfold gstep. rewrite E, Hc. by eexists.
  - exists RunDone. unfold gstep. rewrite E. by eexists.
  - exists Request. unfold gstep. rewrite E. by eexists.
  - done.
Qed.

Lemma gstep_measure c a g g' o :
  gstep c a g = Some (GStep g' o) -> takes_tick a = false ->
  (if own_act a then left_to_do g' < left_to_do g else left_to_do g' = left_to_do g)%nat.
Proof.
  unfold gstep, left_to_do. intros H Ht. destruct a; try done;
    repeat (split_match_in H; try done); simpl; rewrite ?Em; simpl; lia.
Qed.

(** One step of the system seen from goroutine [i]. *)
Definition steps_of (i : nat) (l : label) : bool :=
  match l with LGo j a => bool_decide (i = j) && own_act a | _ => false end.
Definition takes_tick_of (i : nat) (l : label) : bool :=
  match l with LGo j a => bool_decide (i = j) && takes_tick a | _ => false end.

Lemma exec_measure l s s' i g :
  exec l s = Some s' -> panicked s' = false -> takes_tick_of i l = false -> gs s !! i = Some g ->
  exists g', gs s' !! i = Some g' /\
    (if steps_of i l then left_to_do g' < left_to_do g else left_to_do g' = left_to_do g)%nat.
Proof.
  intros H Hnp Ht Hi. unfold exec in H. destruct (panicked s); [done|]. destruct l as [j a|k a|]; simpl in Ht.
  - destruct (gs s !! j) as [h|] eqn:Hj; [|done].
    destruct (gstep (ctx_done s) a h) as [[|h' o]|] eqn:Hs; simplify_eq. simpl.
    destruct (decide (i = j)) as [->|Hne].
    + simplify_eq. rewrite bool_decide_eq_true_2 in * by done. simpl in *. exists h'.
      rewrite list_lookup_insert_eq by (by eapply lookup_lt_Some).
      split; [done|]. by eapply gstep_measure.
    + rewrite bool_decide_eq_false_2 by done. exists g. by rewrite list_lookup_insert_ne.
  - simpl. unfold wstep in H. repeat (split_match_in H; try done); try (by exists g).
    + exists g. split; [by apply lookup_app_l_Some|done].
    + match goal with |- context [<[?n := _]> _] => destruct (decide (n = i)) as [->|Hne] end.
      * simplify_eq. eexists. rewrite list_lookup_insert_eq by (by eapply lookup_lt_Some). done.
      * exists g. by rewrite list_lookup_insert_ne.
  - simplify_eq. by exists g.
Qed.

(** An infinite execution, and what it has to grant a goroutine that is told to
    stop: it is scheduled until it returns, and the select statement, which picks
    at random among the ready cases, does not take the tick for ever. *)
Definition execution (σ : nat -> sys) (ls : nat -> label) : Prop :=
  forall n, exec (ls n) (σ n) = Some (σ (S n)).

Definition over (i : nat) (s : sys) : Prop := exists g, gs s !! i = Some g /\ g_pc g = Exited.

Definition scheduled (i : nat) (σ : nat -> sys) (ls : nat -> label) : Prop :=
  forall n, exists m, (n <= m)%nat /\ (steps_of i (ls m) = true \/ over i (σ m)).

Definition select_fair (i : nat) (ls : nat -> label) : Prop :=
  exists N, forall n, (N <= n)%nat -> takes_tick_of i (ls n) = false.

Lemma execution_running σ ls n : execution σ ls -> panicked (σ n) = false.
Proof. intros He. specialize (He n). unfold exec in He. by destruct (panicked (σ n)). Qed.

Lemma execution_rtc σ ls n m : execution σ ls -> (n <= m)%nat -> rtc step (σ n) (σ m).
Proof.
  intros He. induction 1 as [|m Hm IH]; [done|]. eapply rtc_r; [done|]. exists (ls m). apply He.
Qed.

(** Between two points without taken ticks the actions left do not grow, and an
    action of the goroutine makes them fewer. *)
Lemma execution_measure σ ls i n m g :
  execution σ ls -> (forall j, (n <= j)%nat -> takes_tick_of i (ls j) = false) ->
  (n <= m)%nat -> gs (σ n) !! i = Some g ->
  exists g', gs (σ m) !! i = Some g' /\ (left_to_do g' <= left_to_do g)%nat /\
    forall g2, gs (σ (S m)) !! i = Some g2 -> steps_of i (ls m) = true -> (left_to_do g2 < left_to_do g)%nat.
Proof.
  intros He Ht Hm Hg.
  assert (exists g', gs (σ m) !! i = Some g' /\ (left_to_do g' <= left_to_do g)%nat) as (g' & Hg' & Hle).
  { induction Hm as [|m Hm (g' & Hg' & Hle)]; [eauto|].
    destruct (exec_measure _ _ _ _ _ (He m) (execution_running _ _ _ He) (Ht m Hm) Hg') as (g2 & Hg2 & Hlt).
    exists g2. split; [done|]. destruct (steps_of i (ls m)); lia. }
  exists g'. split; [done|]. split; [done|]. intros g2 Hg2 Hs.
  destruct (exec_measure _ _ _ _ _ (He m) (execution_running _ _ _ He) (Ht m Hm) Hg') as (g3 & Hg3 & Hlt).
  rewrite Hs in Hlt. simplify_eq. lia.
Qed.

Lemma eventually_over σ ls i N n g :
  execution σ ls -> scheduled i σ ls -> (forall j, (N <= j)%nat -> takes_tick_of i (ls j) = false) ->
  (N <= n)%nat -> gs (σ n) !! i = Some g -> exists m, (n <= m)%nat /\ over i (σ m).
Proof.
  intros He Hs Ht. remember (left_to_do g) as d eqn:Hd. revert n g Hd.
  induction d as [d IH] using lt_wf_ind. intros n g -> Hn Hg.
  destruct (Hs n) as (m & Hm & [Hst|Ho]); [|eauto].
  destruct (execution_measure σ ls i n m g He) as (g' & Hg' & Hle & Hlt); [intros j Hj; apply Ht; lia|done..|].
  destruct (exec_measure _ _ _ _ _ (He m) (execution_running _ _ _ He) (Ht m ltac:(lia)) Hg') as (g2 & Hg2 & _).
  destruct (IH _ (Hlt g2 Hg2 Hst) (S m) g2 eq_refl) as (p & Hp & Hover); [lia|done|].
  exists p. split; [lia|done].
Qed.

(** C22. [Stop] returns.  Take any infinite execution of the system from a reachable
    state in which the [stopCh] of goroutine [i] is closed.  Until the goroutine is
    over it always has an action of its own that is possible, whatever the other
    goroutines, workers and ticks do; so if it is scheduled and the select
    statement does not take the tick for ever, there is a point from which it is
    over for good, and there the worker that waits for it can go on. *)
Theorem Stop_returns σ ls i g :
  rtc step sys_init (σ 0%nat) -> execution σ ls -> gs (σ 0%nat) !! i = Some g -> g_stopCh g = true ->
  (forall n, over i (σ n) \/ exists a s', own_act a = true /\ takes_tick a = false /\
                                          exec (LGo i a) (σ n) = Some s') /\
  (scheduled i σ ls -> select_fair i ls ->
   exists n, forall m, (n <= m)%nat -> over i (σ m) /\
     forall k todo, workers (σ m) !! k = Some (WWait i todo) ->
       exec (LWork k Wait) (σ m) = Some (with_worker (σ m) k (WStop todo))).
Proof.
  intros Hr He Hg Hc. split.
  - intros n. destruct (steps_goroutine _ _ _ _ (execution_rtc σ ls 0 n He ltac:(lia)) Hg)
      as (gn & Hgn & _ & _ & Hcn & _). specialize (Hcn Hc).
    destruct (decide (left_to_do gn = 0%nat)) as [Hz|Hz].
    { left. exists gn. split; [done|]. unfold left_to_do in Hz. by destruct (g_pc gn). }
    right. destruct (gstep_progress (ctx_done (σ n)) gn Hcn) as (a & r & Ho & Ht & Hgs).
    { intros Hp. unfold left_to_do in Hz. by rewrite Hp in Hz. }
    exists a. unfold exec. rewrite (execution_running _ _ _ He), Hgn, Hgs. destruct r; eauto.
  - intros Hs (N & HN).
    destruct (steps_goroutine _ _ _ _ (execution_rtc σ ls 0 N He ltac:(lia)) Hg) as (gN & HgN & _).
    destruct (eventually_over σ ls i N N gN He Hs HN (le_n N) HgN) as (n & _ & gn & Hgn & Hpn).
    exists n. intros m Hm.
    destruct (steps_goroutine _ _ _ _ (execution_rtc σ ls n m He Hm) Hgn) as (gm & Hgm & _ & _ & _ & Hpm).
    specialize (Hpm Hpn). split; [by exists gm|]. intros k todo Hw.
    unfold exec, wstep. rewrite (execution_running _ _ _ He), Hw, Hgm.
    assert (inv (σ m)) as Hi.
    { apply (inv_reachable _ _ inv_init). etrans; [exact Hr|]. apply (execution_rtc σ ls); [done|lia]. }
    pose proof (inv_wg _ Hi i gm Hgm) as Hwg. unfold wg_ok in Hwg. by rewrite Hpm in Hwg; rewrite Hwg.
Qed.

(** ** The table of [Schedule.v] *)

(** The triggers of [activeTriggers] as [Schedule.v] keeps them. *)
Definition triggers_of (s : sys) (ids : list nat) : list trigger :=
  omap (fun i => option_map g_trigger (gs s !! i)) ids.
Definition trigger_table (s : sys) : gmap string (list trigger) := fmap (triggers_of s) (active s).

Lemma table_evolves s s' ids :
  evolves s s' -> Forall (fun i => (i < length (gs s))%nat) ids ->
  triggers_of s' ids = triggers_of s ids.
Proof.
  unfold triggers_of. intros He. induction 1 as [|i ids Hi _ IH]; [done|]. simpl.
  apply lookup_lt_is_Some in Hi as (h & Hh). destruct (He i h Hh) as (h' & -> & _ & Ht & _).
  rewrite Hh. simpl. rewrite Ht. f_equal. exact IH.
Qed.

Lemma step_evolves s s' : step s s' -> evolves s s'.
Proof.
  intros Hs j h Hj. destruct (step_goroutine _ _ _ _ Hs Hj) as (h' & ? & ? & ? & ? & _). by exists h'.
Qed.

Lemma table_same s s' : inv s -> step s s' -> active s' = active s -> trigger_table s' = trigger_table s.
Proof.
  intros Hi Hs Ha. unfold trigger_table. rewrite Ha. apply map_fmap_ext. intros k ids Hk.
  apply table_evolves; [by apply step_evolves|]. apply Forall_forall. intros i Hin.
  apply (inv_active s Hi k). by rewrite Hk.
Qed.


(** ** A concrete run *)

Lemma exec_all_rtc ls s s' : exec_all ls s = Some s' -> rtc step s s'.
Proof.
  revert s. induction ls as [|l ls IH]; simpl; intros s H; [by simplify_eq|].
  destruct (exec l s) as [s1|] eqn:E; [|done]. eapply rtc_l; [by exists l|]. by apply IH.
Qed.

Definition demo_env : poll_env :=
  {| pe_outcome := demo_outcome; pe_api := demo_api; pe_nodes := Ok [("n1", true)]; pe_iter := elements;
     pe_client := true; pe_metrics := fun _ => None; pe_ParseQuantity := fun _ => None; pe_clock := fun _ => 0 |}.

(** The schedule of [demo_schedule] has an annotation and an event trigger; the
    event trigger polls while the schedule is deleted, and has one request left
    when its channel is closed. *)
Definition demo_start : list label :=
  let k := "ns/s" in
  [ LWork k (Reconcile_live (cs_Spec (demo_schedule false))); LWork k StartOne; LWork k StartOne;
    LGo 1 MakeTicker; LWork k Store; LGo 1 Tick; LGo 1 (TakeTick demo_env);
    LWork k Reconcile_deleted; LWork k Close; LGo 0 MakeTicker; LGo 0 TakeStop; LWork k Wait;
    LWork k Close ].
Definition demo_finish : list label :=
  let k := "ns/s" in
  [ LGo 1 Request; LGo 1 RunDone; LGo 1 TakeStop; LWork k Wait; LWork k Unlock ].

Definition demo_sys (ls : list label) : sys := default sys_init (exec_all ls sys_init).

Lemma demo_sys_rtc ls : rtc step sys_init (demo_sys ls).
Proof.
  unfold demo_sys. destruct (exec_all ls sys_init) as [s|] eqn:E; simpl; [|done]. by eapply exec_all_rtc.
Qed.

Lemma stopTriggers_final_witness :
  let s := demo_sys (demo_start ++ demo_finish) in
  length (reqs s) = 1%nat /\ map (fun g => g_wg g) (gs s) = [0; 0] /\
  forall i g, gs s !! i = Some g -> g_key g = "ns/s" -> g_pc g = Exited /\ g_wg g = 0.
Proof.
  intros s. split; [by vm_compute|]. split; [by vm_compute|].
  apply (stopTriggers_final s s "ns/s"); [apply demo_sys_rtc|by vm_compute|done].
Defined.

Definition demo_resource_spec : CheckpointScheduleSpec :=
  {| cs_Namespace := "team"; cs_Selector := {| MatchLabels := ∅; MatchExpressions := [] |};
     cs_ContainerNames := [];
     cs_Triggers := {| tr_Interval := None;
                       ResourceThreshold := Some {| MemoryPercent := None; CPUPercent := None;
                                                    PollIntervalSeconds := Some 0 |};
                       OnKubernetesEvents := []; OnAnnotation := false |} |}.

Lemma only_ticker_panics_witness :
  let s := demo_sys [LWork "ns/r" (Reconcile_live demo_resource_spec); LWork "ns/r" StartOne; LGo 0 MakeTicker] in
  panicked s = true /\
  exists i g, gs s !! i = Some g /\ tg_kind (g_trigger g) = KResource /\
    resource_interval (tg_spec (g_trigger g)) <= 0.
Proof.
  intros s. split; [by vm_compute|]. apply (only_ticker_panics s); [apply demo_sys_rtc|by vm_compute].
Defined.


(** The run goes on for ever with the manager's context ending. *)
Definition demo_label (n : nat) : label := nth n demo_finish LCancel.
Fixpoint demo_exec (n : nat) : sys :=
  match n with
  | O => demo_sys demo_start
  | S n => default sys_init (exec (demo_label n) (demo_exec n))
  end.

Lemma demo_exec_running n : (5 <= n)%nat ->
  demo_label n = LCancel /\ panicked (demo_exec n) = false /\ over 1 (demo_exec n).
Proof.
  intros Hn. assert (forall n, (5 <= n)%nat -> demo_label n = LCancel) as Hl.
  { intros m Hm. unfold demo_label. by rewrite nth_overflow by (vm_compute; lia). }
  split; [by apply Hl|]. induction Hn as [|n Hn [IH1 IH2]].
  - split; [by vm_compute|]. eexists. by split; vm_compute.
  - simpl. rewrite Hl by done. unfold exec. rewrite IH1. simpl. by rewrite IH1.
Qed.

Lemma demo_execution : execution demo_exec demo_label.
Proof.
  intros n. destruct (decide (5 <= n)%nat) as [Hn|Hn].
  - destruct (demo_exec_running n Hn) as (Hl & Hp & _). simpl. rewrite Hl. unfold exec. by rewrite Hp.
  - do 5 (destruct n as [|n]; [by vm_compute|]). lia.
Qed.

Lemma Stop_returns_witness :
  exists n, forall m, (n <= m)%nat -> over 1 (demo_exec m).
Proof.
  destruct (Stop_returns demo_exec demo_label 1
              (default (Start "" {| tg_kind := KEvent; tg_spec := demo_resource_spec |})
                 (gs (demo_exec 0) !! 1%nat))) as [_ H].
  - apply demo_sys_rtc.
  - apply demo_execution.
  - by vm_compute.
  - by vm_compute.
  - destruct H as (n & Hn).
    + intros n. exists (5 + n)%nat. split; [lia|]. right. by apply demo_exec_running; lia.
    + exists 5%nat. intros n Hn. by destruct (demo_exec_running n Hn) as (-> & _).
    + exists n. intros m Hm. by apply (Hn m Hm).
Defined.
