(* ===== verification/PodRestore.v ===== *)
(** * The PodRestore controller ([podrestore_controller.go])

    Reconciliation of one PodRestore: validation, pinning of the source archives,
    rendering and creation of the restore Pod, and the status conditions.  The
    API server holds the PodRestore, the nodes and the pods; every API call may
    fail as the fault oracle says.  The pin markers are those of [Pinning].
    [SetControllerReference] on a fresh Pod is taken to succeed (its only failure
    is an unregistered type). *)

From S2P Require Import Prelude GoStrings GoJson GoPath Kube GoSystem Api Admission Pinning Archive CriProxy.
Open Scope string_scope.
Open Scope list_scope.
Open Scope Z_scope.

Definition podRestoreFinalizer : string := "criu.org/pod-restore-finalizer".
Definition podRestoreLabel : string := "restore.criu.org/pod-restore".

(** [%q] of a name without special characters. *)
Definition quoted (s : string) : string := String dquote (s +:+ String dquote "").

(** [PodRestoreReconciler]'s settings. *)
Record reconciler := {
  rc_CheckpointDir : string;
  rc_AllowCrossNamespace : bool
}.

Inductive spec_error :=
| ReservedAnnotation (key : string)
| BadPath (container : string) (e : PathError)
| NotInTemplate (container : string)
| NoBaseImage (container : string) (e : ArchiveError).

(** ** Validation *)

Fixpoint validate_checkpoints (r : reconciler) (ns : string) (inTemplate : list string)
    (cps : list ContainerCheckpoint) : result spec_error unit :=
  match cps with
  | [] => Ok tt
  | cp :: cps' =>
      try! _ := map_err (BadPath (cc_Container cp))
                  (ValidateCheckpointPathInDir (cc_Path cp) (rc_CheckpointDir r)) in
      try! _ := (if rc_AllowCrossNamespace r then Ok tt
                 else map_err (BadPath (cc_Container cp)) (ValidateCheckpointNamespaceHint (cc_Path cp) ns)) in
      if negb (existsb (String.eqb (cc_Container cp)) inTemplate)
      then Err (NotInTemplate (cc_Container cp))
      else validate_checkpoints r ns inTemplate cps'
  end.

(** The annotations are visited in an unspecified order. *)
Definition validateSpec (r : reconciler) (pr : PodRestore) : result spec_error unit :=
  match List.find (fun kv => HasPrefix kv.1 RestoreCheckpointPathAnnotationPrefix)
          (map_to_list (default ∅ (t_Annotations (Template (pr_Spec pr))))) with
  | Some (key, _) => Err (ReservedAnnotation key)
  | None => validate_checkpoints r (pr_Namespace pr)
              (c_name <$> Containers (t_Spec (Template (pr_Spec pr)))) (Checkpoints (pr_Spec pr))
  end.

(** ** Rendering *)

Fixpoint containerIndex (containers : list Container) (name : string) : option nat :=
  match containers with
  | [] => None
  | c :: cs => if (c_name c =? name)%string then Some 0%nat else S <$> containerIndex cs name
  end.

Definition copyStringMap (m : option (gmap string string)) : option (gmap string string) :=
  match m with None => None | Some out => Some out end.

Section Controller.
Context (env : ArchiveEnv).

Definition readCheckpointBaseImage (now : Time) (fs : FS) (checkpointPath : string)
  : result ArchiveError string := ReadBaseImage env now fs checkpointPath.

(** The loop over the checkpoints: annotations and containers so far. *)
Fixpoint render_checkpoints (now : Time) (fs : FS) (cps : list ContainerCheckpoint)
    (ann : gmap string string) (cs : list Container)
  : result spec_error (gmap string string * list Container) :=
  match cps with
  | [] => Ok (ann, cs)
  | cp :: cps' =>
      match containerIndex cs (cc_Container cp) with
      | None => Err (NotInTemplate (cc_Container cp))
      | Some idx =>
          let ann := <[RestoreCheckpointPathAnnotationPrefix +:+ cc_Container cp := cc_Path cp]> ann in
          match cs !! idx with
          | None => Err (NotInTemplate (cc_Container cp))
          | Some c =>
              if (c_image c =? "")%string then
                try! img := map_err (NoBaseImage (cc_Container cp))
                              (readCheckpointBaseImage now fs (cc_Path cp)) in
                render_checkpoints now fs cps' ann
                  (<[idx := {| c_name := c_name c; c_image := img; c_limits := c_limits c |}]> cs)
              else render_checkpoints now fs cps' ann cs
          end
      end
  end.

Definition renderPod (now : Time) (fs : FS) (pr : PodRestore) : result spec_error Pod :=
  let tpl := Template (pr_Spec pr) in
  let labels := default ∅ (copyStringMap (t_Labels tpl)) in
  try! (ann, cs) := render_checkpoints now fs (Checkpoints (pr_Spec pr))
                      (default ∅ (copyStringMap (t_Annotations tpl))) (Containers (t_Spec tpl)) in
  Ok {| p_name := pr_Name pr; p_namespace := pr_Namespace pr; p_annotations := ann;
        p_labels := <[podRestoreLabel := pr_Name pr]> labels;
        controller_uid := Some (pr_UID pr); p_deleting := false;
        p_spec := {| NodeName := TargetNode (pr_Spec pr); Containers := cs |};
        p_phase := PodPending; p_reason := ""; p_message := ""; p_conditions := [] |}.

(** ** Status *)

#[export] Instance PodRestoreStatus_eq_dec : EqDecision PodRestoreStatus.
Proof. solve_decision. Defined.

Definition set_condition (now : Time) (pr : PodRestore) (c : Condition) : PodRestore :=
  {| pr_Name := pr_Name pr; pr_Namespace := pr_Namespace pr; pr_UID := pr_UID pr;
     pr_Generation := pr_Generation pr; pr_Deleting := pr_Deleting pr; pr_Finalizers := pr_Finalizers pr;
     pr_Spec := pr_Spec pr;
     pr_Status := {| pr_Conditions := SetStatusCondition now (pr_Conditions (pr_Status pr)) c;
                     pr_PodName := pr_PodName (pr_Status pr);
                     pr_ObservedGeneration := pr_ObservedGeneration (pr_Status pr) |} |}.

Definition setReady (now : Time) (pr : PodRestore) (status : ConditionStatus) (reason message : string)
  : PodRestore :=
  set_condition now pr {| Type_ := ConditionReady; Status_ := status; CondGeneration := pr_Generation pr;
                          LastTransitionTime := 0; Reason := reason; Message := message |}.

Definition setPinned (now : Time) (pr : PodRestore) (status : ConditionStatus) (reason message : string)
  : PodRestore :=
  set_condition now pr {| Type_ := ConditionCheckpointsPinned; Status_ := status;
                          CondGeneration := pr_Generation pr;
                          LastTransitionTime := 0; Reason := reason; Message := message |}.

Definition set_status (pr : PodRestore) (s : PodRestoreStatus) : PodRestore :=
  {| pr_Name := pr_Name pr; pr_Namespace := pr_Namespace pr; pr_UID := pr_UID pr;
     pr_Generation := pr_Generation pr; pr_Deleting := pr_Deleting pr; pr_Finalizers := pr_Finalizers pr;
     pr_Spec := pr_Spec pr; pr_Status := s |}.

Definition set_podname (pr : PodRestore) (n : string) : PodRestore :=
  set_status pr {| pr_Conditions := pr_Conditions (pr_Status pr); pr_PodName := n;
                   pr_ObservedGeneration := pr_ObservedGeneration (pr_Status pr) |}.

Definition set_pr_finalizers (pr : PodRestore) (fs : list string) : PodRestore :=
  {| pr_Name := pr_Name pr; pr_Namespace := pr_Namespace pr; pr_UID := pr_UID pr;
     pr_Generation := pr_Generation pr; pr_Deleting := pr_Deleting pr; pr_Finalizers := fs;
     pr_Spec := pr_Spec pr; pr_Status := pr_Status pr |}.

(** ** The world *)

Record pr_world := {
  w_obj : option PodRestore;
  w_nodes : gset string;
  w_pods : gmap (string * string) Pod;
  w_fs : FS;
  w_calls : nat;
  w_writes : nat          (* status writes the server accepted *)
}.

Context (faults : nat -> option apierror).

Definition tick (w : pr_world) : option apierror * pr_world :=
  (faults (w_calls w),
   {| w_obj := w_obj w; w_nodes := w_nodes w; w_pods := w_pods w; w_fs := w_fs w;
      w_calls := S (w_calls w); w_writes := w_writes w |}).

Definition with_fs (w : pr_world) (fs : FS) : pr_world :=
  {| w_obj := w_obj w; w_nodes := w_nodes w; w_pods := w_pods w; w_fs := fs;
     w_calls := w_calls w; w_writes := w_writes w |}.

(** One API call: an error of the server, or [f] on the world. *)
Definition api_call {A} (w : pr_world) (f : pr_world -> result apierror A * pr_world)
  : result apierror A * pr_world :=
  let '(e, w) := tick w in
  match e with Some e => (Err e, w) | None => f w end.

Definition api_get {A} (read : pr_world -> option A) (w : pr_world) : result apierror A * pr_world :=
  api_call w (fun w => (match read w with Some x => Ok x | None => Err NotFound end, w)).

(** A merge patch of [metadata.finalizers] only. *)
Definition patch_finalizers (pr : PodRestore) (fins : list string) (w : pr_world)
  : result apierror unit * pr_world :=
  api_call w (fun w =>
    match w_obj w with
    | None => (Err NotFound, w)
    | Some o =>
        (Ok tt, {| w_obj := if pr_Deleting o && (length fins =? 0)%nat then None
                            else Some (set_pr_finalizers o fins);
                   w_nodes := w_nodes w; w_pods := w_pods w; w_fs := w_fs w;
                   w_calls := w_calls w; w_writes := w_writes w |})
    end).

Definition create_pod (p : Pod) (w : pr_world) : result apierror Pod * pr_world :=
  api_call w (fun w =>
    let key := (p_namespace p, p_name p) in
    match w_pods w !! key with
    | Some _ => (Err AlreadyExists, w)
    | None => (Ok p, {| w_obj := w_obj w; w_nodes := w_nodes w; w_pods := <[key := p]> (w_pods w);
                        w_fs := w_fs w; w_calls := w_calls w; w_writes := w_writes w |})
    end).

(** Times are stored in seconds. *)
Definition stored_condition (c : Condition) : Condition :=
  {| Type_ := Type_ c; Status_ := Status_ c; CondGeneration := CondGeneration c;
     LastTransitionTime := stored_time (LastTransitionTime c); Reason := Reason c; Message := Message c |}.

Definition stored_status (s : PodRestoreStatus) : PodRestoreStatus :=
  {| pr_Conditions := stored_condition <$> pr_Conditions s; pr_PodName := pr_PodName s;
     pr_ObservedGeneration := pr_ObservedGeneration s |}.

Definition update_status (pr : PodRestore) (w : pr_world) : result apierror unit * pr_world :=
  api_call w (fun w =>
    match w_obj w with
    | None => (Err NotFound, w)
    | Some o =>
        (Ok tt, {| w_obj := Some (set_status o (stored_status (pr_Status pr)));
                   w_nodes := w_nodes w; w_pods := w_pods w; w_fs := w_fs w;
                   w_calls := w_calls w; w_writes := S (w_writes w) |})
    end).

Definition saveStatus (pr : PodRestore) (before : PodRestoreStatus) (result : Result) (w : pr_world)
  : Result * option apierror * pr_world :=
  let pr := set_status pr {| pr_Conditions := pr_Conditions (pr_Status pr);
                             pr_PodName := pr_PodName (pr_Status pr);
                             pr_ObservedGeneration := pr_Generation pr |} in
  if bool_decide (before = pr_Status pr) then (result, None, w)
  else match update_status pr w with
       | (Err e, w) => (no_requeue, Some e, w)
       | (Ok _, w) => (result, None, w)
       end.

(** ** Reconcile *)

Context (show : spec_error -> string).   (* [err.Error()] *)

Definition pin_all (now : Time) (owner : string) (cps : list ContainerCheckpoint) (fs : FS) : bool * FS :=
  fold_left (fun '(all, fs) cp =>
               let '(ok, fs) := pinCheckpoint now fs (cc_Path cp) owner in
               (if ok then all else false, fs)) cps (true, fs).

Definition unpin_all (now : Time) (owner : string) (cps : list ContainerCheckpoint) (fs : FS) : FS :=
  fold_left (fun fs cp => unpinCheckpoint now fs (cc_Path cp) owner) cps fs.

Definition reconcile_deletion (now : Time) (pr : PodRestore) (w : pr_world)
  : Result * option apierror * pr_world :=
  if ContainsFinalizer (pr_Finalizers pr) podRestoreFinalizer then
    let w := with_fs w (unpin_all now (podRestoreOwnerKey pr) (Checkpoints (pr_Spec pr)) (w_fs w)) in
    match patch_finalizers pr (RemoveFinalizer (pr_Finalizers pr) podRestoreFinalizer) w with
    | (Err e, w) => (no_requeue, Some e, w)
    | (Ok _, w) => (no_requeue, None, w)
    end
  else (no_requeue, None, w).

(** Map the state of the restore Pod onto the status. *)
Definition observe_pod (now : Time) (pr : PodRestore) (before : PodRestoreStatus) (p : Pod) (w : pr_world)
  : Result * option apierror * pr_world :=
  if negb (bool_decide (controller_uid p = Some (pr_UID pr))) then
    saveStatus (setReady now pr ConditionFalse "PodConflict"
                  ("a Pod named " +:+ quoted (p_name p) +:+ " already exists and is not owned by this PodRestore"))
      before no_requeue w
  else
    let pr := set_podname pr (p_name p) in
    match p_phase p with
    | PodRunning | PodSucceeded =>
        saveStatus (setReady now pr ConditionTrue "Restored" "Restored Pod is running") before no_requeue w
    | PodFailed =>
        let reason := if (p_reason p =? "")%string then "the restore Pod entered the Failed phase"
                      else p_reason p in
        saveStatus (setReady now pr ConditionFalse "PodFailed" reason) before no_requeue w
    | _ =>
        saveStatus (setReady now pr ConditionFalse "Restoring" "Restore Pod is not yet running")
          before (requeue_after (3 * Second)) w
    end.

(** Get or create the restore Pod, then observe it. *)
Definition ensure_pod (now : Time) (pr : PodRestore) (before : PodRestoreStatus) (w : pr_world)
  : Result * option apierror * pr_world :=
  let key := (pr_Namespace pr, pr_Name pr) in
  let '(g, w) := api_get (fun w => w_pods w !! key) w in
  match g with
  | Err NotFound =>
      if negb (pr_PodName (pr_Status pr) =? "")%string then
        saveStatus (setReady now pr ConditionFalse "PodMissing" "restore Pod disappeared") before no_requeue w
      else
        match renderPod now (w_fs w) pr with
        | Err rerr =>
            saveStatus (setReady now pr ConditionFalse "RenderFailed" (show rerr))
              before (requeue_after (30 * Second)) w
        | Ok newPod =>
            let '(c, w) := create_pod newPod w in
            match c with
            | Ok p => observe_pod now pr before p w
            | Err AlreadyExists =>
                let '(g2, w) := api_get (fun w => w_pods w !! key) w in
                match g2 with
                | Err gerr => (no_requeue, Some gerr, w)
                | Ok p => observe_pod now pr before p w
                end
            | Err cerr => (no_requeue, Some cerr, w)
            end
        end
  | Err e => (no_requeue, Some e, w)
  | Ok p => observe_pod now pr before p w
  end.

Definition pin_and_restore (now : Time) (pr : PodRestore) (before : PodRestoreStatus) (w : pr_world)
  : Result * option apierror * pr_world :=
  let '(pinnedAll, fs) := pin_all now (podRestoreOwnerKey pr) (Checkpoints (pr_Spec pr)) (w_fs w) in
  let w := with_fs w fs in
  let pr := if pinnedAll
            then setPinned now pr ConditionTrue "Pinned" "Source checkpoints pinned against retention GC"
            else setPinned now pr ConditionFalse "PinNotEnforced"
                   ("Checkpoint archive is not reachable from the operator; pinning against retention GC is not enforced. Ensure the checkpoint is retained on "
                    +:+ TargetNode (pr_Spec pr) +:+ " for the duration of the restore.") in
  ensure_pod now pr before w.

Definition Reconcile (r : reconciler) (now : Time) (w : pr_world) : Result * option apierror * pr_world :=
  let '(g, w) := api_get w_obj w in
  match g with
  | Err e => (no_requeue, if IsNotFound e then None else Some e, w)
  | Ok pr =>
      if pr_Deleting pr then reconcile_deletion now pr w
      else if negb (ContainsFinalizer (pr_Finalizers pr) podRestoreFinalizer) then
        match patch_finalizers pr (AddFinalizer (pr_Finalizers pr) podRestoreFinalizer) w with
        | (Err e, w) => (no_requeue, Some e, w)
        | (Ok _, w) => (no_requeue, None, w)
        end
      else
        let before := pr_Status pr in
        match validateSpec r pr with
        | Err err => saveStatus (setReady now pr ConditionFalse "InvalidSpec" (show err)) before no_requeue w
        | Ok _ =>
            let '(n, w) := api_get (fun w => if bool_decide (TargetNode (pr_Spec pr) ∈ w_nodes w)
                                             then Some tt else None) w in
            match n with
            | Err e => if IsNotFound e then
                         saveStatus (setReady now pr ConditionFalse "NodeNotFound"
                                       ("target node " +:+ quoted (TargetNode (pr_Spec pr)) +:+ " not found"))
                           before (requeue_after (30 * Second)) w
                       else (no_requeue, Some e, w)
            | Ok _ => pin_and_restore now pr before w
            end
        end
  end.
End Controller.

(** ** Validation and rendering *)

(** What the validation of one checkpoint establishes. *)
Definition checkpoint_ok (r : reconciler) (ns : string) (names : list string) (cp : ContainerCheckpoint) : Prop :=
  ValidateCheckpointPathInDir (cc_Path cp) (rc_CheckpointDir r) = Ok tt /\
  (rc_AllowCrossNamespace r = true \/ ValidateCheckpointNamespaceHint (cc_Path cp) ns = Ok tt) /\
  cc_Container cp ∈ names.

Lemma existsb_eqb_elem x l : existsb (String.eqb x) l = true <-> x ∈ l.
Proof.
  rewrite existsb_exists, list_elem_of_In. split.
  - intros (y & Hy & He). to_prop. by subst.
  - intros H. exists x. by rewrite String.eqb_refl.
Qed.

Lemma validate_checkpoints_spec r ns names cps :
  validate_checkpoints r ns names cps = Ok tt <-> Forall (checkpoint_ok r ns names) cps.
Proof.
  induction cps as [|cp cps IH]; simpl; [split; [constructor|done]|].
  rewrite Forall_cons, <- IH. unfold checkpoint_ok. rewrite <- existsb_eqb_elem.
  destruct (ValidateCheckpointPathInDir _ _) as [[]|e]; simpl; [|split; [done|by intros [[? _] _]]].
  destruct (rc_AllowCrossNamespace r); simpl.
  - destruct (existsb _ names); simpl; [split; [auto|tauto]|split; [done|by intros [(_ & _ & ?) _]]].
  - destruct (ValidateCheckpointNamespaceHint _ _) as [[]|e]; simpl.
    + destruct (existsb _ names); simpl; [split; [auto|tauto]|split; [done|by intros [(_ & _ & ?) _]]].
    + split; [done|]. intros [(_ & [?|?] & _) _]; done.
Qed.

Definition template_annotations (pr : PodRestore) : gmap string string :=
  default ∅ (t_Annotations (Template (pr_Spec pr))).
Definition template_names (pr : PodRestore) : list string :=
  c_name <$> Containers (t_Spec (Template (pr_Spec pr))).

(** Validation succeeds exactly on specs with no reserved annotation and only
    acceptable checkpoints. *)
Lemma validateSpec_spec r pr :
  validateSpec r pr = Ok tt <->
  (forall k v, template_annotations pr !! k = Some v ->
     HasPrefix k RestoreCheckpointPathAnnotationPrefix = false) /\
  Forall (checkpoint_ok r (pr_Namespace pr) (template_names pr)) (Checkpoints (pr_Spec pr)).
Proof.
  unfold validateSpec. fold (template_annotations pr) (template_names pr).
  destruct (List.find _ _) as [[k v]|] eqn:E.
  - apply find_some in E as [Hin Hp]. apply list_elem_of_In, elem_of_map_to_list in Hin.
    split; [done|]. intros [H _]. apply H in Hin. simpl in Hp. congruence.
  - rewrite validate_checkpoints_spec. split; [|tauto]. intros H. split; [|done].
    intros k v Hk. apply elem_of_map_to_list, list_elem_of_In in Hk.
    apply (find_none _ _ E) in Hk. done.
Qed.

Lemma render_annotations env now fs cps ann cs ann' cs' :
  render_checkpoints env now fs cps ann cs = Ok (ann', cs') ->
  (forall k v, ann' !! k = Some v ->
     ann !! k = Some v \/
     exists cp, cp ∈ cps /\ k = RestoreCheckpointPathAnnotationPrefix +:+ cc_Container cp /\ v = cc_Path cp) /\
  (forall cp, cp ∈ cps -> is_Some (ann' !! (RestoreCheckpointPathAnnotationPrefix +:+ cc_Container cp))) /\
  (forall k, is_Some (ann !! k) -> is_Some (ann' !! k)) /\
  c_name <$> cs' = c_name <$> cs.
Proof.
  revert ann cs. induction cps as [|cp cps IH]; intros ann cs H; simpl in H.
  { simplify_eq. split; [auto|]. split; [by intros cp ?%elem_of_nil|done]. }
  destruct (containerIndex cs (cc_Container cp)) as [idx|] eqn:Ei; [|done].
  destruct (cs !! idx) as [c|] eqn:Ec; [|done].
  assert (exists cs1, render_checkpoints env now fs cps
            (<[RestoreCheckpointPathAnnotationPrefix +:+ cc_Container cp := cc_Path cp]> ann) cs1 = Ok (ann', cs') /\
          c_name <$> cs1 = c_name <$> cs) as (cs1 & Hr & Hn).
  { destruct (c_image c =? "")%string; [|eauto]. destruct (readCheckpointBaseImage _ _ _ _) as [img|]; simpl in H; [|done].
    eexists. split; [exact H|]. rewrite list_fmap_insert. simpl. apply list_insert_id.
    by rewrite list_lookup_fmap, Ec. }
  apply IH in Hr as (H1 & H2 & H3 & H4). split_and!.
  - intros k v Hk. destruct (H1 k v Hk) as [Ha|(cp' & Hcp & Heq)].
    + destruct (decide (k = RestoreCheckpointPathAnnotationPrefix +:+ cc_Container cp)) as [->|Hne].
      * rewrite lookup_insert_eq in Ha. simplify_eq. right. exists cp. split; [left|done].
      * rewrite lookup_insert_ne in Ha by done. by left.
    + right. exists cp'. split; [by right|done].
  - intros cp' [->|Hcp]%elem_of_cons; [|by apply H2]. apply H3. rewrite lookup_insert_eq. eauto.
  - intros k Hk. apply H3. destruct (decide (k = RestoreCheckpointPathAnnotationPrefix +:+ cc_Container cp)) as [->|Hne].
    + rewrite lookup_insert_eq. eauto.
    + by rewrite lookup_insert_ne.
  - congruence.
Qed.

(** An annotation is written only for the containers listed. *)
Lemma render_annotations_others env now fs cps ann cs ann' cs' k :
  render_checkpoints env now fs cps ann cs = Ok (ann', cs') ->
  (forall cp, cp ∈ cps -> k <> RestoreCheckpointPathAnnotationPrefix +:+ cc_Container cp) -> ann' !! k = ann !! k.
Proof.
  revert ann cs. induction cps as [|cp cps IH]; intros ann cs H Hk; simpl in H; [by simplify_eq|].
  assert (k <> RestoreCheckpointPathAnnotationPrefix +:+ cc_Container cp) as Hne by (apply Hk; by left).
  assert (forall cp', cp' ∈ cps -> k <> RestoreCheckpointPathAnnotationPrefix +:+ cc_Container cp') as Hk'
    by (intros; apply Hk; by right).
  destruct (containerIndex cs (cc_Container cp)) as [idx|]; [|done]. destruct (cs !! idx) as [c|]; [|done].
  destruct (c_image c =? "")%string; [destruct (readCheckpointBaseImage _ _ _ _) as [img|]; simpl in H; [|done]|];
    (rewrite (IH _ _ H Hk'); by rewrite lookup_insert_ne).
Qed.

(** With every container listed once, its annotation is the path listed. *)
Lemma render_annotations_exact env now fs cps ann cs ann' cs' cp :
  render_checkpoints env now fs cps ann cs = Ok (ann', cs') -> NoDup (cc_Container <$> cps) -> cp ∈ cps ->
  ann' !! (RestoreCheckpointPathAnnotationPrefix +:+ cc_Container cp) = Some (cc_Path cp).
Proof.
  revert ann cs. induction cps as [|cp0 cps IH]; intros ann cs H Hnd Hin; [by apply elem_of_nil in Hin|].
  rewrite fmap_cons in Hnd. apply NoDup_cons in Hnd as [Hn Hnd]. simpl in H.
  destruct (containerIndex cs (cc_Container cp0)) as [idx|]; [|done]. destruct (cs !! idx) as [c|]; [|done].
  assert (exists cs1, render_checkpoints env now fs cps
            (<[RestoreCheckpointPathAnnotationPrefix +:+ cc_Container cp0 := cc_Path cp0]> ann) cs1 = Ok (ann', cs'))
    as [cs1 Hr].
  { destruct (c_image c =? "")%string; [|eauto]. destruct (readCheckpointBaseImage _ _ _ _); simpl in H; [eauto|done]. }
  apply elem_of_cons in Hin as [->|Hin]; [|by eapply IH].
  rewrite (render_annotations_others _ _ _ _ _ _ _ _ _ Hr); [by rewrite lookup_insert_eq|].
  intros cp' Hcp' Heq%append_inj_l. apply Hn. rewrite Heq. by apply list_elem_of_fmap_2.
Qed.

(** ** What a reconcile does to the pods *)

Section PodFacts.
Context (env : ArchiveEnv) (faults : nat -> option apierror) (show : spec_error -> string).

(** Two worlds that differ at most in the number of API calls. *)
Definition same_world (w w1 : pr_world) : Prop :=
  w_obj w1 = w_obj w /\ w_nodes w1 = w_nodes w /\ w_pods w1 = w_pods w /\ w_fs w1 = w_fs w /\
  w_writes w1 = w_writes w.

(** Two worlds with the same pods and files. *)
Definition same_pods (w w1 : pr_world) : Prop := w_pods w1 = w_pods w /\ w_fs w1 = w_fs w.

Lemma same_pods_trans w w1 w2 : same_pods w w1 -> same_pods w1 w2 -> same_pods w w2.
Proof. unfold same_pods. intuition congruence. Qed.

Lemma same_world_pods w w1 : same_world w w1 -> same_pods w w1.
Proof. unfold same_world, same_pods. tauto. Qed.

Lemma api_get_same {A} (read : pr_world -> option A) w r w1 :
  api_get faults read w = (r, w1) -> same_world w w1.
Proof.
  unfold api_get, api_call, tick. destruct (faults (w_calls w)); intros [= _ <-]; done.
Qed.

Lemma saveStatus_pods pr before res w r e w1 :
  saveStatus faults pr before res w = (r, e, w1) -> same_pods w w1.
Proof.
  unfold saveStatus. case_bool_decide; [by intros [= _ _ <-]|].
  unfold update_status, api_call, tick. simpl.
  destruct (faults (w_calls w)); [by intros [= _ _ <-]|]. by destruct (w_obj w); intros [= _ _ <-].
Qed.

Lemma observe_pods now pr before p w r e w1 :
  observe_pod faults now pr before p w = (r, e, w1) -> same_pods w w1.
Proof.
  unfold observe_pod. destruct (negb _); [apply saveStatus_pods|].
  destruct (p_phase p); apply saveStatus_pods.
Qed.

Lemma create_pod_spec p w r w1 :
  create_pod faults p w = (r, w1) ->
  w_obj w1 = w_obj w /\ w_fs w1 = w_fs w /\
  match r with
  | Ok q => q = p /\ w_pods w !! (p_namespace p, p_name p) = None /\
            w_pods w1 = <[(p_namespace p, p_name p) := p]> (w_pods w)
  | Err _ => w_pods w1 = w_pods w
  end.
Proof.
  unfold create_pod, api_call, tick. destruct (faults (w_calls w)); [by intros [= <- <-]|]. simpl.
  destruct (w_pods w !! _) eqn:E; by intros [= <- <-].
Qed.

(** The pods are unchanged, or the rendered Pod was created where none was. *)
Definition pods_step (now : Time) (pr : PodRestore) (w w' : pr_world) : Prop :=
  w_pods w' = w_pods w \/
  exists p, renderPod env now (w_fs w') pr = Ok p /\
    w_pods w !! (pr_Namespace pr, pr_Name pr) = None /\
    w_pods w' = <[(pr_Namespace pr, pr_Name pr) := p]> (w_pods w).

Lemma renderPod_key now fs pr p :
  renderPod env now fs pr = Ok p -> p_namespace p = pr_Namespace pr /\ p_name p = pr_Name pr.
Proof.
  unfold renderPod. destruct (render_checkpoints _ _ _ _ _ _) as [[ann cs]|]; [|done]. by intros [= <-].
Qed.

Lemma ensure_pods now pr before w r e w' :
  ensure_pod env faults show now pr before w = (r, e, w') ->
  w_fs w' = w_fs w /\ pods_step now pr w w'.
Proof.
  unfold ensure_pod. destruct (api_get faults _ w) as [g w1] eqn:Eg.
  apply api_get_same, same_world_pods in Eg as [G1 G2]. intros H.
  assert (same_pods w1 w' -> w_fs w' = w_fs w /\ pods_step now pr w w') as Hsame.
  { intros [H1 H2]. split; [congruence|]. left. congruence. }
  destruct g as [q|[]]; try (simplify_eq; by apply Hsame).
  - by apply observe_pods, Hsame in H.
  - destruct (negb _); [by apply saveStatus_pods, Hsame in H|].
    destruct (renderPod env now (w_fs w1) pr) as [p|er] eqn:Er; [|by apply saveStatus_pods, Hsame in H].
    destruct (renderPod_key _ _ _ _ Er) as [Hns Hn].
    destruct (create_pod faults p w1) as [c w2] eqn:Ec. apply create_pod_spec in Ec as (C1 & C2 & C3).
    rewrite Hns, Hn in C3. destruct c as [q|ce].
    + destruct C3 as (-> & C3 & C4). apply observe_pods in H as [O1 O2].
      split; [congruence|]. right. exists p. rewrite O2, C2, G2 in *. split; [done|]. split; congruence.
    + destruct ce; try (simplify_eq; apply Hsame; by split).
      destruct (api_get faults _ w2) as [g2 w3] eqn:Eg2.
      apply api_get_same, same_world_pods in Eg2 as [G3 G4].
      destruct g2 as [q|ge].
      * apply observe_pods in H as [O1 O2]. apply Hsame. split; congruence.
      * simplify_eq. apply Hsame. split; congruence.
Qed.

Lemma pin_and_restore_pods now pr before w r e w' :
  pin_and_restore env faults show now pr before w = (r, e, w') ->
  w_fs w' = (pin_all now (podRestoreOwnerKey pr) (Checkpoints (pr_Spec pr)) (w_fs w)).2 /\
  pods_step now pr w w'.
Proof.
  unfold pin_and_restore. destruct (pin_all _ _ _ _) as [b fs]. intros H.
  destruct b; apply ensure_pods in H as [H1 H2]; simpl in *; (split; [done|]);
    destruct H2 as [H2|(p & H2 & H3 & H4)]; simpl in *; [by left|right; eauto|by left|right; eauto].
Qed.

(** A reconcile creates at most the rendered Pod of a valid, live PodRestore. *)
Lemma reconcile_pods r now w res e w' :
  Reconcile env faults show r now w = (res, e, w') ->
  w_pods w' = w_pods w \/
  exists pr p, w_obj w = Some pr /\ validateSpec r pr = Ok tt /\ TargetNode (pr_Spec pr) ∈ w_nodes w /\
    w_fs w' = (pin_all now (podRestoreOwnerKey pr) (Checkpoints (pr_Spec pr)) (w_fs w)).2 /\
    renderPod env now (w_fs w') pr = Ok p /\ w_pods w !! (pr_Namespace pr, pr_Name pr) = None /\
    w_pods w' = <[(pr_Namespace pr, pr_Name pr) := p]> (w_pods w).
Proof.
  unfold Reconcile. destruct (api_get faults w_obj w) as [g w1] eqn:Eg. intros H.
  assert (forall x, g = Ok x -> w_obj w = Some x) as Hobj.
  { intros x ->. unfold api_get, api_call, tick in Eg. destruct (faults (w_calls w)); [by simplify_eq|].
    simpl in Eg. destruct (w_obj w); by simplify_eq. }
  apply api_get_same in Eg as (G0 & Gn & G1 & G2 & _).
  destruct g as [pr|ge]; [|simplify_eq; left; done].
  destruct (pr_Deleting pr).
  { left. unfold reconcile_deletion in H. destruct (ContainsFinalizer _ _); [|by simplify_eq].
    unfold patch_finalizers, api_call, tick in H. simpl in H.
    destruct (faults (w_calls w1)); [by simplify_eq|]. destruct (w_obj w1); by simplify_eq. }
  destruct (negb _).
  { left. unfold patch_finalizers, api_call, tick in H. simpl in H.
    destruct (faults (w_calls w1)); [by simplify_eq|]. destruct (w_obj w1); by simplify_eq. }
  destruct (validateSpec r pr) as [[]|ve] eqn:Ev; [|apply saveStatus_pods in H as [H _]; left; congruence].
  destruct (api_get faults _ w1) as [n w2] eqn:En.
  assert (n = Ok tt -> TargetNode (pr_Spec pr) ∈ w_nodes w) as Hnode.
  { intros ->. unfold api_get, api_call, tick in En. destruct (faults (w_calls w1)); [by simplify_eq|].
    simpl in En. rewrite Gn in En. case_bool_decide; by simplify_eq. }
  apply api_get_same in En as (_ & _ & N1 & N2 & _).
  destruct n as [[]|ne].
  - apply pin_and_restore_pods in H as [H1 [H2|(p & H2 & H3 & H4)]]; [left; congruence|].
    right. exists pr, p. rewrite N1, G1 in *. split_and!; try done; [auto..|]. congruence.
  - destruct (IsNotFound ne); [apply saveStatus_pods in H as [H _]|simplify_eq]; left; congruence.
Qed.
End PodFacts.

(** The containers keep their names and limits; an image is changed only when it
    was empty, to the base image recorded in a checkpoint of that container. *)
Definition container_rendered (env : ArchiveEnv) (now : Time) (fs : FS) (cps : list ContainerCheckpoint)
    (c c' : Container) : Prop :=
  c_name c' = c_name c /\ c_limits c' = c_limits c /\
  (c_image c' = c_image c \/
   c_image c = "" /\ exists cp, cp ∈ cps /\ cc_Container cp = c_name c /\
     readCheckpointBaseImage env now fs (cc_Path cp) = Ok (c_image c')).

Lemma containerIndex_name cs name i c :
  containerIndex cs name = Some i -> cs !! i = Some c -> c_name c = name.
Proof.
  revert i. induction cs as [|d cs IH]; intros i; simpl; [done|].
  destruct (c_name d =? name)%string eqn:E; to_prop.
  - intros [= <-] [= <-]. done.
  - destruct (containerIndex cs name) as [j|]; simpl; [|done]. intros [= <-]. simpl. by apply IH.
Qed.

Lemma container_rendered_head env now fs cp cps cs idx c img :
  containerIndex cs (cc_Container cp) = Some idx -> cs !! idx = Some c -> c_image c = "" ->
  readCheckpointBaseImage env now fs (cc_Path cp) = Ok img ->
  Forall2 (container_rendered env now fs (cp :: cps)) cs
    (<[idx := {| c_name := c_name c; c_image := img; c_limits := c_limits c |}]> cs).
Proof.
  intros Hi Hc He Hr. apply Forall2_same_length_lookup. split; [by rewrite length_insert|].
  intros i x y Hx Hy. destruct (decide (i = idx)) as [->|Hne].
  - rewrite list_lookup_insert_eq in Hy by eauto using lookup_lt_Some. simplify_eq.
    split; [done|]. split; [done|]. right. split; [done|]. exists cp.
    split; [left|]. split; [by rewrite (containerIndex_name _ _ _ _ Hi Hc)|done].
  - rewrite list_lookup_insert_ne in Hy by done. simplify_eq. split; [done|]. split; [done|]. by left.
Qed.

Lemma container_rendered_trans env now fs cp cps c c1 c2 :
  container_rendered env now fs (cp :: cps) c c1 -> container_rendered env now fs cps c1 c2 ->
  container_rendered env now fs (cp :: cps) c c2.
Proof.
  intros (N1 & L1 & I1) (N2 & L2 & I2). split; [congruence|]. split; [congruence|].
  destruct I2 as [I2|(E2 & cp2 & Hin & Hcn & Hr)].
  - destruct I1 as [I1|(E1 & cp1 & Hin1 & Hn1 & Hr1)]; [left; congruence|].
    right. split; [done|]. exists cp1. rewrite I2. done.
  - right. split; [destruct I1 as [I1|[E1 _]]; congruence|]. exists cp2.
    split; [by right|]. split; [congruence|done].
Qed.

Lemma render_containers env now fs cps ann cs ann' cs' :
  render_checkpoints env now fs cps ann cs = Ok (ann', cs') ->
  Forall2 (container_rendered env now fs cps) cs cs'.
Proof.
  revert ann cs. induction cps as [|cp cps IH]; intros ann cs H; simpl in H.
  { simplify_eq. apply Forall_Forall2_diag, Forall_true. intros c. split; [done|]. split; [done|]. by left. }
  destruct (containerIndex cs (cc_Container cp)) as [idx|] eqn:Ei; [|done].
  destruct (cs !! idx) as [c|] eqn:Ec; [|done].
  destruct (c_image c =? "")%string eqn:Em; to_prop.
  - destruct (readCheckpointBaseImage env now fs (cc_Path cp)) as [img|] eqn:Er; simpl in H; [|done].
    apply IH in H. pose proof (container_rendered_head env now fs cp cps cs idx c img Ei Ec Em Er) as Hh.
    revert H Hh. generalize (<[idx := {| c_name := c_name c; c_image := img; c_limits := c_limits c |}]> cs).
    intros cs1 H Hh. clear -H Hh. revert cs' H. induction Hh as [|x y l k Hxy _ IHh]; intros cs' H.
    + by apply Forall2_nil_inv_l in H as ->.
    + apply Forall2_cons_inv_l in H as (z & zs & Hz & Hzs & ->).
      constructor; [by eapply container_rendered_trans|auto].
  - apply IH in H. eapply Forall2_impl; [exact H|]. intros x y (N & L & I). split; [done|]. split; [done|].
    destruct I as [I|(I & cp' & Hin & Hr)]; [by left|right]. split; [done|]. exists cp'. split; [by right|done].
Qed.

(** ** The restore Pod *)

(** [p] is the restore Pod of [pr]: on the target node, controlled by and labelled
    with [pr]; a restore annotation for exactly the checkpointed containers, with
    one of that container's validated paths, which is the path listed for it when
    the API server admitted [pr]; every other annotation and every container as in
    the template, an empty image filled in from the checkpoint. *)
Definition restore_pod (env : ArchiveEnv) (now : Time) (fs : FS) (r : reconciler) (pr : PodRestore)
    (p : Pod) : Prop :=
  p_name p = pr_Name pr /\ p_namespace p = pr_Namespace pr /\
  NodeName (p_spec p) = TargetNode (pr_Spec pr) /\ controller_uid p = Some (pr_UID pr) /\
  p_labels p !! podRestoreLabel = Some (pr_Name pr) /\
  (forall k v, p_annotations p !! k = Some v ->
     HasPrefix k RestoreCheckpointPathAnnotationPrefix = true ->
     exists cp, cp ∈ Checkpoints (pr_Spec pr) /\
       k = RestoreCheckpointPathAnnotationPrefix +:+ cc_Container cp /\ v = cc_Path cp /\
       checkpoint_ok r (pr_Namespace pr) (template_names pr) cp) /\
  (forall cp, cp ∈ Checkpoints (pr_Spec pr) ->
     is_Some (p_annotations p !! (RestoreCheckpointPathAnnotationPrefix +:+ cc_Container cp))) /\
  (forall k v, HasPrefix k RestoreCheckpointPathAnnotationPrefix = false ->
     p_annotations p !! k = Some v -> template_annotations pr !! k = Some v) /\
  Forall2 (container_rendered env now fs (Checkpoints (pr_Spec pr)))
    (Containers (t_Spec (Template (pr_Spec pr)))) (Containers (p_spec p)) /\
  (admit_PodRestoreSpec (pr_Spec pr) = true -> forall cp, cp ∈ Checkpoints (pr_Spec pr) ->
     p_annotations p !! (RestoreCheckpointPathAnnotationPrefix +:+ cc_Container cp) = Some (cc_Path cp)).

Lemma renderPod_restore env now fs r pr p :
  validateSpec r pr = Ok tt -> renderPod env now fs pr = Ok p -> restore_pod env now fs r pr p.
Proof.
  intros [Hres Hall]%validateSpec_spec. unfold renderPod.
  assert (forall (m : option (gmap string string)), copyStringMap m = m) as Hcopy by (by intros []).
  rewrite !Hcopy. fold (template_annotations pr).
  destruct (render_checkpoints _ _ _ _ _ _) as [[ann cs]|] eqn:Er; [|done]. intros [= <-].
  pose proof (render_containers _ _ _ _ _ _ _ _ Er) as Hcs.
  pose proof (fun cp => render_annotations_exact _ _ _ _ _ _ _ _ cp Er) as Hex.
  apply render_annotations in Er as (H1 & H2 & _ & _).
  unfold restore_pod. simpl. split_and!; try done.
  - by rewrite lookup_insert_eq.
  - intros k v Hk Hp. destruct (H1 k v Hk) as [Ht|(cp & Hcp & -> & ->)].
    + apply Hres in Ht. congruence.
    + exists cp. split_and!; try done; eapply (proj1 (Forall_forall _ _)); eauto.
  - intros k v Hp Hk. destruct (H1 k v Hk) as [Ht|(cp & _ & -> & ->)]; [done|].
    by rewrite HasPrefix_app in Hp.
  - intros Hadm cp Hcp. apply Hex; [by apply admitted_distinct|done].
Qed.

(** ** Pins *)

(** What a sequence of pins and unpins of [owner] keeps: the archives, and the
    protections of every other owner. *)
Definition pins_frame (owner : string) (fs fs' : FS) : Prop :=
  (forall q, is_archive q -> fs_nodes fs' !! q = fs_nodes fs !! q) /\
  (forall q o, o <> owner -> protects (pin_state_of fs q) o -> protects (pin_state_of fs' q) o) /\
  fs_nowrite fs' = fs_nowrite fs /\ fs_noread fs' = fs_noread fs.

Lemma pins_frame_refl owner fs : pins_frame owner fs fs.
Proof. by repeat split. Qed.

Lemma pins_frame_trans owner fs1 fs2 fs3 :
  pins_frame owner fs1 fs2 -> pins_frame owner fs2 fs3 -> pins_frame owner fs1 fs3.
Proof.
  intros (A1 & P1 & W1 & R1) (A2 & P2 & W2 & R2). split_and!; [..|congruence|congruence].
  - intros q Hq. rewrite A2, A1; auto.
  - auto.
Qed.

Lemma pin_pins_frame now fs p owner b fs' :
  pinCheckpoint now fs p owner = (b, fs') ->
  pins_frame owner fs fs' /\
  (forall q, protects (pin_state_of fs q) owner -> protects (pin_state_of fs' q) owner) /\
  (b = true -> protects (pin_state_of fs' p) owner).
Proof.
  intros (Hf & _ & Hs)%pin_refines.
  assert (forall q o, protects (pin_state_of fs q) o -> protects (pin_state_of fs' q) o) as Hp.
  { intros q o Ho. destruct (decide (q = p)) as [->|Hne].
    - rewrite Hs. destruct b; [by apply protects_pin|done].
    - by rewrite (marker_frame_state p fs). }
  split; [|split; [auto|]].
  - split_and!; [|auto|apply Hf..]. intros q Hq. by eapply marker_frame_archive.
  - intros ->. rewrite Hs. apply protects_pin_self.
Qed.

Lemma unpin_pins_frame now fs p owner : pins_frame owner fs (unpinCheckpoint now fs p owner).
Proof.
  destruct (unpin_refines now fs p owner) as [Hf Hs]. split_and!; [| |apply Hf..].
  - intros q Hq. by eapply marker_frame_archive.
  - intros q o Hne Ho. destruct (decide (q = p)) as [->|Hqp].
    + destruct Hs as [-> | ->]; [by apply protects_unpin|done].
    + by rewrite (marker_frame_state p fs).
Qed.

Lemma pin_all_fold now owner cps b fs b' fs' :
  fold_left (fun '(all, fs) cp =>
               let '(ok, fs) := pinCheckpoint now fs (cc_Path cp) owner in
               (if ok then all else false, fs)) cps (b, fs) = (b', fs') ->
  pins_frame owner fs fs' /\
  (forall q, protects (pin_state_of fs q) owner -> protects (pin_state_of fs' q) owner) /\
  (b' = true -> b = true /\ forall cp, cp ∈ cps -> protects (pin_state_of fs' (cc_Path cp)) owner).
Proof.
  revert b fs. induction cps as [|cp cps IH]; intros b fs; simpl.
  { intros [= <- <-]. split; [apply pins_frame_refl|]. split; [done|]. intros Hb. split; [done|].
    by intros cp ?%elem_of_nil. }
  destruct (pinCheckpoint now fs (cc_Path cp) owner) as [ok fs1] eqn:E. intros (F2 & M2 & T2)%IH.
  apply pin_pins_frame in E as (F1 & M1 & T1).
  split; [by eapply pins_frame_trans|]. split; [auto|].
  intros Hb. destruct (T2 Hb) as [Hok Hall]. destruct ok; [|done]. split; [done|].
  intros cp' [->|Hin]%elem_of_cons; [|auto]. apply M2. by apply T1.
Qed.

Lemma pin_all_spec now owner cps fs b fs' :
  pin_all now owner cps fs = (b, fs') ->
  pins_frame owner fs fs' /\
  (forall q, protects (pin_state_of fs q) owner -> protects (pin_state_of fs' q) owner) /\
  (b = true -> forall cp, cp ∈ cps -> protects (pin_state_of fs' (cc_Path cp)) owner).
Proof. intros (F & M & T)%pin_all_fold. split; [done|]. split; [done|]. intros Hb. by apply T. Qed.

Lemma unpin_all_frame now owner cps fs : pins_frame owner fs (unpin_all now owner cps fs).
Proof.
  unfold unpin_all. revert fs. induction cps as [|cp cps IH]; intros fs; simpl; [apply pins_frame_refl|].
  eapply pins_frame_trans; [apply unpin_pins_frame|apply IH].
Qed.

(** The owner has no managed pin left. *)
Definition owner_free (s : pin_state) (o : string) : Prop :=
  match s with ManagedMarker os => o ∉ os | _ => True end.

Lemma abs_unpin_free o s : owner_free (abs_unpin o s) o.
Proof. destruct s as [| |os]; simpl; [done|done|]. case_bool_decide; [|done]. case_bool_decide; set_solver. Qed.

Lemma io_ok_frame p q fs fs' :
  marker_frame p fs fs' -> q <> p -> marker_io_ok fs q -> marker_io_ok fs' q.
Proof.
  intros (Hf & Hw & Hr) Hne (A & B & C & D & E).
  assert (keep_path q <> keep_path p) by auto with cro.
  assert (tmp_path q <> tmp_path p) by (intros ?%append_inj_r; auto).
  assert (tmp_path q <> keep_path p) by auto using not_eq_sym with cro.
  unfold marker_io_ok. rewrite Hw, Hr, !Hf; auto with cro.
Qed.

Lemma unpin_free now fs p owner :
  marker_io_ok fs p \/ owner_free (pin_state_of fs p) owner ->
  owner_free (pin_state_of (unpinCheckpoint now fs p owner) p) owner.
Proof.
  intros [Hok|Hfree]; [rewrite unpin_exact by done; apply abs_unpin_free|].
  destruct (unpin_refines now fs p owner) as [_ [-> | ->]]; [apply abs_unpin_free|done].
Qed.

Lemma unpin_all_free_gen now owner cps fs p :
  marker_io_ok fs p \/ owner_free (pin_state_of fs p) owner ->
  p ∈ (cc_Path <$> cps) \/ owner_free (pin_state_of fs p) owner ->
  owner_free (pin_state_of (unpin_all now owner cps fs) p) owner.
Proof.
  unfold unpin_all. revert fs. induction cps as [|cp cps IH]; intros fs H0 Hp; simpl.
  { destruct Hp as [Hp|]; [by apply elem_of_nil in Hp|done]. }
  destruct (unpin_refines now fs (cc_Path cp) owner) as [Hf _].
  destruct (decide (p = cc_Path cp)) as [->|Hne].
  - apply IH; right; by apply unpin_free.
  - rewrite fmap_cons, elem_of_cons in Hp. pose proof (marker_frame_state _ _ _ _ Hf Hne) as Hst.
    apply IH; rewrite Hst; [|tauto]. destruct H0; [left; by eapply io_ok_frame|by right].
Qed.

Lemma unpin_all_free now owner cps fs :
  (forall cp, cp ∈ cps -> marker_io_ok fs (cc_Path cp)) ->
  forall cp, cp ∈ cps -> owner_free (pin_state_of (unpin_all now owner cps fs) (cc_Path cp)) owner.
Proof.
  intros Hio cp Hcp. apply unpin_all_free_gen; left; [auto|]. apply list_elem_of_fmap. eauto.
Qed.

(** ** Status *)

Lemma find_stored cs ty :
  FindStatusCondition (stored_condition <$> cs) ty = stored_condition <$> FindStatusCondition cs ty.
Proof.
  unfold FindStatusCondition. induction cs as [|c cs IH]; simpl; [done|].
  by destruct (Type_ c =? ty)%string.
Qed.

(** [cs] holds [new] already, up to the transition time. *)
Definition holds (cs : list Condition) (new : Condition) : Prop :=
  exists c, FindStatusCondition cs (Type_ new) = Some c /\
    Status_ c = Status_ new /\ Reason c = Reason new /\ Message c = Message new /\
    CondGeneration c = CondGeneration new.

Lemma holds_set now cs new : holds (SetStatusCondition now cs new) new.
Proof. apply SetStatusCondition_find. Qed.

Lemma holds_other now cs new new' :
  Type_ new <> Type_ new' -> holds cs new -> holds (SetStatusCondition now cs new') new.
Proof. intros Hne (c & H & Hc). exists c. by rewrite SetStatusCondition_find_ne. Qed.

Lemma holds_stored cs new : holds cs new -> holds (stored_condition <$> cs) new.
Proof. intros (c & H & Hc). exists (stored_condition c). by rewrite find_stored, H. Qed.

Lemma holds_noop now cs new : holds cs new -> SetStatusCondition now cs new = cs.
Proof.
  intros (c & H & Hs & Hr & Hm & Hg). revert H. unfold FindStatusCondition.
  induction cs as [|d cs IH]; simpl; [done|]. destruct (Type_ d =? Type_ new)%string eqn:E.
  - intros [= ->]. f_equal. to_prop. unfold merge_condition. rewrite bool_decide_eq_true_2 by done.
    destruct c; simpl in *; by subst.
  - intros H. by rewrite IH.
Qed.

(** The Ready condition, the Pod name and the requeue an observation gives. *)
Definition ready_of (pr : PodRestore) (p : Pod) : ConditionStatus * string * string :=
  if negb (bool_decide (controller_uid p = Some (pr_UID pr))) then
    (ConditionFalse, "PodConflict",
     "a Pod named " +:+ quoted (p_name p) +:+ " already exists and is not owned by this PodRestore")
  else match p_phase p with
       | PodRunning | PodSucceeded => (ConditionTrue, "Restored", "Restored Pod is running")
       | PodFailed => (ConditionFalse, "PodFailed",
                       if (p_reason p =? "")%string then "the restore Pod entered the Failed phase" else p_reason p)
       | _ => (ConditionFalse, "Restoring", "Restore Pod is not yet running")
       end.

Definition podname_of (pr : PodRestore) (p : Pod) : string :=
  if bool_decide (controller_uid p = Some (pr_UID pr)) then p_name p else pr_PodName (pr_Status pr).

Definition requeue_of (pr : PodRestore) (p : Pod) : Result :=
  match ready_of pr p with
  | (_, "Restoring", _) => requeue_after (3 * Second)
  | _ => no_requeue
  end.

Definition observed (now : Time) (pr : PodRestore) (p : Pod) : PodRestore :=
  let '(st, reason, msg) := ready_of pr p in
  setReady now (set_podname pr (podname_of pr p)) st reason msg.

Lemma observe_pod_eq faults now pr before p w :
  observe_pod faults now pr before p w = saveStatus faults (observed now pr p) before (requeue_of pr p) w.
Proof.
  unfold observe_pod, observed, requeue_of, podname_of, ready_of.
  destruct (bool_decide (controller_uid p = Some (pr_UID pr))) eqn:E; simpl.
  - destruct (p_phase p); try done.
  - destruct pr as [? ? ? ? ? ? ? []]. reflexivity.
Qed.

(** What [saveStatus] leaves in the API server. *)
Lemma saveStatus_stored faults pr before res w r w' o :
  saveStatus faults pr before res w = (r, None, w') -> w_obj w = Some o -> pr_Status o = before ->
  r = res /\ w_pods w' = w_pods w /\ w_nodes w' = w_nodes w /\
  let s := {| pr_Conditions := pr_Conditions (pr_Status pr); pr_PodName := pr_PodName (pr_Status pr);
              pr_ObservedGeneration := pr_Generation pr |} in
  (w_obj w' = Some (set_status o s) /\ w_writes w' = w_writes w \/
   w_obj w' = Some (set_status o (stored_status s)) /\ w_writes w' = S (w_writes w)).
Proof.
  unfold saveStatus. intros H Ho Hb. case_bool_decide as Hd.
  - simplify_eq. split_and!; try done. left. split; [|done]. rewrite Ho. f_equal.
    simpl in Hd. rewrite <- Hd. by destruct o.
  - unfold update_status, api_call, tick in H. simpl in H.
    destruct (faults (w_calls w)); [by simplify_eq|]. rewrite Ho in H. simplify_eq.
    split_and!; try done. by right.
Qed.

(** The Ready condition stored for the PodRestore has status [st]. *)
Definition stored_ready (w : pr_world) (st : ConditionStatus) : Prop :=
  exists pr c, w_obj w = Some pr /\
    FindStatusCondition (pr_Conditions (pr_Status pr)) ConditionReady = Some c /\ Status_ c = st.

Lemma saveStatus_ready faults now pr st reason msg before res w r w' o :
  saveStatus faults (setReady now pr st reason msg) before res w = (r, None, w') ->
  w_obj w = Some o -> pr_Status o = before -> stored_ready w' st.
Proof.
  intros H Ho Hb. destruct (saveStatus_stored _ _ _ _ _ _ _ _ H Ho Hb) as (_ & _ & _ & Hs).
  pose proof (holds_set now (pr_Conditions (pr_Status pr))
    {| Type_ := ConditionReady; Status_ := st; CondGeneration := pr_Generation pr;
       LastTransitionTime := 0; Reason := reason; Message := msg |}) as Hh.
  destruct Hs as [[Hs _]|[Hs _]].
  - destruct Hh as (c & Hf & Hc & _). exists (set_status o {|
      pr_Conditions := pr_Conditions (pr_Status (setReady now pr st reason msg));
      pr_PodName := pr_PodName (pr_Status pr); pr_ObservedGeneration := pr_Generation pr |}), c.
    split; [exact Hs|]. by split.
  - apply holds_stored in Hh. destruct Hh as (c & Hf & Hc & _). eexists _, c. split; [exact Hs|]. by split.
Qed.

Lemma stored_ready_inj w st st' : stored_ready w st -> stored_ready w st' -> st = st'.
Proof. intros (p & c & H1 & H2 & H3) (p' & c' & H1' & H2' & H3'). congruence. Qed.

Lemma observe_ready faults now pr before p w r w' o :
  observe_pod faults now pr before p w = (r, None, w') ->
  w_obj w = Some o -> pr_Status o = before -> stored_ready w' ConditionTrue ->
  controller_uid p = Some (pr_UID pr) /\ (p_phase p = PodRunning \/ p_phase p = PodSucceeded).
Proof.
  intros H Ho Hb Hr. rewrite observe_pod_eq in H. unfold observed in H.
  destruct (ready_of pr p) as [[st reason] msg] eqn:E.
  pose proof (saveStatus_ready _ _ _ _ _ _ _ _ _ _ _ _ H Ho Hb) as Hst.
  apply (stored_ready_inj _ _ _ Hr) in Hst. subst st. revert E. unfold ready_of.
  case_bool_decide; simpl; [|done]. destruct (p_phase p); intros [=]; auto.
Qed.

Lemma get_pod_spec faults key w g w1 :
  api_get faults (fun w => w_pods w !! key) w = (g, w1) ->
  same_world w w1 /\ forall p, g = Ok p -> w_pods w !! key = Some p.
Proof.
  intros H. split; [by eapply api_get_same|]. intros p ->. revert H.
  unfold api_get, api_call, tick. destruct (faults (w_calls w)); [done|]. simpl.
  destruct (w_pods w !! key) eqn:E; by intros [= -> _].
Qed.

Lemma ensure_ready env faults show now pr before w r w' o :
  ensure_pod env faults show now pr before w = (r, None, w') ->
  w_obj w = Some o -> pr_Status o = before -> stored_ready w' ConditionTrue ->
  exists p, w_pods w' !! (pr_Namespace pr, pr_Name pr) = Some p /\
    controller_uid p = Some (pr_UID pr) /\ (p_phase p = PodRunning \/ p_phase p = PodSucceeded).
Proof.
  unfold ensure_pod. destruct (api_get faults _ w) as [g w1] eqn:Eg. intros H Ho Hb Hr.
  apply get_pod_spec in Eg as [(O1 & _ & P1 & _) Hg]. rewrite <- O1 in Ho.
  assert (forall pr st rs m res, st <> ConditionTrue ->
            saveStatus faults (setReady now pr st rs m) before res w1 = (r, None, w') -> False) as Hno.
  { intros pr' st rs m res Hne Hs. apply Hne. eapply stored_ready_inj; [|exact Hr].
    by eapply saveStatus_ready. }
  assert (forall p w2, w_obj w2 = w_obj w1 -> w_pods w2 !! (pr_Namespace pr, pr_Name pr) = Some p ->
            observe_pod faults now pr before p w2 = (r, None, w') ->
            exists p, w_pods w' !! (pr_Namespace pr, pr_Name pr) = Some p /\
              controller_uid p = Some (pr_UID pr) /\ (p_phase p = PodRunning \/ p_phase p = PodSucceeded)) as Hobs.
  { intros p w2 Ho2 Hp Hs. exists p. rewrite <- Ho2 in Ho.
    destruct (observe_pods _ _ _ _ _ _ _ _ _ Hs) as [-> _]. split; [done|]. by eapply observe_ready. }
  destruct g as [p|[]]; try done.
  - apply (Hobs p w1); [done| |done]. rewrite P1. auto.
  - destruct (negb _); [by apply Hno in H|].
    destruct (renderPod env now (w_fs w1) pr) as [p|er] eqn:Er; [|by apply Hno in H].
    destruct (renderPod_key _ _ _ _ _ Er) as [Hns Hn].
    destruct (create_pod faults p w1) as [c w2] eqn:Ec. apply create_pod_spec in Ec as (C1 & C2 & C3).
    rewrite Hns, Hn in C3. destruct c as [q|[]]; try done.
    + destruct C3 as (-> & _ & C4). apply (Hobs p w2); [done| |done]. by rewrite C4, lookup_insert_eq.
    + destruct (api_get faults _ w2) as [g2 w3] eqn:Eg2.
      apply get_pod_spec in Eg2 as [(O3 & _ & P3 & _) Hg2]. destruct g2 as [q|ge]; [|done].
      apply (Hobs q w3); [congruence| |done]. rewrite P3. auto.
Qed.

Lemma pin_and_restore_ready env faults show now pr before w r w' o :
  pin_and_restore env faults show now pr before w = (r, None, w') ->
  w_obj w = Some o -> pr_Status o = before -> stored_ready w' ConditionTrue ->
  exists p, w_pods w' !! (pr_Namespace pr, pr_Name pr) = Some p /\
    controller_uid p = Some (pr_UID pr) /\ (p_phase p = PodRunning \/ p_phase p = PodSucceeded).
Proof.
  unfold pin_and_restore. destruct (pin_all _ _ _ _) as [b fs]. intros H Ho Hb Hr.
  destruct b; eapply ensure_ready in H; eauto.
Qed.

(** The steps of [Reconcile] before the pins, for a live PodRestore with its
    finalizer. *)
Lemma reconcile_live env faults show r now w res e w' pr :
  Reconcile env faults show r now w = (res, e, w') ->
  faults (w_calls w) = None -> w_obj w = Some pr -> pr_Deleting pr = false ->
  ContainsFinalizer (pr_Finalizers pr) podRestoreFinalizer = true ->
  (exists w1 st rs m, same_world w w1 /\ st = ConditionFalse /\
     exists q, saveStatus faults (setReady now pr st rs m) (pr_Status pr) q w1 = (res, e, w')) \/
  (exists w1 e1, same_world w w1 /\ e = Some e1 /\ w' = w1) \/
  (exists w1, same_world w w1 /\ validateSpec r pr = Ok tt /\ TargetNode (pr_Spec pr) ∈ w_nodes w /\
     pin_and_restore env faults show now pr (pr_Status pr) w1 = (res, e, w')).
Proof.
  intros H Hf Ho Hd Hc. unfold Reconcile, api_get, api_call, tick in H. rewrite Hf in H. simpl in H.
  rewrite Ho, Hd, Hc in H. simpl in H.
  assert (forall n, same_world w {| w_obj := Some pr; w_nodes := w_nodes w; w_pods := w_pods w;
            w_fs := w_fs w; w_calls := n; w_writes := w_writes w |}) as Hsame by (repeat split; simpl; auto).
  destruct (validateSpec r pr) as [[]|ve]; [|left; eauto 10].
  destruct (faults (S (w_calls w))) as [fe|].
  - destruct (IsNotFound fe); [left; eauto 10|]. right; left. simplify_eq. eauto.
  - case_bool_decide; simpl in H; [|left; eauto 10]. right; right. eauto.
Qed.

(** ** Properties *)

(** C19.  Whatever the API server answers, the only Pod a reconcile creates is the
    restore Pod of a PodRestore that passed validation and whose target node
    exists: bound to that node, controlled by the PodRestore, with restore
    annotations for exactly the listed containers and validated paths (none can
    be smuggled in through the template; for a spec that passes the CRD's schema
    each container has the path listed for it), and with the template's containers,
    empty images filled in from the checkpoints. *)
Theorem reconcile_creates_restore_pod env faults show r now w res e w' key p :
  Reconcile env faults show r now w = (res, e, w') ->
  w_pods w' !! key = Some p -> w_pods w !! key = None ->
  exists pr, w_obj w = Some pr /\ validateSpec r pr = Ok tt /\ TargetNode (pr_Spec pr) ∈ w_nodes w /\
    key = (pr_Namespace pr, pr_Name pr) /\ restore_pod env now (w_fs w') r pr p.
Proof.
  intros H Hp Hn. apply reconcile_pods in H as [H|(pr & q & Ho & Hv & Ht & Hfs & Hr & _ & Hw)]; [congruence|].
  exists pr. rewrite Hw in Hp. destruct (decide (key = (pr_Namespace pr, pr_Name pr))) as [->|Hne].
  - rewrite lookup_insert_eq in Hp. simplify_eq. split_and!; try done. by apply renderPod_restore.
  - rewrite lookup_insert_ne in Hp by done. congruence.
Qed.

Definition demo_pr (deleting : bool) : PodRestore :=
  {| pr_Name := "web"; pr_Namespace := "default"; pr_UID := "u1"; pr_Generation := 2;
     pr_Deleting := deleting; pr_Finalizers := [podRestoreFinalizer];
     pr_Spec := {| TargetNode := "node1";
                   Checkpoints := [ {| cc_Container := "nginx"; cc_Path := demo_archive |} ];
                   Template := {| t_Annotations := None; t_Labels := None;
                     t_Spec := {| NodeName := "";
                       Containers := [ {| c_name := "nginx"; c_image := "nginx:1"; c_limits := ∅ |} ] |} |} |};
     pr_Status := {| pr_Conditions := []; pr_PodName := ""; pr_ObservedGeneration := 0 |} |}.

Definition demo_world (pr : PodRestore) (pods : gmap (string * string) Pod) : pr_world :=
  {| w_obj := Some pr; w_nodes := {[ "node1" ]}; w_pods := pods;
     w_fs := {| fs_nodes := {[ "/tmp" := NDir; DefaultCheckpointDir := NDir;
                               demo_archive := demo_file 10 1 "default/web/nginx" ]};
                fs_nowrite := ∅; fs_noread := ∅ |};
     w_calls := 0; w_writes := 0 |}.

Definition demo_reconciler : reconciler := {| rc_CheckpointDir := ""; rc_AllowCrossNamespace := false |}.

Definition demo_reconcile (now : Time) (w : pr_world) : Result * option apierror * pr_world :=
  Reconcile demo_env (fun _ => None) (fun _ => "") demo_reconciler now w.

Lemma reconcile_creates_restore_pod_witness :
  exists p, w_pods (demo_reconcile 7 (demo_world (demo_pr false) ∅)).2 !! ("default", "web") = Some p /\
    p_annotations p !! "restore.criu.org/checkpoint-path.nginx" = Some demo_archive /\
    exists pr, restore_pod demo_env 7 (w_fs (demo_reconcile 7 (demo_world (demo_pr false) ∅)).2)
                 demo_reconciler pr p.
Proof.
  destruct (w_pods (demo_reconcile 7 (demo_world (demo_pr false) ∅)).2 !! ("default", "web")) as [p|] eqn:E;
    [|vm_compute in E; done].
  exists p. split; [done|]. split; [vm_compute in E; injection E as <-; reflexivity|].
  destruct (demo_reconcile 7 (demo_world (demo_pr false) ∅)) as [[res e] w'] eqn:Er.
  unfold demo_reconcile in Er. simpl snd in *.
  pose proof (reconcile_creates_restore_pod _ _ _ _ _ _ _ _ _ _ _ Er E (lookup_empty _))
    as (pr & _ & _ & _ & _ & H).
  exists pr. exact H.
Defined.

(** End to end, a Pod this controller created passes the node's gate: for a
    CRI request whose sandbox carries the Pod's annotations, and a proxy that
    watches the same checkpoint directory, the path a container is restored from
    is one the PodRestore lists for it, it is never refused as malformed or
    outside the directory, and the request is forwarded with that path as its
    image when the archive was taken in the Pod's namespace. *)
Theorem restore_pod_passes_proxy {T} (px : RuntimeProxy T) env now fs r pr p now' fs' req name path :
  restore_pod env now fs r pr p ->
  sandbox_annotations req = p_annotations p -> CheckpointDir (rp_opts px) = rc_CheckpointDir r ->
  requested req = Some (name, path) ->
  (exists cp, cp ∈ Checkpoints (pr_Spec pr) /\ cc_Container cp = name /\ cc_Path cp = path) /\
  (forall n pe, (CreateContainer px env now' fs' req).1 <> Err (inl (InvalidArgument n pe))) /\
  (sandbox_namespace req = p_namespace p -> p_namespace p <> "" ->
   ReadPodNamespace env now' fs' path = Ok (p_namespace p) ->
   exists cfg, req_Config req = Some cfg /\
     (CreateContainer px env now' fs' req).2 = Some (set_image req cfg path)).
Proof.
  intros (_ & _ & _ & _ & _ & Hann & _) Hs Hd Hreq. pose proof Hreq as Hr. unfold requested, mbind, option_bind in Hr.
  destruct (req_Config req) as [cfg|] eqn:Ec; [|done].
  destruct (cfg_Metadata cfg) as [nm|] eqn:Em; [|done].
  destruct (sandbox_annotations req !! _) as [pth|] eqn:Ea; [|done].
  destruct (pth =? "")%string eqn:Ep; [done|]. simplify_eq. rewrite Hs in Ea.
  destruct (Hann _ _ Ea (HasPrefix_app _ _)) as (cp & Hcp & Hk & -> & Hv & _).
  apply append_inj_l in Hk. rewrite <- Hd in Hv. split_and!.
  - by exists cp.
  - intros n pe. unfold CreateContainer, rewriteCreateContainer. rewrite Ec, Em, Hs, Ea, Ep, Hv.
    destruct (AllowCrossNamespace (rp_opts px)); simpl; [by destruct (client_CreateContainer _ _)|].
    destruct (sandbox_namespace req =? "")%string; [by intros [=]|].
    destruct (ReadPodNamespace _ _ _ _) as [ns|]; [|by intros [=]].
    destruct (negb _); [by intros [=]|]. simpl. by destruct (client_CreateContainer _ _).
  - intros Hns Hne Hrd. exists cfg. split; [done|]. unfold CreateContainer.
    destruct (rewrite_requested env now' fs' req (rp_opts px) name (cc_Path cp) Hreq)
      as [(_ & cfg' & Hc & ->)|[Hna _]]; [simpl; congruence|].
    exfalso. apply Hna. split; [done|]. right. by rewrite Hns.
Qed.

Definition demo_pod (phase : PodPhase) : Pod :=
  {| p_name := "web"; p_namespace := "default";
     p_annotations := {[ "restore.criu.org/checkpoint-path.nginx" := demo_archive ]};
     p_labels := {[ podRestoreLabel := "web" ]}; controller_uid := Some "u1"; p_deleting := false;
     p_spec := {| NodeName := "node1";
                  Containers := [ {| c_name := "nginx"; c_image := "nginx:1"; c_limits := ∅ |} ] |};
     p_phase := phase; p_reason := ""; p_message := ""; p_conditions := [] |}.

Definition demo_request : CreateContainerRequest :=
  {| req_Config := Some {| cfg_Metadata := Some "nginx"; cfg_Image := Some "nginx:1" |};
     req_SandboxConfig := Some {| sb_Metadata := Some "default";
                                  sb_Annotations := p_annotations (demo_pod PodPending) |} |}.

Lemma demo_restore_pod : renderPod demo_env 7 (w_fs (demo_world (demo_pr false) ∅)) (demo_pr false) =
  Ok (demo_pod PodPending).
Proof. vm_compute. reflexivity. Qed.

Lemma restore_pod_passes_proxy_witness :
  exists cfg, req_Config demo_request = Some cfg /\
    (CreateContainer (NewRuntimeProxy demo_runtime {| CheckpointDir := ""; AllowCrossNamespace := false |})
       demo_env 9 (w_fs (demo_world (demo_pr false) ∅)) demo_request).2 =
    Some (set_image demo_request cfg demo_archive).
Proof.
  refine (proj2 (proj2 (restore_pod_passes_proxy
    (NewRuntimeProxy demo_runtime {| CheckpointDir := ""; AllowCrossNamespace := false |}) demo_env 7
    (w_fs (demo_world (demo_pr false) ∅)) demo_reconciler (demo_pr false) (demo_pod PodPending) 9
    (w_fs (demo_world (demo_pr false) ∅)) demo_request "nginx" demo_archive _ _ _ _)) _ _ _).
  - apply renderPod_restore; [vm_compute; reflexivity|apply demo_restore_pod].
  - reflexivity.
  - reflexivity.
  - vm_compute. reflexivity.
  - reflexivity.
  - done.
  - vm_compute. reflexivity.
Defined.

(** Pins are sound: after the pinning loop reports that every source is
    pinned, the marker of every listed checkpoint protects this PodRestore, so the
    collector keeps it; in every case the archives and the protections of other
    owners are as before, and no protection of this owner is lost. *)
Theorem pin_all_protects now pr fs b fs' :
  pin_all now (podRestoreOwnerKey pr) (Checkpoints (pr_Spec pr)) fs = (b, fs') ->
  pins_frame (podRestoreOwnerKey pr) fs fs' /\
  (forall q, protects (pin_state_of fs q) (podRestoreOwnerKey pr) ->
             protects (pin_state_of fs' q) (podRestoreOwnerKey pr)) /\
  (b = true -> forall cp, cp ∈ Checkpoints (pr_Spec pr) ->
     protects (pin_state_of fs' (cc_Path cp)) (podRestoreOwnerKey pr) /\
     removeArchiveUnlessPinned fs' (cc_Path cp) = fs').
Proof.
  intros (F & M & T)%pin_all_spec. split; [done|]. split; [done|]. intros Hb cp Hcp.
  pose proof (T Hb cp Hcp) as Hp. split; [done|]. unfold removeArchiveUnlessPinned.
  enough (isCheckpointPinned fs' (cc_Path cp) = true) as -> by done.
  apply isCheckpointPinned_state. by intros Heq; rewrite Heq in Hp.
Qed.

Lemma pin_all_protects_witness :
  exists fs', pin_all 7 "default/web" (Checkpoints (pr_Spec (demo_pr false)))
                (w_fs (demo_world (demo_pr false) ∅)) = (true, fs') /\
    removeArchiveUnlessPinned fs' demo_archive = fs'.
Proof.
  destruct (pin_all 7 "default/web" (Checkpoints (pr_Spec (demo_pr false)))
              (w_fs (demo_world (demo_pr false) ∅))) as [b fs'] eqn:E.
  assert (b = true) as -> by (change b with ((b, fs').1); rewrite <- E; vm_compute; reflexivity).
  exists fs'. split; [done|].
  refine (proj2 (proj2 (proj2 (pin_all_protects 7 (demo_pr false) _ true fs' E)) eq_refl
                   {| cc_Container := "nginx"; cc_Path := demo_archive |} _)).
  by left.
Defined.





(** The Pinned condition for the outcome [b] of the pinning loop. *)
Definition pinned_pr (now : Time) (pr : PodRestore) (b : bool) : PodRestore :=
  if b then setPinned now pr ConditionTrue "Pinned" "Source checkpoints pinned against retention GC"
  else setPinned now pr ConditionFalse "PinNotEnforced"
         ("Checkpoint archive is not reachable from the operator; pinning against retention GC is not enforced. Ensure the checkpoint is retained on "
          +:+ TargetNode (pr_Spec pr) +:+ " for the duration of the restore.").

(** A fault-free reconcile that finds the Pod. *)
Lemma reconcile_found env show r now w pr p :
  w_obj w = Some pr -> pr_Deleting pr = false ->
  ContainsFinalizer (pr_Finalizers pr) podRestoreFinalizer = true ->
  validateSpec r pr = Ok tt -> TargetNode (pr_Spec pr) ∈ w_nodes w ->
  w_pods w !! (pr_Namespace pr, pr_Name pr) = Some p ->
  exists w1, w_obj w1 = Some pr /\ w_nodes w1 = w_nodes w /\ w_pods w1 = w_pods w /\ w_writes w1 = w_writes w /\
    Reconcile env (fun _ => None) show r now w =
    saveStatus (fun _ => None)
      (observed now (pinned_pr now pr (pin_all now (podRestoreOwnerKey pr) (Checkpoints (pr_Spec pr)) (w_fs w)).1) p)
      (pr_Status pr)
      (requeue_of (pinned_pr now pr (pin_all now (podRestoreOwnerKey pr) (Checkpoints (pr_Spec pr)) (w_fs w)).1) p) w1.
Proof.
  intros Ho Hd Hc Hv Hn Hp. unfold Reconcile, api_get, api_call, tick. simpl.
  rewrite Ho, Hd, Hc, Hv. simpl. rewrite bool_decide_eq_true_2 by done. simpl.
  unfold pin_and_restore. simpl. destruct (pin_all _ _ _ (w_fs w)) as [b fs]. simpl.
  unfold ensure_pod, api_get, api_call, tick. simpl.
  destruct b; simpl; rewrite Hp, observe_pod_eq;
    refine (ex_intro _ _ (conj _ (conj _ (conj _ (conj _ eq_refl))))); done.
Qed.

Definition pinned_cond (pr : PodRestore) (b : bool) : Condition :=
  {| Type_ := ConditionCheckpointsPinned; Status_ := if b then ConditionTrue else ConditionFalse;
     CondGeneration := pr_Generation pr; LastTransitionTime := 0;
     Reason := if b then "Pinned" else "PinNotEnforced";
     Message := if b then "Source checkpoints pinned against retention GC"
       else "Checkpoint archive is not reachable from the operator; pinning against retention GC is not enforced. Ensure the checkpoint is retained on "
          +:+ TargetNode (pr_Spec pr) +:+ " for the duration of the restore." |}.

Definition ready_cond (pr : PodRestore) (p : Pod) : Condition :=
  let '(st, reason, msg) := ready_of pr p in
  {| Type_ := ConditionReady; Status_ := st; CondGeneration := pr_Generation pr;
     LastTransitionTime := 0; Reason := reason; Message := msg |}.

(** The conditions a fault-free reconcile that finds [p] computes. *)
Lemma observed_conditions now pr b p :
  pr_Conditions (pr_Status (observed now (pinned_pr now pr b) p)) =
  SetStatusCondition now (SetStatusCondition now (pr_Conditions (pr_Status pr)) (pinned_cond pr b))
    (ready_cond pr p).
Proof.
  unfold observed, ready_cond, pinned_pr, pinned_cond, ready_of.
  destruct b; simpl; case_bool_decide; simpl; try done; by destruct (p_phase p).
Qed.

Lemma observed_podname now pr b p :
  pr_PodName (pr_Status (observed now (pinned_pr now pr b) p)) = podname_of pr p.
Proof. unfold observed. destruct (ready_of _ _) as [[? ?] ?]. simpl. unfold podname_of. by destruct b. Qed.

Lemma observed_generation now pr b p :
  pr_Generation (observed now (pinned_pr now pr b) p) = pr_Generation pr.
Proof. unfold observed. destruct (ready_of _ _) as [[? ?] ?]. by destruct b. Qed.

Lemma ready_cond_type pr p : Type_ (ready_cond pr p) = ConditionReady.
Proof. unfold ready_cond. by destruct (ready_of pr p) as [[? ?] ?]. Qed.

(** The status [s] records the Pod [p] and the outcome [b] of the pinning. *)
Definition records (pr : PodRestore) (b : bool) (p : Pod) (s : PodRestoreStatus) : Prop :=
  holds (pr_Conditions s) (pinned_cond pr b) /\ holds (pr_Conditions s) (ready_cond pr p) /\
  (controller_uid p = Some (pr_UID pr) -> pr_PodName s = p_name p) /\
  pr_ObservedGeneration s = pr_Generation pr.

Lemma observed_records now pr b p :
  let o := observed now (pinned_pr now pr b) p in
  let s := {| pr_Conditions := pr_Conditions (pr_Status o); pr_PodName := pr_PodName (pr_Status o);
              pr_ObservedGeneration := pr_Generation o |} in
  records pr b p s /\ records pr b p (stored_status s).
Proof.
  intros o s. assert (records pr b p s) as (H1 & H2 & H3 & H4).
  { unfold records, s, o. cbn [pr_Conditions pr_PodName pr_ObservedGeneration].
    rewrite observed_conditions, observed_podname, observed_generation. split_and!.
    - apply holds_other; [by rewrite ready_cond_type|apply holds_set].
    - apply holds_set.
    - intros H. unfold podname_of. by rewrite bool_decide_eq_true_2.
    - done. }
  split; [done|]. split; [by apply holds_stored|]. split; [by apply holds_stored|done].
Qed.

(** A recorded status is a fixed point of the observation. *)
Lemma records_fixpoint now pr b p s :
  records pr b p s ->
  let o := observed now (pinned_pr now (set_status pr s) b) p in
  {| pr_Conditions := pr_Conditions (pr_Status o); pr_PodName := pr_PodName (pr_Status o);
     pr_ObservedGeneration := pr_Generation o |} = s.
Proof.
  intros (H1 & H2 & H3 & H4) o. unfold o. rewrite observed_conditions, observed_podname, observed_generation.
  change (pinned_cond (set_status pr s) b) with (pinned_cond pr b).
  change (ready_cond (set_status pr s) p) with (ready_cond pr p).
  change (pr_Status (set_status pr s)) with s. change (pr_Generation (set_status pr s)) with (pr_Generation pr).
  rewrite !(holds_noop _ _ _ H1), (holds_noop _ _ _ H2). unfold podname_of.
  change (pr_UID (set_status pr s)) with (pr_UID pr). change (pr_Status (set_status pr s)) with s.
  case_bool_decide as Hu; [rewrite <- (H3 Hu)|]; rewrite <- H4; by destruct s.
Qed.

(** A fault-free reconcile that finds the Pod records it, and writes nothing when
    the status records it already. *)
Lemma reconcile_records env show r now w pr p :
  w_obj w = Some pr -> pr_Deleting pr = false ->
  ContainsFinalizer (pr_Finalizers pr) podRestoreFinalizer = true ->
  validateSpec r pr = Ok tt -> TargetNode (pr_Spec pr) ∈ w_nodes w ->
  w_pods w !! (pr_Namespace pr, pr_Name pr) = Some p ->
  let b := (pin_all now (podRestoreOwnerKey pr) (Checkpoints (pr_Spec pr)) (w_fs w)).1 in
  let '(res, e, w') := Reconcile env (fun _ => None) show r now w in
  e = None /\ w_pods w' = w_pods w /\ w_nodes w' = w_nodes w /\
  (exists s, w_obj w' = Some (set_status pr s) /\ records pr b p s) /\
  (records pr b p (pr_Status pr) -> w_obj w' = Some pr /\ w_writes w' = w_writes w).
Proof.
  intros Ho Hd Hc Hv Hn Hp b.
  destruct (reconcile_found env show r now w pr p Ho Hd Hc Hv Hn Hp) as (w1 & O1 & N1 & P1 & W1 & ->).
  fold b. destruct (saveStatus _ _ _ _ _) as [[res e] w'] eqn:E.
  assert (e = None) as ->.
  { unfold saveStatus, update_status, api_call, tick in E. case_bool_decide; [by simplify_eq|].
    simpl in E. rewrite O1 in E. by simplify_eq. }
  destruct (observed_records now pr b p) as [R1 R2].
  destruct (saveStatus_stored _ _ _ _ _ _ _ _ E O1 eq_refl) as (_ & P2 & N2 & Hs).
  split; [done|]. split; [congruence|]. split; [congruence|]. split.
  - destruct Hs as [[Hs _]|[Hs _]]; eauto.
  - intros HR. pose proof (records_fixpoint now pr b p _ HR) as Hfix.
    assert (set_status pr (pr_Status pr) = pr) as Hid by (by destruct pr). rewrite Hid in Hfix.
    unfold saveStatus in E. rewrite bool_decide_eq_true_2 in E by (symmetry; exact Hfix).
    simplify_eq. auto.
Qed.

(** No hot loop: once a fault-free reconcile has observed the restore Pod, a
    later reconcile in an unchanged world (same Pod, node and outcome of the
    pinning, at any time) writes nothing to the API server and changes nothing in
    the PodRestore, although the stored times have lost their sub-second part. *)
Theorem steady_state_no_write env show r now now' w pr p :
  w_obj w = Some pr -> pr_Deleting pr = false ->
  ContainsFinalizer (pr_Finalizers pr) podRestoreFinalizer = true ->
  validateSpec r pr = Ok tt -> TargetNode (pr_Spec pr) ∈ w_nodes w ->
  w_pods w !! (pr_Namespace pr, pr_Name pr) = Some p ->
  let w1 := (Reconcile env (fun _ => None) show r now w).2 in
  (pin_all now' (podRestoreOwnerKey pr) (Checkpoints (pr_Spec pr)) (w_fs w1)).1 =
  (pin_all now (podRestoreOwnerKey pr) (Checkpoints (pr_Spec pr)) (w_fs w)).1 ->
  let '(_, e, w2) := Reconcile env (fun _ => None) show r now' w1 in
  e = None /\ w_obj w2 = w_obj w1 /\ w_writes w2 = w_writes w1 /\ w_pods w2 = w_pods w.
Proof.
  intros Ho Hd Hc Hv Hn Hp w1 Hb.
  pose proof (reconcile_records env show r now w pr p Ho Hd Hc Hv Hn Hp) as H1. subst w1.
  destruct (Reconcile env _ show r now w) as [[res e] w1]. simpl in *.
  destruct H1 as (_ & P1 & N1 & (s & O1 & R1) & _). rewrite <- N1 in Hn. rewrite <- P1 in Hp.
  pose proof (reconcile_records env show r now' w1 (set_status pr s) p O1 Hd Hc Hv Hn Hp) as H2.
  simpl in H2. destruct (Reconcile env _ show r now' w1) as [[res2 e2] w2].
  destruct H2 as (-> & P2 & _ & _ & Hq). split; [done|].
  change (podRestoreOwnerKey (set_status pr s)) with (podRestoreOwnerKey pr) in Hq. rewrite Hb in Hq.
  destruct (Hq R1) as [Ho2 Hw2]. split; [congruence|]. split; [done|congruence].
Qed.

Lemma steady_state_no_write_witness :
  let w := demo_world (demo_pr false) {[ ("default", "web") := demo_pod PodRunning ]} in
  let w1 := (demo_reconcile 1500000007 w).2 in
  w_writes w1 = 1%nat /\ w_writes (demo_reconcile 2700000000 w1).2 = 1%nat.
Proof.
  intros w w1. assert (w_writes w1 = 1%nat) as Hw by (vm_compute; reflexivity).
  split; [exact Hw|].
  assert (let '(_, e, w2) := demo_reconcile 2700000000 w1 in
          e = None /\ w_obj w2 = w_obj w1 /\ w_writes w2 = w_writes w1 /\ w_pods w2 = w_pods w) as H.
  { apply (steady_state_no_write demo_env (fun _ => "") demo_reconciler 1500000007 2700000000 w (demo_pr false)
             (demo_pod PodRunning)); reflexivity || by apply (bool_decide_unpack _); vm_compute. }
  destruct (demo_reconcile 2700000000 w1) as [[res e] w2]. destruct H as (_ & _ & H & _).
  simpl. by rewrite H.
Defined.
