(* ===== verification/Convergence.v ===== *)
(** * Convergence of the PodRestore controller

    [Reconcile] is level-based: an API call may fail at any point (also with a
    stale NotFound from the cache), the operator may be restarted between two
    passes, and the Pod and the checkpoint directory change meanwhile.  The
    theorem: whatever happened before, two passes without faults leave exactly
    the restore Pod in the cluster and a Ready condition that tells its state;
    no fault leads to a second Pod, a foreign Pod or a latched status.  A create
    whose answer is lost has the effect of a fault of the status write after it. *)

From S2P Require Import Prelude GoStrings GoPath Kube GoSystem Api Pinning Archive PodRestore.
Open Scope string_scope.
Open Scope list_scope.
Open Scope Z_scope.

Section Convergence.
Context (env : ArchiveEnv) (show : spec_error -> string) (r : reconciler).

(** The PodRestore the user created; its identity and spec stay. *)
Context (pr0 : PodRestore).

Definition restore_key : string * string := (pr_Namespace pr0, pr_Name pr0).

(** What else happens: passes with faults, the kubelet reporting a phase of the
    Pod, the collector and other controllers changing files. *)
Inductive cluster_event :=
| EReconcile (faults : nat -> option apierror) (now : Time)
| EKubelet (ph : PodPhase) (reason : string)
| EFiles (fs : FS).

Definition with_phase (p : Pod) (ph : PodPhase) (reason : string) : Pod :=
  {| p_name := p_name p; p_namespace := p_namespace p; p_annotations := p_annotations p; p_labels := p_labels p;
     controller_uid := controller_uid p; p_deleting := p_deleting p; p_spec := p_spec p;
     p_phase := ph; p_reason := reason; p_message := p_message p; p_conditions := p_conditions p |}.

Definition cluster_step (w : pr_world) (ev : cluster_event) : pr_world :=
  match ev with
  | EReconcile faults now => (Reconcile env faults show r now w).2
  | EKubelet ph reason =>
      match w_pods w !! restore_key with
      | Some p => {| w_obj := w_obj w; w_nodes := w_nodes w;
                     w_pods := <[restore_key := with_phase p ph reason]> (w_pods w);
                     w_fs := w_fs w; w_calls := w_calls w; w_writes := w_writes w |}
      | None => w
      end
  | EFiles fs => with_fs w fs
  end.

Definition cluster_run (w : pr_world) (evs : list cluster_event) : pr_world := fold_left cluster_step evs w.

(** A pass without faults. *)
Definition clean_pass (now : Time) (w : pr_world) : pr_world := (Reconcile env (fun _ => None) show r now w).2.

(** [pr] is [pr0] but for finalizers and status. *)
Definition same_restore (pr : PodRestore) : Prop :=
  exists fins s, pr = set_status (set_pr_finalizers pr0 fins) s.

(** The Pod of that name is the restore Pod, or there is none and the status
    does not claim one. *)
Definition on_course (w : pr_world) : Prop :=
  exists pr, w_obj w = Some pr /\ same_restore pr /\ TargetNode (pr_Spec pr0) ∈ w_nodes w /\
    match w_pods w !! restore_key with
    | None => pr_PodName (pr_Status pr) = ""
    | Some p => exists now fs, restore_pod env now fs r pr0 p
    end.

(** The Pod can be rendered, whatever the directory holds. *)
Definition renderable : Prop := forall now fs, exists p, renderPod env now fs pr0 = Ok p.

(** ** What a pass with faults does to the stored PodRestore *)

(** The PodRestore is unchanged, or its finalizer was added or its status written; a
    Pod name is written only when the Pod exists. *)
Definition writes_step (pr : PodRestore) (w w' : pr_world) : Prop :=
  w_nodes w' = w_nodes w /\
  (w_obj w' = w_obj w \/
   exists o, w_obj w = Some o /\
     (w_obj w' = Some (set_pr_finalizers o (AddFinalizer (pr_Finalizers o) podRestoreFinalizer)) \/
      exists s, w_obj w' = Some (set_status o s) /\
        (pr_PodName s = pr_PodName (pr_Status pr) \/ is_Some (w_pods w' !! restore_key)))).

Lemma saveStatus_writes faults pr pr' before res w x e w' :
  saveStatus faults pr' before res w = (x, e, w') ->
  pr_PodName (pr_Status pr') = pr_PodName (pr_Status pr) \/ is_Some (w_pods w !! restore_key) ->
  writes_step pr w w'.
Proof.
  unfold saveStatus. intros H Hn. case_bool_decide; [injection H as <- <- <-; split; [done|by left]|].
  unfold update_status, api_call, tick in H. simpl in H.
  destruct (faults (w_calls w)); [injection H as <- <- <-; split; [done|by left]|].
  destruct (w_obj w) as [o|] eqn:Eo; injection H as <- <- <-; simpl; (split; [done|]); simpl; [right|left; congruence].
  exists o. split; [done|]. right. eexists. split; [done|]. done.
Qed.

Lemma writes_from pr w w1 w' : same_world w w1 -> writes_step pr w1 w' -> writes_step pr w w'.
Proof.
  intros (Ho & Hn & _) [H1 H2]. split; [congruence|]. rewrite Ho in H2. done.
Qed.

Lemma observe_writes faults now pr before p w x e w' :
  observe_pod faults now pr before p w = (x, e, w') -> is_Some (w_pods w !! restore_key) -> writes_step pr w w'.
Proof. rewrite observe_pod_eq. intros H Hp. eapply saveStatus_writes; [exact H|by right]. Qed.

Lemma ensure_writes faults now pr before w x e w' :
  (pr_Namespace pr, pr_Name pr) = restore_key ->
  ensure_pod env faults show now pr before w = (x, e, w') -> writes_step pr w w'.
Proof.
  intros Hk. unfold ensure_pod. rewrite Hk. destruct (api_get faults _ w) as [g w1] eqn:Eg. intros H.
  apply get_pod_spec in Eg as [Hs Hg]. apply (writes_from pr w w1 w' Hs).
  assert (writes_step pr w1 w1) as Hid by (split; [done|by left]).
  destruct g as [p|ge].
  { eapply observe_writes; [exact H|]. destruct Hs as (_ & _ & -> & _). eauto. }
  destruct ge; try (injection H as <- <- <-; exact Hid).
  destruct (negb _); [eapply saveStatus_writes; [exact H|by left]|].
  destruct (renderPod env now (w_fs w1) pr) as [p|er] eqn:Er; [|eapply saveStatus_writes; [exact H|by left]].
  destruct (renderPod_key _ _ _ _ _ Er) as [Hns Hnm].
  destruct (create_pod faults p w1) as [c w2] eqn:Ec.
  assert (w_nodes w2 = w_nodes w1) as Hn2.
  { unfold create_pod, api_call, tick in Ec. destruct (faults (w_calls w1)); [by injection Ec as <- <-|].
    simpl in Ec. destruct (w_pods w1 !! _); by injection Ec as <- <-. }
  apply create_pod_spec in Ec as (C1 & _ & C3). rewrite Hns, Hnm, Hk in C3.
  assert (writes_step pr w2 w' -> writes_step pr w1 w') as Hfrom.
  { intros [H1 H2]. split; [congruence|]. by rewrite C1 in H2. }
  destruct c as [q|ce].
  - destruct C3 as (-> & _ & C4). apply Hfrom. eapply observe_writes; [exact H|]. rewrite C4, lookup_insert_eq. eauto.
  - destruct ce; try (injection H as <- <- <-; apply Hfrom; split; [done|by left]).
    destruct (api_get faults _ w2) as [g2 w3] eqn:Eg2. apply get_pod_spec in Eg2 as [Hs2 Hg2]. apply Hfrom.
    apply (writes_from pr w2 w3 w' Hs2). destruct g2 as [q|ge]; [|injection H as <- <- <-; split; [done|by left]].
    eapply observe_writes; [exact H|]. destruct Hs2 as (_ & _ & -> & _). eauto.
Qed.

Lemma pin_and_restore_writes faults now pr before w x e w' :
  (pr_Namespace pr, pr_Name pr) = restore_key ->
  pin_and_restore env faults show now pr before w = (x, e, w') -> writes_step pr w w'.
Proof.
  intros Hk. unfold pin_and_restore. destruct (pin_all _ _ _ _) as [b fs]. intros H.
  destruct b; apply ensure_writes in H; done.
Qed.

Lemma reconcile_writes faults now w x e w' pr :
  Reconcile env faults show r now w = (x, e, w') -> w_obj w = Some pr -> pr_Deleting pr = false ->
  (pr_Namespace pr, pr_Name pr) = restore_key -> writes_step pr w w'.
Proof.
  intros H Ho Hd Hk. unfold Reconcile in H. destruct (api_get faults w_obj w) as [g w1] eqn:Eg.
  assert (forall y, g = Ok y -> y = pr) as Hg.
  { intros y ->. unfold api_get, api_call, tick in Eg. destruct (faults (w_calls w)); [discriminate Eg|].
    simpl in Eg. rewrite Ho in Eg. by injection Eg. }
  apply api_get_same in Eg. apply (writes_from pr w w1 w' Eg).
  assert (writes_step pr w1 w1) as Hid by (split; [done|by left]).
  destruct g as [pr1|ge]; [|injection H as <- <- <-; exact Hid]. rewrite (Hg pr1 eq_refl), Hd in H.
  destruct (negb (ContainsFinalizer _ _)).
  { unfold patch_finalizers, api_call, tick in H. simpl in H.
    destruct (faults (w_calls w1)); [injection H as <- <- <-; exact Hid|].
    destruct Eg as [Eo _]. rewrite Ho in Eo. rewrite Eo, Hd in H. simpl in H. injection H as <- <- <-.
    split; [done|]. right. exists pr. split; [done|]. left. simpl. eauto. }
  destruct (validateSpec r pr) as [u|ve]; [|eapply saveStatus_writes; [exact H|by left]].
  destruct (api_get faults _ w1) as [n w2] eqn:En. apply api_get_same in En.
  apply (writes_from pr w1 w2 w' En).
  destruct n as [u'|ne]; [by apply pin_and_restore_writes in H|].
  destruct (IsNotFound ne); [eapply saveStatus_writes; [exact H|by left]|].
  injection H as <- <- <-. split; [done|by left].
Qed.

(** ** The course is kept *)

Hypothesis valid : validateSpec r pr0 = Ok tt.
Hypothesis live : pr_Deleting pr0 = false.

Lemma same_restore_key pr : same_restore pr -> (pr_Namespace pr, pr_Name pr) = restore_key /\ pr_Deleting pr = false.
Proof. intros (fins & s & ->). done. Qed.

Lemma same_restore_pod pr now fs p :
  same_restore pr -> restore_pod env now fs r pr p -> restore_pod env now fs r pr0 p.
Proof. by intros (fins & s & ->). Qed.

Lemma same_restore_status pr s : same_restore pr -> same_restore (set_status pr s).
Proof. intros (f & t & ->). by exists f, s. Qed.

Lemma same_restore_finalizers pr fins : same_restore pr -> same_restore (set_pr_finalizers pr fins).
Proof. intros (f & t & ->). by exists fins, t. Qed.

Lemma on_course_reconcile faults now w : on_course w -> on_course (Reconcile env faults show r now w).2.
Proof.
  intros (pr & Ho & Hs & Hn & Hp). destruct (Reconcile env faults show r now w) as [[x e] w'] eqn:H. simpl.
  destruct (same_restore_key _ Hs) as [Hk Hd].
  destruct (reconcile_writes _ _ _ _ _ _ _ H Ho Hd Hk) as [Hn' Hobj].
  assert (match w_pods w' !! restore_key with
          | None => w_pods w !! restore_key = None
          | Some p => exists now fs, restore_pod env now fs r pr0 p
          end) as Hpods.
  { apply reconcile_pods in H as [->|(pr1 & p & Ho1 & _ & _ & _ & Hr & _ & ->)].
    - by destruct (w_pods w !! restore_key).
    - rewrite Ho in Ho1. injection Ho1 as <-. rewrite Hk, lookup_insert_eq. exists now, (w_fs w').
      apply (same_restore_pod pr); [done|]. apply renderPod_restore; [|done].
      destruct Hs as (fins & s & ->). exact valid. }
  rewrite <- Hn' in Hn.
  assert (forall pr', w_obj w' = Some pr' -> same_restore pr' ->
            (w_pods w' !! restore_key = None -> pr_PodName (pr_Status pr') = pr_PodName (pr_Status pr)) -> on_course w') as Hfin.
  { intros pr' Ho' Hs' Hnm. exists pr'. split; [done|]. split; [done|]. split; [done|].
    destruct (w_pods w' !! restore_key) as [p|] eqn:Ep; [done|]. rewrite Hpods in Hp. by rewrite Hnm. }
  destruct Hobj as [Heq|(o & Ho1 & Hcase)].
  - apply (Hfin pr); [congruence|done|done].
  - rewrite Ho in Ho1. injection Ho1 as <-. destruct Hcase as [Hf|(s & Hst & Hnm)].
    + apply (Hfin _ Hf); [by apply same_restore_finalizers|done].
    + apply (Hfin _ Hst); [by apply same_restore_status|]. intros Hnone. destruct Hnm as [|[p Hx]]; [done|congruence].
Qed.

Lemma on_course_step w ev : on_course w -> on_course (cluster_step w ev).
Proof.
  intros H. destruct ev as [faults now|ph reason|fs]; simpl.
  - by apply on_course_reconcile.
  - destruct (w_pods w !! restore_key) as [p|] eqn:Ep; [|done]. destruct H as (pr & Ho & Hs & Hn & Hp).
    exists pr. simpl. rewrite lookup_insert_eq. rewrite Ep in Hp. destruct Hp as (now & fs & Hp). eauto 10.
  - exact H.
Qed.

Lemma on_course_run w evs : on_course w -> on_course (cluster_run w evs).
Proof.
  revert w. induction evs as [|ev evs IH]; intros w H; [done|]. simpl. by apply IH, on_course_step.
Qed.

(** ** A pass without faults *)

Hypothesis can_render : renderable.

Lemma same_restore_render pr now fs : same_restore pr -> renderPod env now fs pr = renderPod env now fs pr0.
Proof. by intros (fins & s & ->). Qed.

Lemma pin_and_restore_eq faults now pr before w b fs :
  pin_all now (podRestoreOwnerKey pr) (Checkpoints (pr_Spec pr)) (w_fs w) = (b, fs) ->
  pin_and_restore env faults show now pr before w =
  ensure_pod env faults show now (pinned_pr now pr b) before (with_fs w fs).
Proof. intros H. unfold pin_and_restore. rewrite H. by destruct b. Qed.

(** The Pod is created where there is none, then observed. *)
Lemma reconcile_created now w pr p :
  w_obj w = Some pr -> same_restore pr ->
  ContainsFinalizer (pr_Finalizers pr) podRestoreFinalizer = true ->
  TargetNode (pr_Spec pr0) ∈ w_nodes w -> w_pods w !! restore_key = None -> pr_PodName (pr_Status pr) = "" ->
  let '(b, fs) := pin_all now (podRestoreOwnerKey pr) (Checkpoints (pr_Spec pr)) (w_fs w) in
  renderPod env now fs pr0 = Ok p ->
  exists w1, w_obj w1 = Some pr /\ w_nodes w1 = w_nodes w /\ w_pods w1 = <[restore_key := p]> (w_pods w) /\
    Reconcile env (fun _ => None) show r now w =
    saveStatus (fun _ => None) (observed now (pinned_pr now pr b) p) (pr_Status pr) (requeue_of (pinned_pr now pr b) p) w1.
Proof.
  intros Ho Hs Hc Hn Hp Hnm. destruct (pin_all _ _ _ _) as [b fs] eqn:Epin. intros Hr.
  destruct (same_restore_key _ Hs) as [Hk Hd].
  assert (validateSpec r pr = Ok tt /\ TargetNode (pr_Spec pr) = TargetNode (pr_Spec pr0)) as [Hv Htn].
  { destruct Hs as (f & t & ->). by split. }
  unfold Reconcile, api_get, api_call, tick. simpl. rewrite Ho, Hd, Hc, Hv. simpl.
  rewrite bool_decide_eq_true_2 by (by rewrite Htn). erewrite pin_and_restore_eq by exact Epin.
  assert (same_restore (pinned_pr now pr b)) as Hs1.
  { unfold pinned_pr. destruct b; by apply same_restore_status. }
  destruct (same_restore_key _ Hs1) as [Hk1 _].
  assert (pr_PodName (pr_Status (pinned_pr now pr b)) = "") as Hnm1 by (by destruct b).
  unfold ensure_pod, api_get, api_call, tick, create_pod. rewrite Hk1. simpl. rewrite Hp, Hnm1. simpl.
  rewrite (same_restore_render _ _ _ Hs1), Hr. unfold api_call, tick. simpl.
  destruct (renderPod_key _ _ _ _ _ Hr) as [Hns Hname]. rewrite Hns, Hname. fold restore_key. rewrite Hp.
  rewrite observe_pod_eq. refine (ex_intro _ _ (conj _ (conj _ (conj _ eq_refl)))); done.
Qed.

(** A status was stored that tells the Pod [p]. *)
Definition tells (w : pr_world) (p : Pod) : Prop :=
  stored_ready w (match p_phase p with PodRunning | PodSucceeded => ConditionTrue | _ => ConditionFalse end) /\
  exists pr, w_obj w = Some pr /\ pr_PodName (pr_Status pr) = p_name p.

Lemma records_tells w pr b p s :
  w_obj w = Some (set_status pr s) -> records pr b p s -> controller_uid p = Some (pr_UID pr) -> tells w p.
Proof.
  intros Ho (_ & Hr & Hn & _) Hu. split.
  - destruct Hr as (c & Hf & Hst & _). exists (set_status pr s), c. rewrite ready_cond_type in Hf.
    split; [done|]. split; [done|]. rewrite Hst. unfold ready_cond, ready_of.
    rewrite bool_decide_eq_true_2 by done. simpl. by destruct (p_phase p).
  - exists (set_status pr s). split; [done|]. by apply Hn.
Qed.

(** Saving an observation without faults stores it. *)
Lemma saved_observation now pr b p w x e w' :
  saveStatus (fun _ => None) (observed now (pinned_pr now pr b) p) (pr_Status pr) x w = (e, w') ->
  w_obj w = Some pr -> controller_uid p = Some (pr_UID pr) -> tells w' p /\ w_pods w' = w_pods w.
Proof.
  intros H Ho Hu. destruct e as [res e].
  assert (e = None) as ->.
  { unfold saveStatus, update_status, api_call, tick in H. case_bool_decide; [by injection H|].
    simpl in H. rewrite Ho in H. by injection H. }
  destruct (saveStatus_stored _ _ _ _ _ _ _ _ H Ho eq_refl) as (_ & Hp & _ & Hs).
  destruct (observed_records now pr b p) as [R1 R2]. split; [|done].
  destruct Hs as [[Hs _]|[Hs _]]; by eapply records_tells.
Qed.

Lemma restore_pod_uid now fs p : restore_pod env now fs r pr0 p -> controller_uid p = Some (pr_UID pr0).
Proof. by intros (_ & _ & _ & Hu & _). Qed.

(** With the finalizer in place one pass is enough. *)
Lemma clean_pass_converges now w pr :
  on_course w -> w_obj w = Some pr -> ContainsFinalizer (pr_Finalizers pr) podRestoreFinalizer = true ->
  exists p, w_pods (clean_pass now w) !! restore_key = Some p /\
    (exists now fs, restore_pod env now fs r pr0 p) /\ tells (clean_pass now w) p.
Proof.
  intros Hon Ho Hc. destruct Hon as (pr1 & Ho1 & Hs & Hn & Hp). rewrite Ho in Ho1. injection Ho1 as <-.
  destruct (same_restore_key _ Hs) as [Hk Hd].
  assert (pr_UID pr = pr_UID pr0 /\ validateSpec r pr = Ok tt /\ TargetNode (pr_Spec pr) = TargetNode (pr_Spec pr0))
    as (Hu & Hv & Htn) by (destruct Hs as (f & t & ->); by split).
  unfold clean_pass. destruct (w_pods w !! restore_key) as [p|] eqn:Ep.
  - destruct Hp as (now0 & fs0 & Hp). rewrite <- Hk in Ep. rewrite <- Htn in Hn.
    destruct (reconcile_found env show r now w pr p Ho Hd Hc Hv Hn Ep) as (w1 & O1 & _ & P1 & _ & ->).
    destruct (saveStatus _ _ _ _ _) as [re w'] eqn:E.
    apply saved_observation in E as [Ht Hpods]; [|done|rewrite Hu; by eapply restore_pod_uid].
    exists p. simpl. rewrite Hpods, P1, <- Hk. eauto.
  - pose proof (reconcile_created now w pr) as H. destruct (pin_all _ _ _ _) as [b fs].
    destruct (can_render now fs) as [p Hr].
    destruct (H p Ho Hs Hc Hn Ep Hp Hr) as (w1 & O1 & _ & P1 & ->).
    assert (restore_pod env now fs r pr0 p) as Hrp by (by apply renderPod_restore).
    destruct (saveStatus _ _ _ _ _) as [re w'] eqn:E.
    apply saved_observation in E as [Ht Hpods]; [|done|rewrite Hu; by eapply restore_pod_uid].
    exists p. simpl. rewrite Hpods, P1, lookup_insert_eq. eauto.
Qed.

(** A pass without faults leaves the finalizer in place. *)
Lemma clean_pass_finalizer now w :
  on_course w ->
  exists pr, w_obj (clean_pass now w) = Some pr /\ ContainsFinalizer (pr_Finalizers pr) podRestoreFinalizer = true.
Proof.
  intros Hon. destruct Hon as (pr & Ho & Hs & _). destruct (same_restore_key _ Hs) as [Hk Hd].
  unfold clean_pass. destruct (Reconcile _ _ _ _ _ _) as [[x e] w'] eqn:E. simpl.
  destruct (ContainsFinalizer (pr_Finalizers pr) podRestoreFinalizer) eqn:Ec.
  - destruct (reconcile_writes _ _ _ _ _ _ _ E Ho Hd Hk) as [_ [->|(o & Ho1 & [->|(s & -> & _)])]]; [by eauto|..];
      rewrite Ho in Ho1; injection Ho1 as <-; eexists; (split; [done|]); simpl; auto with cro.
  - unfold Reconcile, api_get, api_call, tick in E. simpl in E. rewrite Ho, Hd, Ec in E. simpl in E.
    unfold patch_finalizers, api_call, tick in E. simpl in E. rewrite Hd in E. simpl in E. injection E as <- <- <-.
    simpl. eexists. split; [done|]. simpl. auto with cro.
Qed.

(** Everything else in the cluster is left alone. *)
Lemma on_course_others w ev k :
  on_course w -> k <> restore_key -> w_pods (cluster_step w ev) !! k = w_pods w !! k.
Proof.
  intros (pr & Ho & Hs & _) Hk. destruct ev as [faults now|ph reason|fs]; simpl; [|by destruct (w_pods w !! restore_key); simpl; rewrite ?lookup_insert_ne|done].
  destruct (Reconcile env faults show r now w) as [[x e] w'] eqn:H. simpl.
  apply reconcile_pods in H as [->|(pr1 & p & Ho1 & _ & _ & _ & _ & _ & ->)]; [done|].
  rewrite Ho in Ho1. injection Ho1 as <-. destruct (same_restore_key _ Hs) as [-> _]. by rewrite lookup_insert_ne.
Qed.

Lemma run_others w evs k : on_course w -> k <> restore_key -> w_pods (cluster_run w evs) !! k = w_pods w !! k.
Proof.
  intros Hon Hk. revert w Hon. induction evs as [|ev evs IH]; intros w Hon; [done|]. simpl.
  rewrite IH by (by apply on_course_step). by apply on_course_others.
Qed.

End Convergence.

(** A template that names its images can be rendered without the archives. *)
Lemma containerIndex_some cs name :
  name ∈ (c_name <$> cs) -> exists i c, containerIndex cs name = Some i /\ cs !! i = Some c.
Proof.
  induction cs as [|c cs IH]; simpl; [by intros ?%elem_of_nil|]. intros H.
  destruct (c_name c =? name)%string eqn:E; [by exists 0%nat, c|]. to_prop.
  apply elem_of_cons in H as [->|H]; [done|]. destruct (IH H) as (i & d & -> & Hd). by exists (S i), d.
Qed.

Lemma images_render env now fs r ns cps ann cs :
  Forall (fun c => c_image c <> "") cs -> Forall (checkpoint_ok r ns (c_name <$> cs)) cps ->
  exists ann', render_checkpoints env now fs cps ann cs = Ok (ann', cs).
Proof.
  intros Hi. revert ann. induction cps as [|cp cps IH]; intros ann Hc; simpl; [eauto|].
  apply Forall_cons in Hc as [(_ & _ & Hn) Hc]. destruct (containerIndex_some _ _ Hn) as (i & c & -> & Hl).
  rewrite Hl. rewrite Forall_lookup in Hi. specialize (Hi i c Hl). apply String.eqb_neq in Hi as ->. auto.
Qed.

Lemma images_renderable env r pr :
  validateSpec r pr = Ok tt -> Forall (fun c => c_image c <> "") (Containers (t_Spec (Template (pr_Spec pr)))) ->
  renderable env pr.
Proof.
  intros [_ Hc]%validateSpec_spec Hi now fs. unfold renderPod.
  destruct (images_render env now fs r (pr_Namespace pr) (Checkpoints (pr_Spec pr))
              (default ∅ (copyStringMap (t_Annotations (Template (pr_Spec pr))))) _ Hi Hc) as [ann' ->]. eauto.
Qed.

(** A run in which the Pod is created but the status write fails, the cache is
    stale on the next pass, and the kubelet then starts the Pod. *)
Definition demo_events : list cluster_event :=
  [EReconcile (fun n => if (n =? 4)%nat then Some Conflict else None) 7;
   EReconcile (fun n => if (n =? 7)%nat then Some NotFound else if (n =? 9)%nat then Some Conflict else None) 8;
   EKubelet PodRunning ""].

Lemma demo_renderable : renderable demo_env (demo_pr false).
Proof. apply (images_renderable demo_env demo_reconciler); [done|]. by apply Forall_singleton. Qed.

