(* ===== verification/ApiCopies.v ===== *)
(** * Generated deep copies ([api/v1/zz_generated.deepcopy.go])

    The Go layout of the API types and the generated [DeepCopyInto], [DeepCopy] and
    [DeepCopyObject] of each, over the memory of [GoHeap.v].  Every copy denotes the
    same value in memory of its own.  The rest of the development treats objects as
    values; the last section justifies this where the code depends on it most: the
    PodRestore controller snapshots the status with [DeepCopy], changes it in place,
    and compares. *)

From S2P Require Import Prelude GoHeap Kube GoSystem Api Pinning Archive PodRestore.
Open Scope string_scope.
Open Scope list_scope.
Open Scope nat_scope.

(** ** Library types *)

(** Layout and copy of the types of other packages. *)
Record External := {
  ObjectMeta_type : gty; ObjectMeta_DeepCopyInto : copier;
  ListMeta_type : gty; ListMeta_DeepCopyInto : copier;
  LabelSelector_type : gty; LabelSelector_DeepCopyInto : copier;
  PodTemplateSpec_type : gty; PodTemplateSpec_DeepCopyInto : copier;
  Quantity_type : gty; Quantity_DeepCopy : copier
}.

(** Their documented behaviour: a deep copy of the receiver. *)
Class ExternalLaws (x : External) : Prop := {
  ObjectMeta_copies :: DeepCopies (ObjectMeta_type x) (ObjectMeta_DeepCopyInto x);
  ListMeta_copies :: DeepCopies (ListMeta_type x) (ListMeta_DeepCopyInto x);
  LabelSelector_copies :: DeepCopies (LabelSelector_type x) (LabelSelector_DeepCopyInto x);
  PodTemplateSpec_copies :: DeepCopies (PodTemplateSpec_type x) (PodTemplateSpec_DeepCopyInto x);
  Quantity_copies :: DeepCopies (Quantity_type x) (Quantity_DeepCopy x)
}.

Definition TypeMeta_type : gty := TStruct [ ("Kind", TScalar); ("APIVersion", TScalar) ].
Definition Duration_type : gty := TStruct [ ("Duration", TScalar) ].

(** A time is immutable, so it is copied by assignment. *)
Definition Time_type : gty := TScalar.
Definition Time_DeepCopyInto : copier := assign.

Definition Condition_type : gty := TStruct
  [ ("Type", TScalar); ("Status", TScalar); ("ObservedGeneration", TScalar);
    ("LastTransitionTime", Time_type); ("Reason", TScalar); ("Message", TScalar) ].
Definition Condition_DeepCopyInto : copier := copy_struct [ ("LastTransitionTime", Time_DeepCopyInto) ].

(** [if c := in.DeepCopy(); c != nil { return c }; return nil]: an interface value,
    never one that holds a nil pointer. *)
Definition DeepCopyObject (f : copier) (v : gval) : M (option gval) :=
  c ← f v; mret (match c with VPtr None => None | _ => Some c end).

Section Generated.
Context (x : External).

(** ** Types *)

Definition GlobalPolicySpec_type : gty := TStruct
  [ ("RetainOrphan", TPtr TScalar); ("MaxCheckpointsPerNamespaces", TPtr TScalar);
    ("MaxCheckpointsPerPod", TPtr TScalar); ("MaxCheckpointsPerContainer", TPtr TScalar);
    ("MaxCheckpointSize", TPtr (Quantity_type x)); ("MaxTotalSizePerNamespace", TPtr (Quantity_type x));
    ("MaxTotalSizePerPod", TPtr (Quantity_type x)); ("MaxTotalSizePerContainer", TPtr (Quantity_type x)) ].
Definition ContainerPolicySpec_type : gty := TStruct
  [ ("Namespace", TScalar); ("Pod", TScalar); ("Container", TScalar); ("RetainOrphan", TPtr TScalar);
    ("MaxCheckpoints", TPtr TScalar); ("MaxCheckpointSize", TPtr (Quantity_type x));
    ("MaxTotalSize", TPtr (Quantity_type x)) ].
Definition PodPolicySpec_type : gty := TStruct
  [ ("Namespace", TScalar); ("Pod", TScalar); ("RetainOrphan", TPtr TScalar);
    ("MaxCheckpoints", TPtr TScalar); ("MaxCheckpointSize", TPtr (Quantity_type x));
    ("MaxTotalSize", TPtr (Quantity_type x)) ].
Definition NamespacePolicySpec_type : gty := TStruct
  [ ("Namespace", TScalar); ("RetainOrphan", TPtr TScalar); ("MaxCheckpoints", TPtr TScalar);
    ("MaxCheckpointSize", TPtr (Quantity_type x)); ("MaxTotalSize", TPtr (Quantity_type x)) ].
Definition CheckpointRestoreOperatorSpec_type : gty := TStruct
  [ ("CheckpointDirectory", TScalar); ("ApplyPoliciesImmediately", TScalar);
    ("GlobalPolicies", GlobalPolicySpec_type); ("ContainerPolicies", TSlice ContainerPolicySpec_type);
    ("PodPolicies", TSlice PodPolicySpec_type); ("NamespacePolicies", TSlice NamespacePolicySpec_type) ].
Definition CheckpointRestoreOperatorStatus_type : gty := TStruct [].
Definition CheckpointRestoreOperator_type : gty := TStruct
  [ ("TypeMeta", TypeMeta_type); ("ObjectMeta", ObjectMeta_type x);
    ("Spec", CheckpointRestoreOperatorSpec_type); ("Status", CheckpointRestoreOperatorStatus_type) ].
Definition CheckpointRestoreOperatorList_type : gty := TStruct
  [ ("TypeMeta", TypeMeta_type); ("ListMeta", ListMeta_type x);
    ("Items", TSlice CheckpointRestoreOperator_type) ].
Definition ResourcePercentThreshold_type : gty := TStruct
  [ ("Upper", TPtr TScalar); ("Lower", TPtr TScalar) ].
Definition ResourceThresholdSpec_type : gty := TStruct
  [ ("CPUPercent", TPtr ResourcePercentThreshold_type);
    ("MemoryPercent", TPtr ResourcePercentThreshold_type); ("PollIntervalSeconds", TPtr TScalar) ].
Definition TriggersSpec_type : gty := TStruct
  [ ("Interval", TPtr Duration_type); ("ResourceThreshold", TPtr ResourceThresholdSpec_type);
    ("OnKubernetesEvents", TSlice TScalar); ("OnAnnotation", TScalar) ].
Definition CheckpointScheduleSpec_type : gty := TStruct
  [ ("Namespace", TScalar); ("Selector", LabelSelector_type x); ("ContainerNames", TSlice TScalar);
    ("Triggers", TriggersSpec_type) ].
Definition CheckpointScheduleStatus_type : gty := TStruct
  [ ("Conditions", TSlice Condition_type); ("LastCheckpointTime", TPtr Time_type);
    ("CheckpointsCreated", TScalar) ].
Definition CheckpointSchedule_type : gty := TStruct
  [ ("TypeMeta", TypeMeta_type); ("ObjectMeta", ObjectMeta_type x); ("Spec", CheckpointScheduleSpec_type);
    ("Status", CheckpointScheduleStatus_type) ].
Definition CheckpointScheduleList_type : gty := TStruct
  [ ("TypeMeta", TypeMeta_type); ("ListMeta", ListMeta_type x); ("Items", TSlice CheckpointSchedule_type) ].
Definition CaptureSpec_type : gty := TStruct
  [ ("Interval", TPtr Duration_type); ("MaxSnapshots", TPtr TScalar); ("MaxDuration", TPtr Duration_type) ].
Definition IntegritySpec_type : gty := TStruct [ ("HashAlgorithm", TScalar) ].
Definition SnapshotChainRecord_type : gty := TStruct
  [ ("Index", TScalar); ("PodName", TScalar); ("ContainerName", TScalar); ("CheckpointPath", TScalar);
    ("SnapshotTime", Time_type); ("SHA256Hash", TScalar); ("PreviousSHA256Hash", TScalar) ].
Definition ForensicSnapshotChainSpec_type : gty := TStruct
  [ ("Namespace", TScalar); ("Selector", LabelSelector_type x); ("ContainerNames", TSlice TScalar);
    ("Capture", CaptureSpec_type); ("Integrity", IntegritySpec_type); ("PostSnapshotAction", TScalar) ].
Definition ForensicSnapshotChainStatus_type : gty := TStruct
  [ ("Conditions", TSlice Condition_type); ("Phase", TScalar); ("SnapshotCount", TScalar);
    ("AttemptCount", TScalar); ("FailureCount", TScalar); ("StartTime", TPtr Time_type);
    ("LastSnapshotTime", TPtr Time_type); ("CompletionTime", TPtr Time_type); ("ErrorMessage", TScalar);
    ("ObservedGeneration", TScalar); ("SnapshotChainRecords", TSlice SnapshotChainRecord_type) ].
Definition ForensicSnapshotChain_type : gty := TStruct
  [ ("TypeMeta", TypeMeta_type); ("ObjectMeta", ObjectMeta_type x); ("Spec", ForensicSnapshotChainSpec_type);
    ("Status", ForensicSnapshotChainStatus_type) ].
Definition ForensicSnapshotChainList_type : gty := TStruct
  [ ("TypeMeta", TypeMeta_type); ("ListMeta", ListMeta_type x);
    ("Items", TSlice ForensicSnapshotChain_type) ].
Definition ContainerCheckpoint_type : gty := TStruct
  [ ("Container", TScalar); ("Path", TScalar) ].
Definition PodRestoreSpec_type : gty := TStruct
  [ ("TargetNode", TScalar); ("Checkpoints", TSlice ContainerCheckpoint_type);
    ("Template", PodTemplateSpec_type x) ].
Definition PodRestoreStatus_type : gty := TStruct
  [ ("Conditions", TSlice Condition_type); ("PodName", TScalar); ("ObservedGeneration", TScalar) ].
Definition PodRestore_type : gty := TStruct
  [ ("TypeMeta", TypeMeta_type); ("ObjectMeta", ObjectMeta_type x); ("Spec", PodRestoreSpec_type);
    ("Status", PodRestoreStatus_type) ].
Definition PodRestoreList_type : gty := TStruct
  [ ("TypeMeta", TypeMeta_type); ("ListMeta", ListMeta_type x); ("Items", TSlice PodRestore_type) ].

(** ** The generated functions *)

Definition GlobalPolicySpec_DeepCopyInto : copier := copy_struct
  [ ("RetainOrphan", new_assign); ("MaxCheckpointsPerNamespaces", new_assign);
    ("MaxCheckpointsPerPod", new_assign); ("MaxCheckpointsPerContainer", new_assign);
    ("MaxCheckpointSize", value_copy (Quantity_DeepCopy x));
    ("MaxTotalSizePerNamespace", value_copy (Quantity_DeepCopy x));
    ("MaxTotalSizePerPod", value_copy (Quantity_DeepCopy x));
    ("MaxTotalSizePerContainer", value_copy (Quantity_DeepCopy x)) ].
Definition GlobalPolicySpec_DeepCopy : copier := DeepCopy GlobalPolicySpec_DeepCopyInto.

Definition ContainerPolicySpec_DeepCopyInto : copier := copy_struct
  [ ("RetainOrphan", new_assign); ("MaxCheckpoints", new_assign);
    ("MaxCheckpointSize", value_copy (Quantity_DeepCopy x));
    ("MaxTotalSize", value_copy (Quantity_DeepCopy x)) ].
Definition ContainerPolicySpec_DeepCopy : copier := DeepCopy ContainerPolicySpec_DeepCopyInto.

Definition PodPolicySpec_DeepCopyInto : copier := copy_struct
  [ ("RetainOrphan", new_assign); ("MaxCheckpoints", new_assign);
    ("MaxCheckpointSize", value_copy (Quantity_DeepCopy x));
    ("MaxTotalSize", value_copy (Quantity_DeepCopy x)) ].
Definition PodPolicySpec_DeepCopy : copier := DeepCopy PodPolicySpec_DeepCopyInto.

Definition NamespacePolicySpec_DeepCopyInto : copier := copy_struct
  [ ("RetainOrphan", new_assign); ("MaxCheckpoints", new_assign);
    ("MaxCheckpointSize", value_copy (Quantity_DeepCopy x));
    ("MaxTotalSize", value_copy (Quantity_DeepCopy x)) ].
Definition NamespacePolicySpec_DeepCopy : copier := DeepCopy NamespacePolicySpec_DeepCopyInto.

Definition CheckpointRestoreOperatorSpec_DeepCopyInto : copier := copy_struct
  [ ("GlobalPolicies", GlobalPolicySpec_DeepCopyInto);
    ("ContainerPolicies", make_into ContainerPolicySpec_DeepCopyInto);
    ("PodPolicies", make_into PodPolicySpec_DeepCopyInto);
    ("NamespacePolicies", make_into NamespacePolicySpec_DeepCopyInto) ].
Definition CheckpointRestoreOperatorSpec_DeepCopy : copier := DeepCopy CheckpointRestoreOperatorSpec_DeepCopyInto.

Definition CheckpointRestoreOperatorStatus_DeepCopyInto : copier := copy_struct [].
Definition CheckpointRestoreOperatorStatus_DeepCopy : copier := DeepCopy CheckpointRestoreOperatorStatus_DeepCopyInto.

Definition CheckpointRestoreOperator_DeepCopyInto : copier := copy_struct
  [ ("TypeMeta", assign); ("ObjectMeta", ObjectMeta_DeepCopyInto x);
    ("Spec", CheckpointRestoreOperatorSpec_DeepCopyInto); ("Status", assign) ].
Definition CheckpointRestoreOperator_DeepCopy : copier := DeepCopy CheckpointRestoreOperator_DeepCopyInto.
Definition CheckpointRestoreOperator_DeepCopyObject : gval -> M (option gval) :=
  DeepCopyObject CheckpointRestoreOperator_DeepCopy.

Definition CheckpointRestoreOperatorList_DeepCopyInto : copier := copy_struct
  [ ("TypeMeta", assign); ("ListMeta", ListMeta_DeepCopyInto x);
    ("Items", make_into CheckpointRestoreOperator_DeepCopyInto) ].
Definition CheckpointRestoreOperatorList_DeepCopy : copier := DeepCopy CheckpointRestoreOperatorList_DeepCopyInto.
Definition CheckpointRestoreOperatorList_DeepCopyObject : gval -> M (option gval) :=
  DeepCopyObject CheckpointRestoreOperatorList_DeepCopy.

Definition ResourcePercentThreshold_DeepCopyInto : copier := copy_struct
  [ ("Upper", new_assign); ("Lower", new_assign) ].
Definition ResourcePercentThreshold_DeepCopy : copier := DeepCopy ResourcePercentThreshold_DeepCopyInto.

Definition ResourceThresholdSpec_DeepCopyInto : copier := copy_struct
  [ ("CPUPercent", DeepCopy ResourcePercentThreshold_DeepCopyInto);
    ("MemoryPercent", DeepCopy ResourcePercentThreshold_DeepCopyInto); ("PollIntervalSeconds", new_assign) ].
Definition ResourceThresholdSpec_DeepCopy : copier := DeepCopy ResourceThresholdSpec_DeepCopyInto.

Definition TriggersSpec_DeepCopyInto : copier := copy_struct
  [ ("Interval", new_assign); ("ResourceThreshold", DeepCopy ResourceThresholdSpec_DeepCopyInto);
    ("OnKubernetesEvents", make_copy) ].
Definition TriggersSpec_DeepCopy : copier := DeepCopy TriggersSpec_DeepCopyInto.

Definition CheckpointScheduleSpec_DeepCopyInto : copier := copy_struct
  [ ("Selector", LabelSelector_DeepCopyInto x); ("ContainerNames", make_copy);
    ("Triggers", TriggersSpec_DeepCopyInto) ].
Definition CheckpointScheduleSpec_DeepCopy : copier := DeepCopy CheckpointScheduleSpec_DeepCopyInto.

Definition CheckpointScheduleStatus_DeepCopyInto : copier := copy_struct
  [ ("Conditions", make_into Condition_DeepCopyInto); ("LastCheckpointTime", DeepCopy Time_DeepCopyInto) ].
Definition CheckpointScheduleStatus_DeepCopy : copier := DeepCopy CheckpointScheduleStatus_DeepCopyInto.

Definition CheckpointSchedule_DeepCopyInto : copier := copy_struct
  [ ("TypeMeta", assign); ("ObjectMeta", ObjectMeta_DeepCopyInto x);
    ("Spec", CheckpointScheduleSpec_DeepCopyInto); ("Status", CheckpointScheduleStatus_DeepCopyInto) ].
Definition CheckpointSchedule_DeepCopy : copier := DeepCopy CheckpointSchedule_DeepCopyInto.
Definition CheckpointSchedule_DeepCopyObject : gval -> M (option gval) :=
  DeepCopyObject CheckpointSchedule_DeepCopy.

Definition CheckpointScheduleList_DeepCopyInto : copier := copy_struct
  [ ("TypeMeta", assign); ("ListMeta", ListMeta_DeepCopyInto x);
    ("Items", make_into CheckpointSchedule_DeepCopyInto) ].
Definition CheckpointScheduleList_DeepCopy : copier := DeepCopy CheckpointScheduleList_DeepCopyInto.
Definition CheckpointScheduleList_DeepCopyObject : gval -> M (option gval) :=
  DeepCopyObject CheckpointScheduleList_DeepCopy.

Definition CaptureSpec_DeepCopyInto : copier := copy_struct
  [ ("Interval", new_assign); ("MaxSnapshots", new_assign); ("MaxDuration", new_assign) ].
Definition CaptureSpec_DeepCopy : copier := DeepCopy CaptureSpec_DeepCopyInto.

Definition IntegritySpec_DeepCopyInto : copier := copy_struct [].
Definition IntegritySpec_DeepCopy : copier := DeepCopy IntegritySpec_DeepCopyInto.

Definition SnapshotChainRecord_DeepCopyInto : copier := copy_struct
  [ ("SnapshotTime", Time_DeepCopyInto) ].
Definition SnapshotChainRecord_DeepCopy : copier := DeepCopy SnapshotChainRecord_DeepCopyInto.

Definition ForensicSnapshotChainSpec_DeepCopyInto : copier := copy_struct
  [ ("Selector", LabelSelector_DeepCopyInto x); ("ContainerNames", make_copy);
    ("Capture", CaptureSpec_DeepCopyInto); ("Integrity", assign) ].
Definition ForensicSnapshotChainSpec_DeepCopy : copier := DeepCopy ForensicSnapshotChainSpec_DeepCopyInto.

Definition ForensicSnapshotChainStatus_DeepCopyInto : copier := copy_struct
  [ ("Conditions", make_into Condition_DeepCopyInto); ("StartTime", DeepCopy Time_DeepCopyInto);
    ("LastSnapshotTime", DeepCopy Time_DeepCopyInto); ("CompletionTime", DeepCopy Time_DeepCopyInto);
    ("SnapshotChainRecords", make_into SnapshotChainRecord_DeepCopyInto) ].
Definition ForensicSnapshotChainStatus_DeepCopy : copier := DeepCopy ForensicSnapshotChainStatus_DeepCopyInto.

Definition ForensicSnapshotChain_DeepCopyInto : copier := copy_struct
  [ ("TypeMeta", assign); ("ObjectMeta", ObjectMeta_DeepCopyInto x);
    ("Spec", ForensicSnapshotChainSpec_DeepCopyInto); ("Status", ForensicSnapshotChainStatus_DeepCopyInto) ].
Definition ForensicSnapshotChain_DeepCopy : copier := DeepCopy ForensicSnapshotChain_DeepCopyInto.
Definition ForensicSnapshotChain_DeepCopyObject : gval -> M (option gval) :=
  DeepCopyObject ForensicSnapshotChain_DeepCopy.

Definition ForensicSnapshotChainList_DeepCopyInto : copier := copy_struct
  [ ("TypeMeta", assign); ("ListMeta", ListMeta_DeepCopyInto x);
    ("Items", make_into ForensicSnapshotChain_DeepCopyInto) ].
Definition ForensicSnapshotChainList_DeepCopy : copier := DeepCopy ForensicSnapshotChainList_DeepCopyInto.
Definition ForensicSnapshotChainList_DeepCopyObject : gval -> M (option gval) :=
  DeepCopyObject ForensicSnapshotChainList_DeepCopy.

Definition ContainerCheckpoint_DeepCopyInto : copier := copy_struct [].
Definition ContainerCheckpoint_DeepCopy : copier := DeepCopy ContainerCheckpoint_DeepCopyInto.

Definition PodRestoreSpec_DeepCopyInto : copier := copy_struct
  [ ("Checkpoints", make_copy); ("Template", PodTemplateSpec_DeepCopyInto x) ].
Definition PodRestoreSpec_DeepCopy : copier := DeepCopy PodRestoreSpec_DeepCopyInto.

Definition PodRestoreStatus_DeepCopyInto : copier := copy_struct
  [ ("Conditions", make_into Condition_DeepCopyInto) ].
Definition PodRestoreStatus_DeepCopy : copier := DeepCopy PodRestoreStatus_DeepCopyInto.

Definition PodRestore_DeepCopyInto : copier := copy_struct
  [ ("TypeMeta", assign); ("ObjectMeta", ObjectMeta_DeepCopyInto x); ("Spec", PodRestoreSpec_DeepCopyInto);
    ("Status", PodRestoreStatus_DeepCopyInto) ].
Definition PodRestore_DeepCopy : copier := DeepCopy PodRestore_DeepCopyInto.
Definition PodRestore_DeepCopyObject : gval -> M (option gval) :=
  DeepCopyObject PodRestore_DeepCopy.

Definition PodRestoreList_DeepCopyInto : copier := copy_struct
  [ ("TypeMeta", assign); ("ListMeta", ListMeta_DeepCopyInto x);
    ("Items", make_into PodRestore_DeepCopyInto) ].
Definition PodRestoreList_DeepCopy : copier := DeepCopy PodRestoreList_DeepCopyInto.
Definition PodRestoreList_DeepCopyObject : gval -> M (option gval) :=
  DeepCopyObject PodRestoreList_DeepCopy.

(** Every type of the package with its layout and its copy. *)
Definition api_types : list (string * gty * copier) :=
  [ ("GlobalPolicySpec", GlobalPolicySpec_type, GlobalPolicySpec_DeepCopyInto);
    ("ContainerPolicySpec", ContainerPolicySpec_type, ContainerPolicySpec_DeepCopyInto);
    ("PodPolicySpec", PodPolicySpec_type, PodPolicySpec_DeepCopyInto);
    ("NamespacePolicySpec", NamespacePolicySpec_type, NamespacePolicySpec_DeepCopyInto);
    ("CheckpointRestoreOperatorSpec", CheckpointRestoreOperatorSpec_type, CheckpointRestoreOperatorSpec_DeepCopyInto);
    ("CheckpointRestoreOperatorStatus", CheckpointRestoreOperatorStatus_type, CheckpointRestoreOperatorStatus_DeepCopyInto);
    ("CheckpointRestoreOperator", CheckpointRestoreOperator_type, CheckpointRestoreOperator_DeepCopyInto);
    ("CheckpointRestoreOperatorList", CheckpointRestoreOperatorList_type, CheckpointRestoreOperatorList_DeepCopyInto);
    ("ResourcePercentThreshold", ResourcePercentThreshold_type, ResourcePercentThreshold_DeepCopyInto);
    ("ResourceThresholdSpec", ResourceThresholdSpec_type, ResourceThresholdSpec_DeepCopyInto);
    ("TriggersSpec", TriggersSpec_type, TriggersSpec_DeepCopyInto);
    ("CheckpointScheduleSpec", CheckpointScheduleSpec_type, CheckpointScheduleSpec_DeepCopyInto);
    ("CheckpointScheduleStatus", CheckpointScheduleStatus_type, CheckpointScheduleStatus_DeepCopyInto);
    ("CheckpointSchedule", CheckpointSchedule_type, CheckpointSchedule_DeepCopyInto);
    ("CheckpointScheduleList", CheckpointScheduleList_type, CheckpointScheduleList_DeepCopyInto);
    ("CaptureSpec", CaptureSpec_type, CaptureSpec_DeepCopyInto);
    ("IntegritySpec", IntegritySpec_type, IntegritySpec_DeepCopyInto);
    ("SnapshotChainRecord", SnapshotChainRecord_type, SnapshotChainRecord_DeepCopyInto);
    ("ForensicSnapshotChainSpec", ForensicSnapshotChainSpec_type, ForensicSnapshotChainSpec_DeepCopyInto);
    ("ForensicSnapshotChainStatus", ForensicSnapshotChainStatus_type, ForensicSnapshotChainStatus_DeepCopyInto);
    ("ForensicSnapshotChain", ForensicSnapshotChain_type, ForensicSnapshotChain_DeepCopyInto);
    ("ForensicSnapshotChainList", ForensicSnapshotChainList_type, ForensicSnapshotChainList_DeepCopyInto);
    ("ContainerCheckpoint", ContainerCheckpoint_type, ContainerCheckpoint_DeepCopyInto);
    ("PodRestoreSpec", PodRestoreSpec_type, PodRestoreSpec_DeepCopyInto);
    ("PodRestoreStatus", PodRestoreStatus_type, PodRestoreStatus_DeepCopyInto);
    ("PodRestore", PodRestore_type, PodRestore_DeepCopyInto);
    ("PodRestoreList", PodRestoreList_type, PodRestoreList_DeepCopyInto) ].

(** ** They are deep copies *)

Context `{!ExternalLaws x}.

Hint Resolve ObjectMeta_copies ListMeta_copies LabelSelector_copies PodTemplateSpec_copies
  Quantity_copies : deepcopy.

Lemma Condition_copies : DeepCopies Condition_type Condition_DeepCopyInto.
Proof. solve_copies. Qed.
Hint Resolve Condition_copies : deepcopy.
Lemma GlobalPolicySpec_copies : DeepCopies GlobalPolicySpec_type GlobalPolicySpec_DeepCopyInto.
Proof. solve_copies. Qed.
Hint Resolve GlobalPolicySpec_copies : deepcopy.
Lemma ContainerPolicySpec_copies : DeepCopies ContainerPolicySpec_type ContainerPolicySpec_DeepCopyInto.
Proof. solve_copies. Qed.
Hint Resolve ContainerPolicySpec_copies : deepcopy.
Lemma PodPolicySpec_copies : DeepCopies PodPolicySpec_type PodPolicySpec_DeepCopyInto.
Proof. solve_copies. Qed.
Hint Resolve PodPolicySpec_copies : deepcopy.
Lemma NamespacePolicySpec_copies : DeepCopies NamespacePolicySpec_type NamespacePolicySpec_DeepCopyInto.
Proof. solve_copies. Qed.
Hint Resolve NamespacePolicySpec_copies : deepcopy.
Lemma CheckpointRestoreOperatorSpec_copies : DeepCopies CheckpointRestoreOperatorSpec_type CheckpointRestoreOperatorSpec_DeepCopyInto.
Proof. solve_copies. Qed.
Hint Resolve CheckpointRestoreOperatorSpec_copies : deepcopy.
Lemma CheckpointRestoreOperatorStatus_copies : DeepCopies CheckpointRestoreOperatorStatus_type CheckpointRestoreOperatorStatus_DeepCopyInto.
Proof. solve_copies. Qed.
Hint Resolve CheckpointRestoreOperatorStatus_copies : deepcopy.
Lemma CheckpointRestoreOperator_copies : DeepCopies CheckpointRestoreOperator_type CheckpointRestoreOperator_DeepCopyInto.
Proof. solve_copies. Qed.
Hint Resolve CheckpointRestoreOperator_copies : deepcopy.
Lemma CheckpointRestoreOperatorList_copies : DeepCopies CheckpointRestoreOperatorList_type CheckpointRestoreOperatorList_DeepCopyInto.
Proof. solve_copies. Qed.
Hint Resolve CheckpointRestoreOperatorList_copies : deepcopy.
Lemma ResourcePercentThreshold_copies : DeepCopies ResourcePercentThreshold_type ResourcePercentThreshold_DeepCopyInto.
Proof. solve_copies. Qed.
Hint Resolve ResourcePercentThreshold_copies : deepcopy.
Lemma ResourceThresholdSpec_copies : DeepCopies ResourceThresholdSpec_type ResourceThresholdSpec_DeepCopyInto.
Proof. solve_copies. Qed.
Hint Resolve ResourceThresholdSpec_copies : deepcopy.
Lemma TriggersSpec_copies : DeepCopies TriggersSpec_type TriggersSpec_DeepCopyInto.
Proof. solve_copies. Qed.
Hint Resolve TriggersSpec_copies : deepcopy.
Lemma CheckpointScheduleSpec_copies : DeepCopies CheckpointScheduleSpec_type CheckpointScheduleSpec_DeepCopyInto.
Proof. solve_copies. Qed.
Hint Resolve CheckpointScheduleSpec_copies : deepcopy.
Lemma CheckpointScheduleStatus_copies : DeepCopies CheckpointScheduleStatus_type CheckpointScheduleStatus_DeepCopyInto.
Proof. solve_copies. Qed.
Hint Resolve CheckpointScheduleStatus_copies : deepcopy.
Lemma CheckpointSchedule_copies : DeepCopies CheckpointSchedule_type CheckpointSchedule_DeepCopyInto.
Proof. solve_copies. Qed.
Hint Resolve CheckpointSchedule_copies : deepcopy.
Lemma CheckpointScheduleList_copies : DeepCopies CheckpointScheduleList_type CheckpointScheduleList_DeepCopyInto.
Proof. solve_copies. Qed.
Hint Resolve CheckpointScheduleList_copies : deepcopy.
Lemma CaptureSpec_copies : DeepCopies CaptureSpec_type CaptureSpec_DeepCopyInto.
Proof. solve_copies. Qed.
Hint Resolve CaptureSpec_copies : deepcopy.
Lemma IntegritySpec_copies : DeepCopies IntegritySpec_type IntegritySpec_DeepCopyInto.
Proof. solve_copies. Qed.
Hint Resolve IntegritySpec_copies : deepcopy.
Lemma SnapshotChainRecord_copies : DeepCopies SnapshotChainRecord_type SnapshotChainRecord_DeepCopyInto.
Proof. solve_copies. Qed.
Hint Resolve SnapshotChainRecord_copies : deepcopy.
Lemma ForensicSnapshotChainSpec_copies : DeepCopies ForensicSnapshotChainSpec_type ForensicSnapshotChainSpec_DeepCopyInto.
Proof. solve_copies. Qed.
Hint Resolve ForensicSnapshotChainSpec_copies : deepcopy.
Lemma ForensicSnapshotChainStatus_copies : DeepCopies ForensicSnapshotChainStatus_type ForensicSnapshotChainStatus_DeepCopyInto.
Proof. solve_copies. Qed.
Hint Resolve ForensicSnapshotChainStatus_copies : deepcopy.
Lemma ForensicSnapshotChain_copies : DeepCopies ForensicSnapshotChain_type ForensicSnapshotChain_DeepCopyInto.
Proof. solve_copies. Qed.
Hint Resolve ForensicSnapshotChain_copies : deepcopy.
Lemma ForensicSnapshotChainList_copies : DeepCopies ForensicSnapshotChainList_type ForensicSnapshotChainList_DeepCopyInto.
Proof. solve_copies. Qed.
Hint Resolve ForensicSnapshotChainList_copies : deepcopy.
Lemma ContainerCheckpoint_copies : DeepCopies ContainerCheckpoint_type ContainerCheckpoint_DeepCopyInto.
Proof. solve_copies. Qed.
Hint Resolve ContainerCheckpoint_copies : deepcopy.
Lemma PodRestoreSpec_copies : DeepCopies PodRestoreSpec_type PodRestoreSpec_DeepCopyInto.
Proof. solve_copies. Qed.
Hint Resolve PodRestoreSpec_copies : deepcopy.
Lemma PodRestoreStatus_copies : DeepCopies PodRestoreStatus_type PodRestoreStatus_DeepCopyInto.
Proof. solve_copies. Qed.
Hint Resolve PodRestoreStatus_copies : deepcopy.
Lemma PodRestore_copies : DeepCopies PodRestore_type PodRestore_DeepCopyInto.
Proof. solve_copies. Qed.
Hint Resolve PodRestore_copies : deepcopy.
Lemma PodRestoreList_copies : DeepCopies PodRestoreList_type PodRestoreList_DeepCopyInto.
Proof. solve_copies. Qed.
Hint Resolve PodRestoreList_copies : deepcopy.

Create HintDb api_copies discriminated.
#[local] Hint Constants Opaque : api_copies.
#[local] Hint Resolve
  GlobalPolicySpec_copies ContainerPolicySpec_copies PodPolicySpec_copies NamespacePolicySpec_copies
  CheckpointRestoreOperatorSpec_copies CheckpointRestoreOperatorStatus_copies
  CheckpointRestoreOperator_copies CheckpointRestoreOperatorList_copies ResourcePercentThreshold_copies
  ResourceThresholdSpec_copies TriggersSpec_copies CheckpointScheduleSpec_copies
  CheckpointScheduleStatus_copies CheckpointSchedule_copies CheckpointScheduleList_copies CaptureSpec_copies
  IntegritySpec_copies SnapshotChainRecord_copies ForensicSnapshotChainSpec_copies
  ForensicSnapshotChainStatus_copies ForensicSnapshotChain_copies ForensicSnapshotChainList_copies
  ContainerCheckpoint_copies PodRestoreSpec_copies PodRestoreStatus_copies PodRestore_copies
  PodRestoreList_copies : api_copies.

Lemma api_types_copied : Forall (fun e => DeepCopies e.1.2 e.2) api_types.
Proof. repeat (apply List.Forall_cons; [cbn [fst snd]; solve [auto 1 with api_copies nocore]|]). apply List.Forall_nil. Qed.
End Generated.

(** C27. A deep copy of any API object is isolated from the original.  For every type of
    the package and every pointer to a well-formed object, [DeepCopy] returns nil
    exactly for nil, leaves the original as it was, and returns an object that
    denotes the same value in distinct cells that did not exist before, even when
    the original shares memory inside.  Whatever is later written to older memory,
    the copy keeps its value; whatever is written to the copy, the original keeps
    its own.  [DeepCopyObject] returns the same object, or a nil interface. *)
Theorem DeepCopy_isolates x name t f h p a ls :
  ExternalLaws x -> (name, t, f) ∈ api_types x -> read h (TPtr t) p = Some (a, ls) ->
  exists p' h' ls', DeepCopy f p h = (p', h') /\
    (p' = VPtr None <-> p = VPtr None) /\
    DeepCopyObject (DeepCopy f) p h = (match p with VPtr None => None | _ => Some p' end, h') /\
    NoDup ls' /\ (forall l, l ∈ ls -> l < length h) /\ (forall l, l ∈ ls' -> length h <= l < length h') /\
    (forall h2, (forall l, length h <= l < length h' -> h2 !! l = h' !! l) -> read h2 (TPtr t) p' = Some (a, ls')) /\
    (forall h2, (forall l, l < length h -> h2 !! l = h' !! l) -> read h2 (TPtr t) p = Some (a, ls)).
Proof.
  intros Hx Hin Hr. pose proof (api_types_copied x) as Hall. rewrite Forall_forall in Hall.
  specialize (Hall _ Hin). simpl in Hall.
  destruct (DeepCopy_copies t f Hall h p a ls Hr) as [[k Hk] (ls' & Hr' & Hnd & Hfr)].
  assert (forall p' h', DeepCopy f p h = (p', h') -> p' = VPtr None <-> p = VPtr None) as Hnil.
  { apply read_ptr_inv in Hr as [[-> _]|(l & c & r & -> & _)]; intros p' h'.
    - by intros [= <- <-].
    - unfold DeepCopy, mbind, M_bind, alloc, load, store, mret, M_ret. destruct (f _ _). intros [= <- <-]. done. }
  destruct (DeepCopy f p h) as [p' h'] eqn:E. cbn [fst snd] in *. exists p', h', ls'. split; [done|].
  split; [by apply (Hnil p' h')|]. split.
  { unfold DeepCopyObject, mbind, M_bind. rewrite E. unfold mret, M_ret. f_equal. specialize (Hnil p' h' eq_refl).
    apply read_ptr_inv in Hr as [[-> _]|(l & c & r & -> & _)]; [by rewrite (proj2 Hnil)|].
    destruct p' as [|[|]| | |]; try done. discriminate (proj1 Hnil eq_refl). }
  split; [done|]. split; [intros l; by apply (read_bound h (TPtr t) p (a, ls) l Hr)|]. split; [done|]. split.
  - intros h2 Ha. eapply read_agree; [exact Hr'|]. intros l Hl. apply Ha, Hfr, Hl.
  - intros h2 Ha. eapply read_agree; [exact Hr|]. intros l Hl. apply (read_bound h _ _ _ _ Hr) in Hl.
    rewrite Ha by done. subst h'. by apply lookup_app_l.
Qed.

(** ** The snapshot of the status

    In memory, [pr.Status] is a struct whose conditions are a slice, and
    [meta.SetStatusCondition] changes an existing condition in place.  The
    controller compares the result with the [DeepCopy] it took before. *)

Definition status_string (s : ConditionStatus) : string :=
  match s with ConditionTrue => "True" | ConditionFalse => "False" | ConditionUnknown => "Unknown" end.

Definition encode_condition (c : Condition) : gval := VStruct
  [ ("Type", VScalar (SString (Type_ c))); ("Status", VScalar (SString (status_string (Status_ c))));
    ("ObservedGeneration", VScalar (SInt (CondGeneration c)));
    ("LastTransitionTime", VScalar (SInt (LastTransitionTime c)));
    ("Reason", VScalar (SString (Reason c))); ("Message", VScalar (SString (Message c))) ].

Definition encode_status (conditions : gval) (podName : string) (generation : Z) : gval := VStruct
  [ ("Conditions", conditions); ("PodName", VScalar (SString podName));
    ("ObservedGeneration", VScalar (SInt generation)) ].

(** [append(s, v)]: in the spare capacity of the array if there is any, in a larger
    array otherwise; [grow] is the capacity the runtime adds. *)
Definition append_slice (grow : nat -> nat) (s v : gval) : M gval := fun h =>
  match s with
  | VSlice None => (VSlice (Some (length h, 0, 1)), h ++ [VArray (v :: repeat zero (grow 0))])
  | VSlice (Some (l, off, n)) =>
      let a := array_at h l in
      if (off + n <? length a)%nat then (VSlice (Some (l, off, S n)), <[l := VArray (<[off + n := v]> a)]> h)
      else (VSlice (Some (length h, 0, S n)),
            h ++ [VArray (take n (drop off a) ++ v :: repeat zero (grow n))])
  | _ => (s, h)
  end.

(** [FindStatusCondition]: the index of the first condition of a type. *)
Fixpoint find_index (ty : string) (es : list gval) : option nat :=
  match es with
  | [] => None
  | e :: es => match field e "Type" with
               | VScalar (SString s) => if (s =? ty)%string then Some 0 else S <$> find_index ty es
               | _ => S <$> find_index ty es
               end
  end.

Definition same_status (e : gval) (s : ConditionStatus) : bool :=
  match field e "Status" with VScalar (SString s') => (s' =? status_string s)%string | _ => false end.

(** The assignments to [*existingCondition]; those of equal values change nothing. *)
Definition update_existing (now : Time) (e : gval) (new : Condition) : gval :=
  let e := if same_status e (Status_ new) then e
           else set_field (set_field e "Status" (VScalar (SString (status_string (Status_ new)))))
                  "LastTransitionTime"
                  (VScalar (SInt (if LastTransitionTime new =? 0 then now else LastTransitionTime new)%Z)) in
  let e := set_field e "Reason" (VScalar (SString (Reason new))) in
  let e := set_field e "Message" (VScalar (SString (Message new))) in
  set_field e "ObservedGeneration" (VScalar (SInt (CondGeneration new))).

Definition with_time (now : Time) (c : Condition) : Condition :=
  {| Type_ := Type_ c; Status_ := Status_ c; CondGeneration := CondGeneration c;
     LastTransitionTime := (if LastTransitionTime c =? 0 then now else LastTransitionTime c)%Z;
     Reason := Reason c; Message := Message c |}.

(** [meta.SetStatusCondition(&status.Conditions, new)], the status being in cell [s]. *)
Definition SetStatusCondition_mem (grow : nat -> nat) (now : Time) (s : nat) (new : Condition) : M unit :=
  st ← load s;
  match field st "Conditions" with
  | VSlice (Some (l, off, n)) as cs =>
      es ← elements l off n;
      match find_index (Type_ new) es with
      | Some i => set_elem l (off + i) (update_existing now (default zero (es !! i)) new)
      | None => cs' ← append_slice grow cs (encode_condition (with_time now new));
                store s (set_field st "Conditions" cs')
      end
  | cs => cs' ← append_slice grow cs (encode_condition (with_time now new));
          store s (set_field st "Conditions" cs')
  end.

(** What a reconcile does to the status between the snapshot and the comparison. *)
Inductive status_op :=
| OpCondition (now : Time) (c : Condition)
| OpPodName (name : string)
| OpGeneration (g : Z).

Definition run_op (grow : nat -> nat) (s : nat) (op : status_op) : M unit :=
  match op with
  | OpCondition now c => SetStatusCondition_mem grow now s c
  | OpPodName n => st ← load s; store s (set_field st "PodName" (VScalar (SString n)))
  | OpGeneration g => st ← load s; store s (set_field st "ObservedGeneration" (VScalar (SInt g)))
  end.
Definition run_ops (grow : nat -> nat) (s : nat) (ops : list status_op) (h : heap) : heap :=
  fold_left (fun h op => (run_op grow s op h).2) ops h.

(** The same on values. *)
Definition apply_op (st : PodRestoreStatus) (op : status_op) : PodRestoreStatus :=
  match op with
  | OpCondition now c =>
      {| pr_Conditions := SetStatusCondition now (pr_Conditions st) c; pr_PodName := pr_PodName st;
         pr_ObservedGeneration := pr_ObservedGeneration st |}
  | OpPodName n =>
      {| pr_Conditions := pr_Conditions st; pr_PodName := n; pr_ObservedGeneration := pr_ObservedGeneration st |}
  | OpGeneration g =>
      {| pr_Conditions := pr_Conditions st; pr_PodName := pr_PodName st; pr_ObservedGeneration := g |}
  end.

(** A slice with these conditions; nil and empty are the same to
    [equality.Semantic.DeepEqual]. *)
Definition conditions_in (h : heap) (v : gval) (cs : list Condition) (l : option nat) : Prop :=
  match v with
  | VSlice None => cs = [] /\ l = None
  | VSlice (Some (k, off, n)) =>
      exists a, h !! k = Some (VArray a) /\ off + n <= length a /\ take n (drop off a) = map encode_condition cs /\
                l = Some k
  | _ => False
  end.

(** Cell [s] holds this status; [ls] are the cells it consists of. *)
Definition status_in (h : heap) (s : nat) (st : PodRestoreStatus) (ls : list nat) : Prop :=
  exists v l, h !! s = Some (encode_status v (pr_PodName st) (pr_ObservedGeneration st)) /\
    conditions_in h v (pr_Conditions st) l /\ ls = s :: option_list l.

(** [equality.Semantic.DeepEqual(before, &pr.Status)] *)
Definition DeepEqual (h : heap) (p q : nat) : Prop :=
  exists st ls ls', status_in h p st ls /\ status_in h q st ls'.

(** *** Between the two views *)

Definition condition_tree (c : Condition) : tree := AStruct
  [ ("Type", AScalar (SString (Type_ c))); ("Status", AScalar (SString (status_string (Status_ c))));
    ("ObservedGeneration", AScalar (SInt (CondGeneration c)));
    ("LastTransitionTime", AScalar (SInt (LastTransitionTime c)));
    ("Reason", AScalar (SString (Reason c))); ("Message", AScalar (SString (Message c))) ].

Definition status_tree (nil : bool) (st : PodRestoreStatus) : tree := AStruct
  [ ("Conditions", if nil then ANil else ASlice (map condition_tree (pr_Conditions st)));
    ("PodName", AScalar (SString (pr_PodName st)));
    ("ObservedGeneration", AScalar (SInt (pr_ObservedGeneration st))) ].

Lemma read_scalar_inv h v s ls : read h TScalar v = Some (AScalar s, ls) -> v = VScalar s /\ ls = [].
Proof. destruct v; try done. by intros [= -> <-]. Qed.

Lemma read_condition h c : read h Condition_type (encode_condition c) = Some (condition_tree c, []).
Proof. done. Qed.

Lemma read_condition_inv h e c ls :
  read h Condition_type e = Some (condition_tree c, ls) -> e = encode_condition c.
Proof.
  destruct e as [| | |vs|]; try done. unfold Condition_type. rewrite read_struct.
  destruct (read_fields _ _ vs) as [r|] eqn:Er; [|done]. cbn [mbind option_bind]. intros [= Ht <-].
  do 6 (destruct vs as [|[? ?] vs]; [done|];
        apply read_fields_cons in Er as (-> & [? ?] & ? & ?Hs & Er & ->); cbn [fst snd] in *).
  destruct vs; [|done]. simplify_eq. by repeat match goal with
    | H : read _ _ _ = Some (AScalar _, _) |- _ => apply read_scalar_inv in H as [-> ->] end.
Qed.

Lemma mapM_conditions h cs :
  mapM (read h Condition_type) (map encode_condition cs) = Some (map (fun c => (condition_tree c, [])) cs).
Proof. induction cs as [|c cs IH]; [done|]. cbn [map mapM]. rewrite read_condition. unfold mbind at 1, option_bind at 1. by rewrite IH. Qed.

Lemma mapM_conditions_inv h es rs cs :
  mapM (read h Condition_type) es = Some rs -> rs.*1 = map condition_tree cs ->
  es = map encode_condition cs /\ concat (rs.*2) = [].
Proof.
  intros Hm Heq. split.
  - apply mapM_Some_1 in Hm. revert cs Heq. induction Hm as [|e [a ls] es rs He _ IH]; intros [|c cs] Heq; try done.
    injection Heq as Ha Heq. simpl in Ha. subst a. simpl. f_equal; [by eapply read_condition_inv|by apply IH].
  - by apply (flat_mapM h h Condition_type es rs eq_refl).
Qed.

Lemma read_slice_intro h t k off n arr rs :
  h !! k = Some (VArray arr) -> off + n <= length arr -> mapM (read h t) (take n (drop off arr)) = Some rs ->
  read h (TSlice t) (VSlice (Some (k, off, n))) = Some (ASlice (rs.*1), k :: concat (rs.*2)).
Proof. intros Hk Hn Hm. simpl. by rewrite Hk, (proj2 (Nat.leb_le _ _) Hn), Hm. Qed.

Lemma concat_nils {A B} (l : list A) (f : A -> B) : concat ((fun c => (f c, @nil nat)) <$> l).*2 = [].
Proof. by induction l. Qed.

Lemma read_conditions h v cs l :
  conditions_in h v cs l ->
  exists b, (b = true -> cs = []) /\
    read h (TSlice Condition_type) v = Some (if b then ANil else ASlice (map condition_tree cs), option_list l).
Proof.
  destruct v as [| |[[[k off] n]|]| |]; try done.
  - intros (a & Hk & Hn & Hcs & ->). exists false. split; [done|].
    rewrite (read_slice_intro h Condition_type k off n a _ Hk Hn (eq_trans (f_equal _ Hcs) (mapM_conditions h cs))).
    by rewrite concat_nils, <- list_fmap_compose.
  - intros [-> ->]. by exists true.
Qed.

Lemma status_in_read h s st ls :
  status_in h s st ls ->
  exists b, (b = true -> pr_Conditions st = []) /\
    read h (TPtr PodRestoreStatus_type) (VPtr (Some s)) = Some (APtr (status_tree b st), ls).
Proof.
  intros (v & l & Hs & Hc & ->). destruct (read_conditions _ _ _ _ Hc) as (b & Hb & Hr). exists b. split; [done|].
  assert (read h PodRestoreStatus_type (encode_status v (pr_PodName st) (pr_ObservedGeneration st)) =
          Some (status_tree b st, option_list l)) as Hst.
  { unfold PodRestoreStatus_type, encode_status. rewrite read_struct. cbn [read_fields]. rewrite !String.eqb_refl, Hr.
    cbn. by rewrite app_nil_r. }
  cbn [read]. rewrite Hs. cbn [mbind option_bind]. by rewrite Hst.
Qed.

Lemma read_status_in h s st ls b :
  (b = true -> pr_Conditions st = []) ->
  read h (TPtr PodRestoreStatus_type) (VPtr (Some s)) = Some (APtr (status_tree b st), ls) ->
  status_in h s st ls.
Proof.
  intros Hb Hr. apply read_ptr_inv in Hr as [[? _]|(l & c & [a la] & [= <-] & Hs & Hr & [= <- ->])]; [done|].
  destruct c as [| | |vs|]; try done. unfold PodRestoreStatus_type in Hr. rewrite read_struct in Hr.
  destruct (read_fields _ _ vs) as [r|] eqn:Er; [|done]. cbn [mbind option_bind] in Hr. injection Hr as Ht <-.
  do 3 (destruct vs as [|[? ?] vs]; [done|];
        apply read_fields_cons in Er as (-> & [? ?] & ? & ?Hs & Er & ->); cbn [fst snd] in *).
  destruct vs; [|done]. simplify_eq.
  repeat match goal with H : read _ TScalar _ = Some _ |- _ => apply read_scalar_inv in H as [-> ->] end.
  simpl in Er. simplify_eq. rewrite !app_nil_r.
  match goal with H : read _ (TSlice _) ?v = Some _ |- _ => rename H into Hv; set (cv := v) in * end.
  apply read_slice_inv in Hv as [[Hcv [= Ht ->]]|(k & off & n & arr & rs & Hcv & Hk & Hn & Hm & [= Ht ->])].
  - exists cv, None. rewrite Hcv in *. split; [done|]. destruct b; [|done]. simpl. auto.
  - exists cv, (Some k). rewrite Hcv in *. split; [done|]. destruct b; [done|]. injection Ht as Ht.
    destruct (mapM_conditions_inv _ _ _ _ Hm (eq_sym Ht)) as [He ->]. split; [|done].
    exists arr. done.
Qed.

(** *** One update in place *)

Lemma find_index_cons ty c cs :
  find_index ty (map encode_condition (c :: cs)) =
  if (Type_ c =? ty)%string then Some 0 else S <$> find_index ty (map encode_condition cs).
Proof. done. Qed.

Lemma SetStatusCondition_cons now c cs new :
  SetStatusCondition now (c :: cs) new =
  if (Type_ c =? Type_ new)%string then merge_condition now c new :: cs else c :: SetStatusCondition now cs new.
Proof. done. Qed.

Lemma find_index_None now ty cs new :
  find_index ty (map encode_condition cs) = None -> ty = Type_ new ->
  SetStatusCondition now cs new = cs ++ [with_time now new].
Proof.
  intros Hf ->. induction cs as [|c cs IH]; [done|].
  rewrite find_index_cons in Hf. rewrite SetStatusCondition_cons.
  destruct (Type_ c =? Type_ new)%string; [done|]. rewrite IH; [done|]. by destruct (find_index _ _).
Qed.

Lemma find_index_Some now ty cs new i :
  find_index ty (map encode_condition cs) = Some i -> ty = Type_ new ->
  exists c, cs !! i = Some c /\ SetStatusCondition now cs new = <[i := merge_condition now c new]> cs.
Proof.
  intros Hf ->. revert i Hf. induction cs as [|c cs IH]; intros i Hf; [done|].
  rewrite find_index_cons in Hf. rewrite SetStatusCondition_cons.
  destruct (Type_ c =? Type_ new)%string.
  - injection Hf as <-. by exists c.
  - destruct (find_index _ _) as [j|] eqn:Ej; [|done]. injection Hf as <-.
    destruct (IH j eq_refl) as (c' & Hc & ->). by exists c'.
Qed.

Lemma update_existing_merge now c new :
  update_existing now (encode_condition c) new = encode_condition (merge_condition now c new).
Proof.
  assert (same_status (encode_condition c) (Status_ new) = bool_decide (Status_ c = Status_ new)) as He
    by (unfold same_status; by destruct c as [? [] ? ? ? ?], (Status_ new)).
  unfold update_existing, merge_condition. rewrite He.
  case_bool_decide as E; [|reflexivity]. rewrite <- E. reflexivity.
Qed.

Lemma set_conditions v p g v' : set_field (encode_status v p g) "Conditions" v' = encode_status v' p g.
Proof. done. Qed.

(** An update of one slot of the slice. *)
Lemma slice_insert (a : list gval) off n i x :
  off + n <= length a -> i < n ->
  take n (drop off (<[off + i := x]> a)) = <[i := x]> (take n (drop off a)).
Proof.
  intros Hn Hi. apply list_eq. intros j. destruct (decide (j < n)) as [Hj|Hj].
  - rewrite lookup_take_lt, lookup_drop by done. destruct (decide (j = i)) as [->|Hne].
    + rewrite !list_lookup_insert_eq; [done|rewrite length_take, length_drop; lia|lia].
    + rewrite !list_lookup_insert_ne by lia. by rewrite lookup_take_lt, lookup_drop.
  - rewrite !(proj2 (lookup_ge_None _ _)); [done|rewrite length_insert|]; rewrite length_take; lia.
Qed.

Lemma slice_append (a : list gval) off n x :
  off + n < length a -> take (S n) (drop off (<[off + n := x]> a)) = take n (drop off a) ++ [x].
Proof.
  intros Hn. rewrite (take_S_r _ _ x).
  - f_equal. apply list_eq. intros j. destruct (decide (j < n)) as [Hj|Hj].
    + rewrite !lookup_take_lt, !lookup_drop by done. by rewrite list_lookup_insert_ne by lia.
    + by rewrite !lookup_take_ge by lia.
  - rewrite lookup_drop. by apply list_lookup_insert_eq.
Qed.

(** [append] to a slice of conditions. *)
Lemma append_conditions grow h v cs l c :
  conditions_in h v cs l ->
  exists l', conditions_in (append_slice grow v (encode_condition c) h).2
               (append_slice grow v (encode_condition c) h).1 (cs ++ [c]) (Some l') /\
    length h <= length (append_slice grow v (encode_condition c) h).2 /\
    (Some l' = l \/ length h <= l' < length (append_slice grow v (encode_condition c) h).2) /\
    (forall k, k < length h -> Some k <> l -> (append_slice grow v (encode_condition c) h).2 !! k = h !! k).
Proof.
  destruct v as [| |[[[k off] n]|]| |]; try done; cbn [conditions_in append_slice].
  - intros (a & Hk & Hn & Hcs & ->). unfold array_at. rewrite Hk.
    pose proof (lookup_lt_Some _ _ _ Hk) as Hkl. destruct (off + n <? length a)%nat eqn:En; cbn [fst snd].
    + apply Nat.ltb_lt in En. exists k. rewrite length_insert. split_and!; [|done|by left|].
      * exists (<[off + n := encode_condition c]> a). rewrite list_lookup_insert_eq, length_insert by done.
        split; [done|]. split; [lia|]. by rewrite slice_append, Hcs, map_app by done.
      * intros j Hj Hne. rewrite list_lookup_insert_ne by congruence. done.
    + exists (length h). rewrite length_app. cbn [length]. split_and!; [|lia|right; lia|].
      * eexists. rewrite lookup_app_r, Nat.sub_diag by lia. split; [reflexivity|].
        rewrite length_app, slice_length by done. cbn [length]. split; [lia|]. rewrite drop_0.
        rewrite take_app, slice_length, Nat.sub_succ_l, Nat.sub_diag, firstn_all2 by (rewrite ?slice_length by done; lia).
        cbn. by rewrite take_0, Hcs, map_app.
      * intros j Hj _. by rewrite lookup_app_l.
  - intros [-> ->]. exists (length h). cbn [fst snd]. rewrite length_app. cbn [length]. split_and!; [|lia|right; lia|].
    + eexists. rewrite lookup_app_r, Nat.sub_diag by lia. split; [reflexivity|]. cbn. split; [lia|done].
    + intros j Hj _. by rewrite lookup_app_l.
Qed.

(** A step on the status: it denotes the updated value, in its own cells or in new
    ones, and every other cell is as it was. *)
Definition op_effect (h h' : heap) (s : nat) (st' : PodRestoreStatus) (ls : list nat) : Prop :=
  exists ls', status_in h' s st' ls' /\ length h <= length h' /\
    (forall l, l ∈ ls' -> l ∈ ls \/ length h <= l) /\ (forall l, l < length h -> l ∉ ls -> h' !! l = h !! l).

(** The array of the conditions is not the cell of the struct. *)
Lemma conditions_cell h v cs l s w :
  conditions_in h v cs l -> h !! s = Some (VStruct w) -> l <> Some s.
Proof.
  destruct v as [| |[[[k off] n]|]| |]; try done; cbn.
  - intros (a & Hk & _ & _ & ->) Hs [= ->]. congruence.
  - by intros [_ ->].
Qed.

Lemma conditions_store h v cs l s c :
  conditions_in h v cs l -> l <> Some s -> conditions_in (<[s := c]> h) v cs l.
Proof.
  destruct v as [| |[[[k off] n]|]| |]; try done; cbn. intros (a & Hk & Hn & Hcs & ->) Hne.
  exists a. by rewrite list_lookup_insert_ne by congruence.
Qed.

(** A new struct in cell [s], after its conditions were put in place. *)
Lemma store_status h h1 s v l st st' ls v' l' :
  h !! s = Some (encode_status v (pr_PodName st) (pr_ObservedGeneration st)) ->
  ls = s :: option_list l -> l <> Some s -> length h <= length h1 ->
  conditions_in h1 v' (pr_Conditions st') l' -> l' = l \/ (exists k, l' = Some k /\ length h <= k) ->
  (forall k, k < length h -> Some k <> l -> h1 !! k = h !! k) ->
  op_effect h (<[s := encode_status v' (pr_PodName st') (pr_ObservedGeneration st')]> h1) s st' ls.
Proof.
  intros Hs -> Hls Hlen Hc Hl' Hold. pose proof (lookup_lt_Some _ _ _ Hs) as Hsl.
  exists (s :: option_list l'). rewrite length_insert. split_and!.
  - exists v', l'. rewrite list_lookup_insert_eq by lia. split; [done|]. split; [|done].
    apply conditions_store; [done|]. destruct Hl' as [->|(k & -> & Hk)]; [done|]. intros [= ->]. lia.
  - lia.
  - intros k [->|Hk]%elem_of_cons; [left; set_solver|]. destruct Hl' as [->|(j & -> & Hj)]; [left; set_solver|].
    apply list_elem_of_singleton in Hk as ->. by right.
  - intros k Hk Hnot. rewrite list_lookup_insert_ne by set_solver. apply Hold; [done|].
    intros <-. apply Hnot. simpl. set_solver.
Qed.

Lemma SetStatusCondition_refines grow h s st ls now new :
  status_in h s st ls ->
  op_effect h (run_op grow s (OpCondition now new) h).2 s (apply_op st (OpCondition now new)) ls.
Proof.
  intros (v & l & Hs & Hc & Hls). pose proof (conditions_cell _ _ _ _ _ _ Hc Hs) as Hne.
  assert (find_index (Type_ new) (map encode_condition (pr_Conditions st)) = None ->
    op_effect h (<[s := set_field (encode_status v (pr_PodName st) (pr_ObservedGeneration st)) "Conditions"
                          (append_slice grow v (encode_condition (with_time now new)) h).1]>
                   (append_slice grow v (encode_condition (with_time now new)) h).2) s
      (apply_op st (OpCondition now new)) ls) as Happ.
  { intros Hf. rewrite set_conditions.
    destruct (append_conditions grow _ _ _ _ (with_time now new) Hc) as (l' & Hc' & Hlen & Hl' & Hold).
    refine (store_status h _ s v l st (apply_op st (OpCondition now new)) ls _ (Some l') Hs Hls Hne Hlen _ _ Hold).
    - cbn. rewrite (find_index_None now (Type_ new)) by done. exact Hc'.
    - destruct Hl' as [->|[? ?]]; [by left|right; eauto]. }
  unfold run_op, SetStatusCondition_mem, load, mbind, M_bind, store. rewrite Hs. cbn [default from_option id].
  change (field (encode_status _ _ _) "Conditions") with v.
  destruct v as [| |[[[k off] n]|]| |]; try done.
  - destruct Hc as (a & Hk & Hn & Hcs & ->). cbn [elements]. unfold elements, array_at. rewrite Hk, Hcs.
    destruct (find_index (Type_ new) _) as [i|] eqn:Ef.
    + destruct (find_index_Some now _ _ new i Ef eq_refl) as (c & Hi & Hset).
      rewrite list_lookup_fmap, Hi. cbn [fmap option_fmap option_map default from_option id].
      rewrite update_existing_merge. unfold set_elem, array_at. rewrite Hk. cbn [snd].
      pose proof (lookup_lt_Some _ _ _ Hk) as Hkl. pose proof (lookup_lt_Some _ _ _ Hi) as Hil.
      rewrite <- (length_map encode_condition), <- Hcs, slice_length in Hil by done. exists ls. rewrite length_insert.
      split_and!; [|done|by left|]; subst ls.
      * exists (VSlice (Some (k, off, n))), (Some k). rewrite list_lookup_insert_ne by congruence.
        split; [done|]. split; [|done]. eexists. rewrite list_lookup_insert_eq by done. split; [done|].
        rewrite length_insert, slice_insert, Hcs by done. split; [done|]. split; [|done].
        cbn. rewrite Hset. by rewrite <- list_fmap_insert.
      * intros j Hj Hnot. rewrite list_lookup_insert_ne; [done|]. intros ->. apply Hnot. simpl. set_solver.
    + specialize (Happ eq_refl). by destruct (append_slice _ _ _ _).
  - cbn in Hc. destruct Hc as [Hc ->]. rewrite Hc in Happ. specialize (Happ eq_refl).
    by destruct (append_slice _ _ _ _).
Qed.

Lemma run_op_refines grow h s st ls op :
  status_in h s st ls -> op_effect h (run_op grow s op h).2 s (apply_op st op) ls.
Proof.
  intros Hst. destruct op as [now c|n|g]; [by apply SetStatusCondition_refines|..];
    destruct Hst as (v & l & Hs & Hc & Hls); pose proof (conditions_cell _ _ _ _ _ _ Hc Hs) as Hne;
    unfold run_op, load, store, mbind, M_bind; rewrite Hs; cbn [default from_option id snd].
  - refine (store_status h h s v l st (apply_op st (OpPodName n)) ls v l Hs Hls Hne _ _ _ _); auto.
  - refine (store_status h h s v l st (apply_op st (OpGeneration g)) ls v l Hs Hls Hne _ _ _ _); auto.
Qed.

Lemma run_ops_refines grow s ops h st ls (keep : list nat) :
  status_in h s st ls -> (forall l, l ∈ keep -> l < length h /\ l ∉ ls) ->
  (exists ls', status_in (run_ops grow s ops h) s (fold_left apply_op ops st) ls') /\
  forall l, l ∈ keep -> run_ops grow s ops h !! l = h !! l.
Proof.
  revert h st ls. induction ops as [|op ops IH]; intros h st ls Hst Hkeep; [split; [by exists ls|done]|].
  destruct (run_op_refines grow h s st ls op Hst) as (ls' & Hst' & Hlen & Hls & Hold).
  destruct (IH _ _ _ Hst') as [Hfin Hk].
  - intros l Hl. destruct (Hkeep l Hl) as [Hlt Hnot]. split; [lia|]. intros Hin. destruct (Hls l Hin); [done|lia].
  - split; [exact Hfin|]. intros l Hl. destruct (Hkeep l Hl) as [Hlt Hnot].
    etrans; [by apply Hk|by apply Hold].
Qed.

#[local] Instance encode_condition_inj : Inj (=) (=) encode_condition.
Proof.
  intros c d. destruct c as [? s ? ? ? ?], d as [? t ? ? ? ?]. unfold encode_condition. cbn. intros [= -> Hs -> -> -> ->].
  by destruct s, t.
Qed.

Lemma status_in_functional h s st st' ls ls' : status_in h s st ls -> status_in h s st' ls' -> st = st'.
Proof.
  intros (v & l & Hs & Hc & _) (v' & l' & Hs' & Hc' & _). rewrite Hs in Hs'. injection Hs' as <- Hp Hg.
  destruct st as [cs p g], st' as [cs' p' g']. cbn in *. subst. f_equal.
  destruct v as [| |[[[k off] n]|]| |]; try done; cbn in *.
  - destruct Hc as (a & Hk & _ & Ha & _), Hc' as (a' & Hk' & _ & Ha' & _). rewrite Hk in Hk'. injection Hk' as <-.
    rewrite Ha in Ha'. by apply (inj (fmap encode_condition)) in Ha'.
  - destruct Hc as [-> _], Hc' as [-> _]. done.
Qed.

Lemma saveStatus_untouched faults pr before res w :
  (saveStatus faults pr before res w).2 = w <->
  before = apply_op (pr_Status pr) (OpGeneration (pr_Generation pr)).
Proof.
  unfold saveStatus. case_bool_decide as E; cbn in E; [split; [by intros _|done]|]. split; [|done].
  intros Hw. exfalso. unfold update_status, api_call, tick in Hw.
  apply (f_equal w_calls) in Hw. revert Hw. repeat (split_match; cbn); lia.
Qed.

(** C17. The snapshot comparison of the PodRestore controller is sound.  Take a status
    in memory, snapshot it with [DeepCopy], and change it in place by any
    conditions, Pod name and generation, however [append] grows its arrays.  Then
    the snapshot still holds the old status, the status holds what the value-level
    updates give, and [DeepEqual] of the two answers whether those differ: a
    reconcile that ends with [saveStatus] leaves the API server alone exactly when
    the comparison in memory finds the two equal. *)
Theorem status_snapshot_sound grow faults h s st ls ops pr res w :
  status_in h s st ls -> pr_Status pr = fold_left apply_op ops st ->
  exists b h1, PodRestoreStatus_DeepCopy (VPtr (Some s)) h = (VPtr (Some b), h1) /\
    let h2 := run_ops grow s (ops ++ [OpGeneration (pr_Generation pr)]) h1 in
    (exists ls', status_in h2 b st ls') /\
    (exists ls', status_in h2 s (apply_op (pr_Status pr) (OpGeneration (pr_Generation pr))) ls') /\
    (DeepEqual h2 b s <-> (saveStatus faults pr st res w).2 = w).
Proof.
  intros Hst Hpr. destruct (status_in_read _ _ _ _ Hst) as (nilp & Hnil & Hr).
  pose proof (DeepCopy_copies _ _ PodRestoreStatus_copies _ _ _ _ Hr) as Hc.
  fold PodRestoreStatus_DeepCopy in Hc.
  assert (exists b h1, PodRestoreStatus_DeepCopy (VPtr (Some s)) h = (VPtr (Some b), h1)) as (b & h1 & Hcp).
  { unfold PodRestoreStatus_DeepCopy, DeepCopy, mbind, M_bind, alloc, load, store, mret, M_ret.
    destruct (PodRestoreStatus_DeepCopyInto _ _). eauto. }
  rewrite Hcp in Hc. cbn [fst snd] in Hc. exists b, h1. split; [done|]. intros h2.
  destruct Hc as [Hp (lc & Hrc & _ & Hfr)]. apply (read_status_in _ _ _ _ _ Hnil) in Hrc.
  assert (status_in h1 s st ls) as Hst1.
  { apply (read_status_in _ _ _ _ nilp Hnil). by eapply read_prefix. }
  destruct (run_ops_refines grow s (ops ++ [OpGeneration (pr_Generation pr)]) h1 st ls lc Hst1) as [[ls' Hfin] Hkeep].
  { intros l Hl. specialize (Hfr l Hl). split; [lia|]. intros Hin.
    pose proof (read_bound _ _ _ _ l Hr Hin). lia. }
  fold h2 in Hfin, Hkeep. rewrite fold_left_app, <- Hpr in Hfin. cbn [fold_left] in Hfin.
  assert (status_in h2 b st lc) as Hb.
  { destruct (status_in_read _ _ _ _ Hrc) as (nb & Hnb & Hrb). apply (read_status_in _ _ _ _ nb Hnb).
    eapply read_agree; [exact Hrb|]. intros l Hl. by apply Hkeep. }
  split; [by exists lc|]. split; [by exists ls'|]. rewrite saveStatus_untouched. split.
  - intros (st' & l1 & l2 & H1 & H2). rewrite (status_in_functional _ _ _ _ _ _ Hb H1).
    by apply (status_in_functional _ _ _ _ _ _ H2 Hfin).
  - intros ->. exists (apply_op (pr_Status pr) (OpGeneration (pr_Generation pr))), lc, ls'. done.
Qed.

(** ** Witnesses *)

Definition demo_external : External :=
  {| ObjectMeta_type := TStruct [ ("Name", TScalar); ("Finalizers", TSlice TScalar) ];
     ObjectMeta_DeepCopyInto := copy_struct [ ("Finalizers", make_copy) ];
     ListMeta_type := TStruct [ ("RemainingItemCount", TPtr TScalar) ];
     ListMeta_DeepCopyInto := copy_struct [ ("RemainingItemCount", new_assign) ];
     LabelSelector_type := TStruct [ ("MatchLabels", TSlice TScalar) ];
     LabelSelector_DeepCopyInto := copy_struct [ ("MatchLabels", make_copy) ];
     PodTemplateSpec_type := TScalar; PodTemplateSpec_DeepCopyInto := assign;
     Quantity_type := TScalar; Quantity_DeepCopy := assign |}.

Lemma demo_external_laws : ExternalLaws demo_external.
Proof. split; cbn; first [solve_copies|auto with deepcopy]. Qed.

(** Two thresholds that share one cell. *)
Definition demo_heap : heap :=
  [ VScalar (SInt 80); VStruct [ ("Upper", VPtr (Some 0)); ("Lower", VPtr (Some 0)) ] ].

Lemma DeepCopy_isolates_witness :
  exists p' h' ls', DeepCopy ResourcePercentThreshold_DeepCopyInto (VPtr (Some 1)) demo_heap = (p', h') /\
    NoDup ls' /\ length ls' = 3 /\
    read (<[0 := VScalar (SInt 10)]> h') (TPtr ResourcePercentThreshold_type) p' =
      Some (APtr (AStruct [ ("Upper", APtr (AScalar (SInt 80))); ("Lower", APtr (AScalar (SInt 80))) ]), ls').
Proof.
  destruct (DeepCopy_isolates demo_external "ResourcePercentThreshold" ResourcePercentThreshold_type
              ResourcePercentThreshold_DeepCopyInto demo_heap (VPtr (Some 1))
              (APtr (AStruct [ ("Upper", APtr (AScalar (SInt 80))); ("Lower", APtr (AScalar (SInt 80))) ])) [1; 0; 0])
    as (p' & h' & ls' & Hc & _ & _ & Hn & _ & _ & Hcopy & _).
  - exact demo_external_laws.
  - unfold api_types. do 8 (apply elem_of_cons; right). apply elem_of_cons; left. reflexivity.
  - reflexivity.
  - exists p', h', ls'. split; [exact Hc|]. split; [exact Hn|].
    assert (read (<[0 := VScalar (SInt 10)]> h') (TPtr ResourcePercentThreshold_type) p' =
      Some (APtr (AStruct [ ("Upper", APtr (AScalar (SInt 80))); ("Lower", APtr (AScalar (SInt 80))) ]), ls')) as Hr.
    { apply Hcopy. intros l Hl. apply list_lookup_insert_ne. cbn in Hl. lia. }
    split; [|exact Hr]. vm_compute in Hc. injection Hc as <- <-. vm_compute in Hr. injection Hr as <-. reflexivity.
Defined.

Definition demo_condition (s : ConditionStatus) : Condition :=
  {| Type_ := "Ready"; Status_ := s; CondGeneration := 1; LastTransitionTime := 5%Z; Reason := "Restoring"; Message := "" |}.
Definition demo_status : PodRestoreStatus :=
  {| pr_Conditions := [demo_condition ConditionFalse]; pr_PodName := "web"; pr_ObservedGeneration := 1 |}.
Definition demo_status_heap : heap :=
  [ encode_status (VSlice (Some (1, 0, 1))) "web" 1; VArray [encode_condition (demo_condition ConditionFalse)] ].
Definition demo_ops : list status_op := [OpCondition 9%Z (demo_condition ConditionTrue)].

Lemma status_snapshot_sound_witness :
  exists b h1, PodRestoreStatus_DeepCopy (VPtr (Some 0)) demo_status_heap = (VPtr (Some b), h1) /\
    ~ DeepEqual (run_ops (fun _ => 0) 0 (demo_ops ++ [OpGeneration (pr_Generation (demo_pr false))]) h1) b 0.
Proof.
  pose (pr := set_status (demo_pr false) (fold_left apply_op demo_ops demo_status)).
  destruct (status_snapshot_sound (fun _ => 0) (fun _ => None) demo_status_heap 0 demo_status [0; 1] demo_ops pr
              no_requeue (demo_world pr ∅)) as (b & h1 & Hc & _ & _ & Heq).
  - exists (VSlice (Some (1, 0, 1))), (Some 1). split; [reflexivity|]. split; [|reflexivity].
    eexists. split; [reflexivity|]. split; [apply le_n|]. split; reflexivity.
  - reflexivity.
  - exists b, h1. split; [exact Hc|]. intros Hd.    apply Heq in Hd.
    apply (f_equal w_calls) in Hd. vm_compute in Hd. discriminate Hd.
Defined.
