(* ===== verification/Checksum.v ===== *)
(** * Checkpoint checksums ([checksum.go])

    The API server as the forensic controller sees it, the helper Pod that runs
    [sha256sum] on the node and the parsing of its log.  Every API call may fail as
    the fault oracle says; the clock is read at the number of calls made so far;
    what the kubelet makes of a helper Pod (its phase at each poll, its log) is an
    oracle too.  Logs are ASCII text. *)

From stdpp Require Import pretty.
From S2P Require Import Prelude GoStrings Kube Api Creator Triggers.
Open Scope string_scope.
Open Scope list_scope.
Open Scope Z_scope.

(** ** The world of the forensic controller *)

(** What the helper Pod's spec says beyond [Pod]: the command, the restart policy
    and the read-only host path it mounts. *)
Record HelperSpec := {
  hs_Command : list string;
  hs_RestartPolicy : string;
  hs_HostPath : string;
  hs_HostPathType : string;
  hs_MountPath : string;
  hs_ReadOnly : bool
}.

(** The writes the API server accepted, in order. *)
Inductive fc_event :=
| EvStatus (s : ForensicSnapshotChainStatus)
| EvHelperCreated (ns name : string) (spec : HelperSpec)
| EvHelperDeleted (ns name : string)
| EvPodDeleted (p : Pod).

Record fc_world := {
  fw_obj : option ForensicSnapshotChain;
  fw_pods : list Pod;
  fw_calls : nat;
  fw_ck : ck_log;
  fw_events : list fc_event
}.

Definition fw_tick (w : fc_world) : fc_world :=
  {| fw_obj := fw_obj w; fw_pods := fw_pods w; fw_calls := S (fw_calls w); fw_ck := fw_ck w;
     fw_events := fw_events w |}.

Definition same_pod (ns name : string) (p : Pod) : bool :=
  (p_namespace p =? ns)%string && (p_name p =? name)%string.

Record kubelet := {
  kb_poll : string -> nat -> PodPhase * string;              (* phase and message *)
  kb_logs : string -> result string (string * option string)  (* the stream, and how it ends *)
}.

Inductive checksum_error :=
| HelperCreate (e : apierror)
| HelperGet (e : apierror)
| HelperFailed (message : string)
| HelperTimeout
| LogStream (e : string)
| LogRead (e : string)
| LogLineTooLong
| NoOutput.

(** ** The log *)

(** [bufio.MaxScanTokenSize] *)
Definition MaxScanTokenSize : Z := 65536.

Definition dropCR (line : string) : string :=
  match String.length line with
  | O => line
  | S n => if (String.substring n 1 line =? String (ascii_of_nat 13) "")%string
           then String.substring 0 n line else line
  end.

(** The lines of the data; an unterminated last line counts if it is not empty. *)
Definition raw_lines (data : string) : list string :=
  let ls := split_on (ascii_of_nat 10) data in
  match List.rev ls with
  | "" :: rest => List.rev rest
  | _ => ls
  end.

(** The scan loop of [parseSHA256FromLogs]: a line that does not fit in the
    buffer ends the scan. *)
Fixpoint scan_sha256 (lines : list string) (read_err : option string) : result checksum_error string :=
  match lines with
  | [] => match read_err with
          | Some e => Err (LogRead e)
          | None => Err NoOutput
          end
  | line :: lines' =>
      if MaxScanTokenSize <=? Z.of_nat (String.length line) then Err LogLineTooLong
      else
        match Fields (TrimSpace (dropCR line)) with
        | f :: _ :: _ => Ok f
        | _ => scan_sha256 lines' read_err
        end
  end.

Definition parseSHA256FromLogs (data : string) (read_err : option string) : result checksum_error string :=
  scan_sha256 (raw_lines data) read_err.

(** ** The helper Pod *)

Section Checksum.
Context (faults : nat -> option apierror) (clock : nat -> Time) (kb : kubelet).

(** One API call. *)
Definition fw_call {A} (w : fc_world) (f : fc_world -> result apierror A * fc_world)
  : result apierror A * fc_world :=
  match faults (fw_calls w) with
  | Some e => (Err e, fw_tick w)
  | None => f (fw_tick w)
  end.

Definition fw_emit (w : fc_world) (pods : list Pod) (ev : fc_event) : fc_world :=
  {| fw_obj := fw_obj w; fw_pods := pods; fw_calls := fw_calls w; fw_ck := fw_ck w;
     fw_events := fw_events w ++ [ev] |}.

Definition helper_pod (ns nodeName helperPodName : string) : Pod :=
  {| p_name := helperPodName; p_namespace := ns; p_annotations := ∅; p_labels := ∅;
     controller_uid := None; p_deleting := false;
     p_spec := {| NodeName := nodeName;
                  Containers := [ {| c_name := "checksum-helper"; c_image := "alpine:latest"; c_limits := ∅ |} ] |};
     p_phase := PodPending; p_reason := ""; p_message := ""; p_conditions := [] |}.

Definition helper_spec (snapshotPath : string) : HelperSpec :=
  {| hs_Command := ["sh"; "-c"; "sha256sum " +:+ snapshotPath];
     hs_RestartPolicy := "Never";
     hs_HostPath := "/var/lib/kubelet/checkpoints"; hs_HostPathType := "Directory";
     hs_MountPath := "/var/lib/kubelet/checkpoints"; hs_ReadOnly := true |}.

Definition create_helper (ns nodeName helperPodName snapshotPath : string) (w : fc_world)
  : result apierror unit * fc_world :=
  fw_call w (fun w =>
    if existsb (same_pod ns helperPodName) (fw_pods w) then (Err AlreadyExists, w)
    else (Ok tt, fw_emit w (fw_pods w ++ [helper_pod ns nodeName helperPodName])
                   (EvHelperCreated ns helperPodName (helper_spec snapshotPath)))).

(** The deferred delete; its error is dropped. *)
Definition delete_helper (ns helperPodName : string) (w : fc_world) : fc_world :=
  snd (fw_call w (fun w =>
    if existsb (same_pod ns helperPodName) (fw_pods w)
    then (Ok tt, fw_emit w (List.filter (fun p => negb (same_pod ns helperPodName p)) (fw_pods w))
                   (EvHelperDeleted ns helperPodName))
    else (Err NotFound, w))).

Definition helper_polls : nat := 30.

(** The wait loop from poll [i]; [polls] of them remain. *)
Fixpoint wait_helper (polls i : nat) (ns helperPodName : string) (w : fc_world)
  : result checksum_error unit * fc_world :=
  match polls with
  | O => (Ok tt, w)
  | S polls =>
      let '(g, w) := fw_call w (fun w => if existsb (same_pod ns helperPodName) (fw_pods w)
                                         then (Ok tt, w) else (Err NotFound, w)) in
      match g with
      | Err e => (Err (HelperGet e), w)
      | Ok _ =>
          let '(phase, message) := kb_poll kb helperPodName i in
          match phase with
          | PodSucceeded => (Ok tt, w)
          | PodFailed => (Err (HelperFailed message), w)
          | _ => if (i =? 29)%nat then (Err HelperTimeout, w)
                 else wait_helper polls (S i) ns helperPodName w
          end
      end
  end.

Definition helperPodName_at (t : Time) : string := "checksum-helper-" +:+ pretty t.

Definition computeChecksum (ns nodeName snapshotPath : string) (w : fc_world)
  : result checksum_error string * fc_world :=
  let helperPodName := helperPodName_at (clock (fw_calls w)) in
  match create_helper ns nodeName helperPodName snapshotPath w with
  | (Err e, w) => (Err (HelperCreate e), w)
  | (Ok _, w) =>
      let '(r, w) := wait_helper helper_polls 0 ns helperPodName w in
      let res := match r with
                 | Err e => Err e
                 | Ok _ => match kb_logs kb helperPodName with
                           | Err e => Err (LogStream e)
                           | Ok (data, read_err) => parseSHA256FromLogs data read_err
                           end
                 end in
      (res, delete_helper ns helperPodName w)
  end.
End Checksum.

(** ** Properties *)

(** What a reconcile step of the helper keeps: the chain object and the
    checkpoint log; only helper events are added. *)
Definition helper_event (ev : fc_event) : Prop :=
  match ev with EvHelperCreated _ _ _ | EvHelperDeleted _ _ => True | _ => False end.

Definition helper_frame (w w' : fc_world) : Prop :=
  fw_obj w' = fw_obj w /\ fw_ck w' = fw_ck w /\ (fw_calls w <= fw_calls w')%nat /\
  exists evs, fw_events w' = fw_events w ++ evs /\ Forall helper_event evs.

Lemma helper_frame_refl w : helper_frame w w.
Proof. split_and!; [done..|]. exists []. by rewrite app_nil_r. Qed.

Lemma helper_frame_tick w : helper_frame w (fw_tick w).
Proof. split_and!; simpl; [done|done|lia|]. exists []. by rewrite app_nil_r. Qed.

Lemma helper_frame_emit w pods ev : helper_event ev -> helper_frame w (fw_emit (fw_tick w) pods ev).
Proof. intros H. split_and!; simpl; [done|done|lia|]. exists [ev]. by split; [|constructor]. Qed.

Lemma helper_frame_trans w1 w2 w3 : helper_frame w1 w2 -> helper_frame w2 w3 -> helper_frame w1 w3.
Proof.
  intros (O1 & C1 & K1 & e1 & E1 & F1) (O2 & C2 & K2 & e2 & E2 & F2).
  split_and!; [congruence|congruence|lia|]. exists (e1 ++ e2). rewrite E2, E1, app_assoc.
  split; [done|]. by apply Forall_app.
Qed.

(** The first line with at least two fields, of those that fit in the buffer. *)
Definition sum_line (lines : list string) (h : string) : Prop :=
  exists before line after f2 fs, lines = before ++ line :: after /\
    Fields (TrimSpace (dropCR line)) = h :: f2 :: fs /\
    Forall (fun l => Z.of_nat (String.length l) < MaxScanTokenSize) (before ++ [line]) /\
    Forall (fun l => (length (Fields (TrimSpace (dropCR l))) < 2)%nat) before.

Lemma scan_sha256_Ok lines re h : scan_sha256 lines re = Ok h -> sum_line lines h.
Proof.
  induction lines as [|l lines IH]; simpl; [by destruct re|].
  destruct (MaxScanTokenSize <=? Z.of_nat (String.length l)) eqn:El; [done|]. to_prop. intros H.
  destruct (Fields (TrimSpace (dropCR l))) as [|f [|f2 fs]] eqn:Ef.
  1,2: destruct (IH H) as (b & x & a & g2 & gs & -> & Hx & Hb & Hs); exists (l :: b), x, a, g2, gs;
    split_and!; try done; [constructor; [lia|done]|constructor; [rewrite Ef; simpl; lia|done]].
  simplify_eq. exists [], l, lines, f2, fs. split_and!; try done. repeat constructor. lia.
Qed.

Lemma fields_from_nonempty cur s x : x ∈ fields_from cur s -> x <> "".
Proof.
  revert cur. induction s as [|c s IH]; intros cur; simpl.
  - destruct (cur =? "")%string eqn:E; to_prop; [by intros ?%elem_of_nil|].
    by intros ->%list_elem_of_singleton.
  - destruct (is_space c); [|apply IH].
    destruct (cur =? "")%string eqn:E; to_prop; [apply IH|].
    intros [->|H]%elem_of_cons; [done|by eapply IH].
Qed.

(** A checksum is never empty. *)
Lemma parse_nonempty data re h : parseSHA256FromLogs data re = Ok h -> h <> "".
Proof.
  intros (b & l & a & f2 & fs & _ & H & _)%scan_sha256_Ok. apply (fields_from_nonempty "" (TrimSpace (dropCR l))).
  unfold Fields in H. rewrite H. by left.
Qed.

Lemma wait_helper_spec faults kb polls i ns name w r w' :
  (i + polls = helper_polls)%nat -> wait_helper faults kb polls i ns name w = (r, w') ->
  helper_frame w w' /\ fw_pods w' = fw_pods w /\ fw_events w' = fw_events w /\
  (fw_calls w' <= fw_calls w + polls)%nat /\
  (r = Ok tt -> polls <> 0%nat ->
   exists j, (i <= j < helper_polls)%nat /\ (kb_poll kb name j).1 = PodSucceeded /\
     forall k, (i <= k < j)%nat -> (kb_poll kb name k).1 <> PodSucceeded /\ (kb_poll kb name k).1 <> PodFailed).
Proof.
  revert i w. induction polls as [|polls IH]; intros i w Hi H; simpl in H.
  { simplify_eq. split; [apply helper_frame_refl|]. split_and!; try done. lia. }
  unfold fw_call in H. destruct (faults (fw_calls w)) as [e|].
  { simplify_eq. split; [apply helper_frame_tick|]. split_and!; try done. simpl; lia. }
  destruct (existsb _ _).
  2:{ simplify_eq. split; [apply helper_frame_tick|]. split_and!; try done. simpl; lia. }
  destruct (kb_poll kb name i) as [ph msg] eqn:Ep.
  assert (ph = PodSucceeded \/ ph = PodFailed \/ (ph <> PodSucceeded /\ ph <> PodFailed)) as [->|[->|[N1 N2]]]
    by (destruct ph; auto).
  - simplify_eq. split; [apply helper_frame_tick|]. split_and!; try done; [simpl; lia|].
    intros _ _. exists i. split; [lia|]. rewrite Ep. split; [done|]. intros k Hk. lia.
  - simplify_eq. split; [apply helper_frame_tick|]. split_and!; try done. simpl; lia.
  - assert ((if (i =? 29)%nat then (Err HelperTimeout, fw_tick w)
             else wait_helper faults kb polls (S i) ns name (fw_tick w)) = (r, w')) as H2 by (by destruct ph).
    destruct (i =? 29)%nat eqn:E29; [apply Nat.eqb_eq in E29|apply Nat.eqb_neq in E29].
    { simplify_eq. split; [apply helper_frame_tick|]. split_and!; try done. simpl; lia. }
    apply IH in H2 as (F & P & V & C & R); [|lia]. simpl in *.
    split; [eapply helper_frame_trans; [apply helper_frame_tick|done]|]. split_and!; try done.
    + lia.
    + intros Hr _. unfold helper_polls in *. destruct (R Hr) as (j & Hj & Hs & Hk); [lia|].
      exists j. split; [lia|]. split; [done|]. intros k Hk'. destruct (decide (k = i)) as [->|].
      * by rewrite Ep.
      * apply Hk. lia.
Qed.

Lemma delete_helper_spec faults ns name w :
  let w' := delete_helper faults ns name w in
  helper_frame w w' /\ fw_calls w' = S (fw_calls w) /\
  (faults (fw_calls w) = None -> fw_pods w' = List.filter (fun p => negb (same_pod ns name p)) (fw_pods w)).
Proof.
  unfold delete_helper, fw_call. destruct (faults (fw_calls w)); simpl.
  { split; [apply helper_frame_tick|]. by split. }
  destruct (existsb _ _) eqn:E; simpl.
  - split; [by apply helper_frame_emit|]. by split.
  - split; [apply helper_frame_tick|]. split; [done|]. intros _. symmetry. apply list_filter_all.
    intros p Hp. apply negb_true_iff, not_true_iff_false. intros Hs.
    apply not_true_iff_false in E. apply E, existsb_exists. eauto.
Qed.

Lemma filter_helper ns name node pods :
  existsb (same_pod ns name) pods = false ->
  List.filter (fun p => negb (same_pod ns name p)) (pods ++ [helper_pod ns node name]) = pods.
Proof.
  intros H. rewrite List.filter_app. simpl. unfold same_pod at 2. simpl. rewrite !String.eqb_refl. simpl.
  rewrite app_nil_r. apply list_filter_all. intros p Hp. apply negb_true_iff, not_true_iff_false. intros Hs.
  apply not_true_iff_false in H. apply H, existsb_exists. eauto.
Qed.

Lemma computeChecksum_spec faults clock kb ns node path w r w' :
  computeChecksum faults clock kb ns node path w = (r, w') ->
  let name := helperPodName_at (clock (fw_calls w)) in
  helper_frame w w' /\ (fw_calls w < fw_calls w' <= fw_calls w + 32)%nat /\
  (faults (pred (fw_calls w')) = None -> fw_pods w' = fw_pods w) /\
  (forall h, r = Ok h -> h <> "" /\
     (exists i, (i < 30)%nat /\ (kb_poll kb name i).1 = PodSucceeded /\
        forall j, (j < i)%nat -> (kb_poll kb name j).1 <> PodSucceeded /\ (kb_poll kb name j).1 <> PodFailed) /\
     exists data re, kb_logs kb name = Ok (data, re) /\ sum_line (raw_lines data) h).
Proof.
  intros H name. unfold computeChecksum, create_helper, fw_call in H. fold name in H.
  destruct (faults (fw_calls w)) as [e|].
  { simplify_eq. split; [apply helper_frame_tick|]. split; [simpl; lia|]. done. }
  destruct (existsb (same_pod ns name) (fw_pods (fw_tick w))) eqn:Ee; simpl in Ee.
  { simplify_eq. split; [apply helper_frame_tick|]. split; [simpl; lia|]. done. }
  set (w1 := fw_emit _ _ _) in H.
  assert (helper_frame w w1) as F1 by (by apply helper_frame_emit).
  destruct (wait_helper faults kb helper_polls 0 ns name w1) as [wr w2] eqn:Ew.
  apply wait_helper_spec in Ew as (F2 & P2 & _ & C2 & R2); [|done].
  destruct (delete_helper_spec faults ns name w2) as (F3 & C3 & P3). simplify_eq.
  split; [by eapply helper_frame_trans; [|eapply helper_frame_trans]|]. split.
  { destruct F2 as (_ & _ & F2 & _). rewrite C3. unfold helper_polls in *. simpl in *. lia. }
  split.
  - rewrite C3. simpl. intros Hf. rewrite P3, P2 by done. by apply filter_helper.
  - intros h Hr. destruct wr as [[]|]; [|done].
    destruct (kb_logs kb name) as [[data re]|] eqn:El; [|done].
    split; [by eapply parse_nonempty|]. split; [|by eauto using scan_sha256_Ok].
    destruct R2 as (j & Hj & Hs & Hk); [done|done|]. exists j. unfold helper_polls in *.
    split; [lia|]. split; [done|]. intros k Hlt. apply Hk. lia.
Qed.

(** A checksum takes a bounded number of API calls (at most 30 polls) whatever
    the cluster does; it touches neither the chain object nor any checkpoint;
    when its last call succeeds no helper Pod is left behind, on success and on
    every error path; and a checksum is returned only from the log of a helper
    seen to succeed: the non-empty first field of the first line with two. *)
Theorem computeChecksum_exact faults clock kb ns node path w :
  let '(r, w') := computeChecksum faults clock kb ns node path w in
  let name := helperPodName_at (clock (fw_calls w)) in
  helper_frame w w' /\ (fw_calls w < fw_calls w' <= fw_calls w + 32)%nat /\
  (faults (pred (fw_calls w')) = None -> fw_pods w' = fw_pods w) /\
  (forall h, r = Ok h -> h <> "" /\
     (exists i, (i < 30)%nat /\ (kb_poll kb name i).1 = PodSucceeded /\
        forall j, (j < i)%nat -> (kb_poll kb name j).1 <> PodSucceeded /\ (kb_poll kb name j).1 <> PodFailed) /\
     exists data re, kb_logs kb name = Ok (data, re) /\ sum_line (raw_lines data) h).
Proof.
  destruct (computeChecksum faults clock kb ns node path w) as [r w'] eqn:E.
  by apply computeChecksum_spec in E.
Qed.
