(* ===== verification/Forensic.v ===== *)
(** * The ForensicSnapshotChain controller
    ([forensicsnapshotchain_controller.go])

    One reconcile of a chain: the phase machine, the capture round with its hash
    chain, the stop conditions and the post-snapshot action.  Status updates go
    through the API server of [Checksum], whose calls may fail at will (a conflict
    stands for a concurrent writer); the checkpoint creator is the oracle of
    [Triggers]; the clock is read at the number of external calls made so far. *)

From stdpp Require Import pretty.
From S2P Require Import Prelude GoStrings Kube Api Creator Triggers Checksum.
Open Scope string_scope.
Open Scope list_scope.
Open Scope Z_scope.

Definition DefaultInterval : Duration := 30 * Second.
Definition maxConsecutiveCheckpointFailures : Z := 5.

Inductive fc_error :=
| FApi (e : apierror)
| FAlgorithm (message : string)
| FCheckpoint (e : checkpoint_error).

Definition captureInterval (chain : ForensicSnapshotChain) : Duration :=
  match fc_Interval (Capture (fs_Spec chain)) with
  | None => DefaultInterval
  | Some d => d
  end.

Definition ready_condition (st : ConditionStatus) (reason message : string) (now : Time) : Condition :=
  {| Type_ := "Ready"; Status_ := st; CondGeneration := 0; LastTransitionTime := now;
     Reason := reason; Message := message |}.

Definition with_status (chain : ForensicSnapshotChain) (s : ForensicSnapshotChainStatus) : ForensicSnapshotChain :=
  {| fs_Generation := fs_Generation chain; fs_Spec := fs_Spec chain; fs_Status := s |}.

(** ** The status changes *)

Definition to_pending (now : Time) (chain : ForensicSnapshotChain) : ForensicSnapshotChain :=
  let s := fs_Status chain in
  with_status chain
    {| fs_Conditions := SetStatusCondition now (fs_Conditions s)
         (ready_condition ConditionFalse "Pending"
            "ForensicSnapshotChain is pending, waiting to start snapshot chain" now);
       Phase := PhasePending; SnapshotCount := SnapshotCount s; AttemptCount := AttemptCount s;
       FailureCount := FailureCount s; StartTime := Some now; LastSnapshotTime := LastSnapshotTime s;
       CompletionTime := CompletionTime s; ErrorMessage := ErrorMessage s;
       fs_ObservedGeneration := fs_Generation chain; SnapshotChainRecords := SnapshotChainRecords s |}.

Definition to_running (now : Time) (chain : ForensicSnapshotChain) : ForensicSnapshotChain :=
  let s := fs_Status chain in
  with_status chain
    {| fs_Conditions := SetStatusCondition now (fs_Conditions s)
         (ready_condition ConditionFalse "Running"
            "ForensicSnapshotChain is running, snapshot chain is in progress" now);
       Phase := PhaseRunning; SnapshotCount := SnapshotCount s; AttemptCount := AttemptCount s;
       FailureCount := FailureCount s; StartTime := StartTime s; LastSnapshotTime := LastSnapshotTime s;
       CompletionTime := CompletionTime s; ErrorMessage := ErrorMessage s;
       fs_ObservedGeneration := fs_Generation chain; SnapshotChainRecords := SnapshotChainRecords s |}.

(** An unsupported hash algorithm. *)
Definition to_failed_algorithm (text : string) (now : Time) (latest : ForensicSnapshotChain)
  : ForensicSnapshotChain :=
  let s := fs_Status latest in
  with_status latest
    {| fs_Conditions := SetStatusCondition now (fs_Conditions s) (ready_condition ConditionFalse "Failed" text now);
       Phase := PhaseFailed; SnapshotCount := SnapshotCount s; AttemptCount := AttemptCount s;
       FailureCount := FailureCount s; StartTime := StartTime s; LastSnapshotTime := LastSnapshotTime s;
       CompletionTime := Some now; ErrorMessage := text;
       fs_ObservedGeneration := fs_ObservedGeneration s; SnapshotChainRecords := SnapshotChainRecords s |}.

Definition to_completed_duration (now : Time) (latest : ForensicSnapshotChain) : ForensicSnapshotChain :=
  let s := fs_Status latest in
  with_status latest
    {| fs_Conditions := SetStatusCondition now (fs_Conditions s)
         (ready_condition ConditionTrue "MaxDurationReached"
            "Snapshot chain stopped as it reached the maximum duration" now);
       Phase := PhaseCompleted; SnapshotCount := SnapshotCount s; AttemptCount := AttemptCount s;
       FailureCount := FailureCount s; StartTime := StartTime s; LastSnapshotTime := LastSnapshotTime s;
       CompletionTime := Some now; ErrorMessage := ErrorMessage s;
       fs_ObservedGeneration := fs_ObservedGeneration s; SnapshotChainRecords := SnapshotChainRecords s |}.

(** A failed round. *)
Definition record_failure (giveUp : bool) (text : string) (now : Time) (latest : ForensicSnapshotChain)
  : ForensicSnapshotChain :=
  let s := fs_Status latest in
  with_status latest
    {| fs_Conditions := SetStatusCondition now (fs_Conditions s)
         (ready_condition ConditionFalse (if giveUp then "CheckpointFailed" else "CheckpointError") text now);
       Phase := if giveUp then PhaseFailed else Phase s;
       SnapshotCount := SnapshotCount s; AttemptCount := AttemptCount s;
       FailureCount := int32 (FailureCount s + 1); StartTime := StartTime s;
       LastSnapshotTime := LastSnapshotTime s;
       CompletionTime := if giveUp then Some now else CompletionTime s; ErrorMessage := text;
       fs_ObservedGeneration := fs_ObservedGeneration s; SnapshotChainRecords := SnapshotChainRecords s |}.

(** What a capture round collected. *)
Record round := {
  captured : Z;
  newRecords : list SnapshotChainRecord;
  integrityFailed : bool;
  integrityMessage : string;
  previousHash : string
}.

Definition appendRoundRecords (now : Time) (latest : ForensicSnapshotChain)
    (records : list SnapshotChainRecord) (hashingEnabled failed : bool) (message : string)
  : ForensicSnapshotChain :=
  if (length records =? 0)%nat then latest
  else
    let s := fs_Status latest in
    let cond :=
      {| Type_ := "IntegrityVerified";
         Status_ := if failed then ConditionFalse else ConditionTrue; CondGeneration := 0;
         LastTransitionTime := now;
         Reason := if failed then "HashGenerationFailed" else "HashGenerationSucceeded";
         Message := if failed then message else "all snapshots successfully hashed" |} in
    with_status latest
      {| fs_Conditions := if hashingEnabled then SetStatusCondition now (fs_Conditions s) cond
                          else fs_Conditions s;
         Phase := Phase s; SnapshotCount := SnapshotCount s; AttemptCount := AttemptCount s;
         FailureCount := FailureCount s; StartTime := StartTime s; LastSnapshotTime := LastSnapshotTime s;
         CompletionTime := CompletionTime s; ErrorMessage := ErrorMessage s;
         fs_ObservedGeneration := fs_ObservedGeneration s;
         SnapshotChainRecords := SnapshotChainRecords s ++ records |}.

(** The last update of a successful round, with ([Some (reason, message)]) or
    without completion; [roundNow] is the time taken after the round. *)
Definition record_round (done : option (string * string)) (roundNow : Time) (hashingEnabled : bool) (r : round)
    (now : Time) (latest : ForensicSnapshotChain) : ForensicSnapshotChain :=
  let s := fs_Status latest in
  let some_captured := 0 <? captured r in
  let s' :=
    {| fs_Conditions :=
         match done with
         | Some (reason, message) =>
             SetStatusCondition now (fs_Conditions s) (ready_condition ConditionTrue reason message now)
         | None =>
             if some_captured && negb (ErrorMessage s =? "")%string
             then SetStatusCondition now (fs_Conditions s)
                    (ready_condition ConditionFalse "Running"
                       "ForensicSnapshotChain is running, snapshot chain is in progress" now)
             else fs_Conditions s
         end;
       Phase := match done with Some _ => PhaseCompleted | None => Phase s end;
       SnapshotCount := if some_captured then int32 (SnapshotCount s + 1) else SnapshotCount s;
       AttemptCount := int32 (AttemptCount s + 1);
       FailureCount := 0; StartTime := StartTime s; LastSnapshotTime := Some roundNow;
       CompletionTime := match done with Some _ => Some roundNow | None => CompletionTime s end;
       ErrorMessage := if some_captured then "" else ErrorMessage s;
       fs_ObservedGeneration := fs_ObservedGeneration s;
       SnapshotChainRecords := SnapshotChainRecords s |} in
  appendRoundRecords now (with_status latest s') (newRecords r) hashingEnabled (integrityFailed r)
    (integrityMessage r).

(** Whether the round completes the chain. *)
Definition round_done (capture : CaptureSpec) (captured snapshotCount attemptCount : Z)
  : option (string * string) :=
  match fc_MaxSnapshots capture with
  | None => None
  | Some limit =>
      if limit <=? snapshotCount then
        Some ("MaxSnapshotsReached",
              "Snapshot chain completed as it reached the maximum number of snapshots")
      else if (captured =? 0) && negb (bool_decide (is_Some (fc_MaxDuration capture))) && (limit <=? attemptCount) then
        Some ("NoMatchingPods",
              "Snapshot chain completed without capturing the requested number of snapshots because no pods matched the selector")
      else None
  end.

(** What the API server stores: times in whole seconds. *)
Definition stored_chain_status (s : ForensicSnapshotChainStatus) : ForensicSnapshotChainStatus :=
  {| fs_Conditions := (fun c => {| Type_ := Type_ c; Status_ := Status_ c; CondGeneration := CondGeneration c;
       LastTransitionTime := stored_time (LastTransitionTime c); Reason := Reason c; Message := Message c |})
       <$> fs_Conditions s;
     Phase := Phase s; SnapshotCount := SnapshotCount s; AttemptCount := AttemptCount s;
     FailureCount := FailureCount s; StartTime := stored_time <$> StartTime s;
     LastSnapshotTime := stored_time <$> LastSnapshotTime s;
     CompletionTime := stored_time <$> CompletionTime s; ErrorMessage := ErrorMessage s;
     fs_ObservedGeneration := fs_ObservedGeneration s;
     SnapshotChainRecords := (fun r => {| Index := Index r; r_PodName := r_PodName r;
       r_ContainerName := r_ContainerName r; CheckpointPath := CheckpointPath r;
       SnapshotTime := stored_time (SnapshotTime r); SHA256Hash := SHA256Hash r;
       PreviousSHA256Hash := PreviousSHA256Hash r |}) <$> SnapshotChainRecords s |}.

(** ** Operations *)

Section Controller.
Context (faults : nat -> option apierror) (clock : nat -> Time) (kb : kubelet) (outcome : ck_oracle).
Context (compile : LabelSelector -> result apierror (gmap string string -> bool)).
Context (show : checkpoint_error -> string) (show_sum : checksum_error -> string).   (* [err.Error()] *)

Definition now_at (w : fc_world) : Time := clock (fw_calls w).

Definition get_chain (w : fc_world) : result apierror ForensicSnapshotChain * fc_world :=
  fw_call faults w (fun w => (match fw_obj w with Some c => Ok c | None => Err NotFound end, w)).

(** [r.Status().Update(ctx, chain)] *)
Definition update_chain (chain : ForensicSnapshotChain) (w : fc_world) : result apierror unit * fc_world :=
  fw_call faults w (fun w =>
    match fw_obj w with
    | None => (Err NotFound, w)
    | Some o =>
        let s := stored_chain_status (fs_Status chain) in
        (Ok tt, {| fw_obj := Some (with_status o s); fw_pods := fw_pods w; fw_calls := fw_calls w;
                   fw_ck := fw_ck w; fw_events := fw_events w ++ [EvStatus s] |})
    end).

Definition observe_generation (c : ForensicSnapshotChain) : ForensicSnapshotChain :=
  let s := fs_Status c in
  with_status c
    {| fs_Conditions := fs_Conditions s; Phase := Phase s; SnapshotCount := SnapshotCount s;
       AttemptCount := AttemptCount s; FailureCount := FailureCount s; StartTime := StartTime s;
       LastSnapshotTime := LastSnapshotTime s; CompletionTime := CompletionTime s;
       ErrorMessage := ErrorMessage s; fs_ObservedGeneration := fs_Generation c;
       SnapshotChainRecords := SnapshotChainRecords s |}.

Definition updateChainStatus (mutate : Time -> ForensicSnapshotChain -> ForensicSnapshotChain) (w : fc_world)
  : result apierror unit * fc_world :=
  RetryOnConflict (fun w =>
    match get_chain w with
    | (Err e, w) => (Err e, w)
    | (Ok latest, w) => update_chain (observe_generation (mutate (now_at w) latest)) w
    end) w.

(** The list call of [getMatchingPods], on the pods of the world. *)
Definition matching_pods (chain : ForensicSnapshotChain) (w : fc_world) : result apierror (list Pod) * fc_world :=
  match compile (fs_Selector (fs_Spec chain)) with
  | Err e => (Err e, w)
  | Ok _ =>
      (getMatchingPods
         {| LabelSelectorAsSelector := compile;
            list_namespace := fun ns =>
              match faults (fw_calls w) with
              | Some e => Err e
              | None => Ok (List.filter (fun p => (p_namespace p =? ns)%string) (fw_pods w))
              end |}
         (fs_Namespace (fs_Spec chain)) (fs_Selector (fs_Spec chain)), fw_tick w)
  end.

(** [r.Delete(ctx, &pod)] *)
Definition delete_pod (p : Pod) (w : fc_world) : result apierror unit * fc_world :=
  fw_call faults w (fun w =>
    if existsb (same_pod (p_namespace p) (p_name p)) (fw_pods w)
    then (Ok tt, fw_emit w (List.filter (fun q => negb (same_pod (p_namespace p) (p_name p) q)) (fw_pods w))
                   (EvPodDeleted p))
    else (Err NotFound, w)).

Fixpoint delete_pods (pods : list Pod) (w : fc_world) : result apierror unit * fc_world :=
  match pods with
  | [] => (Ok tt, w)
  | p :: pods' =>
      match delete_pod p w with
      | (Err e, w) => if IsNotFound e then delete_pods pods' w else (Err e, w)
      | (Ok _, w) => delete_pods pods' w
      end
  end.

Definition executePostSnapshotAction (chain : ForensicSnapshotChain) (pods : list Pod) (snapshotCount : Z)
    (w : fc_world) : result apierror unit * fc_world :=
  if negb (bool_decide (fs_PostSnapshotAction (fs_Spec chain) = PostSnapshotActionDeletePod)) then (Ok tt, w)
  else if snapshotCount =? 0 then (Ok tt, w)
  else delete_pods pods w.

(** [creator.createCheckpoint] *)
Definition take_checkpoint (r : ck_request) (w : fc_world) : result checkpoint_error string * fc_world :=
  let '(res, log) := create outcome (fw_ck w) r in
  (res, {| fw_obj := fw_obj w; fw_pods := fw_pods w; fw_calls := S (fw_calls w); fw_ck := log;
           fw_events := fw_events w |}).

(** The containers of the round, in the order of the two nested loops. *)
Definition targets (pods : list Pod) (names : list string) : list (Pod * Container) :=
  concat (map (fun p => map (pair p) (filterContainers p names)) pods).

(** One container: checkpoint it, and record it with its hash. *)
Definition capture_one (chain : ForensicSnapshotChain) (hashingEnabled : bool) (t : Pod * Container)
    (acc : round) (w : fc_world) : result checkpoint_error round * fc_world :=
  let '(p, c) := t in
  let ns := fs_Namespace (fs_Spec chain) in
  match take_checkpoint {| ck_ns := ns; ck_pod := p_name p; ck_container := c_name c;
                           ck_node := NodeName (p_spec p) |} w with
  | (Err e, w) => (Err e, w)
  | (Ok checkpointPath, w) =>
      let idx := int32 (Z.of_nat (length (SnapshotChainRecords (fs_Status chain)) + length (newRecords acc))) in
      let plain := {| Index := idx; r_PodName := p_name p; r_ContainerName := c_name c;
                      CheckpointPath := checkpointPath; SnapshotTime := now_at w;
                      SHA256Hash := ""; PreviousSHA256Hash := "" |} in
      if hashingEnabled then
        match computeChecksum faults clock kb ns (NodeName (p_spec p)) checkpointPath w with
        | (Err hashErr, w) =>
            (Ok {| captured := captured acc + 1; newRecords := newRecords acc ++ [plain];
                   integrityFailed := true;
                   integrityMessage := "snapshot " +:+ pretty idx +:+ ": " +:+ show_sum hashErr;
                   previousHash := previousHash acc |}, w)
        | (Ok hash, w) =>
            (Ok {| captured := captured acc + 1;
                   newRecords := newRecords acc ++
                     [ {| Index := idx; r_PodName := p_name p; r_ContainerName := c_name c;
                          CheckpointPath := checkpointPath; SnapshotTime := SnapshotTime plain;
                          SHA256Hash := hash; PreviousSHA256Hash := previousHash acc |} ];
                   integrityFailed := integrityFailed acc; integrityMessage := integrityMessage acc;
                   previousHash := hash |}, w)
        end
      else (Ok {| captured := captured acc + 1; newRecords := newRecords acc ++ [plain];
                  integrityFailed := integrityFailed acc; integrityMessage := integrityMessage acc;
                  previousHash := previousHash acc |}, w)
  end.

Fixpoint capture_all (chain : ForensicSnapshotChain) (hashingEnabled : bool) (ts : list (Pod * Container))
    (acc : round) (w : fc_world) : result checkpoint_error round * fc_world :=
  match ts with
  | [] => (Ok acc, w)
  | t :: ts' =>
      match capture_one chain hashingEnabled t acc w with
      | (Err e, w) => (Err e, w)
      | (Ok acc, w) => capture_all chain hashingEnabled ts' acc w
      end
  end.

Definition first_round (chain : ForensicSnapshotChain) : round :=
  {| captured := 0; newRecords := []; integrityFailed := false; integrityMessage := "";
     previousHash := match last (SnapshotChainRecords (fs_Status chain)) with
                     | Some r => SHA256Hash r
                     | None => ""
                     end |}.

(** The handling of a checkpoint error. *)
Definition round_failed (chain : ForensicSnapshotChain) (err : checkpoint_error) (w : fc_world)
  : Result * option fc_error * fc_world :=
  let failureCount := int32 (FailureCount (fs_Status chain) + 1) in
  let giveUp := negb (bool_decide (is_Some (fc_MaxDuration (Capture (fs_Spec chain))))) &&
                (maxConsecutiveCheckpointFailures <=? failureCount) in
  match updateChainStatus (record_failure giveUp (show err)) w with
  | (Err e, w) => (no_requeue, Some (FApi e), w)
  | (Ok _, w) => (no_requeue, if giveUp then None else Some (FCheckpoint err), w)
  end.

(** The end of a successful round. *)
Definition round_succeeded (chain : ForensicSnapshotChain) (hashingEnabled : bool) (pods : list Pod) (r : round)
    (w : fc_world) : Result * option fc_error * fc_world :=
  let now := now_at w in
  let attemptCount := int32 (AttemptCount (fs_Status chain) + 1) in
  let snapshotCount := if 0 <? captured r then int32 (SnapshotCount (fs_Status chain) + 1)
                       else SnapshotCount (fs_Status chain) in
  let fin := round_done (Capture (fs_Spec chain)) (captured r) snapshotCount attemptCount in
  match updateChainStatus (record_round fin now hashingEnabled r) w with
  | (Err e, w) => (no_requeue, Some (FApi e), w)
  | (Ok _, w) =>
      match fin with
      | Some _ => (no_requeue, None, (executePostSnapshotAction chain pods snapshotCount w).2)
      | None => (requeue_after (captureInterval chain), None, w)
      end
  end.

Definition capture_round (chain : ForensicSnapshotChain) (hashingEnabled : bool) (w : fc_world)
  : Result * option fc_error * fc_world :=
  match matching_pods chain w with
  | (Err e, w) => (no_requeue, Some (FApi e), w)
  | (Ok pods, w) =>
      match capture_all chain hashingEnabled (targets pods (fs_ContainerNames (fs_Spec chain)))
              (first_round chain) w with
      | (Err err, w) => round_failed chain err w
      | (Ok r, w) => round_succeeded chain hashingEnabled pods r w
      end
  end.

(** The maximum duration has elapsed. *)
Definition duration_reached (chain : ForensicSnapshotChain) (w : fc_world)
  : Result * option fc_error * fc_world :=
  let '(got, w) := if bool_decide (fs_PostSnapshotAction (fs_Spec chain) = PostSnapshotActionDeletePod)
                   then matching_pods chain w else (Ok [], w) in
  match got with
  | Err e => (no_requeue, Some (FApi e), w)
  | Ok pods =>
      match updateChainStatus to_completed_duration w with
      | (Err e, w) => (no_requeue, Some (FApi e), w)
      | (Ok _, w) =>
          (no_requeue, None, (executePostSnapshotAction chain pods (SnapshotCount (fs_Status chain)) w).2)
      end
  end.

Definition expired (chain : ForensicSnapshotChain) (now : Time) : bool :=
  match fc_MaxDuration (Capture (fs_Spec chain)), StartTime (fs_Status chain) with
  | Some maxDuration, Some start => maxDuration <? now - start
  | _, _ => false
  end.

(** The next round is due at this time, if a round has run. *)
Definition next_round (chain : ForensicSnapshotChain) : option Time :=
  (fun t => t + captureInterval chain) <$> LastSnapshotTime (fs_Status chain).

Definition reconcile_running (chain : ForensicSnapshotChain) (w : fc_world)
  : Result * option fc_error * fc_world :=
  let alg := HashAlgorithm (Integrity (fs_Spec chain)) in
  if negb (alg =? "")%string && negb (alg =? "sha256")%string then
    let text := "unsupported hash algorithm: " +:+ alg in
    match updateChainStatus (to_failed_algorithm text) w with
    | (Err e, w) => (no_requeue, Some (FApi e), w)
    | (Ok _, w) => (no_requeue, Some (FAlgorithm text), w)
    end
  else if expired chain (now_at w) then duration_reached chain w
  else
    match next_round chain with
    | Some next =>
        if now_at w <? next then (requeue_after (next - now_at w), None, w)
        else capture_round chain (alg =? "sha256")%string w
    | None => capture_round chain (alg =? "sha256")%string w
    end.

Definition save (chain : ForensicSnapshotChain) (w : fc_world) : Result * option fc_error * fc_world :=
  match update_chain chain w with
  | (Err e, w) => (no_requeue, Some (FApi e), w)
  | (Ok _, w) => (no_requeue, None, w)
  end.

Definition Reconcile (w : fc_world) : Result * option fc_error * fc_world :=
  match get_chain w with
  | (Err e, w) => (no_requeue, if IsNotFound e then None else Some (FApi e), w)
  | (Ok chain, w) =>
      match Phase (fs_Status chain) with
      | PhaseCompleted | PhaseFailed => (no_requeue, None, w)
      | PhaseNone => save (to_pending (now_at w) chain) w
      | PhasePending => save (to_running (now_at w) chain) w
      | PhaseRunning => reconcile_running chain w
      | PhaseOther _ => (no_requeue, None, w)
      end
  end.
End Controller.
