(* ===== verification/ForensicProofs.v ===== *)
(** * The forensic snapshot chain: its state machine, evidence and termination

    [chain_step] is the abstract machine of a chain; every reconcile, whatever the
    API server and the nodes do, is a stutter or one step of it.  The invariants of
    the evidence follow by induction on the steps, termination from a measure. *)

From stdpp Require Import pretty.
From S2P Require Import Prelude GoStrings Kube Api Admission Creator Triggers Checksum Forensic.
Open Scope string_scope.
Open Scope list_scope.
Open Scope Z_scope.

(** ** The hash chain *)

(** Adjacent hashed records are linked. *)
Definition linked (rs : list SnapshotChainRecord) : Prop :=
  forall i a b, rs !! i = Some a -> rs !! S i = Some b ->
    SHA256Hash a <> "" -> SHA256Hash b <> "" -> PreviousSHA256Hash b = SHA256Hash a.

(** A record's index is its position. *)
Definition indexed (rs : list SnapshotChainRecord) : Prop :=
  forall i r, rs !! i = Some r -> Index r = int32 (Z.of_nat i).

Definition rooted (rs : list SnapshotChainRecord) : Prop :=
  forall r, rs !! 0%nat = Some r -> PreviousSHA256Hash r = "".

Definition chain_wf (rs : list SnapshotChainRecord) : Prop := linked rs /\ indexed rs /\ rooted rs.

(** The hash the next record is linked to. *)
Definition next_link (rs : list SnapshotChainRecord) (h : string) : Prop :=
  match last rs with
  | Some a => SHA256Hash a <> "" -> h = SHA256Hash a
  | None => h = ""
  end.

Lemma chain_wf_nil : chain_wf [].
Proof. by split_and!. Qed.

Lemma chain_wf_snoc rs h r :
  chain_wf rs -> next_link rs h -> Index r = int32 (Z.of_nat (length rs)) ->
  (SHA256Hash r = "" /\ PreviousSHA256Hash r = "" \/ PreviousSHA256Hash r = h) ->
  chain_wf (rs ++ [r]).
Proof.
  intros (HL & HI & HR) Hn Hi Hp. split_and!.
  - intros i a b Ha Hb Hha Hhb. apply lookup_app_Some in Hb as [Hb|[Hlen Hb]].
    + rewrite lookup_app_l in Ha by (apply lookup_lt_Some in Hb; lia). by eapply HL.
    + apply list_lookup_singleton_Some in Hb as [Hj <-].
      rewrite lookup_app_l in Ha by lia. unfold next_link in Hn.
      rewrite last_lookup in Hn. replace (pred (length rs)) with i in Hn by lia. rewrite Ha in Hn.
      destruct Hp as [[Hp _]|Hp]; [done|]. rewrite Hp. by apply Hn.
  - intros i x Hx. apply lookup_app_Some in Hx as [Hx|[Hlen Hx]]; [by apply HI|].
    apply list_lookup_singleton_Some in Hx as [Hj <-]. rewrite Hi. f_equal. lia.
  - intros x Hx. destruct rs as [|y rs]; simpl in Hx; simplify_eq; [|by apply HR].
    destruct Hp as [[_ Hp]|Hp]; [done|]. by rewrite Hp.
Qed.

Lemma next_link_snoc rs r h : (SHA256Hash r <> "" -> h = SHA256Hash r) -> next_link (rs ++ [r]) h.
Proof. intros H. unfold next_link. by rewrite last_snoc. Qed.

(** ** A capture round *)

Definition cap_frame (w w' : fc_world) : Prop :=
  fw_obj w' = fw_obj w /\ (fw_calls w <= fw_calls w')%nat /\
  exists evs, fw_events w' = fw_events w ++ evs /\ Forall helper_event evs.

Lemma cap_frame_refl w : cap_frame w w.
Proof. split_and!; [done..|]. exists []. by rewrite app_nil_r. Qed.

Lemma cap_frame_trans w1 w2 w3 : cap_frame w1 w2 -> cap_frame w2 w3 -> cap_frame w1 w3.
Proof.
  intros (O1 & K1 & e1 & E1 & F1) (O2 & K2 & e2 & E2 & F2).
  split_and!; [congruence|lia|]. exists (e1 ++ e2). rewrite E2, E1, app_assoc.
  split; [done|]. by apply Forall_app.
Qed.

Lemma helper_cap_frame w w' : helper_frame w w' -> cap_frame w w'.
Proof. intros (O & _ & K & E). by split_and!. Qed.

(** What a round has collected, on top of the records [rs]. *)
Definition round_ok (rs : list SnapshotChainRecord) (r : round) : Prop :=
  captured r = Z.of_nat (length (newRecords r)) /\
  (chain_wf rs -> chain_wf (rs ++ newRecords r)) /\ next_link (rs ++ newRecords r) (previousHash r).

Lemma first_round_ok c : round_ok (SnapshotChainRecords (fs_Status c)) (first_round c).
Proof.
  split_and!; [done| |]; unfold first_round; simpl; rewrite app_nil_r; [done|].
  unfold next_link. by destruct (last _).
Qed.

Lemma round_ok_snoc rs r x h f m :
  round_ok rs r -> Index x = int32 (Z.of_nat (length rs + length (newRecords r))) ->
  (SHA256Hash x = "" /\ PreviousSHA256Hash x = "" /\ h = previousHash r \/
   SHA256Hash x = h /\ PreviousSHA256Hash x = previousHash r) ->
  round_ok rs {| captured := captured r + 1; newRecords := newRecords r ++ [x]; integrityFailed := f;
                 integrityMessage := m; previousHash := h |}.
Proof.
  intros (Hc & Hw & Hn) Hi Hx. split_and!; simpl.
  - rewrite length_app. simpl. lia.
  - intros H. rewrite app_assoc. eapply chain_wf_snoc; [by apply Hw|exact Hn|by rewrite length_app|].
    destruct Hx as [(? & ? & _)|[_ ?]]; auto.
  - rewrite app_assoc. apply next_link_snoc. destruct Hx as [(Hx & _)|[Hx _]]; [done|by intros _].
Qed.

Section Runs.
Context (faults : nat -> option apierror) (clock : nat -> Time) (kb : kubelet) (outcome : ck_oracle).
Context (compile : LabelSelector -> result apierror (gmap string string -> bool)).
Context (show : checkpoint_error -> string) (show_sum : checksum_error -> string).

Lemma capture_one_spec c h t acc w r w' :
  capture_one faults clock kb outcome show_sum c h t acc w = (r, w') ->
  cap_frame w w' /\ (fw_calls w < fw_calls w')%nat /\
  (forall acc', r = Ok acc' -> captured acc' = captured acc + 1 /\
     (round_ok (SnapshotChainRecords (fs_Status c)) acc -> round_ok (SnapshotChainRecords (fs_Status c)) acc')).
Proof.
  destruct t as [p ct]. unfold capture_one, take_checkpoint, create. intros H.
  destruct (outcome _ _) as [path|e].
  2:{ simplify_eq. split; [|split; [simpl; lia|done]]. split_and!; simpl; [done|lia|].
      exists []. by rewrite app_nil_r. }
  set (w1 := {| fw_obj := fw_obj w |}) in H.
  assert (cap_frame w w1) as F1 by (split_and!; simpl; [done|lia|]; exists []; by rewrite app_nil_r).
  destruct h.
  - destruct (computeChecksum _ _ _ _ _ _ w1) as [hr w2] eqn:Ec.
    apply computeChecksum_spec in Ec as (F2 & K2 & _). apply helper_cap_frame in F2. simpl in K2.
    destruct hr as [hash|he]; simplify_eq;
      (split; [by eapply cap_frame_trans|split; [lia|]]); intros acc' [= <-]; (split; [done|]);
      intros Hok; apply round_ok_snoc; auto.
  - simplify_eq. split; [done|]. split; [simpl; lia|]. intros acc' [= <-]. split; [done|].
    intros Hok. apply round_ok_snoc; auto.
Qed.

Lemma capture_all_spec c h ts acc w r w' :
  capture_all faults clock kb outcome show_sum c h ts acc w = (r, w') ->
  cap_frame w w' /\
  (forall acc', r = Ok acc' -> captured acc' = captured acc + Z.of_nat (length ts) /\
     (round_ok (SnapshotChainRecords (fs_Status c)) acc -> round_ok (SnapshotChainRecords (fs_Status c)) acc')).
Proof.
  revert acc w. induction ts as [|t ts IH]; intros acc w H; simpl in H.
  { simplify_eq. split; [apply cap_frame_refl|]. intros acc' [= <-]. split; [simpl; lia|done]. }
  destruct (capture_one _ _ _ _ _ c h t acc w) as [[acc1|e] w1] eqn:Eo;
    apply capture_one_spec in Eo as (F1 & _ & R1).
  - apply IH in H as [F2 R2]. split; [by eapply cap_frame_trans|]. intros acc' Ha.
    destruct (R1 _ eq_refl) as [C1 O1]. destruct (R2 _ Ha) as [C2 O2]. simpl. split; [lia|auto].
  - simplify_eq. split; [done|]. done.
Qed.

(** ** Status updates *)

(** Nothing but calls. *)
Definition quiet (w w' : fc_world) : Prop :=
  fw_obj w' = fw_obj w /\ fw_pods w' = fw_pods w /\ fw_ck w' = fw_ck w /\ fw_events w' = fw_events w /\
  (fw_calls w <= fw_calls w')%nat.

(** The chain as the API server keeps it after an update to [c]. *)
Definition store (c : ForensicSnapshotChain) : ForensicSnapshotChain :=
  with_status c (stored_chain_status (fs_Status (observe_generation c))).

(** One accepted update of the chain, from [c] to [c']. *)
Definition wrote (c c' : ForensicSnapshotChain) (w w' : fc_world) : Prop :=
  fw_obj w = Some c /\ fw_obj w' = Some c' /\ fw_pods w' = fw_pods w /\ fw_ck w' = fw_ck w /\
  fw_events w' = fw_events w ++ [EvStatus (fs_Status c')] /\ (fw_calls w < fw_calls w')%nat.

Lemma get_chain_spec w r w' :
  get_chain faults w = (r, w') -> w' = fw_tick w /\ forall c, r = Ok c -> fw_obj w = Some c.
Proof.
  unfold get_chain, fw_call. destruct (faults (fw_calls w)); [by intros [= <- <-]|]. simpl.
  intros [= <- <-]. split; [done|]. intros c. by destruct (fw_obj w); intros [= ->].
Qed.

Lemma update_chain_spec c w r w' :
  update_chain faults c w = (r, w') ->
  match r with
  | Err _ => quiet w w'
  | Ok _ => exists o, wrote o (with_status o (stored_chain_status (fs_Status c))) w w'
  end.
Proof.
  unfold update_chain, fw_call. destruct (faults (fw_calls w)).
  { intros [= <- <-]. split_and!; try done. simpl. lia. }
  simpl. destruct (fw_obj w) as [o|] eqn:Eo; intros [= <- <-].
  - exists o. split_and!; try done. simpl. lia.
  - split_and!; try done. simpl. lia.
Qed.

Lemma OnConflict_spec steps mutate w r w' :
  (forall t c, fs_Spec (mutate t c) = fs_Spec c /\ fs_Generation (mutate t c) = fs_Generation c) ->
  OnConflict steps (fun w =>
    match get_chain faults w with
    | (Err e, w) => (Err e, w)
    | (Ok latest, w) => update_chain faults (observe_generation (mutate (now_at clock w) latest)) w
    end) w = (r, w') ->
  match r with
  | Err _ => quiet w w'
  | Ok _ => exists c k, (fw_calls w < k)%nat /\ wrote c (store (mutate (clock k) c)) w w'
  end.
Proof.
  intros Hm. revert w. induction steps as [|steps IH]; intros w H; simpl in H.
  { simplify_eq. by split_and!. }
  destruct (get_chain faults w) as [[c|e] w1] eqn:Eg; apply get_chain_spec in Eg as [-> Hg].
  - pose proof (Hg c eq_refl) as Ho.
    destruct (update_chain faults _ (fw_tick w)) as [u w2] eqn:Eu.
    pose proof (update_chain_spec _ _ _ _ Eu) as Hu.
    destruct u as [[]|e].
    + simplify_eq. destruct Hu as (o & W1 & W2 & W3 & W4 & W5 & W6). simpl in *.
      assert (o = c) as -> by congruence. exists c, (S (fw_calls w)). split; [lia|].
      unfold store. destruct (Hm (clock (S (fw_calls w))) c) as [Hs Hg'].
      assert (with_status (mutate (clock (S (fw_calls w))) c) = with_status c) as ->.
      { unfold with_status. by rewrite Hs, Hg'. }
      split_and!; (done || lia || auto).
    + assert (quiet w w2) as Hq by (destruct Hu as (? & ? & ? & ? & ?); split_and!; try done; simpl in *; lia).
      destruct e; try (by simplify_eq).
      destruct steps as [|steps]; [by simplify_eq|].
      apply IH in H. destruct Hq as (Q1 & Q2 & Q3 & Q4 & Q5). destruct r as [[]|e].
      * destruct H as (c' & k & Hk & W1 & W2 & W3 & W4 & W5 & W6). exists c', k. split; [lia|].
        split_and!; (done || congruence || lia).
      * destruct H as (R1 & R2 & R3 & R4 & R5). split_and!; (done || congruence || lia).
  - assert (quiet w (fw_tick w)) as Hq by (split_and!; simpl; (done || lia)).
    destruct e; try (by simplify_eq).
    destruct steps as [|steps]; [by simplify_eq|].
    apply IH in H. destruct r as [[]|e].
    + destruct H as (c' & k & Hk & W1 & W2 & W3 & W4 & W5 & W6). simpl in *. exists c', k. split; [lia|].
      split_and!; (done || congruence || lia).
    + destruct H as (R1 & R2 & R3 & R4 & R5). simpl in *. split_and!; (done || congruence || lia).
Qed.

Lemma updateChainStatus_spec mutate w r w' :
  (forall t c, fs_Spec (mutate t c) = fs_Spec c /\ fs_Generation (mutate t c) = fs_Generation c) ->
  updateChainStatus faults clock mutate w = (r, w') ->
  match r with
  | Err _ => quiet w w'
  | Ok _ => exists c k, (fw_calls w < k)%nat /\ wrote c (store (mutate (clock k) c)) w w'
  end.
Proof. apply OnConflict_spec. Qed.

(** Without faults an update of an existing chain succeeds. *)
Lemma updateChainStatus_ok mutate w c :
  (forall n, faults n = None) -> fw_obj w = Some c ->
  is_ok (updateChainStatus faults clock mutate w).1 = true.
Proof.
  intros Hf Ho. unfold updateChainStatus, RetryOnConflict. simpl.
  unfold get_chain, update_chain, fw_call. by repeat (rewrite ?Hf, ?Ho; simpl).
Qed.

(** ** The abstract machine *)

(** A pod of [pods] that the selector of the chain matches. *)
Definition selected (pods : list Pod) (c : ForensicSnapshotChain) (p : Pod) : Prop :=
  p ∈ pods /\ p_namespace p = fs_Namespace (fs_Spec c) /\ p_phase p = PodRunning /\
  exists sel, compile (fs_Selector (fs_Spec c)) = Ok sel /\ sel (p_labels p) = true.

(** What the post-snapshot action may delete. *)
Definition may_delete (pods : list Pod) (c : ForensicSnapshotChain) (count : Z) (dels : list Pod) : Prop :=
  dels <> [] -> fs_PostSnapshotAction (fs_Spec c) = PostSnapshotActionDeletePod /\ count <> 0 /\
    Forall (selected pods c) dels.

Definition algorithm (c : ForensicSnapshotChain) : string := HashAlgorithm (Integrity (fs_Spec c)).
Definition supported (c : ForensicSnapshotChain) : Prop := algorithm c = "" \/ algorithm c = "sha256".

Definition gives_up (c : ForensicSnapshotChain) : bool :=
  negb (bool_decide (is_Some (fc_MaxDuration (Capture (fs_Spec c))))) &&
  (maxConsecutiveCheckpointFailures <=? int32 (FailureCount (fs_Status c) + 1)).

Definition count_after (c : ForensicSnapshotChain) (r : round) : Z :=
  if 0 <? captured r then int32 (SnapshotCount (fs_Status c) + 1) else SnapshotCount (fs_Status c).

Definition completes (c : ForensicSnapshotChain) (r : round) : option (string * string) :=
  round_done (Capture (fs_Spec c)) (captured r) (count_after c r) (int32 (AttemptCount (fs_Status c) + 1)).

(** One step of a chain in a cluster with the given pods, and the pods it deletes. *)
Inductive chain_step (pods : list Pod) (c : ForensicSnapshotChain)
  : ForensicSnapshotChain -> list Pod -> Prop :=
| step_pending t :
    Phase (fs_Status c) = PhaseNone -> chain_step pods c (store (to_pending t c)) []
| step_running t :
    Phase (fs_Status c) = PhasePending -> chain_step pods c (store (to_running t c)) []
| step_algorithm t :
    Phase (fs_Status c) = PhaseRunning -> ~ supported c ->
    chain_step pods c (store (to_failed_algorithm ("unsupported hash algorithm: " +:+ algorithm c) t c)) []
| step_duration t t0 dels :
    Phase (fs_Status c) = PhaseRunning -> supported c -> expired c t0 = true ->
    may_delete pods c (SnapshotCount (fs_Status c)) dels ->
    chain_step pods c (store (to_completed_duration t c)) dels
| step_failure t text :
    Phase (fs_Status c) = PhaseRunning -> supported c ->
    chain_step pods c (store (record_failure (gives_up c) text t c)) []
| step_round t t0 r dels :
    Phase (fs_Status c) = PhaseRunning -> supported c ->
    round_ok (SnapshotChainRecords (fs_Status c)) r ->
    may_delete pods c (count_after c r) dels -> (completes c r = None -> dels = []) ->
    chain_step pods c (store (record_round (completes c r) t0 (algorithm c =? "sha256")%string r t c)) dels.

(** A reconcile that only stutters. *)
Definition stutters (w w' : fc_world) : Prop := cap_frame w w'.

(** A reconcile that makes one step: helper Pods first, then the status write,
    then the deletions. *)
Definition steps_to (w w' : fc_world) : Prop :=
  exists c c' hs dels, fw_obj w = Some c /\ fw_obj w' = Some c' /\ chain_step (fw_pods w) c c' dels /\
    fw_events w' = fw_events w ++ hs ++ [EvStatus (fs_Status c')] ++ (EvPodDeleted <$> dels) /\
    Forall helper_event hs /\ (fw_calls w <= fw_calls w')%nat.

Lemma delete_pods_spec ps w r w' :
  delete_pods faults ps w = (r, w') ->
  fw_obj w' = fw_obj w /\ (fw_calls w <= fw_calls w')%nat /\
  exists dels, dels `sublist_of` ps /\ fw_events w' = fw_events w ++ (EvPodDeleted <$> dels).
Proof.
  revert w. induction ps as [|p ps IH]; intros w H; simpl in H.
  { simplify_eq. split_and!; try done. exists []. by rewrite app_nil_r. }
  assert (forall w1, fw_obj w1 = fw_obj w -> (fw_calls w <= fw_calls w1)%nat -> fw_events w1 = fw_events w ->
            delete_pods faults ps w1 = (r, w') ->
            fw_obj w' = fw_obj w /\ (fw_calls w <= fw_calls w')%nat /\
            exists dels, dels `sublist_of` p :: ps /\ fw_events w' = fw_events w ++ (EvPodDeleted <$> dels)) as Hskip.
  { intros w1 O1 K1 E1 H1. apply IH in H1 as (O2 & K2 & dels & Hs & E2). split_and!; [congruence|lia|].
    exists dels. split; [by apply sublist_cons|congruence]. }
  unfold delete_pod, fw_call in H. destruct (faults (fw_calls w)) as [e|].
  { destruct (IsNotFound e); [by apply (Hskip (fw_tick w)); simpl; [|lia|..]|].
    simplify_eq. split_and!; simpl; [done|lia|]. exists []. split; [apply sublist_nil_l|by rewrite app_nil_r]. }
  destruct (existsb _ _).
  - apply IH in H as (O2 & K2 & dels & Hs & E2). simpl in *. split_and!; [done|lia|].
    exists (p :: dels). split; [by apply sublist_skip|]. by rewrite E2, <- app_assoc.
  - simpl in H. by apply (Hskip (fw_tick w)); simpl; [|lia|..].
Qed.

Lemma post_action_spec c pods all count w :
  Forall (selected all c) pods ->
  let w' := (executePostSnapshotAction faults c pods count w).2 in
  fw_obj w' = fw_obj w /\ (fw_calls w <= fw_calls w')%nat /\
  exists dels, may_delete all c count dels /\ fw_events w' = fw_events w ++ (EvPodDeleted <$> dels).
Proof.
  intros Hsel. unfold executePostSnapshotAction.
  assert (fw_obj w = fw_obj w /\ (fw_calls w <= fw_calls w)%nat /\
          exists dels, may_delete all c count dels /\ fw_events w = fw_events w ++ (EvPodDeleted <$> dels)) as Hno.
  { split_and!; try done. exists []. split; [by intros ?|by rewrite app_nil_r]. }
  case_bool_decide as Ha; simpl; [|exact Hno].
  destruct (count =? 0) eqn:Ec; simpl; [exact Hno|]. to_prop.
  destruct (delete_pods faults pods w) as [r w'] eqn:Ed. simpl.
  apply delete_pods_spec in Ed as (O & K & dels & Hs & E). split_and!; try done. exists dels. split; [|done].
  intros _. split_and!; try done. apply Forall_forall. intros x Hx.
  eapply Forall_forall; [exact Hsel|]. by eapply elem_of_sublist.
Qed.

Lemma matching_pods_spec c w r w' :
  matching_pods faults compile c w = (r, w') ->
  fw_obj w' = fw_obj w /\ fw_pods w' = fw_pods w /\ fw_events w' = fw_events w /\ (fw_calls w <= fw_calls w')%nat /\
  (forall pods, r = Ok pods -> Forall (selected (fw_pods w) c) pods).
Proof.
  unfold matching_pods. destruct (compile (fs_Selector (fs_Spec c))) as [sel|e] eqn:Es.
  2:{ intros [= <- <-]. split_and!; done. }
  unfold getMatchingPods. simpl. rewrite Es. intros [= <- <-].
  split_and!; simpl; try done; [lia|]. intros pods.
  destruct (faults (fw_calls w)); [done|]. intros [= <-]. apply Forall_forall. intros p.
  rewrite list_elem_of_In, !filter_In, <- list_elem_of_In. intros [[[Hp Hn] Hl] Hr]. to_prop.
  split_and!; try done. eauto.
Qed.

(** ** Refinement *)

Lemma cap_frame_quiet w w' : quiet w w' -> cap_frame w w'.
Proof. intros (O & _ & _ & E & K). split_and!; [done|done|]. exists []. by rewrite app_nil_r. Qed.

(** An update after helper events, followed by deletions, is a step. *)
Lemma wrote_steps w0 w w1 w2 c c' dels :
  fw_obj w0 = Some c -> cap_frame w0 w -> wrote c c' w w1 -> chain_step (fw_pods w0) c c' dels ->
  fw_obj w2 = fw_obj w1 -> (fw_calls w1 <= fw_calls w2)%nat ->
  fw_events w2 = fw_events w1 ++ (EvPodDeleted <$> dels) -> steps_to w0 w2.
Proof.
  intros H0 (O & K & hs & E & Hh) (_ & W2 & _ & _ & W5 & W6) Hst O2 K2 E2.
  exists c, c', hs, dels. split_and!; try done; [congruence| |lia].
  rewrite E2, W5, E, <- !app_assoc. done.
Qed.

Lemma wrote_same w0 w c d d' w1 : fw_obj w0 = Some c -> cap_frame w0 w -> wrote d d' w w1 -> d = c.
Proof. intros H0 (O & _) (W & _). congruence. Qed.

(** The API server failed a call, or the selector of the chain is invalid. *)
Definition disturbed (c : ForensicSnapshotChain) : Prop :=
  ~ ((forall n, faults n = None) /\ is_ok (compile (fs_Selector (fs_Spec c))) = true).

Lemma update_disturbed c mutate w e w' :
  fw_obj w = Some c -> updateChainStatus faults clock mutate w = (Err e, w') -> disturbed c.
Proof. intros Ho Hu [Hf _]. pose proof (updateChainStatus_ok mutate w c Hf Ho) as H. by rewrite Hu in H. Qed.

Lemma matching_disturbed c w e w' : matching_pods faults compile c w = (Err e, w') -> disturbed c.
Proof.
  unfold matching_pods, getMatchingPods. intros H [Hf Hc]. simpl in H.
  destruct (compile (fs_Selector (fs_Spec c))); [|done]. simpl in H. by rewrite Hf in H.
Qed.

Lemma cap_frame_obj w0 w c : cap_frame w0 w -> fw_obj w0 = Some c -> fw_obj w = Some c.
Proof. intros (O & _) H. congruence. Qed.

Lemma round_failed_refines w0 w c err res e w' :
  fw_obj w0 = Some c -> cap_frame w0 w -> Phase (fs_Status c) = PhaseRunning -> supported c ->
  round_failed faults clock show c err w = (res, e, w') -> stutters w0 w' /\ disturbed c \/ steps_to w0 w'.
Proof.
  intros H0 F Hp Hs H. unfold round_failed in H. fold (gives_up c) in H.
  destruct (updateChainStatus _ _ _ w) as [u w1] eqn:Eu. pose proof Eu as Hd.
  apply updateChainStatus_spec in Eu; [|done]. destruct u as [[]|ue].
  - destruct Eu as (d & k & _ & Hw). assert (d = c) as -> by (by eapply wrote_same).
    right. simplify_eq. eapply (wrote_steps w0 w w'); try done; [by apply step_failure|]. by rewrite app_nil_r.
  - simplify_eq. left. split; [eapply cap_frame_trans; [done|by apply cap_frame_quiet]|].
    by eapply update_disturbed, Hd; eapply cap_frame_obj.
Qed.

Lemma round_succeeded_refines w0 w c pods r res e w' :
  fw_obj w0 = Some c -> cap_frame w0 w -> Phase (fs_Status c) = PhaseRunning -> supported c ->
  Forall (selected (fw_pods w0) c) pods -> round_ok (SnapshotChainRecords (fs_Status c)) r ->
  round_succeeded faults clock c (algorithm c =? "sha256")%string pods r w = (res, e, w') ->
  stutters w0 w' /\ disturbed c \/ steps_to w0 w'.
Proof.
  intros H0 F Hp Hs Hsel Hr H. unfold round_succeeded in H. fold (count_after c r) in H. fold (completes c r) in H.
  destruct (updateChainStatus _ _ _ w) as [u w1] eqn:Eu. pose proof Eu as Hd.
  apply updateChainStatus_spec in Eu.
  2:{ intros t d. unfold record_round, appendRoundRecords. by destruct (_ =? _)%nat. }
  destruct u as [[]|ue].
  2:{ simplify_eq. left. split; [eapply cap_frame_trans; [done|by apply cap_frame_quiet]|].
      by eapply update_disturbed, Hd; eapply cap_frame_obj. }
  destruct Eu as (d & k & _ & Hw). assert (d = c) as -> by (by eapply wrote_same). right.
  destruct (completes c r) as [fin|] eqn:Ec.
  - destruct (post_action_spec c pods (fw_pods w0) (count_after c r) w1 Hsel) as (O & K & dels & Hdel & E).
    simplify_eq. eapply (wrote_steps w0 w w1); try done. rewrite <- Ec in *. apply step_round; try done.
    by rewrite Ec.
  - simplify_eq. eapply (wrote_steps w0 w w' _ _ _ []); try done; [|by rewrite app_nil_r].
    rewrite <- Ec. apply step_round; try done.
Qed.

Lemma capture_round_refines w0 w c res e w' :
  fw_obj w0 = Some c -> cap_frame w0 w -> fw_pods w = fw_pods w0 -> Phase (fs_Status c) = PhaseRunning ->
  supported c ->
  capture_round faults clock kb outcome compile show show_sum c (algorithm c =? "sha256")%string w = (res, e, w') ->
  stutters w0 w' /\ disturbed c \/ steps_to w0 w'.
Proof.
  intros H0 F Hpods Hp Hs H. unfold capture_round in H.
  destruct (matching_pods faults compile c w) as [m w1] eqn:Em. pose proof Em as Hd.
  apply matching_pods_spec in Em as (O1 & P1 & E1 & K1 & Hsel).
  assert (cap_frame w0 w1) as F1.
  { eapply cap_frame_trans; [done|]. split_and!; try done. exists []. by rewrite app_nil_r. }
  destruct m as [pods|me]; [|simplify_eq; left; split; [done|by eapply matching_disturbed]].
  destruct (capture_all _ _ _ _ _ _ _ _ _ w1) as [cr w2] eqn:Ec. apply capture_all_spec in Ec as [F2 R2].
  assert (cap_frame w0 w2) as F3 by (by eapply cap_frame_trans).
  destruct cr as [r|err]; [|by eapply round_failed_refines].
  destruct (R2 r eq_refl) as [_ Hok]. 
  eapply (round_succeeded_refines w0 w2 c pods r);
    [done..|rewrite <- Hpods; by apply Hsel|apply Hok, first_round_ok|done].
Qed.

Lemma duration_reached_refines w0 w c res e w' :
  fw_obj w0 = Some c -> cap_frame w0 w -> fw_pods w = fw_pods w0 -> Phase (fs_Status c) = PhaseRunning ->
  supported c -> expired c (now_at clock w) = true ->
  duration_reached faults clock compile c w = (res, e, w') ->
  stutters w0 w' /\ disturbed c \/
  (steps_to w0 w' /\ exists c', fw_obj w' = Some c' /\ Phase (fs_Status c') = PhaseCompleted).
Proof.
  intros H0 F Hpods Hp Hs Hx H. unfold duration_reached in H.
  destruct (if bool_decide _ then _ else _) as [got w1] eqn:Eg.
  assert (cap_frame w0 w1 /\ (forall ge, got = Err ge -> disturbed c) /\
          forall pods, got = Ok pods -> Forall (selected (fw_pods w0) c) pods) as (F1 & Hge & Hsel).
  { case_bool_decide.
    - split_and!; [|intros ge ->; by eapply matching_disturbed|];
        apply matching_pods_spec in Eg as (O1 & P1 & E1 & K1 & Hsel); rewrite Hpods in Hsel; [|done].
      eapply cap_frame_trans; [done|]. split_and!; try done. exists []. by rewrite app_nil_r.
    - simplify_eq. split; [done|]. split; [done|]. by intros pods [= <-]. }
  destruct got as [pods|ge]; [|simplify_eq; left; split; [done|by eapply Hge]].
  destruct (updateChainStatus _ _ _ w1) as [u w2] eqn:Eu. pose proof Eu as Hd.
  apply updateChainStatus_spec in Eu; [|done].
  destruct u as [[]|ue].
  2:{ simplify_eq. left. split; [eapply cap_frame_trans; [done|by apply cap_frame_quiet]|].
      by eapply update_disturbed, Hd; eapply cap_frame_obj. }
  destruct Eu as (d & k & _ & Hw). assert (d = c) as -> by (by eapply wrote_same). right.
  destruct (post_action_spec c pods (fw_pods w0) (SnapshotCount (fs_Status c)) w2 (Hsel _ eq_refl))
    as (O & K & dels & Hdel & E).
  simplify_eq. split.
  - eapply (wrote_steps w0 w1 w2); try done. by eapply step_duration.
  - destruct Hw as (_ & W2 & _). rewrite O, W2. eauto.
Qed.

Lemma save_refines w0 c c' res e w' :
  fw_obj w0 = Some c -> chain_step (fw_pods w0) c (store c') [] ->
  with_status c (stored_chain_status (fs_Status c')) = store c' ->
  save faults c' w0 = (res, e, w') -> stutters w0 w' /\ disturbed c \/ steps_to w0 w'.
Proof.
  intros H0 Hst Heq H. unfold save in H. pose proof (cap_frame_refl w0) as F.
  destruct (update_chain faults c' w0) as [u w1] eqn:Eu. pose proof Eu as Hd. apply update_chain_spec in Eu.
  destruct u as [[]|ue].
  - destruct Eu as (o & Hw). assert (o = c) as -> by (by eapply wrote_same). rewrite Heq in Hw. right. simplify_eq.
    eapply (wrote_steps w0 w0 w' _ _ _ []); try done. by rewrite app_nil_r.
  - simplify_eq. left. split; [by apply cap_frame_quiet|]. intros [Hf _].
    unfold update_chain, fw_call in Hd. rewrite Hf in Hd. simpl in Hd. by rewrite H0 in Hd.
Qed.

(** The Running phase: undisturbed, it waits for the next round or makes a step,
    which completes the chain when its time is over. *)
Lemma running_refines w0 c res e w' :
  fw_obj w0 = Some c -> Phase (fs_Status c) = PhaseRunning ->
  reconcile_running faults clock kb outcome compile show show_sum c w0 = (res, e, w') ->
  stutters w0 w' /\ disturbed c \/
  (w' = w0 /\ expired c (now_at clock w0) = false /\
   exists next, next_round c = Some next /\ now_at clock w0 < next) \/
  (steps_to w0 w' /\ (supported c -> expired c (now_at clock w0) = true ->
     exists c', fw_obj w' = Some c' /\ Phase (fs_Status c') = PhaseCompleted)).
Proof.
  intros Ho Ep H. pose proof (cap_frame_refl w0) as F.
  unfold reconcile_running in H. fold (algorithm c) in H.
  destruct (negb (algorithm c =? "")%string && negb (algorithm c =? "sha256")%string) eqn:Ea.
  - apply andb_true_iff in Ea as [Ea1 Ea2]. to_prop.
    destruct (updateChainStatus _ _ _ w0) as [u w2] eqn:Eu. pose proof Eu as Hd.
    apply updateChainStatus_spec in Eu; [|done]. destruct u as [[]|ue].
    + destruct Eu as (d & k & _ & Hw). assert (d = c) as -> by (by eapply wrote_same). right; right. simplify_eq.
      split; [|by intros [?|?]].
      eapply (wrote_steps w0 w0 w' _ _ _ []); try done; [|by rewrite app_nil_r].
      apply step_algorithm; [done|]. by intros [?|?].
    + simplify_eq. left. split; [by apply cap_frame_quiet|by eapply update_disturbed].
  - assert (supported c) as Hs by (apply andb_false_iff in Ea as [Ea|Ea]; to_prop; [by left|by right]).
    destruct (expired c _) eqn:Ex.
    + destruct (duration_reached_refines w0 w0 c res e w') as [Hl|[Hr Hc]]; try done; [by left|].
      right; right. auto.
    + assert (capture_round faults clock kb outcome compile show show_sum c (algorithm c =? "sha256")%string w0
                = (res, e, w') -> stutters w0 w' /\ disturbed c \/ steps_to w0 w') as Hcap
        by (by apply capture_round_refines).
      destruct (next_round c) as [next|] eqn:En; [destruct (_ <? next) eqn:El|].
      * simplify_eq. to_prop. right; left. eauto.
      * destruct (Hcap H); [by left|]. right; right. done.
      * destruct (Hcap H); [by left|]. right; right. done.
Qed.

(** After the first read, which counts as a call. *)
Lemma reconcile_refines_tick w res e w' :
  Reconcile faults clock kb outcome compile show show_sum w = (res, e, w') ->
  stutters (fw_tick w) w' \/ steps_to (fw_tick w) w'.
Proof.
  intros H. unfold Reconcile in H. destruct (get_chain faults w) as [g w1] eqn:Eg.
  apply get_chain_spec in Eg as [-> Hg]. change (fw_obj w) with (fw_obj (fw_tick w)) in Hg.
  set (w0 := fw_tick w) in *. pose proof (cap_frame_refl w0) as F.
  destruct g as [c|ge]; [|simplify_eq; by left]. pose proof (Hg c eq_refl) as Ho.
  destruct (Phase (fs_Status c)) eqn:Ep; try (simplify_eq; by left).
  - apply (save_refines w0 c) in H as [[H _]|H]; [by left|by right|done|by apply step_pending|done].
  - apply (save_refines w0 c) in H as [[H _]|H]; [by left|by right|done|by apply step_running|done].
  - apply running_refines in H as [[H _]|[(-> & _)|[H _]]]; [by left|by left|by right|done|done].
Qed.

Lemma reconcile_refines w res e w' :
  Reconcile faults clock kb outcome compile show show_sum w = (res, e, w') ->
  stutters w w' \/ steps_to w w'.
Proof.
  intros [(O & K & H)|(c & c' & hs & dels & H1 & H2 & H3 & H4 & H5 & H6)]%reconcile_refines_tick.
  - left. split_and!; [done|simpl in K; lia|done].
  - right. exists c, c', hs, dels. split_and!; try done. simpl in H6. lia.
Qed.

(** Every reconcile makes at least one call. *)
Lemma reconcile_calls w :
  (fw_calls w < fw_calls (Reconcile faults clock kb outcome compile show show_sum w).2)%nat.
Proof.
  destruct (Reconcile _ _ _ _ _ _ _ w) as [[res e] w'] eqn:E.
  apply reconcile_refines_tick in E as [(_ & K & _)|(c & c' & hs & dels & _ & _ & _ & _ & _ & K)]; simpl in *; lia.
Qed.
End Runs.

(** ** The evidence *)

Lemma chain_wf_fmap f rs :
  (forall r, Index (f r) = Index r /\ SHA256Hash (f r) = SHA256Hash r /\
             PreviousSHA256Hash (f r) = PreviousSHA256Hash r) ->
  chain_wf rs -> chain_wf (f <$> rs).
Proof.
  intros Hf (HL & HI & HR). split_and!.
  - intros i a b. rewrite !list_lookup_fmap.
    destruct (rs !! i) as [x|] eqn:Ex; [|done]. destruct (rs !! S i) as [y|] eqn:Ey; [|done].
    intros [= <-] [= <-]. destruct (Hf x) as (_ & -> & _). destruct (Hf y) as (_ & -> & ->).
    by eapply HL.
  - intros i r. rewrite list_lookup_fmap. destruct (rs !! i) as [x|] eqn:Ex; [|done].
    intros [= <-]. destruct (Hf x) as (-> & _). by apply HI.
  - intros r. rewrite list_lookup_fmap. destruct (rs !! 0%nat) as [x|] eqn:Ex; [|done].
    intros [= <-]. destruct (Hf x) as (_ & _ & ->). by apply HR.
Qed.

Definition records_of (c : ForensicSnapshotChain) : list SnapshotChainRecord := SnapshotChainRecords (fs_Status c).

(** A record without the time it was taken. *)
Definition timeless (r : SnapshotChainRecord) : SnapshotChainRecord :=
  {| Index := Index r; r_PodName := r_PodName r; r_ContainerName := r_ContainerName r;
     CheckpointPath := CheckpointPath r; SnapshotTime := 0; SHA256Hash := SHA256Hash r;
     PreviousSHA256Hash := PreviousSHA256Hash r |}.

Lemma store_records c : timeless <$> records_of (store c) = timeless <$> records_of c.
Proof. unfold records_of, store. simpl. rewrite <- list_fmap_compose. by apply list_fmap_ext. Qed.

Lemma record_round_records fin t0 h r t c :
  records_of (record_round fin t0 h r t c) = records_of c ++ newRecords r.
Proof.
  unfold record_round, appendRoundRecords, records_of. destruct (newRecords r); simpl; [|done].
  by rewrite app_nil_r.
Qed.

Section Evidence.
Context (compile : LabelSelector -> result apierror (gmap string string -> bool)).

(** What a step does to the records, the spec and the phase. *)
Lemma step_records pods c c' dels :
  chain_step compile pods c c' dels ->
  exists new, timeless <$> records_of c' = (timeless <$> records_of c) ++ (timeless <$> new) /\
    (chain_wf (records_of c) -> chain_wf (records_of c')) /\
    (new <> [] -> Phase (fs_Status c) = PhaseRunning).
Proof.
  assert (forall d, records_of d = records_of c ->
            exists new, timeless <$> records_of (store d) = (timeless <$> records_of c) ++ (timeless <$> new) /\
              (chain_wf (records_of c) -> chain_wf (records_of (store d))) /\
              (new <> [] -> Phase (fs_Status c) = PhaseRunning)) as Hkeep.
  { intros d Hd. exists []. rewrite store_records, Hd, app_nil_r. split; [done|]. split; [|done].
    intros Hw. unfold records_of, store. simpl. apply chain_wf_fmap; [done|]. by fold (records_of d); rewrite Hd. }
  intros [t Hp|t Hp|t Hp Hs|t t0 ds Hp Hs Hx Hm|t text Hp Hs|t t0 r ds Hp Hs Hr Hm Hn];
    [apply Hkeep; done..|].
  exists (newRecords r). rewrite store_records, record_round_records, fmap_app. split; [done|]. split; [|done].
  intros Hw. unfold records_of, store. simpl. apply chain_wf_fmap; [done|].
  fold (records_of (record_round (completes c r) t0 (algorithm c =? "sha256")%string r t c)).
  rewrite record_round_records. apply Hr, Hw.
Qed.
End Evidence.

(** ** Runs *)

Definition terminal (p : SnapshotChainPhase) : bool :=
  match p with PhaseCompleted | PhaseFailed => true | _ => false end.

Lemma step_not_terminal compile pods c c' dels :
  chain_step compile pods c c' dels -> terminal (Phase (fs_Status c)) = false.
Proof. by intros [t ->|t ->|t -> _|t t0 ds -> _ _ _|t text -> _|t t0 r ds -> _ _ _ _]. Qed.

(** A reconcile with some answers of the cluster, or any change of the world that
    keeps the status of the chain (spec edits, pods coming and going, time). *)
Inductive run_step (w w' : fc_world) : Prop :=
| run_reconcile faults clock kb outcome compile show show_sum :
    w' = (Reconcile faults clock kb outcome compile show show_sum w).2 -> run_step w w'
| run_environment c c' :
    fw_obj w = Some c -> fw_obj w' = Some c' -> fs_Status c' = fs_Status c -> run_step w w'.

(** What any later state of the chain keeps of [c]. *)
Definition evidence_kept (c c' : ForensicSnapshotChain) : Prop :=
  (timeless <$> records_of c) `prefix_of` (timeless <$> records_of c') /\
  (chain_wf (records_of c) -> chain_wf (records_of c')) /\
  (terminal (Phase (fs_Status c)) = true -> fs_Status c' = fs_Status c).

Lemma evidence_kept_trans c1 c2 c3 : evidence_kept c1 c2 -> evidence_kept c2 c3 -> evidence_kept c1 c3.
Proof.
  intros (P1 & W1 & T1) (P2 & W2 & T2). split_and!; [by transitivity (timeless <$> records_of c2)|auto|].
  intros H. rewrite T2; [auto|]. by rewrite T1.
Qed.

Lemma evidence_kept_status c c' : fs_Status c' = fs_Status c -> evidence_kept c c'.
Proof. intros H. unfold evidence_kept, records_of. by rewrite H. Qed.

Lemma run_step_kept w w' c :
  run_step w w' -> fw_obj w = Some c -> exists c', fw_obj w' = Some c' /\ evidence_kept c c'.
Proof.
  intros [faults clock kb outcome compile show show_sum ->|d d' H1 H2 H3] Ho.
  - destruct (Reconcile _ _ _ _ _ _ _ w) as [[res e] w'] eqn:E. simpl.
    apply reconcile_refines in E as [(O & _)|(d & d' & hs & dels & O1 & O2 & Hst & _)].
    + exists c. split; [congruence|]. by apply evidence_kept_status.
    + simplify_eq. exists d'. split; [done|].
      destruct (step_records _ _ _ _ _ Hst) as (new & Hr & Hw & _). split_and!; [|done|].
      * rewrite Hr. by apply prefix_app_r.
      * by rewrite (step_not_terminal _ _ _ _ _ Hst).
  - simplify_eq. exists d'. split; [done|]. by apply evidence_kept_status.
Qed.

Lemma run_kept w w' c :
  rtc run_step w w' -> fw_obj w = Some c -> exists c', fw_obj w' = Some c' /\ evidence_kept c c'.
Proof.
  intros H. revert c. induction H as [w|w1 w2 w3 H12 _ IH]; intros c Ho.
  - exists c. split; [done|]. by apply evidence_kept_status.
  - destruct (run_step_kept _ _ _ H12 Ho) as (c2 & O2 & K2). destruct (IH c2 O2) as (c3 & O3 & K3).
    exists c3. split; [done|]. by eapply evidence_kept_trans.
Qed.




(** ** Termination *)

Section Termination.
Context (clock : nat -> Time) (kb : kubelet) (outcome : ck_oracle).
Context (compile : LabelSelector -> result apierror (gmap string string -> bool)).
Context (show : checkpoint_error -> string) (show_sum : checksum_error -> string).

(** A reconcile without API faults. *)
Definition one (w : fc_world) : fc_world :=
  (Reconcile (fun _ => None) clock kb outcome compile show show_sum w).2.

Definition selectable (c : ForensicSnapshotChain) : Prop := is_ok (compile (fs_Selector (fs_Spec c))) = true.

Lemma undisturbed c : selectable c -> ~ disturbed (fun _ => None) compile c.
Proof. intros Hc Hd. by apply Hd. Qed.

Lemma one_running w c :
  fw_obj w = Some c -> Phase (fs_Status c) = PhaseRunning -> selectable c ->
  (one w = fw_tick w /\ expired c (clock (S (fw_calls w))) = false /\
   exists next, next_round c = Some next /\ clock (S (fw_calls w)) < next) \/
  (exists c' dels, fw_obj (one w) = Some c' /\ chain_step compile (fw_pods w) c c' dels /\
     (supported c -> expired c (clock (S (fw_calls w))) = true -> Phase (fs_Status c') = PhaseCompleted)).
Proof.
  intros Ho Hp Hc. unfold one, Reconcile, get_chain, fw_call. simpl. rewrite Ho, Hp.
  destruct (reconcile_running _ _ _ _ _ _ _ c (fw_tick w)) as [[res e] w'] eqn:E.
  apply running_refines in E as [[_ H]|[(-> & H)|[(d & d' & hs & dels & O1 & O2 & Hst & _) Hx]]]; [| | |done|done].
  - by apply undisturbed in H.
  - by left.
  - right. simpl in *. simplify_eq. exists d', dels. split; [done|]. split; [done|]. intros Hs He.
    destruct (Hx Hs He) as (c'' & O3 & Hph). congruence.
Qed.

Lemma one_starting w c :
  fw_obj w = Some c -> Phase (fs_Status c) = PhaseNone \/ Phase (fs_Status c) = PhasePending -> selectable c ->
  exists c' dels, fw_obj (one w) = Some c' /\ chain_step compile (fw_pods w) c c' dels.
Proof.
  intros Ho Hp Hc. unfold one, Reconcile, get_chain, fw_call. simpl. rewrite Ho.
  destruct Hp as [Hp|Hp]; rewrite Hp; destruct (save _ _ _) as [[res e] w'] eqn:E;
    apply (save_refines _ compile (fw_tick w) c) in E
      as [[_ H]|(d & d' & hs & dels & O1 & O2 & Hst & _)]; try done;
    try (by apply undisturbed in H); try (by apply step_pending); try (by apply step_running);
    simpl in *; simplify_eq; eauto.
Qed.

Lemma one_terminal w c :
  fw_obj w = Some c -> terminal (Phase (fs_Status c)) = true -> fw_obj (one w) = Some c.
Proof.
  intros Ho Hp. unfold one, Reconcile, get_chain, fw_call. simpl. rewrite Ho.
  by destruct (Phase (fs_Status c)).
Qed.

Lemma step_spec pods c c' dels : chain_step compile pods c c' dels -> fs_Spec c' = fs_Spec c.
Proof.
  intros [t _|t _|t _ _|t t0 ds _ _ _ _|t text _ _|t t0 r ds _ _ _ _ _]; try done.
  unfold record_round, appendRoundRecords. by destruct (_ =? _)%nat.
Qed.

Hypothesis clock_diverges : forall T, exists n, forall m, (n <= m)%nat -> T < clock m.

(** A Running chain waits only finitely often before its next step. *)
Lemma eventually_steps w c :
  fw_obj w = Some c -> Phase (fs_Status c) = PhaseRunning -> selectable c ->
  exists n c' pods dels, fw_obj (Nat.iter n one w) = Some c' /\ chain_step compile pods c c' dels.
Proof.
  intros Ho Hp Hc. destruct (clock_diverges (default 0 (next_round c))) as [N HN].
  remember (N - fw_calls w)%nat as k eqn:Ek. revert w Ho Ek. induction k as [k IH] using lt_wf_ind; intros w Ho Ek.
  destruct (one_running w c Ho Hp Hc) as [(Ht & _ & next & Hn & Hlt)|(c' & dels & H1 & H2 & _)].
  2:{ exists 1%nat, c', (fw_pods w), dels. done. }
  destruct (decide (N <= S (fw_calls w))%nat) as [Hle|Hgt].
  { specialize (HN _ Hle). rewrite Hn in HN. simpl in HN. lia. }
  destruct (IH (N - fw_calls (fw_tick w))%nat) with (w := fw_tick w) as (n & c' & pods & dels & H1 & H2);
    [simpl; lia|done|done|].
  exists (S n), c', pods, dels. rewrite Nat.iter_succ_r, Ht. done.
Qed.

(** The status of a step that leaves the chain Running, without a time limit. *)
Definition budget (L : Z) (c : ForensicSnapshotChain) : Prop :=
  let s := fs_Status c in
  0 <= FailureCount s < 5 /\ 0 <= SnapshotCount s < L /\ -2147483648 <= AttemptCount s <= MaxInt32.

(** The empty rounds left before the number of attempts reaches the limit; the
    32-bit counter wraps around once it has passed its maximum. *)
Definition attempts_left (L attempts : Z) : Z :=
  if attempts =? MaxInt32 then 4294967297 else Z.max 0 (L - attempts).

Definition remaining (L : Z) (c : ForensicSnapshotChain) : Z :=
  let s := fs_Status c in
  5 * (8589934592 * (L - SnapshotCount s) + attempts_left L (AttemptCount s)) + (5 - FailureCount s).

Lemma attempts_left_range L a : L <= MaxInt32 -> -2147483648 <= a -> 0 <= attempts_left L a <= 4294967297.
Proof. unfold attempts_left, MaxInt32. destruct (_ =? _); lia. Qed.

Lemma attempts_left_next L a :
  1 <= L <= MaxInt32 -> -2147483648 <= a <= MaxInt32 -> int32 (a + 1) < L ->
  attempts_left L (int32 (a + 1)) < attempts_left L a.
Proof.
  intros HL Ha Hlt. unfold attempts_left. destruct (a =? MaxInt32) eqn:E; to_prop.
  - subst a. change (int32 (MaxInt32 + 1)) with (-2147483648). change (-2147483648 =? MaxInt32) with false.
    unfold MaxInt32 in *. cbv iota. lia.
  - rewrite int32_id in * by (unfold MaxInt32 in *; lia).
    destruct (a + 1 =? MaxInt32) eqn:E1; to_prop; [unfold MaxInt32 in *; lia|lia].
Qed.

Lemma record_round_counts fin t0 h r t c :
  let s := fs_Status (store (record_round fin t0 h r t c)) in
  Phase s = match fin with Some _ => PhaseCompleted | None => Phase (fs_Status c) end /\
  SnapshotCount s = count_after c r /\ AttemptCount s = int32 (AttemptCount (fs_Status c) + 1) /\
  FailureCount s = 0 /\ StartTime s = stored_time <$> StartTime (fs_Status c).
Proof. unfold record_round, appendRoundRecords. destruct (_ =? _)%nat; done. Qed.

Lemma step_budget L pods c c' dels :
  1 <= L <= MaxInt32 -> fc_MaxDuration (Capture (fs_Spec c)) = None ->
  fc_MaxSnapshots (Capture (fs_Spec c)) = Some L -> Phase (fs_Status c) = PhaseRunning ->
  budget L c -> chain_step compile pods c c' dels ->
  terminal (Phase (fs_Status c')) = true \/
  (Phase (fs_Status c') = PhaseRunning /\ budget L c' /\ 0 <= remaining L c' < remaining L c).
Proof.
  intros HL Hd Hm Hp (HF & HS & HA) Hst.
  pose proof (attempts_left_range L (AttemptCount (fs_Status c)) ltac:(lia) ltac:(lia)) as HR.
  inversion Hst as [t Hph|t Hph|t Hph Hs|t t0 ds Hph Hs Hx _|t text Hph Hs|t t0 r ds Hph Hs Hr _ _]; subst;
    try congruence; clear Hst.
  - by left.
  - unfold expired in Hx. by rewrite Hd in Hx.
  - destruct (gives_up c) eqn:Eg; [by left|]. right. split; [done|]. unfold gives_up in Eg. rewrite Hd in Eg.
    unfold budget, remaining, maxConsecutiveCheckpointFailures in *. simpl in *.
    rewrite int32_id in * by (unfold MaxInt32; lia). to_prop. lia.
  - pose proof (record_round_counts (completes c r) t0 (algorithm c =? "sha256")%string r t c) as HC.
    cbv zeta in HC. revert HC. generalize (store (record_round (completes c r) t0 (algorithm c =? "sha256")%string r t c)).
    intros c' (P & S' & A' & F' & _). unfold completes, round_done in P. rewrite Hm, Hd in P. simpl in P.
    destruct Hr as [Hcap _]. unfold budget, remaining. rewrite S', A', F'. unfold count_after in *.
    pose proof (int32_range (AttemptCount (fs_Status c) + 1)) as HA'.
    pose proof (attempts_left_range L (int32 (AttemptCount (fs_Status c) + 1)) ltac:(lia) ltac:(lia)) as HR'.
    destruct (0 <? captured r) eqn:Ec; to_prop.
    + rewrite (proj2 (Z.eqb_neq (captured r) 0)) in P by lia. simpl in P.
      rewrite (int32_id (SnapshotCount (fs_Status c) + 1)) in * by (unfold MaxInt32 in *; lia).
      destruct (L <=? SnapshotCount (fs_Status c) + 1) eqn:El; to_prop; rewrite P; [by left|]. right. split; [done|]. lia.
    + rewrite (proj2 (Z.eqb_eq (captured r) 0)) in P by lia. simpl in P.
      rewrite (proj2 (Z.leb_gt L (SnapshotCount (fs_Status c)))) in P by lia.
      destruct (L <=? int32 (AttemptCount (fs_Status c) + 1)) eqn:El; to_prop; rewrite P; [by left|]. right. split; [done|].
      pose proof (attempts_left_next L _ HL HA El). lia.
Qed.

Definition finishes (w : fc_world) : Prop :=
  exists n c, fw_obj (Nat.iter n one w) = Some c /\ terminal (Phase (fs_Status c)) = true.

Lemma finishes_later n w : finishes (Nat.iter n one w) -> finishes w.
Proof.
  intros (m & c & H & Ht). exists (m + n)%nat, c. split; [|done]. by rewrite Nat.iter_add.
Qed.

Lemma finishes_budget L w c :
  1 <= L <= MaxInt32 -> fw_obj w = Some c -> Phase (fs_Status c) = PhaseRunning -> selectable c ->
  fc_MaxDuration (Capture (fs_Spec c)) = None -> fc_MaxSnapshots (Capture (fs_Spec c)) = Some L ->
  budget L c -> finishes w.
Proof.
  intros HL. remember (Z.to_nat (remaining L c)) as k eqn:Ek. revert w c Ek.
  induction k as [k IH] using lt_wf_ind; intros w c Ek Ho Hp Hc Hd Hm Hb.
  destruct (eventually_steps w c Ho Hp Hc) as (n & c' & pods & dels & O & Hst).
  pose proof (step_spec _ _ _ _ Hst) as Hspec.
  destruct (step_budget L _ _ _ _ HL Hd Hm Hp Hb Hst) as [Ht|(Hp' & Hb' & Hr)]; [by exists n, c'|].
  apply (finishes_later n). eapply (IH (Z.to_nat (remaining L c'))); [lia|done|exact O|done|..].
  - unfold selectable. by rewrite Hspec.
  - by rewrite Hspec.
  - by rewrite Hspec.
  - done.
Qed.

(** A step of a Running chain with a time limit keeps the start. *)
Lemma step_start pods c c' dels D t :
  fc_MaxDuration (Capture (fs_Spec c)) = Some D -> StartTime (fs_Status c) = Some t ->
  Phase (fs_Status c) = PhaseRunning -> chain_step compile pods c c' dels ->
  terminal (Phase (fs_Status c')) = true \/
  (Phase (fs_Status c') = PhaseRunning /\ StartTime (fs_Status c') = Some (stored_time t)).
Proof.
  intros Hd Ht Hp Hst.
  inversion Hst as [s Hph|s Hph|s Hph Hs|s t0 ds Hph Hs Hx _|s text Hph Hs|s t0 r ds Hph Hs Hr _ _]; subst;
    try congruence; clear Hst.
  - by left.
  - by left.
  - right. unfold gives_up. rewrite Hd. simpl. by rewrite Ht.
  - destruct (record_round_counts (completes c r) t0 (algorithm c =? "sha256")%string r s c) as (P & _ & _ & _ & St).
    rewrite P, St, Ht. destruct (completes c r); [by left|by right].
Qed.

Lemma stored_time_le t : stored_time t <= t.
Proof. unfold stored_time, Second. pose proof (Z.mul_div_le t 1000000000). lia. Qed.

Lemma finishes_duration N w c D t :
  (forall m, (N <= m)%nat -> D + t < clock m) ->
  fw_obj w = Some c -> Phase (fs_Status c) = PhaseRunning -> selectable c ->
  fc_MaxDuration (Capture (fs_Spec c)) = Some D -> (exists t', StartTime (fs_Status c) = Some t' /\ t' <= t) ->
  finishes w.
Proof.
  intros HN. remember (N - fw_calls w)%nat as k eqn:Ek. revert w c Ek.
  induction k as [k IH] using lt_wf_ind; intros w c Ek Ho Hp Hc Hd (t' & Hst & Hle).
  assert ((N <= S (fw_calls w))%nat -> expired c (clock (S (fw_calls w))) = true) as Hexp.
  { intros Hge. unfold expired. rewrite Hd, Hst. apply Z.ltb_lt. specialize (HN _ Hge). lia. }
  destruct (one_running w c Ho Hp Hc) as [(Ht & Hx & _)|(c' & dels & O & Hstep & Hx)].
  - destruct (decide (N <= S (fw_calls w))%nat) as [Hge|Hlt]; [rewrite Hexp in Hx by done; done|].
    apply (finishes_later 1). simpl. rewrite Ht.
    eapply (IH (N - fw_calls (fw_tick w))%nat); eauto. simpl. lia.
  - destruct (step_start _ _ _ _ _ _ Hd Hst Hp Hstep) as [Hterm|[Hp' Hst']]; [by exists 1%nat, c'|].
    pose proof (step_spec _ _ _ _ Hstep) as Hspec.
    pose proof (reconcile_calls (fun _ => None) clock kb outcome compile show show_sum w) as Hcalls.
    destruct (decide (N <= S (fw_calls w))%nat) as [Hge|Hlt].
    + assert (~ supported c) as Hns by (intros Hs; rewrite (Hx Hs (Hexp Hge)) in Hp'; done).
      inversion Hstep; subst; try done; congruence.
    + apply (finishes_later 1). simpl. fold (one w) in Hcalls.
      eapply (IH (N - fw_calls (one w))%nat); [lia|done|exact O|done|..].
      * unfold selectable. by rewrite Hspec.
      * by rewrite Hspec.
      * exists (stored_time t'). split; [done|]. pose proof (stored_time_le t'). lia.
Qed.
End Termination.

(** C13.  A chain terminates: without API faults, with a clock that keeps running and
    a valid selector, every fresh chain the CRD admits (its schema demands a maximum
    duration or a maximum number of snapshots) reaches Completed or Failed after
    finitely many reconciles, whatever pods match, whichever checkpoints fail,
    whatever becomes of the helper Pods and although the 32-bit counter of attempts
    may wrap around. *)
Theorem chain_terminates clock kb outcome compile show show_sum w c :
  (forall T, exists n, forall m, (n <= m)%nat -> T < clock m) ->
  fw_obj w = Some c -> Phase (fs_Status c) = PhaseNone ->
  SnapshotCount (fs_Status c) = 0 -> AttemptCount (fs_Status c) = 0 -> FailureCount (fs_Status c) = 0 ->
  is_ok (compile (fs_Selector (fs_Spec c))) = true ->
  admit_ForensicSnapshotChainSpec (fs_Spec c) = true ->
  exists n c', fw_obj (Nat.iter n (one clock kb outcome compile show show_sum) w) = Some c' /\
    terminal (Phase (fs_Status c')) = true.
Proof.
  intros Hclk Ho Hp HS HA HF Hc [Hadm _]%andb_true_iff. destruct (admitted_capture _ Hadm) as [Hlim _].
  destruct (one_starting clock kb outcome compile show show_sum w c Ho (or_introl Hp) Hc) as (c1 & d1 & O1 & S1).
  inversion S1 as [t1 _|? Hx|? Hx|? ? ? Hx|? ? Hx|? ? ? ? Hx]; subst; try congruence. clear S1.
  destruct (one_starting clock kb outcome compile show show_sum _ _ O1 (or_intror eq_refl) Hc) as (c2 & d2 & O2 & S2).
  inversion S2 as [? Hx|t2 _|? Hx|? ? ? Hx|? ? Hx|? ? ? ? Hx]; subst; try done. clear S2.
  apply (finishes_later _ _ _ _ _ _ 2). simpl.
  destruct (fc_MaxDuration (Capture (fs_Spec c))) as [D|] eqn:Ed.
  - destruct (Hclk (D + t1)) as [N HN]. eapply (finishes_duration _ _ _ _ _ _ N _ _ D t1 HN O2); try done.
    eexists. split; [reflexivity|]. pose proof (stored_time_le t1). pose proof (stored_time_le (stored_time t1)). lia.
  - destruct Hlim as [[? ?]|(L & HL & Hr)]; [done|].
    eapply (finishes_budget _ _ _ _ _ _ Hclk L); [exact Hr|exact O2|done..|].
    unfold budget, MaxInt32. simpl. rewrite HS, HA, HF. lia.
Qed.

(** ** A concrete chain *)

Definition demo_chain (maxSnapshots : Z) (alg : string) (action : PostSnapshotAction) : ForensicSnapshotChain :=
  {| fs_Generation := 1;
     fs_Spec := {| fs_Namespace := "default"; fs_Selector := {| MatchLabels := ∅; MatchExpressions := [] |};
                   fs_ContainerNames := [];
                   Capture := {| fc_Interval := None; fc_MaxSnapshots := Some maxSnapshots; fc_MaxDuration := None |};
                   Integrity := {| HashAlgorithm := alg |}; fs_PostSnapshotAction := action |};
     fs_Status := {| fs_Conditions := []; Phase := PhaseNone; SnapshotCount := 0; AttemptCount := 0;
                     FailureCount := 0; StartTime := None; LastSnapshotTime := None; CompletionTime := None;
                     ErrorMessage := ""; fs_ObservedGeneration := 0; SnapshotChainRecords := [] |} |}.

Definition demo_target : Pod :=
  {| p_name := "web"; p_namespace := "default"; p_annotations := ∅; p_labels := ∅; controller_uid := None;
     p_deleting := false;
     p_spec := {| NodeName := "node1";
                  Containers := [ {| c_name := "nginx"; c_image := "nginx:1"; c_limits := ∅ |} ] |};
     p_phase := PodRunning; p_reason := ""; p_message := ""; p_conditions := [] |}.

Definition demo_fc (c : ForensicSnapshotChain) : fc_world :=
  {| fw_obj := Some c; fw_pods := [demo_target]; fw_calls := 0; fw_ck := []; fw_events := [] |}.

(** A call a minute. *)
Definition demo_clock (n : nat) : Time := Z.of_nat n * (60 * Second).

(** Helpers succeed at once; the log of the helper named [bad] cannot be read. *)
Definition demo_kubelet (bad : string) : kubelet :=
  {| kb_poll := fun _ _ => (PodSucceeded, "");
     kb_logs := fun name => if (name =? bad)%string then Err "gone"
                            else Ok (name +:+ "-sum  /var/lib/kubelet/checkpoints/x.tar", None) |}.

Definition demo_one (bad : string) (w : fc_world) : fc_world :=
  one demo_clock (demo_kubelet bad) (fun _ _ => Ok "/var/lib/kubelet/checkpoints/x.tar")
    (fun _ => Ok (fun _ => true)) (fun _ => "") (fun _ => "") w.

Lemma demo_clock_diverges : forall T, exists n, forall m, (n <= m)%nat -> T < demo_clock m.
Proof. intros T. exists (S (Z.to_nat T)). intros m Hm. unfold demo_clock, Second. lia. Qed.



Lemma chain_terminates_witness :
  exists n c', fw_obj (Nat.iter n (demo_one "") (demo_fc (demo_chain 2 "sha256" PostSnapshotActionNone))) = Some c' /\
    terminal (Phase (fs_Status c')) = true.
Proof.
  apply (chain_terminates demo_clock (demo_kubelet "") (fun _ _ => Ok "/var/lib/kubelet/checkpoints/x.tar")
    (fun _ => Ok (fun _ => true)) (fun _ => "") (fun _ => "") _ (demo_chain 2 "sha256" PostSnapshotActionNone));
    try reflexivity. exact demo_clock_diverges.
Defined.

(** The hash chain has gaps: when the checksum of the last record of a round
    could not be computed, the next record carries no previous hash at all, although
    an earlier record of the chain has one, so the later records are not linked to
    the earlier ones. *)
Theorem hash_failure_restarts_chain :
  (fun r => (Index r, SHA256Hash r, PreviousSHA256Hash r)) <$>
    from_option records_of [] (fw_obj (Nat.iter 5 (demo_one "checksum-helper-900000000000")
                                  (demo_fc (demo_chain 3 "sha256" PostSnapshotActionNone)))) =
  [ (0, "checksum-helper-420000000000-sum", ""); (1, "", ""); (2, "checksum-helper-1380000000000-sum", "") ].
Proof. vm_compute. reflexivity. Qed.

(** An invalid selector escapes every bound: a Running chain without a maximum
    duration whose label selector cannot be compiled stays as it is for ever, each
    reconcile returning an error before any attempt is counted. *)
Theorem invalid_selector_never_terminates clock kb outcome compile show show_sum w c e :
  fw_obj w = Some c -> Phase (fs_Status c) = PhaseRunning -> supported c ->
  fc_MaxDuration (Capture (fs_Spec c)) = None -> compile (fs_Selector (fs_Spec c)) = Err e ->
  forall n, fw_obj (Nat.iter n (one clock kb outcome compile show show_sum) w) = Some c.
Proof.
  intros Ho Hp Hs Hd He n.
  assert (forall v, fw_obj v = Some c -> fw_obj (one clock kb outcome compile show show_sum v) = Some c) as Hstep.
  { intros v Hv. unfold one, Reconcile, get_chain, fw_call. simpl. rewrite Hv, Hp.
    unfold reconcile_running. fold (algorithm c).
    replace (negb (algorithm c =? "")%string && negb (algorithm c =? "sha256")%string) with false
      by (destruct Hs as [-> | ->]; reflexivity).
    unfold expired. rewrite Hd.
    unfold capture_round, matching_pods. rewrite He. simpl.
    destruct (next_round c) as [next|]; [|done]. by destruct (_ <? next). }
  induction n as [|n IH]; [done|]. simpl. by apply Hstep.
Qed.

Lemma invalid_selector_never_terminates_witness :
  let invalid := fun _ : LabelSelector => Err (APIFailure "invalid selector") : result apierror (gmap string string -> bool) in
  let run := one demo_clock (demo_kubelet "") (fun _ _ => Ok "x.tar") invalid (fun _ => "") (fun _ => "") in
  Phase <$> (fs_Status <$> fw_obj (Nat.iter 100 run (Nat.iter 2 run
    (demo_fc (demo_chain 1 "" PostSnapshotActionNone))))) = Some PhaseRunning.
Proof.
  intros invalid run.
  destruct (fw_obj (Nat.iter 2 run (demo_fc (demo_chain 1 "" PostSnapshotActionNone)))) as [c|] eqn:Ec;
    [|vm_compute in Ec; done].
  unfold run. rewrite (invalid_selector_never_terminates demo_clock (demo_kubelet "") (fun _ _ => Ok "x.tar")
    invalid (fun _ => "") (fun _ => "") _ c (APIFailure "invalid selector") Ec);
    vm_compute in Ec; injection Ec as <-; try reflexivity. by left.
Defined.
