(* ===== verification/Evidence.v ===== *)
(** * Forensic evidence under the retention collector

    The ForensicSnapshotChain controller and the retention collector share the
    checkpoint directory but not their state: the controller records the path of
    every archive it took, the collector deletes archives by age and number.
    Here a chain is run round by round, the kubelet writes each archive into the
    directory, and the collector handles the write with the operator's initial
    policies. *)

From stdpp Require Import pretty.
From S2P Require Import Prelude GoStrings GoPath Kube GoSystem Api Pinning Archive Policies Retention.
From S2P Require Import RetentionProofs GarbageCollector Creator Triggers Checksum Forensic ForensicProofs.
Open Scope string_scope.
Open Scope list_scope.
Open Scope Z_scope.

(** The chain's world and the collector's, over one directory. *)
Record evidence_state := { ev_chain : fc_world; ev_gc : gc_state }.

Section Evidence.
Context (aenv : ArchiveEnv) (cluster : Cluster).
Context (clock : nat -> Time) (kb : kubelet) (compile : LabelSelector -> result apierror (gmap string string -> bool)).

(** The archive of the [n]-th request, and what the kubelet writes there. *)
Context (archive_name : nat -> string) (archive_file : nat -> node).

Definition write_archive (n : nat) (fs : FS) : FS :=
  {| fs_nodes := <[archive_name n := archive_file n]> (fs_nodes fs); fs_nowrite := fs_nowrite fs;
     fs_noread := fs_noread fs |}.

(** The kubelet writes the archives of new requests, the collector sees each. *)
Definition collect_write (vars : policyVars) (now : Time) (g : gc_state) (n : nat) : gc_state :=
  let fs := write_archive n (g_fs g) in
  handleWriteFinished aenv cluster (@insertion_sort) (fun _ => fs) (fun _ => false) (fun _ => false) false vars now
    (archive_name n)
    {| g_fs := fs; retentionUnreachableState := retentionUnreachableState g; g_reports := g_reports g |}.

Definition evidence_round (vars : policyVars) (s : evidence_state) : evidence_state :=
  let w := one clock kb (fun n _ => Ok (archive_name n)) compile (fun _ => "") (fun _ => "") (ev_chain s) in
  {| ev_chain := w;
     ev_gc := fold_left (collect_write vars (clock (fw_calls w)))
                (seq (length (fw_ck (ev_chain s))) (length (fw_ck w) - length (fw_ck (ev_chain s)))) (ev_gc s) |}.
End Evidence.

(** The records whose archive is still in the directory. *)
Definition backed (fs : FS) (recs : list SnapshotChainRecord) : list SnapshotChainRecord :=
  List.filter (fun x => is_some (os_Stat fs (CheckpointPath x))) recs.

Section Bound.
Context (env : ArchiveEnv) (cluster : Cluster).
Context (sort_slice : forall A : Type, (A -> A -> bool) -> list A -> list A) `{!GoSort sort_slice}.

(** The collector does not know the chains: after an evaluation at most as many
    archives of unpinned records are left as the policy allows, however many
    records the chain lists. *)
Theorem evidence_bounded policies now details level policy g recs :
  ordinary env cluster policies now details level policy g ->
  NoDup (CheckpointPath <$> recs) ->
  (forall x, x ∈ recs -> CheckpointPath x ∈ scope_of env policies now details level (g_fs g) /\
     isCheckpointPinned (g_fs g) (CheckpointPath x) = false) ->
  Z.of_nat (length (backed (g_fs (handleCheckpointsForLevel env cluster sort_slice policies now details level policy g)) recs))
  <= Z.max 0 (MaxCheckpoints policy).
Proof.
  intros (H1 & H2 & H3 & H4 & H5) Hnd Hin.
  destruct (limits_hold env cluster sort_slice policies now details level policy g H1 H2 H3 H4 H5) as [Hlim _].
  set (fs' := g_fs (handleCheckpointsForLevel _ _ _ _ _ _ _ _ _)) in *. set (A := scope_of _ _ _ _ _ _) in *.
  assert (forall x, x ∈ backed fs' recs -> CheckpointPath x ∈ RetentionProofs.remaining fs' A /\
            isCheckpointPinned (g_fs g) (CheckpointPath x) = false) as Hb.
  { intros x Hx. unfold backed in Hx. rewrite list_elem_of_In, filter_In, <- list_elem_of_In in Hx.
    destruct Hx as [Hx He]. destruct (Hin x Hx) as [Ha Hp]. split; [|done].
    unfold RetentionProofs.remaining. by rewrite list_elem_of_In, filter_In, <- list_elem_of_In. }
  destruct Hlim as [Hall|[Hlen _]].
  - assert (backed fs' recs = []) as ->; [|simpl; lia]. destruct (backed fs' recs) as [|x l]; [done|].
    destruct (Hb x) as [Hr Hp]; [by left|]. rewrite Forall_forall in Hall. rewrite Hall in Hp; done.
  - assert (length (backed fs' recs) <= length (RetentionProofs.remaining fs' A))%nat; [|lia].
    rewrite <- (length_fmap CheckpointPath). apply NoDup_incl_length.
    + apply NoDup_ListNoDup. clear -Hnd. induction recs as [|x recs IH]; simpl; [done|].
      apply NoDup_cons in Hnd as [Hx Hnd]. destruct (is_some _); [|by apply IH]. apply NoDup_cons. split; [|by apply IH].
      intros Hin. apply Hx. apply list_elem_of_fmap in Hin as (y & -> & Hy). apply list_elem_of_fmap. exists y.
      split; [done|]. unfold backed in Hy. rewrite list_elem_of_In, filter_In, <- list_elem_of_In in Hy. tauto.
    + intros p Hp. apply list_elem_of_In, list_elem_of_fmap in Hp as (x & -> & Hx). apply list_elem_of_In. by apply Hb.
Qed.
End Bound.

(** ** A completed chain *)

Definition demo_evidence_name (n : nat) : string :=
  "/var/lib/kubelet/checkpoints/checkpoint-web_default-nginx-2026-01-01T00:00:" +:+ pretty (10 + n)%nat +:+ ".tar".

Definition demo_evidence (maxSnapshots : Z) (rounds : nat) : evidence_state :=
  Nat.iter rounds
    (evidence_round demo_env demo_cluster demo_clock (demo_kubelet "") (fun _ => Ok (fun _ => true))
       demo_evidence_name (fun n => demo_file 100 (Z.of_nat n) "default/web/nginx") initialVars)
    {| ev_chain := demo_fc (demo_chain maxSnapshots "sha256" PostSnapshotActionNone);
       ev_gc := {| g_fs := {| fs_nodes := {[ "/tmp" := NDir; "/var/lib/kubelet/checkpoints" := NDir ]};
                              fs_nowrite := ∅; fs_noread := ∅ |};
                   retentionUnreachableState := ∅; g_reports := [] |} |}.

(** What a chain lists and how many of its archives are there. *)
Definition chain_view (s : evidence_state) : option (SnapshotChainPhase * nat * list Z) :=
  match fw_obj (ev_chain s) with
  | Some c => let recs := SnapshotChainRecords (fs_Status c) in
              Some (Phase (fs_Status c), length recs, Index <$> backed (g_fs (ev_gc s)) recs)
  | None => None
  end.

(** With the initial policies a chain of one container that completed with twelve
    snapshots has lost the archives of the first two. *)
Theorem completed_chain_loses_evidence :
  chain_view (demo_evidence 12 15) = Some (PhaseCompleted, 12%nat, [2; 3; 4; 5; 6; 7; 8; 9; 10; 11]).
Proof. vm_compute. reflexivity. Qed.
