(* ===== verification/System.v ===== *)
(** * One operator process over the checkpoint directory of its node

    The PodRestore controller, the reconciler of the retention policies and the
    garbage collector run in one process and meet in the checkpoint directory; the
    kubelet writes archives into it and users create and delete PodRestores.  The
    components are those of [PodRestore.v], [GarbageCollector.v] and [Retention.v];
    here they take turns in any order.  A reconcile is one step (what can happen
    inside a pin is the subject of [Pinning.v]); the evaluations of the collector run
    step by step in goroutines of their own, as in [ConcurrentRetention.v], or as a
    whole where the order of their steps does not matter.  Reconciles need the leader's lease; the collector, started by
    [SetupWithManager], does not. *)

From stdpp Require Import relations.
From S2P Require Import Prelude GoStrings GoPath Kube GoSystem Api Admission Pinning Archive Policies.
From S2P Require Import Retention RetentionProofs ConcurrentRetention GarbageCollector PodRestore.
Open Scope string_scope.
Open Scope list_scope.

(** ** The pod informer *)

(** What the informer hands to [DeleteFunc]: the pod, or a tombstone when the
    deletion was missed while the watch was down. *)
Inductive informer_object :=
| PodObject (p : Pod)
| DeletedFinalStateUnknown (key : string) (last_seen : Pod).

(** ** State *)

Record system := {
  sy_gc : gc_state;                          (* the directory and the collector's memory *)
  sy_vars : policyVars;
  sy_pending : list policySnapshot;          (* started applyPoliciesImmediately goroutines *)
  sy_evals : list goroutine;                 (* evaluations under way *)
  sy_leader : bool;
  sy_prs : gmap string PodRestore;           (* by namespace/name *)
  sy_nodes : gset string;
  sy_pods : gmap (string * string) Pod
}.

Definition sy_fs (s : system) : FS := g_fs (sy_gc s).

Definition with_gc (s : system) (g : gc_state) : system :=
  {| sy_gc := g; sy_vars := sy_vars s; sy_pending := sy_pending s; sy_evals := sy_evals s; sy_leader := sy_leader s; sy_prs := sy_prs s;
     sy_nodes := sy_nodes s; sy_pods := sy_pods s |}.
Definition with_policies (s : system) (v : policyVars) (pending : list policySnapshot) : system :=
  {| sy_gc := sy_gc s; sy_vars := v; sy_pending := pending; sy_evals := sy_evals s; sy_leader := sy_leader s; sy_prs := sy_prs s;
     sy_nodes := sy_nodes s; sy_pods := sy_pods s |}.
Definition with_prs (s : system) (m : gmap string PodRestore) : system :=
  {| sy_gc := sy_gc s; sy_vars := sy_vars s; sy_pending := sy_pending s; sy_evals := sy_evals s; sy_leader := sy_leader s; sy_prs := m;
     sy_nodes := sy_nodes s; sy_pods := sy_pods s |}.
Definition with_cluster (s : system) (nodes : gset string) (pods : gmap (string * string) Pod) : system :=
  {| sy_gc := sy_gc s; sy_vars := sy_vars s; sy_pending := sy_pending s; sy_evals := sy_evals s; sy_leader := sy_leader s; sy_prs := sy_prs s;
     sy_nodes := nodes; sy_pods := pods |}.
Definition with_evals (s : system) (l : list goroutine) : system :=
  {| sy_gc := sy_gc s; sy_vars := sy_vars s; sy_pending := sy_pending s; sy_evals := l; sy_leader := sy_leader s;
     sy_prs := sy_prs s; sy_nodes := sy_nodes s; sy_pods := sy_pods s |}.
Definition elected (s : system) : system :=
  {| sy_gc := sy_gc s; sy_vars := sy_vars s; sy_pending := sy_pending s; sy_evals := sy_evals s; sy_leader := true; sy_prs := sy_prs s;
     sy_nodes := sy_nodes s; sy_pods := sy_pods s |}.

(** The world one PodRestore is reconciled in. *)
Definition pr_view (s : system) (key : string) : pr_world :=
  {| w_obj := sy_prs s !! key; w_nodes := sy_nodes s; w_pods := sy_pods s; w_fs := sy_fs s;
     w_calls := 0; w_writes := 0 |}.

Definition pr_commit (s : system) (key : string) (w : pr_world) : system :=
  {| sy_gc := Retention.with_fs (sy_gc s) (w_fs w); sy_vars := sy_vars s; sy_pending := sy_pending s; sy_evals := sy_evals s; sy_leader := sy_leader s;
     sy_prs := match w_obj w with
               | Some o => <[key := o]> (sy_prs s)
               | None => delete key (sy_prs s)
               end;
     sy_nodes := w_nodes w; sy_pods := w_pods w |}.

(** A PodRestore as the API server stores a new one: no status yet. *)
Definition fresh_pr (pr : PodRestore) : Prop :=
  pr_Deleting pr = false /\ pr_Finalizers pr = [] /\ pr_Conditions (pr_Status pr) = [].

(** [kubectl delete]: without finalizers the object goes at once. *)
Definition request_deletion (pr : PodRestore) : option PodRestore :=
  match pr_Finalizers pr with
  | [] => None
  | _ => Some {| pr_Name := pr_Name pr; pr_Namespace := pr_Namespace pr; pr_UID := pr_UID pr;
                 pr_Generation := pr_Generation pr; pr_Deleting := true;
                 pr_Finalizers := pr_Finalizers pr; pr_Spec := pr_Spec pr; pr_Status := pr_Status pr |}
  end.

(** [kubectl edit] of the spec and the finalizers, once admitted; an object that is
    being deleted goes with its last finalizer. *)
Definition apply_edit (pr : PodRestore) (spec : PodRestoreSpec) (fins : list string) : option PodRestore :=
  if pr_Deleting pr && (length fins =? 0)%nat then None
  else Some {| pr_Name := pr_Name pr; pr_Namespace := pr_Namespace pr; pr_UID := pr_UID pr;
               pr_Generation := pr_Generation pr; pr_Deleting := pr_Deleting pr;
               pr_Finalizers := fins; pr_Spec := spec; pr_Status := pr_Status pr |}.

Section System.
Context (env : ArchiveEnv) (cluster : Cluster).
Context (sort_slice : forall A : Type, (A -> A -> bool) -> list A -> list A) `{!GoSort sort_slice}.
Context (r : reconciler) (show : spec_error -> string).

(** The [DeleteFunc] of [PodWatcher]: only the pod itself is understood. *)
Definition DeleteFunc (vars : policyVars) (now : Time) (obj : informer_object) (g : gc_state) : gc_state :=
  match obj with
  | PodObject p => handlePodDeleted env cluster sort_slice vars now p g
  | DeletedFinalStateUnknown _ _ => g
  end.

(** [PodWatcher]: nothing without a client; otherwise every deletion the
    informer reports until the channel is closed. *)
Definition PodWatcher (vars : policyVars) (events : list (Time * informer_object)) (g : gc_state) : gc_state :=
  match getKubernetesClient cluster with
  | Err _ => g
  | Ok _ => fold_left (fun g '(now, obj) => DeleteFunc vars now obj g) events g
  end.

(** What may happen next. *)
Inductive sys_action :=
| Elect
| ReconcilePodRestore (key : string) (now : Time) (faults : nat -> option apierror)
| ReconcileOperator (get : result apierror CheckpointRestoreOperatorSpec)
| ApplyImmediately (n : nat) (now : Time)
    (iteration : gmap string checkpointDetails -> list checkpointDetails)
| WriteFinished (name : string) (now : Time) (fs_at : Z -> FS)
    (cancelled_before cancelled_waiting : Z -> bool) (cancelled_after : bool)
| PodEvent (now : Time) (obj : informer_object)
| StartEvaluation (details : checkpointDetails)
| EvaluationStep (i : nat) (v : view)
| KubeletWrites (now : Time) (path data : string)
| UserCreates (pr : PodRestore)
| UserUpdates (key : string) (spec : PodRestoreSpec) (fins : list string)
| UserDeletes (key : string)
| ClusterChanges (nodes : gset string) (pods : gmap (string * string) Pod).

(** The snapshots of a policy reconcile that are applied at once, each in a
    goroutine of its own. *)
Definition to_apply (effects : list reconcile_effect) : list policySnapshot :=
  omap (fun e => match e with ApplyNow policies => Some policies | RestartCollector => None end) effects.

Definition sys_exec (a : sys_action) (s : system) : option system :=
  match a with
  | Elect => Some (elected s)
  | ReconcilePodRestore key now faults =>
      if sy_leader s then
        Some (pr_commit s key (PodRestore.Reconcile env faults show r now (pr_view s key)).2)
      else None
  | ReconcileOperator get =>
      if sy_leader s then
        let '(_, _, v, effects) := GarbageCollector.Reconcile get (sy_vars s) in
        Some (with_policies s v (sy_pending s ++ to_apply effects))
      else None
  | ApplyImmediately n now iteration =>
      match sy_pending s !! n with
      | Some policies =>
          Some (with_policies (with_gc s (applyPoliciesImmediately env cluster sort_slice policies now iteration (sy_gc s)))
                  (sy_vars s) (delete n (sy_pending s)))
      | None => None
      end
  | WriteFinished name now fs_at cb cw ca =>
      Some (with_gc s (handleWriteFinished env cluster sort_slice fs_at cb cw ca (sy_vars s) now name (sy_gc s)))
  | PodEvent now obj => Some (with_gc s (DeleteFunc (sy_vars s) now obj (sy_gc s)))
  | StartEvaluation details =>
      (* the details of a finished archive, or of a container of a deleted pod *)
      Some (with_evals s (sy_evals s ++ [(policy_jobs (currentPolicySnapshot (sy_vars s)) details, Begin)]))
  | EvaluationStep i v =>
      match sy_evals s !! i with
      | None => None
      | Some gr => match gostep env sort_slice v gr (sy_gc s) with
                   | None => None
                   | Some (gr', g') => Some (with_evals (with_gc s g') (<[i := gr']> (sy_evals s)))
                   end
      end
  | KubeletWrites now path data =>
      if HasSuffix path ".tar" && (Clean path =? path) && IsAbs path then
        match os_WriteFile now (sy_fs s) path data with
        | Ok fs => Some (with_gc s (Retention.with_fs (sy_gc s) fs))
        | Err _ => None
        end
      else None
  | UserCreates pr =>
      match sy_prs s !! podRestoreOwnerKey pr with
      | Some _ => None
      | None => if bool_decide (fresh_pr pr) then Some (with_prs s (<[podRestoreOwnerKey pr := pr]> (sy_prs s)))
                else None
      end
  | UserUpdates key spec fins =>
      match sy_prs s !! key with
      | None => None
      | Some pr =>
          if admit_PodRestoreSpec_update (pr_Spec pr) spec then
            Some (with_prs s (match apply_edit pr spec fins with
                              | None => delete key (sy_prs s)
                              | Some pr' => <[key := pr']> (sy_prs s)
                              end))
          else None
      end
  | UserDeletes key =>
      match sy_prs s !! key with
      | None => None
      | Some pr => Some (with_prs s (match request_deletion pr with
                                     | None => delete key (sy_prs s)
                                     | Some pr' => <[key := pr']> (sy_prs s)
                                     end))
      end
  | ClusterChanges nodes pods => Some (with_cluster s nodes pods)
  end.

Fixpoint sys_run (acts : list sys_action) (s : system) : option system :=
  match acts with
  | [] => Some s
  | a :: acts' => match sys_exec a s with Some s' => sys_run acts' s' | None => None end
  end.

(** [PodWatcher] is the pod events of the system, in the order they are reported. *)
Lemma PodWatcher_events client events s :
  getKubernetesClient cluster = Ok client ->
  sys_run (map (fun '(now, obj) => PodEvent now obj) events) s = Some (with_gc s (PodWatcher (sy_vars s) events (sy_gc s))).
Proof.
  unfold PodWatcher. intros ->. revert s. induction events as [|[now obj] events IH]; intros s; [by destruct s|].
  simpl. by rewrite IH.
Qed.
End System.

(** ** Well-formed paths *)

Definition wf_path (p : string) : Prop := IsAbs p = true /\ Clean p = p.

(** A suffix without separator that makes no dot name keeps a path clean. *)
Lemma wf_path_append p suf :
  wf_path p -> has_char sep suf = false -> (2 < String.length suf)%nat -> wf_path (p +:+ suf).
Proof.
  intros [Ha Hc] Hs Hl.
  assert (forall b, has_char sep b = false -> clean_elem (b +:+ suf)) as He.
  { intros b Hb. assert (String.length (b +:+ suf) = String.length b + String.length suf)%nat as Hlen.
    { clear. induction b; simpl; auto. }
    split_and!; try (intros Heq; rewrite Heq in Hlen; simpl in Hlen; lia).
    by rewrite has_char_app, Hb, Hs. }
  assert (exists es, p +:+ suf = abs_path es /\ Forall clean_elem es) as (es & -> & Hes).
  { destruct (clean_abs_cases p Ha Hc) as [->|(es & b & -> & Hes & Hb)].
    - exists [suf]. split; [done|]. constructor; [|done]. apply (He ""). done.
    - exists (es ++ [b +:+ suf]). split.
      + destruct (abs_path_last es b) as (d & -> & Hd). destruct (abs_path_last es (b +:+ suf)) as (d' & -> & Hd').
        rewrite !append_assoc. f_equal. rewrite <- Hd in Hd'. clear -Hd'.
        revert d Hd'. induction d' as [|c d' IH]; intros [|c0 d] H; simpl in *; simplify_eq; try done.
        * by destruct d.
        * by destruct d'.
        * f_equal. by apply IH.
      + apply Forall_app. split; [done|]. constructor; [|done]. apply He. apply Hb. }
  split; [apply IsAbs_spec; by eexists|]. by apply Clean_abs_path.
Qed.

Lemma marker_frame_wf p fs fs' : wf_path p -> marker_frame p fs fs' -> fs_wf fs -> fs_wf fs'.
Proof.
  intros Hp [Hf _] Hwf q n Hq.
  assert (wf_path (keep_path p)) as Hk by (apply wf_path_append; [done|done|simpl; lia]).
  destruct (decide (q = keep_path p)) as [->|H1]; [done|].
  destruct (decide (q = tmp_path p)) as [->|H2]; [by apply wf_path_append; [..|simpl; lia]|].
  rewrite Hf in Hq by done. eauto.
Qed.

Lemma pin_wf now fs p o b fs' : fs_wf fs -> pinCheckpoint now fs p o = (b, fs') -> fs_wf fs'.
Proof.
  intros Hwf H. pose proof (pin_refines _ _ _ _ _ _ H) as (Hf & _).
  unfold pinCheckpoint, os_Stat in H. destruct (fs_nodes fs !! p) eqn:E; [|by simplify_eq].
  eapply marker_frame_wf; [by eapply Hwf|done..].
Qed.

Lemma unpin_wf now fs p o : fs_wf fs -> fs_wf (unpinCheckpoint now fs p o).
Proof.
  intros Hwf. destruct (unpin_refines now fs p o) as [[Hf _] _]. revert Hf.
  unfold unpinCheckpoint, os_ReadFile. fold (keep_path p).
  destruct (fs_nodes fs !! keep_path p) as [n|] eqn:E; [|done]. intros Hf q m Hq.
  assert (wf_path (keep_path p)) as Hk by (by eapply Hwf).
  destruct (decide (q = keep_path p)) as [->|H1]; [done|].
  destruct (decide (q = tmp_path p)) as [->|H2]; [by apply wf_path_append; [..|simpl; lia]|].
  rewrite Hf in Hq by done. eauto.
Qed.

Lemma pin_all_wf now o cps b fs b' fs' :
  fs_wf fs ->
  fold_left (fun '(all, fs) cp =>
               let '(ok, fs) := pinCheckpoint now fs (cc_Path cp) o in
               (if ok then all else false, fs)) cps (b, fs) = (b', fs') ->
  fs_wf fs' /\ (b' = true -> b = true /\ forall cp, cp ∈ cps -> is_archive (cc_Path cp) ->
                              is_Some (fs_nodes fs' !! cc_Path cp)).
Proof.
  revert b fs. induction cps as [|cp cps IH]; intros b fs Hwf; simpl.
  { intros [= <- <-]. split; [done|]. intros Hb. split; [done|]. set_solver. }
  destruct (pinCheckpoint now fs (cc_Path cp) o) as [ok fs1] eqn:E. intros H.
  pose proof (pin_all_fold _ _ _ _ _ _ _ H) as ((Harch & _) & _).
  pose proof (pin_refines _ _ _ _ _ _ E) as (Hf & Hex & _).
  destruct (IH _ _ (pin_wf _ _ _ _ _ _ Hwf E) H) as [Hwf' Hall]. split; [done|]. intros Hb.
  destruct (Hall Hb) as [Hok Hrest]. destruct ok; [|done]. split; [done|].
  intros cp' [->|Hin]%elem_of_cons Ha; [|by apply Hrest].
  rewrite Harch by done. rewrite (marker_frame_archive _ _ _ _ Hf Ha). by apply Hex.
Qed.

Lemma unpin_all_wf now o cps fs : fs_wf fs -> fs_wf (unpin_all now o cps fs).
Proof.
  unfold unpin_all. revert fs. induction cps as [|cp cps IH]; intros fs Hwf; simpl; [done|].
  apply IH. by apply unpin_wf.
Qed.

(** ** What a reconcile leaves in the object *)

Definition pinned_status (s : PodRestoreStatus) : option ConditionStatus :=
  Status_ <$> FindStatusCondition (pr_Conditions s) ConditionCheckpointsPinned.

(** The stored object is kept, or gets a status with this pinned condition. *)
Definition obj_step (st : option ConditionStatus) (w w' : pr_world) : Prop :=
  forall o, w_obj w = Some o ->
    exists o', w_obj w' = Some o' /\ (o' = o \/ exists s, o' = set_status o s /\ pinned_status s = st).

Section ObjFacts.
Context (env : ArchiveEnv) (faults : nat -> option apierror) (show : spec_error -> string).

Lemma obj_step_same st w w' : w_obj w' = w_obj w -> obj_step st w w'.
Proof. intros H o Ho. exists o. rewrite H. auto. Qed.

Lemma obj_step_from st w w1 w' : w_obj w1 = w_obj w -> obj_step st w1 w' -> obj_step st w w'.
Proof. intros H Hs o Ho. apply Hs. congruence. Qed.

Lemma api_get_obj {A} (read : pr_world -> option A) w x w1 : api_get faults read w = (x, w1) -> w_obj w1 = w_obj w.
Proof. intros H%api_get_same. apply H. Qed.

Lemma saveStatus_obj pr before res w x e w1 :
  saveStatus faults pr before res w = (x, e, w1) -> obj_step (pinned_status (pr_Status pr)) w w1.
Proof.
  unfold saveStatus. case_bool_decide; [intros [= _ _ <-]; by apply obj_step_same|].
  unfold update_status, api_call, tick. simpl. intros H1 o Ho.
  destruct (faults (w_calls w)); [simplify_eq; simpl; exists o; auto|]. rewrite Ho in H1. simplify_eq. simpl.
  eexists. split; [reflexivity|]. right. eexists. split; [reflexivity|].
  unfold pinned_status. simpl. rewrite find_stored. by destruct (FindStatusCondition _ _).
Qed.

Lemma setReady_pinned now pr st reason msg :
  pinned_status (pr_Status (setReady now pr st reason msg)) = pinned_status (pr_Status pr).
Proof. unfold pinned_status. simpl. by rewrite SetStatusCondition_find_ne. Qed.

Lemma setPinned_pinned now pr st reason msg :
  pinned_status (pr_Status (setPinned now pr st reason msg)) = Some st.
Proof.
  unfold pinned_status. simpl.
  destruct (SetStatusCondition_find now (pr_Conditions (pr_Status pr))
              {| Type_ := ConditionCheckpointsPinned; Status_ := st; CondGeneration := pr_Generation pr;
                 LastTransitionTime := 0%Z; Reason := reason; Message := msg |}) as (c & Hc & Hs & _).
  simpl in *. rewrite Hc. simpl. by rewrite Hs.
Qed.

Lemma observe_obj now pr before p w x e w1 :
  observe_pod faults now pr before p w = (x, e, w1) -> obj_step (pinned_status (pr_Status pr)) w w1.
Proof.
  unfold observe_pod. intros H.
  assert (forall st reason msg res, saveStatus faults (setReady now (set_podname pr (p_name p)) st reason msg) before res w
            = (x, e, w1) -> obj_step (pinned_status (pr_Status pr)) w w1) as Hs.
  { intros st reason msg res Hs%saveStatus_obj. by rewrite setReady_pinned in Hs. }
  destruct (negb _); [|destruct (p_phase p); eauto].
  apply saveStatus_obj in H. by rewrite setReady_pinned in H.
Qed.

Lemma ensure_obj now pr before w x e w1 :
  ensure_pod env faults show now pr before w = (x, e, w1) -> obj_step (pinned_status (pr_Status pr)) w w1.
Proof.
  unfold ensure_pod. destruct (api_get faults _ w) as [g w2] eqn:Eg. apply api_get_obj in Eg.
  assert (forall st reason msg res, saveStatus faults (setReady now pr st reason msg) before res w2 = (x, e, w1) ->
            obj_step (pinned_status (pr_Status pr)) w w1) as Hs.
  { intros st reason msg res Hs%saveStatus_obj. rewrite setReady_pinned in Hs. by eapply obj_step_from. }
  intros H. destruct g as [q|[]]; try (simplify_eq; by apply obj_step_same).
  - apply observe_obj in H. by eapply obj_step_from.
  - destruct (negb _); [eauto|]. destruct (renderPod env now (w_fs w2) pr) as [p|er]; [|eauto].
    destruct (create_pod faults p w2) as [c w3] eqn:Ec. apply create_pod_spec in Ec as (C1 & _).
    destruct c as [q|ce].
    + apply observe_obj in H. eapply obj_step_from; [|done]. congruence.
    + destruct ce; try (simplify_eq; apply obj_step_same; congruence).
      destruct (api_get faults _ w3) as [g2 w4] eqn:Eg2. apply api_get_obj in Eg2.
      destruct g2 as [q|ge]; [|simplify_eq; apply obj_step_same; congruence].
      apply observe_obj in H. eapply obj_step_from; [|done]. congruence.
Qed.

(** One reconcile of an existing object, in three cases: it is being deleted; it
    is live and no file is touched nor the pinned condition changed; it is live,
    valid, its pins were attempted, and the condition stored, if any, says how
    that went. *)
Definition reconciled (r : reconciler) (now : Time) (pr : PodRestore) (w w' : pr_world) : Prop :=
  (pr_Deleting pr = true /\
   (w_fs w' = w_fs w \/ w_fs w' = unpin_all now (podRestoreOwnerKey pr) (Checkpoints (pr_Spec pr)) (w_fs w)) /\
   (w_obj w' = None \/ exists fins, w_obj w' = Some (set_pr_finalizers pr fins) \/ w_obj w' = Some pr)) \/
  (pr_Deleting pr = false /\ w_fs w' = w_fs w /\
   ((exists fins, w_obj w' = Some (set_pr_finalizers pr fins)) \/
    obj_step (pinned_status (pr_Status pr)) w w')) \/
  (pr_Deleting pr = false /\ validateSpec r pr = Ok tt /\
   exists b, pin_all now (podRestoreOwnerKey pr) (Checkpoints (pr_Spec pr)) (w_fs w) = (b, w_fs w') /\
     obj_step (Some (if b then ConditionTrue else ConditionFalse)) w w').

Lemma patch_finalizers_obj pr fins w x w1 o :
  patch_finalizers faults pr fins w = (x, w1) -> w_obj w = Some o ->
  w_fs w1 = w_fs w /\
  (w_obj w1 = Some o \/ w_obj w1 = Some (set_pr_finalizers o fins) \/ (pr_Deleting o = true /\ w_obj w1 = None)).
Proof.
  unfold patch_finalizers, api_call, tick. simpl. intros H Ho.
  destruct (faults (w_calls w)); [by simplify_eq; auto|]. rewrite Ho in H. simplify_eq. simpl. split; [done|].
  destruct (pr_Deleting o); simpl; [|auto]. destruct (_ =? 0)%nat; auto.
Qed.

Lemma reconcile_reconciled r now w x e w' pr :
  Reconcile env faults show r now w = (x, e, w') -> w_obj w = Some pr -> reconciled r now pr w w'.
Proof.
  unfold Reconcile, reconciled. destruct (api_get faults w_obj w) as [g w1] eqn:Eg. intros H Ho.
  assert (g = Ok pr \/ exists ge, g = Err ge) as Hg.
  { unfold api_get, api_call, tick in Eg. destruct (faults (w_calls w)); simpl in Eg; [simplify_eq; eauto|].
    rewrite Ho in Eg. simplify_eq. by left. }
  apply api_get_same in Eg as (G0 & _ & _ & G2 & _).
  destruct Hg as [->|(ge & ->)].
  2:{ simplify_eq. destruct (pr_Deleting pr); [left|right; left].
      - split; [done|]. split; [by left|]. right. exists []. right. congruence.
      - split; [done|]. split; [done|]. right. by apply obj_step_same. }
  destruct (pr_Deleting pr) eqn:Hd.
  { left. split; [done|]. unfold reconcile_deletion in H. destruct (ContainsFinalizer _ _).
    - set (w2 := PodRestore.with_fs w1 _) in H.
      destruct (patch_finalizers faults pr _ w2) as [pe w3] eqn:Ep.
      apply (patch_finalizers_obj _ _ _ _ _ pr) in Ep as [P1 P2]; [|simpl; congruence].
      assert (w3 = w') as -> by (by destruct pe; simplify_eq). subst w2. simpl in P1. rewrite G2 in P1.
      split; [by right|]. destruct P2 as [P2|[P2|[_ P2]]]; [right; exists []; by right|right; eexists; by left|by left].
    - simplify_eq. split; [by left|]. right. exists []. right. congruence. }
  right. destruct (negb _).
  { left. split; [done|]. destruct (patch_finalizers faults pr _ w1) as [pe w3] eqn:Ep.
    apply (patch_finalizers_obj _ _ _ _ _ pr) in Ep as [P1 P2]; [|congruence].
    assert (w3 = w') as -> by (by destruct pe; simplify_eq). split; [congruence|].
    destruct P2 as [P2|[P2|[P2 _]]]; [right; apply obj_step_same; congruence|left; eauto|congruence]. }
  assert (forall st reason msg res w2, w_obj w2 = w_obj w -> w_fs w2 = w_fs w ->
            saveStatus faults (setReady now pr st reason msg) (pr_Status pr) res w2 = (x, e, w') ->
            w_fs w' = w_fs w /\ ((exists fins, w_obj w' = Some (set_pr_finalizers pr fins)) \/
                                 obj_step (pinned_status (pr_Status pr)) w w')) as Hsave.
  { intros st reason msg res w2 O2 F2 Hs. pose proof (saveStatus_pods _ _ _ _ _ _ _ _ Hs) as [_ F3].
    apply saveStatus_obj in Hs. rewrite setReady_pinned in Hs. split; [congruence|]. right.
    by eapply obj_step_from. }
  destruct (validateSpec r pr) as [[]|ve] eqn:Ev; [|left; split; [done|]; eauto].
  destruct (api_get faults _ w1) as [n w2] eqn:En. apply api_get_same in En as (N0 & _ & _ & N2 & _).
  destruct n as [[]|ne].
  - right. split; [done|]. split; [done|]. pose proof (pin_and_restore_pods _ _ _ _ _ _ _ _ _ _ H) as [Hfs _].
    unfold pin_and_restore in H.
    assert (w_fs w2 = w_fs w) as F2 by congruence. rewrite F2 in *.
    destruct (pin_all now _ _ (w_fs w)) as [b fs'] eqn:Epin. simpl in Hfs. exists b. split; [by rewrite Hfs|].
    destruct b; apply ensure_obj in H; rewrite setPinned_pinned in H; (eapply obj_step_from; [|done]); simpl; congruence.
  - left. split; [done|]. destruct (IsNotFound ne); [eapply Hsave; [..|done]; congruence|].
    simplify_eq. split; [congruence|]. right. apply obj_step_same. congruence.
Qed.
End ObjFacts.

(** ** The invariant *)

Lemma valid_archive r pr cp :
  validateSpec r pr = Ok tt -> cp ∈ Checkpoints (pr_Spec pr) -> is_archive (cc_Path cp).
Proof.
  intros [_ Hall]%validateSpec_spec Hcp. rewrite Forall_forall in Hall.
  destruct (Hall _ Hcp) as (Hv & _). unfold ValidateCheckpointPathInDir in Hv.
  destruct (ValidateCheckpointPath (cc_Path cp)) as [[]|] eqn:E; [|done].
  apply ValidateCheckpointPath_Ok in E as (_ & _ & _ & He). unfold is_archive. rewrite <- He.
  apply Ext_suffix. by rewrite He.
Qed.

(** The archive is there and the marker keeps the collector away for [owner]. *)
Definition safe (fs : FS) (owner path : string) : Prop :=
  is_archive path /\ is_Some (os_Stat fs path) /\ protects (pin_state_of fs path) owner.

Record sys_ok (s : system) : Prop := {
  ok_wf : fs_wf (sy_fs s);
  ok_key : forall k pr, sy_prs s !! k = Some pr -> podRestoreOwnerKey pr = k;
  ok_pinned : forall k pr, sy_prs s !! k = Some pr -> pr_Deleting pr = false ->
    pinned_status (pr_Status pr) = Some ConditionTrue ->
    forall cp, cp ∈ Checkpoints (pr_Spec pr) -> safe (sy_fs s) k (cc_Path cp);
  ok_evals : Forall (fun gr => archives_only gr.2) (sy_evals s)
}.

Lemma safe_pinned fs owner path : safe fs owner path -> isCheckpointPinned fs path = true.
Proof.
  intros (_ & _ & Hp). apply isCheckpointPinned_state. intros H. by rewrite H in Hp.
Qed.

Lemma safe_collected fs fs' owner path : collected fs fs' -> safe fs owner path -> safe fs' owner path.
Proof.
  intros Hc Hs. pose proof (safe_pinned _ _ _ Hs) as Hp. destruct Hs as (Ha & Hx & Hpr).
  split; [done|]. split.
  - unfold os_Stat in *. rewrite (collected_keeps _ _ _ Hc); auto.
  - unfold pin_state_of. rewrite (collected_keeps _ _ _ Hc); [done|]. right.
    destruct (HasSuffix (keep_path path) ".tar") eqn:E; [|done].
    exfalso. by apply (archive_ne_keep (keep_path path) path).
Qed.

Lemma safe_frame owner owner' fs fs' path :
  pins_frame owner' fs fs' ->
  (owner = owner' -> forall q, protects (pin_state_of fs q) owner -> protects (pin_state_of fs' q) owner) ->
  safe fs owner path -> safe fs' owner path.
Proof.
  intros (Ha & Hp & _) Hsame (H1 & H2 & H3). split; [done|]. split.
  - unfold os_Stat in *. by rewrite Ha.
  - destruct (decide (owner = owner')) as [->|Hne]; [by apply Hsame|by apply Hp].
Qed.

Lemma safe_write now fs p d fs' owner path :
  is_archive p -> os_WriteFile now fs p d = Ok fs' -> safe fs owner path -> safe fs' owner path.
Proof.
  intros Hp Hw (H1 & H2 & H3). split; [done|]. split.
  - apply os_WriteFile_Ok in Hw as (_ & _ & ->). unfold os_Stat in *. simpl.
    destruct (decide (p = path)) as [->|Hne]; [rewrite lookup_insert_eq; eauto|by rewrite lookup_insert_ne].
  - by rewrite (write_archive_state _ _ _ _ _ _ Hp Hw).
Qed.

(** The files change, the objects do not. *)
Lemma ok_files s g :
  sys_ok s -> fs_wf (g_fs g) ->
  (forall owner path, safe (sy_fs s) owner path -> safe (g_fs g) owner path) -> sys_ok (with_gc s g).
Proof. intros [H1 H2 H3 H4] Hwf Hs. split; simpl; [done|done| |done]. intros. apply Hs. by eapply H3. Qed.

Lemma ok_collected s g : sys_ok s -> collected (sy_fs s) (g_fs g) -> sys_ok (with_gc s g).
Proof.
  intros Hok Hc. apply ok_files; [done|eapply collected_wf; [done|apply Hok]|].
  intros owner path. by apply safe_collected.
Qed.

Lemma reconcile_absent env faults show r now w x e w' :
  Reconcile env faults show r now w = (x, e, w') -> w_obj w = None ->
  w_obj w' = None /\ w_fs w' = w_fs w.
Proof.
  unfold Reconcile, api_get, api_call, tick. intros H Ho.
  destruct (faults (w_calls w)); simpl in H; [by simplify_eq|]. rewrite Ho in H. by simplify_eq.
Qed.

(** A reconcile of [key] and the protection of an archive: kept, unless it is the
    owner's own reconcile and the object is being deleted. *)
Lemma reconcile_safe env faults show r now s key x e w' owner path :
  sys_ok s -> Reconcile env faults show r now (pr_view s key) = (x, e, w') ->
  (forall pr, sy_prs s !! key = Some pr -> pr_Deleting pr = true -> owner <> key) ->
  safe (sy_fs s) owner path -> safe (w_fs w') owner path.
Proof.
  intros Hok Hr Hd Hs. destruct (sy_prs s !! key) as [pr|] eqn:Eo.
  2:{ destruct (reconcile_absent _ _ _ _ _ _ _ _ _ Hr Eo) as [_ ->]. done. }
  pose proof (ok_key s Hok key pr Eo) as Hk.
  destruct (reconcile_reconciled _ _ _ _ _ _ _ _ _ pr Hr Eo)
    as [(Hdel & Hfs & _)|[(_ & Hfs & _)|(_ & _ & b & Hpin & _)]].
  - destruct Hfs as [Hfs|Hfs]; rewrite Hfs; [done|].
    eapply safe_frame; [apply unpin_all_frame| |exact Hs]. intros Heq. rewrite Hk in Heq.
    by destruct (Hd pr eq_refl Hdel).
  - by rewrite Hfs.
  - apply pin_all_spec in Hpin as (F & M & _). eapply safe_frame; [exact F| |exact Hs].
    intros ->. exact M.
Qed.

Lemma reconcile_wf env faults show r now s key x e w' :
  sys_ok s -> Reconcile env faults show r now (pr_view s key) = (x, e, w') -> fs_wf (w_fs w').
Proof.
  intros Hok Hr. pose proof (ok_wf s Hok) as Hwf. destruct (sy_prs s !! key) as [pr|] eqn:Eo.
  2:{ destruct (reconcile_absent _ _ _ _ _ _ _ _ _ Hr Eo) as [_ ->]. done. }
  destruct (reconcile_reconciled _ _ _ _ _ _ _ _ _ pr Hr Eo)
    as [(_ & [-> | ->] & _)|[(_ & -> & _)|(_ & _ & b & Hpin & _)]]; try done.
  - by apply unpin_all_wf.
  - by eapply pin_all_wf in Hpin as [? _].
Qed.

(** The object a reconcile leaves: a live one that reports its pins has them. *)
Lemma reconcile_truthful env faults show r now s key x e w' o :
  sys_ok s -> Reconcile env faults show r now (pr_view s key) = (x, e, w') -> w_obj w' = Some o ->
  podRestoreOwnerKey o = key /\
  (pr_Deleting o = false -> (exists pr, sy_prs s !! key = Some pr /\ pr_Deleting pr = false) /\
   (pinned_status (pr_Status o) = Some ConditionTrue ->
    forall cp, cp ∈ Checkpoints (pr_Spec o) -> safe (w_fs w') key (cc_Path cp))).
Proof.
  intros Hok Hr Ho. destruct (sy_prs s !! key) as [pr|] eqn:Eo.
  2:{ destruct (reconcile_absent _ _ _ _ _ _ _ _ _ Hr Eo). congruence. }
  pose proof (ok_key s Hok key pr Eo) as Hk.
  assert (pr_Deleting pr = false -> pinned_status (pr_Status pr) = Some ConditionTrue ->
          forall cp, cp ∈ Checkpoints (pr_Spec pr) -> safe (w_fs w') key (cc_Path cp)) as Hold.
  { intros Hl Ht cp Hcp. eapply reconcile_safe; [done|exact Hr| |by eapply (ok_pinned s Hok)].
    intros pr' Hpr' Hd. congruence. }
  destruct (reconcile_reconciled _ _ _ _ _ _ _ _ _ pr Hr Eo)
    as [(Hdel & _ & Hobj)|[(Hl & _ & Hobj)|(Hl & Hv & b & Hpin & Hobj)]].
  - assert (podRestoreOwnerKey o = key /\ pr_Deleting o = true) as [H1 H2]; [|split; [done|congruence]].
    destruct Hobj as [Hobj|(fins & [Hobj|Hobj])]; rewrite Hobj in Ho; simplify_eq; done.
  - destruct Hobj as [(fins & Hobj)|Hobj].
    + rewrite Hobj in Ho. simplify_eq. split; [done|]. eauto.
    + destruct (Hobj pr Eo) as (o' & Ho' & Hcase). rewrite Ho in Ho'. simplify_eq.
      destruct Hcase as [->|(st & -> & Hst)]; (split; [done|]); simpl; intros _; (split; [eauto|]); [eauto|].
      intros Ht. apply Hold; congruence.
  - destruct (Hobj pr Eo) as (o' & Ho' & Hcase). rewrite Ho in Ho'. simplify_eq.
    destruct Hcase as [->|(st & -> & Hst)]; (split; [done|]); simpl; intros _; (split; [eauto|]); [eauto|].
    intros Ht cp Hcp. destruct b; [|congruence].
    pose proof (valid_archive r pr cp Hv Hcp) as Ha.
    pose proof (pin_all_spec _ _ _ _ _ _ Hpin) as (_ & _ & T).
    unfold pin_all in Hpin. apply pin_all_wf in Hpin as [_ Hx]; [|apply (ok_wf s Hok)].
    split; [done|]. split; [by apply Hx|]. by apply T.
Qed.

Section SystemFacts.
Context (env : ArchiveEnv) (cluster : Cluster).
Context (sort_slice : forall A : Type, (A -> A -> bool) -> list A -> list A) `{!GoSort sort_slice}.
Context (r : reconciler) (show : spec_error -> string).

Lemma immediately_collected policies now it g :
  fs_wf (g_fs g) -> collected (g_fs g) (g_fs (applyPoliciesImmediately env cluster sort_slice policies now it g)).
Proof.
  intros Hwf. unfold applyPoliciesImmediately. destruct (Glob _ _); [|auto with cro].
  destruct (_ =? 0)%nat; [auto with cro|]. apply fold_collected; [|done].
  intros. by apply applyPolicies_collected.
Qed.

Lemma write_finished_collected fs_at cb cw ca vars now name g :
  fs_wf (g_fs g) ->
  collected (g_fs g) (g_fs (handleWriteFinished env cluster sort_slice fs_at cb cw ca vars now name g)).
Proof.
  intros Hwf. unfold handleWriteFinished. destruct (handleWriteFinishedWithReader _ _ _ _ _ _); [|auto with cro].
  by apply applyPolicies_collected.
Qed.

Lemma delete_func_collected vars now obj g :
  fs_wf (g_fs g) -> collected (g_fs g) (g_fs (DeleteFunc env cluster sort_slice vars now obj g)).
Proof.
  intros Hwf. destruct obj as [p|]; simpl; [|auto with cro]. unfold handlePodDeleted.
  apply fold_collected; [|done]. intros. by apply applyPolicies_collected.
Qed.

Lemma write_wf now fs p d fs' : wf_path p -> os_WriteFile now fs p d = Ok fs' -> fs_wf fs -> fs_wf fs'.
Proof.
  intros Hp (_ & _ & ->)%os_WriteFile_Ok Hwf q n. simpl. intros [[<- _]|[_ Hq]]%lookup_insert_Some; [done|eauto].
Qed.

Lemma ok_commit s key now faults :
  sys_ok s -> sys_ok (pr_commit s key (PodRestore.Reconcile env faults show r now (pr_view s key)).2).
Proof.
  intros Hok. destruct (PodRestore.Reconcile env faults show r now (pr_view s key)) as [[x e] w'] eqn:Hr. simpl.
  assert (forall k pr, sy_prs (pr_commit s key w') !! k = Some pr ->
            (k = key /\ w_obj w' = Some pr) \/ (k <> key /\ sy_prs s !! k = Some pr)) as Hget.
  { intros k pr. simpl. destruct (w_obj w') as [o|].
    - intros [[<- <-]|[Hne H]]%lookup_insert_Some; auto.
    - intros [Hne H]%lookup_delete_Some. auto. }
  split.
  - by eapply reconcile_wf.
  - intros k pr H. destruct (Hget k pr H) as [[-> Ho]|[Hne Ho]]; [|by apply (ok_key s Hok)].
    by eapply reconcile_truthful in Ho as [? _].
  - intros k pr H Hl Ht cp Hcp. unfold sy_fs. simpl. destruct (Hget k pr H) as [[-> Ho]|[Hne Ho]].
    + eapply reconcile_truthful in Ho as [_ Ho]; [|done..]. by apply Ho.
    + eapply reconcile_safe; [done|exact Hr|by intros|by eapply (ok_pinned s Hok)].
  - apply (ok_evals s Hok).
Qed.

(** A step of an evaluation removes at most an unpinned archive. *)
Lemma evaluation_collected i v s gr gr' g' :
  sys_ok s -> sy_evals s !! i = Some gr -> gostep env sort_slice v gr (sy_gc s) = Some (gr', g') ->
  archives_only gr'.2 /\ collected (sy_fs s) (g_fs g').
Proof.
  intros Hok Hi. apply gostep_archives; [done|apply Hok|].
  pose proof (ok_evals s Hok) as He. rewrite Forall_forall in He. apply (He gr).
  by eapply list_elem_of_lookup_2.
Qed.

Lemma sys_ok_exec a s s' :
  sys_ok s -> sys_exec env cluster sort_slice r show a s = Some s' -> sys_ok s'.
Proof.
  intros Hok H. pose proof Hok as [Hwf Hkey Hpin Hev].
  destruct a; simpl in H.
  - simplify_eq. by split.
  - destruct (sy_leader s); simplify_eq. by apply ok_commit.
  - destruct (sy_leader s); [|done]. destruct (GarbageCollector.Reconcile _ _) as [[[? ?] v] effects].
    simplify_eq. by split.
  - destruct (sy_pending s !! n) as [policies|]; simplify_eq.
    pose proof (ok_collected s _ Hok (immediately_collected policies now iteration (sy_gc s) Hwf)) as [H1 H2 H3 H4].
    by split.
  - simplify_eq. by apply ok_collected, write_finished_collected.
  - simplify_eq. by apply ok_collected, delete_func_collected.
  - simplify_eq. split; simpl; try done. apply Forall_app. split; [done|]. constructor; [|done].
    by split; [exists 0%nat|].
  - destruct (sy_evals s !! i) as [gr|] eqn:Ei; [|done].
    destruct (gostep env sort_slice v gr (sy_gc s)) as [[gr' g']|] eqn:Eg; [|done]. injection H as <-.
    destruct (evaluation_collected i v s gr gr' g' Hok Ei Eg) as [Ha Hc].
    pose proof (ok_collected s g' Hok Hc) as [H1 H2 H3 H4]. split; simpl; try done.
    by apply Forall_insert.
  - destruct (_ && _) eqn:Ec; [|done]. to_prop. destruct Ec as [[Ht Hc] Ha]. to_prop.
    destruct (os_WriteFile now (sy_fs s) path data) as [fs|] eqn:Ew; simplify_eq.
    apply ok_files; [done|simpl; by eapply write_wf|]. intros owner q. simpl. by eapply safe_write.
  - destruct (sy_prs s !! podRestoreOwnerKey pr) eqn:Ek; [done|]. case_bool_decide as Hf; simplify_eq.
    split; simpl; [done|intros k q [[<- <-]|[_ Hq]]%lookup_insert_Some; eauto| |done].
    intros k q [[<- <-]|[_ Hq]]%lookup_insert_Some; [|eauto]. intros _. destruct Hf as (_ & _ & Hc).
    unfold pinned_status. by rewrite Hc.
  - destruct (sy_prs s !! key) as [pr|] eqn:Ek; [|done].
    destruct (admit_PodRestoreSpec_update _ _) eqn:Ea; [|done]. injection H as <-. apply admitted_update in Ea as ->.
    unfold apply_edit. destruct (_ && _); split; simpl; try done.
    + intros k q [_ Hq]%lookup_delete_Some. eauto.
    + intros k q [_ Hq]%lookup_delete_Some. eauto.
    + intros k q [[<- <-]|[_ Hq]]%lookup_insert_Some; [|eauto]. exact (Hkey _ _ Ek).
    + intros k q [[<- <-]|[_ Hq]]%lookup_insert_Some; [|eauto]. exact (Hpin _ _ Ek).
  - destruct (sy_prs s !! key) as [pr|] eqn:Ek; simplify_eq. unfold request_deletion.
    destruct (pr_Finalizers pr) eqn:Efin; split; simpl; try done.
    + intros k q [_ Hq]%lookup_delete_Some. eauto.
    + intros k q [_ Hq]%lookup_delete_Some. eauto.
    + intros k q [[<- <-]|[_ Hq]]%lookup_insert_Some; [|eauto]. exact (Hkey _ _ Ek).
    + intros k q [[<- <-]|[_ Hq]]%lookup_insert_Some; [done|eauto].
  - simplify_eq. by split.
Qed.

Lemma sys_ok_run acts s s' :
  sys_ok s -> sys_run env cluster sort_slice r show acts s = Some s' -> sys_ok s'.
Proof.
  revert s. induction acts as [|a acts IH]; simpl; intros s Hok H; [by simplify_eq|].
  destruct (sys_exec env cluster sort_slice r show a s) as [s1|] eqn:E; [|done]. eauto using sys_ok_exec.
Qed.

(** ** What the composition promises *)

(** A process that has just started, over any checkpoint directory. *)
Definition system_start (g : gc_state) (leader : bool) (nodes : gset string)
    (pods : gmap (string * string) Pod) : system :=
  {| sy_gc := g; sy_vars := initialVars; sy_pending := []; sy_evals := []; sy_leader := leader; sy_prs := ∅;
     sy_nodes := nodes; sy_pods := pods |}.

Lemma system_start_ok g leader nodes pods : fs_wf (g_fs g) -> sys_ok (system_start g leader nodes pods).
Proof. intros Hwf. split; simpl; [done| | |constructor]; intros k pr; by rewrite lookup_empty. Qed.


Definition deletes (k : string) (a : sys_action) : bool :=
  match a with UserDeletes key => (key =? k)%string | _ => false end.

Definition live (s : system) (k : string) : Prop :=
  exists pr, sy_prs s !! k = Some pr /\ pr_Deleting pr = false.

Lemma live_commit s k key now faults x e w' :
  sys_ok s -> PodRestore.Reconcile env faults show r now (pr_view s key) = (x, e, w') ->
  live s k -> live (pr_commit s key w') k.
Proof.
  intros Hok Hr (pr & Hk & Hl). unfold live. simpl. destruct (decide (key = k)) as [->|Hne].
  - destruct (reconcile_reconciled _ _ _ _ _ _ _ _ _ pr Hr Hk)
      as [(Hd & _)|[(_ & _ & [(fins & ->)|Ho])|(_ & _ & b & _ & Ho)]]; [congruence| | |].
    + eexists. rewrite lookup_insert_eq. done.
    + destruct (Ho pr Hk) as (o & -> & [->|(st & -> & _)]); eexists; by rewrite lookup_insert_eq.
    + destruct (Ho pr Hk) as (o & -> & [->|(st & -> & _)]); eexists; by rewrite lookup_insert_eq.
  - exists pr. split; [|done]. destruct (w_obj w'); [by rewrite lookup_insert_ne|by rewrite lookup_delete_ne].
Qed.

Lemma live_exec a s s' k path :
  sys_ok s -> live s k -> deletes k a = false -> safe (sy_fs s) k path ->
  sys_exec env cluster sort_slice r show a s = Some s' -> live s' k /\ safe (sy_fs s') k path.
Proof.
  intros Hok Hl Hd Hs H. pose proof Hok as [Hwf _ _ _]. destruct a; simpl in H; simpl in Hd.
  - by simplify_eq.
  - destruct (sy_leader s); simplify_eq.
    destruct (PodRestore.Reconcile env faults show r now (pr_view s key)) as [[x e] w'] eqn:Hr.
    split; [by eapply live_commit|]. unfold sy_fs. simpl. eapply reconcile_safe; [done|exact Hr| |done].
    intros pr Hpr Hdel ->. destruct Hl as (pr' & Hpr' & Hl'). congruence.
  - destruct (sy_leader s); [|done]. destruct (GarbageCollector.Reconcile _ _) as [[[? ?] v] effects]. by simplify_eq.
  - destruct (sy_pending s !! n); simplify_eq. split; [done|].
    eapply safe_collected; [|exact Hs]. by apply immediately_collected.
  - simplify_eq. split; [done|]. eapply safe_collected; [|exact Hs]. by apply write_finished_collected.
  - simplify_eq. split; [done|]. eapply safe_collected; [|exact Hs]. by apply delete_func_collected.
  - by simplify_eq.
  - destruct (sy_evals s !! i) as [gr|] eqn:Ei; [|done].
    destruct (gostep env sort_slice v gr (sy_gc s)) as [[gr' g']|] eqn:Eg; [|done]. injection H as <-.
    split; [done|]. eapply safe_collected; [|exact Hs]. by eapply evaluation_collected.
  - destruct (_ && _) eqn:Ec; [|done]. to_prop. destruct Ec as [[Ht Hc] Ha].
    destruct (os_WriteFile now (sy_fs s) path0 data) as [fs|] eqn:Ew; simplify_eq. split; [done|].
    by eapply safe_write.
  - destruct (sy_prs s !! podRestoreOwnerKey pr) eqn:Ek; [done|]. case_bool_decide; simplify_eq.
    split; [|done]. destruct Hl as (pr' & Hpr' & Hl'). exists pr'. simpl. rewrite lookup_insert_ne by congruence. done.
  - destruct (sy_prs s !! key) as [pr|] eqn:Ek; [|done].
    destruct (admit_PodRestoreSpec_update _ _) eqn:Ea; [|done]. injection H as <-. split; [|done].
    destruct Hl as (pr' & Hpr' & Hl'). unfold live, apply_edit. simpl. destruct (decide (key = k)) as [->|Hne].
    + rewrite Hpr' in Ek. injection Ek as <-. rewrite Hl'. simpl. eexists. by rewrite lookup_insert_eq.
    + exists pr'. split; [|done]. destruct (_ && _); [by rewrite lookup_delete_ne|by rewrite lookup_insert_ne].
  - destruct (sy_prs s !! key) as [pr|] eqn:Ek; simplify_eq. to_prop. split; [|done].
    destruct Hl as (pr' & Hpr' & Hl'). exists pr'. simpl.
    destruct (request_deletion pr); [by rewrite lookup_insert_ne|by rewrite lookup_delete_ne].
  - by simplify_eq.
Qed.

(** C18. Pins outlive everything but their owner's deletion: once an archive is
    protected for a live PodRestore, it is still there, with the protection, after
    any sequence of reconciles, steps of concurrent evaluations, policy changes, edits
    the API server admits and deletions of other PodRestores, as long as this PodRestore is not deleted. *)
Theorem pinned_until_deleted g leader nodes pods acts s acts' s' k path :
  fs_wf (g_fs g) ->
  sys_run env cluster sort_slice r show acts (system_start g leader nodes pods) = Some s ->
  live s k -> safe (sy_fs s) k path ->
  sys_run env cluster sort_slice r show acts' s = Some s' -> Forall (fun a => deletes k a = false) acts' ->
  live s' k /\ safe (sy_fs s') k path.
Proof.
  intros Hwf Hr Hl Hs Hr' Hd. pose proof (sys_ok_run _ _ _ (system_start_ok g leader nodes pods Hwf) Hr) as Hok.
  clear Hr. revert s Hl Hs Hok Hr'. induction Hd as [|a acts' Ha _ IH]; simpl; intros s Hl Hs Hok Hr'; [by simplify_eq|].
  destruct (sys_exec env cluster sort_slice r show a s) as [s1|] eqn:E; [|done].
  destruct (live_exec a s s1 k path Hok Hl Ha Hs E) as [Hl1 Hs1].
  apply (IH s1); eauto using sys_ok_exec.
Qed.

(** ** Standby replicas *)

(** The lease covers the reconcilers but not the collector.  A replica that is
    never elected keeps the policies the package starts with, whatever the stored
    CheckpointRestoreOperator says, and its collector evaluates every finished
    write with them. *)
Theorem standby_keeps_initial_policies g nodes pods acts s :
  sys_run env cluster sort_slice r show acts (system_start g false nodes pods) = Some s ->
  Elect ∉ acts ->
  sy_vars s = initialVars /\ sy_pending s = [] /\
  forall name now fs_at cb cw ca,
    sys_exec env cluster sort_slice r show (WriteFinished name now fs_at cb cw ca) s =
    Some (with_gc s (handleWriteFinished env cluster sort_slice fs_at cb cw ca initialVars now name (sy_gc s))).
Proof.
  intros Hr Hn.
  assert (sy_vars s = initialVars /\ sy_pending s = [] /\ sy_leader s = false) as (Hv & Hp & _).
  { assert (sy_vars (system_start g false nodes pods) = initialVars /\
            sy_pending (system_start g false nodes pods) = [] /\
            sy_leader (system_start g false nodes pods) = false) as H0 by done.
    revert H0 Hr. generalize (system_start g false nodes pods) as s0.
    induction acts as [|a acts IH]; simpl; intros s0 (Hv & Hp & Hl) Hr; [by simplify_eq|].
    apply not_elem_of_cons in Hn as [Ha Hn]. specialize (IH Hn).
    destruct (sys_exec env cluster sort_slice r show a s0) as [s1|] eqn:E; [|done]. apply (IH s1); [|done].
    destruct a; simpl in E; rewrite ?Hl, ?Hp in E; try done; repeat (split_match_in E; try done); by simplify_eq. }
  split; [done|]. split; [done|]. intros. simpl. by rewrite Hv.
Qed.
End SystemFacts.

(** ** A concrete history *)

(** A PodRestore is created and reconciled; orphaned archives are not retained
    and its source pod is deleted, as is another one with an archive of its own. *)
Definition demo_cluster_gone : Cluster :=
  {| cl_InClusterConfig := Ok tt; cl_NewForConfig := Ok tt; cl_GetPod := fun _ _ => Err NotFound;
     cl_GetNamespace := fun _ => Err NotFound |}.

Definition demo_other : string := "/var/lib/kubelet/checkpoints/checkpoint-db_default-pg-1.tar".

Definition demo_dir : gc_state :=
  {| g_fs := {| fs_nodes := {[ "/tmp" := NDir; DefaultCheckpointDir := NDir;
                               demo_archive := demo_file 10 1 "default/web/nginx";
                               demo_other := demo_file 10 1 "default/db/pg" ]};
                fs_nowrite := ∅; fs_noread := ∅ |};
     retentionUnreachableState := ∅; g_reports := [] |}.

Definition demo_spec : CheckpointRestoreOperatorSpec :=
  {| CheckpointDirectory := ""; ApplyPoliciesImmediately := false;
     GlobalPolicies := {| gp_RetainOrphan := Some false; gp_MaxCheckpointsPerNamespaces := None;
                          gp_MaxCheckpointsPerPod := None; gp_MaxCheckpointsPerContainer := None;
                          gp_MaxCheckpointSize := None; gp_MaxTotalSizePerNamespace := None;
                          gp_MaxTotalSizePerPod := None; gp_MaxTotalSizePerContainer := None |};
     ContainerPolicies := []; PodPolicies := []; NamespacePolicies := [] |}.

Definition demo_new_pr : PodRestore := set_pr_finalizers (demo_pr false) [].

Definition demo_gone (name container : string) : sys_action :=
  PodEvent 9%Z (PodObject
    {| p_namespace := "default"; p_name := name; p_labels := ∅; p_annotations := ∅; p_deleting := true;
       controller_uid := None; p_spec := {| NodeName := "node1";
         Containers := [ {| c_name := container; c_image := ""; c_limits := ∅ |} ] |};
       p_phase := PodSucceeded; p_reason := ""; p_message := ""; p_conditions := [] |}).

Definition demo_pins : list sys_action :=
  [ Elect; ReconcileOperator (Ok demo_spec); UserCreates demo_new_pr;
    ReconcilePodRestore "default/web" 7%Z (fun _ => None); ReconcilePodRestore "default/web" 8%Z (fun _ => None) ].
Definition demo_collects : list sys_action := [ demo_gone "web" "nginx"; demo_gone "db" "pg" ].

Definition demo_history (acts : list sys_action) : system :=
  default (system_start demo_dir false {[ "node1" ]} ∅)
    (sys_run demo_env demo_cluster_gone (@insertion_sort) demo_reconciler (fun _ => "") acts
       (system_start demo_dir false {[ "node1" ]} ∅)).

Definition demo_ran (acts : list sys_action) : bool :=
  is_some (sys_run demo_env demo_cluster_gone (@insertion_sort) demo_reconciler (fun _ => "") acts
             (system_start demo_dir false {[ "node1" ]} ∅)).

Lemma demo_history_run acts :
  demo_ran acts = true ->
  sys_run demo_env demo_cluster_gone (@insertion_sort) demo_reconciler (fun _ => "") acts
    (system_start demo_dir false {[ "node1" ]} ∅) = Some (demo_history acts).
Proof. unfold demo_ran, demo_history. by destruct (sys_run _ _ _ _ _ acts _). Qed.

Lemma demo_dir_wf : fs_wf (g_fs demo_dir).
Proof. apply fs_wfb_sound. vm_compute. reflexivity. Qed.

(** What the history says of the PodRestore. *)
Definition demo_facts (s : system) : option (bool * option ConditionStatus * list ContainerCheckpoint) :=
  option_map (fun pr => (pr_Deleting pr, pinned_status (pr_Status pr), Checkpoints (pr_Spec pr)))
    (sy_prs s !! "default/web").

Lemma demo_facts_pr s cps :
  demo_facts s = Some (false, Some ConditionTrue, cps) ->
  exists pr, sy_prs s !! "default/web" = Some pr /\ pr_Deleting pr = false /\
    pinned_status (pr_Status pr) = Some ConditionTrue /\ Checkpoints (pr_Spec pr) = cps.
Proof.
  unfold demo_facts. destruct (sy_prs s !! "default/web") as [pr|]; simpl; [|done].
  intros [= H1 H2 H3]. eauto.
Qed.


Lemma pinned_until_deleted_witness :
  let s := demo_history demo_pins in let s' := demo_history (demo_pins ++ demo_collects) in
  live s' "default/web" /\ safe (sy_fs s') "default/web" demo_archive.
Proof.
  intros s s'.
  destruct (demo_facts_pr s [ {| cc_Container := "nginx"; cc_Path := demo_archive |} ])
    as (pr & Hk & Hl & Ht & Hc); [vm_compute; reflexivity|].
  assert (demo_ran demo_pins = true) as H1 by (vm_compute; reflexivity).
  assert (demo_ran (demo_pins ++ demo_collects) = true) as H2 by (vm_compute; reflexivity).
  apply (pinned_until_deleted demo_env demo_cluster_gone (@insertion_sort) demo_reconciler (fun _ => "")
           demo_dir false {[ "node1" ]} ∅ demo_pins s demo_collects s' "default/web" demo_archive demo_dir_wf).
  - by apply demo_history_run.
  - exact (ex_intro _ pr (conj Hk Hl)).
  - split_and!; [by vm_compute|eexists; by vm_compute|]. vm_compute. set_solver.
  - apply demo_history_run in H1, H2.
    assert (forall acts acts' s0, sys_run demo_env demo_cluster_gone (@insertion_sort) demo_reconciler (fun _ => "")
              (acts ++ acts') s0 = match sys_run demo_env demo_cluster_gone (@insertion_sort) demo_reconciler
              (fun _ => "") acts s0 with Some s1 => sys_run demo_env demo_cluster_gone (@insertion_sort)
              demo_reconciler (fun _ => "") acts' s1 | None => None end) as Happ.
    { clear. induction acts as [|a acts IH]; intros acts' s0; [done|].
      simpl. destruct (sys_exec _ _ _ _ _ a s0); [apply IH|done]. }
    rewrite Happ, H1 in H2. exact H2.
  - repeat constructor.
Defined.

Lemma standby_keeps_initial_policies_witness :
  let s := demo_history [UserCreates demo_new_pr; demo_gone "web" "nginx"] in
  sy_vars s = initialVars.
Proof.
  intros s. apply (standby_keeps_initial_policies demo_env demo_cluster_gone (@insertion_sort) demo_reconciler
                     (fun _ => "") demo_dir {[ "node1" ]} ∅ [UserCreates demo_new_pr; demo_gone "web" "nginx"] s).
  - apply demo_history_run. vm_compute. reflexivity.
  - intros H. apply elem_of_cons in H as [H|H]; [discriminate H|].
    apply elem_of_cons in H as [H|H]; [discriminate H|]. by apply elem_of_nil in H.
Defined.

(** ** Missed deletions *)

(** A deletion the watch missed reaches the handler as a tombstone and changes
    nothing, although the tombstone carries the pod's last state; the same pod
    handed over directly has its orphaned archives removed. *)
Theorem tombstones_are_ignored :
  let vars := sy_vars (demo_history [Elect; ReconcileOperator (Ok demo_spec)]) in
  let run obj := DeleteFunc demo_env demo_cluster_gone (@insertion_sort) vars 9%Z obj demo_dir in
  (forall key p, run (DeletedFinalStateUnknown key p) = demo_dir) /\
  exists p, os_Stat (g_fs (run (PodObject p))) demo_archive = None /\
            os_Stat (g_fs (run (DeletedFinalStateUnknown "default/web" p))) demo_archive <> None.
Proof.
  intros vars run. split; [done|].
  exists {| p_namespace := "default"; p_name := "web"; p_labels := ∅; p_annotations := ∅; p_deleting := true;
       controller_uid := None; p_spec := {| NodeName := "node1";
         Containers := [ {| c_name := "nginx"; c_image := ""; c_limits := ∅ |} ] |};
       p_phase := PodSucceeded; p_reason := ""; p_message := ""; p_conditions := [] |}.
  split; [vm_compute; reflexivity|]. vm_compute. discriminate.
Qed.
