(* ===== verification/OperatorMain.v ===== *)
(** * The operator command ([cmd/main.go], [api/v1/groupversion_info.go])

    [main]: the flags, the options of the metrics server, the manager, the four
    controllers with their [SetupWithManager], the probes and the start.  Every
    call into controller-runtime may fail; each failure has its exit code.  The
    command line decides what [System.v] and [PodRestore.v] run with, and the last
    theorem follows a restore from the operator's command line to the request the
    node's proxy forwards. *)

From S2P Require Import Prelude GoStrings GoPath Kube GoSystem Api Pinning Archive GoFlag CriProxy CriProxyMain.
From S2P Require Import Policies Retention PodRestore System.
Open Scope string_scope.
Open Scope list_scope.

(** ** Flags *)

Record operator_flags := {
  of_metricsAddr : string;
  of_restoreCheckpointDir : string;
  of_restoreAllowCrossNamespace : bool;
  of_probeAddr : string;
  of_enableLeaderElection : bool;
  of_secureMetrics : bool;
  of_enableHTTP2 : bool
}.

Definition operator_flag_defs : list (string * flag_kind) :=
  [ ("metrics-bind-address", FString); ("restore-checkpoint-dir", FString);
    ("restore-allow-cross-namespace", FBool); ("health-probe-bind-address", FString);
    ("leader-elect", FBool); ("metrics-secure", FBool); ("enable-http2", FBool) ].

Definition operator_flags_of (m : flag_set) : operator_flags :=
  {| of_metricsAddr := string_flag m "metrics-bind-address" "0";
     of_restoreCheckpointDir := string_flag m "restore-checkpoint-dir" DefaultCheckpointDir;
     of_restoreAllowCrossNamespace := bool_flag m "restore-allow-cross-namespace" false;
     of_probeAddr := string_flag m "health-probe-bind-address" ":8081";
     of_enableLeaderElection := bool_flag m "leader-elect" false;
     of_secureMetrics := bool_flag m "metrics-secure" true;
     of_enableHTTP2 := bool_flag m "enable-http2" false |}.

(** ** The metrics server *)

Record tls_config := { NextProtos : list string }.

Definition disableHTTP2 (c : tls_config) : tls_config := {| NextProtos := ["http/1.1"] |}.

Record metrics_options := {
  BindAddress : string;
  SecureServing : bool;
  TLSOpts : list (tls_config -> tls_config);
  FilterProvider : bool                    (* authentication and authorization *)
}.

Definition metrics_server_options (f : operator_flags) : metrics_options :=
  {| BindAddress := of_metricsAddr f; SecureServing := of_secureMetrics f;
     TLSOpts := if of_enableHTTP2 f then [] else [disableHTTP2];
     FilterProvider := of_secureMetrics f |}.

(** ** The scheme *)

(** A kind with its group and version. *)
Abbreviation gvk := (string * string)%type.

Definition GroupVersion : string := "criu.org/v1".

(** [meta] are the kinds [metav1.AddToGroupVersion] registers for every group. *)
Definition addKnownTypes (meta : list string) (scheme : gset gvk) : gset gvk :=
  scheme ∪ list_to_set (map (pair GroupVersion)
    [ "CheckpointRestoreOperator"; "CheckpointRestoreOperatorList"; "CheckpointSchedule";
      "CheckpointScheduleList"; "ForensicSnapshotChain"; "ForensicSnapshotChainList";
      "PodRestore"; "PodRestoreList" ]) ∪ list_to_set (map (pair GroupVersion) meta).

(** What the libraries register: client-go's kinds, and those of every group. *)
Record library_kinds := { lk_clientgo : gset gvk; lk_meta : list string }.

(** [init] *)
Definition operator_scheme (lib : library_kinds) : gset gvk := addKnownTypes (lk_meta lib) (lk_clientgo lib).

(** ** Controllers *)

Inductive controller :=
| OperatorController
| ScheduleController
| ForensicController
| PodRestoreController (r : reconciler).

(** The kinds of [For] and [Owns]. *)
Definition watches (c : controller) : list gvk :=
  match c with
  | OperatorController => [(GroupVersion, "CheckpointRestoreOperator")]
  | ScheduleController => [(GroupVersion, "CheckpointSchedule")]
  | ForensicController => [(GroupVersion, "ForensicSnapshotChain")]
  | PodRestoreController _ => [(GroupVersion, "PodRestore"); ("v1", "Pod")]
  end.

Record manager := {
  mg_scheme : gset gvk;
  mg_metrics : metrics_options;
  mg_probeAddr : string;
  mg_leaderElection : bool;
  mg_leaderElectionID : string;
  mg_controllers : list controller;
  mg_collector : bool;                     (* go GarbageCollector.runGarbageCollector() *)
  mg_checks : list string
}.

(** What controller-runtime and the cluster answer: the configuration, the
    manager, the clientset, building a controller over kinds the scheme knows,
    adding a check, and how [mgr.Start] ends. *)
Record operator_env := {
  oe_GetConfig : bool;
  oe_NewManager : bool;
  oe_NewForConfig : bool;
  oe_build : list gvk -> bool;
  oe_AddCheck : string -> bool;
  oe_Start : bool
}.

Definition with_controllers (m : manager) (l : list controller) : manager :=
  {| mg_scheme := mg_scheme m; mg_metrics := mg_metrics m; mg_probeAddr := mg_probeAddr m;
     mg_leaderElection := mg_leaderElection m; mg_leaderElectionID := mg_leaderElectionID m; mg_controllers := l; mg_collector := mg_collector m;
     mg_checks := mg_checks m |}.
Definition with_collector (m : manager) : manager :=
  {| mg_scheme := mg_scheme m; mg_metrics := mg_metrics m; mg_probeAddr := mg_probeAddr m;
     mg_leaderElection := mg_leaderElection m; mg_leaderElectionID := mg_leaderElectionID m; mg_controllers := mg_controllers m; mg_collector := true;
     mg_checks := mg_checks m |}.
Definition with_check (m : manager) (name : string) : manager :=
  {| mg_scheme := mg_scheme m; mg_metrics := mg_metrics m; mg_probeAddr := mg_probeAddr m;
     mg_leaderElection := mg_leaderElection m; mg_leaderElectionID := mg_leaderElectionID m; mg_controllers := mg_controllers m;
     mg_collector := mg_collector m; mg_checks := mg_checks m ++ [name] |}.

Inductive main_error :=
| MainFlags (e : flag_error)
| ConfigFailed | ManagerFailed | ClientsetFailed
| ControllerFailed (c : controller)
| CheckFailed (name : string)
| StartFailed.

Definition main_exit (e : main_error) : Z := match e with MainFlags e => parse_exit e | _ => 1%Z end.

Section Main.
Context (ParseDuration : string -> option Duration).
(** The flags of zap and of controller-runtime's configuration loader. *)
Context (library_flags : list (string * flag_kind)).
Context (lib : library_kinds).

(** [SetupWithManager]: the first controller starts the collector whether or not
    it can be built; a kind the scheme does not know is an error. *)
Definition SetupWithManager (e : operator_env) (c : controller) (m : manager) : result main_error manager :=
  let m := match c with OperatorController => with_collector m | _ => m end in
  if forallb (fun k => bool_decide (k ∈ mg_scheme m)) (watches c) && oe_build e (watches c)
  then Ok (with_controllers m (mg_controllers m ++ [c]))
  else Err (ControllerFailed c).

Definition AddCheck (e : operator_env) (name : string) (m : manager) : result main_error manager :=
  if oe_AddCheck e name then Ok (with_check m name) else Err (CheckFailed name).

(** The reconciler settings of the PodRestore controller. *)
Definition restore_settings (f : operator_flags) : reconciler :=
  {| rc_CheckpointDir := of_restoreCheckpointDir f;
     rc_AllowCrossNamespace := of_restoreAllowCrossNamespace f |}.

(** Everything up to the start of the manager. *)
Definition setup (e : operator_env) (f : operator_flags) : result main_error manager :=
  if negb (oe_GetConfig e) then Err ConfigFailed
  else if negb (oe_NewManager e) then Err ManagerFailed
  else if negb (oe_NewForConfig e) then Err ClientsetFailed
  else
    let m := {| mg_scheme := operator_scheme lib; mg_metrics := metrics_server_options f;
                mg_probeAddr := of_probeAddr f; mg_leaderElection := of_enableLeaderElection f;
     mg_leaderElectionID := "f1499914.criu.org";
                mg_controllers := []; mg_collector := false; mg_checks := [] |} in
    try! m := SetupWithManager e OperatorController m in
    try! m := SetupWithManager e ScheduleController m in
    try! m := SetupWithManager e ForensicController m in
    try! m := SetupWithManager e (PodRestoreController (restore_settings f)) m in
    try! m := AddCheck e "healthz" m in
    AddCheck e "readyz" m.

(** [main]: the exit code, and the manager that ran, if one was started. *)
Definition main (e : operator_env) (args : list string) : Z * option manager :=
  match Parse ParseDuration (operator_flag_defs ++ library_flags) args with
  | Err pe => (main_exit (MainFlags pe), None)
  | Ok (flags, _) =>
      match setup e (operator_flags_of flags) with
      | Err me => (main_exit me, None)
      | Ok m => (if oe_Start e then 0%Z else main_exit StartFailed, Some m)
      end
  end.
End Main.

(** ** Properties *)

(** The manager [main] starts for these flags. *)
Definition full_manager (lib : library_kinds) (f : operator_flags) : manager :=
  {| mg_scheme := operator_scheme lib; mg_metrics := metrics_server_options f;
     mg_probeAddr := of_probeAddr f; mg_leaderElection := of_enableLeaderElection f;
     mg_leaderElectionID := "f1499914.criu.org";
     mg_controllers := [OperatorController; ScheduleController; ForensicController;
                        PodRestoreController (restore_settings f)];
     mg_collector := true; mg_checks := ["healthz"; "readyz"] |}.

(** Every call into the libraries succeeds. *)
Definition all_succeed (e : operator_env) (f : operator_flags) : Prop :=
  oe_GetConfig e = true /\ oe_NewManager e = true /\ oe_NewForConfig e = true /\
  Forall (fun c => oe_build e (watches c) = true)
    [OperatorController; ScheduleController; ForensicController; PodRestoreController (restore_settings f)] /\
  oe_AddCheck e "healthz" = true /\ oe_AddCheck e "readyz" = true.

Lemma SetupWithManager_known e c m m' :
  (forall k, k ∈ watches c -> k ∈ mg_scheme m) ->
  SetupWithManager e c m = Ok m' <->
  oe_build e (watches c) = true /\
  m' = with_controllers (match c with OperatorController => with_collector m | _ => m end)
         (mg_controllers m ++ [c]).
Proof.
  intros Hk. unfold SetupWithManager.
  assert (forallb (fun k => bool_decide (k ∈ mg_scheme (match c with OperatorController => with_collector m | _ => m end)))
            (watches c) = true) as ->.
  { apply forallb_forall. intros k Hin%list_elem_of_In. apply bool_decide_eq_true_2.
    destruct c; simpl; by apply Hk. }
  simpl. destruct (oe_build e (watches c)).
  - destruct c; split; (intros [= <-]; done) || (intros [_ ->]; done).
  - split; [done|by intros [? _]].
Qed.

Lemma watches_known lib c k :
  ("v1", "Pod") ∈ lk_clientgo lib -> k ∈ watches c -> k ∈ operator_scheme lib.
Proof.
  intros Hp Hk. unfold operator_scheme, addKnownTypes.
  destruct c; simpl in Hk; repeat (apply elem_of_cons in Hk as [->|Hk]); try (by apply elem_of_nil in Hk);
    (by apply elem_of_union_l, elem_of_union_l)
    || (apply elem_of_union_l, elem_of_union_r, elem_of_list_to_set; vm_compute; set_solver).
Qed.

Lemma setup_exact lib e f m :
  ("v1", "Pod") ∈ lk_clientgo lib -> setup lib e f = Ok m <-> all_succeed e f /\ m = full_manager lib f.
Proof.
  intros Hp. unfold setup, all_succeed.
  destruct (oe_GetConfig e); simpl; [|split; [done|by intros [(? & _) _]]].
  destruct (oe_NewManager e); simpl; [|split; [done|by intros [(_ & ? & _) _]]].
  destruct (oe_NewForConfig e); simpl; [|split; [done|by intros [(_ & _ & ? & _) _]]].
  rewrite !Forall_cons, Forall_nil.
  assert (forall c m1, mg_scheme m1 = operator_scheme lib ->
            forall m2, SetupWithManager e c m1 = Ok m2 <->
              oe_build e (watches c) = true /\
              m2 = with_controllers (match c with OperatorController => with_collector m1 | _ => m1 end)
                     (mg_controllers m1 ++ [c])) as Hs.
  { intros c m1 Hm m2. apply SetupWithManager_known. intros k. rewrite Hm. by apply watches_known. }
  assert (forall c m1, mg_scheme m1 = operator_scheme lib -> forall err,
            SetupWithManager e c m1 = Err err -> oe_build e (watches c) <> true) as Hf.
  { intros c m1 Hm err He Hb. specialize (proj2 (Hs c m1 Hm _) (conj Hb eq_refl)). congruence. }
  repeat match goal with
  | |- context [SetupWithManager e ?c ?m1] =>
      let E := fresh "E" in destruct (SetupWithManager e c m1) as [?|?] eqn:E;
      [apply (Hs c m1 eq_refl) in E as [? ->]; simpl
      |apply (Hf c m1 eq_refl) in E; split; [done|tauto]]
  end.
  unfold AddCheck. destruct (oe_AddCheck e "healthz"); [|split; [done|by intros [(_ & _ & _ & _ & ? & _) _]]].
  destruct (oe_AddCheck e "readyz"); [|split; [done|by intros [(_ & _ & _ & _ & _ & ?) _]]].
  split; [intros [= <-]; by repeat split|]. by intros [_ ->].
Qed.

(** The operator runs completely set up or not at all.  A manager is started
    exactly when the command line parses and every library call succeeds (the
    scheme knows every kind the controllers watch); it then has the four
    controllers, both probes and the collector, with the settings of the flags.
    The exit code is 0 only after a normal end of the manager or a request for
    help, 2 for a bad command line and 1 otherwise. *)
Theorem operator_main_exact ParseDuration library_flags lib e args :
  ("v1", "Pod") ∈ lk_clientgo lib ->
  match main ParseDuration library_flags lib e args with
  | (code, Some m) =>
      exists flags rest, Parse ParseDuration (operator_flag_defs ++ library_flags) args = Ok (flags, rest) /\
        all_succeed e (operator_flags_of flags) /\ m = full_manager lib (operator_flags_of flags) /\
        code = if oe_Start e then 0%Z else 1%Z
  | (code, None) =>
      match Parse ParseDuration (operator_flag_defs ++ library_flags) args with
      | Ok (flags, _) => ~ all_succeed e (operator_flags_of flags) /\ code = 1%Z
      | Err ErrHelp => code = 0%Z
      | Err _ => code = 2%Z
      end
  end.
Proof.
  intros Hp. unfold main. destruct (Parse _ _ args) as [[flags rest]|pe]; [|by destruct pe].
  destruct (setup lib e (operator_flags_of flags)) as [m|me] eqn:Es.
  - apply (setup_exact lib e _ m Hp) in Es as [Ha ->]. exists flags, rest. by destruct (oe_Start e).
  - split.
    + intros Ha. specialize (proj2 (setup_exact lib e _ _ Hp) (conj Ha eq_refl)). congruence.
    + unfold setup in Es. destruct me; [|done..]. exfalso.
      unfold SetupWithManager, AddCheck in Es. repeat (split_match_in Es; try done).
Qed.

(** A variable holds what the command line set, or its default. *)
Definition setting (m : flag_set) (e : string * flag_value * flag_value) : Prop :=
  m !! e.1.1 = Some e.1.2 \/ m !! e.1.1 = None /\ e.1.2 = e.2.

Lemma lookup_flag_app defs lib name k : lookup_flag defs name = Some k -> lookup_flag (defs ++ lib) name = Some k.
Proof.
  unfold lookup_flag. induction defs as [|[n k'] defs IH]; [done|]. simpl. by destruct (n =? name).
Qed.

Lemma setting_typed PD defs lib args m rest name k v :
  Parse PD (defs ++ lib) args = Ok (m, rest) -> lookup_flag defs name = Some k -> m !! name = Some v ->
  exists s, Set_value PD k s = Some v.
Proof.
  intros Hp Hk Hv. destruct (parse_typed PD _ _ _ _ Hp name v Hv) as (k' & s & Hk' & Hs).
  rewrite (lookup_flag_app _ _ _ _ Hk) in Hk'. simplify_eq. eauto.
Qed.

Ltac solve_setting Hp :=
  unfold setting; cbn [fst snd];
  match goal with |- ?m !! ?n = _ \/ _ =>
    unfold string_flag, bool_flag, duration_flag; destruct (m !! n) as [v|] eqn:Ev; [left|right; done];
    eapply (setting_typed _ _ _ _ _ _ n) in Ev as [s Hs]; [|exact Hp|reflexivity];
    unfold Set_value, option_map in Hs; try (destruct (ParseBool s); [|done]); try (destruct (_ s); [|done]);
    injection Hs as <-; reflexivity end.


(** The metrics endpoint speaks HTTP/2 only when asked to, and is protected
    exactly when it is served securely. *)
Theorem metrics_hardened f c :
  NextProtos (fold_left (fun c opt => opt c) (TLSOpts (metrics_server_options f)) c) =
    (if of_enableHTTP2 f then NextProtos c else ["http/1.1"]) /\
  FilterProvider (metrics_server_options f) = SecureServing (metrics_server_options f).
Proof. unfold metrics_server_options. by destruct (of_enableHTTP2 f). Qed.

(** ** From the command lines to the runtime *)

Lemma InDir_spec p d :
  ValidateCheckpointPathInDir p d = Ok tt <->
  ValidateCheckpointPath p = Ok tt /\ Dir p = Clean (allowed_dir d).
Proof.
  unfold ValidateCheckpointPathInDir, allowed_dir. destruct (ValidateCheckpointPath p) as [[]|]; [|by intuition].
  destruct (Dir p =? _) eqn:E; simpl; to_prop; intuition congruence.
Qed.

(** C4. A restore works end to end exactly when the two commands agree.  Take a
    PodRestore the operator's settings accept, the Pod it renders for it, and a
    running proxy process (in any state) with a request for one of its containers
    in flight, in a sandbox of the PodRestore's namespace; the archive records that
    namespace.  Then the annotated path is one the PodRestore lists for the
    container, and handling the request forwards it to the runtime with that path
    as its image, and answers with what the runtime says to it, if and only if the
    operator's [--restore-checkpoint-dir] and the proxy's [--checkpoint-dir] clean to
    the same directory; otherwise nothing is forwarded and the proxy answers with
    its own error. *)
Theorem restore_end_to_end {T} env rc (ic : ImageServiceClient T) now fs of_ pr p
    q n id req name path now' :
  validateSpec (restore_settings of_) pr = Ok tt -> renderPod env now fs pr = Ok p ->
  pr_exit q = None -> pr_inflight q !! n = Some (id, RCreate req) ->
  sandbox_annotations req = p_annotations p -> sandbox_namespace req = pr_Namespace pr ->
  pr_Namespace pr <> "" -> requested req = Some (name, path) ->
  ReadPodNamespace env now' (pr_fs q) path = Ok (pr_Namespace pr) ->
  let same_dir := Clean (allowed_dir (of_restoreCheckpointDir of_)) =
                  Clean (allowed_dir (pf_checkpointDir (sv_flags (pr_server q)))) in
  (exists cp, cp ∈ Checkpoints (pr_Spec pr) /\ cc_Container cp = name /\ cc_Path cp = path) /\
  exists q' h, pstep env rc ic (Handle now' n) q = Some q' /\ pr_answered q' = pr_answered q ++ [h] /\
    hd_id h = id /\
    (same_dir -> exists cfg, req_Config req = Some cfg /\
       pr_upstream q' = pr_upstream q ++ [RCreate (set_image req cfg path)] /\
       hd_answer h = ACreate (map_err inr (client_CreateContainer rc (set_image req cfg path)))) /\
    (~ same_dir -> pr_upstream q' = pr_upstream q /\ exists e, hd_answer h = ACreate (Err (inl e))).
Proof.
  intros Hv Hren Hx Hn Hann Hns Hne Hreq Hread same_dir.
  pose proof (renderPod_restore _ _ _ _ _ _ Hv Hren) as (_ & _ & _ & _ & _ & Hpaths & _).
  assert (exists cp, cp ∈ Checkpoints (pr_Spec pr) /\ cc_Container cp = name /\ cc_Path cp = path /\
            ValidateCheckpointPathInDir path (of_restoreCheckpointDir of_) = Ok tt) as (cp & Hcp & Hc & Hp & Hin).
  { pose proof Hreq as Hr. unfold requested, mbind, option_bind in Hr.
    destruct (req_Config req) as [cfg|]; [|done]. destruct (cfg_Metadata cfg) as [nm|]; [|done].
    destruct (sandbox_annotations req !! _) as [pth|] eqn:Ea; [|done].
    destruct (pth =? "")%string; [done|]. simplify_eq. rewrite Hann in Ea.
    destruct (Hpaths _ _ Ea (HasPrefix_app _ _)) as (cp & Hcp & Hk & -> & Hvp & _).
    apply append_inj_l in Hk. by exists cp. }
  split; [eauto|]. apply InDir_spec in Hin as [Hpath Hdir].
  unfold pstep. rewrite Hx. unfold handle, dispatch, CreateContainer. rewrite Hn.
  destruct (rewrite_requested env now' (pr_fs q) req (proxy_options (sv_flags (pr_server q))) name path Hreq)
    as [([Ha _] & cfg & Hcfg & Hrw)|(Hna & e & Hrw)]; simpl; rewrite Hrw.
  - do 2 eexists. split; [reflexivity|]. split; [reflexivity|]. split; [reflexivity|].
    apply InDir_spec in Ha as [_ Ha]. simpl in Ha. split.
    + intros _. exists cfg. split; [done|]. split; [|done]. unfold pr_upstream. simpl. by rewrite omap_app.
    + intros Hd. destruct Hd. subst same_dir. congruence.
  - do 2 eexists. split; [reflexivity|]. split; [reflexivity|]. split; [reflexivity|]. split.
    + intros Hd. destruct Hna. split; [apply InDir_spec; split; [done|]; simpl; subst same_dir; congruence|].
      right. by rewrite Hns.
    + intros _. unfold pr_upstream. simpl. rewrite omap_app, app_nil_r. eauto.
Qed.

(** With neither flag given, the two commands agree. *)
Lemma default_dirs_agree :
  of_restoreCheckpointDir (operator_flags_of ∅) = pf_checkpointDir (proxy_flags_of ∅).
Proof. reflexivity. Qed.

(** ** Witnesses *)

Definition demo_library : library_kinds := {| lk_clientgo := {[ ("v1", "Pod") ]}; lk_meta := ["WatchEvent"] |}.
Definition demo_operator_env : operator_env :=
  {| oe_GetConfig := true; oe_NewManager := true; oe_NewForConfig := true; oe_build := fun _ => true;
     oe_AddCheck := fun _ => true; oe_Start := true |}.
Definition demo_operator_args : list string :=
  ["--leader-elect"; "-restore-checkpoint-dir=/var/lib/kubelet/checkpoints/"].
Definition demo_operator : Z * option manager :=
  main (fun _ => None) [("kubeconfig", FString)] demo_library demo_operator_env demo_operator_args.

Lemma demo_flags :
  match Parse (fun _ => None) (operator_flag_defs ++ [("kubeconfig", FString)]) demo_operator_args with
  | Ok (fl, _) => of_enableLeaderElection (operator_flags_of fl) &&
      (of_restoreCheckpointDir (operator_flags_of fl) =? "/var/lib/kubelet/checkpoints/")%string
  | Err _ => false
  end = true.
Proof. vm_compute. reflexivity. Qed.

Lemma operator_main_exact_witness :
  exists f, demo_operator = (0%Z, Some (full_manager demo_library f)) /\
    of_enableLeaderElection f = true /\ of_restoreCheckpointDir f = "/var/lib/kubelet/checkpoints/".
Proof.
  assert (("v1", "Pod") ∈ lk_clientgo demo_library) as Hp by set_solver.
  assert (match demo_operator.2 with Some _ => true | None => false end = true) as Hran by (vm_compute; reflexivity).
  pose proof demo_flags as Hflags.
  pose proof (operator_main_exact (fun _ => None) [("kubeconfig", FString)] demo_library demo_operator_env
                demo_operator_args Hp) as H.
  fold demo_operator in H. destruct demo_operator as [code [m|]]; [|discriminate Hran].
  destruct H as (flags & rest & Hf & _ & -> & ->). rewrite Hf in Hflags.
  apply andb_prop in Hflags as [Hl Hd%String.eqb_eq]. exists (operator_flags_of flags). auto.
Defined.


Definition demo_restoring (dir : string) : proc demo_types :=
  accept (serve {| sv_flags := {| pf_upstream := ""; pf_listen := "/run/p.sock"; pf_checkpointDir := dir;
                                  pf_allowCrossNamespace := false; pf_upstreamTimeout := 1%Z;
                                  pf_healthAddr := ""; pf_healthTimeout := 1%Z |};
                   sv_listener := UnixSocket "/run/p.sock"; sv_inherited := false |}
            (w_fs (demo_world (demo_pr false) ∅))) (RCreate demo_request).

Lemma restore_end_to_end_witness :
  exists q', pstep demo_env demo_runtime demo_images (Handle 9%Z 0%nat)
               (demo_restoring "/var/lib/kubelet/checkpoints/") = Some q' /\
    length (pr_upstream q') = 1%nat.
Proof.
  destruct (restore_end_to_end demo_env demo_runtime demo_images 7
    (w_fs (demo_world (demo_pr false) ∅)) (operator_flags_of ∅) (demo_pr false) (demo_pod PodPending)
    (demo_restoring "/var/lib/kubelet/checkpoints/") 0%nat 0%nat demo_request "nginx" demo_archive 9%Z)
    as (_ & q' & h & Hq & _ & _ & Hsame & _).
  - vm_compute; reflexivity.
  - exact demo_restore_pod.
  - reflexivity.
  - reflexivity.
  - reflexivity.
  - reflexivity.
  - discriminate.
  - vm_compute; reflexivity.
  - vm_compute; reflexivity.
  - exists q'. split; [exact Hq|]. destruct Hsame as (cfg & _ & Hs & _); [vm_compute; reflexivity|].
    exact (f_equal length Hs).
Defined.
